(* ===== verification/_CoqProject ===== *)
-Q . S2P
Prelude.v
Types.v
GoBytes.v
RingBuffer.v
Tracker.v
Committer.v
TrackerFacts.v
Repair.v
Safety.v
Monotone.v
Prev.v
CommitterFacts.v
Subscription.v
Forward.v
RangeOrder.v
World.v
WorldInv.v
WorldSteps.v
Accounting.v
Run.v
WorldTheorems.v
Epoch.v
Handover.v
Duration.v
DurationText.v
Calendar.v
Logs.v
Config.v
ConfigJson.v
Fnv.v
CircuitBreaker.v
Lifecycle.v
License.v
Worker.v
Demux.v
DemuxFacts.v
DemuxTheorems.v
DemuxDrain.v
DemuxRun.v
DemuxItems.v
DemuxLive.v
Processor.v
Engine.v
EngineRefines.v
EngineOrder.v
EngineTheorems.v
EngineHandover.v
EngineRun.v
EngineLive.v
Collector.v
Bandwidth.v
Exit.v
ExitLive.v
Builder.v
Assembly.v
Snapshot.v
Recorder.v
SnapshotJson.v
Throttle.v
Drain.v
DrainCalls.v
Findings.v
