(* ===== verification/Prelude.v ===== *)
(** * llingr-demux: a verification development

    llingr-demux is a Go consumer engine.  It polls a partitioned log, hands the
    records to one worker per key, so that records of different keys are processed
    concurrently and records of one key in order, and commits to the broker, per
    partition, a position below which every record has been processed.

    ** The parts of the program

    - [demux/subscription] polls the broker, forwards each payload to the
      processor, and handles rebalances by a sequence of calls on the other parts.
    - [demux/pipeline/processor.go] borrows a work item ([demux/alloc]), stamps it
      with the offset polled before it on its partition ([demux/pipeline/prev]),
      acquires a guard token and dispatches it.
    - [demux/pipeline] routes it by the FNV-1a hash of its key to a shard, and in
      the shard to the worker that serves the key; a worker calls the application,
      writes a dead letter when that fails, and passes the item on; it leaves the
      shard's map when its channel is empty.
    - [demux/offset] ingests completed items in any order, keeps per partition the
      item ready to commit ([Ready]) and the items that completed early (the gap
      buffer), and commits on a ticker and when draining.
    - [demux/drain], [demux/circuitbreaker], and the exit paths of [demux] end a
      consumer; [demux/metrics] and [demux/bandwidth] observe it.
    - [demux/demux_consumer_builder.go] wires a consumer from a validated
      configuration ([demux/config]) and reports its license
      ([demux/config/verify]); [demux/demux_consumer.go] subscribes it.

    The parts share state through the committer's mutex, the shards' mutexes and
    channels; a work item is owned by one part at a time.

    ** The files

    Shared: [Prelude] (machine integers, slices, channels, iteration over Go maps,
    tactics, hint databases and generic lemmas), [Types] (work items), and the parts
    of Go's standard library that the sources call on strings: [GoBytes] (base64,
    query strings, decimal integers), [Duration] ([time.ParseDuration], with its
    binary64 arithmetic), [DurationText] ([time.Duration.String], and that the parser
    reads every duration back exactly) and [Calendar] ([time.Time.Format], and that a
    timestamp is read back by the rules of the calendar).  Code outside the
    repository is a parameter: the [nexus] package is the class [Nexus] with the laws
    [NexusOk]; what the Go runtime leaves open (the growth of a slice, the order of
    an unstable sort) is the class [GoRuntime] with the laws [GoRuntimeOk]; both have
    concrete instances; Ed25519 is a verification function with the law of a key pair
    ([keyPair]).  The application, the sinks and the broker are the outcomes of their
    calls, universally quantified; the clock is a number.

    The committer.  [Tracker] has [OffsetsTracker] and the operations on one
    partition ([checkAndAdvance], [walk] and [flushTracker], [repairSuccessor],
    [resetTracker], [collectCommit], [ackCommit]); [Committer] has the component's
    state and its operations ([processCommit], [flushGapBuffers], [CommitOffsets],
    [ResetCommittedOffsets], the rebalance marks, [DrainCommitter]); [RingBuffer]
    the metrics window (C34).  [TrackerFacts], [Safety], [Monotone],
    [CommitterFacts], [Forward] and [Accounting] are their lemmas: what each
    operation does to the watermark, to the records it covers, and to the items.
    [Repair] states exactly what the successor repair (C18) and the resizing of the
    gap buffer do, and [RangeOrder] that the order in which Go ranges over the
    maps does not reach the commits, though it does reach the buckets of the metrics
    window (C16).

    The committer and the group.  [Prev] is the stamping (C17), [Subscription] the
    rebalance handler and the polling loop, [Logs] what they and the committer log,
    and [World] the step relation in which polling, completion, ingest, commit ticks,
    the calls of a rebalance handler and other members of the group interleave, with
    the pipeline as a bag of items in flight.  [WorldInv] states its invariant,
    [WorldSteps] shows that every step keeps it, [Run] is a concrete run, and
    [WorldTheorems] shows that positions never move back and that only owned
    partitions are committed (C5, C6).  [Epoch] specifies one ownership epoch by the
    longest completed prefix and shows the tracker refines it and leaves nothing
    behind (C8, C9); [Handover] carries that specification through the steps of
    [World], from an assign to the drain of a revoke.

    The demultiplexer.  [Fnv] is the routing, [Worker] what becomes of one item
    (C15), [Processor] the pool of work items and what precedes the dispatch (C31),
    [Demux] the shards, the pool, the dispatcher and the workers as a step relation;
    [DemuxFacts] has the invariant of a shard, [DemuxTheorems] the exclusion (C11) and
    the concurrency bound, [DemuxDrain] the drain of the workers (C13),
    [DemuxItems] the items the pipeline holds, [DemuxLive] the work left in the shards,
    [DemuxRun] a concrete run.

    The whole consumer.  [Engine] puts the two together: the polling loop stamps an
    item, acquires a token and dispatches it to the shards of [Demux]; a worker that
    has handled an item sends it to the committer of [World]; a trip stops them all.
    [EngineRefines] is the simulation: every step of [Engine] is a step of [World] or
    none.  [EngineOrder] follows the items of a key from the poll to the handler.
    [EngineTheorems] concludes for every run that nothing below a committed position
    is unhandled (C1), that the consumer refines [World] (C3), that no two parts hold
    the same work item (C7) and that each key is handled in the order it was polled
    (C10).  [EngineHandover] composes the drains of the workers and of the committer:
    the position a drained hand-over leaves is the one after the last record polled
    (C2).  [EngineRun] is a concrete run.  [EngineLive] shows that a drain of the
    workers comes to an end although they wait for room in the committer's channel
    (C14).  [Assembly] starts the engine from what
    [Build] wires, with the concurrency bound (C4).

    Building, starting and ending.  [Config] is the configuration (C27), [ConfigJson]
    its loading from JSON: equal to a field-by-field reading, and a round trip (C28,
    C29).  [License] is the license check, sound for arbitrary tokens and complete for
    issued ones (C25, C26).  [Builder] wires the components' initial states from a
    builder that [Build] itself changes (C30).  [CircuitBreaker] (C20, C21),
    [Lifecycle] ([Subscribe] against trips and rebalances, C22), [Drain] (one drain,
    C24) and [DrainCalls] (concurrent drains under the coordinator's mutex, C19) are
    parts of the consumer's life and end.  [Exit] composes the end: calls of
    [Shutdown], the goroutines of [subscription.Unsubscribe] with their drains and
    timeouts, the calls of the breaker of [CircuitBreaker] and the observer interleave,
    and the host is told at most once, and rightly (C23); [ExitLive] shows by a measure
    of the work left that they come to rest, and that the host has then been told,
    unless the goroutine that would tell it is held by foreign code (C12).

    Observation and throttling.  [Collector] (the collect loops, their sink calls and
    the callers of [Collect], action by action, C32), [Bandwidth] (C33), [Snapshot]
    (the labelled windows, C35), [Recorder] (the whole snapshot, each part read at its own
    moment, C36), [SnapshotJson] (its JSON document and the HTTP handler over a
    [ResponseWriter], with a client that reads the document back, C37), [Throttle]
    (C38).  [Findings] shows behaviours that are not what the code means to do: of every
    state in which they strike (C39, C40), and on concrete runs (the dead-letter count,
    the window of an idle consumer, the copy of a duplicate, and ends of the consumer
    that the host is not, or wrongly, told of).

    ** Choices

    Integers are [Z]; where the code adds to a 64-bit counter or an offset the
    wrap-around is written out ([add64]) and the theorems state the bound they
    need.  A [range] over a Go map takes the order of its visit as an argument.
    The batch loop of the ingest goroutine and the resize loop of the gap buffer
    have fuel that the code's own bound provides: [readBatchSize] items, and one
    turn per buffered item, each turn raising a capacity by at least one.  The loop
    of [ParseDuration] has the length of the text as fuel ([durationLoop_fuel]); an
    integer has at most twenty digits.  A drain, a batch, a call of the breaker, a
    subscription and a shutdown are sequences of atomic actions; an action is what
    runs between two acquisitions of a mutex or two channel operations.  A panic is a
    value ([Outcome], [ConfigError], [BuilderPanic]).

    A JSON document is the tree that the scanner of [encoding/json] delivers, or whose
    text its encoder writes; what the decoder does with it (case-insensitive keys,
    repeated members, [null], members of the wrong type), and how values become
    strings and numbers, is modelled.

    [World] assumes of a rebalance event what the group protocol gives: a partition
    is granted while no other member owns it, the position the adapter reports is
    not above the broker's, and an assign names at least one partition; C39 shows
    what happens without the last.  The pointer of a work item names one use of it: in
    [Engine] an object that the pool hands out again is a new item; that it enters like
    a new one, but for one field, is C31.

    Liveness is stated with the waits it depends on.  In [EngineLive] a worker waits
    while the committer's channel is full; handlers, commits and the scheduler are
    assumed to go on.  In [Exit] a goroutine waits for the rate limiter's [Stop], the
    drain, the adapter's unsubscription and the sinks, which may never return; the
    logger and the callback are assumed to.

    ** Not modelled

    The calls of the logger, other than which lines the license check and the
    descriptions of commits and rebalances give; error texts; the accessors of the
    consumer, which return fields; the test kit and the benchmarks.  In [Engine] a trip
    of the breaker is one step; the actions of the call that trips it are those of
    [CircuitBreaker], and the goroutines that watch it at the end those of [Exit].  The
    breaker sends its reason as it is; the code sends a text with the reason in it.  In
    [Demux] alone the end of a handler includes the send to the committer, which only
    [Engine] makes wait for room.  In
    [Exit] a drain is one action that succeeds or fails; its parts are [DemuxDrain],
    [Drain] and [EngineHandover]. *)
From stdpp Require Import base gmap list strings sorting relations.
Open Scope Z_scope.

(** ** Machine integers *)

(** Two's complement wrap-around of a mathematical integer to [int64],
    [int32] and [uint32]. *)
Definition wrap64 (z : Z) : Z := (z + 2^63) mod 2^64 - 2^63.
Definition wrap32 (z : Z) : Z := (z + 2^31) mod 2^32 - 2^31.
Definition wrapu32 (z : Z) : Z := z mod 2^32.

Definition in_int64 (z : Z) : Prop := - 2^63 <= z < 2^63.

(** [int64] addition as Go computes it. *)
Definition add64 (a b : Z) : Z := wrap64 (a + b).

(** [time.Second]; times and durations are nanoseconds. *)
Definition second : Z := 1000000000.

Declare Scope go_scope.
Delimit Scope go_scope with go.
Notation "a +64 b" := (add64 a b) (at level 50, left associativity) : go_scope.

(** ** Go slices

    A slice is its visible elements and its capacity; the backing array
    beyond the length is never observed by the modelled code. *)
Record Slice (A : Type) := mkSlice { elems : list A; cap : Z }.
Arguments mkSlice {A} _ _.
Arguments elems {A} _.
Arguments cap {A} _.

(** What the runtime and the standard library leave open: the capacity
    [append] chooses when it reallocates, and the order an unstable
    [slices.SortFunc] gives to elements that compare equal. *)
Class GoRuntime := {
  growslice : Z -> Z -> Z;
  SortFunc : forall {A : Type}, (A -> A -> Z) -> list A -> list A
}.

(** What the Go documentation promises of them. *)
Class GoRuntimeOk (RT : GoRuntime) : Prop := {
  growslice_ge : forall c n, n <= growslice c n;
  SortFunc_perm : forall A (cmp : A -> A -> Z) l, SortFunc cmp l ≡ₚ l;
  SortFunc_sorted : forall A (cmp : A -> A -> Z) l,
    (forall a b, cmp a b <= 0 \/ cmp b a <= 0) ->
    (forall a b c, cmp a b <= 0 -> cmp b c <= 0 -> cmp a c <= 0) ->
    StronglySorted (fun a b => cmp a b <= 0) (SortFunc cmp l)
}.

Section Slices.
Context `{RT : GoRuntime} {A : Type}.
Implicit Types s : Slice A.

Definition slen s : Z := Z.of_nat (length (elems s)).

(** [make([]A, 0, n)] *)
Definition makeSlice (n : Z) : Slice A := mkSlice [] n.

(** [append(s, x)] *)
Definition sappend s (x : A) : Slice A :=
  mkSlice (elems s ++ [x])
    (if slen s <? cap s then cap s else growslice (cap s) (slen s + 1)).

(** [s[k:]] *)
Definition sfrom (k : nat) s : Slice A := mkSlice (drop k (elems s)) (cap s - Z.of_nat k).

(** [s[:0]] *)
Definition sclear s : Slice A := mkSlice [] (cap s).

(** [slices.Grow(s, n)] *)
Definition sgrow s (n : Z) : Slice A :=
  mkSlice (elems s) (if n - (cap s - slen s) >? 0 then growslice (cap s) (slen s + n) else cap s).

(** [slices.CompactFunc(l, eq)]: keeps the first element of each run of
    consecutive elements that are equal under [eq]. *)
Fixpoint compactFrom (eq : A -> A -> bool) (prev : A) (l : list A) : list A :=
  match l with
  | [] => []
  | x :: l' => if eq prev x then compactFrom eq prev l' else x :: compactFrom eq x l'
  end.

Definition CompactFunc (eq : A -> A -> bool) (l : list A) : list A :=
  match l with
  | [] => []
  | x :: l' => x :: compactFrom eq x l'
  end.

End Slices.

(** ** Buffered channels

    The queued values and the capacity.  Sends and receives are the
    non-blocking forms: [None] is the [default] branch of the [select], or the
    point where the blocking form would park the goroutine. *)
Record Chan (A : Type) := mkChan { queued : list A; chCap : Z }.
Arguments mkChan {A} _ _.
Arguments queued {A} _.
Arguments chCap {A} _.

Definition makeChan {A} (n : Z) : Chan A := mkChan [] n.
Definition chLen {A} (c : Chan A) : Z := Z.of_nat (length (queued c)).

Definition trySend {A} (c : Chan A) (x : A) : option (Chan A) :=
  if chLen c <? chCap c then Some (mkChan (queued c ++ [x]) (chCap c)) else None.

Definition tryRecv {A} (c : Chan A) : option (A * Chan A) :=
  match queued c with
  | [] => None
  | x :: q => Some (x, mkChan q (chCap c))
  end.

(** ** Ranging over a Go map

    [for k, v := range m] visits every entry once, in an order the runtime
    chooses.  [visit f order m] runs the loop body [f] (which may mutate the
    entry it visits and produce an output) for the keys of [order], in that
    order.  The theorems quantify over the order. *)
Section Visit.
Context {K A O : Type} `{Countable K}.
Variable f : K -> A -> A * O.

Fixpoint visit (order : list K) (m : gmap K A) : gmap K A * list O :=
  match order with
  | [] => (m, [])
  | k :: order' =>
      match m !! k with
      | None => visit order' m
      | Some a =>
          let '(a', o) := f k a in
          let '(m', os) := visit order' (<[k := a']> m) in
          (m', o :: os)
      end
  end.

End Visit.

(** An order in which a [range] loop may visit the map. *)
Definition range_order {K A : Type} `{Countable K} (m : gmap K A) (order : list K) : Prop :=
  NoDup order /\ forall k, k ∈ order <-> is_Some (m !! k).

(** ** Tactics *)

(** Case analysis on the boolean integer tests of the goal or a hypothesis,
    turning each into the proposition it decides. *)
Ltac case_Z :=
  repeat match goal with
  | |- context [Z.ltb ?a ?b] => destruct (Z.ltb_spec a b)
  | |- context [Z.leb ?a ?b] => destruct (Z.leb_spec a b)
  | |- context [Z.eqb ?a ?b] => destruct (Z.eqb_spec a b)
  | |- context [Z.gtb ?a ?b] => rewrite (Z.gtb_ltb a b)
  | |- context [Z.geb ?a ?b] => rewrite (Z.geb_leb a b)
  | H : context [Z.ltb ?a ?b] |- _ => destruct (Z.ltb_spec a b)
  | H : context [Z.leb ?a ?b] |- _ => destruct (Z.leb_spec a b)
  | H : context [Z.eqb ?a ?b] |- _ => destruct (Z.eqb_spec a b)
  end.

(** Split the conjunctions, existentials and pairs of the context. *)
Ltac destruct_ctx :=
  repeat match goal with
  | H : _ /\ _ |- _ => destruct H
  | H : exists _, _ |- _ => destruct H
  | H : (_, _) = (_, _) |- _ => injection H as ? ?
  | H : Some _ = Some _ |- _ => injection H as ?
  end; subst.

Create HintDb demux.
Create Rewrite HintDb demux_rw.

(** ** Lemmas *)

Lemma wrap64_id z : in_int64 z -> wrap64 z = z.
Proof. unfold in_int64, wrap64. intros. rewrite Z.mod_small; lia. Qed.

Lemma wrap64_range z : in_int64 (wrap64 z).
Proof.
  unfold in_int64, wrap64.
  pose proof (Z.mod_pos_bound (z + 2^63) (2^64) ltac:(lia)). lia.
Qed.

Lemma wrap64_add_l a b : wrap64 (wrap64 a + b) = wrap64 (a + b).
Proof.
  unfold wrap64.
  replace ((a + 2^63) mod 2^64 - 2^63 + b + 2^63) with ((a + 2^63) mod 2^64 + b) by lia.
  rewrite Zplus_mod_idemp_l. do 2 f_equal. lia.
Qed.

Lemma add64_id a b : in_int64 (a + b) -> add64 a b = a + b.
Proof. apply wrap64_id. Qed.

#[export] Hint Resolve wrap64_range : demux.

Section CompactLemmas.
Context {A : Type} (key : A -> Z).
Let eq (a b : A) : bool := key a =? key b.

Lemma compactFrom_sublist prev l : compactFrom eq prev l `sublist_of` l.
Proof.
  revert prev. induction l as [|x l IH]; intros prev; simpl; [constructor|].
  destruct (eq prev x); [apply sublist_cons, IH | apply sublist_skip, IH].
Qed.

Lemma CompactFunc_sublist l : CompactFunc eq l `sublist_of` l.
Proof. destruct l as [|x l]; simpl; [constructor | apply sublist_skip, compactFrom_sublist]. Qed.

(** On a list sorted by key, compacting leaves strictly increasing keys. *)
Lemma compactFrom_strict prev l :
  StronglySorted (fun a b => key a <= key b) (prev :: l) ->
  StronglySorted (fun a b => key a < key b) (compactFrom eq prev l) /\
  Forall (fun b => key prev < key b) (compactFrom eq prev l).
Proof.
  revert prev. induction l as [|x l IH]; intros prev Hs; simpl; [split; constructor|].
  apply StronglySorted_inv in Hs as [Hs Hall]. apply Forall_cons in Hall as [Hx Hall].
  destruct (eq prev x) eqn:E; [apply Z.eqb_eq in E | apply Z.eqb_neq in E].
  - apply IH. apply StronglySorted_inv in Hs as [Hs _]. by constructor.
  - apply IH in Hs as [Hs Hlt]. split; [by constructor|].
    constructor; [lia|]. eapply Forall_impl; [exact Hlt|]. simpl; lia.
Qed.

Lemma CompactFunc_strict l :
  StronglySorted (fun a b => key a <= key b) l ->
  StronglySorted (fun a b => key a < key b) (CompactFunc eq l).
Proof.
  destruct l as [|x l]; simpl; [constructor|]. intros Hs.
  apply compactFrom_strict in Hs as [??]. by constructor.
Qed.

(** Compacting never loses a key. *)
Lemma compactFrom_key prev l x :
  x ∈ l -> key x = key prev \/ exists y, y ∈ compactFrom eq prev l /\ key y = key x.
Proof.
  revert prev. induction l as [|z l IH]; intros prev Hx; [by apply not_elem_of_nil in Hx|].
  simpl. destruct (eq prev z) eqn:E; [apply Z.eqb_eq in E | apply Z.eqb_neq in E];
    apply elem_of_cons in Hx as [->|Hx]; auto.
  - right. exists z. split; [by left | done].
  - destruct (IH z Hx) as [Hk|(y & Hy & Hk)]; right.
    + exists z. split; [by left | done].
    + exists y. split; [by right | done].
Qed.

Lemma CompactFunc_key l x :
  x ∈ l -> exists y, y ∈ CompactFunc eq l /\ key y = key x.
Proof.
  destruct l as [|z l]; simpl; intros Hx; [by apply not_elem_of_nil in Hx|].
  apply elem_of_cons in Hx as [->|Hx]; [exists z; split; [by left | done]|].
  destruct (compactFrom_key z l x Hx) as [Hk|(y & Hy & Hk)].
  - exists z. split; [by left | done].
  - exists y. split; [by right | done].
Qed.

(** With distinct keys there is nothing to compact. *)
Lemma compactFrom_nodup prev l :
  NoDup (map key (prev :: l)) -> compactFrom eq prev l = l.
Proof.
  revert prev. induction l as [|x l IH]; intros prev Hd; simpl in *; [done|].
  apply NoDup_cons in Hd as [Hni Hd]. 
  destruct (eq prev x) eqn:E; [apply Z.eqb_eq in E | apply Z.eqb_neq in E].
  - destruct Hni. rewrite E. by left.
  - f_equal. by apply IH.
Qed.

Lemma CompactFunc_nodup l : NoDup (map key l) -> CompactFunc eq l = l.
Proof. destruct l as [|x l]; [done|]. intros Hd. simpl. by rewrite compactFrom_nodup. Qed.

End CompactLemmas.

Section VisitLemmas.
Context {K A O : Type} `{Countable K}.
Implicit Types (m : gmap K A) (order : list K).

Lemma visit_lookup_notin (f : K -> A -> A * O) order m k :
  k ∉ order -> (visit f order m).1 !! k = m !! k.
Proof.
  revert m. induction order as [|j order IH]; intros m Hk; simpl; [done|].
  apply not_elem_of_cons in Hk as [Hne Hk].
  destruct (m !! j) as [a|]; [|by apply IH].
  destruct (f j a) as [a' o]. specialize (IH (<[j:=a']> m) Hk).
  destruct (visit f order _) as [m' os]. simpl in *.
  by rewrite IH, lookup_insert_ne.
Qed.

(** Every entry is visited exactly once: the loop maps the body over the map. *)
Lemma visit_lookup (f : K -> A -> A * O) order m k :
  NoDup order -> k ∈ order ->
  (visit f order m).1 !! k = (fun a => (f k a).1) <$> m !! k.
Proof.
  revert m. induction order as [|j order IH]; intros m Hd Hk; simpl; [by apply not_elem_of_nil in Hk|].
  apply NoDup_cons in Hd as [Hj Hd].
  destruct (decide (k = j)) as [->|Hne].
  - destruct (m !! j) as [a|] eqn:E.
    + destruct (f j a) as [a' o] eqn:F.
      pose proof (visit_lookup_notin f order (<[j:=a']> m) j Hj) as Hv.
      destruct (visit f order _) as [m' os]. simpl in *.
      by rewrite Hv, lookup_insert_eq, F.
    + rewrite visit_lookup_notin by done. by rewrite E.
  - apply elem_of_cons in Hk as [?|Hk]; [done|].
    destruct (m !! j) as [a|]; [|by apply IH].
    destruct (f j a) as [a' o]. specialize (IH (<[j:=a']> m) Hd Hk).
    destruct (visit f order _) as [m' os]. simpl in *.
    by rewrite IH, lookup_insert_ne.
Qed.

Lemma visit_range (f : K -> A -> A * O) order m :
  range_order m order -> (visit f order m).1 = map_imap (fun k a => Some (f k a).1) m.
Proof.
  intros [Hd Hin]. apply map_eq. intros k. rewrite map_lookup_imap.
  destruct (decide (k ∈ order)) as [Hk|Hk].
  - rewrite visit_lookup by done. by destruct (m !! k).
  - rewrite visit_lookup_notin by done.
    destruct (m !! k) eqn:E; [|done]. destruct Hk. apply Hin. by rewrite E.
Qed.

(** The outputs of the loop, entry by entry. *)
Lemma visit_out (f : K -> A -> A * O) order m :
  NoDup order ->
  (visit f order m).2 = omap (fun k => (fun a => (f k a).2) <$> m !! k) order.
Proof.
  revert m. induction order as [|j order IH]; intros m Hd; simpl; [done|].
  apply NoDup_cons in Hd as [Hj Hd].
  destruct (m !! j) as [a|] eqn:E; simpl; [|by apply IH].
  destruct (f j a) as [a' o] eqn:F. specialize (IH (<[j:=a']> m) Hd).
  destruct (visit f order _) as [m' os]. simpl in *. f_equal. rewrite IH.
  clear -Hj. induction order as [|i order IHo]; [done|].
  apply not_elem_of_cons in Hj as [Hne Hj]. simpl.
  rewrite lookup_insert_ne by done. specialize (IHo Hj).
  destruct (m !! i); simpl; [f_equal|]; exact IHo.
Qed.

(** Reflexive view of [visit] for induction over the outputs and the map. *)
Lemma visit_inv (f : K -> A -> A * O) (P : gmap K A -> list O -> Prop) order m :
  P m [] ->
  (forall m0 os k a, P m0 os -> m0 !! k = Some a ->
     P (<[k := (f k a).1]> m0) (os ++ [(f k a).2])) ->
  P (visit f order m).1 (visit f order m).2.
Proof.
  intros Hinit Hstep.
  enough (forall os0 m0, P m0 os0 ->
            P (visit f order m0).1 (os0 ++ (visit f order m0).2)) as HG
    by exact (HG [] m Hinit).
  clear m Hinit. induction order as [|j order IH]; intros os0 m0 HP; simpl.
  - by rewrite app_nil_r.
  - destruct (m0 !! j) as [a|] eqn:E; [|by apply IH].
    pose proof (Hstep _ _ _ _ HP E) as HP'. destruct (f j a) as [a' o]. simpl in HP'.
    specialize (IH _ _ HP'). destruct (visit f order _) as [m' os]. simpl in *.
    by rewrite <- app_assoc in IH.
Qed.

End VisitLemmas.

(** Reading a list back item by item. *)
Lemma mapM_map {A B C} (f : A -> B) (g : B -> option C) (h : A -> C) (P : A -> Prop) l :
  (forall a, P a -> g (f a) = Some (h a)) -> Forall P l -> mapM g (map f l) = Some (map h l).
Proof.
  intros H HP. induction HP as [|a l Ha _ IH]; [done|]. cbn [map mapM]. rewrite (H a Ha). cbn [mbind option_bind].
  by rewrite IH.
Qed.

(** ** Sums over a map *)

Section MapSum.
Context {K A : Type} `{Countable K} (f : A -> nat).
Implicit Types (m : gmap K A).

Definition mapSum m : nat := map_fold (fun _ x n => (f x + n)%nat) 0%nat m.

Lemma mapSum_fresh m k x : m !! k = None -> mapSum (<[k := x]> m) = (f x + mapSum m)%nat.
Proof. intros Hk. unfold mapSum. rewrite map_fold_insert_L; [done | intros; lia | done]. Qed.

Lemma mapSum_update m k x y : m !! k = Some y -> (mapSum (<[k := x]> m) + f y = mapSum m + f x)%nat.
Proof.
  intros Hk. rewrite <- (insert_delete_id m k y Hk) at 2. rewrite <- insert_delete_eq.
  rewrite !mapSum_fresh by apply lookup_delete_eq. lia.
Qed.

Lemma mapSum_zero m : mapSum m = 0%nat -> forall k x, m !! k = Some x -> f x = 0%nat.
Proof.
  intros H0 k x Hk. rewrite <- (insert_delete_id m k x Hk), mapSum_fresh in H0 by apply lookup_delete_eq. lia.
Qed.

Lemma mapSum_none m : (forall k x, m !! k = Some x -> f x = 0%nat) -> mapSum m = 0%nat.
Proof.
  induction m as [|k x m Hk IH] using map_ind; intros Hz; [done|].
  rewrite mapSum_fresh by done. rewrite (Hz k x) by apply lookup_insert_eq. apply IH.
  intros j y Hj. apply (Hz j). rewrite lookup_insert_ne; [done | congruence].
Qed.
End MapSum.

(** ** What the entries of a map, or of a list, hold *)

Section Gather.
Context {K A B : Type} `{Countable K} (f : A -> list B).

Definition gather (m : gmap K A) : list B := map_to_list m ≫= (fun ka => f ka.2).

Lemma gather_insert m k a : gather (<[k := a]> m) ≡ₚ f a ++ gather (delete k m).
Proof.
  unfold gather. rewrite <- insert_delete_eq.
  by rewrite (map_to_list_insert (delete k m) k a) by apply lookup_delete_eq.
Qed.

Lemma gather_lookup m k a : m !! k = Some a -> gather m ≡ₚ f a ++ gather (delete k m).
Proof. intros Ha. rewrite <- (insert_id m k a Ha) at 1. apply gather_insert. Qed.

Lemma gather_elem m k a b : m !! k = Some a -> b ∈ f a -> b ∈ gather m.
Proof. intros Ha Hb. rewrite (gather_lookup m k a Ha). apply elem_of_app. by left. Qed.

Lemma gather_nil m : (forall k a, m !! k = Some a -> f a = []) -> gather m = [].
Proof.
  intros Hn. unfold gather.
  assert (Ha : Forall (fun ka => f ka.2 = []) (map_to_list m)).
  { apply Forall_forall. intros [k a] Hin. apply elem_of_map_to_list in Hin. by eapply Hn. }
  induction Ha as [|x l Hx _ IH]; [done|]. rewrite bind_cons, Hx. exact IH.
Qed.

(** An entry replaced by one that holds the same. *)
Lemma gather_same m k a a' : m !! k = Some a -> f a' ≡ₚ f a -> gather (<[k := a']> m) ≡ₚ gather m.
Proof. intros Ha Hf. by rewrite gather_insert, (gather_lookup m k a Ha), Hf. Qed.

Lemma gather_alter (g : A -> A) m k : (forall a, f (g a) = f a) -> gather (alter g k m) ≡ₚ gather m.
Proof.
  intros Hg. destruct (m !! k) as [a|] eqn:E.
  - pose proof (alter_insert_eq m k g a) as Ei. rewrite (insert_id m k a E) in Ei. rewrite Ei.
    apply (gather_same m k a); [done|]. by rewrite Hg.
  - by rewrite alter_id by (intros a Ha; congruence).
Qed.

Lemma gather_fresh m k a : m !! k = None -> gather (<[k := a]> m) ≡ₚ f a ++ gather m.
Proof. intros Hn. by rewrite gather_insert, (delete_id _ _ Hn). Qed.

Lemma bind_split (l : list A) i a : l !! i = Some a -> l ≫= f ≡ₚ f a ++ (delete i l ≫= f).
Proof. intros Ha. by rewrite (delete_Permutation l i a Ha) at 1. Qed.

Lemma bind_insert (l : list A) i a a' : l !! i = Some a -> <[i := a']> l ≫= f ≡ₚ f a' ++ (delete i l ≫= f).
Proof.
  intros Ha. pose proof (lookup_lt_Some _ _ _ Ha).
  rewrite (bind_split (<[i := a']> l) i a') by by apply list_lookup_insert_eq.
  assert (E : delete i (<[i := a']> l) = delete i l).
  { clear. revert i. induction l as [|x l IH]; intros [|i]; simpl; [done..|]. f_equal. apply IH. }
  by rewrite E.
Qed.

Lemma bind_nil (l : list A) : (forall a, a ∈ l -> f a = []) -> l ≫= f = [].
Proof.
  induction l as [|a l IH]; intros Hn; [done|]. rewrite bind_cons, (Hn a) by left.
  apply IH. intros b Hb. apply Hn. by right.
Qed.

End Gather.

(** ** A concrete runtime *)

(** [slices.SortFunc] as a merge sort; [append] doubling the capacity. *)
Definition cmp_le {A} (cmp : A -> A -> Z) (a b : A) : Prop := cmp a b <= 0.

#[export] Instance cmp_le_dec {A} (cmp : A -> A -> Z) : RelDecision (cmp_le cmp).
Proof. intros a b. unfold cmp_le. apply _. Defined.

#[export] Instance mergeRuntime : GoRuntime := {
  growslice c n := Z.max (2 * c) n;
  SortFunc A cmp l := merge_sort (cmp_le cmp) l
}.

#[export] Instance mergeRuntimeOk : GoRuntimeOk mergeRuntime.
Proof.
  split.
  - intros. unfold growslice, mergeRuntime. lia.
  - intros. apply merge_sort_Permutation.
  - intros A cmp l Htot Htr. simpl.
    apply (@StronglySorted_merge_sort A (cmp_le cmp) _ Htr Htot).
Qed.
