(* ===== verification/Types.v ===== *)
(** * Work items and the vocabulary shared by every component

    The data of [ports/workitem.go] and of the records it carries: the
    [Message] handed to the application, the [Metrics] handed to the sink, and
    the pooled [WorkItem] that ties them together.

    The [nexus] package is a separate module: its trait constants and setters
    are the parameters of the class [Nexus]; [NexusOk] states what their
    documentation says of them. *)
From S2P Require Import Prelude.
From stdpp Require Import base gmap list strings.
Open Scope Z_scope.

(** ** The nexus package *)

Class Nexus := {
  Payload : Type;                       (* the broker message type [T] *)
  Ctx : Type;                           (* [context.Context] *)
  UsedOverflow : Z;                     (* trait bit masks *)
  DeadLetter : Z;
  FrameworkReserved : Z;
  SetOrphaned : Z -> Z;                 (* trait setters *)
  SetCommitBuffered : Z -> Z;
  SetFirstAfterRebalance : Z -> Z;
  SetUsedOverflow : Z -> Z;
  SetProcessPanic : Z -> Z;
  SetProcessError : Z -> Z;
  SetDeadLetter : Z -> Z;
  AddCustomTraits : Z -> Z -> Z         (* [metrics.AddCustomTraits(traits)] *)
}.

(** [traits & flag != 0] *)
Definition hasTrait (traits flag : Z) : bool := negb (Z.land traits flag =? 0).

(** A setter raises its own flag and leaves the others alone. *)
Class NexusOk (NX : Nexus) : Prop := {
  SetUsedOverflow_set : forall t, hasTrait (SetUsedOverflow t) UsedOverflow = true;
  SetDeadLetter_set : forall t, hasTrait (SetDeadLetter t) DeadLetter = true;
  SetOrphaned_deadLetter : forall t, hasTrait (SetOrphaned t) DeadLetter = hasTrait t DeadLetter;
  noTraits_usedOverflow : hasTrait 0 UsedOverflow = false
}.

(** [nexus.RebalanceType]: the two events the engine handles, and any other
    value of the integer type. *)
Inductive RebalanceType :=
| Assign
| Revoke
| OtherRebalance (t : Z).

#[export] Instance RebalanceType_eq_dec : EqDecision RebalanceType.
Proof. solve_decision. Defined.

(** [nexus.RebalanceInfo]: one partition of a rebalance event. *)
Record RebalanceInfo := mkRebalanceInfo {
  TopicName : string;
  riPartition : Z;
  CommittedOffset : Z
}.

(** ** Work items *)

Section WorkItems.
Context `{NX : Nexus}.

Record Message := mkMessage {
  msgTraits : Z;
  Partition : Z;
  Offset : Z;
  Key : string;
  msgPayload : option Payload
}.

(** Times and durations are nanoseconds; 0 is the zero time. *)
Record Metrics := mkMetrics {
  Traits : Z;
  QueueDepth : Z;
  mxPartition : Z;
  mxOffset : Z;
  ProcessDuration : Z;
  WriteDeadLetterDuration : Z;
  ReadTime : Z;
  ProcessStartTime : Z;
  WatermarkAdvanceTime : Z;
  mxWorkerPool : Z
}.

(** [ports.WorkItem].  [ptr] is the identity of the heap object: the code
    compares work items by pointer and hands each of them on exactly once. *)
Record WorkItem := mkWorkItem {
  ptr : Z;
  wiMessage : Message;
  wiMetrics : Metrics;
  wiCtx : option Ctx;
  PreviousOffset : Z;
  First : bool;
  WorkerPool : Z
}.

Definition offsetOf (w : WorkItem) : Z := Offset (wiMessage w).
Definition partitionOf (w : WorkItem) : Z := Partition (wiMessage w).
Definition readTimeOf (w : WorkItem) : Z := ReadTime (wiMetrics w).

(** [WorkItem.PartitionOffset] and [WorkItem.PartitionOffsetPrevious]. *)
Definition PartitionOffset (w : WorkItem) : Z * Z := (partitionOf w, offsetOf w).
Definition PartitionOffsetPrevious (w : WorkItem) : Z * Z * Z :=
  (partitionOf w, offsetOf w, PreviousOffset w).

(** Field updates. *)
Definition setMetrics (f : Metrics -> Metrics) (w : WorkItem) : WorkItem :=
  mkWorkItem (ptr w) (wiMessage w) (f (wiMetrics w)) (wiCtx w) (PreviousOffset w)
    (First w) (WorkerPool w).

Definition setMessage (f : Message -> Message) (w : WorkItem) : WorkItem :=
  mkWorkItem (ptr w) (f (wiMessage w)) (wiMetrics w) (wiCtx w) (PreviousOffset w)
    (First w) (WorkerPool w).

Definition setTraits (f : Z -> Z) (m : Metrics) : Metrics :=
  mkMetrics (f (Traits m)) (QueueDepth m) (mxPartition m) (mxOffset m) (ProcessDuration m)
    (WriteDeadLetterDuration m) (ReadTime m) (ProcessStartTime m) (WatermarkAdvanceTime m)
    (mxWorkerPool m).

Definition setWatermarkAdvanceTime (now : Z) (m : Metrics) : Metrics :=
  mkMetrics (Traits m) (QueueDepth m) (mxPartition m) (mxOffset m) (ProcessDuration m)
    (WriteDeadLetterDuration m) (ReadTime m) (ProcessStartTime m) now (mxWorkerPool m).

(** [nexus.SetX(&w.Metrics.Traits)] and [w.Metrics.WatermarkAdvanceTime = now]. *)
Definition mark (f : Z -> Z) (w : WorkItem) : WorkItem := setMetrics (setTraits f) w.
Definition stamp (now : Z) (w : WorkItem) : WorkItem := setMetrics (setWatermarkAdvanceTime now) w.

(** The part of a work item the committer decides on; traits and times only
    feed observability. *)
Record Core := mkCore { cPtr : Z; cPartition : Z; cOffset : Z; cPrev : Z; cFirst : bool; cRead : Z }.

Definition core (w : WorkItem) : Core :=
  mkCore (ptr w) (partitionOf w) (offsetOf w) (PreviousOffset w) (First w) (readTimeOf w).

#[export] Instance Core_eq_dec : EqDecision Core.
Proof. solve_decision. Defined.

Lemma core_mark f w : core (mark f w) = core w.
Proof. done. Qed.

Lemma core_stamp now w : core (stamp now w) = core w.
Proof. done. Qed.

Lemma core_offset w v : core w = core v -> offsetOf w = offsetOf v.
Proof. by injection 1. Qed.

End WorkItems.

#[export] Hint Rewrite @core_mark @core_stamp : demux_rw.

(** ** A concrete nexus: the traits as single bits *)

#[export] Instance bitNexus : Nexus := {
  Payload := Z;
  Ctx := unit;
  UsedOverflow := 1;
  DeadLetter := 2;
  FrameworkReserved := 255;
  SetOrphaned t := Z.lor t 4;
  SetCommitBuffered t := Z.lor t 8;
  SetFirstAfterRebalance t := Z.lor t 16;
  SetUsedOverflow t := Z.lor t 1;
  SetProcessPanic t := Z.lor t 32;
  SetProcessError t := Z.lor t 64;
  SetDeadLetter t := Z.lor t 2;
  AddCustomTraits t u := Z.lor t (Z.ldiff u 255)
}.

Lemma lor_flag_set t f : 0 < f -> hasTrait (Z.lor t f) f = true.
Proof.
  intros Hf. unfold hasTrait. rewrite Z.land_lor_distr_l, Z.land_diag.
  destruct (Z.eqb_spec (Z.lor (Z.land t f) f) 0) as [E|E]; [|done].
  apply Z.lor_eq_0_iff in E. lia.
Qed.

Lemma lor_flag_other t f g : Z.land f g = 0 -> hasTrait (Z.lor t f) g = hasTrait t g.
Proof. intros Hfg. unfold hasTrait. by rewrite Z.land_lor_distr_l, Hfg, Z.lor_0_r. Qed.

#[export] Instance bitNexusOk : NexusOk bitNexus.
Proof.
  split; intros; simpl.
  - by apply lor_flag_set.
  - by apply lor_flag_set.
  - by apply lor_flag_other.
  - done.
Qed.
