(* ===== verification/GoBytes.v ===== *)
(** * Byte strings and the codecs of Go's standard library

    A Go string is a list of bytes, each a [Z] in [0, 256).  The packages the
    sources call on them: [strings.IndexByte], [base64.RawURLEncoding],
    [net/url]'s query encoding and [strconv]'s decimal integers, each with its
    encoder and the round trip that relates them. *)
From S2P Require Import Prelude.
From Stdlib Require Import Ascii String.
From stdpp Require Import base list.
Open Scope Z_scope.

(** A call that may panic. *)
Inductive Outcome (A : Type) := Returns (a : A) | Panics.
Arguments Returns {A} _.
Arguments Panics {A}.

Definition bytes := list Z.

Definition byteOk (b : Z) : Prop := 0 <= b < 256.

(** A string literal's bytes. *)
Fixpoint lit (s : string) : bytes :=
  match s with
  | EmptyString => []
  | String c s' => Z.of_N (N_of_ascii c) :: lit s'
  end.

Definition bytesEqb (a b : bytes) : bool := bool_decide (a = b).

(** ** [strings] *)

(** [strings.IndexByte]: [None] for -1. *)
Fixpoint IndexByte (s : bytes) (c : Z) : option nat :=
  match s with
  | [] => None
  | b :: s' => if b =? c then Some O else S <$> IndexByte s' c
  end.

(** [strings.Cut] with a one-byte separator. *)
Definition Cut (s : bytes) (sep : Z) : bytes * bytes :=
  match IndexByte s sep with
  | Some i => (take i s, drop (S i) s)
  | None => (s, [])
  end.

(** The fields between separators: what repeated [Cut]s yield. *)
Fixpoint fieldsBy (sep : Z) (s : bytes) : list bytes :=
  match s with
  | [] => [[]]
  | b :: s' =>
      if b =? sep then [] :: fieldsBy sep s'
      else match fieldsBy sep s' with
           | f :: fs => (b :: f) :: fs
           | [] => [[b]]
           end
  end.

(** ** [encoding/base64], the unpadded URL alphabet *)

Definition encodeSextet (n : Z) : Z :=
  if n <? 26 then 65 + n
  else if n <? 52 then 71 + n
  else if n <? 62 then n - 4
  else if n =? 62 then 45 else 95.

Definition decodeSextet (c : Z) : option Z :=
  if (65 <=? c) && (c <=? 90) then Some (c - 65)
  else if (97 <=? c) && (c <=? 122) then Some (c - 71)
  else if (48 <=? c) && (c <=? 57) then Some (c + 4)
  else if c =? 45 then Some 62
  else if c =? 95 then Some 63
  else None.

Fixpoint sextets (s : bytes) : list Z :=
  match s with
  | a :: b :: c :: s' =>
      let v := a * 65536 + b * 256 + c in
      v / 262144 :: v / 4096 mod 64 :: v / 64 mod 64 :: v mod 64 :: sextets s'
  | [a; b] =>
      let v := a * 65536 + b * 256 in [v / 262144; v / 4096 mod 64; v / 64 mod 64]
  | [a] => let v := a * 65536 in [v / 262144; v / 4096 mod 64]
  | [] => []
  end.

(** [RawURLEncoding.EncodeToString] *)
Definition EncodeToString (s : bytes) : bytes := map encodeSextet (sextets s).

(** [decodeQuantum] over the whole input: four sextets give three bytes; of a last
    group of three or two the unused low bits are ignored; a single one is corrupt. *)
Fixpoint unsextets (q : list Z) : option bytes :=
  match q with
  | a :: b :: c :: d :: q' =>
      let v := a * 262144 + b * 4096 + c * 64 + d in
      (fun s => v / 65536 :: v / 256 mod 256 :: v mod 256 :: s) <$> unsextets q'
  | [a; b; c] => let v := a * 262144 + b * 4096 + c * 64 in Some [v / 65536; v / 256 mod 256]
  | [a; b] => let v := a * 262144 + b * 4096 in Some [v / 65536]
  | [_] => None
  | [] => Some []
  end.

(** [RawURLEncoding.DecodeString]: line breaks are skipped, any other byte outside
    the alphabet is an error. *)
Definition DecodeString (s : bytes) : option bytes :=
  q ← mapM decodeSextet (filter (fun c => c <> 10 /\ c <> 13) s); unsextets q.

(** ** [net/url], query components *)

Definition unreserved (c : Z) : bool :=
  ((65 <=? c) && (c <=? 90)) || ((97 <=? c) && (c <=? 122)) || ((48 <=? c) && (c <=? 57)) ||
  (c =? 45) || (c =? 95) || (c =? 46) || (c =? 126).

Definition upperHex (n : Z) : Z := if n <? 10 then 48 + n else 55 + n.

Definition unhex (c : Z) : option Z :=
  if (48 <=? c) && (c <=? 57) then Some (c - 48)
  else if (97 <=? c) && (c <=? 102) then Some (c - 87)
  else if (65 <=? c) && (c <=? 70) then Some (c - 55)
  else None.

Definition escapeByte (c : Z) : bytes :=
  if unreserved c then [c]
  else if c =? 32 then [43]
  else [37; upperHex (c / 16); upperHex (c mod 16)].

Definition QueryEscape (s : bytes) : bytes := concat (map escapeByte s).

Fixpoint QueryUnescape (s : bytes) : option bytes :=
  match s with
  | [] => Some []
  | c :: s' =>
      if c =? 37 then
        match s' with
        | h :: l :: s'' =>
            match unhex h, unhex l with
            | Some x, Some y => cons (x * 16 + y) <$> QueryUnescape s''
            | _, _ => None
            end
        | _ => None
        end
      else cons (if c =? 43 then 32 else c) <$> QueryUnescape s'
  end.

(** [url.Values]: the appended pairs, in order. *)
Definition Values := list (bytes * bytes).

(** [Values.Get]: the first value of the key, or the empty string. *)
Fixpoint Get (v : Values) (key : bytes) : bytes :=
  match v with
  | [] => []
  | (k, x) :: v' => if bytesEqb k key then x else Get v' key
  end.

(** One field of [parseQuery]'s loop: nothing, an error, or a pair. *)
Definition parseField (f : bytes) : option (option (bytes * bytes)) :=
  if existsb (Z.eqb 59) f then None
  else match f with
       | [] => Some None
       | _ =>
           let '(key, value) := Cut f 61 in
           k ← QueryUnescape key; x ← QueryUnescape value; Some (Some (k, x))
       end.

(** [url.ParseQuery]; [None] when it returns an error (the pairs that come with it
    are not used by the callers). *)
Definition ParseQuery (s : bytes) : option Values :=
  l ← mapM parseField (fieldsBy 38 s); Some (omap id l).

(** [Values.Encode] of pairs already in the order of their keys. *)
Definition encodePair (kv : bytes * bytes) : bytes := QueryEscape kv.1 ++ 61 :: QueryEscape kv.2.

Fixpoint Encode (v : Values) : bytes :=
  match v with
  | [] => []
  | [kv] => encodePair kv
  | kv :: v' => encodePair kv ++ 38 :: Encode v'
  end.

(** ** [strconv] *)

Inductive NumError := ErrSyntax | ErrRange.

Definition maxUint64 : Z := 2^64 - 1.

(** The digit loop of [ParseUint] in base 10. *)
Fixpoint parseDigits (s : bytes) (n : Z) : NumError + Z :=
  match s with
  | [] => inr n
  | c :: s' =>
      if (48 <=? c) && (c <=? 57) then
        if n >=? maxUint64 / 10 + 1 then inl ErrRange
        else if n * 10 + (c - 48) >? maxUint64 then inl ErrRange
        else parseDigits s' (n * 10 + (c - 48))
      else inl ErrSyntax
  end.

Definition ParseUint (s : bytes) : NumError + Z :=
  match s with [] => inl ErrSyntax | _ => parseDigits s 0 end.

(** [ParseInt(s, 10, 64)] *)
Definition ParseInt (s : bytes) : NumError + Z :=
  let '(neg, digits) :=
    match s with
    | c :: s' => if c =? 43 then (false, s') else if c =? 45 then (true, s') else (false, s)
    | [] => (false, [])
    end in
  match s with
  | [] => inl ErrSyntax
  | _ =>
      match ParseUint digits with
      | inl e => inl e
      | inr un =>
          if negb neg && (un >=? 2^63) then inl ErrRange
          else if neg && (un >? 2^63) then inl ErrRange
          else inr (if neg then - un else un)
      end
  end.

(** The decimal digits of [n], most significant first; twenty digits hold any
    64-bit number. *)
Fixpoint formatDigits (fuel : nat) (n : Z) : bytes :=
  match fuel with
  | O => []
  | S fuel' => if n <? 10 then [48 + n] else formatDigits fuel' (n / 10) ++ [48 + n mod 10]
  end.

(** [FormatInt(n, 10)] *)
Definition FormatInt (n : Z) : bytes :=
  if n <? 0 then 45 :: formatDigits 20 (- n) else formatDigits 20 n.

(** ** Base64 round trip *)

Lemma list_ind3 (P : list Z -> Prop) :
  P [] -> (forall a, P [a]) -> (forall a b, P [a; b]) ->
  (forall a b c s, P s -> P (a :: b :: c :: s)) -> forall s : list Z, P s.
Proof.
  intros H0 H1 H2 H3 s. enough (P s /\ (forall a, P (a :: s)) /\ forall a b, P (a :: b :: s)) by tauto.
  induction s as [|x s (IH0 & IH1 & IH2)]; [auto|]. split_and!; auto.
Qed.

Ltac div_lia := Z.div_mod_to_equations; lia.

Lemma unsextets_sextets s : Forall byteOk s -> unsextets (sextets s) = Some s.
Proof.
  unfold byteOk. induction s as [|a|a b|a b c s IH] using list_ind3; intros H; [done|..];
    repeat match goal with H : Forall _ (_ :: _) |- _ => apply Forall_cons in H as [? H] end; cbn -[Z.div Z.modulo].
  - f_equal. f_equal. div_lia.
  - f_equal. f_equal; [div_lia|]. f_equal. div_lia.
  - rewrite IH by done. cbn -[Z.div Z.modulo]. f_equal. do 2 (f_equal; [div_lia|]). f_equal. div_lia.
Qed.

Lemma sextets_range s : Forall byteOk s -> Forall (fun n => 0 <= n < 64) (sextets s).
Proof.
  unfold byteOk. induction s as [|a|a b|a b c s IH] using list_ind3; intros H; cbn -[Z.div Z.modulo]; [constructor|..];
    repeat match goal with H : Forall _ (_ :: _) |- _ => apply Forall_cons in H as [? H] end;
    repeat (constructor; [div_lia|]); try constructor. by apply IH.
Qed.

Lemma decode_encode_sextet n : 0 <= n < 64 -> decodeSextet (encodeSextet n) = Some n.
Proof.
  intros Hn. unfold encodeSextet. case_Z; unfold decodeSextet; repeat (case_Z; simpl; try lia);
    try (f_equal; lia).
Qed.

(** The alphabet: letters, digits, [-] and [_]. *)
Definition base64Byte (c : Z) : Prop := 48 <= c <= 57 \/ 65 <= c <= 90 \/ 97 <= c <= 122 \/ c = 45 \/ c = 95.

Lemma encodeSextet_base64 n : 0 <= n < 64 -> base64Byte (encodeSextet n).
Proof. intros Hn. unfold encodeSextet, base64Byte. case_Z; lia. Qed.

Lemma EncodeToString_base64 s : Forall byteOk s -> Forall base64Byte (EncodeToString s).
Proof.
  intros Hs. unfold EncodeToString. rewrite Forall_map. eapply Forall_impl; [by apply sextets_range|].
  intros n Hn. by apply encodeSextet_base64.
Qed.

Lemma filter_all (P : Z -> Prop) `{!forall x, Decision (P x)} s : Forall P s -> filter P s = s.
Proof. induction 1; [done|]. rewrite filter_cons, decide_True by done. by f_equal. Qed.

Lemma base64_roundtrip s : Forall byteOk s -> DecodeString (EncodeToString s) = Some s.
Proof.
  intros Hs. unfold DecodeString. rewrite filter_all.
  2: { eapply Forall_impl; [by apply EncodeToString_base64|]. unfold base64Byte. intros c ?. lia. }
  assert (E : mapM decodeSextet (EncodeToString s) = Some (sextets s)).
  { unfold EncodeToString. apply mapM_Some. induction (sextets_range s Hs) as [|n l Hn _ IH]; constructor;
      [by apply decode_encode_sextet | done]. }
  rewrite E. simpl. by apply unsextets_sextets.
Qed.

(** ** Query round trip *)

Lemma unhex_upperHex n : 0 <= n < 16 -> unhex (upperHex n) = Some n.
Proof.
  intros Hn. unfold upperHex. case_Z; unfold unhex; repeat (case_Z; simpl; try lia); f_equal; lia.
Qed.

Lemma unescape_byte c s : byteOk c -> QueryUnescape (escapeByte c ++ s) = cons c <$> QueryUnescape s.
Proof.
  unfold byteOk. intros Hc. unfold escapeByte. destruct (unreserved c) eqn:E.
  - assert (c <> 37 /\ c <> 43) as [? ?].
    { split; intros ->; discriminate E. }
    simpl. destruct (Z.eqb_spec c 37); [lia|]. by destruct (Z.eqb_spec c 43); [lia|].
  - destruct (Z.eqb_spec c 32) as [->|]; [done|]. cbn -[Z.div Z.modulo upperHex unhex].
    rewrite !unhex_upperHex by div_lia. f_equal. f_equal. div_lia.
Qed.

Lemma unescape_escape s : Forall byteOk s -> QueryUnescape (QueryEscape s) = Some s.
Proof.
  unfold QueryEscape. induction 1 as [|c s Hc _ IH]; [done|]. cbn [map concat].
  by rewrite unescape_byte, IH.
Qed.

(** The separators never appear in an escaped component. *)
Lemma escape_clean s c : Forall byteOk s -> c ∈ QueryEscape s -> c <> 38 /\ c <> 59 /\ c <> 61.
Proof.
  intros Hs. unfold QueryEscape. rewrite list_elem_of_In, in_concat. intros (l & Hc & Hl%list_elem_of_In).
  apply in_map_iff in Hc as (b & <- & Hb%list_elem_of_In). rewrite Forall_forall in Hs. specialize (Hs b Hb).
  unfold byteOk in Hs. unfold escapeByte in Hl. destruct (unreserved b) eqn:E.
  - apply list_elem_of_singleton in Hl as ->. split_and!; intros ->; discriminate E.
  - destruct (b =? 32); [apply list_elem_of_singleton in Hl as ->; lia|].
    assert (Hh : forall n, 0 <= n < 16 -> upperHex n <> 38 /\ upperHex n <> 59 /\ upperHex n <> 61)
      by (intros n ?; unfold upperHex; case_Z; lia).
    rewrite !elem_of_cons, elem_of_nil in Hl. destruct Hl as [-> | [-> | [-> | []]]]; [lia | |];
      apply Hh; div_lia.
Qed.

Lemma IndexByte_app s c t : c ∉ s -> IndexByte (s ++ c :: t) c = Some (length s).
Proof.
  induction s as [|b s IH]; intros Hc; simpl; [by rewrite Z.eqb_refl|].
  apply not_elem_of_cons in Hc as [? Hc]. destruct (Z.eqb_spec b c); [done|]. by rewrite IH.
Qed.

Lemma IndexByte_none s c : IndexByte s c = None <-> c ∉ s.
Proof.
  induction s as [|b s IH]; simpl; [by split; [intros _; apply not_elem_of_nil|]|].
  rewrite not_elem_of_cons. destruct (Z.eqb_spec b c) as [->|]; [split; [done | by intros [? _]]|].
  rewrite fmap_None, IH. split; [intros ?; split; [congruence | done] | by intros [_ ?]].
Qed.

Lemma IndexByte_some s c i :
  IndexByte s c = Some i -> s = take i s ++ c :: drop (S i) s /\ (c ∉ take i s) /\ (i < length s)%nat.
Proof.
  revert i. induction s as [|b s IH]; intros i; simpl; [done|].
  destruct (Z.eqb_spec b c) as [->|Hne].
  - intros [= <-]. split_and!; [done | apply not_elem_of_nil | simpl; lia].
  - intros (j & Hj & ->)%fmap_Some. destruct (IH j Hj) as (E & Hni & Hlt). simpl.
    split_and!; [by f_equal | by apply not_elem_of_cons; split; [congruence|] | lia].
Qed.

Lemma Cut_app s c t : c ∉ s -> Cut (s ++ c :: t) c = (s, t).
Proof.
  intros Hc. unfold Cut. rewrite IndexByte_app by done. f_equal; [apply take_app_length|].
  replace (s ++ c :: t) with ((s ++ [c]) ++ t) by (by rewrite <- app_assoc).
  rewrite drop_app_length' by (rewrite length_app; simpl; lia). done.
Qed.

Lemma fieldsBy_one sep s : sep ∉ s -> fieldsBy sep s = [s].
Proof.
  induction s as [|b s IH]; intros Hs; [done|]. apply not_elem_of_cons in Hs as [? Hs]. simpl.
  destruct (Z.eqb_spec b sep); [congruence|]. by rewrite IH.
Qed.

Lemma fieldsBy_app sep s t : sep ∉ s -> fieldsBy sep (s ++ sep :: t) = s :: fieldsBy sep t.
Proof.
  induction s as [|b s IH]; intros Hs; simpl; [by rewrite Z.eqb_refl|].
  apply not_elem_of_cons in Hs as [? Hs]. destruct (Z.eqb_spec b sep); [congruence|]. by rewrite IH.
Qed.

Definition pairOk (kv : bytes * bytes) : Prop := Forall byteOk kv.1 /\ Forall byteOk kv.2.

Lemma encodePair_clean kv c : pairOk kv -> c ∈ encodePair kv -> c <> 38 /\ c <> 59.
Proof.
  intros [Hk Hv]. unfold encodePair. intros [Hc|[->|Hc]%elem_of_cons]%elem_of_app; [|lia|].
  - destruct (escape_clean _ _ Hk Hc). lia.
  - destruct (escape_clean _ _ Hv Hc). lia.
Qed.

Lemma parseField_pair kv : pairOk kv -> parseField (encodePair kv) = Some (Some kv).
Proof.
  intros Hkv. unfold parseField.
  destruct (existsb (Z.eqb 59) (encodePair kv)) eqn:E.
  { apply existsb_exists in E as (c & Hc & Heq%Z.eqb_eq). apply list_elem_of_In in Hc.
    apply (encodePair_clean kv) in Hc; [lia | done]. }
  assert (Hne : encodePair kv <> []) by (unfold encodePair; by destruct (QueryEscape kv.1)).
  destruct (encodePair kv) as [|b f] eqn:Ep; [done|]. rewrite <- Ep. clear b f Ep Hne E. unfold encodePair.
  destruct Hkv as [Hk Hv]. rewrite Cut_app by (intros Hc; by destruct (escape_clean _ _ Hk Hc) as (_ & _ & ?)).
  rewrite !unescape_escape by done. by destruct kv.
Qed.

Lemma fieldsBy_Encode kv v :
  Forall pairOk (kv :: v) -> fieldsBy 38 (Encode (kv :: v)) = map encodePair (kv :: v).
Proof.
  revert kv. induction v as [|kv' v IH]; intros kv [Hkv Hv]%Forall_cons;
    assert (Hni : 38 ∉ encodePair kv) by (intros Hc; by destruct (encodePair_clean _ _ Hkv Hc)).
  - by apply fieldsBy_one.
  - change (Encode (kv :: kv' :: v)) with (encodePair kv ++ 38 :: Encode (kv' :: v)).
    rewrite fieldsBy_app by done. by rewrite IH.
Qed.

Lemma query_roundtrip v : Forall pairOk v -> ParseQuery (Encode v) = Some v.
Proof.
  intros Hv. destruct v as [|kv v]; [done|]. unfold ParseQuery. rewrite fieldsBy_Encode by done.
  assert (E : mapM parseField (map encodePair (kv :: v)) = Some (map Some (kv :: v))).
  { apply mapM_Some. induction Hv as [|x l Hx _ IH]; constructor; [by apply parseField_pair | done]. }
  rewrite E. cbn [mbind option_bind]. f_equal. clear Hv E. generalize (kv :: v).
  intros l. induction l as [|x l IH]; [done|]. cbn. f_equal. exact IH.
Qed.

(** ** Decimal round trip *)

Lemma parseDigits_app a b n :
  parseDigits (a ++ b) n = match parseDigits a n with inr m => parseDigits b m | inl e => inl e end.
Proof.
  revert n. induction a as [|c a IH]; intros n; simpl; [done|].
  destruct (_ && _); [|done]. destruct (_ >=? _); [done|]. by destruct (_ >? _).
Qed.

Lemma parseDigits_digit m d :
  0 <= m -> 0 <= d < 10 -> m * 10 + d <= maxUint64 -> parseDigits [48 + d] m = inr (m * 10 + d).
Proof.
  unfold maxUint64. intros Hm Hd Hle. cbn [parseDigits]. replace (48 + d - 48) with d by lia.
  rewrite Z.geb_leb, Z.gtb_ltb. unfold maxUint64.
  destruct (Z.leb_spec 48 (48 + d)); [|lia]. destruct (Z.leb_spec (48 + d) 57); [|lia]. cbn [andb].
  destruct (Z.leb_spec ((2^64 - 1) / 10 + 1) m); [div_lia|].
  destruct (Z.ltb_spec (2^64 - 1) (m * 10 + d)); [lia | done].
Qed.

Lemma parseDigits_format fuel n :
  0 <= n <= maxUint64 -> n < 10 ^ Z.of_nat fuel -> (0 < fuel)%nat ->
  parseDigits (formatDigits fuel n) 0 = inr n.
Proof.
  revert n. induction fuel as [|fuel IH]; intros n Hn Hf H0; [lia|].
  cbn [formatDigits]. destruct (Z.ltb_spec n 10).
  - by rewrite parseDigits_digit by lia.
  - rewrite Nat2Z.inj_succ, Z.pow_succ_r in Hf by lia.
    destruct fuel as [|fuel]; [simpl in Hf; lia|].
    rewrite parseDigits_app, IH by (try div_lia; lia).
    rewrite parseDigits_digit by div_lia. f_equal. div_lia.
Qed.

Lemma formatDigits_head fuel n :
  0 <= n -> (0 < fuel)%nat -> exists c s, formatDigits fuel n = c :: s /\ 48 <= c <= 57.
Proof.
  revert n. induction fuel as [|fuel IH]; intros n Hn H0; [lia|]. cbn [formatDigits].
  destruct (Z.ltb_spec n 10); [exists (48 + n), []; split; [done | lia]|].
  destruct fuel as [|fuel].
  - exists (48 + n mod 10), []. split; [done | div_lia].
  - destruct (IH (n / 10)) as (c & s & -> & Hc); [div_lia | lia|]. by exists c, (s ++ [48 + n mod 10]).
Qed.

Lemma formatDigits_parse n :
  0 <= n <= 2^63 -> exists c s,
    formatDigits 20 n = c :: s /\ c <> 43 /\ c <> 45 /\ ParseUint (c :: s) = inr n.
Proof.
  intros Hn. destruct (formatDigits_head 20 n) as (c & s & E & Hc); [lia | lia|]. exists c, s.
  split_and!; [done | lia | lia |]. unfold ParseUint. rewrite <- E.
  apply parseDigits_format; [unfold maxUint64; lia | | lia]. change (10 ^ Z.of_nat 20) with (10 ^ 20). lia.
Qed.

Lemma int_roundtrip n : in_int64 n -> ParseInt (FormatInt n) = inr n.
Proof.
  unfold in_int64. intros Hn. unfold FormatInt, ParseInt. destruct (Z.ltb_spec n 0).
  - destruct (formatDigits_parse (- n)) as (c & s & -> & _ & _ & E); [lia|].
    change (45 =? 43) with false. change (45 =? 45) with true. cbv iota beta. rewrite E.
    rewrite Z.gtb_ltb. destruct (Z.ltb_spec (2^63) (- n)); [lia|]. cbn [negb andb]. f_equal. lia.
  - destruct (formatDigits_parse n) as (c & s & -> & H1 & H2 & E); [lia|].
    destruct (Z.eqb_spec c 43); [done|]. destruct (Z.eqb_spec c 45); [done|]. rewrite E.
    rewrite Z.geb_leb. by destruct (Z.leb_spec (2^63) n); [lia|].
Qed.

Lemma FormatInt_bytes n : in_int64 n -> Forall byteOk (FormatInt n).
Proof.
  assert (H : forall fuel n, 0 <= n -> Forall byteOk (formatDigits fuel n)).
  { unfold byteOk. induction fuel as [|fuel IH]; intros m Hm; cbn [formatDigits]; [constructor|].
    destruct (Z.ltb_spec m 10); [repeat constructor; lia|]. apply Forall_app.
    split; [apply IH; div_lia|]. repeat constructor; div_lia. }
  intros _. unfold FormatInt. destruct (Z.ltb_spec n 0); [|by apply H].
  constructor; [unfold byteOk; lia | apply H; lia].
Qed.

Lemma lit_bytes s : Forall byteOk (lit s).
Proof.
  induction s as [|c s IH]; simpl; constructor; [|done]. unfold byteOk.
  pose proof (N_ascii_bounded c). lia.
Qed.
