(* ===== verification/RingBuffer.v ===== *)
(** * The committer's sliding metrics window ([demux/offset/committer_metrics.go])

    [metricsRingBuffer] and its operations, and the refinement showing that the
    ring of buckets represents the samples of the last [bucketCount] epochs. *)
From S2P Require Import Prelude.
From stdpp Require Import base list.
Open Scope Z_scope.
Open Scope go_scope.

Record bucket := mkBucket {
  count : Z;
  deadLetterCount : Z;
  totalProcessNanos : Z;
  totalEndToEndNanos : Z;
  maxProcessNanos : Z;
  maxEndToEndNanos : Z;
  minEndToEndNanos : Z
}.

Definition emptyBucket : bucket := mkBucket 0 0 0 0 0 0 0.

Record metricsRingBuffer := mkRing {
  buckets : list bucket;
  currentIndex : Z;
  bucketCount : Z;
  lastEpoch : Z;
  rbTotalProcessed : Z;
  bucketSeconds : Z
}.

(** [snapshot.WindowData] *)
Record WindowData := mkWindowData {
  ThroughputPerBucket : list Z;
  DeadLetterPerBucket : list Z;
  BucketDuration : Z;
  wdTotalProcessed : Z;
  TotalCount : Z;
  TotalProcessNanos : Z;
  TotalEndToEndNanos : Z;
  MaxProcessNanos : Z;
  MaxEndToEndNanos : Z;
  MinEndToEndNanos : Z
}.


(** [t.Unix()] of a time in nanoseconds. *)
Definition unix (t : Z) : Z := t / second.

Definition newRingBuffer (bucketDuration bucketCount now : Z) : metricsRingBuffer :=
  let bucketSeconds := Z.max (Z.quot bucketDuration second) 1 in
  mkRing (replicate (Z.to_nat bucketCount) emptyBucket) 0 bucketCount
    (Z.quot (unix now) bucketSeconds) 0 bucketSeconds.

(** What one processed message adds to the bucket it falls into. *)
Definition bucketAdd (processNanos endToEndNanos : Z) (deadLetter : bool) (b : bucket) : bucket :=
  mkBucket
    (count b +64 1)
    (if deadLetter then deadLetterCount b +64 1 else deadLetterCount b)
    (totalProcessNanos b +64 processNanos)
    (totalEndToEndNanos b +64 endToEndNanos)
    (if processNanos >? maxProcessNanos b then processNanos else maxProcessNanos b)
    (if endToEndNanos >? maxEndToEndNanos b then endToEndNanos else maxEndToEndNanos b)
    (if (minEndToEndNanos b =? 0) || (endToEndNanos <? minEndToEndNanos b)
     then endToEndNanos else minEndToEndNanos b).

(** [for i := 1; i <= gap; i++ { buckets[(oldIndex+i) % bucketCount] = bucket{} }] *)
Fixpoint zeroSkipped (gap : nat) (oldIndex n : Z) (bs : list bucket) : list bucket :=
  match gap with
  | O => bs
  | S i =>
      <[Z.to_nat (Z.rem (oldIndex + Z.of_nat gap) n) := emptyBucket]> (zeroSkipped i oldIndex n bs)
  end.

Definition advance (rb : metricsRingBuffer) (last nowEpoch : Z) : metricsRingBuffer :=
  let gap0 := wrap64 (nowEpoch - last) in
  let gap := if gap0 >? bucketCount rb then bucketCount rb else gap0 in
  let oldIndex := currentIndex rb in
  mkRing (zeroSkipped (Z.to_nat gap) oldIndex (bucketCount rb) (buckets rb))
    (Z.rem (oldIndex + gap) (bucketCount rb)) (bucketCount rb) nowEpoch
    (rbTotalProcessed rb) (bucketSeconds rb).

Definition record (rb : metricsRingBuffer) (now processDuration endToEndDuration : Z)
    (deadLetter : bool) : metricsRingBuffer :=
  let nowEpoch := Z.quot (unix now) (bucketSeconds rb) in
  let last := lastEpoch rb in
  let rb1 := if negb (nowEpoch =? last) && (nowEpoch >? last)
             then advance rb last nowEpoch else rb in
  mkRing
    (alter (bucketAdd processDuration endToEndDuration deadLetter)
       (Z.to_nat (currentIndex rb1)) (buckets rb1))
    (currentIndex rb1) (bucketCount rb1) (lastEpoch rb1)
    (rbTotalProcessed rb1 +64 1) (bucketSeconds rb1).

(** The loop body of [windowData] over the buckets, oldest first. *)
Definition windowAdd (wd : WindowData) (b : bucket) : WindowData :=
  mkWindowData
    (ThroughputPerBucket wd ++ [wrapu32 (count b)])
    (DeadLetterPerBucket wd ++ [wrapu32 (deadLetterCount b)])
    (BucketDuration wd) (wdTotalProcessed wd)
    (TotalCount wd +64 count b)
    (TotalProcessNanos wd +64 totalProcessNanos b)
    (TotalEndToEndNanos wd +64 totalEndToEndNanos b)
    (if maxProcessNanos b >? MaxProcessNanos wd then maxProcessNanos b else MaxProcessNanos wd)
    (if maxEndToEndNanos b >? MaxEndToEndNanos wd then maxEndToEndNanos b else MaxEndToEndNanos wd)
    (if (count b >? 0) &&
        ((MinEndToEndNanos wd =? 0) || (minEndToEndNanos b <? MinEndToEndNanos wd))
     then minEndToEndNanos b else MinEndToEndNanos wd).

Definition bucketAt (rb : metricsRingBuffer) (i : Z) : bucket :=
  default emptyBucket (buckets rb !! Z.to_nat (Z.rem (currentIndex rb + 1 + i) (bucketCount rb))).

Definition windowData (rb : metricsRingBuffer) : WindowData :=
  foldl windowAdd
    (mkWindowData [] [] (bucketSeconds rb * second) (rbTotalProcessed rb) 0 0 0 0 0 0)
    (map (fun i => bucketAt rb (Z.of_nat i)) (seq 0 (Z.to_nat (bucketCount rb)))).

(** ** Specification: the samples themselves

    The abstract window is the epoch of the newest sample and the list of all
    samples with the epoch they were accounted to.  A sample older than the
    newest epoch (a completion reported late) is accounted to the newest. *)
Record sample := mkSample { sProcess : Z; sEndToEnd : Z; sDeadLetter : bool }.

Record Window := mkWindow { newest : Z; samples : list (Z * sample) }.

Definition windowRecord (w : Window) (epoch : Z) (s : sample) : Window :=
  let e := Z.max (newest w) epoch in mkWindow e (samples w ++ [(e, s)]).

(** The bucket an epoch's samples add up to. *)
Definition addSample (b : bucket) (s : sample) : bucket :=
  bucketAdd (sProcess s) (sEndToEnd s) (sDeadLetter s) b.

Definition inEpoch (e : Z) (l : list (Z * sample)) : list sample :=
  omap (fun '(e', s) => if decide (e' = e) then Some s else None) l.

Definition epochBucket (w : Window) (e : Z) : bucket :=
  foldl addSample emptyBucket (inEpoch e (samples w)).

(** The ring holds, at [age] buckets behind the current one, the bucket of the
    epoch [age] before the newest. *)
Record ringRefines (rb : metricsRingBuffer) (w : Window) : Prop := {
  rr_pos : 0 < bucketCount rb;
  rr_len : Z.of_nat (length (buckets rb)) = bucketCount rb;
  rr_idx : 0 <= currentIndex rb < bucketCount rb;
  rr_epoch : lastEpoch rb = newest w;
  rr_future : forall e s, (e, s) ∈ samples w -> e <= newest w;
  rr_bucket : forall age, 0 <= age < bucketCount rb ->
    buckets rb !! Z.to_nat ((currentIndex rb - age) mod bucketCount rb)
      = Some (epochBucket w (newest w - age))
}.

(** ** Lemmas *)

Lemma rem_mod a n : 0 <= a -> 0 < n -> Z.rem a n = a mod n.
Proof. intros. apply Z.rem_mod_nonneg; lia. Qed.

Lemma length_zeroSkipped gap i n bs : length (zeroSkipped gap i n bs) = length bs.
Proof. induction gap as [|g IH]; simpl; [done|]. by rewrite length_insert. Qed.

(** The loop zeroes the [gap] slots after the old index, and only those. *)
Lemma zeroSkipped_hit gap i n bs j :
  0 <= i -> 0 < n -> Z.of_nat (length bs) = n -> 1 <= j <= Z.of_nat gap ->
  zeroSkipped gap i n bs !! Z.to_nat ((i + j) mod n) = Some emptyBucket.
Proof.
  intros Hi Hn Hlen. induction gap as [|g IH]; intros Hj; [lia|].
  cbn [zeroSkipped]. rewrite rem_mod by lia.
  pose proof (Z.mod_pos_bound (i + Z.of_nat (S g)) n Hn).
  pose proof (Z.mod_pos_bound (i + j) n Hn).
  destruct (decide ((i + j) mod n = (i + Z.of_nat (S g)) mod n)) as [->|Hne].
  - apply list_lookup_insert_eq. rewrite length_zeroSkipped. lia.
  - rewrite list_lookup_insert_ne by lia. apply IH.
    destruct (decide (j = Z.of_nat (S g))) as [->|]; [done|lia].
Qed.

Lemma zeroSkipped_miss gap i n bs k :
  0 <= i -> 0 < n -> 0 <= k ->
  (forall j, 1 <= j <= Z.of_nat gap -> k <> (i + j) mod n) ->
  zeroSkipped gap i n bs !! Z.to_nat k = bs !! Z.to_nat k.
Proof.
  intros Hi Hn Hk. induction gap as [|g IH]; intros Hj; [done|].
  cbn [zeroSkipped]. rewrite rem_mod by lia.
  pose proof (Z.mod_pos_bound (i + Z.of_nat (S g)) n Hn).
  specialize (Hj (Z.of_nat (S g)) ltac:(lia)) as Hl.
  rewrite list_lookup_insert_ne by lia. apply IH. intros j ?. apply Hj. lia.
Qed.

Lemma inEpoch_app e l l' : inEpoch e (l ++ l') = inEpoch e l ++ inEpoch e l'.
Proof. unfold inEpoch. by rewrite omap_app. Qed.

Lemma inEpoch_future e n l :
  (forall e' s, (e', s) ∈ l -> e' <= n) -> n < e -> inEpoch e l = [].
Proof.
  intros Hl He. induction l as [|[e' s] l IH]; [done|]. cbn.
  rewrite decide_False; [apply IH|].
  - intros e2 s2 Hin. apply (Hl e2 s2). by right.
  - intros ->. specialize (Hl e s ltac:(left)). lia.
Qed.

(** Moving to a later epoch zeroes the buckets of the epochs skipped. *)
Lemma advance_refines rb w e :
  ringRefines rb w -> newest w < e -> in_int64 (e - newest w) ->
  ringRefines (advance rb (lastEpoch rb) e) (mkWindow e (samples w)).
Proof.
  intros [Hpos Hlen Hidx Hep Hfut Hb] He H64. unfold advance.
  rewrite Hep, wrap64_id by done. rewrite Z.gtb_ltb.
  set (n := bucketCount rb) in *. set (i := currentIndex rb) in *.
  set (gap := if n <? e - newest w then n else e - newest w).
  assert (Hgap : 1 <= gap <= n) by (unfold gap; case_Z; lia).
  rewrite rem_mod by lia.
  split; simpl; fold n; [done | by rewrite length_zeroSkipped | by apply Z.mod_pos_bound
    | done | intros e' s Hin; specialize (Hfut e' s Hin); lia |].
  intros age Hage.
  assert (Hpos' : ((i + gap) mod n - age) mod n = (i + gap - age) mod n)
    by by rewrite Zminus_mod_idemp_l.
  rewrite Hpos'.
  destruct (decide (age < gap)) as [Hlt|Hge].
  - replace (i + gap - age) with (i + (gap - age)) by lia.
    rewrite zeroSkipped_hit by lia. f_equal. unfold epochBucket. simpl.
    rewrite (inEpoch_future _ (newest w)); [done | done |].
    unfold gap in Hlt. revert Hlt. case_Z; lia.
  - assert (gap = e - newest w) by (unfold gap in *; revert Hge; case_Z; lia).
    rewrite zeroSkipped_miss; [| lia | done | by apply Z.mod_pos_bound |].
    + replace (i + gap - age) with (i - (age - gap)) by lia.
      rewrite Hb by lia. do 2 f_equal. lia.
    + intros j Hj Heq.
      assert (Hmod : (gap - age - j) mod n = 0).
      { replace (gap - age - j) with ((i + gap - age) - (i + j)) by lia.
        rewrite Zminus_mod, Heq, Z.sub_diag. by apply Z.mod_0_l; lia. }
      rewrite <- (Z.mod_add _ 1) in Hmod by lia.
      rewrite Z.mod_small in Hmod; lia.
Qed.

(** Recording into the current bucket. *)
Lemma bump_refines rb w s tp bsec :
  ringRefines rb w ->
  ringRefines
    (mkRing (alter (bucketAdd (sProcess s) (sEndToEnd s) (sDeadLetter s))
               (Z.to_nat (currentIndex rb)) (buckets rb))
       (currentIndex rb) (bucketCount rb) (lastEpoch rb) tp bsec)
    (mkWindow (newest w) (samples w ++ [(newest w, s)])).
Proof.
  intros [Hpos Hlen Hidx Hep Hfut Hb].
  split; simpl; [done | by rewrite length_alter | done | done | |].
  - intros e' s' Hin. apply elem_of_app in Hin as [Hin|Hin]; [by eapply Hfut|].
    apply list_elem_of_singleton in Hin. by injection Hin as -> _.
  - intros age Hage. specialize (Hb age Hage).
    unfold epochBucket in *. simpl in *. rewrite inEpoch_app, foldl_app. simpl.
    destruct (decide (age = 0)) as [->|Hne].
    + rewrite Z.sub_0_r in *. rewrite Z.mod_small in * by lia.
      rewrite list_lookup_alter_eq, Hb, decide_True by lia. done.
    + rewrite decide_False by lia. rewrite list_lookup_alter_ne; [done|].
      pose proof (Z.mod_pos_bound (currentIndex rb - age) (bucketCount rb) Hpos).
      intros Heq%Z2Nat.inj; [|lia|lia].
      assert (Hz : (currentIndex rb - age) mod bucketCount rb = currentIndex rb mod bucketCount rb)
        by (rewrite (Z.mod_small (currentIndex rb)) by lia; congruence).
      assert (H0 : (- age) mod bucketCount rb = 0).
      { replace (- age) with ((currentIndex rb - age) - currentIndex rb) by lia.
        rewrite Zminus_mod, Hz, Z.sub_diag. by apply Z.mod_0_l; lia. }
      rewrite <- (Z.mod_add _ 1) in H0 by lia. rewrite Z.mod_small in H0; lia.
Qed.

(** ** Counting the window *)

Definition inWindow (w : Window) (n : Z) : list (Z * sample) :=
  filter (fun p => newest w - n < p.1) (samples w).

Lemma count_addSamples ss b :
  count (foldl addSample b ss) = wrap64 (count b + Z.of_nat (length ss)) \/ ss = [].
Proof.
  induction ss as [|s ss IH] using rev_ind; [by right|]. left.
  rewrite foldl_app, length_app. cbn [foldl length].
  change (count (addSample (foldl addSample b ss) s)) with (count (foldl addSample b ss) +64 1).
  unfold add64. destruct IH as [IH| ->]; [rewrite IH|]; cbn [foldl length].
  - rewrite wrap64_add_l. f_equal. lia.
  - done.
Qed.

Lemma count_epochBucket w e :
  Z.of_nat (length (samples w)) < 2^63 ->
  count (epochBucket w e) = Z.of_nat (length (inEpoch e (samples w))).
Proof.
  intros Hlen. unfold epochBucket.
  assert (Hle : (length (inEpoch e (samples w)) <= length (samples w))%nat).
  { induction (samples w) as [|[e' s] l IH]; [done|].
    cbn. destruct (decide (e' = e)); cbn; specialize (IH ltac:(simpl in Hlen; lia));
      unfold inEpoch in IH; lia. }
  destruct (count_addSamples (inEpoch e (samples w)) emptyBucket) as [->| ->]; [|done].
  simpl. rewrite wrap64_id; [lia|]. unfold in_int64. lia.
Qed.

(** A window one epoch longer has the samples of that epoch more. *)
Lemma inWindow_succ w n :
  length (inWindow w (n + 1)) = (length (inWindow w n) + length (inEpoch (newest w - n) (samples w)))%nat.
Proof.
  unfold inWindow, inEpoch. induction (samples w) as [|[e s] l IH]; [done|].
  rewrite !filter_cons. cbn. destruct (decide (e = newest w - n)) as [->|Hne].
  - rewrite decide_True by lia. rewrite decide_False by lia. cbn. rewrite IH. lia.
  - destruct (decide (newest w - n < e)).
    + rewrite decide_True by lia. cbn. rewrite IH. lia.
    + rewrite decide_False by lia. exact IH.
Qed.

Lemma inWindow_empty w : (forall e s, (e, s) ∈ samples w -> e <= newest w) -> inWindow w 0 = [].
Proof.
  intros Hf. unfold inWindow. induction (samples w) as [|[e s] l IH]; [done|].
  rewrite filter_cons, decide_False; [apply IH; intros; eapply Hf; by right|].
  simpl. specialize (Hf e s ltac:(left)). lia.
Qed.

Lemma windowAdd_TotalCount bs wd :
  TotalCount (foldl windowAdd wd bs) = foldl add64 (TotalCount wd) (map count bs).
Proof. revert wd. induction bs as [|b bs IH]; intros wd; simpl; [done|]. by rewrite IH. Qed.

Lemma windowAdd_Throughput bs wd :
  ThroughputPerBucket (foldl windowAdd wd bs)
    = ThroughputPerBucket wd ++ map (fun b => wrapu32 (count b)) bs.
Proof.
  revert wd. induction bs as [|b bs IH]; intros wd; simpl; [by rewrite app_nil_r|].
  rewrite IH. simpl. by rewrite <- app_assoc.
Qed.

Lemma foldl_add64 (ns : list nat) (a : Z) :
  0 <= a -> a + Z.of_nat (sum_list ns) < 2^63 ->
  foldl add64 a (map Z.of_nat ns) = a + Z.of_nat (sum_list ns).
Proof.
  revert a. induction ns as [|k ns IH]; intros a Ha Hs; simpl in *; [lia|].
  rewrite add64_id by (unfold in_int64; lia). rewrite IH; lia.
Qed.

(** The [i]-th bucket the window reads, oldest first, is the bucket of the
    epoch [n - 1 - i] before the newest. *)
Lemma bucketAt_epoch rb w i :
  ringRefines rb w -> 0 <= i < bucketCount rb ->
  bucketAt rb i = epochBucket w (newest w - (bucketCount rb - 1 - i)).
Proof.
  intros HR Hi. unfold bucketAt. pose proof (rr_idx _ _ HR). pose proof (rr_pos _ _ HR).
  rewrite rem_mod by lia.
  replace ((currentIndex rb + 1 + i) mod bucketCount rb)
    with ((currentIndex rb - (bucketCount rb - 1 - i)) mod bucketCount rb).
  - rewrite (rr_bucket _ _ HR) by lia. done.
  - rewrite <- (Z.mod_add (currentIndex rb - _) 1) by lia. f_equal. lia.
Qed.

Lemma window_buckets rb w :
  ringRefines rb w ->
  map (fun i => bucketAt rb (Z.of_nat i)) (seq 0 (Z.to_nat (bucketCount rb)))
    = map (fun i => epochBucket w (newest w - (bucketCount rb - 1 - Z.of_nat i)))
        (seq 0 (Z.to_nat (bucketCount rb))).
Proof.
  intros HR. apply map_ext_in. intros i Hi%in_seq.
  apply bucketAt_epoch; [done|]. pose proof (rr_pos _ _ HR). lia.
Qed.

(** The epochs of a window partition its samples. *)
Lemma window_sum w (n m : nat) :
  (forall e s, (e, s) ∈ samples w -> e <= newest w) -> (m <= n)%nat ->
  (sum_list (map (fun i => length (inEpoch (newest w - (Z.of_nat n - 1 - Z.of_nat i)) (samples w)))
     (seq (n - m) m)) = length (inWindow w (Z.of_nat m)))%nat.
Proof.
  intros Hf. induction m as [|m IH]; intros Hm; [by rewrite inWindow_empty|].
  cbn [seq map sum_list]. replace (S (n - S m)) with (n - m)%nat by lia.
  rewrite IH by lia. replace (Z.of_nat (S m)) with (Z.of_nat m + 1) by lia.
  rewrite inWindow_succ. replace (Z.of_nat n - 1 - Z.of_nat (n - S m)) with (Z.of_nat m) by lia. simpl; lia.
Qed.

(** ** Runs *)

Lemma newRingBuffer_refines d n now :
  0 < n ->
  ringRefines (newRingBuffer d n now)
    (mkWindow (Z.quot (unix now) (Z.max (Z.quot d second) 1)) []).
Proof.
  intros Hn. split; simpl; [done | rewrite length_replicate; lia | lia | done | |].
  - intros e s Hin. by apply not_elem_of_nil in Hin.
  - intros age Hage. apply lookup_replicate_2.
    pose proof (Z.mod_pos_bound (0 - age) n Hn). lia.
Qed.

(** Recording a sample refines the abstract window: the ring always holds
    the per-epoch buckets of the last [bucketCount] epochs. *)
Lemma record_refines rb w now p e d :
  ringRefines rb w ->
  in_int64 (Z.quot (unix now) (bucketSeconds rb) - newest w) ->
  ringRefines (record rb now p e d)
    (windowRecord w (Z.quot (unix now) (bucketSeconds rb)) (mkSample p e d)).
Proof.
  intros HR H64. unfold record, windowRecord. rewrite Z.gtb_ltb.
  set (ne := Z.quot _ _) in *. pose proof (rr_epoch _ _ HR) as Hep.
  destruct (Z.ltb_spec (lastEpoch rb) ne) as [Hlt|Hge].
  - replace (negb (ne =? lastEpoch rb)) with true by (case_Z; [lia | done]). simpl.
    rewrite Z.max_r by lia.
    pose proof (advance_refines rb w ne HR ltac:(lia) H64) as HA.
    exact (bump_refines _ _ (mkSample p e d) _ _ HA).
  - rewrite andb_false_r, Z.max_l by lia.
    exact (bump_refines _ _ (mkSample p e d) _ _ HR).
Qed.

(** The window's total is the number of samples of the last [bucketCount]
    epochs, and its per-bucket series lists the epochs oldest first. *)
Lemma windowData_counts rb w :
  ringRefines rb w -> Z.of_nat (length (samples w)) < 2^63 ->
  TotalCount (windowData rb) = Z.of_nat (length (inWindow w (bucketCount rb))) /\
  ThroughputPerBucket (windowData rb) =
    map (fun i => wrapu32 (Z.of_nat (length (inEpoch (newest w - (bucketCount rb - 1 - Z.of_nat i)) (samples w)))))
      (seq 0 (Z.to_nat (bucketCount rb))).
Proof.
  intros HR Hlen. unfold windowData. pose proof (rr_pos _ _ HR) as Hn.
  rewrite windowAdd_TotalCount, windowAdd_Throughput, (window_buckets _ _ HR), !map_map. simpl.
  split.
  - erewrite map_ext by (intros i; by rewrite count_epochBucket).
    rewrite <- (map_map (fun i => length (inEpoch _ (samples w))) Z.of_nat).
    assert (Hs := window_sum w (Z.to_nat (bucketCount rb)) (Z.to_nat (bucketCount rb))
                    (rr_future _ _ HR) ltac:(lia)).
    rewrite Nat.sub_diag, Z2Nat.id in Hs by lia.
    assert (Hle : (length (inWindow w (bucketCount rb)) <= length (samples w))%nat)
      by apply length_filter.
    rewrite foldl_add64 by (rewrite ?Hs; lia). rewrite Hs. lia.
  - apply map_ext. intros i. by rewrite count_epochBucket.
Qed.

(** The samples of a run, with the times they are recorded at. *)
Definition recordAll (rb : metricsRingBuffer) (l : list (Z * sample)) : metricsRingBuffer :=
  foldl (fun rb '(now, s) => record rb now (sProcess s) (sEndToEnd s) (sDeadLetter s)) rb l.

Definition windowAll (secs : Z) (w : Window) (l : list (Z * sample)) : Window :=
  foldl (fun w '(now, s) => windowRecord w (Z.quot (unix now) secs) s) w l.

(** The times [UnixNano] can represent. *)
Definition unixTime (t : Z) : Prop := 0 <= t < 2^63.

Lemma epoch_range t secs : unixTime t -> 1 <= secs -> 0 <= Z.quot (unix t) secs < 2^63.
Proof.
  unfold unixTime, unix, second. intros [H0 H1] Hs.
  assert (Hu : 0 <= t / 1000000000 < 2^63).
  { split; [apply Z.div_pos; lia | apply Z.div_lt_upper_bound; lia]. }
  rewrite Z.quot_div_nonneg by lia. split; [apply Z.div_pos; lia|].
  apply Z.div_lt_upper_bound; [lia|]. nia.
Qed.

Lemma recordAll_refines rb w l :
  1 <= bucketSeconds rb -> ringRefines rb w -> 0 <= newest w < 2^63 -> Forall (fun p => unixTime p.1) l ->
  ringRefines (recordAll rb l) (windowAll (bucketSeconds rb) w l) /\
  bucketCount (recordAll rb l) = bucketCount rb /\
  length (samples (windowAll (bucketSeconds rb) w l)) = (length (samples w) + length l)%nat.
Proof.
  intros Hs HR Hn Hl. revert rb w Hs HR Hn. induction Hl as [|[t s] l Ht Hl IH]; intros rb w Hs HR Hn.
  { split_and!; [done | done | simpl; lia]. }
  pose proof (epoch_range t _ Ht Hs) as He. simpl.
  set (rb' := record rb t (sProcess s) (sEndToEnd s) (sDeadLetter s)).
  set (w' := windowRecord w (Z.quot (unix t) (bucketSeconds rb)) s).
  assert (HR' : ringRefines rb' w').
  { destruct s. apply (record_refines rb w t); [done|]. unfold in_int64. lia. }
  assert (Hf : bucketSeconds rb' = bucketSeconds rb /\ bucketCount rb' = bucketCount rb)
    by (unfold rb', record; destruct (_ && _); done).
  destruct Hf as [Hf Hc]. destruct (IH rb' w') as (H1 & H2 & H3); [lia | done | simpl; lia |].
  rewrite Hf in H1, H3. split_and!; [done | lia |]. rewrite H3. unfold w'. simpl. rewrite length_app. simpl. lia.
Qed.

(** ** Properties *)

(** C34: the metrics window.  After any sequence of samples, at any times and in
    any order, the window reports as its total the number of samples of the last
    [n] epochs (a late sample counts in the newest epoch), and as its series the
    number of samples of each of these epochs, oldest first. *)
Theorem window_reports d n now l :
  0 < n -> unixTime now -> Forall (fun p => unixTime p.1) l -> Z.of_nat (length l) < 2^63 ->
  let rb := newRingBuffer d n now in
  let w := windowAll (bucketSeconds rb) (mkWindow (lastEpoch rb) []) l in
  let wd := windowData (recordAll rb l) in
  TotalCount wd = Z.of_nat (length (inWindow w n)) /\
  ThroughputPerBucket wd =
    map (fun i => wrapu32 (Z.of_nat (length (inEpoch (newest w - (n - 1 - Z.of_nat i)) (samples w)))))
      (seq 0 (Z.to_nat n)).
Proof.
  intros Hn Ht Hl Hlen rb w wd. pose proof (newRingBuffer_refines d n now Hn) as HR.
  assert (Hs : 1 <= bucketSeconds rb) by (simpl; lia).
  destruct (recordAll_refines rb _ l Hs HR (epoch_range now _ Ht Hs) Hl) as (HR' & Hc & Hsl).
  pose proof (windowData_counts _ _ HR') as H. rewrite Hsl in H. simpl in H.
  specialize (H Hlen). rewrite Hc in H. exact H.
Qed.

(** A sample two seconds after the start, a late one, and one twenty seconds on:
    only the last is left in a window of fifteen seconds. *)
Definition threeSamples : list (Z * sample) :=
  [(102 * second, mkSample 7 9 false); (101 * second, mkSample 3 4 false); (122 * second, mkSample 5 5 true)].

Lemma window_reports_witness :
  TotalCount (windowData (recordAll (newRingBuffer second 15 (100 * second)) threeSamples)) = 1.
Proof.
  refine (eq_trans (proj1 (window_reports second 15 (100 * second) threeSamples _ _ _ _)) _).
  - lia.
  - vm_compute. split; [discriminate | reflexivity].
  - repeat constructor; vm_compute; discriminate.
  - vm_compute. reflexivity.
  - vm_compute. reflexivity.
Defined.
