(* ===== verification/Tracker.v ===== *)
(** * Per-partition offset tracking ([demux/offset])

    [OffsetsTracker] and the operations that act on one partition's tracker:
    [checkAndAdvance], the gap buffer, the flush walk, the successor repair, the
    baseline reset and the orphan discard.

    Every operation runs under the committer's mutex.  It returns the updated
    tracker and the work items it passed to [returnMessageAndCollectMetrics],
    in order; [Committer] applies that epilogue to them.  Logging is not
    modelled.  The [now] arguments are clock readings: they only reach the
    [WatermarkAdvanceTime] of the items. *)
From S2P Require Import Prelude Types.
From stdpp Require Import base gmap list.
Open Scope Z_scope.

Section Tracker.
Context `{NX : Nexus} `{RT : GoRuntime}.

Record OffsetsTracker := mkTracker {
  Ready : option WorkItem;
  Assignment : RebalanceType;
  MinOffsetSeen : Z;
  MaxOffsetSeen : Z;
  GapBuffer : Slice WorkItem;
  NeedsGapAdvance : bool;
  CommittedPlusOne : Z;
  LastCommittedOffset : Z
}.

Definition setReady (r : option WorkItem) (t : OffsetsTracker) : OffsetsTracker :=
  mkTracker r (Assignment t) (MinOffsetSeen t) (MaxOffsetSeen t) (GapBuffer t)
    (NeedsGapAdvance t) (CommittedPlusOne t) (LastCommittedOffset t).

Definition setAssignment (a : RebalanceType) (t : OffsetsTracker) : OffsetsTracker :=
  mkTracker (Ready t) a (MinOffsetSeen t) (MaxOffsetSeen t) (GapBuffer t)
    (NeedsGapAdvance t) (CommittedPlusOne t) (LastCommittedOffset t).

Definition setMinMaxSeen (lo hi : Z) (t : OffsetsTracker) : OffsetsTracker :=
  mkTracker (Ready t) (Assignment t) lo hi (GapBuffer t)
    (NeedsGapAdvance t) (CommittedPlusOne t) (LastCommittedOffset t).

Definition setGapBuffer (b : Slice WorkItem) (t : OffsetsTracker) : OffsetsTracker :=
  mkTracker (Ready t) (Assignment t) (MinOffsetSeen t) (MaxOffsetSeen t) b
    (NeedsGapAdvance t) (CommittedPlusOne t) (LastCommittedOffset t).

Definition setNeedsGapAdvance (n : bool) (t : OffsetsTracker) : OffsetsTracker :=
  mkTracker (Ready t) (Assignment t) (MinOffsetSeen t) (MaxOffsetSeen t) (GapBuffer t)
    n (CommittedPlusOne t) (LastCommittedOffset t).

Definition setCommittedPlusOne (c : Z) (t : OffsetsTracker) : OffsetsTracker :=
  mkTracker (Ready t) (Assignment t) (MinOffsetSeen t) (MaxOffsetSeen t) (GapBuffer t)
    (NeedsGapAdvance t) c (LastCommittedOffset t).

Definition setLastCommittedOffset (l : Z) (t : OffsetsTracker) : OffsetsTracker :=
  mkTracker (Ready t) (Assignment t) (MinOffsetSeen t) (MaxOffsetSeen t) (GapBuffer t)
    (NeedsGapAdvance t) (CommittedPlusOne t) l.

(** [OffsetsTracker.HasPendingCommits] *)
Definition trackerHasPendingCommits (t : OffsetsTracker) : bool :=
  match Ready t with
  | Some _ => true
  | None => slen (GapBuffer t) >? 0
  end.

(** ** Arrival of a completed work item ([committer_process.go]) *)

(** The tracker [processCommit] creates for a partition it has not seen. *)
Definition newTracker (gapBufferSize offset : Z) : OffsetsTracker :=
  mkTracker None Assign offset offset (makeSlice gapBufferSize) false (-1) (-1).

Definition observeOffset (offset : Z) (t : OffsetsTracker) : OffsetsTracker :=
  if offset <? MinOffsetSeen t then setMinMaxSeen offset (MaxOffsetSeen t) t
  else if offset >? MaxOffsetSeen t then setMinMaxSeen (MinOffsetSeen t) offset t
  else t.

Definition addToGapBuffer (t : OffsetsTracker) (w : WorkItem) : OffsetsTracker :=
  setGapBuffer (sappend (GapBuffer t) (mark SetCommitBuffered w)) t.

Definition advanceThroughGapBuffer (t : OffsetsTracker) (readyOffset : Z) : OffsetsTracker :=
  if existsb (fun g => readyOffset =? PreviousOffset g) (elems (GapBuffer t))
  then setNeedsGapAdvance true t else t.

Definition checkAndAdvance (t : OffsetsTracker) (w : WorkItem) (offset now : Z)
    : OffsetsTracker * list WorkItem :=
  match Ready t with
  | None =>
      if CommittedPlusOne t =? offset then
        let w' := stamp now w in
        (advanceThroughGapBuffer (setReady (Some w') t) (offsetOf w'), [])
      else if CommittedPlusOne t >? offset then
        (t, [stamp now (mark SetOrphaned w)])
      else
        let t' := addToGapBuffer t w in
        if (offset =? CommittedPlusOne t') ||
           ((LastCommittedOffset t' >=? 0) && (PreviousOffset w =? LastCommittedOffset t'))
        then (setNeedsGapAdvance true t', [])
        else (t', [])
  | Some r =>
      let readyOffset := offsetOf r in
      if readyOffset >? offset then
        (t, [stamp now (mark SetOrphaned w)])
      else if (readyOffset =? PreviousOffset w) || (readyOffset =? offset) then
        let w' := stamp now w in
        (advanceThroughGapBuffer (setReady (Some w') t) (offsetOf w'), [r])
      else
        (addToGapBuffer t w, [])
  end.

(** The part of [processCommit] that follows the tracker lookup. *)
Definition processItem (t : OffsetsTracker) (w : WorkItem) (now : Z)
    : OffsetsTracker * list WorkItem :=
  let offset := offsetOf w in
  if First w then
    let w' := mark SetFirstAfterRebalance w in
    let t' := if offset >=? CommittedPlusOne t then setCommittedPlusOne offset t else t in
    checkAndAdvance t' w' offset now
  else checkAndAdvance t w offset now.

(** ** The flush walk *)

(** The comparison of [sortGapBuffer]: by offset, the later-read twin first. *)
Definition cmpGap (a b : WorkItem) : Z :=
  if offsetOf a <? offsetOf b then -1
  else if offsetOf a >? offsetOf b then 1
  else Z.sgn (readTimeOf b - readTimeOf a).

Definition sameOffset (a b : WorkItem) : bool := offsetOf a =? offsetOf b.

(** The sort sets [foundDuplicate] when it compares two items of equal offset;
    a comparison sort compares the neighbours of its result, so it does exactly
    when the sorted buffer has two neighbours of equal offset. *)
Fixpoint foundDuplicate (l : list WorkItem) : bool :=
  match l with
  | a :: ((b :: _) as l') => sameOffset a b || foundDuplicate l'
  | _ => false
  end.

Definition sortGapBuffer (b : Slice WorkItem) : Slice WorkItem :=
  let sorted := SortFunc cmpGap (elems b) in
  mkSlice (if foundDuplicate sorted then CompactFunc sameOffset sorted else sorted) (cap b).

(** [for i := 4; ; i++ { if len < size*i { return size*i } }]; [None] when the
    fuel runs out. *)
Fixpoint resizeLoop (fuel : nat) (i len size : Z) : option Z :=
  match fuel with
  | O => None
  | S fuel' => if len <? size * i then Some (size * i) else resizeLoop fuel' (i + 1) len size
  end.

Definition resizeGapBuffer (gapBufferSize gapBufferSize70Pct : Z) (b : Slice WorkItem)
    : Slice WorkItem :=
  if cap b <? gapBufferSize70Pct then sgrow b gapBufferSize
  else if cap b >? gapBufferSize * 3 then
    match resizeLoop (S (length (elems b))) 4 (slen b) gapBufferSize with
    | Some newCap => mkSlice (elems b) newCap
    | None => b
    end
  else b.

(** The loop labelled [walk] over the sorted buffer: the new [Ready], the
    number of buffered items consumed ([advancedOffsetIndex + 1]) and the items
    returned. *)
Fixpoint walk (now cpo last : Z) (ready : option WorkItem) (l : list WorkItem)
    : option WorkItem * nat * list WorkItem :=
  match l with
  | [] => (ready, O, [])
  | g :: l' =>
      match ready with
      | None =>
          if offsetOf g <? cpo then
            let '(r, n, out) := walk now cpo last None l' in
            (r, S n, stamp now (mark SetOrphaned g) :: out)
          else if (offsetOf g =? cpo) || ((last >=? 0) && (PreviousOffset g =? last)) then
            let '(r, n, out) := walk now cpo last (Some (stamp now g)) l' in
            (r, S n, out)
          else (None, O, [])
      | Some r =>
          if offsetOf g <=? offsetOf r then
            let '(r', n, out) := walk now cpo last (Some r) l' in
            (r', S n, stamp now (mark SetOrphaned g) :: out)
          else if offsetOf r =? PreviousOffset g then
            let '(r', n, out) := walk now cpo last (Some (stamp now g)) l' in
            (r', S n, r :: out)
          else (Some r, O, [])
      end
  end.

(** The body of the [range] loop of [flushGapBuffers]. *)
Definition flushTracker (gapBufferSize gapBufferSize70Pct now : Z) (t : OffsetsTracker)
    : OffsetsTracker * list WorkItem :=
  if negb (NeedsGapAdvance t) then (t, [])
  else
    let t := setNeedsGapAdvance false t in
    if slen (GapBuffer t) =? 0 then (t, [])
    else
      let b := sortGapBuffer (GapBuffer t) in
      let '(r, n, out) :=
        walk now (CommittedPlusOne t) (LastCommittedOffset t) (Ready t) (elems b) in
      let t := setReady r t in
      if (n =? 0)%nat then (setGapBuffer b t, out)
      else if (length (elems b) =? n)%nat then (setGapBuffer (makeSlice gapBufferSize) t, out)
      else (setGapBuffer (resizeGapBuffer gapBufferSize gapBufferSize70Pct (sfrom n b)) t, out).

(** ** The successor repair ([committer_repair.go]) *)

Definition chooseSuccessor (cpo committed : Z) (successor : option WorkItem) (g : WorkItem)
    : option WorkItem :=
  if offsetOf g <? cpo then successor
  else if (match successor with Some s => offsetOf g >=? offsetOf s | None => false end)
  then successor
  else if offsetOf g =? cpo then Some g
  else if (PreviousOffset g >=? 0) && (PreviousOffset g <=? committed) then Some g
  else successor.

Definition findSuccessor (cpo committed : Z) (l : list WorkItem) : option WorkItem :=
  foldl (chooseSuccessor cpo committed) None l.

(** The second loop: the items kept and the items pruned, in buffer order. *)
Fixpoint pruneBelow (now : Z) (successor : WorkItem) (l : list WorkItem)
    : list WorkItem * list WorkItem :=
  match l with
  | [] => ([], [])
  | g :: l' =>
      let '(kept, pruned) := pruneBelow now successor l' in
      if ptr g =? ptr successor then (kept, pruned)
      else if offsetOf g <? offsetOf successor
      then (kept, stamp now (mark SetOrphaned g) :: pruned)
      else (g :: kept, pruned)
  end.

Definition repairSuccessor (t : OffsetsTracker) (now : Z) : OffsetsTracker * list WorkItem :=
  match Ready t with
  | Some _ => (t, [])
  | None =>
      if slen (GapBuffer t) =? 0 then (t, [])
      else if NeedsGapAdvance t then (t, [])
      else if LastCommittedOffset t <? 0 then (t, [])
      else
        match findSuccessor (CommittedPlusOne t) (LastCommittedOffset t) (elems (GapBuffer t)) with
        | None => (t, [])
        | Some s =>
            let '(kept, pruned) := pruneBelow now s (elems (GapBuffer t)) in
            let b := mkSlice kept (cap (GapBuffer t)) in
            (setNeedsGapAdvance (slen b >? 0) (setReady (Some (stamp now s)) (setGapBuffer b t)),
             pruned)
        end
  end.

(** ** Rebalance ([committer.go]) and commit ([send_commits.go]) *)

(** The tracker [ResetCommittedOffsets] creates for an unknown partition. *)
Definition newResetTracker (gapBufferSize committedOffset : Z) : OffsetsTracker :=
  mkTracker None Assign 0 0 (makeSlice gapBufferSize) false committedOffset (-1).

(** Its loop body for a known partition. *)
Definition resetTracker (committedOffset : Z) (t : OffsetsTracker)
    : OffsetsTracker * list WorkItem :=
  let '(t, out1) :=
    match Ready t with
    | Some r =>
        if offsetOf r <? committedOffset
        then (setReady None t, [mark SetOrphaned r]) else (t, [])
    | None => (t, [])
    end in
  let '(t, out2) :=
    if decide (Assignment t = Revoke) then
      (setGapBuffer (sclear (GapBuffer t)) (setReady None t),
       match Ready t with Some r => [mark SetOrphaned r] | None => [] end
         ++ map (mark SetOrphaned) (elems (GapBuffer t)))
    else (t, []) in
  let t := setAssignment Assign (setLastCommittedOffset (-1) (setCommittedPlusOne committedOffset t)) in
  (setNeedsGapAdvance (slen (GapBuffer t) >? 0) t, out1 ++ out2).

Definition discardOrphanedTracker (t : OffsetsTracker) : OffsetsTracker * list WorkItem :=
  match Ready t, elems (GapBuffer t) with
  | None, [] => (t, [])
  | r, b =>
      (setNeedsGapAdvance false (setGapBuffer (sclear (GapBuffer t)) (setReady None t)),
       match r with Some w => [mark SetOrphaned w] | None => [] end ++ map (mark SetOrphaned) b)
  end.

(** The body of the collecting loop of [CommitOffsets]: the tracker, the items
    returned and the message added to the commit, if any. *)
Definition collectCommit (assigned : bool) (now : Z) (t : OffsetsTracker)
    : OffsetsTracker * (list WorkItem * option Message) :=
  if negb assigned then
    let '(t, out) := discardOrphanedTracker t in (t, (out, None))
  else
    let '(t, out) := match Ready t with None => repairSuccessor t now | Some _ => (t, []) end in
    match Ready t with
    | None => (t, (out, None))
    | Some w =>
        if offsetOf w <? CommittedPlusOne t then
          let t := setReady None t in
          let t := if slen (GapBuffer t) >? 0 then setNeedsGapAdvance true t else t in
          (t, (out ++ [mark SetOrphaned w], None))
        else (t, (out, Some (wiMessage w)))
    end.

(** The body of the loop that follows a commit the broker acknowledged. *)
Definition ackCommit (offset : Z) (t : OffsetsTracker) : OffsetsTracker * list WorkItem :=
  let next := add64 offset 1 in
  let t := if next >? CommittedPlusOne t then setCommittedPlusOne next t else t in
  let t := if offset >? LastCommittedOffset t then setLastCommittedOffset offset t else t in
  let out := match Ready t with Some w => [w] | None => [] end in
  let t := setReady None t in
  (if slen (GapBuffer t) >? 0 then setNeedsGapAdvance true t else t, out).

End Tracker.

Arguments sortGapBuffer : simpl never.
Arguments resizeGapBuffer : simpl never.
