(* ===== verification/Committer.v ===== *)
(** * The offset committer ([demux/offset])

    The [Committer]'s state and its operations, built from the per-partition
    operations of [Tracker]: ingest, commit, rebalance marks, drain and
    snapshots.  The two goroutines and their interleaving are in [World]. *)
From S2P Require Import Prelude Types RingBuffer Tracker.
From stdpp Require Import base gmap list.
Open Scope Z_scope.
Open Scope go_scope.

Section Committer.
Context `{NX : Nexus} `{RT : GoRuntime}.

(** [collected] is the sequence of calls to the metrics port's [Collect], the
    end of a work item's life in this component. *)
Record Committer := mkCommitter {
  commitsIn : Chan WorkItem;
  PartitionMap : gmap Z OffsetsTracker;
  drained : Chan unit;
  gapBufferSize : Z;
  gapBufferSize70Pct : Z;
  assigned : gset Z;
  metricsBuffer : metricsRingBuffer;
  totalProcessed : Z;
  lastRebalanceTime : Z;
  collected : list WorkItem
}.

Definition setCommitsIn (c : Chan WorkItem) (oc : Committer) : Committer :=
  mkCommitter c (PartitionMap oc) (drained oc) (gapBufferSize oc) (gapBufferSize70Pct oc)
    (assigned oc) (metricsBuffer oc) (totalProcessed oc) (lastRebalanceTime oc) (collected oc).

Definition setPartitionMap (m : gmap Z OffsetsTracker) (oc : Committer) : Committer :=
  mkCommitter (commitsIn oc) m (drained oc) (gapBufferSize oc) (gapBufferSize70Pct oc)
    (assigned oc) (metricsBuffer oc) (totalProcessed oc) (lastRebalanceTime oc) (collected oc).

Definition setDrained (d : Chan unit) (oc : Committer) : Committer :=
  mkCommitter (commitsIn oc) (PartitionMap oc) d (gapBufferSize oc) (gapBufferSize70Pct oc)
    (assigned oc) (metricsBuffer oc) (totalProcessed oc) (lastRebalanceTime oc) (collected oc).

Definition setAssigned (a : gset Z) (now : Z) (oc : Committer) : Committer :=
  mkCommitter (commitsIn oc) (PartitionMap oc) (drained oc) (gapBufferSize oc)
    (gapBufferSize70Pct oc) a (metricsBuffer oc) (totalProcessed oc) now (collected oc).

(** [New(partitionsCount)] only pre-sizes the map; [clampPartitionsCount] is
    the size it asks for. *)
Definition minPartitionMapSize : Z := 12.
Definition maxPartitionMapSize : Z := 2048.

Definition clampPartitionsCount (partitionsCount : Z) : Z :=
  if partitionsCount <? minPartitionMapSize then minPartitionMapSize
  else if partitionsCount >? maxPartitionMapSize then maxPartitionMapSize
  else partitionsCount.

(** [snapshot.DefaultBucketDuration], [snapshot.DefaultBucketCount] *)
Definition DefaultBucketDuration : Z := second.
Definition DefaultBucketCount : Z := 15.

Definition NewCommitter (concurrentKeys commitIngestChannelLen now : Z) : Committer :=
  let size := Z.quot (concurrentKeys * 3) 2 in
  mkCommitter (makeChan commitIngestChannelLen) ∅ (makeChan 1) size (Z.quot (size * 70) 100) ∅
    (newRingBuffer DefaultBucketDuration DefaultBucketCount now) 0 0 [].

(** [CommitIngestChannelLen] *)
Definition CommitIngestChannelLen (oc : Committer) : Z * Z :=
  (chLen (commitsIn oc), chCap (commitsIn oc)).

(** [OffsetsByPartition.HasPendingCommits]: the result of the [range] loop with
    its early return does not depend on the order of the visit. *)
Definition HasPendingCommits (m : gmap Z OffsetsTracker) : bool :=
  existsb (fun p => trackerHasPendingCommits p.2) (map_to_list m).

Definition returnMessageAndCollectMetrics (oc : Committer) (w : WorkItem) : Committer :=
  let metrics := wiMetrics w in
  let processedAt := ProcessStartTime metrics + ProcessDuration metrics in
  mkCommitter (commitsIn oc) (PartitionMap oc) (drained oc) (gapBufferSize oc)
    (gapBufferSize70Pct oc) (assigned oc)
    (record (metricsBuffer oc) processedAt (ProcessDuration metrics)
       (WatermarkAdvanceTime metrics - ReadTime metrics) (hasTrait (Traits metrics) DeadLetter))
    (totalProcessed oc +64 1) (lastRebalanceTime oc) (collected oc ++ [w]).

Definition returnAll (oc : Committer) (ws : list WorkItem) : Committer :=
  foldl returnMessageAndCollectMetrics oc ws.

(** Store a partition's tracker and run the epilogue for the items it returned. *)
Definition putTracker (oc : Committer) (partition : Z) (res : OffsetsTracker * list WorkItem)
    : Committer :=
  returnAll (setPartitionMap (<[partition := res.1]> (PartitionMap oc)) oc) res.2.

(** ** Ingest *)

Definition processCommit (oc : Committer) (w : WorkItem) (now : Z) : Committer :=
  let '(partition, offset) := PartitionOffset w in
  let t := match PartitionMap oc !! partition with
           | None => newTracker (gapBufferSize oc) offset
           | Some t => observeOffset offset t
           end in
  putTracker oc partition (processItem t w now).

Definition flushGapBuffers (oc : Committer) (order : list Z) (now : Z) : Committer :=
  let '(m, outs) :=
    visit (fun _ => flushTracker (gapBufferSize oc) (gapBufferSize70Pct oc) now)
      order (PartitionMap oc) in
  returnAll (setPartitionMap m oc) (concat outs).

(** [CollectAndCommit]: a blocking send; [None] while the channel is full. *)
Definition CollectAndCommit (oc : Committer) (w : WorkItem) : option Committer :=
  c ← trySend (commitsIn oc) w; Some (setCommitsIn c oc).

Definition readBatchSize : nat := 1000.

(** The ingest loop's receive: takes the next item and processes it. *)
Definition ingestNext (oc : Committer) (now : Z) : option Committer :=
  '(w, c) ← tryRecv (commitsIn oc); Some (processCommit (setCommitsIn c oc) w now).

(** The deferred end of a batch, still under the mutex. *)
Definition ingestEnd (oc : Committer) (order : list Z) (now : Z) : Committer :=
  let oc := flushGapBuffers oc order now in
  if chLen (commitsIn oc) =? 0 then
    match trySend (drained oc) () with
    | Some d => setDrained d oc
    | None => oc
    end
  else oc.

(** A batch that runs to its end with no new arrival: the first item, then
    what the channel holds, up to [readBatchSize] items. *)
Fixpoint ingestRest (fuel : nat) (oc : Committer) (now : Z) : Committer :=
  match fuel with
  | O => oc
  | S fuel' =>
      match ingestNext oc now with
      | Some oc' => ingestRest fuel' oc' now
      | None => oc
      end
  end.

Definition ingestBatch (oc : Committer) (order : list Z) (now : Z) : option Committer :=
  oc1 ← ingestNext oc now; Some (ingestEnd (ingestRest (readBatchSize - 1) oc1 now) order now).

(** ** Rebalance *)

Definition resetOne (oc : Committer) (po : Z * Z) : Committer :=
  let '(partition, committedOffset) := po in
  match PartitionMap oc !! partition with
  | None => putTracker oc partition (newResetTracker (gapBufferSize oc) committedOffset, [])
  | Some t => putTracker oc partition (resetTracker committedOffset t)
  end.

(** The entries of the argument map in the order the [range] loop meets them. *)
Definition ResetCommittedOffsets (oc : Committer) (partitionOffsets : list (Z * Z)) : Committer :=
  foldl resetOne oc partitionOffsets.

Definition MarkPartitionAssigned (oc : Committer) (partition now : Z) : Committer :=
  setAssigned ({[partition]} ∪ assigned oc) now oc.

Definition MarkPartitionRevoked (oc : Committer) (partition now : Z) : Committer :=
  setPartitionMap (alter (setAssignment Revoke) partition (PartitionMap oc))
    (setAssigned (assigned oc ∖ {[partition]}) now oc).

(** ** Commit *)

Inductive CommitError := ErrBrokerCommitFailed | ErrCommitGuardTimeout.

(** The collecting loop: the committer and the messages to commit. *)
Definition collectCommits (oc : Committer) (order : list Z) (now : Z) : Committer * list Message :=
  let '(m, outs) :=
    visit (fun p => collectCommit (bool_decide (p ∈ assigned oc)) now) order (PartitionMap oc) in
  (returnAll (setPartitionMap m oc) (concat (map fst outs)), omap snd outs).

Definition ackOne (oc : Committer) (message : Message) : Committer :=
  match PartitionMap oc !! Partition message with
  | Some t => putTracker oc (Partition message) (ackCommit (Offset message) t)
  | None => oc
  end.

Definition ackCommits (oc : Committer) (commits : list Message) : Committer :=
  foldl ackOne oc commits.

(** [CommitOffsets] with the outcome of the guard's [select], the orders of its
    two [range] loops, and the broker's answer ([true] for an error) as
    arguments.  Returns the messages sent to the broker. *)
Definition CommitOffsets (oc : Committer) (guardAcquired : bool) (broker : list Message -> bool)
    (order1 order2 : list Z) (now : Z) : Committer * list Message * option CommitError :=
  if negb guardAcquired then (oc, [], Some ErrCommitGuardTimeout)
  else
    let oc := flushGapBuffers oc order1 now in
    let '(oc, commits) := collectCommits oc order2 now in
    match commits with
    | [] => (oc, [], None)
    | _ =>
        if broker commits then (oc, commits, Some ErrBrokerCommitFailed)
        else (ackCommits oc commits, commits, None)
    end.

(** ** Drain ([committer_drain.go]) *)

Inductive DrainError := DrainTimeout | DrainCommitError (e : CommitError).

(** [commit] is the [CommitOffsets] call of this moment. *)
Definition surfaceFinalCommit (commit : Committer -> Committer * list Message * option CommitError)
    (oc : Committer) : Committer * list Message * option DrainError :=
  let '(oc, sent, err) := commit oc in
  (oc, sent,
   match err with
   | None => None
   | Some ErrBrokerCommitFailed => None
   | Some e => Some (DrainCommitError e)
   end).

Definition clearDrained (oc : Committer) : Committer :=
  match tryRecv (drained oc) with
  | Some (_, d) => setDrained d oc
  | None => oc
  end.

(** [yield] is what the other goroutines do during [runtime.Gosched], [wait]
    what they do while the drain waits, and [gotToken] whether the wait ends with
    the [drained] token rather than with the cold-pipeline grace period or the
    drain timer. *)
Definition DrainCommitter (commit : Committer -> Committer * list Message * option CommitError)
    (yield wait : Committer -> Committer) (gotToken : bool) (oc : Committer)
    : Committer * list Message * option DrainError :=
  let oc := yield (clearDrained oc) in
  if chLen (commitsIn oc) =? 0 then
    let oc := wait oc in
    surfaceFinalCommit commit (if gotToken then clearDrained oc else oc)
  else if gotToken then
    surfaceFinalCommit commit (clearDrained (wait oc))
  else
    let '(oc, sent, _) := commit (wait oc) in (oc, sent, Some DrainTimeout).

(** ** Snapshots ([committer_metrics.go]) *)

Record PartitionSnapshot := mkPartitionSnapshot {
  psPartition : Z;
  psCommittedOffset : Z;
  HighestReadyOffset : Z;
  psMaxOffsetSeen : Z;
  GapBufferDepth : Z;
  psAssigned : bool
}.

Definition partitionSnapshot (partition : Z) (t : OffsetsTracker) : PartitionSnapshot :=
  let committedOffset := wrap64 (CommittedPlusOne t - 1) in
  let readyOffset := match Ready t with Some w => offsetOf w | None => committedOffset end in
  let committedOffset := if committedOffset <? -1 then -1 else committedOffset in
  mkPartitionSnapshot partition committedOffset readyOffset (MaxOffsetSeen t)
    (slen (GapBuffer t)) (bool_decide (Assignment t = Assign)).

Definition PreCommitsSnapshot (oc : Committer) (order : list Z) : Z * list PartitionSnapshot :=
  (lastRebalanceTime oc,
   omap (fun p => partitionSnapshot p <$> PartitionMap oc !! p) order).

(** [Committer.WindowData] *)
Definition committerWindowData (oc : Committer) : WindowData :=
  let wd := windowData (metricsBuffer oc) in
  mkWindowData (ThroughputPerBucket wd) (DeadLetterPerBucket wd) (BucketDuration wd)
    (totalProcessed oc) (TotalCount wd) (TotalProcessNanos wd) (TotalEndToEndNanos wd)
    (MaxProcessNanos wd) (MaxEndToEndNanos wd) (MinEndToEndNanos wd).

End Committer.
