(* ===== verification/TrackerFacts.v ===== *)
(** * Facts about the tracker operations

    What the sort, the walk, the repair and the other operations do to the
    multiset of work items a tracker holds: nothing is invented, nothing is
    handed on twice, and the only items that leave without being returned are
    the duplicates the sort compacts away. *)
From S2P Require Import Prelude Types Tracker.
From stdpp Require Import base gmap list sorting.
Open Scope Z_scope.

Section TrackerFacts.
Context `{NX : Nexus} `{RT : GoRuntime} `{RTok : !GoRuntimeOk RT}.
Implicit Types (t : OffsetsTracker) (w g r : WorkItem) (l out : list WorkItem).

Definition cores (l : list WorkItem) : list Core := map core l.

(** The work items a tracker holds. *)
Definition trackerItems (t : OffsetsTracker) : list WorkItem :=
  option_list (Ready t) ++ elems (GapBuffer t).

(** A step of a tracker that received [arrived] and returned [out] is conservative:
    what it now holds and what it returned was there before. *)
Definition conserves (t : OffsetsTracker) (arrived : list WorkItem) (t' : OffsetsTracker)
    (out : list WorkItem) : Prop :=
  cores (trackerItems t') ++ cores out ⊆+ cores (trackerItems t) ++ cores arrived.

(** Exact accounting: every item is still held or was returned. *)
Definition accounts (t : OffsetsTracker) (arrived : list WorkItem) (t' : OffsetsTracker)
    (out : list WorkItem) : Prop :=
  cores (trackerItems t') ++ cores out ≡ₚ cores (trackerItems t) ++ cores arrived.

Definition offsetsDistinct (l : list WorkItem) : Prop := NoDup (map offsetOf l).
Definition ptrsDistinct (l : list WorkItem) : Prop := NoDup (map ptr l).

Lemma cores_app l1 l2 : cores (l1 ++ l2) = cores l1 ++ cores l2.
Proof. apply map_app. Qed.

Lemma accounts_conserves t a t' out : accounts t a t' out -> conserves t a t' out.
Proof. intros H. by apply Permutation_submseteq. Qed.

Lemma accounts_refl t : accounts t [] t [].
Proof. unfold accounts. reflexivity. Qed.

Lemma accounts_flag t n : accounts t [] (setNeedsGapAdvance n t) [].
Proof. unfold accounts. reflexivity. Qed.

(** ** Sorting *)

Lemma cmpGap_total a b : cmpGap a b <= 0 \/ cmpGap b a <= 0.
Proof. unfold cmpGap. rewrite !Z.gtb_ltb. case_Z; lia. Qed.

Lemma cmpGap_trans a b c : cmpGap a b <= 0 -> cmpGap b c <= 0 -> cmpGap a c <= 0.
Proof. unfold cmpGap. rewrite !Z.gtb_ltb. case_Z; lia. Qed.

Lemma cmpGap_offset a b : cmpGap a b <= 0 -> offsetOf a <= offsetOf b.
Proof. unfold cmpGap. rewrite !Z.gtb_ltb. case_Z; lia. Qed.

Lemma SortFunc_cmpGap_sorted l :
  StronglySorted (fun a b => offsetOf a <= offsetOf b) (SortFunc cmpGap l).
Proof.
  assert (Hs : StronglySorted (fun a b => cmpGap a b <= 0) (SortFunc cmpGap l))
    by (apply SortFunc_sorted; [apply cmpGap_total | apply cmpGap_trans]).
  induction Hs as [|a l' _ IH Hall]; constructor; [done|].
  eapply Forall_impl; [exact Hall|]. intros b. apply cmpGap_offset.
Qed.

Lemma foundDuplicate_false l :
  StronglySorted (fun a b => offsetOf a <= offsetOf b) l -> foundDuplicate l = false ->
  StronglySorted (fun a b => offsetOf a < offsetOf b) l.
Proof.
  intros Hs. induction Hs as [|a [|b l] Hs IH Hall]; intros Hf; [constructor | repeat constructor |].
  cbn in Hf. apply orb_false_iff in Hf as [Hab Hf]. specialize (IH Hf).
  unfold sameOffset in Hab. apply Z.eqb_neq in Hab. apply Forall_cons in Hall as [Hb Hall].
  constructor; [done|]. constructor; [lia|].
  apply StronglySorted_inv in IH as [_ Hlt]. eapply Forall_impl; [exact Hlt|]. simpl; lia.
Qed.

Lemma strictly_sorted_distinct l :
  StronglySorted (fun a b => offsetOf a < offsetOf b) l -> offsetsDistinct l.
Proof.
  unfold offsetsDistinct. induction 1 as [|a l _ IH Hall]; simpl; constructor; [|done].
  intros (b & Hb & Hin)%list_elem_of_fmap. rewrite Forall_forall in Hall.
  specialize (Hall b Hin). lia.
Qed.

(** The flush walks a buffer with strictly increasing offsets. *)
Lemma sortGapBuffer_sorted b :
  StronglySorted (fun a b => offsetOf a < offsetOf b) (elems (sortGapBuffer b)).
Proof.
  unfold sortGapBuffer. simpl. pose proof (SortFunc_cmpGap_sorted (elems b)) as Hs.
  destruct (foundDuplicate _) eqn:E; [|by apply foundDuplicate_false].
  by apply (CompactFunc_strict offsetOf).
Qed.

Lemma sortGapBuffer_submseteq b : elems (sortGapBuffer b) ⊆+ elems b.
Proof.
  unfold sortGapBuffer. simpl. transitivity (SortFunc cmpGap (elems b));
    [|by rewrite SortFunc_perm].
  destruct (foundDuplicate _); [|done].
  apply sublist_submseteq, (CompactFunc_sublist offsetOf).
Qed.

Lemma sortGapBuffer_perm b :
  offsetsDistinct (elems b) -> elems (sortGapBuffer b) ≡ₚ elems b.
Proof.
  intros Hd. unfold sortGapBuffer. simpl.
  assert (Hd' : NoDup (map offsetOf (SortFunc cmpGap (elems b)))).
  { assert (Hp : map offsetOf (SortFunc cmpGap (elems b)) ≡ₚ map offsetOf (elems b))
      by apply Permutation_map, SortFunc_perm.
    by rewrite Hp. }
  destruct (foundDuplicate _); [|apply SortFunc_perm].
  unfold sameOffset. rewrite (CompactFunc_nodup offsetOf) by done. apply SortFunc_perm.
Qed.

(** Compacting keeps one completion of every offset. *)
Lemma sortGapBuffer_keeps b x :
  x ∈ elems b -> exists y, y ∈ elems (sortGapBuffer b) /\ offsetOf y = offsetOf x.
Proof.
  intros Hx. unfold sortGapBuffer. simpl.
  assert (Hx' : x ∈ SortFunc cmpGap (elems b)) by by rewrite SortFunc_perm.
  destruct (foundDuplicate _); [by apply (CompactFunc_key offsetOf) | by exists x].
Qed.

(** ** The walk *)

Lemma walk_perm now cpo last ready l :
  let '(r, n, out) := walk now cpo last ready l in
  (n <= length l)%nat /\
  cores (option_list r) ++ cores out ++ cores (drop n l) ≡ₚ cores (option_list ready) ++ cores l.
Proof.
  revert ready. induction l as [|g l IH]; intros ready; simpl; [done|].
  destruct ready as [r|]; simpl.
  - destruct (offsetOf g <=? offsetOf r); [|destruct (offsetOf r =? PreviousOffset g)].
    + specialize (IH (Some r)). destruct (walk _ _ _ _ _) as [[r' n] out]. simpl in *.
      destruct IH as [? IH]. split; [lia|].
      transitivity (core g :: cores (option_list r') ++ cores out ++ cores (drop n l));
        [solve_Permutation | rewrite IH; apply perm_swap].
    + specialize (IH (Some (stamp now g))). destruct (walk _ _ _ _ _) as [[r' n] out]. simpl in *.
      destruct IH as [? IH]. split; [lia|].
      transitivity (core r :: cores (option_list r') ++ cores out ++ cores (drop n l));
        [solve_Permutation | by rewrite IH].
    + split; [lia|]. done.
  - destruct (offsetOf g <? cpo); [|destruct (_ || _)].
    + specialize (IH None). destruct (walk _ _ _ _ _) as [[r' n] out]. simpl in *.
      destruct IH as [? IH]. split; [lia|].
      transitivity (core g :: cores (option_list r') ++ cores out ++ cores (drop n l));
        [solve_Permutation | by rewrite IH].
    + specialize (IH (Some (stamp now g))). destruct (walk _ _ _ _ _) as [[r' n] out]. simpl in *.
      destruct IH as [? IH]. split; [lia|]. done.
    + split; [lia|]. done.
Qed.

(** ** Resizing never loses an item, and its loop terminates *)

Lemma resizeLoop_total fuel i len size :
  0 < size -> 0 <= i -> len - size * i + 1 < Z.of_nat fuel ->
  (0 < fuel)%nat -> exists c, resizeLoop fuel i len size = Some c /\ len < c.
Proof.
  intros Hs. revert i. induction fuel as [|fuel IH]; intros i Hi Hl Hf; [lia|]. simpl.
  destruct (Z.ltb_spec len (size * i)); [eauto|].
  apply IH; [lia | nia | lia].
Qed.

Lemma resizeGapBuffer_elems size size70 b : elems (resizeGapBuffer size size70 b) = elems b.
Proof.
  unfold resizeGapBuffer. destruct (cap b <? size70); [done|].
  destruct (cap b >? size * 3); [|done]. by destruct (resizeLoop _ _ _ _).
Qed.

(** ** Arrival *)

Lemma advanceThroughGapBuffer_items t o :
  trackerItems (advanceThroughGapBuffer t o) = trackerItems t.
Proof. unfold advanceThroughGapBuffer. by destruct (existsb _ _). Qed.

Lemma checkAndAdvance_accounts t w o now :
  let '(t', out) := checkAndAdvance t w o now in accounts t [w] t' out.
Proof.
  unfold checkAndAdvance, accounts. destruct (Ready t) as [r|] eqn:Er.
  - destruct (_ >? _); [done|]. destruct (_ || _).
    + rewrite advanceThroughGapBuffer_items. unfold trackerItems. simpl. rewrite Er. simpl.
      autorewrite with demux_rw.
      rewrite !(Permutation_app_comm _ [_]). simpl. apply perm_swap.
    + unfold trackerItems. simpl. rewrite Er. simpl. rewrite cores_app, app_nil_r. done.
  - destruct (_ =? _).
    + rewrite advanceThroughGapBuffer_items. unfold trackerItems. simpl. rewrite Er. simpl.
      autorewrite with demux_rw. rewrite app_nil_r, (Permutation_app_comm _ [_]). done.
    + destruct (_ >? _); [done|].
      destruct (_ || _); unfold trackerItems; simpl; rewrite Er; simpl;
        by rewrite cores_app, app_nil_r.
Qed.

Lemma processItem_accounts t w now :
  let '(t', out) := processItem t w now in accounts t [w] t' out.
Proof.
  unfold processItem. destruct (First w); [|apply checkAndAdvance_accounts].
  set (t1 := if _ : bool then _ else _).
  pose proof (checkAndAdvance_accounts t1 (mark SetFirstAfterRebalance w) (offsetOf w) now) as H.
  destruct (checkAndAdvance _ _ _ _) as [t' out]. unfold accounts in *.
  rewrite H. unfold t1. by destruct (_ >=? _).
Qed.

(** ** Flush *)

Lemma flushTracker_items size size70 now t :
  NeedsGapAdvance t = true -> elems (GapBuffer t) <> [] ->
  let b := sortGapBuffer (GapBuffer t) in
  let '(r, n, out) := walk now (CommittedPlusOne t) (LastCommittedOffset t) (Ready t) (elems b) in
  let '(t', out') := flushTracker size size70 now t in
  out' = out /\ Ready t' = r /\ elems (GapBuffer t') = drop n (elems b) /\
  NeedsGapAdvance t' = false /\ CommittedPlusOne t' = CommittedPlusOne t /\
  LastCommittedOffset t' = LastCommittedOffset t /\ Assignment t' = Assignment t.
Proof.
  intros Hn Hb. unfold flushTracker. rewrite Hn. unfold slen.
  cbn [negb setNeedsGapAdvance GapBuffer Ready CommittedPlusOne LastCommittedOffset].
  destruct (Z.eqb_spec (Z.of_nat (length (elems (GapBuffer t)))) 0) as [E|_].
  { destruct (elems (GapBuffer t)); [done|]. simpl in E. lia. }
  generalize (sortGapBuffer (GapBuffer t)) as b. intros b.
  destruct (walk _ _ _ _ _) as [[r n] out].
  destruct (Nat.eqb_spec n 0) as [->|?]; [by rewrite drop_0|].
  destruct (Nat.eqb_spec (length (elems b)) n) as [E|?]; simpl; split_and!; try done.
  - by rewrite <- E, drop_all.
  - by rewrite resizeGapBuffer_elems.
Qed.

Lemma flushTracker_idle size size70 now t :
  NeedsGapAdvance t = false \/ elems (GapBuffer t) = [] ->
  flushTracker size size70 now t = (setNeedsGapAdvance false t, []).
Proof.
  intros H. unfold flushTracker. destruct (NeedsGapAdvance t) eqn:En; simpl.
  - destruct H as [|H]; [done|]. unfold slen. by rewrite H.
  - by destruct t; simpl in *; subst.
Qed.

Lemma flushTracker_conserves size size70 now t :
  let '(t', out) := flushTracker size size70 now t in conserves t [] t' out.
Proof.
  destruct (NeedsGapAdvance t) eqn:En;
    [destruct (elems (GapBuffer t)) as [|g0 l0] eqn:Eb|].
  - rewrite flushTracker_idle by auto. apply accounts_conserves, accounts_flag.
  - pose proof (flushTracker_items size size70 now t En ltac:(by rewrite Eb)) as HF.
    pose proof (walk_perm now (CommittedPlusOne t) (LastCommittedOffset t) (Ready t)
                  (elems (sortGapBuffer (GapBuffer t)))) as HW. cbv zeta in HF.
    destruct (walk _ _ _ _ _) as [[r n] out]. destruct (flushTracker _ _ _ _) as [t' out'].
    destruct HF as (-> & HR & HB & _), HW as [_ HW].
    unfold conserves, trackerItems. rewrite HR, HB, !cores_app. simpl. rewrite app_nil_r.
    rewrite <- app_assoc, (Permutation_app_comm (cores (drop _ _))), HW.
    apply submseteq_skips_l. unfold cores. apply fmap_submseteq, sortGapBuffer_submseteq.
  - rewrite flushTracker_idle by auto. apply accounts_conserves, accounts_flag.
Qed.

Lemma flushTracker_accounts size size70 now t :
  offsetsDistinct (elems (GapBuffer t)) ->
  let '(t', out) := flushTracker size size70 now t in accounts t [] t' out.
Proof.
  intros Hd. destruct (NeedsGapAdvance t) eqn:En;
    [destruct (elems (GapBuffer t)) as [|g0 l0] eqn:Eb|].
  - rewrite flushTracker_idle by auto. apply accounts_flag.
  - pose proof (flushTracker_items size size70 now t En ltac:(by rewrite Eb)) as HF.
    pose proof (walk_perm now (CommittedPlusOne t) (LastCommittedOffset t) (Ready t)
                  (elems (sortGapBuffer (GapBuffer t)))) as HW. cbv zeta in HF.
    destruct (walk _ _ _ _ _) as [[r n] out]. destruct (flushTracker _ _ _ _) as [t' out'].
    destruct HF as (-> & HR & HB & _), HW as [_ HW].
    unfold accounts, trackerItems. rewrite HR, HB, !cores_app. simpl. rewrite app_nil_r.
    rewrite <- app_assoc, (Permutation_app_comm (cores (drop _ _))), HW.
    apply Permutation_app_head. unfold cores. apply Permutation_map, sortGapBuffer_perm.
    by rewrite Eb.
  - rewrite flushTracker_idle by auto. apply accounts_flag.
Qed.

(** ** Repair *)

(** The evidence [repairSuccessor] accepts: the item holds the record the
    baseline names, or its stamp is at or below the committed record. *)
Definition provable (cpo committed : Z) (g : WorkItem) : Prop :=
  cpo <= offsetOf g /\
  (offsetOf g = cpo \/ 0 <= PreviousOffset g <= committed).

Lemma chooseSuccessor_foldl cpo committed l acc :
  match foldl (chooseSuccessor cpo committed) acc l with
  | None => acc = None /\ Forall (fun g => ~ provable cpo committed g) l
  | Some s =>
      (acc = Some s \/ (s ∈ l /\ provable cpo committed s)) /\
      (forall a, acc = Some a -> offsetOf s <= offsetOf a) /\
      Forall (fun g => provable cpo committed g -> offsetOf s <= offsetOf g) l
  end.
Proof.
  revert acc. induction l as [|g l IH]; intros acc; simpl.
  { destruct acc; [|done]. split_and!; [by left | by intros ? [= ->] | done]. }
  specialize (IH (chooseSuccessor cpo committed acc g)).
  destruct (foldl _ _ l) as [s|].
  - destruct IH as (Hs & Ha & Hl). revert Hs Ha. unfold chooseSuccessor, provable in *.
    rewrite !Z.geb_leb. destruct acc as [a|]; case_Z; simpl; intros Hs Ha;
      rewrite ?elem_of_cons, Forall_cons; split_and!;
      try specialize (Ha _ eq_refl); try intros ? [= ->]; try done; try lia;
      destruct Hs as [[= ->]|[??]]; try (by left); try (right; split; [by left|lia]);
      try (right; split; [by right|done]); try lia.
  - destruct IH as [Hn Hl]. revert Hn. unfold chooseSuccessor, provable in *.
    rewrite !Z.geb_leb. destruct acc as [a|]; case_Z; simpl; intros Hn; simplify_eq;
      (split; [done|]); constructor; try done; lia.
Qed.

(** The scan finds the lowest-offset provable successor, if there is one. *)
Lemma findSuccessor_some cpo committed l s :
  findSuccessor cpo committed l = Some s ->
  s ∈ l /\ provable cpo committed s /\
  forall g, g ∈ l -> provable cpo committed g -> offsetOf s <= offsetOf g.
Proof.
  unfold findSuccessor. intros Hs. pose proof (chooseSuccessor_foldl cpo committed l None) as H.
  rewrite Hs in H. destruct H as ([?|[??]] & _ & Hall); [done|].
  rewrite Forall_forall in Hall. auto.
Qed.

Lemma findSuccessor_none cpo committed l :
  findSuccessor cpo committed l = None -> forall g, g ∈ l -> ~ provable cpo committed g.
Proof.
  unfold findSuccessor. intros Hs. pose proof (chooseSuccessor_foldl cpo committed l None) as H.
  rewrite Hs in H. destruct H as [_ Hall]. by rewrite Forall_forall in Hall.
Qed.

Definition samePtr (s g : WorkItem) : Prop := ptr g = ptr s.

#[local] Instance samePtr_dec s g : Decision (samePtr s g).
Proof. unfold samePtr. apply _. Defined.

Lemma pruneBelow_perm now s l :
  let '(kept, pruned) := pruneBelow now s l in
  cores kept ++ cores pruned ++ cores (filter (samePtr s) l) ≡ₚ cores l /\
  Forall (fun g => ptr g <> ptr s /\ offsetOf s <= offsetOf g) kept.
Proof.
  induction l as [|g l IH]; simpl; [done|]. destruct (pruneBelow now s l) as [kept pruned].
  destruct IH as [IH Hk]. rewrite filter_cons. unfold samePtr at 1.
  destruct (Z.eqb_spec (ptr g) (ptr s)) as [E|E].
  - rewrite decide_True by done. split; [|done]. cbn.
    transitivity (core g :: cores kept ++ cores pruned ++ cores (filter (samePtr s) l));
      [solve_Permutation | by rewrite IH].
  - rewrite decide_False by done. destruct (Z.ltb_spec (offsetOf g) (offsetOf s)).
    + split; [|done]. cbn.
      transitivity (core g :: cores kept ++ cores pruned ++ cores (filter (samePtr s) l));
        [solve_Permutation | by rewrite IH].
    + split; [|by constructor]. cbn. by rewrite IH.
Qed.

Lemma samePtr_single s l :
  ptrsDistinct l -> s ∈ l -> filter (samePtr s) l = [s].
Proof.
  unfold ptrsDistinct. induction l as [|g l IH]; intros Hd Hin; [by apply not_elem_of_nil in Hin|].
  cbn in Hd. apply NoDup_cons in Hd as [Hni Hd]. rewrite filter_cons. unfold samePtr at 1.
  destruct (decide (ptr g = ptr s)) as [E|E].
  - assert (Hno : s ∉ l) by (intros Hs; apply Hni; rewrite E; by apply list_elem_of_fmap_2).
    apply elem_of_cons in Hin as [->|?]; [|done]. f_equal.
    destruct (filter (samePtr g) l) as [|x f] eqn:F; [done|].
    assert (Hx : x ∈ filter (samePtr g) l) by (rewrite F; by left).
    apply list_elem_of_filter in Hx as [Hx Hxl]. destruct Hni. rewrite <- Hx.
    by apply list_elem_of_fmap_2.
  - apply elem_of_cons in Hin as [->|?]; [done|]. by apply IH.
Qed.

(** What a repair that fires does. *)
Lemma repairSuccessor_cases t now :
  repairSuccessor t now = (t, []) \/
  exists s kept pruned,
    Ready t = None /\ NeedsGapAdvance t = false /\ 0 <= LastCommittedOffset t /\
    findSuccessor (CommittedPlusOne t) (LastCommittedOffset t) (elems (GapBuffer t)) = Some s /\
    pruneBelow now s (elems (GapBuffer t)) = (kept, pruned) /\
    repairSuccessor t now =
      (setNeedsGapAdvance (slen (mkSlice kept (cap (GapBuffer t))) >? 0)
         (setReady (Some (stamp now s)) (setGapBuffer (mkSlice kept (cap (GapBuffer t))) t)),
       pruned).
Proof.
  unfold repairSuccessor. destruct (Ready t) eqn:Er; [by left|].
  destruct (_ =? 0); [by left|]. destruct (NeedsGapAdvance t) eqn:En; [by left|].
  destruct (Z.ltb_spec (LastCommittedOffset t) 0); [by left|].
  destruct (findSuccessor _ _ _) as [s|] eqn:Ef; [|by left].
  destruct (pruneBelow now s _) as [kept pruned] eqn:Ep. right. exists s, kept, pruned.
  split_and!; done.
Qed.

Lemma repairSuccessor_conserves t now :
  let '(t', out) := repairSuccessor t now in conserves t [] t' out.
Proof.
  destruct (repairSuccessor_cases t now) as [->|(s & kept & pruned & Er & _ & _ & Hf & Hp & ->)];
    [apply accounts_conserves, accounts_refl|].
  apply findSuccessor_some in Hf as (Hin & _). pose proof (pruneBelow_perm now s (elems (GapBuffer t))) as H.
  rewrite Hp in H. destruct H as [H _].
  unfold conserves, trackerItems. simpl. rewrite Er. simpl. rewrite app_nil_r, <- H.
  transitivity ([core s] ++ cores kept ++ cores pruned); [done|].
  rewrite (app_assoc (cores kept)), (Permutation_app_comm [core s]).
  apply submseteq_skips_l, singleton_submseteq_l. unfold cores.
  apply list_elem_of_fmap_2, list_elem_of_filter. done.
Qed.

Lemma repairSuccessor_accounts t now :
  ptrsDistinct (elems (GapBuffer t)) ->
  let '(t', out) := repairSuccessor t now in accounts t [] t' out.
Proof.
  intros Hd.
  destruct (repairSuccessor_cases t now) as [->|(s & kept & pruned & Er & _ & _ & Hf & Hp & ->)];
    [apply accounts_refl|].
  apply findSuccessor_some in Hf as (Hin & _). pose proof (pruneBelow_perm now s (elems (GapBuffer t))) as H.
  rewrite Hp, samePtr_single in H by done. destruct H as [H _].
  unfold accounts, trackerItems. simpl. rewrite Er. simpl. rewrite app_nil_r, <- H. cbn.
  solve_Permutation.
Qed.

(** ** Reset, discard, collect, acknowledge *)

Lemma cores_orphaned l : cores (map (mark SetOrphaned) l) = cores l.
Proof. unfold cores. rewrite map_map. by apply map_ext. Qed.

Lemma resetTracker_accounts c t :
  let '(t', out) := resetTracker c t in accounts t [] t' out.
Proof.
  unfold resetTracker. destruct (Ready t) as [r|] eqn:Er;
    [destruct (offsetOf r <? c)|]; simpl;
    case_decide; unfold accounts, trackerItems; simpl; rewrite ?Er; simpl;
    rewrite ?cores_app, ?app_nil_r, ?cores_orphaned; cbn; rewrite ?app_nil_r;
    try done; solve_Permutation.
Qed.

Lemma discardOrphanedTracker_accounts t :
  let '(t', out) := discardOrphanedTracker t in accounts t [] t' out.
Proof.
  unfold discardOrphanedTracker. destruct (Ready t) as [r|] eqn:Er.
  - unfold accounts, trackerItems. simpl. rewrite Er. simpl.
    by rewrite app_nil_r, cores_orphaned.
  - destruct (elems (GapBuffer t)) as [|g l] eqn:Eb; unfold accounts, trackerItems; simpl;
      rewrite Er, ?Eb; simpl; [done|]. by rewrite app_nil_r, cores_orphaned.
Qed.

Lemma collectCommit_conserves a now t :
  let '(t', (out, _)) := collectCommit a now t in conserves t [] t' out.
Proof.
  unfold collectCommit. destruct a; simpl.
  - assert (H : let '(t1, out) := match Ready t with None => repairSuccessor t now | Some _ => (t, []) end
                in conserves t [] t1 out).
    { destruct (Ready t); [apply accounts_conserves, accounts_refl | apply repairSuccessor_conserves]. }
    destruct (match Ready t with None => _ | Some _ => _ end) as [t1 out].
    destruct (Ready t1) as [w|] eqn:Ew; [|done].
    destruct (_ <? _); [|done].
    unfold conserves in *. rewrite <- H. unfold trackerItems. rewrite Ew.
    destruct (_ >? 0); simpl; rewrite cores_app; apply Permutation_submseteq; cbn; solve_Permutation.
  - pose proof (discardOrphanedTracker_accounts t) as H.
    destruct (discardOrphanedTracker t). by apply accounts_conserves.
Qed.

Lemma ackCommit_accounts o t :
  let '(t', out) := ackCommit o t in accounts t [] t' out.
Proof.
  unfold ackCommit. destruct (_ >? CommittedPlusOne t), (_ >? LastCommittedOffset _);
    simpl; destruct (_ >? 0); unfold accounts, trackerItems; simpl;
    destruct (Ready t); simpl; rewrite ?app_nil_r; cbn; try done; solve_Permutation.
Qed.

End TrackerFacts.
