(* ===== verification/Repair.v ===== *)
(** * The repair and the resizing of the gap buffer, exactly

    [Safety] uses that the successor repair ([committer_repair.go]) never commits
    past an unprocessed record; here is what it does to a tracker, field by
    field: it promotes the least buffered item that provably follows the committed
    record, returns the items below it, and does nothing when there is none.  The
    second part is [resizeGapBuffer] ([committer_process.go]): its unbounded loop
    ends, keeps the items in order and leaves a capacity within the hysteresis. *)
From S2P Require Import Prelude Types Tracker TrackerFacts.
From stdpp Require Import base gmap list strings sorting.
Open Scope Z_scope.

Section Repair.
Context `{NX : Nexus} `{RT : GoRuntime} `{RTok : !GoRuntimeOk RT}.
Implicit Types (t : OffsetsTracker) (g s : WorkItem) (l : list WorkItem) (b : Slice WorkItem).

(** The buffered items other than [s], split at its offset. *)
Definition above s l : list WorkItem :=
  filter (fun g => ptr g <> ptr s /\ offsetOf s <= offsetOf g) l.
Definition below s l : list WorkItem :=
  filter (fun g => ptr g <> ptr s /\ offsetOf g < offsetOf s) l.

(** An item given back without being committed. *)
Definition discarded (now : Z) g : WorkItem := stamp now (mark SetOrphaned g).

Lemma pruneBelow_split now s l :
  pruneBelow now s l = (above s l, map (discarded now) (below s l)).
Proof.
  unfold above, below. induction l as [|g l IH]; [done|]. cbn [pruneBelow]. rewrite IH, !filter_cons.
  destruct (Z.eqb_spec (ptr g) (ptr s)), (Z.ltb_spec (offsetOf g) (offsetOf s));
    repeat (first [rewrite decide_True by lia | rewrite decide_False by lia]); done.
Qed.

(** C18:  The repair of a stalled tracker is exact.  When no buffered item provably
    follows the committed record, the tracker is unchanged and nothing is
    returned.  Otherwise the one promoted to [Ready] is buffered, provable and of
    least offset among the provable ones; the items below it are returned as
    orphaned, in buffer order; the others stay buffered, in order, with the flush
    requested exactly if there are any; and the committed position, the observed
    offsets and the assignment do not change. *)
Theorem repair_exact t now :
  Ready t = None -> NeedsGapAdvance t = false -> 0 <= LastCommittedOffset t ->
  let proved := provable (CommittedPlusOne t) (LastCommittedOffset t) in
  let buffered := elems (GapBuffer t) in
  ((forall g, g ∈ buffered -> ~ proved g) /\ repairSuccessor t now = (t, [])) \/
  exists s, s ∈ buffered /\ proved s /\
    (forall g, g ∈ buffered -> proved g -> offsetOf s <= offsetOf g) /\
    repairSuccessor t now =
      (mkTracker (Some (stamp now s)) (Assignment t) (MinOffsetSeen t) (MaxOffsetSeen t)
         (mkSlice (above s buffered) (cap (GapBuffer t)))
         (negb (bool_decide (above s buffered = [])))
         (CommittedPlusOne t) (LastCommittedOffset t),
       map (discarded now) (below s buffered)).
Proof.
  intros Hr Hn Hl. cbv zeta. unfold repairSuccessor. rewrite Hr, Hn.
  destruct (Z.eqb_spec (slen (GapBuffer t)) 0) as [E|_].
  { left. split; [|done]. unfold slen in E. intros g Hg. destruct (elems (GapBuffer t)); [|simpl in E; lia].
    by apply not_elem_of_nil in Hg. }
  rewrite (proj2 (Z.ltb_ge _ _) Hl).
  destruct (findSuccessor _ _ _) as [s|] eqn:Hf; [|left; by eauto using findSuccessor_none].
  right. exists s. apply findSuccessor_some in Hf as (Hin & Hp & Hmin). split_and!; try done.
  rewrite pruneBelow_split. f_equal. destruct t as [? ? ? ? ? ? ? ?]. unfold slen. simpl in *.
  f_equal. by destruct (above s _).
Qed.

(** The loop's result is the least multiple from [i] on that exceeds the length. *)
Lemma resizeLoop_least fuel i len size c :
  resizeLoop fuel i len size = Some c ->
  exists k, i <= k /\ c = size * k /\ len < c /\ (k = i \/ size * (k - 1) <= len).
Proof.
  revert i. induction fuel as [|fuel IH]; intros i; simpl; [done|].
  destruct (Z.ltb_spec len (size * i)) as [|Hge].
  - intros [= <-]. exists i. split_and!; [lia | done | done | by left].
  - intros (k & ? & ? & ? & Hk)%IH. exists k. split_and!; [lia | done | done | right].
    destruct Hk as [->|]; [|done]. by replace (i + 1 - 1) with i by lia.
Qed.

(** [resizeGapBuffer] keeps the items and their order and always leaves room
    for them; below 70 % of the steady-state size it makes room for that many more
    items; up to 300 % it leaves the buffer alone; beyond, its loop ends and the new
    capacity is the least multiple of the size, from the fourth on, that exceeds the
    number of items, so the memory held is at most four times the size or the number
    of items plus one size. *)
Theorem resize_exact size b :
  0 < size -> slen b <= cap b ->
  let b' := resizeGapBuffer size (size * 70 / 100) b in
  elems b' = elems b /\ slen b' <= cap b' /\
  (cap b < size * 70 / 100 -> slen b + size <= cap b') /\
  (size * 70 / 100 <= cap b <= size * 3 -> b' = b) /\
  (size * 3 < cap b ->
     exists k, 4 <= k /\ cap b' = size * k /\ slen b < cap b' /\
       (k = 4 \/ size * (k - 1) <= slen b) /\ cap b' <= Z.max (4 * size) (slen b + size)).
Proof.
  intros Hs Hb. cbv zeta.
  assert (H70 : size * 70 / 100 <= size) by (apply Z.div_le_upper_bound; lia).
  split; [apply resizeGapBuffer_elems|]. unfold resizeGapBuffer.
  destruct (Z.ltb_spec (cap b) (size * 70 / 100)) as [Hlow|Hlow].
  { unfold sgrow, slen in *. rewrite (proj2 (Z.gtb_lt _ _)) by lia. simpl.
    pose proof (growslice_ge (cap b) (Z.of_nat (length (elems b)) + size)).
    split_and!; intros; try lia. }
  rewrite Z.gtb_ltb. destruct (Z.ltb_spec (size * 3) (cap b)) as [Hhigh|Hhigh].
  2: { split_and!; [done | lia | done | lia]. }
  destruct (resizeLoop_total (S (length (elems b))) 4 (slen b) size) as (c & Hc & Hlt);
    [lia | lia | unfold slen; lia | lia |].
  rewrite Hc. apply resizeLoop_least in Hc as (k & ? & -> & ? & Hk). unfold slen in *. simpl.
  split_and!; [lia | lia | lia | intros _]. exists k. split_and!; try done.
  destruct Hk as [->|?]; lia.
Qed.

End Repair.

(** A buffer that holds the record after a gap of deleted offsets, an older twin
    and a record whose predecessor is still being processed. *)
Definition stalledItem (p offset prev : Z) : WorkItem :=
  mkWorkItem p (mkMessage 0 3 offset EmptyString None) (mkMetrics 0 0 3 offset 0 0 0 0 0 0) None
    prev false 0.

Definition stalled : OffsetsTracker :=
  mkTracker None Assign 0 12
    (mkSlice [stalledItem 1 12 10; stalledItem 2 9 4; stalledItem 3 4 2] 6) false 5 4.

Lemma repair_exact_witness :
  exists s, offsetOf s = 9 /\
    repairSuccessor stalled 7 =
      (mkTracker (Some (stamp 7 s)) Assign 0 12 (mkSlice [stalledItem 1 12 10] 6) true 5 4,
       [discarded 7 (stalledItem 3 4 2)]).
Proof.
  destruct (repair_exact stalled 7) as [[Hno _]|(s & Hin & Hp & Hmin & Hrep)];
    [reflexivity | reflexivity | vm_compute; congruence | |].
  - exfalso. apply (Hno (stalledItem 2 9 4)); [right; left | vm_compute; intuition congruence].
  - exists s. assert (s = stalledItem 2 9 4) as ->.
    { apply elem_of_cons in Hin as [->|[->|[->|?%not_elem_of_nil]%elem_of_cons]%elem_of_cons];
        [| reflexivity | | done]; exfalso; vm_compute in Hp; intuition congruence. }
    split; [reflexivity | exact Hrep].
Defined.

(** Nine buffered items of a size of two, in a slice of twenty. *)
Definition overgrown : Slice WorkItem :=
  mkSlice (map (fun p => stalledItem p (10 + p) (9 + p)) [1; 2; 3; 4; 5; 6; 7; 8; 9]) 20.

Lemma resize_exact_witness :
  slen (resizeGapBuffer 2 (2 * 70 / 100) overgrown) = 9 /\
  cap (resizeGapBuffer 2 (2 * 70 / 100) overgrown) = 10.
Proof.
  destruct (resize_exact 2 overgrown) as (He & Hle & _ & _ & Hk);
    [lia | vm_compute; congruence |].
  destruct Hk as (k & H4 & Hc & Hlt & Hmin & _); [vm_compute; reflexivity|].
  change (slen overgrown) with 9 in *. split; [|lia].
  unfold slen. rewrite He. reflexivity.
Defined.
