(* ===== verification/Safety.v ===== *)
(** * The committed position never passes an unprocessed record (one partition)

    [R] is the set of records of the partition's log that matter: those that
    exist throughout.  [processed] holds of the offsets whose processing is complete.
    [trackerSafe] says that every position a tracker vouches for (the baseline,
    the last committed record, the [Ready] item) has only processed records
    below it; every tracker operation preserves it, provided the items that
    arrive carry truthful predecessor stamps. *)
From S2P Require Import Prelude Types Tracker TrackerFacts.
From stdpp Require Import base gmap list.
Open Scope Z_scope.

Section Safety.
Context `{NX : Nexus} `{RT : GoRuntime} `{RTok : !GoRuntimeOk RT}.
Variables R processed : Z -> Prop.
Hypothesis R_nonneg : forall r, R r -> 0 <= r.
Implicit Types (t : OffsetsTracker) (w g : WorkItem).

(** Every record below the position has been processed. *)
Definition covered (x : Z) : Prop := forall r, R r -> r < x -> processed r.

(** A work item as the pipeline delivers it: processed, its stamp naming a
    predecessor with no record in between, and, if it is the first of its epoch,
    starting at a covered position. *)
Record coreOk (c : Core) : Prop := {
  ok_done : processed (cOffset c);
  ok_nonneg : 0 <= cOffset c;
  ok_int64 : in_int64 (cOffset c + 1);
  ok_stamp : forall r, R r -> cPrev c < r -> r < cOffset c -> False;
  ok_first : cFirst c = true -> covered (cOffset c)
}.

Record trackerSafe (t : OffsetsTracker) : Prop := {
  ts_items : Forall coreOk (cores (trackerItems t));
  ts_cpo : covered (CommittedPlusOne t);
  ts_last : 0 <= LastCommittedOffset t -> covered (LastCommittedOffset t + 1);
  ts_ready : forall w, Ready t = Some w -> covered (offsetOf w)
}.

Lemma covered_le x y : covered y -> x <= y -> covered x.
Proof. intros H ? r ??. apply H; [done|lia]. Qed.

Lemma covered_neg x : x <= 0 -> covered x.
Proof. intros ? r Hr ?. specialize (R_nonneg r Hr). lia. Qed.

(** Once the record at a covered position is processed the next position is
    covered too. *)
Lemma covered_succ x : covered x -> processed x -> covered (x + 1).
Proof.
  intros Hc Hd r Hr Hlt. destruct (decide (r = x)) as [->|]; [done|]. apply Hc; [done|lia].
Qed.

(** Predecessor linkage: an item whose stamp is at or below a position whose
    successor is covered is itself at a covered position. *)
Lemma covered_link x g : coreOk (core g) -> covered (x + 1) -> PreviousOffset g <= x ->
  covered (offsetOf g).
Proof.
  intros Hg Hc Hp r Hr Hlt. destruct (decide (r <= x)); [apply Hc; [done|lia]|].
  destruct (ok_stamp _ Hg r Hr); simpl; lia.
Qed.

Lemma covered_next r : coreOk (core r) -> covered (offsetOf r) -> covered (offsetOf r + 1).
Proof. intros Hr Hc. apply covered_succ; [done | apply (ok_done _ Hr)]. Qed.

(** Items only come from what a step held or received. *)
Lemma conserves_ok t arrived t' out :
  conserves t arrived t' out ->
  Forall coreOk (cores (trackerItems t)) -> Forall coreOk (cores arrived) ->
  Forall coreOk (cores (trackerItems t')) /\ Forall coreOk (cores out).
Proof.
  intros Hc Ht Ha. apply Forall_app. rewrite Forall_forall. intros c Hin.
  apply (elem_of_submseteq _ _ _ Hin) in Hc. clear Hin. revert c Hc. apply Forall_forall.
  by apply Forall_app.
Qed.

Lemma ready_ok t w : trackerSafe t -> Ready t = Some w -> coreOk (core w).
Proof.
  intros Hs Hw. pose proof (ts_items _ Hs) as H. unfold trackerItems in H. rewrite Hw in H.
  by apply Forall_cons in H as [? _].
Qed.

Lemma buffer_ok t : trackerSafe t -> Forall coreOk (cores (elems (GapBuffer t))).
Proof.
  intros Hs. pose proof (ts_items _ Hs) as H. unfold trackerItems in H.
  rewrite cores_app in H. by apply Forall_app in H as [_ ?].
Qed.

Lemma newTracker_safe size o : trackerSafe (newTracker size o).
Proof. split; simpl; [by constructor | by apply covered_neg | lia | done]. Qed.

Lemma newResetTracker_safe size c : covered c -> trackerSafe (newResetTracker size c).
Proof. intros. split; simpl; [by constructor | done | lia | done]. Qed.

Lemma observeOffset_safe o t : trackerSafe t -> trackerSafe (observeOffset o t).
Proof.
  intros [????]. unfold observeOffset.
  destruct (_ <? _); [by split|]. destruct (_ >? _); by split.
Qed.

Lemma checkAndAdvance_safe t w now :
  trackerSafe t -> coreOk (core w) -> trackerSafe (checkAndAdvance t w (offsetOf w) now).1.
Proof.
  intros Hs Hw. pose proof (checkAndAdvance_accounts t w (offsetOf w) now) as Ha.
  destruct (checkAndAdvance t w (offsetOf w) now) as [t' out] eqn:E. simpl.
  apply accounts_conserves in Ha.
  destruct (conserves_ok _ _ _ _ Ha (ts_items _ Hs) ltac:(by constructor)) as [Hi _].
  assert (Hr : CommittedPlusOne t' = CommittedPlusOne t /\
               LastCommittedOffset t' = LastCommittedOffset t /\
               forall v, Ready t' = Some v -> covered (offsetOf v)).
  { revert E. unfold checkAndAdvance, advanceThroughGapBuffer.
    pose proof (ts_ready _ Hs) as Hready. pose proof (ts_cpo _ Hs) as Hcpo.
    destruct (Ready t) as [r|] eqn:Er.
    - destruct (_ >? _); [by intros [= <- <-]; split_and!; [..|rewrite Er] |].
      destruct (Z.eqb_spec (offsetOf r) (PreviousOffset w)) as [Ep|?]; simpl;
        [|destruct (Z.eqb_spec (offsetOf r) (offsetOf w)) as [Eo|?]; simpl].
      + intros [= <- <-]. destruct (existsb _ _); split_and!; try done; simpl;
          intros v [= <-]; change (covered (offsetOf w));
          (apply (covered_link (offsetOf r)); [done | | lia]);
          apply covered_next; auto; by eapply ready_ok.
      + intros [= <- <-]. destruct (existsb _ _); split_and!; try done; simpl;
          intros v [= <-]; change (covered (offsetOf w)); rewrite <- Eo; auto.
      + intros [= <- <-]. simpl. by rewrite Er.
    - destruct (Z.eqb_spec (CommittedPlusOne t) (offsetOf w)) as [Ec|?].
      + intros [= <- <-]. destruct (existsb _ _); split_and!; try done; simpl;
          intros v [= <-]; change (covered (offsetOf w)); by rewrite <- Ec.
      + destruct (_ >? _); [intros [= <- <-]; by rewrite Er|].
        destruct (_ || _); intros [= <- <-]; simpl; by rewrite Er. }
  destruct Hr as (Hc & Hl & Hr). split; [done | by rewrite Hc; apply ts_cpo | | done].
  rewrite Hl. by apply ts_last.
Qed.

Lemma setCommittedPlusOne_safe t c : trackerSafe t -> covered c -> trackerSafe (setCommittedPlusOne c t).
Proof. intros [????]. by split. Qed.

Lemma setLastCommittedOffset_safe t o :
  trackerSafe t -> covered (o + 1) -> trackerSafe (setLastCommittedOffset o t).
Proof. intros [????] ?. split; auto. Qed.

(** An arriving completion keeps the tracker safe, on every branch. *)
Lemma processItem_safe t w now :
  trackerSafe t -> coreOk (core w) -> trackerSafe (processItem t w now).1.
Proof.
  intros Hs Hw. unfold processItem. destruct (First w) eqn:Ef; [|by apply checkAndAdvance_safe].
  apply (checkAndAdvance_safe _ (mark SetFirstAfterRebalance w)); [|done].
  destruct (_ >=? _); [|done]. apply setCommittedPlusOne_safe; [done|].
  apply (ok_first _ Hw). done.
Qed.

Lemma walk_safe now cpo last ready l :
  Forall coreOk (cores l) -> covered cpo -> (0 <= last -> covered (last + 1)) ->
  (forall w, ready = Some w -> coreOk (core w) /\ covered (offsetOf w)) ->
  forall w, (walk now cpo last ready l).1.1 = Some w -> coreOk (core w) /\ covered (offsetOf w).
Proof.
  intros Hl Hcpo Hlast. revert ready. induction l as [|g l IH]; intros ready Hr; simpl; [done|].
  apply Forall_cons in Hl as [Hg Hl]. specialize (IH Hl).
  destruct ready as [r|].
  - destruct (_ <=? _); [|destruct (Z.eqb_spec (offsetOf r) (PreviousOffset g)) as [E|?]; [|done]].
    + specialize (IH (Some r) Hr). by destruct (walk _ _ _ _ _) as [[r' k] out'].
    + destruct (Hr r eq_refl) as [Hok Hc].
      specialize (IH (Some (stamp now g))).
      destruct (walk _ _ _ _ _) as [[r' k] out']. apply IH.
      intros w [= <-]. split; [done|].
      apply (covered_link (offsetOf r)); [done | by apply covered_next | simpl; lia].
  - destruct (_ <? _);
      [|destruct (Z.eqb_spec (offsetOf g) cpo) as [E|?];
        [|destruct (Z.geb_spec last 0); simpl; [destruct (Z.eqb_spec (PreviousOffset g) last) as [E|?]|]]];
      simpl; try done.
    + specialize (IH None Hr). by destruct (walk _ _ _ _ _) as [[r' k] out'].
    + specialize (IH (Some (stamp now g))). destruct (walk _ _ _ _ _) as [[r' k] out'].
      apply IH. intros w [= <-]. split; [done|].
      change (covered (offsetOf g)). by rewrite E.
    + specialize (IH (Some (stamp now g))). destruct (walk _ _ _ _ _) as [[r' k] out'].
      apply IH. intros w [= <-]. split; [done|].
      apply (covered_link last); [done | by apply Hlast; lia | simpl; lia].
Qed.

Lemma flushTracker_safe size size70 now t :
  trackerSafe t -> trackerSafe (flushTracker size size70 now t).1.
Proof.
  intros Hs. destruct (decide (NeedsGapAdvance t = true /\ elems (GapBuffer t) <> [])) as [[Hn Hb]|Hno].
  - pose proof (flushTracker_conserves size size70 now t) as Hc.
    pose proof (flushTracker_items size size70 now t Hn Hb) as HF. cbv zeta in HF.
    pose proof (walk_safe now (CommittedPlusOne t) (LastCommittedOffset t) (Ready t)
                  (elems (sortGapBuffer (GapBuffer t)))) as HW.
    destruct (walk _ _ _ _ _) as [[r n] out]. destruct (flushTracker _ _ _ _) as [t' out'].
    destruct HF as (_ & HR & _ & _ & HC & HL & _).
    destruct (conserves_ok _ _ _ _ Hc (ts_items _ Hs) ltac:(constructor)) as [Hi _].
    split; simpl; [done | rewrite HC; apply ts_cpo; done | rewrite HL; by apply ts_last |].
    intros w Hw. rewrite HR in Hw. apply (HW); [| by apply ts_cpo | by apply ts_last | | done].
    + rewrite Forall_forall. intros c Hin. pose proof (buffer_ok t Hs) as Hbuf.
      rewrite Forall_forall in Hbuf. apply Hbuf. eapply elem_of_submseteq; [exact Hin|].
      unfold cores. apply fmap_submseteq, sortGapBuffer_submseteq.
    + intros v Hv. split; [by eapply ready_ok | by apply (ts_ready t Hs)].
  - rewrite flushTracker_idle.
    + destruct Hs. by split.
    + destruct (NeedsGapAdvance t); [|by left]. right.
      destruct (elems (GapBuffer t)); [done|]. destruct Hno. done.
Qed.

(** The repair promotes only an item at a covered position. *)
Lemma repairSuccessor_safe t now : trackerSafe t -> trackerSafe (repairSuccessor t now).1.
Proof.
  intros Hs. pose proof (repairSuccessor_conserves t now) as Hc.
  destruct (repairSuccessor_cases t now) as [E|(s & kept & pruned & Er & _ & HL & Hf & Hp & E)];
    rewrite E in *; [by destruct Hs|]. simpl.
  destruct (conserves_ok _ _ _ _ Hc (ts_items _ Hs) ltac:(constructor)) as [Hi _].
  split; [done | apply (ts_cpo _ Hs) | apply (ts_last _ Hs) |].
  intros w [= <-]. apply findSuccessor_some in Hf as (Hin & [Hge Hproof] & _).
  change (covered (offsetOf s)). destruct Hproof as [->|Hprev]; [apply (ts_cpo _ Hs)|].
  apply (covered_link (LastCommittedOffset t)); [| by apply (ts_last _ Hs) | lia].
  pose proof (buffer_ok t Hs) as Hb. rewrite Forall_forall in Hb. apply Hb.
  by apply list_elem_of_fmap_2.
Qed.

Lemma setReady_none_safe t : trackerSafe t -> trackerSafe (setReady None t).
Proof.
  intros Hs. split; [exact (buffer_ok t Hs) | apply Hs | apply Hs | done].
Qed.

Lemma setNeedsGapAdvance_safe n t : trackerSafe t -> trackerSafe (setNeedsGapAdvance n t).
Proof. intros [????]. by split. Qed.

Lemma clear_safe t : trackerSafe t -> trackerSafe (setGapBuffer (sclear (GapBuffer t)) (setReady None t)).
Proof. intros Hs. split; [constructor | apply Hs | apply Hs | done]. Qed.

Lemma resetTracker_safe c t : covered c -> trackerSafe t -> trackerSafe (resetTracker c t).1.
Proof.
  intros Hc Hs. unfold resetTracker.
  set (p := match Ready t with Some r => _ | None => _ end).
  assert (Hp : trackerSafe p.1).
  { unfold p. destruct (Ready t); [|done]. destruct (_ <? _); [by apply setReady_none_safe | done]. }
  destruct p as [t1 out1]. simpl in *.
  assert (H2 : trackerSafe (if decide (Assignment t1 = Revoke)
                            then setGapBuffer (sclear (GapBuffer t1)) (setReady None t1) else t1)).
  { case_decide; [by apply clear_safe | done]. }
  case_decide; simpl; apply setNeedsGapAdvance_safe; destruct H2 as [????]; split; simpl; auto; lia.
Qed.

Lemma discardOrphanedTracker_safe t : trackerSafe t -> trackerSafe (discardOrphanedTracker t).1.
Proof.
  intros Hs. unfold discardOrphanedTracker.
  destruct (Ready t), (elems (GapBuffer t)); simpl; try done;
    apply setNeedsGapAdvance_safe, clear_safe, Hs.
Qed.

(** The message a tick commits is a processed record at a covered position,
    not below the baseline. *)
Lemma collectCommit_safe a now t :
  trackerSafe t ->
  let '(t', (_, m)) := collectCommit a now t in
  trackerSafe t' /\
  forall msg, m = Some msg ->
    covered (Offset msg + 1) /\ 0 <= Offset msg /\ in_int64 (Offset msg + 1) /\
    CommittedPlusOne t' <= Offset msg.
Proof.
  intros Hs. unfold collectCommit. destruct a; simpl.
  - assert (H : trackerSafe (match Ready t with None => repairSuccessor t now | Some _ => (t, []) end).1).
    { destruct (Ready t); [done | by apply repairSuccessor_safe]. }
    destruct (match Ready t with None => _ | Some _ => _ end) as [t1 out]. simpl in H.
    destruct (Ready t1) as [w|] eqn:Ew; [|by split].
    destruct (Z.ltb_spec (offsetOf w) (CommittedPlusOne t1)).
    + split; [|done]. destruct (_ >? _); [apply setNeedsGapAdvance_safe|]; by apply setReady_none_safe.
    + split; [done|]. intros msg [= <-]. fold (offsetOf w).
      pose proof (ready_ok _ _ H Ew) as Hok. split_and!; [| apply (ok_nonneg _ Hok) | apply (ok_int64 _ Hok) | lia].
      apply covered_next; [done | by apply (ts_ready t1)].
  - pose proof (discardOrphanedTracker_safe t Hs) as H.
    destruct (discardOrphanedTracker t). by split.
Qed.

Lemma ackCommit_safe o t :
  0 <= o -> covered (o + 1) -> trackerSafe t -> trackerSafe (ackCommit o t).1.
Proof.
  intros Ho Hc Hs. unfold ackCommit.
  assert (Hn : covered (add64 o 1)).
  { eapply covered_le; [exact Hc|]. unfold add64, wrap64.
    pose proof (Z.mod_le (o + 1 + 2^63) (2^64)). lia. }
  assert (H1 : trackerSafe (if add64 o 1 >? CommittedPlusOne t then setCommittedPlusOne (add64 o 1) t else t))
    by (destruct (_ >? _); [by apply setCommittedPlusOne_safe | done]).
  revert H1. set (t1 := if _ : bool then _ else _). intros H1. clearbody t1.
  assert (H2 : trackerSafe (if o >? LastCommittedOffset t1 then setLastCommittedOffset o t1 else t1))
    by (destruct (_ >? _); [by apply setLastCommittedOffset_safe | done]).
  revert H2. set (t2 := if _ : bool then _ else _). intros H2. clearbody t2. simpl.
  destruct (_ >? 0); [apply setNeedsGapAdvance_safe|]; by apply setReady_none_safe.
Qed.

End Safety.
