(* ===== verification/Monotone.v ===== *)
(** * A tracker never falls behind the position its partition has committed

    [aheadOf b t]: the baseline of [t] is at or past the position [b], or its
    [Ready] item is (the case after a commit the broker applied but did not
    acknowledge).  Every operation that runs while the partition is owned
    preserves it, and the message a tick collects is at or past [b]. *)
From S2P Require Import Prelude Types Tracker TrackerFacts.
From stdpp Require Import base gmap list.
Open Scope Z_scope.

Section Monotone.
Context `{NX : Nexus} `{RT : GoRuntime} `{RTok : !GoRuntimeOk RT}.
Implicit Types (t : OffsetsTracker) (w g : WorkItem).

Definition readyPast (b : Z) (r : option WorkItem) : Prop :=
  exists w, r = Some w /\ b <= offsetOf w + 1.

Definition aheadOf (b : Z) (t : OffsetsTracker) : Prop :=
  b <= CommittedPlusOne t \/ readyPast b (Ready t).

(** The baseline and the [Ready] item of [t'] are no further back. *)
Definition noFurtherBack (t t' : OffsetsTracker) : Prop :=
  CommittedPlusOne t <= CommittedPlusOne t' /\
  forall b, readyPast b (Ready t) -> b <= CommittedPlusOne t' \/ readyPast b (Ready t').

Lemma noFurtherBack_aheadOf b t t' : noFurtherBack t t' -> aheadOf b t -> aheadOf b t'.
Proof. intros [Hc Hr] [?|H]; [left; lia | apply Hr, H]. Qed.

Lemma noFurtherBack_same t t' :
  CommittedPlusOne t' = CommittedPlusOne t -> Ready t' = Ready t -> noFurtherBack t t'.
Proof. intros Hc Hr. split; [lia|]. rewrite Hr. auto. Qed.

Lemma readyPast_step b r w : readyPast b (Some r) -> offsetOf r <= offsetOf w -> readyPast b (Some w).
Proof. intros (v & [= <-] & H) ?. exists w. split; [done | lia]. Qed.

Lemma observeOffset_forward o t : noFurtherBack t (observeOffset o t).
Proof.
  unfold observeOffset. apply noFurtherBack_same; destruct (_ <? _); try done; by destruct (_ >? _).
Qed.

Lemma checkAndAdvance_forward t w now :
  noFurtherBack t (checkAndAdvance t w (offsetOf w) now).1.
Proof.
  unfold checkAndAdvance, advanceThroughGapBuffer. destruct (Ready t) as [r|] eqn:Er.
  - destruct (_ >? _) eqn:Eo; [by apply noFurtherBack_same|].
    rewrite Z.gtb_ltb in Eo. apply Z.ltb_ge in Eo. destruct (_ || _); simpl.
    + destruct (existsb _ _); (split; simpl; [lia|]); rewrite Er; intros b Hb; right;
        by apply (readyPast_step b r).
    + by apply noFurtherBack_same.
  - destruct (_ =? _); [destruct (existsb _ _) | destruct (_ >? _); [|destruct (_ || _)]];
      (split; simpl; [lia|]); rewrite Er; by intros b (? & [=] & _).
Qed.

Lemma processItem_forward t w now : noFurtherBack t (processItem t w now).1.
Proof.
  unfold processItem. destruct (First w); [|apply checkAndAdvance_forward].
  set (t1 := if _ : bool then _ else _).
  assert (H1 : noFurtherBack t t1).
  { unfold t1. rewrite Z.geb_leb. destruct (Z.leb_spec (CommittedPlusOne t) (offsetOf w));
      (split; simpl; [lia | auto]). }
  destruct (checkAndAdvance_forward t1 (mark SetFirstAfterRebalance w) now) as [Hc Hr].
  change (offsetOf (mark _ w)) with (offsetOf w) in Hc, Hr.
  split; [destruct H1; lia|]. intros b Hb.
  destruct (proj2 H1 b Hb) as [?|H]; [left; lia | by apply Hr].
Qed.

Lemma walk_forward now cpo last ready l b :
  readyPast b ready -> readyPast b (walk now cpo last ready l).1.1.
Proof.
  revert ready. induction l as [|g l IH]; intros ready Hb; simpl; [done|].
  destruct ready as [r|]; [|by destruct Hb as (? & [=] & _)].
  destruct (Z.leb_spec (offsetOf g) (offsetOf r)).
  - specialize (IH _ Hb). by destruct (walk _ _ _ _ _) as [[r' k] out'].
  - destruct (_ =? _); [|done].
    specialize (IH (Some (stamp now g))). destruct (walk _ _ _ _ _) as [[r' k] out'].
    apply IH. apply (readyPast_step b r); [done|]. change (offsetOf (stamp now g)) with (offsetOf g). lia.
Qed.

Lemma flushTracker_forward size size70 now t : noFurtherBack t (flushTracker size size70 now t).1.
Proof.
  destruct (decide (NeedsGapAdvance t = true /\ elems (GapBuffer t) <> [])) as [[Hn Hb]|Hno].
  - pose proof (flushTracker_items size size70 now t Hn Hb) as HF. cbv zeta in HF.
    pose proof (walk_forward now (CommittedPlusOne t) (LastCommittedOffset t) (Ready t)
                  (elems (sortGapBuffer (GapBuffer t)))) as HW.
    destruct (walk _ _ _ _ _) as [[r n] out]. destruct (flushTracker _ _ _ _) as [t' out'].
    destruct HF as (_ & HR & _ & _ & HC & _). simpl in *.
    split; [lia|]. intros b Hb'. right. rewrite HR. by apply HW.
  - rewrite flushTracker_idle; [by apply noFurtherBack_same|].
    destruct (NeedsGapAdvance t); [|by left]. right.
    destruct (elems (GapBuffer t)); [done|]. destruct Hno. done.
Qed.

Lemma repairSuccessor_forward t now : noFurtherBack t (repairSuccessor t now).1.
Proof.
  destruct (repairSuccessor_cases t now) as [E|(s & kept & pruned & Er & _ & _ & _ & _ & E)];
    rewrite E; simpl; [by apply noFurtherBack_same|].
  split; simpl; [lia|]. rewrite Er. by intros b (? & [=] & _).
Qed.

Lemma collectCommit_forward now t :
  noFurtherBack t (collectCommit true now t).1 /\
  forall msg b, (collectCommit true now t).2.2 = Some msg -> aheadOf b t ->
    b <= Offset msg + 1 /\ exists w, Ready (collectCommit true now t).1 = Some w /\ wiMessage w = msg.
Proof.
  unfold collectCommit. simpl.
  assert (H : noFurtherBack t (match Ready t with None => repairSuccessor t now | Some _ => (t, []) end).1)
    by (destruct (Ready t) eqn:E; [by apply noFurtherBack_same | apply repairSuccessor_forward]).
  destruct (match Ready t with None => _ | Some _ => _ end) as [t1 out]. simpl in H.
  destruct (Ready t1) as [w|] eqn:Ew; [|by split].
  destruct (Z.ltb_spec (offsetOf w) (CommittedPlusOne t1)) as [Hlt|Hge]; simpl.
  - split; [|done]. destruct H as [Hc Hr]. split.
    + destruct (_ >? _); simpl; lia.
    + intros b Hb. destruct (Hr b Hb) as [?|(v & E & ?)].
      * left. destruct (_ >? _); simpl; lia.
      * rewrite Ew in E. injection E as <-. left. destruct (_ >? _); simpl; lia.
  - split; [done|]. intros msg b [= <-] Ha. split; [|by exists w].
    fold (offsetOf w). destruct (noFurtherBack_aheadOf b t t1 H Ha) as [?|(v & E & ?)]; [lia|].
    rewrite Ew in E. injection E as <-. done.
Qed.

(** A discard, or the tick of a partition that is not assigned, keeps the baseline. *)
Lemma collectCommit_cpo a now t : CommittedPlusOne (collectCommit a now t).1 = CommittedPlusOne t.
Proof.
  unfold collectCommit. destruct a; simpl.
  - set (p := match Ready t with None => _ | Some _ => _ end).
    assert (Hp : CommittedPlusOne p.1 = CommittedPlusOne t).
    { unfold p. destruct (Ready t); [done|].
      destruct (repairSuccessor_cases t now) as [E|(s & kept & pruned & _ & _ & _ & _ & _ & E)];
        by rewrite E. }
    destruct p as [t1 out]. simpl in Hp.
    destruct (Ready t1); [|done]. destruct (_ <? _); [|done]. by destruct (_ >? _).
  - unfold discardOrphanedTracker. by destruct (Ready t), (elems (GapBuffer t)).
Qed.

(** An acknowledged commit moves the baseline to the committed position. *)
Lemma ackCommit_forward o t :
  in_int64 (o + 1) ->
  CommittedPlusOne (ackCommit o t).1 = Z.max (CommittedPlusOne t) (o + 1) /\
  LastCommittedOffset (ackCommit o t).1 = Z.max (LastCommittedOffset t) o /\
  Ready (ackCommit o t).1 = None.
Proof.
  intros Hi. unfold ackCommit. rewrite (add64_id o 1) by done. rewrite !Z.gtb_ltb.
  destruct (Z.ltb_spec (CommittedPlusOne t) (o + 1)); simpl; rewrite ?Z.gtb_ltb;
    destruct (Z.ltb_spec (LastCommittedOffset t) o); simpl; destruct (0 <? _); simpl; (split_and!; [lia | lia | done]).
Qed.

End Monotone.
