(* ===== verification/Prev.v ===== *)
(** * Predecessor stamping at the polling boundary ([demux/pipeline/prev])

    [PartitionOffsets] remembers the last offset polled per partition and stamps
    each message with its predecessor.  The mutex makes every call atomic. *)
From S2P Require Import Prelude.
From stdpp Require Import base gmap list.
Open Scope Z_scope.

Inductive OffsetError := ErrNegativeOffset | ErrDuplicateOffset | ErrOffsetRegression.

#[export] Instance OffsetError_eq_dec : EqDecision OffsetError.
Proof. solve_decision. Defined.

(** [PartitionOffsets.prevOffsets]; [NewPartitionOffsets] and [Init] start it
    empty. *)
Definition NewPartitionOffsets : gmap Z Z := ∅.

(** [GetPrevious]: the updated tracker, [prevOffset], [isFirst] and the error. *)
Definition GetPrevious (prevOffsets : gmap Z Z) (partition partitionOffset : Z)
    : gmap Z Z * (Z * bool * option OffsetError) :=
  if partitionOffset <? 0 then (prevOffsets, (-1, false, Some ErrNegativeOffset))
  else
    match prevOffsets !! partition with
    | Some prevOffset =>
        if partitionOffset >? prevOffset
        then (<[partition := partitionOffset]> prevOffsets, (prevOffset, false, None))
        else if partitionOffset =? prevOffset
        then (prevOffsets, (-1, false, Some ErrDuplicateOffset))
        else (prevOffsets, (-1, false, Some ErrOffsetRegression))
    | None =>
        (<[partition := partitionOffset]> prevOffsets, (partitionOffset - 1, true, None))
    end.

(** [Reset(partitions...)]: the given partitions, or all if none is given. *)
Definition Reset (prevOffsets : gmap Z Z) (partitions : list Z) : gmap Z Z :=
  match partitions with
  | [] => ∅
  | _ => foldl (fun m p => delete p m) prevOffsets partitions
  end.

(** The stamps of a run of polls, in order; it stops at the first error, as the
    polling loop does. *)
Fixpoint stampRun (m : gmap Z Z) (polls : list (Z * Z))
    : gmap Z Z * list (Z * Z * Z * bool) * option OffsetError :=
  match polls with
  | [] => (m, [], None)
  | (p, o) :: polls' =>
      let '(m', (prev, first, err)) := GetPrevious m p o in
      match err with
      | Some e => (m', [], Some e)
      | None =>
          let '(m'', stamps, err') := stampRun m' polls' in
          (m'', (p, o, prev, first) :: stamps, err')
      end
  end.

(** ** Specification

    The stamps of one partition's polls: the predecessor of each is the poll
    before it, and the first after a reset is flagged. *)
Fixpoint chainFrom (prev : option Z) (os : list Z) : list (Z * Z * bool) :=
  match os with
  | [] => []
  | o :: os' =>
      match prev with
      | Some x => (o, x, false)
      | None => (o, o - 1, true)
      end :: chainFrom (Some o) os'
  end.

(** The offsets of one partition, each above the one before. *)
Fixpoint ascends (prev : option Z) (os : list Z) : bool :=
  match os with
  | [] => true
  | o :: os' =>
      (0 <=? o) && (match prev with Some x => x <? o | None => true end) && ascends (Some o) os'
  end.

Definition pollsOf (p : Z) (polls : list (Z * Z)) : list Z :=
  omap (fun '(p', o) => if decide (p' = p) then Some o else None) polls.

Definition stampsOf (p : Z) (stamps : list (Z * Z * Z * bool)) : list (Z * Z * bool) :=
  omap (fun '(p', o, prev, first) => if decide (p' = p) then Some (o, prev, first) else None) stamps.

(** ** Lemmas *)

Lemma GetPrevious_ok m p o m' prev first :
  GetPrevious m p o = (m', (prev, first, None)) ->
  0 <= o /\ m' = <[p := o]> m /\
  match m !! p with
  | Some x => x < o /\ prev = x /\ first = false
  | None => prev = o - 1 /\ first = true
  end.
Proof.
  unfold GetPrevious.
  destruct (Z.ltb_spec o 0); [done|].
  destruct (m !! p) as [x|]; rewrite ?Z.gtb_ltb; case_Z; intros [= <- <- <-]; auto with lia.
Qed.

Lemma GetPrevious_err m p o m' prev first e :
  GetPrevious m p o = (m', (prev, first, Some e)) ->
  m' = m /\
  match e with
  | ErrNegativeOffset => o < 0
  | ErrDuplicateOffset => 0 <= o /\ m !! p = Some o
  | ErrOffsetRegression => 0 <= o /\ exists x, m !! p = Some x /\ o < x
  end.
Proof.
  unfold GetPrevious.
  destruct (Z.ltb_spec o 0); [by intros [= <- <- <- <-]|].
  destruct (m !! p) as [x|] eqn:E; rewrite ?Z.gtb_ltb; case_Z; intros [= <- <- <- <-]; subst; auto.
  split; [done|]. split; [lia|]. exists x. split; [done|lia].
Qed.

Lemma Reset_lookup m ps p :
  ps <> [] -> Reset m ps !! p = if decide (p ∈ ps) then None else m !! p.
Proof.
  intros Hne. unfold Reset. destruct ps as [|q ps]; [done|]. clear Hne.
  revert q m. induction ps as [|r ps IH]; intros q m.
  - cbn. case_decide as Hp.
    + apply list_elem_of_singleton in Hp as ->. apply lookup_delete_eq.
    + apply lookup_delete_ne. intros ->. apply Hp. by left.
  - cbn. specialize (IH r (delete q m)). cbn in IH. rewrite IH.
    destruct (decide (p ∈ r :: ps)) as [Hin|Hni].
    + rewrite decide_True; [done|]. by right.
    + destruct (decide (p = q)) as [->|Hne].
      * rewrite decide_True by by left. apply lookup_delete_eq.
      * rewrite decide_False by (apply not_elem_of_cons; done). by apply lookup_delete_ne.
Qed.

Lemma stampRun_chain m polls m' stamps p :
  stampRun m polls = (m', stamps, None) ->
  stampsOf p stamps = chainFrom (m !! p) (pollsOf p polls) /\
  ascends (m !! p) (pollsOf p polls) = true /\
  m' !! p = (if decide (pollsOf p polls = []) then m !! p else last (pollsOf p polls)).
Proof.
  revert m stamps. induction polls as [|[q o] polls IH]; intros m stamps; cbn [stampRun].
  { intros [= <- <-]. done. }
  destruct (GetPrevious m q o) as [m1 [[prev first] [e|]]] eqn:G; [done|].
  apply GetPrevious_ok in G as (Ho & -> & Hm).
  destruct (stampRun (<[q:=o]> m) polls) as [[m2 stamps2] err] eqn:S.
  intros [= <- <- ->]. specialize (IH _ _ S) as (IH1 & IH2 & IH3).
  destruct (decide (q = p)) as [->|Hne].
  - rewrite lookup_insert_eq in IH1, IH2, IH3.
    assert (HS : stampsOf p ((p, o, prev, first) :: stamps2) = (o, prev, first) :: stampsOf p stamps2)
      by (cbn; by rewrite decide_True).
    assert (HP : pollsOf p ((p, o) :: polls) = o :: pollsOf p polls) by (cbn; by rewrite decide_True).
    rewrite HS, HP. cbn [chainFrom ascends]. rewrite IH1, IH2, IH3.
    split_and!.
    + f_equal. destruct (m !! p); by destruct_and!; subst.
    + destruct (m !! p); destruct_and!; case_Z; auto; lia.
    + destruct (pollsOf p polls) as [|a l]; [by rewrite decide_True by done|].
      by rewrite !decide_False by done.
  - rewrite lookup_insert_ne in IH1, IH2, IH3 by done.
    assert (HS : stampsOf p ((q, o, prev, first) :: stamps2) = stampsOf p stamps2)
      by (cbn; by rewrite decide_False).
    assert (HP : pollsOf p ((q, o) :: polls) = pollsOf p polls) by (cbn; by rewrite decide_False).
    by rewrite HS, HP.
Qed.

Lemma stampRun_total m polls :
  (forall p, ascends (m !! p) (pollsOf p polls) = true) ->
  exists m' stamps, stampRun m polls = (m', stamps, None).
Proof.
  revert m. induction polls as [|[q o] polls IH]; intros m Ha; cbn [stampRun]; [eauto|].
  pose proof (Ha q) as Hq. cbn in Hq. rewrite decide_True in Hq by done. cbn in Hq.
  apply andb_true_iff in Hq as [[H0 Hx]%andb_true_iff _]. apply Z.leb_le in H0.
  destruct (IH (<[q:=o]> m)) as (m' & stamps & Hs).
  { intros p. specialize (Ha p). destruct (decide (q = p)) as [->|Hne].
    - rewrite lookup_insert_eq. cbn in Ha. rewrite decide_True in Ha by done. cbn in Ha.
      by apply andb_true_iff in Ha as [_ ?].
    - rewrite lookup_insert_ne by done. cbn in Ha. by rewrite decide_False in Ha by done. }
  unfold GetPrevious. destruct (Z.ltb_spec o 0); [lia|].
  destruct (m !! q) as [x|].
  - apply Z.ltb_lt in Hx. rewrite Z.gtb_ltb. destruct (Z.ltb_spec x o); [|lia]. rewrite Hs. eauto.
  - rewrite Hs. eauto.
Qed.

(** ** Properties *)

(** C17: a run of polls is accepted exactly when every partition's offsets ascend,
    and then each partition's stamps chain: every message names the one polled
    before it on its partition, and the first after a reset is flagged. *)
Theorem stampRun_correct m polls :
  ((forall p, ascends (m !! p) (pollsOf p polls) = true) <->
     exists m' stamps, stampRun m polls = (m', stamps, None)) /\
  forall m' stamps, stampRun m polls = (m', stamps, None) ->
    forall p, stampsOf p stamps = chainFrom (m !! p) (pollsOf p polls).
Proof.
  split; [split|].
  - apply stampRun_total.
  - intros (m' & stamps & Hs) p. by destruct (stampRun_chain _ _ _ _ p Hs) as (_ & ? & _).
  - intros m' stamps Hs p. by destruct (stampRun_chain _ _ _ _ p Hs) as (? & _ & _).
Qed.
