(* ===== verification/CommitterFacts.v ===== *)
(** * Facts about the committer's operations

    What each operation changes: the epilogue [returnMessageAndCollectMetrics]
    touches only the observability fields, and the maps of trackers are read off
    the per-partition operations.  [trackers_all] lifts a property of trackers
    through every operation. *)
From S2P Require Import Prelude Types RingBuffer Tracker Committer TrackerFacts.
From stdpp Require Import base gmap list.
Open Scope Z_scope.

Section CommitterFacts.
Context `{NX : Nexus} `{RT : GoRuntime}.
Implicit Types (oc : Committer) (w : WorkItem) (ws : list WorkItem).

(** ** The epilogue *)

Lemma returnAll_frame oc ws :
  commitsIn (returnAll oc ws) = commitsIn oc /\
  PartitionMap (returnAll oc ws) = PartitionMap oc /\
  drained (returnAll oc ws) = drained oc /\
  gapBufferSize (returnAll oc ws) = gapBufferSize oc /\
  gapBufferSize70Pct (returnAll oc ws) = gapBufferSize70Pct oc /\
  assigned (returnAll oc ws) = assigned oc /\
  lastRebalanceTime (returnAll oc ws) = lastRebalanceTime oc.
Proof.
  unfold returnAll. revert oc. induction ws as [|w ws IH]; intros oc; [done|].
  cbn [foldl]. apply (IH (returnMessageAndCollectMetrics oc w)).
Qed.

Lemma returnAll_PartitionMap oc ws : PartitionMap (returnAll oc ws) = PartitionMap oc.
Proof. apply returnAll_frame. Qed.

Lemma returnAll_commitsIn oc ws : commitsIn (returnAll oc ws) = commitsIn oc.
Proof. apply returnAll_frame. Qed.

Lemma returnAll_assigned oc ws : assigned (returnAll oc ws) = assigned oc.
Proof. apply returnAll_frame. Qed.

Lemma returnAll_drained oc ws : drained (returnAll oc ws) = drained oc.
Proof. apply returnAll_frame. Qed.

Lemma returnAll_gapBufferSize oc ws : gapBufferSize (returnAll oc ws) = gapBufferSize oc.
Proof. apply returnAll_frame. Qed.

Lemma returnAll_collected oc ws : collected (returnAll oc ws) = collected oc ++ ws.
Proof.
  unfold returnAll. revert oc. induction ws as [|w ws IH]; intros oc; cbn [foldl];
    [by rewrite app_nil_r|].
  rewrite IH. simpl. by rewrite <- app_assoc.
Qed.

Lemma putTracker_PartitionMap oc p res :
  PartitionMap (putTracker oc p res) = <[p := res.1]> (PartitionMap oc).
Proof. unfold putTracker. by rewrite returnAll_PartitionMap. Qed.

Lemma putTracker_assigned oc p res : assigned (putTracker oc p res) = assigned oc.
Proof. unfold putTracker. by rewrite returnAll_assigned. Qed.

Lemma putTracker_commitsIn oc p res : commitsIn (putTracker oc p res) = commitsIn oc.
Proof. unfold putTracker. by rewrite returnAll_commitsIn. Qed.

Lemma putTracker_collected oc p res : collected (putTracker oc p res) = collected oc ++ res.2.
Proof. unfold putTracker. by rewrite returnAll_collected. Qed.

Lemma processCommit_PartitionMap oc w now :
  PartitionMap (processCommit oc w now) =
    <[partitionOf w :=
        (processItem (match PartitionMap oc !! partitionOf w with
                      | None => newTracker (gapBufferSize oc) (offsetOf w)
                      | Some t => observeOffset (offsetOf w) t
                      end) w now).1]> (PartitionMap oc).
Proof. unfold processCommit. simpl. by rewrite putTracker_PartitionMap. Qed.

Lemma processCommit_assigned oc w now : assigned (processCommit oc w now) = assigned oc.
Proof. unfold processCommit. simpl. apply putTracker_assigned. Qed.

Lemma processCommit_commitsIn oc w now : commitsIn (processCommit oc w now) = commitsIn oc.
Proof. unfold processCommit. simpl. apply putTracker_commitsIn. Qed.

(** ** Flush and collect, tracker by tracker *)

Lemma flushGapBuffers_lookup oc order now p :
  range_order (PartitionMap oc) order ->
  PartitionMap (flushGapBuffers oc order now) !! p =
    (fun t => (flushTracker (gapBufferSize oc) (gapBufferSize70Pct oc) now t).1) <$> PartitionMap oc !! p.
Proof.
  intros Ho. unfold flushGapBuffers.
  pose proof (visit_range (fun _ => flushTracker (gapBufferSize oc) (gapBufferSize70Pct oc) now)
                order (PartitionMap oc) Ho) as Hv.
  destruct (visit _ _ _) as [m outs]. simpl in Hv. subst.
  rewrite returnAll_PartitionMap. simpl. rewrite map_lookup_imap. by destruct (PartitionMap oc !! p).
Qed.

Lemma flushGapBuffers_assigned oc order now : assigned (flushGapBuffers oc order now) = assigned oc.
Proof.
  unfold flushGapBuffers. destruct (visit _ _ _). by rewrite returnAll_assigned.
Qed.

Lemma flushGapBuffers_commitsIn oc order now : commitsIn (flushGapBuffers oc order now) = commitsIn oc.
Proof.
  unfold flushGapBuffers. destruct (visit _ _ _). by rewrite returnAll_commitsIn.
Qed.

(** What the commit loop does to one partition. *)
Definition collectAt (oc : Committer) (now p : Z) (t : OffsetsTracker)
    : OffsetsTracker * (list WorkItem * option Message) :=
  collectCommit (bool_decide (p ∈ assigned oc)) now t.

Lemma collectCommits_lookup oc order now p :
  range_order (PartitionMap oc) order ->
  PartitionMap (collectCommits oc order now).1 !! p =
    (fun t => (collectAt oc now p t).1) <$> PartitionMap oc !! p.
Proof.
  intros Ho. unfold collectCommits.
  pose proof (visit_range (fun p => collectCommit (bool_decide (p ∈ assigned oc)) now)
                order (PartitionMap oc) Ho) as Hv.
  destruct (visit _ _ _) as [m outs]. simpl in Hv. subst. simpl.
  rewrite returnAll_PartitionMap. simpl. rewrite map_lookup_imap. by destruct (PartitionMap oc !! p).
Qed.

Lemma collectCommits_assigned oc order now : assigned (collectCommits oc order now).1 = assigned oc.
Proof.
  unfold collectCommits. destruct (visit _ _ _). simpl. by rewrite returnAll_assigned.
Qed.

Lemma collectCommits_commitsIn oc order now : commitsIn (collectCommits oc order now).1 = commitsIn oc.
Proof.
  unfold collectCommits. destruct (visit _ _ _). simpl. by rewrite returnAll_commitsIn.
Qed.

(** Every message of a commit comes from an assigned partition's tracker. *)
Lemma collectCommits_msg oc order now msg :
  range_order (PartitionMap oc) order ->
  msg ∈ (collectCommits oc order now).2 ->
  exists p t, PartitionMap oc !! p = Some t /\ (collectAt oc now p t).2.2 = Some msg.
Proof.
  intros [Hd Hin]. unfold collectCommits.
  pose proof (visit_out (fun p => collectCommit (bool_decide (p ∈ assigned oc)) now)
                order (PartitionMap oc) Hd) as Hv.
  destruct (visit _ _ _) as [m outs]. simpl in *. subst outs.
  intros (o & Ho & Hm)%list_elem_of_omap. apply list_elem_of_omap in Ho as (p & Hp & Ho).
  destruct (PartitionMap oc !! p) as [t|] eqn:E; [|done]. simpl in Ho. injection Ho as <-.
  exists p, t. done.
Qed.

(** One message per partition: the messages come in the order of the visit. *)
Lemma collectCommits_msgs oc order now :
  range_order (PartitionMap oc) order ->
  (collectCommits oc order now).2 =
    omap (fun p => t ← PartitionMap oc !! p; (collectAt oc now p t).2.2) order.
Proof.
  intros [Hd Hin]. unfold collectCommits.
  pose proof (visit_out (fun p => collectCommit (bool_decide (p ∈ assigned oc)) now)
                order (PartitionMap oc) Hd) as Hv.
  destruct (visit _ _ _) as [m outs]. simpl in *. subst outs.
  clear Hd Hin. induction order as [|p order IH]; [done|]. cbn.
  destruct (PartitionMap oc !! p) as [t|]; cbn; [|done].
  unfold collectAt at 1. destruct (collectCommit _ _ _).2.2; [f_equal|]; exact IH.
Qed.

Lemma range_order_dom (m m' : gmap Z OffsetsTracker) order :
  (forall p, is_Some (m !! p) <-> is_Some (m' !! p)) -> range_order m order -> range_order m' order.
Proof. intros Hp [Hd Hin]. split; [done|]. intros k. by rewrite Hin, Hp. Qed.

Lemma flushGapBuffers_range oc order order' now :
  range_order (PartitionMap oc) order -> range_order (PartitionMap oc) order' ->
  range_order (PartitionMap (flushGapBuffers oc order now)) order'.
Proof.
  intros Ho. apply range_order_dom. intros p. rewrite flushGapBuffers_lookup by done.
  by rewrite fmap_is_Some.
Qed.

(** ** Lifting a property of trackers *)

Section Lift.
Variable P : Z -> OffsetsTracker -> Prop.

Definition trackers_all oc : Prop := forall p t, PartitionMap oc !! p = Some t -> P p t.

Lemma trackers_all_put oc p res :
  trackers_all oc -> P p res.1 -> trackers_all (putTracker oc p res).
Proof.
  intros Ha Hp q t. rewrite putTracker_PartitionMap.
  destruct (decide (p = q)) as [->|Hne].
  - rewrite lookup_insert_eq. by intros [= <-].
  - rewrite lookup_insert_ne by done. apply Ha.
Qed.

Lemma trackers_all_processCommit oc w now :
  trackers_all oc ->
  (forall size, P (partitionOf w) (newTracker size (offsetOf w))) ->
  (forall t, P (partitionOf w) t -> P (partitionOf w) (observeOffset (offsetOf w) t)) ->
  (forall t, P (partitionOf w) t -> P (partitionOf w) (processItem t w now).1) ->
  trackers_all (processCommit oc w now).
Proof.
  intros Ha Hnew Hobs Hproc. unfold processCommit. simpl. apply trackers_all_put; [done|].
  apply Hproc. destruct (PartitionMap oc !! partitionOf w) as [t|] eqn:E; [|done].
  apply Hobs, Ha, E.
Qed.

Lemma trackers_all_flush oc order now :
  trackers_all oc ->
  (forall p t size size70, P p t -> P p (flushTracker size size70 now t).1) ->
  trackers_all (flushGapBuffers oc order now).
Proof.
  intros Ha Hf. unfold flushGapBuffers.
  pose proof (visit_inv (fun _ => flushTracker (gapBufferSize oc) (gapBufferSize70Pct oc) now)
                (fun m _ => forall p t, m !! p = Some t -> P p t) order (PartitionMap oc) Ha) as Hv.
  destruct (visit _ _ _) as [m outs]. simpl in Hv.
  intros p t. rewrite returnAll_PartitionMap. apply Hv.
  intros m0 os k a Hm Hk q t' Hq. destruct (decide (k = q)) as [->|Hne].
  - rewrite lookup_insert_eq in Hq. injection Hq as <-. by apply Hf, Hm.
  - rewrite lookup_insert_ne in Hq by done. by apply Hm.
Qed.

Lemma trackers_all_reset oc pos :
  trackers_all oc ->
  (forall p c, (p, c) ∈ pos ->
     (forall size, P p (newResetTracker size c)) /\ forall t, P p t -> P p (resetTracker c t).1) ->
  trackers_all (ResetCommittedOffsets oc pos).
Proof.
  unfold ResetCommittedOffsets. revert oc. induction pos as [|[p c] pos IH]; intros oc Ha Hr; [done|].
  cbn [foldl]. apply IH; [|intros; apply Hr; by right].
  destruct (Hr p c ltac:(left)) as [Hnew Hold]. unfold resetOne.
  destruct (PartitionMap oc !! p) as [t|] eqn:E; (apply trackers_all_put; [done|]).
  - by apply Hold, Ha.
  - apply Hnew.
Qed.

Lemma trackers_all_revoke oc p now :
  trackers_all oc -> (forall t, P p t -> P p (setAssignment Revoke t)) ->
  trackers_all (MarkPartitionRevoked oc p now).
Proof.
  intros Ha Hr q t. unfold MarkPartitionRevoked. simpl. rewrite lookup_alter.
  case_decide as E; [subst | apply Ha].
  intros (t0 & Ht0 & ->)%fmap_Some. by apply Hr, Ha.
Qed.

End Lift.

(** ** Resetting leaves the other partitions alone *)

Lemma resetOne_lookup_ne oc po p :
  po.1 <> p -> PartitionMap (resetOne oc po) !! p = PartitionMap oc !! p.
Proof.
  destruct po as [q c]. simpl. intros Hne. unfold resetOne.
  destruct (PartitionMap oc !! q); by rewrite putTracker_PartitionMap, lookup_insert_ne.
Qed.

Lemma resetTracker_cpo c t : CommittedPlusOne (resetTracker c t).1 = c.
Proof.
  unfold resetTracker. destruct (match Ready t with Some _ => _ | None => _ end) as [t1 out1].
  by case_decide.
Qed.

Lemma resetOne_lookup_eq oc p c :
  exists t, PartitionMap (resetOne oc (p, c)) !! p = Some t /\ CommittedPlusOne t = c.
Proof.
  unfold resetOne. destruct (PartitionMap oc !! p); rewrite putTracker_PartitionMap, lookup_insert_eq;
    (eexists; split; [done|]); [apply resetTracker_cpo | done].
Qed.

Lemma ResetCommittedOffsets_lookup_ne oc pos p :
  p ∉ pos.*1 -> PartitionMap (ResetCommittedOffsets oc pos) !! p = PartitionMap oc !! p.
Proof.
  unfold ResetCommittedOffsets. revert oc. induction pos as [|po pos IH]; intros oc Hp; [done|].
  apply not_elem_of_cons in Hp as [Hne Hp]. cbn [foldl]. rewrite IH by done.
  by apply resetOne_lookup_ne.
Qed.

(** Each baseline of the event is installed. *)
Lemma ResetCommittedOffsets_lookup oc pos p c :
  NoDup pos.*1 -> (p, c) ∈ pos ->
  exists t, PartitionMap (ResetCommittedOffsets oc pos) !! p = Some t /\ CommittedPlusOne t = c.
Proof.
  revert oc. induction pos as [|po pos IH]; intros oc Hd Hin; [by apply not_elem_of_nil in Hin|].
  cbn in Hd. apply NoDup_cons in Hd as [Hni Hd]. apply elem_of_cons in Hin as [<-|Hin].
  - change (ResetCommittedOffsets oc ((p, c) :: pos)) with (ResetCommittedOffsets (resetOne oc (p, c)) pos).
    rewrite ResetCommittedOffsets_lookup_ne by done. apply resetOne_lookup_eq.
  - by apply (IH (resetOne oc po)).
Qed.

Lemma ResetCommittedOffsets_assigned oc pos :
  assigned (ResetCommittedOffsets oc pos) = assigned oc.
Proof.
  unfold ResetCommittedOffsets. revert oc. induction pos as [|[q c] pos IH]; intros oc; [done|].
  cbn [foldl]. rewrite IH. unfold resetOne.
  destruct (PartitionMap oc !! q); apply putTracker_assigned.
Qed.

Lemma ResetCommittedOffsets_commitsIn oc pos :
  commitsIn (ResetCommittedOffsets oc pos) = commitsIn oc.
Proof.
  unfold ResetCommittedOffsets. revert oc. induction pos as [|[q c] pos IH]; intros oc; [done|].
  cbn [foldl]. rewrite IH. unfold resetOne.
  destruct (PartitionMap oc !! q); apply putTracker_commitsIn.
Qed.

(** ** Acknowledged commits *)

Lemma ackCommits_assigned oc commits : assigned (ackCommits oc commits) = assigned oc.
Proof.
  unfold ackCommits. revert oc. induction commits as [|m ms IH]; intros oc; [done|].
  cbn [foldl]. rewrite IH. unfold ackOne.
  destruct (PartitionMap oc !! _); [apply putTracker_assigned | done].
Qed.

Lemma ackCommits_commitsIn oc commits : commitsIn (ackCommits oc commits) = commitsIn oc.
Proof.
  unfold ackCommits. revert oc. induction commits as [|m ms IH]; intros oc; [done|].
  cbn [foldl]. rewrite IH. unfold ackOne.
  destruct (PartitionMap oc !! _); [apply putTracker_commitsIn | done].
Qed.

Lemma trackers_all_ack (P : Z -> OffsetsTracker -> Prop) oc commits :
  trackers_all P oc ->
  (forall m t, m ∈ commits -> P (Partition m) t -> P (Partition m) (ackCommit (Offset m) t).1) ->
  trackers_all P (ackCommits oc commits).
Proof.
  unfold ackCommits. revert oc. induction commits as [|m ms IH]; intros oc Ha Hack; [done|].
  cbn [foldl]. apply IH; [|intros; apply Hack; [by right | done]].
  unfold ackOne. destruct (PartitionMap oc !! Partition m) as [t|] eqn:E; [|done].
  apply trackers_all_put; [done|]. apply Hack; [by left | by apply Ha].
Qed.

Lemma ackCommits_lookup_notin oc commits p :
  p ∉ map Partition commits -> PartitionMap (ackCommits oc commits) !! p = PartitionMap oc !! p.
Proof.
  unfold ackCommits. revert oc. induction commits as [|m ms IH]; intros oc Hp; [done|].
  cbn in Hp. apply not_elem_of_cons in Hp as [Hne Hp]. cbn [foldl]. rewrite IH by done.
  unfold ackOne. destruct (PartitionMap oc !! Partition m); [|done].
  by rewrite putTracker_PartitionMap, lookup_insert_ne.
Qed.

(** With one message per partition, each tracker is acknowledged once. *)
Lemma ackCommits_lookup oc commits m :
  NoDup (map Partition commits) -> m ∈ commits ->
  PartitionMap (ackCommits oc commits) !! Partition m =
    (fun t => (ackCommit (Offset m) t).1) <$> PartitionMap oc !! Partition m.
Proof.
  unfold ackCommits. revert oc. induction commits as [|m' ms IH]; intros oc Hd Hm;
    [by apply not_elem_of_nil in Hm|].
  cbn in Hd. apply NoDup_cons in Hd as [Hni Hd]. cbn [foldl].
  apply elem_of_cons in Hm as [->|Hm].
  - fold (ackCommits (ackOne oc m') ms). rewrite ackCommits_lookup_notin by done. unfold ackOne.
    destruct (PartitionMap oc !! Partition m') as [t|] eqn:E; [|by rewrite E].
    by rewrite putTracker_PartitionMap, lookup_insert_eq.
  - rewrite IH by done. f_equal. unfold ackOne.
    assert (Hne : Partition m' <> Partition m)
      by (intros E; apply Hni; rewrite E; by apply list_elem_of_fmap_2).
    destruct (PartitionMap oc !! Partition m'); [|done].
    by rewrite putTracker_PartitionMap, lookup_insert_ne.
Qed.

(** ** The three outcomes of a commit tick *)

Lemma CommitOffsets_cases oc guard broker order1 order2 now oc' sent err :
  CommitOffsets oc guard broker order1 order2 now = (oc', sent, err) ->
  (oc' = oc /\ sent = [] /\ err = Some ErrCommitGuardTimeout) \/
  exists oc2, collectCommits (flushGapBuffers oc order1 now) order2 now = (oc2, sent) /\
    ((err = None /\ oc' = ackCommits oc2 sent) \/
     (err = Some ErrBrokerCommitFailed /\ oc' = oc2 /\ sent <> [])).
Proof.
  unfold CommitOffsets. destruct guard; simpl; [|intros [= <- <- <-]; by left].
  destruct (collectCommits _ _ _) as [oc2 commits]. intros H. right. exists oc2.
  destruct commits as [|m ms]; [injection H as <- <- <-; auto|].
  destruct (broker _); injection H as <- <- <-; auto.
Qed.

Lemma CommitOffsets_frame oc guard broker order1 order2 now oc' sent err :
  CommitOffsets oc guard broker order1 order2 now = (oc', sent, err) ->
  commitsIn oc' = commitsIn oc /\ assigned oc' = assigned oc.
Proof.
  intros H. apply CommitOffsets_cases in H as [(-> & _)|(oc2 & Hcol & Hres)]; [done|].
  pose proof (collectCommits_commitsIn (flushGapBuffers oc order1 now) order2 now) as HQ.
  pose proof (collectCommits_assigned (flushGapBuffers oc order1 now) order2 now) as HA.
  rewrite Hcol, flushGapBuffers_commitsIn in HQ. rewrite Hcol, flushGapBuffers_assigned in HA.
  destruct Hres as [[_ ->]|(_ & -> & _)]; [|done].
  by rewrite ackCommits_commitsIn, ackCommits_assigned.
Qed.

Lemma ingestNext_cases oc now oc' :
  ingestNext oc now = Some oc' ->
  exists w c, tryRecv (commitsIn oc) = Some (w, c) /\ oc' = processCommit (setCommitsIn c oc) w now.
Proof.
  unfold ingestNext. destruct (tryRecv (commitsIn oc)) as [[w c]|]; [|done].
  intros [= <-]. by exists w, c.
Qed.

Lemma ingestEnd_frame oc order now :
  PartitionMap (ingestEnd oc order now) = PartitionMap (flushGapBuffers oc order now) /\
  commitsIn (ingestEnd oc order now) = commitsIn oc /\
  assigned (ingestEnd oc order now) = assigned oc /\
  collected (ingestEnd oc order now) = collected (flushGapBuffers oc order now).
Proof.
  unfold ingestEnd. destruct (_ =? 0); [destruct (trySend _ _)|]; simpl;
    by rewrite ?flushGapBuffers_commitsIn, ?flushGapBuffers_assigned.
Qed.

Lemma CollectAndCommit_cases oc w oc' :
  CollectAndCommit oc w = Some oc' ->
  PartitionMap oc' = PartitionMap oc /\ assigned oc' = assigned oc /\ collected oc' = collected oc /\
  queued (commitsIn oc') = queued (commitsIn oc) ++ [w].
Proof.
  unfold CollectAndCommit, trySend. destruct (_ <? _); [|done]. by intros [= <-].
Qed.

Lemma tryRecv_cases {A} (c c' : Chan A) x :
  tryRecv c = Some (x, c') -> queued c = x :: queued c'.
Proof. unfold tryRecv. destruct (queued c) eqn:E; [done|]. by intros [= <- <-]. Qed.

Lemma clearDrained_frame oc :
  PartitionMap (clearDrained oc) = PartitionMap oc /\ commitsIn (clearDrained oc) = commitsIn oc /\
  assigned (clearDrained oc) = assigned oc /\ collected (clearDrained oc) = collected oc.
Proof. unfold clearDrained. by destruct (tryRecv (drained oc)) as [[? ?]|]. Qed.

End CommitterFacts.

#[export] Hint Rewrite @returnAll_PartitionMap @returnAll_commitsIn @returnAll_assigned
  @returnAll_drained @returnAll_gapBufferSize @returnAll_collected @putTracker_PartitionMap
  @putTracker_assigned @putTracker_commitsIn @putTracker_collected @processCommit_assigned
  @processCommit_commitsIn @flushGapBuffers_assigned @flushGapBuffers_commitsIn
  @collectCommits_assigned @collectCommits_commitsIn @ResetCommittedOffsets_assigned
  @ResetCommittedOffsets_commitsIn @ackCommits_assigned @ackCommits_commitsIn : demux_rw.
