(* ===== verification/Subscription.v ===== *)
(** * The subscription ([demux/subscription])

    Rebalance handling and the polling loop.  The subscription owns no pipeline
    state: its handlers are sequences of calls on the ports it was built with.
    [HandleRebalance] returns that sequence ([PortCall]), in order, so that the
    order the handler promises (baselines before ownership, revocation before
    the acknowledgement) is explicit; [World] executes the calls one by one
    between the steps of the other goroutines. *)
From S2P Require Import Prelude Types Prev.
From stdpp Require Import base gmap list strings.
Open Scope Z_scope.

Inductive ShutdownReason :=
| ForeignTopicReason (topic : string)
| PausePollingTimeout
| ProcessFailed.

Inductive PortCall :=
| CallTriggerEmergencyShutdown (reason : ShutdownReason)
| CallResetPrevOffsets (partitions : list Z)
| CallResetCommittedOffsets (partitionOffsets : gmap Z Z)
| CallMarkPartitionAssigned (partition : Z)
| CallMarkPartitionRevoked (partition : Z)
| CallStopPolling
| CallPausePolling
| CallDrain
| CallResumePolling
| CallAckRebalance (t : RebalanceType) (partitions : list Z)
| CallUnsubscribe.

Inductive RebalanceError :=
| ForeignTopicRebalance (topic : string)
| AckError
| UnsupportedRebalanceType (t : RebalanceType).

Record Subscription := mkSubscription {
  topicName : string;
  signalAssigned : Chan unit
}.

Definition NewSubscription (topic : string) : Subscription := mkSubscription topic (makeChan 1).

Definition setSignalAssigned (c : Chan unit) (s : Subscription) : Subscription :=
  mkSubscription (topicName s) c.

(** ** Draining *)

Inductive DrainBehaviour :=
| SyncPollingAlreadyStopped
| AsyncStopPollingBeforeDrain
| ShutdownStopPollingBeforeDrain.

(** [handshake]: the polling loop took the stop or pause request before the
    timeout; [resumed]: it took the resume request within a second. *)
Definition subDrain (behaviour : DrainBehaviour) (handshake resumed : bool) : list PortCall :=
  match behaviour with
  | SyncPollingAlreadyStopped => [CallDrain]
  | ShutdownStopPollingBeforeDrain =>
      (if handshake then [CallStopPolling] else []) ++ [CallDrain]
  | AsyncStopPollingBeforeDrain =>
      if handshake
      then [CallPausePolling; CallDrain] ++ (if resumed then [CallResumePolling] else [])
      else [CallTriggerEmergencyShutdown PausePollingTimeout]
  end.

(** The goroutine of [Unsubscribe]. *)
Definition Unsubscribe (handshake : bool) : list PortCall :=
  subDrain ShutdownStopPollingBeforeDrain handshake false ++ [CallUnsubscribe].

(** ** Rebalance *)

(** The single-topic guard: the first entry of a named, different topic. *)
Fixpoint foreignTopic (topic : string) (info : list RebalanceInfo) : option string :=
  match info with
  | [] => None
  | r :: info' =>
      if bool_decide (TopicName r <> EmptyString) && bool_decide (TopicName r <> topic)
      then Some (TopicName r) else foreignTopic topic info'
  end.

Definition resetFirstSeen (info : list RebalanceInfo) : PortCall :=
  CallResetPrevOffsets (map riPartition info).

(** The Go map is filled in event order: the last entry of a partition wins. *)
Definition baselines (info : list RebalanceInfo) : gmap Z Z :=
  foldl (fun m r => <[riPartition r := CommittedOffset r]> m) ∅ info.

Definition resetCommittedOffsetsFromRebalanceInfo (info : list RebalanceInfo) : PortCall :=
  CallResetCommittedOffsets (baselines info).

(** [ackErr]: the adapter's [ackRebalance] fails. *)
Definition HandleRebalance (s : Subscription) (t : RebalanceType) (info : list RebalanceInfo)
    (ackErr : bool) : Subscription * list PortCall * option RebalanceError :=
  match foreignTopic (topicName s) info with
  | Some topic =>
      (s, [CallTriggerEmergencyShutdown (ForeignTopicReason topic)],
       Some (ForeignTopicRebalance topic))
  | None =>
      let ack := if ackErr then Some AckError else None in
      match t with
      | Assign =>
          let s := match trySend (signalAssigned s) () with
                   | Some c => setSignalAssigned c s | None => s end in
          (s,
           [resetFirstSeen info; resetCommittedOffsetsFromRebalanceInfo info]
             ++ map (fun r => CallMarkPartitionAssigned (riPartition r)) info
             ++ [CallAckRebalance Assign (map riPartition info)],
           ack)
      | Revoke =>
          let s := match tryRecv (signalAssigned s) with
                   | Some (_, c) => setSignalAssigned c s | None => s end in
          (s,
           subDrain SyncPollingAlreadyStopped false false
             ++ map (fun r => CallMarkPartitionRevoked (riPartition r)) info
             ++ [CallAckRebalance Revoke (map riPartition info)],
           ack)
      | OtherRebalance _ => (s, [], Some (UnsupportedRebalanceType t))
      end
  end.

(** ** The polling loop *)

Inductive PollResult (M : Type) := PollMessage (m : M) | PollError | PollNothing.
Arguments PollMessage {M} _.
Arguments PollError {M}.
Arguments PollNothing {M}.

(** What the two [select]s of an iteration find ready.  Go picks among the ready
    cases of one [select] at random: [preferStop] is that choice. *)
Record LoopSignals := mkLoopSignals {
  pauseRequested : bool;
  mainCtxDone : bool;
  stopRequested : bool;
  preferStop : bool
}.

Inductive LoopStep (M : Type) :=
| LoopPaused                             (* waits for [resumePolling], then loops *)
| LoopCancelled
| LoopStopped
| LoopIdle                               (* nothing polled, or a poll error *)
| LoopForwarded (m : M) (readTime : Z)   (* [Process] accepted the message *)
| LoopFailed (m : M).                    (* [Process] failed: the breaker trips *)
Arguments LoopPaused {M}.
Arguments LoopCancelled {M}.
Arguments LoopStopped {M}.
Arguments LoopIdle {M}.
Arguments LoopForwarded {M} _ _.
Arguments LoopFailed {M} _.

(** One iteration of [PollAndForward].  [base] is the wall time last read,
    [clock] the time of this iteration and [process] the [Process] call: [true]
    for an error. *)
Definition pollIteration {M : Type} (sig : LoopSignals) (base clock : Z) (r : PollResult M)
    (process : M -> Z -> bool) : Z * LoopStep M :=
  if pauseRequested sig then (base, LoopPaused)
  else if mainCtxDone sig && negb (stopRequested sig && preferStop sig) then (base, LoopCancelled)
  else if stopRequested sig then (base, LoopStopped)
  else
    match r with
    | PollMessage m =>
        let delta := clock - base in
        let '(base, delta) := if delta >? second then (clock, 0) else (base, delta) in
        (base, if process m (base + delta) then LoopFailed m else LoopForwarded m (base + delta))
    | PollError | PollNothing => (base, LoopIdle)
    end.

Definition loopContinues {M : Type} (s : LoopStep M) : bool :=
  match s with
  | LoopCancelled | LoopStopped | LoopFailed _ => false
  | LoopPaused | LoopIdle | LoopForwarded _ _ => true
  end.

Definition loopCalls {M : Type} (s : LoopStep M) : list PortCall :=
  match s with
  | LoopFailed _ => [CallTriggerEmergencyShutdown ProcessFailed]
  | _ => []
  end.

(** ** Facts *)

Lemma baselines_foldl info (m : gmap Z Z) p :
  foldl (fun m r => <[riPartition r := CommittedOffset r]> m) m info !! p =
  match last (filter (fun r => riPartition r = p) info) with
  | Some r => Some (CommittedOffset r)
  | None => m !! p
  end.
Proof.
  revert m. induction info as [|r info IH]; intros m; [done|]. cbn [foldl]. rewrite IH.
  rewrite filter_cons. case_decide as E.
  - rewrite last_cons. destruct (last _); [done|]. subst. by rewrite lookup_insert_eq.
  - destruct (last _); [done|]. by rewrite lookup_insert_ne.
Qed.

(** The baseline installed for a partition is its last entry's. *)
Lemma baselines_lookup info p :
  baselines info !! p = CommittedOffset <$> last (filter (fun r => riPartition r = p) info).
Proof. unfold baselines. rewrite baselines_foldl, lookup_empty. by destruct (last _). Qed.

Lemma baselines_some info p c :
  baselines info !! p = Some c ->
  exists r, r ∈ info /\ riPartition r = p /\ CommittedOffset r = c.
Proof.
  rewrite baselines_lookup. intros (r & Hr & ->)%fmap_Some. exists r.
  apply last_Some_elem_of, list_elem_of_filter in Hr as [??]. auto.
Qed.

Lemma baselines_in info r : r ∈ info -> is_Some (baselines info !! riPartition r).
Proof.
  intros Hr. rewrite baselines_lookup. apply fmap_is_Some.
  destruct (last (filter _ info)) eqn:E; [eauto|].
  apply last_None in E. exfalso.
  assert (r ∈ filter (fun r' => riPartition r' = riPartition r) info)
    by (by apply list_elem_of_filter).
  rewrite E in H. by apply not_elem_of_nil in H.
Qed.

Lemma foreignTopic_none topic info :
  foreignTopic topic info = None <->
  Forall (fun r => TopicName r = EmptyString \/ TopicName r = topic) info.
Proof.
  induction info as [|r info IH]; simpl; [split; [constructor | done]|].
  rewrite Forall_cons, <- IH.
  repeat case_bool_decide; simpl; split; try done; try tauto.
Qed.
