(* ===== verification/Forward.v ===== *)
(** * Forward progress of the committer's map of trackers

    [mapForward A m m']: no tracker of [m] disappears, no baseline falls, and the
    trackers of the partitions in [A] do not fall back.  What a tick sends and
    what an acknowledged tick leaves behind, partition by partition. *)
From S2P Require Import Prelude Types RingBuffer Tracker Committer TrackerFacts Safety Monotone.
From S2P Require Import CommitterFacts.
From stdpp Require Import base gmap list.
Open Scope Z_scope.

Section Forward.
Context `{NX : Nexus} `{RT : GoRuntime} `{RTok : !GoRuntimeOk RT}.
Implicit Types (oc : Committer) (w : WorkItem) (m : gmap Z OffsetsTracker) (A : gset Z).

Definition mapForward A m m' : Prop :=
  forall p t, m !! p = Some t ->
    exists t', m' !! p = Some t' /\ CommittedPlusOne t <= CommittedPlusOne t' /\
               (p ∈ A -> noFurtherBack t t').

#[export] Instance mapForward_preorder A : PreOrder (mapForward A).
Proof.
  split.
  - intros m p t Ht. exists t. split_and!; [done | lia | intros _; by apply noFurtherBack_same].
  - intros m1 m2 m3 H12 H23 p t Ht. destruct (H12 p t Ht) as (t2 & Ht2 & Hc2 & Hf2).
    destruct (H23 p t2 Ht2) as (t3 & Ht3 & Hc3 & Hf3). exists t3. split_and!; [done | lia |].
    intros Hp. destruct (Hf2 Hp) as [_ H2], (Hf3 Hp) as [? H3]. split; [lia|].
    intros b Hb. destruct (H2 b Hb) as [?|Hx]; [left; lia | by apply H3].
Qed.

Lemma mapForward_insert A m p t t' :
  m !! p = Some t -> noFurtherBack t t' -> mapForward A m (<[p := t']> m).
Proof.
  intros Hp Hf q u Hu. destruct (decide (p = q)) as [->|Hne].
  - exists t'. rewrite lookup_insert_eq. rewrite Hp in Hu. injection Hu as <-.
    split_and!; [done | apply Hf | done].
  - exists u. rewrite lookup_insert_ne by done.
    split_and!; [done | lia | intros _; by apply noFurtherBack_same].
Qed.

Lemma mapForward_new A m p t' : m !! p = None -> mapForward A m (<[p := t']> m).
Proof.
  intros Hp q u Hu. exists u. rewrite lookup_insert_ne by congruence.
  split_and!; [done | lia | intros _; by apply noFurtherBack_same].
Qed.

Lemma processCommit_forward A oc w now :
  mapForward A (PartitionMap oc) (PartitionMap (processCommit oc w now)).
Proof.
  rewrite processCommit_PartitionMap. destruct (PartitionMap oc !! partitionOf w) as [t|] eqn:E.
  - eapply mapForward_insert; [done|].
    destruct (processItem_forward (observeOffset (offsetOf w) t) w now) as [Hc Hr].
    destruct (observeOffset_forward (offsetOf w) t) as [Hc' Hr']. split; [lia|].
    intros b Hb. destruct (Hr' b Hb) as [?|H]; [left; lia | by apply Hr].
  - by apply mapForward_new.
Qed.

Lemma flushGapBuffers_forward A oc order now :
  range_order (PartitionMap oc) order ->
  mapForward A (PartitionMap oc) (PartitionMap (flushGapBuffers oc order now)).
Proof.
  intros Ho p t Ht. rewrite flushGapBuffers_lookup, Ht by done. eexists. split; [done|].
  pose proof (flushTracker_forward (gapBufferSize oc) (gapBufferSize70Pct oc) now t) as H.
  split; [apply H | done].
Qed.

Lemma collectCommits_forward oc order now :
  range_order (PartitionMap oc) order ->
  mapForward (assigned oc) (PartitionMap oc) (PartitionMap (collectCommits oc order now).1).
Proof.
  intros Ho p t Ht. rewrite collectCommits_lookup, Ht by done. eexists. split; [done|].
  unfold collectAt. split; [by rewrite collectCommit_cpo|].
  intros Hp. rewrite bool_decide_eq_true_2 by done. apply collectCommit_forward.
Qed.

(** The messages a tick sends: at most one per partition, each the message of
    the partition's [Ready] item, of an assigned partition. *)
Lemma collectCommits_sent oc order now msg :
  range_order (PartitionMap oc) order ->
  msg ∈ (collectCommits oc order now).2 ->
  exists p t, p ∈ assigned oc /\ PartitionMap oc !! p = Some t /\
    (collectCommit true now t).2.2 = Some msg /\
    PartitionMap (collectCommits oc order now).1 !! p = Some (collectCommit true now t).1.
Proof.
  intros Ho Hm. destruct (collectCommits_msg oc order now msg Ho Hm) as (p & t & Ht & Hc).
  unfold collectAt in Hc. destruct (bool_decide (p ∈ assigned oc)) eqn:E.
  - apply bool_decide_eq_true_1 in E. exists p, t. split_and!; try done.
    rewrite collectCommits_lookup, Ht by done. unfold collectAt. simpl.
    by rewrite bool_decide_eq_true_2.
  - exfalso. unfold collectCommit in Hc. simpl in Hc. by destruct (discardOrphanedTracker t).
Qed.

(** Items stay in the tracker of their own partition. *)
Definition homed (p : Z) (t : OffsetsTracker) : Prop :=
  Forall (fun c => cPartition c = p) (cores (trackerItems t)).

Lemma conserves_homed p t arrived t' out :
  conserves t arrived t' out -> homed p t -> Forall (fun c => cPartition c = p) (cores arrived) ->
  homed p t'.
Proof.
  intros Hc Ht Ha. apply Forall_forall. intros c Hin.
  assert (Hin' : c ∈ cores (trackerItems t') ++ cores out) by (apply elem_of_app; by left).
  apply (elem_of_submseteq _ _ _ Hin') in Hc. revert c Hc Hin Hin'.
  intros c Hc _ _. revert c Hc. apply Forall_forall. by apply Forall_app.
Qed.

Lemma collectCommit_partition p now t msg :
  homed p t -> (collectCommit true now t).2.2 = Some msg -> Partition msg = p.
Proof.
  intros Hh Hm. pose proof (collectCommit_conserves true now t) as Hc.
  destruct (collectCommit_forward now t) as [_ Hf].
  destruct (Hf msg (CommittedPlusOne t) Hm ltac:(by left)) as (_ & w & Hw & <-).
  destruct (collectCommit true now t) as [t' [out mo]]. simpl in *.
  pose proof (conserves_homed _ _ _ _ _ Hc Hh ltac:(constructor)) as Hh'.
  unfold homed, trackerItems in Hh'. rewrite Hw in Hh'.
  by apply Forall_cons in Hh' as [? _].
Qed.

Lemma collectCommits_nodup oc order now :
  range_order (PartitionMap oc) order -> trackers_all homed oc ->
  NoDup (map Partition (collectCommits oc order now).2).
Proof.
  intros Ho Hh. rewrite collectCommits_msgs by done. destruct Ho as [Hd Hin].
  set (f := fun p => t ← PartitionMap oc !! p; (collectAt oc now p t).2.2).
  assert (Hf : forall p msg, f p = Some msg -> Partition msg = p).
  { unfold f. intros p msg. destruct (PartitionMap oc !! p) as [t|] eqn:Et; [|done]. simpl.
    unfold collectAt. destruct (bool_decide _).
    - apply collectCommit_partition. by apply (Hh p).
    - unfold collectCommit. simpl. by destruct (discardOrphanedTracker t). }
  clearbody f. clear Hin. induction Hd as [|p order Hni Hd IH]; simpl; [constructor|].
  destruct (f p) as [msg|] eqn:E; [|by apply IH].
  simpl. constructor; [|by apply IH].
  intros (m' & Hm & Hin)%list_elem_of_fmap. apply list_elem_of_omap in Hin as (q & Hq & Hfq).
  apply Hf in E, Hfq. congruence.
Qed.

End Forward.
