(* ===== verification/RangeOrder.v ===== *)
(** * What the order of Go's map iteration can change

    [flushGapBuffers], [CommitOffsets] and [ResetCommittedOffsets] range over maps,
    in an order the runtime chooses anew each time.  [committerEquiv] relates
    committers that differ at most in the order in which work items were handed to
    the metrics collector and in the buckets of the statistics window; every
    operation respects it, whatever orders the two runs use.  The buckets do depend on
    the order ([window_sees_order]): a sample older than the newest one seen counts in
    the newest bucket. *)
From S2P Require Import Prelude Types RingBuffer Tracker Committer TrackerFacts Safety Monotone.
From S2P Require Import CommitterFacts Forward.
From stdpp Require Import base gmap list strings.
Open Scope Z_scope.
Open Scope go_scope.

Section RangeOrder.
Context `{NX : Nexus} `{RT : GoRuntime} `{RTok : !GoRuntimeOk RT}.
Implicit Types (oc : Committer) (w : WorkItem) (ws : list WorkItem).

(** Of the statistics window: its shape, its newest epoch and its total. *)
Definition windowFrame (rb : metricsRingBuffer) : Z * Z * Z * Z :=
  (bucketCount rb, bucketSeconds rb, lastEpoch rb, rbTotalProcessed rb).

Record committerEquiv (oc oc' : Committer) : Prop := {
  ce_commitsIn : commitsIn oc = commitsIn oc';
  ce_trackers : PartitionMap oc = PartitionMap oc';
  ce_drained : drained oc = drained oc';
  ce_size : gapBufferSize oc = gapBufferSize oc';
  ce_size70 : gapBufferSize70Pct oc = gapBufferSize70Pct oc';
  ce_assigned : assigned oc = assigned oc';
  ce_total : totalProcessed oc = totalProcessed oc';
  ce_rebalance : lastRebalanceTime oc = lastRebalanceTime oc';
  ce_collected : collected oc ≡ₚ collected oc';
  ce_window : windowFrame (metricsBuffer oc) = windowFrame (metricsBuffer oc')
}.

#[export] Instance committerEquiv_equivalence : Equivalence committerEquiv.
Proof.
  split.
  - by intros oc.
  - intros oc oc' []. by split.
  - intros oc1 oc2 oc3 [] []. split; by etrans.
Qed.

(** ** Single steps *)

Lemma returnAll_total oc ws :
  totalProcessed (returnAll oc ws) = Nat.iter (length ws) (fun n => n +64 1) (totalProcessed oc).
Proof.
  unfold returnAll. revert oc. induction ws as [|w ws IH]; intros oc; [done|].
  cbn [foldl]. rewrite IH. cbn [returnMessageAndCollectMetrics totalProcessed length].
  by rewrite Nat.iter_succ_r.
Qed.

(** A sample raises the newest epoch to its own, and the total by one. *)
Definition frameRecord (f : Z * Z * Z * Z) w : Z * Z * Z * Z :=
  let '(n, secs, epoch, total) := f in
  let m := wiMetrics w in
  (n, secs, Z.max epoch (Z.quot (unix (ProcessStartTime m + ProcessDuration m)) secs), total +64 1).

Lemma record_frame rb w a b c :
  windowFrame (record rb (ProcessStartTime (wiMetrics w) + ProcessDuration (wiMetrics w)) a b c) =
  frameRecord (windowFrame rb) w.
Proof.
  unfold windowFrame, record. set (e := Z.quot _ _). simpl. fold e. rewrite Z.gtb_ltb.
  destruct (Z.ltb_spec (lastEpoch rb) e).
  - replace (negb (e =? lastEpoch rb)) with true by (by destruct (Z.eqb_spec e (lastEpoch rb)); [lia|]). simpl.
    by rewrite Z.max_r by lia.
  - rewrite andb_false_r. by rewrite Z.max_l by lia.
Qed.

Lemma returnAll_window oc ws :
  windowFrame (metricsBuffer (returnAll oc ws)) = foldl frameRecord (windowFrame (metricsBuffer oc)) ws.
Proof.
  unfold returnAll. revert oc. induction ws as [|w ws IH]; intros oc; [done|]. cbn [foldl]. rewrite IH. f_equal.
  apply record_frame.
Qed.

Lemma frameRecord_permuted f ws ws' : ws ≡ₚ ws' -> foldl frameRecord f ws = foldl frameRecord f ws'.
Proof.
  intros Hp. revert f. induction Hp as [|w ws ws' _ IH|w w' ws|ws1 ws2 ws3 _ IH1 _ IH2]; intros f; cbn [foldl]; auto.
  - f_equal. destruct f as [[[n secs] epoch] total]. simpl. do 2 f_equal. lia.
  - by rewrite IH1.
Qed.

#[export] Instance returnAll_proper : Proper (committerEquiv ==> (≡ₚ) ==> committerEquiv) returnAll.
Proof.
  intros oc oc' [] ws ws' Hws.
  pose proof (returnAll_frame oc ws) as (? & ? & ? & ? & ? & ? & ?).
  pose proof (returnAll_frame oc' ws') as (? & ? & ? & ? & ? & ? & ?).
  split; try congruence.
  - rewrite !returnAll_total, (Permutation_length Hws). congruence.
  - rewrite !returnAll_collected. by f_equiv.
  - rewrite !returnAll_window, (frameRecord_permuted _ ws ws' Hws). congruence.
Qed.

#[export] Instance setPartitionMap_proper : Proper ((=) ==> committerEquiv ==> committerEquiv) setPartitionMap.
Proof. intros m ? <- oc oc' []. by split. Qed.

#[export] Instance setDrained_proper : Proper ((=) ==> committerEquiv ==> committerEquiv) setDrained.
Proof. intros d ? <- oc oc' []. by split. Qed.

Lemma putTracker_equiv oc oc' p t out out' :
  committerEquiv oc oc' -> out ≡ₚ out' -> committerEquiv (putTracker oc p (t, out)) (putTracker oc' p (t, out')).
Proof.
  intros H Ho. unfold putTracker. cbn [fst snd]. rewrite (ce_trackers _ _ H), Ho. by rewrite H.
Qed.

Lemma setPartitionMap_returnAll m oc ws :
  setPartitionMap m (returnAll oc ws) = returnAll (setPartitionMap m oc) ws.
Proof.
  unfold returnAll. revert oc. induction ws as [|w ws IH]; intros oc; [done|]. cbn [foldl]. by rewrite IH.
Qed.

Lemma putTracker_twice oc p t o q t' o' :
  putTracker (putTracker oc p (t, o)) q (t', o') =
  returnAll (setPartitionMap (<[q := t']> (<[p := t]> (PartitionMap oc))) oc) (o ++ o').
Proof.
  unfold putTracker. cbn [fst snd]. rewrite returnAll_PartitionMap, setPartitionMap_returnAll.
  unfold returnAll. by rewrite foldl_app.
Qed.

(** Storing the trackers of two partitions commutes. *)
Lemma putTracker_swap oc p q r1 r2 :
  p <> q -> committerEquiv (putTracker (putTracker oc p r1) q r2) (putTracker (putTracker oc q r2) p r1).
Proof.
  intros Hne. destruct r1 as [t1 o1], r2 as [t2 o2]. rewrite !putTracker_twice, insert_insert_ne by done.
  by rewrite (Permutation_app_comm o1 o2).
Qed.

(** A loop body that reads and stores one partition's tracker: two iterations for
    different partitions commute, and a whole loop may run in any order. *)
Section Loop.
Context {A : Type}.
Variables (part : A -> Z) (body : option OffsetsTracker -> A -> option (OffsetsTracker * list WorkItem)).

Definition loopBody (oc : Committer) (a : A) : Committer :=
  match body (PartitionMap oc !! part a) a with
  | Some r => putTracker oc (part a) r
  | None => oc
  end.

Lemma loopBody_equiv oc oc' a : committerEquiv oc oc' -> committerEquiv (loopBody oc a) (loopBody oc' a).
Proof.
  intros H. unfold loopBody. rewrite (ce_trackers _ _ H).
  destruct (body _ a) as [[t out]|]; [|done]. by apply putTracker_equiv.
Qed.

Lemma loopBody_lookup_ne oc a p : p <> part a -> PartitionMap (loopBody oc a) !! p = PartitionMap oc !! p.
Proof.
  intros Hne. unfold loopBody. destruct (body _ a); [|done]. by rewrite putTracker_PartitionMap, lookup_insert_ne.
Qed.

Lemma loopBody_swap oc a b :
  part a <> part b -> committerEquiv (loopBody (loopBody oc a) b) (loopBody (loopBody oc b) a).
Proof.
  intros Hne. unfold loopBody at 1 3. rewrite !loopBody_lookup_ne by done. unfold loopBody.
  destruct (body (PartitionMap oc !! part a) a), (body (PartitionMap oc !! part b) b); try done.
  by apply putTracker_swap.
Qed.

Lemma loop_equiv l oc oc' : committerEquiv oc oc' -> committerEquiv (foldl loopBody oc l) (foldl loopBody oc' l).
Proof. revert oc oc'. induction l as [|a l IH]; intros oc oc' H; [done|]. by apply IH, loopBody_equiv. Qed.

Lemma loop_permuted l l' oc :
  l ≡ₚ l' -> NoDup (map part l) -> committerEquiv (foldl loopBody oc l) (foldl loopBody oc l').
Proof.
  intros Hp. revert oc. induction Hp as [|a l l' Hp IH|a b l|l1 l2 l3 H1 IH1 H2 IH2]; intros oc Hnd; cbn [foldl].
  - done.
  - apply IH. by apply NoDup_cons in Hnd as [_ ?].
  - apply loop_equiv, loopBody_swap. cbn in Hnd. apply NoDup_cons in Hnd as [Hn _].
    intros E. apply Hn. rewrite E. by left.
  - etrans; [by apply IH1|]. apply IH2. by rewrite <- H1.
Qed.
End Loop.

(** ** The loops of the committer *)

(** The body of the acknowledging loop. *)
Definition ackBody (t : option OffsetsTracker) (m : Message) : option (OffsetsTracker * list WorkItem) :=
  ackCommit (Offset m) <$> t.

Lemma ack_loop oc ms : ackCommits oc ms = foldl (loopBody Partition ackBody) oc ms.
Proof.
  unfold ackCommits. revert oc. induction ms as [|m ms IH]; intros oc; [done|]. cbn [foldl]. rewrite IH. f_equal.
  unfold ackOne, loopBody, ackBody. by destruct (PartitionMap oc !! Partition m).
Qed.

Lemma ackCommits_permuted oc oc' ms ms' :
  committerEquiv oc oc' -> ms ≡ₚ ms' -> NoDup (map Partition ms) ->
  committerEquiv (ackCommits oc ms) (ackCommits oc' ms').
Proof.
  intros H Hp Hnd. rewrite !ack_loop.
  etrans; [by apply loop_permuted | by apply loop_equiv].
Qed.

(** The body of [ResetCommittedOffsets]. *)
Definition resetBody (size : Z) (t : option OffsetsTracker) (po : Z * Z) : option (OffsetsTracker * list WorkItem) :=
  Some (match t with
        | None => (newResetTracker size po.2, [])
        | Some t => resetTracker po.2 t
        end).

Lemma reset_loop oc pos :
  ResetCommittedOffsets oc pos = foldl (loopBody fst (resetBody (gapBufferSize oc))) oc pos.
Proof.
  unfold ResetCommittedOffsets. remember (gapBufferSize oc) as size eqn:E. revert oc E.
  induction pos as [|[p c] pos IH]; intros oc E; [done|]. cbn [foldl].
  assert (Hs : resetOne oc (p, c) = loopBody fst (resetBody size) oc (p, c)).
  { unfold resetOne, loopBody, resetBody. cbn [fst snd]. rewrite <- E. by destruct (PartitionMap oc !! p). }
  rewrite <- Hs. apply IH. rewrite E. unfold resetOne.
  destruct (PartitionMap oc !! p); unfold putTracker; by rewrite returnAll_gapBufferSize.
Qed.

Lemma reset_permuted oc oc' pos pos' :
  committerEquiv oc oc' -> pos ≡ₚ pos' -> NoDup (map fst pos) ->
  committerEquiv (ResetCommittedOffsets oc pos) (ResetCommittedOffsets oc' pos').
Proof.
  intros H Hp Hnd. rewrite !reset_loop, <- (ce_size _ _ H).
  etrans; [by apply loop_permuted | by apply loop_equiv].
Qed.

Lemma range_orders_permuted {V} (m : gmap Z V) o o' : range_order m o -> range_order m o' -> o ≡ₚ o'.
Proof. intros [Hd Hi] [Hd' Hi']. apply NoDup_Permutation; [done..|]. intros k. by rewrite Hi, Hi'. Qed.

(** The outputs of two visits are a permutation. *)
Lemma visit_permuted {V O} (f : Z -> V -> V * O) m o o' :
  range_order m o -> range_order m o' ->
  (visit f o m).1 = (visit f o' m).1 /\ (visit f o m).2 ≡ₚ (visit f o' m).2.
Proof.
  intros Ho Ho'. split; [by rewrite !visit_range|].
  rewrite !visit_out by (apply Ho || apply Ho'). by rewrite (range_orders_permuted m o o').
Qed.

Lemma flush_equiv oc oc' o o' now :
  committerEquiv oc oc' -> range_order (PartitionMap oc) o -> range_order (PartitionMap oc) o' ->
  committerEquiv (flushGapBuffers oc o now) (flushGapBuffers oc' o' now).
Proof.
  intros H Ho Ho'. unfold flushGapBuffers.
  rewrite <- (ce_trackers _ _ H), <- (ce_size _ _ H), <- (ce_size70 _ _ H).
  pose proof (visit_permuted (fun _ => flushTracker (gapBufferSize oc) (gapBufferSize70Pct oc) now)
    (PartitionMap oc) o o' Ho Ho') as [Hm Hout].
  destruct (visit _ o _) as [m outs], (visit _ o' _) as [m' outs']. cbn [fst snd] in *. subst m'.
  by rewrite H, Hout.
Qed.

Lemma collect_equiv oc oc' o o' now :
  committerEquiv oc oc' -> range_order (PartitionMap oc) o -> range_order (PartitionMap oc) o' ->
  committerEquiv (collectCommits oc o now).1 (collectCommits oc' o' now).1 /\
  (collectCommits oc o now).2 ≡ₚ (collectCommits oc' o' now).2.
Proof.
  intros H Ho Ho'. unfold collectCommits. rewrite <- (ce_trackers _ _ H), <- (ce_assigned _ _ H).
  pose proof (visit_permuted (fun p => collectCommit (bool_decide (p ∈ assigned oc)) now)
    (PartitionMap oc) o o' Ho Ho') as [Hm Hout].
  destruct (visit _ o _) as [m outs], (visit _ o' _) as [m' outs']. cbn [fst snd] in *. subst m'.
  split; [by rewrite H, Hout | by rewrite Hout].
Qed.

Lemma homed_flush oc o now : trackers_all homed oc -> trackers_all homed (flushGapBuffers oc o now).
Proof.
  intros Hh. apply trackers_all_flush; [done|]. intros p t size size70 Ht.
  pose proof (flushTracker_conserves size size70 now t) as Hc. destruct (flushTracker size size70 now t) as [t' out].
  by eapply conserves_homed; [exact Hc | | constructor].
Qed.

Lemma ingestEnd_equiv oc oc' o o' now :
  committerEquiv oc oc' -> range_order (PartitionMap oc) o -> range_order (PartitionMap oc) o' ->
  committerEquiv (ingestEnd oc o now) (ingestEnd oc' o' now).
Proof.
  intros H Ho Ho'. pose proof (flush_equiv oc oc' o o' now H Ho Ho') as Hf. unfold ingestEnd. cbv zeta.
  rewrite <- (ce_commitsIn _ _ Hf), <- (ce_drained _ _ Hf). destruct (_ =? 0); [|done].
  destruct (trySend _ _); [by rewrite Hf | done].
Qed.

Lemma CommitOffsets_equiv oc oc' guard broker o1 o1' o2 o2' now oc1 sent1 e1 oc2 sent2 e2 :
  committerEquiv oc oc' -> trackers_all homed oc ->
  (forall l l', l ≡ₚ l' -> broker l = broker l') ->
  range_order (PartitionMap oc) o1 -> range_order (PartitionMap oc) o1' ->
  range_order (PartitionMap oc) o2 -> range_order (PartitionMap oc) o2' ->
  CommitOffsets oc guard broker o1 o2 now = (oc1, sent1, e1) ->
  CommitOffsets oc' guard broker o1' o2' now = (oc2, sent2, e2) ->
  committerEquiv oc1 oc2 /\ sent1 ≡ₚ sent2 /\ e1 = e2.
Proof.
  intros H Hh Hb Ho1 Ho1' Ho2 Ho2'. unfold CommitOffsets.
  destruct guard; cbn [negb]; [|by intros [= <- <- <-] [= <- <- <-]]. cbv zeta.
  pose proof (flush_equiv oc oc' o1 o1' now H Ho1 Ho1') as Hf.
  assert (Hr2 : range_order (PartitionMap (flushGapBuffers oc o1 now)) o2) by (by apply flushGapBuffers_range).
  assert (Hr2' : range_order (PartitionMap (flushGapBuffers oc o1 now)) o2') by (by apply flushGapBuffers_range).
  destruct (collect_equiv _ _ o2 o2' now Hf Hr2 Hr2') as [Hc Hm].
  pose proof (collectCommits_nodup _ o2 now Hr2 (homed_flush oc o1 now Hh)) as Hnd.
  destruct (collectCommits (flushGapBuffers oc o1 now) o2 now) as [c1 m1],
    (collectCommits (flushGapBuffers oc' o1' now) o2' now) as [c2 m2]. cbn [fst snd] in *.
  destruct m1 as [|x m1]; [apply Permutation_nil in Hm; subst m2; by intros [= <- <- <-] [= <- <- <-]|].
  destruct m2 as [|y m2]; [exfalso; symmetry in Hm; by apply Permutation_nil_cons in Hm|].
  rewrite <- (Hb _ _ Hm). destruct (broker (x :: m1)); intros [= <- <- <-] [= <- <- <-]; [done|].
  split_and!; [apply (ackCommits_permuted c1 c2 (x :: m1) (y :: m2)); [exact Hc | exact Hm | exact Hnd] | done | done].
Qed.

(** ** Properties *)

(** C16: the runtime's choice of iteration order does not reach the commits.  From
    equivalent committers whose trackers hold only items of their own partition, the end of an
    ingest batch, a commit tick (flush, collect, broker call, acknowledgement) and the
    installation of baselines give equivalent committers for any two choices of the
    orders of their [range] loops: the same trackers, ownership, counters and queue,
    the same positions sent to the broker up to order, the same error, the same
    work items handed to the collector up to order, and a statistics window of the same
    shape, newest epoch and total.  How the window's samples are spread over its buckets
    is not claimed, and may differ.  The broker's answer must not
    depend on the order of the positions in the request. *)
Theorem range_order_irrelevant oc oc' now :
  committerEquiv oc oc' -> trackers_all homed oc ->
  (forall o o', range_order (PartitionMap oc) o -> range_order (PartitionMap oc) o' ->
     committerEquiv (ingestEnd oc o now) (ingestEnd oc' o' now)) /\
  (forall guard broker o1 o1' o2 o2' oc1 sent1 e1 oc2 sent2 e2,
     (forall l l', l ≡ₚ l' -> broker l = broker l') ->
     range_order (PartitionMap oc) o1 -> range_order (PartitionMap oc) o1' ->
     range_order (PartitionMap oc) o2 -> range_order (PartitionMap oc) o2' ->
     CommitOffsets oc guard broker o1 o2 now = (oc1, sent1, e1) ->
     CommitOffsets oc' guard broker o1' o2' now = (oc2, sent2, e2) ->
     committerEquiv oc1 oc2 /\ sent1 ≡ₚ sent2 /\ e1 = e2) /\
  (forall pos pos', pos ≡ₚ pos' -> NoDup (map fst pos) ->
     committerEquiv (ResetCommittedOffsets oc pos) (ResetCommittedOffsets oc' pos')).
Proof.
  intros H Hh. split_and!.
  - intros o o'. by apply ingestEnd_equiv.
  - intros guard broker o1 o1' o2 o2' oc1 sent1 e1 oc2 sent2 e2 Hb Ho1 Ho1' Ho2 Ho2'.
    by apply (CommitOffsets_equiv oc oc' guard broker o1 o1' o2 o2').
  - intros pos pos'. by apply reset_permuted.
Qed.
End RangeOrder.

(** Two partitions with a record each, committed in both orders. *)
Definition soleRecord (p ptr : Z) : WorkItem :=
  mkWorkItem ptr (mkMessage 0 p 5 EmptyString None) (mkMetrics 0 0 p 5 0 0 0 0 0 0) None (-1) true 0.

Definition twoParts : Committer :=
  let oc := MarkPartitionAssigned (MarkPartitionAssigned (NewCommitter 8 100 0) 0 1) 1 1 in
  processCommit (processCommit (ResetCommittedOffsets oc [(0, 5); (1, 5)]) (soleRecord 0 10) 2) (soleRecord 1 11) 2.

Definition tickIn (o : list Z) : Committer * list Message * option CommitError :=
  CommitOffsets twoParts true (fun _ => false) o o 3.

Lemma twoParts_other p : p <> 0 -> p <> 1 -> PartitionMap twoParts !! p = None.
Proof.
  intros H0 H1. unfold twoParts. rewrite processCommit_PartitionMap, lookup_insert_ne by done.
  rewrite processCommit_PartitionMap, lookup_insert_ne by done.
  rewrite ResetCommittedOffsets_lookup_ne; [apply lookup_empty|]. cbn. rewrite !elem_of_cons, elem_of_nil. by intros [?|[?|?]].
Qed.

Lemma twoParts_homed : trackers_all homed twoParts.
Proof.
  intros p t Ht. destruct (decide (p = 0)) as [-> | H0]; [vm_compute in Ht; injection Ht as <-; vm_compute; repeat constructor|].
  destruct (decide (p = 1)) as [-> | H1]; [vm_compute in Ht; injection Ht as <-; vm_compute; repeat constructor|].
  by rewrite twoParts_other in Ht.
Qed.

Lemma twoParts_range o : o ≡ₚ [0; 1] -> range_order (PartitionMap twoParts) o.
Proof.
  intros Ho. split; [rewrite Ho; by apply (bool_decide_unpack (NoDup [0; 1]))|]. intros p. rewrite Ho.
  rewrite !elem_of_cons, elem_of_nil. split.
  - intros [-> | [-> | []]]; eexists; vm_compute; reflexivity.
  - intros [t Ht]. destruct (decide (p = 0)); [by left|]. destruct (decide (p = 1)); [by right; left|].
    exfalso. by rewrite twoParts_other in Ht.
Qed.

Lemma tickIn_eq o : CommitOffsets twoParts true (fun _ => false) o o 3 = ((tickIn o).1.1, (tickIn o).1.2, (tickIn o).2).
Proof. unfold tickIn. by destruct (CommitOffsets _ _ _ _ _ _) as [[? ?] ?]. Qed.

Lemma range_order_irrelevant_witness :
  map Partition (tickIn [0; 1]).1.2 = [0; 1] /\ map Partition (tickIn [1; 0]).1.2 = [1; 0] /\
  PartitionMap (tickIn [0; 1]).1.1 = PartitionMap (tickIn [1; 0]).1.1.
Proof.
  split; [vm_compute; reflexivity|]. split; [vm_compute; reflexivity|].
  pose proof (twoParts_range [0; 1] (Permutation_refl _)) as H01.
  pose proof (twoParts_range [1; 0] (perm_swap _ _ _)) as H10.
  destruct (range_order_irrelevant twoParts twoParts 3 (reflexivity twoParts) twoParts_homed) as (_ & H & _).
  pose proof (H true (fun _ => false) [0; 1] [1; 0] [0; 1] [1; 0] _ _ _ _ _ _ (fun _ _ _ => eq_refl)
                H01 H10 H01 H10 (tickIn_eq [0; 1]) (tickIn_eq [1; 0])) as [He _].
  exact (ce_trackers _ _ He).
Defined.

(** The buckets of the window see the order: the record of partition 0 was processed two
    seconds before that of partition 1, and counts in its own bucket only if it is
    visited first. *)
Definition processedAt (seconds p ptr : Z) : WorkItem :=
  mkWorkItem ptr (mkMessage 0 p 5 EmptyString None) (mkMetrics 0 0 p 5 0 0 0 (seconds * second) 0 0) None (-1) true 0.

Definition apart : Committer :=
  let oc := MarkPartitionAssigned (MarkPartitionAssigned (NewCommitter 8 100 0) 0 1) 1 1 in
  processCommit (processCommit (ResetCommittedOffsets oc [(0, 5); (1, 5)]) (processedAt 1 0 10) 2) (processedAt 3 1 11) 2.

Definition seriesAfter (o : list Z) : list Z :=
  ThroughputPerBucket (windowData (metricsBuffer (CommitOffsets apart true (fun _ => false) o o 3).1.1)).

Lemma window_sees_order : drop 12 (seriesAfter [0; 1]) = [1; 0; 1] /\ drop 12 (seriesAfter [1; 0]) = [0; 0; 2].
Proof. split; vm_compute; reflexivity. Qed.
