(* ===== verification/World.v ===== *)
(** * The running consumer: goroutines, rebalances and the broker

    A [World] is the committer, the ingest goroutine's program point, the
    polling boundary, the work items between the poll and the committer, the
    rebalance handler in progress, and the broker's side: who owns a partition
    and the position committed for it.

    A step is one atomic action of one goroutine:
    - the polling loop stamps a record and hands it to the pipeline
      ([PollStep]); the pipeline completes any one in-flight item
      ([CompleteStep]): the demultiplexer's scheduling is unconstrained here;
    - the ingest loop receives an item outside the mutex, then runs a batch
      under it ([ReceiveStep] to [BatchEnd]);
    - a commit tick, of the ticker or of a drain ([TickStep]), runs while no
      batch holds the mutex;
    - the rebalance handler makes its next port call ([HandlerStep]); the
      polling loop is blocked in the same context meanwhile;
    - while a partition is not owned, other members of the group process its
      records and commit its position ([OtherCommit]).

    [R p] are the records of partition [p]'s log.  [wDone] are the records whose
    processing has completed somewhere. *)
From S2P Require Import Prelude Types RingBuffer Tracker Committer Prev Subscription.
From stdpp Require Import base gmap list relations.
Open Scope Z_scope.

Section World.
Context `{NX : Nexus} `{RT : GoRuntime}.
Variable R : Z -> Z -> Prop.
(** Whether the adapter supplies the broker's position at each assign, rather
    than a position at or below it such as the unknown-baseline sentinel. *)
Variable exact : Prop.

Inductive IngestState := IngestIdle | Received (w : WorkItem) | InBatch (n : nat).

Record World := mkWorld {
  wOc : Committer;
  wIngest : IngestState;
  wSub : Subscription;
  wPrev : gmap Z Z;
  wFetch : gmap Z Z;
  wPolled : list WorkItem;
  wInflight : list WorkItem;
  wHandler : list PortCall;
  wOwned : gset Z;
  wBroker : Z -> Z;
  wDone : Z -> Z -> Prop
}.

Definition setOc (oc : Committer) (w : World) : World :=
  mkWorld oc (wIngest w) (wSub w) (wPrev w) (wFetch w) (wPolled w) (wInflight w) (wHandler w)
    (wOwned w) (wBroker w) (wDone w).

Definition setIngest (i : IngestState) (w : World) : World :=
  mkWorld (wOc w) i (wSub w) (wPrev w) (wFetch w) (wPolled w) (wInflight w) (wHandler w)
    (wOwned w) (wBroker w) (wDone w).

Definition setHandler (h : list PortCall) (w : World) : World :=
  mkWorld (wOc w) (wIngest w) (wSub w) (wPrev w) (wFetch w) (wPolled w) (wInflight w) h
    (wOwned w) (wBroker w) (wDone w).

Definition setPrev (m : gmap Z Z) (w : World) : World :=
  mkWorld (wOc w) (wIngest w) (wSub w) m (wFetch w) (wPolled w) (wInflight w) (wHandler w)
    (wOwned w) (wBroker w) (wDone w).

Definition setOwnership (owned : gset Z) (fetch : gmap Z Z) (w : World) : World :=
  mkWorld (wOc w) (wIngest w) (wSub w) (wPrev w) fetch (wPolled w) (wInflight w) (wHandler w)
    owned (wBroker w) (wDone w).

Definition setBroker (b : Z -> Z) (w : World) : World :=
  mkWorld (wOc w) (wIngest w) (wSub w) (wPrev w) (wFetch w) (wPolled w) (wInflight w) (wHandler w)
    (wOwned w) b (wDone w).

Definition mutexFree (w : World) : Prop :=
  match wIngest w with InBatch _ => False | _ => True end.

Definition update (f : Z -> Z) (k v : Z) : Z -> Z := fun x => if decide (x = k) then v else f x.

(** The broker stores the position after each committed record. *)
Definition applyCommits (b : Z -> Z) (ms : list Message) : Z -> Z :=
  foldl (fun b m => update b (Partition m) (Offset m + 1)) b ms.

(** No record of the log lies in [lo, hi). *)
Definition noRecord (p lo hi : Z) : Prop := forall r, R p r -> lo <= r -> r < hi -> False.

Definition complete (done : Z -> Z -> Prop) (w : WorkItem) : Z -> Z -> Prop :=
  fun p r => done p r \/ (p = partitionOf w /\ r = offsetOf w).

(** Where the broker client starts to read a newly acknowledged partition: at
    the committed position, past offsets that hold no record. *)
Definition startsAt (b : Z -> Z) (ps : list Z) (starts : gmap Z Z) : Prop :=
  forall p f, starts !! p = Some f -> p ∈ ps /\ b p <= f /\ noRecord p (b p) f.

(** What a rebalance event may contain: the group grants a partition to one
    member at a time, and the adapter reports its committed position. *)
Definition eventOk (w : World) (t : RebalanceType) (info : list RebalanceInfo) : Prop :=
  match t with
  | Assign =>
      info <> [] /\
      forall r, r ∈ info ->
        (riPartition r ∉ wOwned w) /\
        CommittedOffset r <= wBroker w (riPartition r) /\
        (exact -> CommittedOffset r = wBroker w (riPartition r))
  | _ => True
  end.

Definition granted (w : World) (t : RebalanceType) (info : list RebalanceInfo) : gset Z :=
  match t with Assign => list_to_set (map riPartition info) ∪ wOwned w | _ => wOwned w end.

(** One port call of the rebalance handler.  A drain has no effect of its own:
    what it waits for and what it commits are the steps of the workers, of the
    ingest loop and of the committer ([CompleteStep], [BatchEnd], [DrainStep],
    [TickStep]), which may happen before the handler goes on, or not, when the
    drain times out. *)
Inductive execCall (w : World) : PortCall -> World -> Prop :=
| ExecTrip reason : execCall w (CallTriggerEmergencyShutdown reason) w
| ExecResetPrev ps :
    execCall w (CallResetPrevOffsets ps) (setPrev (Reset (wPrev w) ps) w)
| ExecResetCommitted m pos :
    mutexFree w -> pos ≡ₚ map_to_list m ->
    execCall w (CallResetCommittedOffsets m) (setOc (ResetCommittedOffsets (wOc w) pos) w)
| ExecMarkAssigned p now :
    mutexFree w ->
    execCall w (CallMarkPartitionAssigned p) (setOc (MarkPartitionAssigned (wOc w) p now) w)
| ExecMarkRevoked p now :
    mutexFree w ->
    execCall w (CallMarkPartitionRevoked p) (setOc (MarkPartitionRevoked (wOc w) p now) w)
| ExecDrain : execCall w CallDrain w
| ExecAckAssign ps starts :
    startsAt (wBroker w) ps starts ->
    execCall w (CallAckRebalance Assign ps) (setOwnership (wOwned w) (starts ∪ wFetch w) w)
| ExecAckRevoke ps :
    execCall w (CallAckRebalance Revoke ps)
      (setOwnership (wOwned w ∖ list_to_set ps) (filter (fun kv => kv.1 ∉ ps) (wFetch w)) w).

(** The outcome of a tick at the broker: all of an acknowledged commit, any
    part of a failed one. *)
Definition brokerApplied (err : option CommitError) (sent applied : list Message) : Prop :=
  match err with
  | None => applied = sent
  | Some _ => applied `sublist_of` sent
  end.

Inductive step (w : World) : World -> Prop :=
| PollStep item f prev' :
    wHandler w = [] ->
    wFetch w !! partitionOf item = Some f -> f <= offsetOf item ->
    noRecord (partitionOf item) f (offsetOf item) ->
    in_int64 (offsetOf item + 1) ->
    ptr item ∉ map ptr (wPolled w) ->
    GetPrevious (wPrev w) (partitionOf item) (offsetOf item) =
      (prev', (PreviousOffset item, First item, None)) ->
    step w (mkWorld (wOc w) (wIngest w) (wSub w) prev'
              (<[partitionOf item := offsetOf item + 1]> (wFetch w))
              (item :: wPolled w) (item :: wInflight w) (wHandler w)
              (wOwned w) (wBroker w) (wDone w))
| CompleteStep item item' rest oc' :
    wInflight w ≡ₚ item :: rest -> core item' = core item ->
    CollectAndCommit (wOc w) item' = Some oc' ->
    step w (mkWorld oc' (wIngest w) (wSub w) (wPrev w) (wFetch w) (wPolled w) rest (wHandler w)
              (wOwned w) (wBroker w) (complete (wDone w) item))
| ReceiveStep item c :
    wIngest w = IngestIdle -> tryRecv (commitsIn (wOc w)) = Some (item, c) ->
    step w (setIngest (Received item) (setOc (setCommitsIn c (wOc w)) w))
| BatchStart item now :
    wIngest w = Received item ->
    step w (setIngest (InBatch 1) (setOc (processCommit (wOc w) item now) w))
| BatchNext n now oc' :
    wIngest w = InBatch n -> (n < readBatchSize)%nat -> ingestNext (wOc w) now = Some oc' ->
    step w (setIngest (InBatch (S n)) (setOc oc' w))
| BatchEnd n order now :
    wIngest w = InBatch n -> n = readBatchSize \/ tryRecv (commitsIn (wOc w)) = None ->
    range_order (PartitionMap (wOc w)) order ->
    step w (setIngest IngestIdle (setOc (ingestEnd (wOc w) order now) w))
| TickStep guard broker order1 order2 now oc' sent applied err :
    mutexFree w ->
    range_order (PartitionMap (wOc w)) order1 -> range_order (PartitionMap (wOc w)) order2 ->
    CommitOffsets (wOc w) guard broker order1 order2 now = (oc', sent, err) ->
    brokerApplied err sent applied ->
    step w (setBroker (applyCommits (wBroker w) applied) (setOc oc' w))
| DrainStep : step w (setOc (clearDrained (wOc w)) w)
| RebalanceStart t info ackErr s' calls err :
    wHandler w = [] -> eventOk w t info ->
    HandleRebalance (wSub w) t info ackErr = (s', calls, err) ->
    step w (mkWorld (wOc w) (wIngest w) s' (wPrev w) (wFetch w) (wPolled w) (wInflight w) calls
              (granted w t info) (wBroker w) (wDone w))
| HandlerStep call rest w' :
    wHandler w = call :: rest -> execCall w call w' -> step w (setHandler rest w')
| OtherCommit p pos done' :
    p ∉ wOwned w -> wBroker w p <= pos ->
    (forall q r, wDone w q r -> done' q r) ->
    (forall r, R p r -> r < pos -> done' p r) ->
    step w (mkWorld (wOc w) (wIngest w) (wSub w) (wPrev w) (wFetch w) (wPolled w) (wInflight w)
              (wHandler w) (wOwned w) (update (wBroker w) p pos) done').

(** A consumer that has just been built: nothing owned, polled or tracked, and
    no committed position past an unprocessed record. *)
Record initial (w : World) : Prop := {
  init_trackers : PartitionMap (wOc w) = ∅;
  init_assigned : assigned (wOc w) = ∅;
  init_collected : collected (wOc w) = [];
  init_channel : queued (commitsIn (wOc w)) = [];
  init_ingest : wIngest w = IngestIdle;
  init_prev : wPrev w = ∅;
  init_fetch : wFetch w = ∅;
  init_polled : wPolled w = [];
  init_inflight : wInflight w = [];
  init_handler : wHandler w = [];
  init_owned : wOwned w = ∅;
  init_broker : forall p r, R p r -> r < wBroker w p -> wDone w p r
}.

Definition reachable (w0 w : World) : Prop := initial w0 /\ rtc step w0 w.

End World.
