(* ===== verification/WorldInv.v ===== *)
(** * Invariants of the running consumer

    [dataInv]: every position anyone vouches for has only processed records
    below it.  [handlerInv]: what the rebalance handler in progress has
    established and still owes, call by call.  [ownInv]: assigned partitions are
    owned, and their trackers are not behind the broker.  Each holds initially
    and every step preserves them. *)
From S2P Require Import Prelude Types RingBuffer Tracker Committer TrackerFacts Safety Monotone Prev.
From S2P Require Import CommitterFacts Subscription Forward World.
From stdpp Require Import base gmap list relations.
Open Scope Z_scope.

Section WorldInv.
Context `{NX : Nexus} `{RT : GoRuntime} `{RTok : !GoRuntimeOk RT}.
Variable R : Z -> Z -> Prop.
Variable exact : Prop.
Hypothesis R_nonneg : forall p r, R p r -> 0 <= r.
Implicit Types (w : World) (oc : Committer) (done : Z -> Z -> Prop).

Definition coveredAt done (p x : Z) : Prop := covered (R p) (done p) x.

(** A tracker of partition [p]: safe, and holding only items of [p]. *)
Definition trackerOk done (p : Z) (t : OffsetsTracker) : Prop :=
  trackerSafe (R p) (done p) t /\ homed p t.

Definition itemOk done (i : WorkItem) : Prop :=
  coreOk (R (partitionOf i)) (done (partitionOf i)) (core i).

(** An item still being processed: all of [itemOk] but its completion. *)
Definition pendingOk done (i : WorkItem) : Prop :=
  itemOk (complete done i) i.

Definition received (s : IngestState) : list WorkItem :=
  match s with Received i => [i] | _ => [] end.

Record dataInv (w : World) : Prop := {
  di_broker : forall p, coveredAt (wDone w) p (wBroker w p);
  di_trackers : trackers_all (trackerOk (wDone w)) (wOc w);
  di_arrived : Forall (itemOk (wDone w)) (received (wIngest w) ++ queued (commitsIn (wOc w)));
  di_pending : Forall (pendingOk (wDone w)) (wInflight w);
  di_fetch : forall p f, wFetch w !! p = Some f ->
    p ∈ wOwned w /\
    match wPrev w !! p with
    | Some x => f = x + 1
    | None => coveredAt (wDone w) p f
    end
}.

(** The tracker of [p] exists and is not behind the broker; a position only its
    [Ready] item vouches for counts once the partition is assigned. *)
Definition basedAt w (p : Z) : Prop :=
  exists t, PartitionMap (wOc w) !! p = Some t /\
    (wBroker w p <= CommittedPlusOne t \/
     (p ∈ assigned (wOc w) /\ readyPast (wBroker w p) (Ready t))).

Definition marks (f : Z -> PortCall) (t : RebalanceType) (todo ps : list Z) : list PortCall :=
  map f todo ++ [CallAckRebalance t ps].

(** Partitions being assigned: owned, not read yet. *)
Definition incoming w (ps : list Z) : Prop :=
  forall p, p ∈ ps -> p ∈ wOwned w /\ wFetch w !! p = None.

Definition baselinesOk w (m : gmap Z Z) : Prop :=
  forall p c, m !! p = Some c ->
    coveredAt (wDone w) p c /\ p ∈ wOwned w /\ (p ∉ assigned (wOc w)) /\ (exact -> c = wBroker w p).

Inductive handlerInv w : list PortCall -> Prop :=
| HIdle : handlerInv w []
| HTrip reason : handlerInv w [CallTriggerEmergencyShutdown reason]
| HAssign0 ps m :
    ps <> [] -> incoming w ps -> baselinesOk w m -> (forall p, p ∈ ps -> is_Some (m !! p)) ->
    handlerInv w (CallResetPrevOffsets ps :: CallResetCommittedOffsets m
                    :: marks CallMarkPartitionAssigned Assign ps ps)
| HAssign1 ps m :
    incoming w ps -> (forall p, p ∈ ps -> wPrev w !! p = None) ->
    baselinesOk w m -> (forall p, p ∈ ps -> is_Some (m !! p)) ->
    handlerInv w (CallResetCommittedOffsets m :: marks CallMarkPartitionAssigned Assign ps ps)
| HAssign2 todo ps :
    incoming w ps -> (forall p, p ∈ ps -> wPrev w !! p = None) ->
    (forall p, p ∈ todo -> p ∈ ps) -> (exact -> forall p, p ∈ todo -> basedAt w p) ->
    handlerInv w (marks CallMarkPartitionAssigned Assign todo ps)
| HRevoke0 ps :
    handlerInv w (CallDrain :: marks CallMarkPartitionRevoked Revoke ps ps)
| HRevoke1 todo ps :
    (forall p, p ∈ ps -> p ∈ todo \/ (p ∉ assigned (wOc w))) ->
    handlerInv w (marks CallMarkPartitionRevoked Revoke todo ps).

Record ownInv (w : World) : Prop := {
  oi_owned : assigned (wOc w) ⊆ wOwned w;
  oi_handler : handlerInv w (wHandler w);
  oi_based : exact -> forall p, p ∈ assigned (wOc w) -> basedAt w p
}.

(** ** Completion only grows *)

Lemma coveredAt_mono done done' p x :
  (forall q r, done q r -> done' q r) -> coveredAt done p x -> coveredAt done' p x.
Proof. intros Hd Hc r ??. by apply Hd, Hc. Qed.

Lemma coreOk_mono (Rp d d' : Z -> Prop) c :
  (forall r, d r -> d' r) -> coreOk Rp d c -> coreOk Rp d' c.
Proof. intros Hd [H1 H2 H3 H4 H5]. split; auto. intros Hf r ??. apply Hd. by apply H5. Qed.

Lemma itemOk_mono done done' i :
  (forall q r, done q r -> done' q r) -> itemOk done i -> itemOk done' i.
Proof. intros Hd. apply coreOk_mono. auto. Qed.

Lemma pendingOk_mono done done' i :
  (forall q r, done q r -> done' q r) -> pendingOk done i -> pendingOk done' i.
Proof. intros Hd. apply itemOk_mono. unfold complete. intros q r [?|?]; auto. Qed.

Lemma trackerOk_mono done done' p t :
  (forall q r, done q r -> done' q r) -> trackerOk done p t -> trackerOk done' p t.
Proof.
  intros Hd [[H1 H2 H3 H4] Hh]. split; [|done]. split.
  - eapply Forall_impl; [exact H1|]. intros c. by apply coreOk_mono; auto.
  - by eapply coveredAt_mono.
  - intros Hl. eapply (coveredAt_mono done); [done | by apply H3].
  - intros i Hi. eapply (coveredAt_mono done); [done | by apply H4].
Qed.

(** ** Tracker operations preserve [trackerOk] *)

Lemma conserves_trackerOk done p t arrived t' out :
  conserves t arrived t' out -> trackerSafe (R p) (done p) t' -> homed p t ->
  Forall (fun c => cPartition c = p) (cores arrived) -> trackerOk done p t'.
Proof. intros Hc Hs Hh Ha. split; [done|]. by eapply conserves_homed. Qed.

Lemma processItem_ok done t i now :
  trackerOk done (partitionOf i) t -> itemOk done i ->
  trackerOk done (partitionOf i) (processItem t i now).1.
Proof.
  intros [Hs Hh] Hi. pose proof (processItem_accounts t i now) as Ha.
  pose proof (processItem_safe _ _ t i now Hs Hi) as Hs'.
  destruct (processItem t i now) as [t' out].
  eapply conserves_trackerOk; [by apply accounts_conserves | done | done | by repeat constructor].
Qed.

Lemma flushTracker_ok done p size size70 now t :
  trackerOk done p t -> trackerOk done p (flushTracker size size70 now t).1.
Proof.
  intros [Hs Hh]. pose proof (flushTracker_conserves size size70 now t) as Ha.
  pose proof (flushTracker_safe _ _ size size70 now t Hs) as Hs'.
  destruct (flushTracker _ _ _ _) as [t' out]. by eapply conserves_trackerOk.
Qed.

Lemma collectCommit_ok done p a now t :
  trackerOk done p t -> trackerOk done p (collectCommit a now t).1.
Proof.
  intros [Hs Hh]. pose proof (collectCommit_conserves a now t) as Ha.
  pose proof (collectCommit_safe _ _ a now t Hs) as Hs'.
  destruct (collectCommit _ _ _) as [t' [out m]]. destruct Hs'. by eapply conserves_trackerOk.
Qed.

Lemma ackCommit_ok done p o t :
  0 <= o -> coveredAt done p (o + 1) -> trackerOk done p t -> trackerOk done p (ackCommit o t).1.
Proof.
  intros Ho Hc [Hs Hh]. pose proof (ackCommit_accounts o t) as Ha.
  pose proof (ackCommit_safe _ _ o t Ho Hc Hs) as Hs'.
  destruct (ackCommit o t) as [t' out].
  eapply conserves_trackerOk; [by apply accounts_conserves | done..].
Qed.

Lemma resetTracker_ok done p c t :
  coveredAt done p c -> trackerOk done p t -> trackerOk done p (resetTracker c t).1.
Proof.
  intros Hc [Hs Hh]. pose proof (resetTracker_accounts c t) as Ha.
  pose proof (resetTracker_safe _ _ c t Hc Hs) as Hs'.
  destruct (resetTracker c t) as [t' out].
  eapply conserves_trackerOk; [by apply accounts_conserves | done..].
Qed.

(** ** The committer's operations, at the level of the map *)

Lemma processCommit_ok done oc i now :
  trackers_all (trackerOk done) oc -> itemOk done i ->
  trackers_all (trackerOk done) (processCommit oc i now).
Proof.
  intros Ha Hi. apply trackers_all_processCommit; [done | | |].
  - intros size. split; [by apply newTracker_safe, R_nonneg | constructor].
  - intros t [Hs Hh]. split; [by apply observeOffset_safe|].
    unfold homed, observeOffset in *. destruct (_ <? _); [done|]. by destruct (_ >? _).
  - intros t Ht. by apply processItem_ok.
Qed.

Lemma flushGapBuffers_ok done oc order now :
  trackers_all (trackerOk done) oc -> trackers_all (trackerOk done) (flushGapBuffers oc order now).
Proof. intros Ha. apply trackers_all_flush; [done|]. intros. by apply flushTracker_ok. Qed.

Lemma ingestEnd_ok done oc order now :
  trackers_all (trackerOk done) oc -> trackers_all (trackerOk done) (ingestEnd oc order now).
Proof.
  intros Ha. unfold ingestEnd. pose proof (flushGapBuffers_ok done oc order now Ha).
  destruct (_ =? 0); [|done]. by destruct (trySend _ _).
Qed.

Lemma collectCommits_ok done oc order now :
  range_order (PartitionMap oc) order -> trackers_all (trackerOk done) oc ->
  trackers_all (trackerOk done) (collectCommits oc order now).1.
Proof.
  intros Ho Ha p t. rewrite collectCommits_lookup by done.
  intros (t0 & Ht0 & ->)%fmap_Some. apply collectCommit_ok. by apply Ha.
Qed.

Lemma ResetCommittedOffsets_ok done oc pos :
  trackers_all (trackerOk done) oc -> (forall p c, (p, c) ∈ pos -> coveredAt done p c) ->
  trackers_all (trackerOk done) (ResetCommittedOffsets oc pos).
Proof.
  intros Ha Hc. apply trackers_all_reset; [done|]. intros p c Hin. split.
  - intros size. split; [by apply newResetTracker_safe, Hc | constructor].
  - intros t. by apply resetTracker_ok, Hc.
Qed.

(** What a tick sends is covered, at or past the baseline, and of the right
    partition. *)
Lemma collectCommits_msgOk done oc order now msg :
  range_order (PartitionMap oc) order -> trackers_all (trackerOk done) oc ->
  msg ∈ (collectCommits oc order now).2 ->
  Partition msg ∈ assigned oc /\ coveredAt done (Partition msg) (Offset msg + 1) /\
  0 <= Offset msg /\ in_int64 (Offset msg + 1) /\
  exists t, PartitionMap oc !! Partition msg = Some t /\
    (collectCommit true now t).2.2 = Some msg /\
    PartitionMap (collectCommits oc order now).1 !! Partition msg = Some (collectCommit true now t).1.
Proof.
  intros Ho Ha Hm. destruct (collectCommits_sent oc order now msg Ho Hm) as (p & t & Hp & Ht & Hc & Hl).
  destruct (Ha p t Ht) as [Hs Hh]. pose proof (collectCommit_partition p now t msg Hh Hc) as <-.
  pose proof (collectCommit_safe _ _ true now t Hs) as Hsafe.
  destruct (collectCommit true now t) as [t' [out mo]] eqn:E. simpl in Hc. subst mo.
  destruct Hsafe as [_ Hs']. destruct (Hs' msg eq_refl) as (? & ? & ? & _).
  split_and!; try done. exists t. rewrite E. done.
Qed.

End WorldInv.
