(* ===== verification/WorldSteps.v ===== *)
(** * Every step preserves the invariants of [WorldInv] *)
From S2P Require Import Prelude Types RingBuffer Tracker Committer TrackerFacts Safety Monotone Prev.
From S2P Require Import CommitterFacts Subscription Forward World WorldInv.
From stdpp Require Import base gmap list relations.
Open Scope Z_scope.

Section WorldSteps.
Context `{NX : Nexus} `{RT : GoRuntime} `{RTok : !GoRuntimeOk RT}.
Variable R : Z -> Z -> Prop.
Variable exact : Prop.
Hypothesis R_nonneg : forall p r, R p r -> 0 <= r.
Implicit Types (w : World) (oc : Committer).

Abbreviation dataInv := (dataInv R).
Abbreviation ownInv := (ownInv R exact).
Abbreviation handlerInv := (handlerInv R exact).

Lemma applyCommits_cases b ms p :
  (applyCommits b ms p = b p /\ (p ∉ map Partition ms)) \/
  exists m, m ∈ ms /\ Partition m = p /\ applyCommits b ms p = Offset m + 1.
Proof.
  unfold applyCommits. revert b. induction ms as [|m ms IH]; intros b.
  - left. split; [done|]. apply not_elem_of_nil.
  - cbn [foldl]. destruct (IH (update b (Partition m) (Offset m + 1))) as [[E Hni]|(m' & Hm & Hp & E)].
    + rewrite E. unfold update. case_decide as D.
      * right. exists m. split_and!; [by left | done | done].
      * left. split; [done|]. cbn. by apply not_elem_of_cons.
    + right. exists m'. split_and!; [by right | done | done].
Qed.

(** ** The data invariant *)

Lemma noRecord_covered done p lo hi :
  coveredAt R done p lo -> noRecord R p lo hi -> coveredAt R done p hi.
Proof.
  intros Hc Hn r Hr Hlt. destruct (decide (r < lo)); [by apply Hc | exfalso].
  apply (Hn r); [done | lia | done].
Qed.

Lemma PollStep_data w item f prev' :
  dataInv w -> wFetch w !! partitionOf item = Some f -> f <= offsetOf item ->
  noRecord R (partitionOf item) f (offsetOf item) -> in_int64 (offsetOf item + 1) ->
  GetPrevious (wPrev w) (partitionOf item) (offsetOf item) =
    (prev', (PreviousOffset item, First item, None)) ->
  dataInv (mkWorld (wOc w) (wIngest w) (wSub w) prev'
             (<[partitionOf item := offsetOf item + 1]> (wFetch w))
             (item :: wPolled w) (item :: wInflight w) (wHandler w) (wOwned w) (wBroker w) (wDone w)).
Proof.
  intros HI Hf Hle Hn Hi Hg. apply GetPrevious_ok in Hg as (H0 & -> & Hp).
  destruct (di_fetch R w HI _ _ Hf) as [Howned Hfetch].
  split; simpl; [apply HI | apply HI | apply HI | |].
  - constructor; [|apply HI]. unfold pendingOk, itemOk. split; simpl.
    + by right.
    + done.
    + done.
    + intros r Hr Hlo Hhi. fold (offsetOf item) in Hhi. destruct (wPrev w !! partitionOf item).
      * destruct Hp as (_ & Hp & _). apply (Hn r Hr); lia.
      * destruct Hp as [Hp _]. lia.
    + intros Hfirst. destruct (wPrev w !! partitionOf item); [by destruct Hp as (_ & _ & ?); congruence|].
      eapply (coveredAt_mono R (wDone w)); [intros; by left|]. by eapply noRecord_covered.
  - intros p f'. destruct (decide (partitionOf item = p)) as [<-|Hne].
    + rewrite !lookup_insert_eq. intros [= <-]. done.
    + rewrite !lookup_insert_ne by done. apply HI.
Qed.

Lemma core_itemOk done i i' : core i' = core i -> itemOk R done i -> itemOk R done i'.
Proof.
  unfold itemOk. intros E. replace (partitionOf i') with (partitionOf i); [by rewrite E|].
  by injection E.
Qed.

Lemma CompleteStep_data w item item' rest oc' :
  dataInv w -> wInflight w ≡ₚ item :: rest -> core item' = core item ->
  CollectAndCommit (wOc w) item' = Some oc' ->
  dataInv (mkWorld oc' (wIngest w) (wSub w) (wPrev w) (wFetch w) (wPolled w) rest (wHandler w)
             (wOwned w) (wBroker w) (complete (wDone w) item)).
Proof.
  intros HI Hin Hcore Hc. apply CollectAndCommit_cases in Hc as (HP & HA & HC & HQ).
  assert (Hd : forall q r, wDone w q r -> complete (wDone w) item q r) by (by left).
  pose proof (di_pending R w HI) as Hpend. rewrite Hin in Hpend.
  apply Forall_cons in Hpend as [Hitem Hrest].
  split; simpl.
  - intros p. eapply coveredAt_mono; [exact Hd | apply HI].
  - intros p t. rewrite HP. intros Ht. eapply trackerOk_mono; [exact Hd | by apply HI].
  - rewrite HQ, app_assoc. apply Forall_app. split.
    + eapply Forall_impl; [apply HI|]. intros i. by apply itemOk_mono.
    + constructor; [|constructor]. by eapply core_itemOk.
  - eapply Forall_impl; [exact Hrest|]. intros i. by apply pendingOk_mono.
  - intros p f Hf. destruct (di_fetch R w HI p f Hf) as [? Hm]. split; [done|].
    destruct (wPrev w !! p); [done|]. by eapply coveredAt_mono.
Qed.

(** Steps of the committer alone. *)
Lemma committer_data w oc' i' :
  dataInv w -> trackers_all (trackerOk R (wDone w)) oc' ->
  Forall (itemOk R (wDone w)) (received i' ++ queued (commitsIn oc')) ->
  dataInv (setIngest i' (setOc oc' w)).
Proof. intros HI Ht Ha. split; simpl; [apply HI | done | done | apply HI | apply HI]. Qed.

Lemma trackers_all_frame (P : Z -> OffsetsTracker -> Prop) oc oc' :
  PartitionMap oc' = PartitionMap oc -> trackers_all P oc -> trackers_all P oc'.
Proof. intros E H p t. rewrite E. apply H. Qed.

Lemma ingest_data w i' oc' item :
  dataInv w -> itemOk R (wDone w) item ->
  received i' = [] -> queued (commitsIn oc') `suffix_of` queued (commitsIn (wOc w)) ->
  trackers_all (trackerOk R (wDone w)) oc' ->
  dataInv (setIngest i' (setOc oc' w)).
Proof.
  intros HI Hi Hr [l Hq] Ht. apply committer_data; [done | done |]. rewrite Hr. simpl.
  pose proof (di_arrived R w HI) as Ha. rewrite Hq in Ha. rewrite !Forall_app in Ha. tauto.
Qed.

Lemma tick_trackers w oc' sent err guard broker order1 order2 now :
  trackers_all (trackerOk R (wDone w)) (wOc w) ->
  range_order (PartitionMap (wOc w)) order1 -> range_order (PartitionMap (wOc w)) order2 ->
  CommitOffsets (wOc w) guard broker order1 order2 now = (oc', sent, err) ->
  trackers_all (trackerOk R (wDone w)) oc' /\ commitsIn oc' = commitsIn (wOc w) /\
  assigned oc' = assigned (wOc w) /\
  forall m, m ∈ sent -> Partition m ∈ assigned (wOc w) /\
    coveredAt R (wDone w) (Partition m) (Offset m + 1).
Proof.
  intros Ha Ho1 Ho2 Hc. destruct (CommitOffsets_cases _ _ _ _ _ _ _ _ _ Hc)
    as [(-> & -> & ->)|(oc2 & Hcol & Hres)].
  { split_and!; try done. intros m Hm. by apply not_elem_of_nil in Hm. }
  pose proof (flushGapBuffers_ok R (wDone w) (wOc w) order1 now Ha) as Ha1.
  pose proof (flushGapBuffers_range (wOc w) order1 order2 now Ho1 Ho2) as Ho2'.
  pose proof (collectCommits_ok R (wDone w) _ order2 now Ho2' Ha1) as Ha2.
  pose proof (fun m => collectCommits_msgOk R (wDone w) _ order2 now m Ho2' Ha1) as Hm.
  pose proof (collectCommits_assigned (flushGapBuffers (wOc w) order1 now) order2 now) as HA.
  pose proof (collectCommits_commitsIn (flushGapBuffers (wOc w) order1 now) order2 now) as HQ.
  rewrite flushGapBuffers_assigned in HA. rewrite flushGapBuffers_commitsIn in HQ.
  setoid_rewrite flushGapBuffers_assigned in Hm. rewrite Hcol in *. simpl in *.
  destruct Hres as [[-> ->]|(-> & -> & _)].
  - rewrite ackCommits_commitsIn, ackCommits_assigned. split_and!; try done.
    + apply trackers_all_ack; [done|]. intros m t Hin Ht.
      destruct (Hm m Hin) as (_ & ? & ? & _). by apply ackCommit_ok.
    + intros m Hin. destruct (Hm m Hin) as (? & ? & _). done.
  - split_and!; try done. intros m Hin. destruct (Hm m Hin) as (? & ? & _). done.
Qed.

Lemma brokerApplied_sub err (sent applied : list Message) m :
  brokerApplied err sent applied -> m ∈ applied -> m ∈ sent.
Proof.
  destruct err; simpl; [intros Hs Hm | by intros ->].
  by eapply elem_of_submseteq; [|apply sublist_submseteq].
Qed.

Lemma TickStep_data w oc' sent err applied guard broker order1 order2 now :
  dataInv w ->
  range_order (PartitionMap (wOc w)) order1 -> range_order (PartitionMap (wOc w)) order2 ->
  CommitOffsets (wOc w) guard broker order1 order2 now = (oc', sent, err) ->
  brokerApplied err sent applied ->
  dataInv (setBroker (applyCommits (wBroker w) applied) (setOc oc' w)).
Proof.
  intros HI Ho1 Ho2 Hc Hb.
  destruct (tick_trackers w oc' sent err guard broker order1 order2 now (di_trackers R w HI) Ho1 Ho2 Hc)
    as (Ht & HQ & _ & Hm).
  split; simpl; [| done | rewrite HQ; apply HI | apply HI | apply HI].
  intros p. destruct (applyCommits_cases (wBroker w) applied p) as [[-> _]|(m & Hin & <- & ->)].
  - apply HI.
  - by apply Hm, (brokerApplied_sub err sent applied).
Qed.

(** ** The ownership invariant *)

(** What a step that leaves the handler and the assignment alone must keep. *)
Record frame (w w' : World) : Prop := {
  fr_assigned : assigned (wOc w') = assigned (wOc w);
  fr_owned : wOwned w' = wOwned w;
  fr_fetch : wFetch w' = wFetch w;
  fr_prev : wPrev w' = wPrev w;
  fr_handler : wHandler w' = wHandler w;
  fr_done : forall q r, wDone w q r -> wDone w' q r;
  fr_broker : forall p, p ∈ wOwned w -> p ∉ assigned (wOc w) -> wBroker w' p = wBroker w p;
  fr_based : exact -> forall p, p ∈ wOwned w -> basedAt w p -> basedAt w' p
}.

Lemma incoming_frame w w' ps : frame w w' -> incoming w ps -> incoming w' ps.
Proof. intros F H p Hp. rewrite (fr_owned _ _ F), (fr_fetch _ _ F). by apply H. Qed.

Lemma baselinesOk_frame w w' m : frame w w' -> baselinesOk R exact w m -> baselinesOk R exact w' m.
Proof.
  intros F H p c Hp. destruct (H p c Hp) as (Hc & Ho & Ha & He).
  rewrite (fr_assigned _ _ F), (fr_owned _ _ F), (fr_broker _ _ F) by done.
  split_and!; try done. eapply coveredAt_mono; [apply F | done].
Qed.

Lemma handlerInv_frame w w' h : frame w w' -> handlerInv w h -> handlerInv w' h.
Proof.
  intros F H. pose proof (incoming_frame w w') as Hin. pose proof (baselinesOk_frame w w') as Hba.
  destruct H as [|reason|ps m|ps m|todo ps Hi|ps|todo ps].
  - constructor.
  - constructor.
  - constructor; eauto.
  - constructor; eauto. by rewrite (fr_prev _ _ F).
  - constructor; eauto; [by rewrite (fr_prev _ _ F)|].
    intros He p Hp. apply F; [done | | by apply H1]. by apply Hi, H0.
  - constructor.
  - constructor. by rewrite (fr_assigned _ _ F).
Qed.

Lemma ownInv_frame w w' : frame w w' -> ownInv w -> ownInv w'.
Proof.
  intros F [Ho Hh Hb]. split.
  - by rewrite (fr_assigned _ _ F), (fr_owned _ _ F).
  - rewrite (fr_handler _ _ F). by eapply handlerInv_frame.
  - intros He p. rewrite (fr_assigned _ _ F). intros Hp. apply F; [done | by apply Ho | by apply Hb].
Qed.

Lemma basedAt_forward w w' :
  assigned (wOc w') = assigned (wOc w) ->
  mapForward (assigned (wOc w)) (PartitionMap (wOc w)) (PartitionMap (wOc w')) ->
  forall p, wBroker w' p = wBroker w p -> basedAt w p -> basedAt w' p.
Proof.
  intros HA HF p Hb (t & Ht & Hahead). destruct (HF p t Ht) as (t' & Ht' & Hc & Hn).
  exists t'. split; [done|]. rewrite HA, Hb.
  destruct Hahead as [?|[Hp Hr]]; [left; lia|].
  destruct (Hn Hp) as [_ Hr']. destruct (Hr' _ Hr) as [?|?]; auto.
Qed.

(** Committer steps that move no broker position. *)
Lemma committer_frame w oc' i' :
  assigned oc' = assigned (wOc w) ->
  mapForward (assigned (wOc w)) (PartitionMap (wOc w)) (PartitionMap oc') ->
  frame w (setIngest i' (setOc oc' w)).
Proof.
  intros HA HF. split; try done. intros _ p _. by apply (basedAt_forward w).
Qed.

Lemma basedAt_ahead w p t :
  basedAt w p -> PartitionMap (wOc w) !! p = Some t -> aheadOf (wBroker w p) t.
Proof.
  intros (t' & Ht' & H) Ht. rewrite Ht in Ht'. injection Ht' as <-. unfold aheadOf. tauto.
Qed.

(** A message a tick sends, and what the tracker it came from looks like
    before the acknowledgement and after. *)
Lemma tick_message oc order1 order2 now (done : Z -> Z -> Prop) m b oc2 sent :
  trackers_all (trackerOk R done) oc ->
  range_order (PartitionMap oc) order1 -> range_order (PartitionMap oc) order2 ->
  collectCommits (flushGapBuffers oc order1 now) order2 now = (oc2, sent) -> m ∈ sent ->
  (forall t, PartitionMap oc !! Partition m = Some t -> aheadOf b t) ->
  Partition m ∈ assigned oc /\ b <= Offset m + 1 /\
  (exists t, PartitionMap oc2 !! Partition m = Some t /\ readyPast (Offset m + 1) (Ready t)) /\
  exists t, PartitionMap (ackCommits oc2 sent) !! Partition m = Some t /\
    Offset m + 1 <= CommittedPlusOne t.
Proof.
  intros Ha Ho1 Ho2 Hcol Hin Hb.
  pose proof (flushGapBuffers_ok R done oc order1 now Ha) as Ha1.
  pose proof (flushGapBuffers_range oc order1 order2 now Ho1 Ho2) as Ho2'.
  pose proof (collectCommits_msgOk R done _ order2 now m Ho2' Ha1) as Hm.
  pose proof (collectCommits_nodup _ order2 now Ho2' (fun p t Ht => proj2 (Ha1 p t Ht))) as Hnd.
  rewrite Hcol in Hm, Hnd. simpl in *. rewrite flushGapBuffers_assigned in Hm.
  destruct (Hm Hin) as (HA & _ & _ & Hi & t1 & Ht1 & Hmsg & Ht2). clear Hm.
  rewrite flushGapBuffers_lookup in Ht1 by done. apply fmap_Some in Ht1 as (t & Ht & ->).
  set (t1 := (flushTracker _ _ _ _).1) in *.
  assert (Hahead : aheadOf b t1)
    by (eapply noFurtherBack_aheadOf; [apply flushTracker_forward | by apply Hb]).
  destruct (collectCommit_forward now t1) as [_ Hf].
  destruct (Hf m b Hmsg Hahead) as (Hle & i & Hr & Hi').
  split_and!; [done | done | |].
  - eexists. split; [exact Ht2|]. exists i. split; [done|]. unfold offsetOf. rewrite Hi'. lia.
  - rewrite ackCommits_lookup, Ht2 by done.
    exists (ackCommit (Offset m) (collectCommit true now t1).1).1. split; [done|].
    destruct (ackCommit_forward (Offset m) (collectCommit true now t1).1 Hi) as [-> _]. lia.
Qed.

(** A tick keeps a based partition based and does not move its broker position
    back. *)
Lemma tick_based w oc' sent err applied guard broker order1 order2 now p :
  dataInv w ->
  range_order (PartitionMap (wOc w)) order1 -> range_order (PartitionMap (wOc w)) order2 ->
  CommitOffsets (wOc w) guard broker order1 order2 now = (oc', sent, err) ->
  brokerApplied err sent applied -> basedAt w p ->
  basedAt (setBroker (applyCommits (wBroker w) applied) (setOc oc' w)) p /\
  wBroker w p <= applyCommits (wBroker w) applied p.
Proof.
  intros HI Ho1 Ho2 Hc Hb Hp.
  destruct (tick_trackers w oc' sent err guard broker order1 order2 now (di_trackers R w HI) Ho1 Ho2 Hc)
    as (_ & _ & HA & _).
  destruct (CommitOffsets_cases _ _ _ _ _ _ _ _ _ Hc) as [(-> & -> & ->)|(oc2 & Hcol & Hres)].
  { apply sublist_nil_r in Hb as ->. simpl. split; [done | lia]. }
  assert (HF : mapForward (assigned (wOc w)) (PartitionMap (wOc w)) (PartitionMap oc2)).
  { etrans; [apply (flushGapBuffers_forward _ _ order1 now Ho1)|].
    pose proof (collectCommits_forward (flushGapBuffers (wOc w) order1 now) order2 now) as H.
    rewrite Hcol, flushGapBuffers_assigned in H. apply H. by apply flushGapBuffers_range. }
  assert (HA2 : assigned oc2 = assigned (wOc w)).
  { pose proof (collectCommits_assigned (flushGapBuffers (wOc w) order1 now) order2 now) as H.
    by rewrite Hcol, flushGapBuffers_assigned in H. }
  destruct (applyCommits_cases (wBroker w) applied p) as [[E Hni]|(m & Hin & <- & E)].
  - rewrite E. split; [|lia].
    destruct (basedAt_forward w (setOc oc2 w) HA2 HF p eq_refl Hp) as (t & Ht & Ht').
    simpl in *. exists t. simpl. rewrite E, HA. rewrite HA2 in Ht'. split; [|done].
    destruct Hres as [[-> ->]|(-> & -> & _)]; [|done]. simpl in Hb. subst applied.
    by rewrite ackCommits_lookup_notin.
  - destruct (tick_message (wOc w) order1 order2 now (wDone w) m (wBroker w (Partition m)) oc2 sent)
      as (HP & Hle & (t2 & Ht2 & Hr2) & (t3 & Ht3 & Hc3)); try done.
    { apply HI. }
    { by apply (brokerApplied_sub err sent applied). }
    { intros t Ht. by apply (basedAt_ahead w). }
    rewrite E. split; [|done]. unfold basedAt. simpl. rewrite E, HA.
    destruct Hres as [[-> ->]|(-> & -> & _)]; eauto 6.
Qed.

Lemma TickStep_frame w oc' sent err applied guard broker order1 order2 now :
  dataInv w ->
  range_order (PartitionMap (wOc w)) order1 -> range_order (PartitionMap (wOc w)) order2 ->
  CommitOffsets (wOc w) guard broker order1 order2 now = (oc', sent, err) ->
  brokerApplied err sent applied ->
  frame w (setBroker (applyCommits (wBroker w) applied) (setOc oc' w)).
Proof.
  intros HI Ho1 Ho2 Hc Hb.
  destruct (tick_trackers w oc' sent err guard broker order1 order2 now (di_trackers R w HI) Ho1 Ho2 Hc)
    as (_ & _ & HA & Hm).
  split; try done.
  - intros p _ Hp. simpl.
    destruct (applyCommits_cases (wBroker w) applied p) as [[-> _]|(m & Hin & <- & _)]; [done|].
    destruct Hp. by apply Hm, (brokerApplied_sub err sent applied).
  - intros _ p _ Hp. by destruct (tick_based w oc' sent err applied guard broker order1 order2 now p).
Qed.

Lemma OtherCommit_frame w p pos done' :
  p ∉ wOwned w -> (forall q r, wDone w q r -> done' q r) ->
  frame w (mkWorld (wOc w) (wIngest w) (wSub w) (wPrev w) (wFetch w) (wPolled w) (wInflight w)
             (wHandler w) (wOwned w) (update (wBroker w) p pos) done').
Proof.
  intros Hp Hd. split; try done; simpl.
  - intros q Hq _. unfold update. case_decide; [by subst | done].
  - intros _ q Hq. unfold basedAt. simpl. unfold update. case_decide; [by subst | done].
Qed.

Lemma OtherCommit_data w p pos done' :
  dataInv w -> (forall q r, wDone w q r -> done' q r) ->
  (forall r, R p r -> r < pos -> done' p r) ->
  dataInv (mkWorld (wOc w) (wIngest w) (wSub w) (wPrev w) (wFetch w) (wPolled w) (wInflight w)
             (wHandler w) (wOwned w) (update (wBroker w) p pos) done').
Proof.
  intros HI Hd Hpos. split; simpl.
  - intros q. unfold update. case_decide; [subst; exact Hpos|].
    eapply coveredAt_mono; [exact Hd | apply HI].
  - intros q t Ht. eapply trackerOk_mono; [exact Hd | by apply HI].
  - eapply Forall_impl; [apply HI|]. intros i. by apply itemOk_mono.
  - eapply Forall_impl; [apply HI|]. intros i. by apply pendingOk_mono.
  - intros q f Hf. destruct (di_fetch R w HI q f Hf) as [? Hm]. split; [done|].
    destruct (wPrev w !! q); [done|]. by eapply coveredAt_mono.
Qed.

(** ** Rebalance events and the handler's calls *)

Lemma RebalanceStart_inv w t info ackErr s' calls err :
  dataInv w -> ownInv w -> eventOk exact w t info ->
  HandleRebalance (wSub w) t info ackErr = (s', calls, err) ->
  dataInv (mkWorld (wOc w) (wIngest w) s' (wPrev w) (wFetch w) (wPolled w) (wInflight w) calls
             (granted w t info) (wBroker w) (wDone w)) /\
  ownInv (mkWorld (wOc w) (wIngest w) s' (wPrev w) (wFetch w) (wPolled w) (wInflight w) calls
             (granted w t info) (wBroker w) (wDone w)).
Proof.
  intros HI HO He Hh.
  assert (Hg : wOwned w ⊆ granted w t info) by (destruct t; [apply union_subseteq_r | done | done]).
  split.
  { split; simpl; try apply HI. intros p f Hf. destruct (di_fetch R w HI p f Hf). auto. }
  split; simpl; [etrans; [apply HO | done] | | apply HO].
  revert Hh. unfold HandleRebalance.
  destruct (foreignTopic _ _); [intros [= <- <- <-]; constructor|].
  destruct t; intros [= <- <- <-]; [| | constructor].
  - rewrite <- (map_map riPartition CallMarkPartitionAssigned).
    destruct He as [Hne Hev]. apply HAssign0.
    + by destruct info.
    + intros p (r & -> & Hr)%list_elem_of_fmap. destruct (Hev r Hr) as (Hno & _). simpl. split.
      * apply elem_of_union_l, elem_of_list_to_set. by apply list_elem_of_fmap_2.
      * destruct (wFetch w !! riPartition r) eqn:E; [|done].
        destruct Hno. by destruct (di_fetch R w HI _ _ E).
    + intros p c (r & Hr & <- & <-)%baselines_some. destruct (Hev r Hr) as (Hno & Hle & Hex). simpl.
      split_and!; [| | | done].
      * eapply covered_le; [apply HI | done].
      * apply elem_of_union_l, elem_of_list_to_set. by apply list_elem_of_fmap_2.
      * intros Ha. by apply Hno, (oi_owned R exact w HO).
    + intros p (r & -> & Hr)%list_elem_of_fmap. by apply baselines_in.
  - rewrite <- (map_map riPartition CallMarkPartitionRevoked). apply HRevoke0.
Qed.

(** What the next call of the handler relies on, and what follows it. *)
Lemma handlerInv_cons w call rest :
  handlerInv w (call :: rest) ->
  match call with
  | CallTriggerEmergencyShutdown _ => rest = []
  | CallResetPrevOffsets ps =>
      exists m, rest = CallResetCommittedOffsets m :: marks CallMarkPartitionAssigned Assign ps ps /\
        ps <> [] /\ incoming w ps /\ baselinesOk R exact w m /\
        forall p, p ∈ ps -> is_Some (m !! p)
  | CallResetCommittedOffsets m =>
      exists ps, rest = marks CallMarkPartitionAssigned Assign ps ps /\ incoming w ps /\
        (forall p, p ∈ ps -> wPrev w !! p = None) /\ baselinesOk R exact w m /\
        forall p, p ∈ ps -> is_Some (m !! p)
  | CallMarkPartitionAssigned p =>
      exists todo ps, rest = marks CallMarkPartitionAssigned Assign todo ps /\ incoming w ps /\
        (forall p, p ∈ ps -> wPrev w !! p = None) /\
        (forall q, q ∈ p :: todo -> q ∈ ps) /\ (exact -> forall q, q ∈ p :: todo -> basedAt w q)
  | CallDrain => exists ps, rest = marks CallMarkPartitionRevoked Revoke ps ps
  | CallMarkPartitionRevoked p =>
      exists todo ps, rest = marks CallMarkPartitionRevoked Revoke todo ps /\
        forall q, q ∈ ps -> q ∈ p :: todo \/ (q ∉ assigned (wOc w))
  | CallAckRebalance Assign ps =>
      rest = [] /\ incoming w ps /\ forall p, p ∈ ps -> wPrev w !! p = None
  | CallAckRebalance Revoke ps => rest = [] /\ forall q, q ∈ ps -> q ∉ assigned (wOc w)
  | _ => False
  end.
Proof.
  remember (call :: rest) as h eqn:Eh. intros H. revert Eh.
  destruct H as [|reason|ps m|ps m|todo ps|ps|todo ps Ht].
  - done.
  - by intros [= <- <-].
  - intros [= <- <-]. eauto 10.
  - intros [= <- <-]. eauto 10.
  - destruct todo as [|p todo]; intros [= <- <-]; [done|]. exists todo, ps. auto.
  - intros [= <- <-]. eauto.
  - destruct todo as [|p todo]; intros [= <- <-].
    + split; [done|]. intros q Hq. destruct (Ht q Hq) as [Hn|?]; [|done].
      by apply not_elem_of_nil in Hn.
    + exists todo, ps. auto.
Qed.

Lemma ResetPrev_inv w ps rest :
  dataInv w -> ownInv w -> wHandler w = CallResetPrevOffsets ps :: rest ->
  let w' := setHandler rest (setPrev (Reset (wPrev w) ps) w) in dataInv w' /\ ownInv w'.
Proof.
  intros HI HO Hh. pose proof (oi_handler R exact w HO) as H. rewrite Hh in H.
  apply handlerInv_cons in H as (m & -> & Hne & Hin & Hba & Hdom).
  split; (split; simpl; try apply HI; try apply HO).
  - intros p f Hf. rewrite Reset_lookup, decide_False; [by apply HI | | done].
    intros Hp. destruct (Hin p Hp) as [_ Hn]. congruence.
  - apply HAssign1; try done. intros p Hp. simpl. rewrite Reset_lookup by done. by rewrite decide_True.
Qed.

Lemma AckAssign_inv w ps starts rest :
  dataInv w -> ownInv w -> wHandler w = CallAckRebalance Assign ps :: rest ->
  startsAt R (wBroker w) ps starts ->
  let w' := setHandler rest (setOwnership (wOwned w) (starts ∪ wFetch w) w) in dataInv w' /\ ownInv w'.
Proof.
  intros HI HO Hh Hst. pose proof (oi_handler R exact w HO) as H. rewrite Hh in H.
  apply handlerInv_cons in H as (-> & Hin & Hprev).
  split; (split; simpl; try apply HI; try apply HO; try constructor).
  - apply lookup_union_Some_raw in H as [Hs|[_ Hf]]; [|by apply (di_fetch R w HI p f)].
    by apply Hin, (Hst p f).
  - apply lookup_union_Some_raw in H as [Hs|[_ Hf]]; [|by apply (di_fetch R w HI p f)].
    destruct (Hst p f Hs) as (Hp & Hle & Hn). rewrite Hprev by done.
    eapply noRecord_covered; [apply HI | done].
Qed.

Lemma AckRevoke_inv w ps rest :
  dataInv w -> ownInv w -> wHandler w = CallAckRebalance Revoke ps :: rest ->
  let w' := setHandler rest (setOwnership (wOwned w ∖ list_to_set ps)
                               (filter (fun kv => kv.1 ∉ ps) (wFetch w)) w) in
  dataInv w' /\ ownInv w'.
Proof.
  intros HI HO Hh. pose proof (oi_handler R exact w HO) as H. rewrite Hh in H.
  apply handlerInv_cons in H as (-> & Hps).
  split; (split; simpl; try apply HI; try apply HO; try constructor).
  - apply map_lookup_filter_Some in H as [Hf Hp]. simpl in Hp. apply elem_of_difference.
    rewrite elem_of_list_to_set. split; [by apply (di_fetch R w HI p f) | done].
  - apply map_lookup_filter_Some in H as [Hf Hp]. by apply (di_fetch R w HI p f).
  - intros p Hp. apply elem_of_difference. rewrite elem_of_list_to_set.
    split; [by apply (oi_owned R exact w HO) | by intros ?%Hps].
Qed.

Lemma ResetCommitted_inv w m pos rest :
  dataInv w -> ownInv w -> wHandler w = CallResetCommittedOffsets m :: rest ->
  pos ≡ₚ map_to_list m ->
  let w' := setHandler rest (setOc (ResetCommittedOffsets (wOc w) pos) w) in dataInv w' /\ ownInv w'.
Proof.
  intros HI HO Hh Hpos. pose proof (oi_handler R exact w HO) as H. rewrite Hh in H.
  apply handlerInv_cons in H as (ps & -> & Hin & Hprev & Hba & Hdom).
  assert (Hm : forall p c, (p, c) ∈ pos <-> m !! p = Some c)
    by (intros p c; by rewrite Hpos, elem_of_map_to_list).
  assert (Hnd : NoDup pos.*1) by (rewrite Hpos; apply NoDup_fst_map_to_list).
  split; (split; simpl; rewrite ?ResetCommittedOffsets_assigned; try apply HI; try apply HO).
  - apply ResetCommittedOffsets_ok; [apply HI|]. intros p c Hp%Hm. by apply Hba.
  - rewrite ResetCommittedOffsets_commitsIn. apply HI.
  - apply HAssign2; try done. intros He p Hp. destruct (Hdom p Hp) as [c Hc].
    destruct (ResetCommittedOffsets_lookup (wOc w) pos p c Hnd ltac:(by apply Hm)) as (t & Ht & Htc).
    exists t. split; [done|]. left. destruct (Hba p c Hc) as (_ & _ & _ & E). rewrite Htc, (E He).
    simpl. lia.
  - intros He p Hp. destruct (oi_based R exact w HO He p Hp) as (t & Ht & Ha).
    exists t. simpl. rewrite ResetCommittedOffsets_assigned. split; [|done].
    rewrite ResetCommittedOffsets_lookup_ne; [done|].
    intros ([q c] & -> & Hin')%list_elem_of_fmap. apply Hm in Hin'.
    by destruct (Hba q c Hin') as (_ & _ & ? & _).
Qed.

Lemma MarkAssigned_inv w p now rest :
  dataInv w -> ownInv w -> wHandler w = CallMarkPartitionAssigned p :: rest ->
  let w' := setHandler rest (setOc (MarkPartitionAssigned (wOc w) p now) w) in dataInv w' /\ ownInv w'.
Proof.
  intros HI HO Hh. pose proof (oi_handler R exact w HO) as H. rewrite Hh in H.
  apply handlerInv_cons in H as (todo & ps & -> & Hin & Hprev & Hps & Hb).
  set (w' := setHandler _ _).
  assert (Hbased : forall q, basedAt w q -> basedAt w' q).
  { intros q (t & Ht & Ha). exists t. split; [done|]. simpl. destruct Ha as [?|[? ?]]; [by left|right].
    split; [by apply elem_of_union_r | done]. }
  split; (split; simpl; try apply HI; try apply HO).
  - apply union_subseteq. split; [|apply HO]. apply singleton_subseteq_l.
    by apply Hin, Hps, list_elem_of_here.
  - apply HAssign2; try done; [intros q Hq; by apply Hps; right|].
    intros He q Hq. apply Hbased, Hb; [done | by right].
  - intros He q [->%elem_of_singleton|Hq]%elem_of_union; apply Hbased;
      [by apply Hb; [|left] | by apply HO].
Qed.

Lemma MarkRevoked_inv w p now rest :
  dataInv w -> ownInv w -> wHandler w = CallMarkPartitionRevoked p :: rest ->
  let w' := setHandler rest (setOc (MarkPartitionRevoked (wOc w) p now) w) in dataInv w' /\ ownInv w'.
Proof.
  intros HI HO Hh. pose proof (oi_handler R exact w HO) as H. rewrite Hh in H.
  apply handlerInv_cons in H as (todo & ps & -> & Hps).
  split; (split; simpl; try apply HI; try apply HO).
  - apply trackers_all_revoke; [apply HI|]. intros t [[????] ?]. by repeat split.
  - etrans; [|apply HO]. apply subseteq_difference_l. done.
  - apply HRevoke1. intros q Hq. simpl.
    destruct (Hps q Hq) as [[->|Hin]%elem_of_cons|Hn]; [right|by left|right];
      intros [??]%elem_of_difference; [by apply H0, elem_of_singleton | done].
  - intros He q [Hq Hne]%elem_of_difference.
    destruct (oi_based R exact w HO He q Hq) as (t & Ht & Ha).
    exists t. simpl. rewrite lookup_alter_ne by (intros ->; by apply Hne, elem_of_singleton).
    split; [done|]. destruct Ha as [?|[? ?]]; [by left | right].
    split; [by apply elem_of_difference | done].
Qed.

Lemma HandlerStep_inv w call rest w' :
  dataInv w -> ownInv w -> wHandler w = call :: rest -> execCall R w call w' ->
  dataInv (setHandler rest w') /\ ownInv (setHandler rest w').
Proof.
  intros HI HO Hh He. destruct He as [reason|ps|m pos|p now|p now| |ps starts|ps].
  - pose proof (oi_handler R exact w HO) as H. rewrite Hh in H. apply handlerInv_cons in H as ->.
    split; (split; simpl; try apply HI; try apply HO). constructor.
  - by apply (ResetPrev_inv w ps).
  - by apply (ResetCommitted_inv w m).
  - by apply (MarkAssigned_inv w p).
  - by apply (MarkRevoked_inv w p).
  - pose proof (oi_handler R exact w HO) as H. rewrite Hh in H. apply handlerInv_cons in H as [ps ->].
    split; (split; simpl; try apply HI; try apply HO). apply HRevoke1. auto.
  - by apply (AckAssign_inv w ps).
  - by apply (AckRevoke_inv w ps).
Qed.

(** ** All steps *)

Lemma step_inv w w' : dataInv w -> ownInv w -> step R exact w w' -> dataInv w' /\ ownInv w'.
Proof.
  intros HI HO Hs. pose proof (di_arrived R w HI) as Harr.
  destruct Hs as [item f prev' Hh|item item' rest oc' Hin Hcore Hc|item c Hi Hr|item now Hi
    |n now oc' Hi Hn Hr|n order now Hi Hn Ho|guard broker order1 order2 now oc' sent applied err Hm Ho1 Ho2 Hc Hb
    | |t info ackErr s' calls err Hh Hev Hr|call rest w' Hh He|p pos done' Hp Hle Hd Hpos].
  - split; [by eapply PollStep_data|]. split; simpl; [apply HO | rewrite Hh; constructor | apply HO].
  - split; [by eapply CompleteStep_data|]. eapply ownInv_frame; [|exact HO].
    apply CollectAndCommit_cases in Hc as (HP & HA & _). split; try done; simpl; [by left|].
    intros _ q _. by apply (basedAt_forward w); simpl; rewrite ?HP.
  - pose proof (tryRecv_cases _ _ _ Hr) as Hq. split.
    + apply committer_data; [done | apply HI |]. simpl. rewrite Hi, Hq in Harr. done.
    + eapply ownInv_frame; [|exact HO]. by apply committer_frame.
  - rewrite Hi in Harr. apply Forall_cons in Harr as [Hitem _]. split.
    + eapply ingest_data; try done; [by rewrite processCommit_commitsIn|].
      apply processCommit_ok; [done | apply HI | done].
    + eapply ownInv_frame; [|exact HO].
      apply committer_frame; [apply processCommit_assigned | apply processCommit_forward].
  - apply ingestNext_cases in Hr as (item & c & Hr & ->). pose proof (tryRecv_cases _ _ _ Hr) as Hq.
    rewrite Hi, Hq in Harr. apply Forall_cons in Harr as [Hitem _]. split.
    + eapply ingest_data; try done.
      * rewrite processCommit_commitsIn, Hq. by exists [item].
      * apply processCommit_ok; [done | apply HI | done].
    + eapply ownInv_frame; [|exact HO]. apply committer_frame; [by rewrite processCommit_assigned|].
      apply (processCommit_forward _ (setCommitsIn c (wOc w))).
  - destruct (ingestEnd_frame (wOc w) order now) as (HP & HQ & HA & _). split.
    + apply committer_data; [done | by apply ingestEnd_ok, HI |]. simpl. rewrite HQ.
      rewrite Hi in Harr. done.
    + eapply ownInv_frame; [|exact HO]. apply committer_frame; [done|]. rewrite HP.
      by apply flushGapBuffers_forward.
  - split;
      [by apply (TickStep_data w oc' sent err applied guard broker order1 order2 now)|].
    eapply ownInv_frame; [|exact HO].
    by apply (TickStep_frame w oc' sent err applied guard broker order1 order2 now).
  - destruct (clearDrained_frame (wOc w)) as (HP & HQ & HA & _). split.
    + split; simpl; try apply HI; [by eapply trackers_all_frame, HI | by rewrite HQ].
    + eapply ownInv_frame; [|exact HO]. split; try done.
      intros _ q _. by apply (basedAt_forward w); simpl; rewrite ?HP.
  - by eapply RebalanceStart_inv.
  - by eapply HandlerStep_inv.
  - split; [by apply OtherCommit_data|]. eapply ownInv_frame; [|exact HO]. by apply OtherCommit_frame.
Qed.

Lemma initial_inv w : initial R w -> dataInv w /\ ownInv w.
Proof.
  intros H. split; split.
  - intros p r ??. by apply H.
  - intros p t. by rewrite (init_trackers R w H).
  - rewrite (init_ingest R w H), (init_channel R w H). constructor.
  - rewrite (init_inflight R w H). constructor.
  - intros p f. by rewrite (init_fetch R w H).
  - by rewrite (init_assigned R w H).
  - rewrite (init_handler R w H). constructor.
  - intros _ p. rewrite (init_assigned R w H). by intros ?%elem_of_empty.
Qed.

Lemma reachable_inv w0 w : reachable R exact w0 w -> dataInv w /\ ownInv w.
Proof.
  intros [H0 Hr]. revert w Hr.
  apply (rtc_ind_r (fun w => dataInv w /\ ownInv w)); [by apply initial_inv|].
  intros w1 w2 _ Hs [? ?]. by apply (step_inv w1).
Qed.

End WorldSteps.
