(* ===== verification/Accounting.v ===== *)
(** * Every work item is accounted for

    [kept oc] are the items the committer holds or has handed to the metrics
    port.  Every operation takes them from what was kept and what arrived, so an
    item is returned at most once. *)
From S2P Require Import Prelude Types RingBuffer Tracker Committer TrackerFacts CommitterFacts.
From stdpp Require Import base gmap list.
Open Scope Z_scope.

(** Rewriting with sub-multisets under [++]. *)
#[export] Instance app_submseteq_proper {A} :
  Proper (submseteq ==> submseteq ==> submseteq) (@app A).
Proof. intros l1 l2 H k1 k2 Hk. by apply submseteq_app. Qed.

Lemma submseteq_NoDup {A} (l k : list A) : l ⊆+ k -> NoDup k -> NoDup l.
Proof. intros (k' & ->)%submseteq_Permutation. rewrite NoDup_app. tauto. Qed.

Section Accounting.
Context `{NX : Nexus} `{RT : GoRuntime} `{RTok : !GoRuntimeOk RT}.
Implicit Types (oc : Committer) (t : OffsetsTracker) (m : gmap Z OffsetsTracker).

Definition mapItems m : list WorkItem := gather trackerItems m.

Lemma mapItems_insert m p t :
  mapItems (<[p := t]> m) ≡ₚ trackerItems t ++ mapItems (delete p m).
Proof. apply gather_insert. Qed.

Lemma mapItems_lookup m p t :
  m !! p = Some t -> mapItems m ≡ₚ trackerItems t ++ mapItems (delete p m).
Proof. apply gather_lookup. Qed.

Definition kept oc : list Core := cores (mapItems (PartitionMap oc)) ++ cores (collected oc).

Lemma cores_Permutation l l' : l ≡ₚ l' -> cores l ≡ₚ cores l'.
Proof. unfold cores. by intros ->. Qed.

#[export] Instance cores_proper : Proper (Permutation ==> Permutation) cores.
Proof. intros l l'. apply cores_Permutation. Qed.

Lemma insert_conserves m p t arrived res :
  m !! p = Some t -> conserves t arrived res.1 res.2 ->
  cores (mapItems (<[p := res.1]> m)) ++ cores res.2 ⊆+ cores (mapItems m) ++ cores arrived.
Proof.
  intros Ht Hc. rewrite (cores_Permutation _ _ (mapItems_insert m p res.1)).
  rewrite (cores_Permutation _ _ (mapItems_lookup m p t Ht)). rewrite !cores_app.
  trans (cores (mapItems (delete p m)) ++ (cores (trackerItems res.1) ++ cores res.2)).
  - apply Permutation_submseteq. solve_Permutation.
  - rewrite Hc. apply Permutation_submseteq. solve_Permutation.
Qed.

Lemma insert_new_conserves m p t arrived res :
  m !! p = None -> trackerItems t = [] -> conserves t arrived res.1 res.2 ->
  cores (mapItems (<[p := res.1]> m)) ++ cores res.2 ⊆+ cores (mapItems m) ++ cores arrived.
Proof.
  intros Hn Ht Hc. rewrite (cores_Permutation _ _ (mapItems_insert m p res.1)).
  rewrite (delete_id _ _ Hn), cores_app.
  trans (cores (mapItems m) ++ (cores (trackerItems res.1) ++ cores res.2)).
  - apply Permutation_submseteq. solve_Permutation.
  - rewrite Hc, Ht. done.
Qed.

Lemma putTracker_kept oc p arrived res :
  cores (mapItems (<[p := res.1]> (PartitionMap oc))) ++ cores res.2
    ⊆+ cores (mapItems (PartitionMap oc)) ++ cores arrived ->
  kept (putTracker oc p res) ⊆+ kept oc ++ cores arrived.
Proof.
  intros H. unfold kept. rewrite putTracker_PartitionMap, putTracker_collected, cores_app.
  trans (cores (collected oc) ++
         (cores (mapItems (<[p := res.1]> (PartitionMap oc))) ++ cores res.2)).
  - apply Permutation_submseteq. solve_Permutation.
  - rewrite H. apply Permutation_submseteq. solve_Permutation.
Qed.

Lemma processCommit_kept oc w now : kept (processCommit oc w now) ⊆+ kept oc ++ cores [w].
Proof.
  unfold processCommit. cbn [PartitionOffset]. apply (putTracker_kept _ _ [w]).
  pose proof (fun t => processItem_accounts t w now) as Hacc.
  destruct (PartitionMap oc !! partitionOf w) as [t|] eqn:E.
  - apply (insert_conserves _ _ t); [done|]. specialize (Hacc (observeOffset (offsetOf w) t)).
    destruct (processItem _ _ _) as [t' out]. apply accounts_conserves in Hacc.
    unfold conserves in *. simpl. rewrite Hacc. unfold observeOffset.
    destruct (_ <? _); [done|]. by destruct (_ >? _).
  - apply (insert_new_conserves _ _ (newTracker (gapBufferSize oc) (offsetOf w))); [done | done |].
    specialize (Hacc (newTracker (gapBufferSize oc) (offsetOf w))).
    destruct (processItem _ _ _) as [t' out]. by apply accounts_conserves.
Qed.

(** A [range] loop whose body conserves items conserves the map's. *)
Lemma visit_kept {O} (f : Z -> OffsetsTracker -> OffsetsTracker * O) (items : O -> list WorkItem) order m :
  (forall p t, conserves t [] (f p t).1 (items (f p t).2)) ->
  cores (mapItems (visit f order m).1) ++ cores (concat (map items (visit f order m).2))
    ⊆+ cores (mapItems m).
Proof.
  intros Hf. apply (visit_inv f (fun m' os => cores (mapItems m') ++ cores (concat (map items os))
                                    ⊆+ cores (mapItems m))).
  - simpl. by rewrite app_nil_r.
  - intros m0 os p t H Ht. rewrite map_app, concat_app, cores_app. cbn. rewrite app_nil_r.
    rewrite <- H.
    pose proof (insert_conserves m0 p t [] ((f p t).1, items (f p t).2) Ht (Hf p t)) as Hi.
    simpl in Hi. rewrite app_nil_r in Hi.
    trans (cores (concat (map items os)) ++
           (cores (mapItems (<[p := (f p t).1]> m0)) ++ cores (items (f p t).2))).
    + apply Permutation_submseteq. solve_Permutation.
    + rewrite Hi. apply Permutation_submseteq. solve_Permutation.
Qed.

Lemma flushGapBuffers_kept oc order now : kept (flushGapBuffers oc order now) ⊆+ kept oc.
Proof.
  unfold flushGapBuffers, kept.
  pose proof (visit_kept (fun _ => flushTracker (gapBufferSize oc) (gapBufferSize70Pct oc) now)
                id order (PartitionMap oc)) as Hv.
  destruct (visit _ _ _) as [m outs]. simpl in *. rewrite map_id in Hv.
  rewrite returnAll_PartitionMap, returnAll_collected, cores_app. simpl.
  trans (cores (collected oc) ++ (cores (mapItems m) ++ cores (concat outs)));
    [apply Permutation_submseteq; solve_Permutation|].
  rewrite Hv; [apply Permutation_submseteq; solve_Permutation|].
  intros _ t. pose proof (flushTracker_conserves (gapBufferSize oc) (gapBufferSize70Pct oc) now t).
  by destruct (flushTracker _ _ _ _).
Qed.

Lemma ingestEnd_kept oc order now : kept (ingestEnd oc order now) ⊆+ kept oc.
Proof.
  destruct (ingestEnd_frame oc order now) as (HP & _ & _ & HC). unfold kept. rewrite HP, HC.
  apply flushGapBuffers_kept.
Qed.

Lemma collectCommits_kept oc order now : kept (collectCommits oc order now).1 ⊆+ kept oc.
Proof.
  unfold collectCommits, kept.
  pose proof (visit_kept (fun p => collectCommit (bool_decide (p ∈ assigned oc)) now)
                fst order (PartitionMap oc)) as Hv.
  destruct (visit _ _ _) as [m outs]. simpl in *.
  rewrite returnAll_PartitionMap, returnAll_collected, cores_app. simpl.
  trans (cores (collected oc) ++ (cores (mapItems m) ++ cores (concat (map fst outs))));
    [apply Permutation_submseteq; solve_Permutation|].
  rewrite Hv; [apply Permutation_submseteq; solve_Permutation|].
  intros p t. pose proof (collectCommit_conserves (bool_decide (p ∈ assigned oc)) now t).
  by destruct (collectCommit _ _ _) as [t' [out m']].
Qed.

Lemma ackCommits_kept oc ms : kept (ackCommits oc ms) ⊆+ kept oc.
Proof.
  unfold ackCommits. revert oc. induction ms as [|m ms IH]; intros oc; [done|]. cbn [foldl].
  rewrite IH. unfold ackOne. destruct (PartitionMap oc !! Partition m) as [t|] eqn:E; [|done].
  rewrite (putTracker_kept oc (Partition m) []); [by rewrite app_nil_r|].
  apply (insert_conserves _ _ t); [done|]. pose proof (ackCommit_accounts (Offset m) t) as H.
  destruct (ackCommit _ _). by apply accounts_conserves.
Qed.

Lemma CommitOffsets_kept oc guard broker order1 order2 now :
  kept (CommitOffsets oc guard broker order1 order2 now).1.1 ⊆+ kept oc.
Proof.
  destruct (CommitOffsets _ _ _ _ _ _) as [[oc' sent] err] eqn:E. simpl.
  apply CommitOffsets_cases in E as [(-> & _)|(oc2 & Hcol & Hres)]; [done|].
  pose proof (collectCommits_kept (flushGapBuffers oc order1 now) order2 now) as H.
  rewrite Hcol, flushGapBuffers_kept in H. simpl in H.
  destruct Hres as [[_ ->]|(_ & -> & _)]; [by rewrite ackCommits_kept | done].
Qed.

Lemma ResetCommittedOffsets_kept oc pos : kept (ResetCommittedOffsets oc pos) ⊆+ kept oc.
Proof.
  unfold ResetCommittedOffsets. revert oc. induction pos as [|[p c] pos IH]; intros oc; [done|].
  cbn [foldl]. rewrite IH. unfold resetOne.
  destruct (PartitionMap oc !! p) as [t|] eqn:E;
    (rewrite (putTracker_kept oc p []); [by rewrite app_nil_r|]).
  - apply (insert_conserves _ _ t); [done|]. pose proof (resetTracker_accounts c t) as H.
    destruct (resetTracker c t). by apply accounts_conserves.
  - apply (insert_new_conserves _ _ (newResetTracker (gapBufferSize oc) c)); try done.
    by unfold conserves; rewrite !app_nil_r.
Qed.

Lemma MarkPartitionRevoked_kept oc p now : kept (MarkPartitionRevoked oc p now) ⊆+ kept oc.
Proof.
  unfold MarkPartitionRevoked, kept. simpl. destruct (PartitionMap oc !! p) as [t|] eqn:E.
  - replace (alter (setAssignment Revoke) p (PartitionMap oc))
      with (<[p := setAssignment Revoke t]> (PartitionMap oc)).
    + rewrite (cores_Permutation _ _ (mapItems_insert _ p _)).
      by rewrite (cores_Permutation _ _ (mapItems_lookup _ p t E)).
    + apply map_eq. intros q. destruct (decide (p = q)) as [->|Hne].
      * by rewrite lookup_insert_eq, lookup_alter_eq, E.
      * by rewrite lookup_insert_ne, lookup_alter_ne.
  - replace (alter (setAssignment Revoke) p (PartitionMap oc)) with (PartitionMap oc); [done|].
    apply map_eq. intros q. destruct (decide (p = q)) as [->|Hne].
    + by rewrite lookup_alter_eq, E.
    + by rewrite lookup_alter_ne.
Qed.

End Accounting.
