(* ===== verification/Run.v ===== *)
(** * A concrete run of the consumer

    One partition with two records, assigned at position 0; the second record
    completes before the first, one ingest batch takes both, and one tick commits
    position 2.  It instantiates every parameter: the bit-mask [nexus], the
    merge-sort runtime, and a log of two records. *)
From S2P Require Import Prelude Types RingBuffer Tracker Committer CommitterFacts Prev Subscription.
From S2P Require Import World.
From stdpp Require Import base gmap list strings relations.
Open Scope Z_scope.

Definition runLog (p r : Z) : Prop := p = 0 /\ 0 <= r <= 1.

Definition runItem (ptr offset prev : Z) (first : bool) : WorkItem :=
  mkWorkItem ptr (mkMessage 0 0 offset EmptyString None) (mkMetrics 0 0 0 offset 0 0 0 0 0 0) None
    prev first 0.

Definition rec0 : WorkItem := runItem 100 0 (-1) true.
Definition rec1 : WorkItem := runItem 101 1 0 false.

Definition runInfo : list RebalanceInfo := [mkRebalanceInfo EmptyString 0 0].

Definition run0 : World :=
  mkWorld (NewCommitter 4 8 0) IngestIdle (NewSubscription EmptyString) ∅ ∅ [] [] [] ∅
    (fun _ => 0) (fun _ _ => False).

(** The assign event is handled. *)
Definition run1 : World :=
  let '(s, calls, _) := HandleRebalance (wSub run0) Assign runInfo false in
  mkWorld (wOc run0) IngestIdle s ∅ ∅ [] [] calls {[0]} (wBroker run0) (wDone run0).

Definition run2 : World :=
  setHandler [CallMarkPartitionAssigned 0; CallAckRebalance Assign [0]]
    (setOc (ResetCommittedOffsets (wOc run1) [(0, 0)]) (setPrev (Reset (wPrev run1) [0]) run1)).

Definition run3 : World :=
  setHandler [] (setOwnership {[0]} ({[0 := 0]} ∪ ∅) (setOc (MarkPartitionAssigned (wOc run2) 0 7) run2)).

(** Both records are polled, and complete in the opposite order. *)
Definition run4 : World :=
  mkWorld (wOc run3) IngestIdle (wSub run3) (<[0 := 1]> (<[0 := 0]> ∅)) (<[0 := 2]> (<[0 := 1]> (wFetch run3)))
    [rec1; rec0] [rec1; rec0] [] (wOwned run3) (wBroker run3) (wDone run3).

Definition sent (oc : Committer) (i : WorkItem) : Committer := default oc (CollectAndCommit oc i).

Definition run5 : World :=
  mkWorld (sent (sent (wOc run4) rec1) rec0) IngestIdle (wSub run4) (wPrev run4) (wFetch run4)
    (wPolled run4) [] [] (wOwned run4) (wBroker run4)
    (complete (complete (wDone run4) rec1) rec0).

(** One ingest batch, then a tick. *)
Definition keys (oc : Committer) : list Z := (map_to_list (PartitionMap oc)).*1.

Definition recv (oc : Committer) : Committer :=
  match tryRecv (commitsIn oc) with Some (_, c) => setCommitsIn c oc | None => oc end.

Definition batch1 : Committer := processCommit (recv (wOc run5)) rec1 9.
Definition batch2 : Committer := default batch1 (ingestNext batch1 9).

Definition run6 : World :=
  setIngest IngestIdle (setOc (ingestEnd batch2 (keys batch2) 9) run5).

Definition tick6 : Committer * list Message * option CommitError :=
  CommitOffsets (wOc run6) true (fun _ => false) (keys (wOc run6)) (keys (wOc run6)) 11.

Definition run7 : World :=
  setBroker (applyCommits (wBroker run6) tick6.1.2) (setOc tick6.1.1 run6).

Lemma keys_range oc : range_order (PartitionMap oc) (keys oc).
Proof.
  split; [apply NoDup_fst_map_to_list|]. intros k. unfold keys. rewrite list_elem_of_fmap. split.
  - intros ([k' t] & -> & Hin%elem_of_map_to_list). by exists t.
  - intros [t Ht]. exists (k, t). by rewrite elem_of_map_to_list.
Qed.

Lemma run0_initial : initial runLog run0.
Proof. split; try done. intros p r [? ?]. simpl. lia. Qed.

Lemma run_assign (exact : Prop) : rtc (step runLog exact) run0 run3.
Proof.
  apply (rtc_l _ _ run1).
  { apply (RebalanceStart _ _ run0 Assign runInfo false _ _ None); [done | | done].
    split; [done|]. intros r ->%list_elem_of_singleton. simpl. done. }
  eapply rtc_l; [eapply HandlerStep; [done | apply ExecResetPrev]|].
  eapply rtc_l; [eapply HandlerStep; [done | apply (ExecResetCommitted _ _ _ [(0, 0)])]|].
  { done. }
  { by vm_compute. }
  eapply rtc_l; [eapply HandlerStep; [done | apply (ExecMarkAssigned _ _ 0 7); done]|].
  eapply rtc_l; [eapply HandlerStep; [done | apply (ExecAckAssign _ _ [0] {[0 := 0]})]|].
  { intros p f [<- <-]%lookup_singleton_Some. simpl. split_and!; [by left | lia |]. intros r ???. lia. }
  apply rtc_refl.
Qed.

Lemma run_poll (exact : Prop) : rtc (step runLog exact) run3 run5.
Proof.
  eapply rtc_l; [apply (PollStep _ _ _ rec0 0 (<[0 := 0]> ∅)); try done|].
  { intros r [_ ?] ??. change (offsetOf rec0) with 0 in *. lia. }
  { apply not_elem_of_nil. }
  eapply rtc_l; [apply (PollStep _ _ _ rec1 1 (<[0 := 1]> (<[0 := 0]> ∅))); try done|].
  { intros r [_ ?] ??. change (offsetOf rec1) with 1 in *. lia. }
  { change (101 ∉ [100]). by rewrite list_elem_of_singleton. }
  eapply rtc_l; [apply (CompleteStep _ _ _ rec1 rec1 [rec0] (sent (wOc run4) rec1)); done|].
  eapply rtc_l; [apply (CompleteStep _ _ _ rec0 rec0 [] (sent (sent (wOc run4) rec1) rec0)); done|].
  apply rtc_refl.
Qed.

Lemma run_batch (exact : Prop) : rtc (step runLog exact) run5 run6.
Proof.
  eapply rtc_l; [eapply (ReceiveStep _ _ _ rec1); reflexivity|].
  eapply rtc_l; [apply (BatchStart _ _ _ rec1 9); reflexivity|].
  eapply rtc_l; [apply (BatchNext _ _ _ 1 9 batch2);
      [reflexivity | unfold readBatchSize; lia | vm_compute; reflexivity]|].
  eapply rtc_l; [apply (BatchEnd _ _ _ 2 (keys batch2) 9);
      [reflexivity | right; vm_compute; reflexivity | exact (keys_range batch2)]|].
  apply rtc_refl.
Qed.

Lemma tick6_eq :
  CommitOffsets (wOc run6) true (fun _ => false) (keys (wOc run6)) (keys (wOc run6)) 11 =
    (tick6.1.1, tick6.1.2, tick6.2).
Proof. unfold tick6. by destruct (CommitOffsets _ _ _ _ _ _) as [[? ?] ?]. Qed.

Lemma run_tick (exact : Prop) : step runLog exact run6 run7.
Proof.
  apply (TickStep _ _ run6 true (fun _ => false) (keys (wOc run6)) (keys (wOc run6)) 11
           tick6.1.1 tick6.1.2 tick6.1.2 tick6.2);
    [exact I | apply keys_range | apply keys_range | apply tick6_eq |].
  vm_compute. reflexivity.
Qed.

Lemma run6_reachable (exact : Prop) : reachable runLog exact run0 run6.
Proof.
  split; [apply run0_initial|].
  etrans; [apply run_assign|]. etrans; [apply run_poll | apply run_batch].
Qed.

Lemma run_reachable (exact : Prop) : reachable runLog exact run0 run7.
Proof.
  split; [apply run0_initial|]. eapply rtc_r; [apply run6_reachable | apply run_tick].
Qed.

Lemma runLog_nonneg p r : runLog p r -> 0 <= r.
Proof. intros [_ ?]. lia. Qed.

(** The run ends with position 2 committed and both items returned. *)
Lemma run7_result : wBroker run7 0 = 2 /\ map ptr (collected (wOc run7)) = [100; 101].
Proof. by vm_compute. Qed.
