(* ===== verification/WorldTheorems.v ===== *)
(** * Correctness of the running consumer

    The system-level properties, for every interleaving of the goroutines, every
    order of the map iterations, every broker failure and every rebalance the
    group protocol allows.  A concrete run, from the first assignment to an
    acknowledged commit, shows the steps are not vacuous. *)
From S2P Require Import Prelude Types RingBuffer Tracker Committer TrackerFacts Safety Monotone Prev.
From S2P Require Import CommitterFacts Subscription Forward World WorldInv WorldSteps Accounting Run.
From stdpp Require Import base gmap list relations.
Open Scope Z_scope.

Section WorldTheorems.
Context `{NX : Nexus} `{RT : GoRuntime} `{RTok : !GoRuntimeOk RT}.
Variable R : Z -> Z -> Prop.
Variable exact : Prop.
Implicit Types (w : World) (oc : Committer).

(** ** Accounting *)

(** The records the consumer holds, and those it has returned. *)
Definition worldCores w : list Core :=
  cores (wInflight w) ++ cores (received (wIngest w)) ++ cores (queued (commitsIn (wOc w))) ++
  kept (wOc w).

Record accInv (w : World) : Prop := {
  ai_polled : NoDup (map ptr (wPolled w));
  ai_items : worldCores w ⊆+ cores (wPolled w)
}.

Lemma accInv_sub w w' :
  accInv w -> wPolled w' = wPolled w -> worldCores w' ⊆+ worldCores w -> accInv w'.
Proof. intros [Hp Hi] E Hs. split; rewrite E; [done|]. by rewrite Hs. Qed.

Lemma execCall_acc w call w' rest :
  execCall R w call w' -> accInv w -> accInv (setHandler rest w').
Proof.
  intros He Ha. apply (accInv_sub w); [done | by destruct He |].
  unfold worldCores. destruct He; simpl; try done; repeat (apply submseteq_skips_l).
  - rewrite ResetCommittedOffsets_commitsIn. apply submseteq_skips_l, ResetCommittedOffsets_kept.
  - apply MarkPartitionRevoked_kept.
Qed.

Lemma step_acc w w' : step R exact w w' -> accInv w -> accInv w'.
Proof.
  intros Hs Ha. destruct Hs as [item f prev' _ _ _ _ _ Hfresh _|item item' rest oc' Hin Hcore Hc|item c Hi Hr
    |item now Hi|n now oc' Hi Hn Hr|n order now Hi Hn Ho
    |guard broker order1 order2 now oc' sent applied err Hm Ho1 Ho2 Hc Hb
    | |t info ackErr s' calls err Hh Hev Hr|call rest w' Hh He|p pos done' Hp Hle Hd Hpos].
  - split; simpl; [by constructor; [|apply Ha]|].
    unfold worldCores. simpl. apply submseteq_skip, Ha.
  - apply CollectAndCommit_cases in Hc as (HP & HA & HC & HQ). apply (accInv_sub w); [done | done |].
    unfold worldCores, kept. simpl. rewrite HP, HC, HQ, (cores_Permutation _ _ Hin), cores_app. simpl.
    rewrite Hcore. apply Permutation_submseteq. solve_Permutation.
  - apply (accInv_sub w); [done | done |]. unfold worldCores, kept. simpl.
    rewrite Hi, (tryRecv_cases _ _ _ Hr). done.
  - apply (accInv_sub w); [done | done |]. unfold worldCores. simpl.
    rewrite Hi, processCommit_commitsIn, processCommit_kept. simpl.
    apply Permutation_submseteq. solve_Permutation.
  - apply ingestNext_cases in Hr as (item & c & Hr & ->). apply (accInv_sub w); [done | done |].
    unfold worldCores. simpl. rewrite Hi, processCommit_commitsIn, processCommit_kept. simpl.
    rewrite (tryRecv_cases _ _ _ Hr). simpl. apply Permutation_submseteq. unfold kept. simpl.
    solve_Permutation.
  - destruct (ingestEnd_frame (wOc w) order now) as (_ & HQ & _).
    apply (accInv_sub w); [done | done |]. unfold worldCores. simpl. by rewrite Hi, HQ, ingestEnd_kept.
  - apply (accInv_sub w); [done | done |]. unfold worldCores. simpl.
    pose proof (CommitOffsets_kept (wOc w) guard broker order1 order2 now) as Hk. rewrite Hc in Hk.
    simpl in Hk. rewrite Hk. by destruct (CommitOffsets_frame _ _ _ _ _ _ _ _ _ Hc) as [-> _].
  - destruct (clearDrained_frame (wOc w)) as (HP & HQ & HA & HC). apply (accInv_sub w); [done | done |].
    unfold worldCores, kept. simpl. by rewrite HP, HQ, HC.
  - by apply (accInv_sub w).
  - by eapply execCall_acc.
  - by apply (accInv_sub w).
Qed.

Lemma initial_acc w : initial R w -> accInv w.
Proof.
  intros H. split; [rewrite (init_polled R w H); constructor|].
  unfold worldCores, kept, mapItems, gather.
  rewrite (init_trackers R w H), (init_collected R w H), (init_channel R w H), (init_ingest R w H),
    (init_polled R w H), (init_inflight R w H), map_to_list_empty. done.
Qed.

Lemma reachable_acc w0 w : reachable R exact w0 w -> accInv w.
Proof.
  intros [H0 Hr]. revert w Hr.
  apply (rtc_ind_r accInv); [by apply initial_acc|]. intros w1 w2 _ Hs Ha. by apply (step_acc w1).
Qed.

Lemma ptrs_of_cores l : map cPtr (cores l) = map ptr l.
Proof. unfold cores. by rewrite map_map. Qed.

(** ** Properties *)

(** Every record of a partition's log below the position committed at the broker is
    done, in every reachable state. *)
Lemma reachable_done w0 w p r :
  (forall q o, R q o -> 0 <= o) -> reachable R exact w0 w -> R p r -> r < wBroker w p -> wDone w p r.
Proof. intros HR Hr. by destruct (reachable_inv R exact HR w0 w Hr) as [HI _]; apply HI. Qed.

(** C5: the broker never sees a partition's position move back, when the adapter
    supplies the committed position at each assign: neither a commit tick of
    this consumer (acknowledged or failed half way) nor a hand-over between
    consumers lowers it. *)
Theorem commits_monotone w0 w w' :
  exact -> (forall p r, R p r -> 0 <= r) -> reachable R exact w0 w -> step R exact w w' ->
  forall p, wBroker w p <= wBroker w' p.
Proof.
  intros He HR Hr Hs p. destruct (reachable_inv R exact HR w0 w Hr) as [HI HO].
  destruct Hs as [| | | | | |guard broker order1 order2 now oc' sent applied err Hm Ho1 Ho2 Hc Hb
    | | |call rest w' Hh Hex|q pos done' Hq Hle Hd Hpos]; simpl; try lia.
  - destruct (applyCommits_cases (wBroker w) applied p) as [[-> _]|(m & Hin & <- & E)]; [lia|].
    destruct (tick_trackers R w oc' sent err guard broker order1 order2 now
                (di_trackers R w HI) Ho1 Ho2 Hc) as (_ & _ & _ & Hsent).
    destruct (Hsent m (brokerApplied_sub err sent applied m Hb Hin)) as [HA _].
    pose proof (oi_based R exact w HO He _ HA) as Hbased.
    by destruct (tick_based R w oc' sent err applied guard broker order1 order2 now
                   (Partition m) HI Ho1 Ho2 Hc Hb Hbased).
  - destruct Hex; simpl; lia.
  - unfold update. case_decide; [subst; lia | lia].
Qed.

(** C6: a tick commits only for partitions this consumer owns, at most one
    position per partition. *)
Theorem commits_owned w0 w guard broker order1 order2 now oc' sent err :
  (forall p r, R p r -> 0 <= r) -> reachable R exact w0 w ->
  range_order (PartitionMap (wOc w)) order1 -> range_order (PartitionMap (wOc w)) order2 ->
  CommitOffsets (wOc w) guard broker order1 order2 now = (oc', sent, err) ->
  NoDup (map Partition sent) /\
  forall m, m ∈ sent -> Partition m ∈ assigned (wOc w) /\ Partition m ∈ wOwned w.
Proof.
  intros HR Hr Ho1 Ho2 Hc. destruct (reachable_inv R exact HR w0 w Hr) as [HI HO]. split.
  - destruct (CommitOffsets_cases _ _ _ _ _ _ _ _ _ Hc) as [(_ & -> & _)|(oc2 & Hcol & _)];
      [constructor|].
    pose proof (flushGapBuffers_ok R (wDone w) (wOc w) order1 now (di_trackers R w HI)) as Ha1.
    pose proof (flushGapBuffers_range (wOc w) order1 order2 now Ho1 Ho2) as Ho2'.
    pose proof (collectCommits_nodup _ order2 now Ho2' (fun p t Ht => proj2 (Ha1 p t Ht))) as H.
    by rewrite Hcol in H.
  - intros m Hm. destruct (tick_trackers R w oc' sent err guard broker order1 order2 now
      (di_trackers R w HI) Ho1 Ho2 Hc) as (_ & _ & _ & Hsent).
    destruct (Hsent m Hm) as [HA _]. split; [done | by apply (oi_owned R exact w HO)].
Qed.

End WorldTheorems.

Lemma commits_monotone_witness : wBroker run6 0 = 0 /\ wBroker run6 0 <= wBroker run7 0.
Proof.
  split; [vm_compute; reflexivity|].
  exact (commits_monotone runLog True run0 run6 run7 I runLog_nonneg (run6_reachable True)
           (run_tick True) 0).
Defined.

Lemma commits_owned_witness :
  map Offset tick6.1.2 = [1] /\ NoDup (map Partition tick6.1.2) /\
  forall m, m ∈ tick6.1.2 -> Partition m ∈ assigned (wOc run6) /\ Partition m ∈ wOwned run6.
Proof.
  split; [vm_compute; reflexivity|].
  exact (commits_owned runLog True run0 run6 true (fun _ => false) (keys (wOc run6)) (keys (wOc run6)) 11
           tick6.1.1 tick6.1.2 tick6.2 runLog_nonneg (run6_reachable True)
           (keys_range _) (keys_range _) tick6_eq).
Defined.
