(* ===== verification/Epoch.v ===== *)
(** * One ownership epoch: the tracker computes the longest completed prefix

    Within an epoch the polling loop delivers a stream of records, stamped by
    [Prev] as a chain.  The specification of a tracker is two numbers' worth of
    state: which records have completed, and how many have been committed; a
    tick commits the last record of the longest completed prefix.  The tracker,
    with its [Ready] slot, gap buffer, flag, sort, walk and repair, refines it:
    for every order of completion and every schedule of flushes and ticks,
    acknowledged or failed, it commits exactly what the specification does. *)
From S2P Require Import Prelude Types Tracker TrackerFacts Monotone.
From stdpp Require Import base gmap list sorting strings.
Open Scope Z_scope.

(** ** The stream *)

(** Records stamped one after the other, starting after offset [prev]. *)
Fixpoint chain (prev : Z) (l : list Core) : Prop :=
  match l with
  | [] => True
  | c :: l' =>
      cPrev c = prev /\ prev < cOffset c /\ cFirst c = false /\ in_int64 (cOffset c + 1) /\
      chain (cOffset c) l'
  end.

(** The records of one epoch: the first is flagged, the rest chain to it. *)
Definition epochStream (l : list Core) : Prop :=
  match l with
  | [] => True
  | c :: l' => cFirst c = true /\ 0 <= cOffset c /\ in_int64 (cOffset c + 1) /\ chain (cOffset c) l'
  end.

Implicit Types (D : gset Z) (l : list Core) (c : Core).

(** The longest prefix of completed records. *)
Fixpoint donePrefix D l : list Core :=
  match l with
  | [] => []
  | c :: l' => if decide (cOffset c ∈ D) then c :: donePrefix D l' else []
  end.

Definition doneItems D l : list Core := filter (fun c => cOffset c ∈ D) l.

Lemma chain_app p l1 l2 :
  chain p (l1 ++ l2) <-> chain p l1 /\ chain (default p (cOffset <$> last l1)) l2.
Proof.
  revert p. induction l1 as [|c l1 IH]; intros p; simpl; [tauto|].
  rewrite IH. destruct l1 as [|c' l1]; simpl; [tauto|].
  destruct (last (c' :: l1)) eqn:E; [simpl; tauto|]. by apply last_None in E.
Qed.

Lemma chain_lt p l c : chain p l -> c ∈ l -> p < cOffset c.
Proof.
  revert p. induction l as [|c' l IH]; intros p Hc Hin; [by apply not_elem_of_nil in Hin|].
  destruct Hc as (_ & Hlt & _ & _ & Hc). apply elem_of_cons in Hin as [->|Hin]; [done|].
  specialize (IH _ Hc Hin). lia.
Qed.

(** Only the first record of a chain names a predecessor at or below its start. *)
Lemma chain_prev p l c : chain p l -> c ∈ tail l -> forall d, head l = Some d -> cOffset d <= cPrev c.
Proof.
  destruct l as [|d l]; [done|]. intros (_ & _ & _ & _ & Hc) Hin d' [= <-]. simpl in Hin.
  revert d Hc Hin. induction l as [|e l IH]; intros d Hc Hin; [by apply not_elem_of_nil in Hin|].
  destruct Hc as (He & Hlt & _ & _ & Hc). apply elem_of_cons in Hin as [->|Hin]; [lia|].
  specialize (IH _ Hc Hin). lia.
Qed.

Lemma chain_sorted p l : chain p l -> StronglySorted (fun a b => cOffset a < cOffset b) l.
Proof.
  revert p. induction l as [|c l IH]; intros p; [constructor|]. intros (_ & _ & _ & _ & Hc).
  constructor; [by eapply IH|]. apply Forall_forall. intros x. by apply chain_lt.
Qed.

Lemma StronglySorted_filter {A} (Rel : A -> A -> Prop) (P : A -> Prop) `{!forall x, Decision (P x)} (k : list A) :
  StronglySorted Rel k -> StronglySorted Rel (filter P k).
Proof.
  induction 1 as [|a k Hs IH Hall]; [constructor|]. rewrite filter_cons. case_decide; [|done].
  constructor; [done|]. rewrite Forall_forall in *. intros x [_ ?]%list_elem_of_filter. auto.
Qed.

#[export] Instance offset_lt_antisymm : AntiSymm (=) (fun a b => cOffset a < cOffset b).
Proof. intros a b ??. lia. Qed.

Lemma donePrefix_app D l : donePrefix D l `prefix_of` l.
Proof.
  induction l as [|c l IH]; simpl; [done|]. case_decide; [by apply prefix_cons | apply prefix_nil].
Qed.

Lemma donePrefix_all D l1 l2 :
  Forall (fun c => cOffset c ∈ D) l1 -> donePrefix D (l1 ++ l2) = l1 ++ donePrefix D l2.
Proof. induction 1 as [|c l1 Hc _ IH]; simpl; [done|]. rewrite decide_True by done. by rewrite IH. Qed.

Lemma donePrefix_Forall D l : Forall (fun c => cOffset c ∈ D) (donePrefix D l).
Proof. induction l as [|c l IH]; simpl; [constructor|]. case_decide; by constructor. Qed.

Lemma doneItems_prefix D l :
  doneItems D l = donePrefix D l ++ doneItems D (drop (length (donePrefix D l)) l).
Proof.
  unfold doneItems. induction l as [|c l IH]; simpl; [done|]. rewrite filter_cons.
  case_decide; simpl; [by rewrite IH at 1|]. rewrite filter_cons. by rewrite decide_False.
Qed.

Lemma donePrefix_stop D l : donePrefix D (drop (length (donePrefix D l)) l) = [].
Proof. induction l as [|c l IH]; simpl; [done|]. case_decide; simpl; [done|]. by rewrite decide_False. Qed.

Section Epoch.
Context `{NX : Nexus} `{RT : GoRuntime} `{RTok : !GoRuntimeOk RT}.
Implicit Types (t : OffsetsTracker) (w g : WorkItem).

(** ** The walk over a sorted buffer *)

(** From a [Ready] item the walk consumes the completed prefix of the stream. *)
Lemma walk_chain now cpo lst D rest r (buf : list WorkItem) :
  chain (offsetOf r) rest -> cores buf = doneItems D rest ->
  let '(r', n, _) := walk now cpo lst (Some r) buf in
  core <$> r' = Some (default (core r) (last (donePrefix D rest))) /\
  n = length (donePrefix D rest).
Proof.
  unfold doneItems. revert r buf. induction rest as [|c rest IH]; intros r buf Hc Hbuf.
  { destruct buf; [|done]. simpl. done. }
  pose proof Hc as Hc0. destruct Hc as (Hp & Hlt & _ & _ & Hc). rewrite filter_cons in Hbuf.
  simpl. destruct (decide (cOffset c ∈ D)) as [HD|HD].
  - destruct buf as [|g buf]; [done|]. injection Hbuf as Hg Hbuf. simpl.
    assert (Hgo : offsetOf g = cOffset c) by (by rewrite <- Hg).
    assert (Hgp : PreviousOffset g = cPrev c) by (by rewrite <- Hg).
    destruct (Z.leb_spec (offsetOf g) (offsetOf r)); [lia|].
    destruct (Z.eqb_spec (offsetOf r) (PreviousOffset g)); [|lia].
    specialize (IH (stamp now g) buf). change (offsetOf (stamp now g)) with (offsetOf g) in IH.
    rewrite Hgo in IH. specialize (IH Hc Hbuf).
    destruct (walk _ _ _ _ _) as [[r' n] out]. destruct IH as [IH ->]. split; [|done].
    rewrite IH, core_stamp, last_cons, Hg. by destruct (last _).
  - destruct buf as [|g buf]; [done|].
    assert (Hin : core g ∈ rest).
    { apply (list_elem_of_filter (fun c => cOffset c ∈ D) rest). rewrite <- Hbuf. by left. }
    pose proof (chain_prev _ (c :: rest) (core g) Hc0 Hin c eq_refl) as Hge.
    pose proof (chain_lt _ _ _ Hc Hin) as Hgt. simpl in Hge, Hgt. simpl.
    destruct (Z.leb_spec (offsetOf g) (offsetOf r)); [lia|].
    destruct (Z.eqb_spec (offsetOf r) (PreviousOffset g)); [lia|]. done.
Qed.

(** With [Ready] consumed it starts from the committed record. *)
Lemma walk_committed now lst D rest (buf : list WorkItem) :
  0 <= lst -> chain lst rest -> cores buf = doneItems D rest ->
  let '(r', n, _) := walk now (lst + 1) lst None buf in
  core <$> r' = last (donePrefix D rest) /\ n = length (donePrefix D rest).
Proof.
  unfold doneItems. intros Hl Hc Hbuf. destruct rest as [|c rest]; [by destruct buf|].
  pose proof Hc as Hc0. destruct Hc as (Hp & Hlt & _ & _ & Hc). rewrite filter_cons in Hbuf.
  simpl donePrefix. destruct (decide (cOffset c ∈ D)) as [HD|HD].
  - destruct buf as [|g buf]; [done|]. injection Hbuf as Hg Hbuf. simpl.
    assert (Hgo : offsetOf g = cOffset c) by (by rewrite <- Hg).
    assert (Hgp : PreviousOffset g = cPrev c) by (by rewrite <- Hg).
    destruct (Z.ltb_spec (offsetOf g) (lst + 1)); [lia|].
    assert (Hb : (offsetOf g =? lst + 1) || ((lst >=? 0) && (PreviousOffset g =? lst)) = true).
    { apply orb_true_iff. right. rewrite Z.geb_leb. apply andb_true_iff.
      split; [apply Z.leb_le; lia | apply Z.eqb_eq; lia]. }
    rewrite Hb. pose proof (walk_chain now (lst + 1) lst D rest (stamp now g) buf) as HW.
    change (offsetOf (stamp now g)) with (offsetOf g) in HW. rewrite Hgo in HW.
    specialize (HW Hc Hbuf). destruct (walk _ _ _ _ _) as [[r' n] out]. destruct HW as [HW ->].
    split; [|done]. rewrite HW, core_stamp, last_cons, Hg. by destruct (last _).
  - destruct buf as [|g buf]; [done|].
    assert (Hin : core g ∈ rest).
    { apply (list_elem_of_filter (fun c => cOffset c ∈ D) rest). rewrite <- Hbuf. by left. }
    pose proof (chain_prev _ (c :: rest) (core g) Hc0 Hin c eq_refl) as Hge.
    pose proof (chain_lt _ _ _ Hc Hin) as Hgt. simpl in Hge, Hgt. simpl.
    destruct (Z.ltb_spec (offsetOf g) (lst + 1)); [lia|].
    destruct (Z.eqb_spec (offsetOf g) (lst + 1)); [lia|].
    destruct (Z.eqb_spec (PreviousOffset g) lst); [lia|]. by rewrite andb_false_r.
Qed.

(** Before the first record has completed nothing can be promoted. *)
Lemma walk_blocked now cpo (buf : list WorkItem) :
  (forall g, g ∈ buf -> cpo < offsetOf g) -> walk now cpo (-1) None buf = (None, O, []).
Proof.
  destruct buf as [|g buf]; [done|]. intros Hb. specialize (Hb g ltac:(left)). simpl.
  destruct (Z.ltb_spec (offsetOf g) cpo); [lia|]. by destruct (Z.eqb_spec (offsetOf g) cpo); [lia|].
Qed.

(** ** The simulation relation *)

(** [t] implements "the records of [D] have completed and [k] are committed". *)
Record epochRel (stream : list Core) D (k : nat) (t : OffsetsTracker) (cm rd rest : list Core) : Prop := {
  er_stream : stream = cm ++ rd ++ rest;
  er_committed : length cm = k;
  er_done : Forall (fun c => cOffset c ∈ D) (cm ++ rd);
  er_ready : core <$> Ready t = last rd;
  er_buffer : cores (elems (GapBuffer t)) ≡ₚ doneItems D rest;
  er_base : match last cm with
            | Some c => CommittedPlusOne t = cOffset c + 1 /\ LastCommittedOffset t = cOffset c
            | None => LastCommittedOffset t = -1 /\
                      forall c, head stream = Some c -> CommittedPlusOne t <= cOffset c
            end;
  er_flag : cm ++ rd <> [] -> donePrefix D rest <> [] -> NeedsGapAdvance t = true;
  er_first : cm ++ rd = [] -> donePrefix D rest = []
}.

Definition epochInv (stream : list Core) D (k : nat) (t : OffsetsTracker) : Prop :=
  exists cm rd rest, epochRel stream D k t cm rd rest.

(** The rest of the stream chains to the last record taken. *)
Lemma stream_chain cm rest c :
  epochStream (cm ++ rest) -> last cm = Some c -> chain (cOffset c) rest /\ 0 <= cOffset c.
Proof.
  destruct cm as [|d cm]; [done|]. simpl. intros (_ & H0 & _ & [Hc1 Hc2]%chain_app) Hl.
  rewrite last_cons in Hl. destruct (last cm) as [e|] eqn:E; simpl in Hl; injection Hl as <-; simpl in Hc2.
  - split; [done|]. apply last_Some_elem_of in E. pose proof (chain_lt _ _ _ Hc1 E). lia.
  - done.
Qed.

(** A strictly sorted rearrangement of completed stream items is their order
    in the stream. *)
Lemma sorted_doneItems D rest (b : Slice WorkItem) :
  StronglySorted (fun a b => cOffset a < cOffset b) rest ->
  cores (elems b) ≡ₚ doneItems D rest -> cores (elems (sortGapBuffer b)) = doneItems D rest.
Proof.
  intros Hs Hb.
  assert (Hsd : StronglySorted (fun a b => cOffset a < cOffset b) (doneItems D rest))
    by by apply StronglySorted_filter.
  apply (StronglySorted_unique (fun a b => cOffset a < cOffset b)).
  - pose proof (sortGapBuffer_sorted b) as H. unfold cores.
    induction H as [|g l H IH Hall]; simpl; constructor; [done|]. rewrite Forall_map. exact Hall.
  - done.
  - rewrite <- Hb. unfold cores. apply Permutation_map, sortGapBuffer_perm.
    unfold offsetsDistinct.
    assert (E : map offsetOf (elems b) ≡ₚ map cOffset (doneItems D rest)).
    { rewrite <- Hb. unfold cores. by rewrite map_map. }
    rewrite E. clear -Hsd. induction Hsd as [|c l Hs IH Hall]; simpl; constructor; [|done].
    intros (d & E & Hd)%list_elem_of_fmap. rewrite Forall_forall in Hall. specialize (Hall d Hd). lia.
Qed.

Lemma epochStream_sorted stream :
  epochStream stream -> StronglySorted (fun a b => cOffset a < cOffset b) stream.
Proof.
  destruct stream as [|c l]; [constructor|]. intros (_ & _ & _ & Hc).
  constructor; [by eapply chain_sorted|]. apply Forall_forall. intros x. by apply chain_lt.
Qed.

Lemma stream_int64 stream c : epochStream stream -> c ∈ stream -> in_int64 (cOffset c + 1).
Proof.
  assert (Hchain : forall p l, chain p l -> c ∈ l -> in_int64 (cOffset c + 1)).
  { intros p l. revert p. induction l as [|d l IH]; intros p Hc Hin; [by apply not_elem_of_nil in Hin|].
    destruct Hc as (_ & _ & _ & Hi & Hc). apply elem_of_cons in Hin as [->|Hin]; [done | by eapply IH]. }
  destruct stream as [|d l]; intros Hst Hin; [by apply not_elem_of_nil in Hin|].
  destruct Hst as (_ & _ & Hi & Hc). apply elem_of_cons in Hin as [->|Hin]; [done | by eapply Hchain].
Qed.

Lemma sorted_drop (l1 l2 : list Core) :
  StronglySorted (fun a b => cOffset a < cOffset b) (l1 ++ l2) ->
  StronglySorted (fun a b => cOffset a < cOffset b) l2 /\
  forall a b, a ∈ l1 -> b ∈ l2 -> cOffset a < cOffset b.
Proof.
  induction l1 as [|c l1 IH]; simpl; intros Hs.
  - split; [done|]. intros a b Ha. by apply not_elem_of_nil in Ha.
  - apply StronglySorted_inv in Hs as [Hs Hall]. destruct (IH Hs) as [? Hlt]. split; [done|].
    rewrite Forall_forall in Hall.
    intros a b [->|Ha]%elem_of_cons Hb; [apply Hall, elem_of_app; by right | by apply Hlt].
Qed.

Lemma cores_drop n (ws : list WorkItem) : cores (drop n ws) = drop n (cores ws).
Proof. apply fmap_drop. Qed.

(** What the walk of a flush does to an epoch. *)
Lemma flush_walk stream D k t cm rd rest now (buf : list WorkItem) :
  epochStream stream -> epochRel stream D k t cm rd rest -> cores buf = doneItems D rest ->
  let '(r', n, _) := walk now (CommittedPlusOne t) (LastCommittedOffset t) (Ready t) buf in
  core <$> r' = last (rd ++ donePrefix D rest) /\ n = length (donePrefix D rest).
Proof.
  intros Hst HR Hbuf. pose proof (er_stream _ _ _ _ _ _ _ HR) as Hs. rewrite app_assoc in Hs.
  pose proof (er_ready _ _ _ _ _ _ _ HR) as Hr. pose proof (er_base _ _ _ _ _ _ _ HR) as Hb.
  rewrite last_app. destruct (last rd) as [c|] eqn:Erd.
  - destruct (Ready t) as [r|]; [|done]. injection Hr as Hr.
    destruct (stream_chain (cm ++ rd) rest c) as [Hc _];
      [by rewrite <- Hs | by rewrite last_app, Erd |].
    pose proof (walk_chain now (CommittedPlusOne t) (LastCommittedOffset t) D rest r buf) as HW.
    assert (Ho : offsetOf r = cOffset c) by (by rewrite <- Hr).
    rewrite Ho in HW. specialize (HW Hc Hbuf). destruct (walk _ _ _ _ _) as [[r' n] out].
    destruct HW as [-> ->]. split; [|done]. rewrite Hr. by destruct (last (donePrefix D rest)).
  - destruct (Ready t); [done|]. destruct (last cm) as [c|] eqn:Ecm.
    + destruct Hb as [-> ->]. destruct (stream_chain (cm ++ rd) rest c) as [Hc H0];
        [by rewrite <- Hs | by rewrite last_app, Erd, Ecm |].
      pose proof (walk_committed now (cOffset c) D rest buf H0 Hc Hbuf) as HW.
      destruct (walk _ _ _ _ _) as [[r' n] out]. destruct HW as [-> ->]. split; [|done].
      by destruct (last (donePrefix D rest)).
    + apply last_None in Ecm, Erd. subst. pose proof (er_first _ _ _ _ _ _ _ HR eq_refl) as Hf.
      destruct Hb as [-> Hcpo]. rewrite walk_blocked; [by rewrite Hf|].
      intros g Hg. destruct rest as [|c rest].
      * destruct buf; [by apply not_elem_of_nil in Hg | done].
      * specialize (Hcpo c eq_refl). simpl in Hf. destruct (decide (cOffset c ∈ D)); [done|].
        assert (Hin : core g ∈ doneItems D (c :: rest)).
        { rewrite <- Hbuf. by apply list_elem_of_fmap_2. }
        unfold doneItems in Hin. rewrite filter_cons, decide_False in Hin by done.
        apply list_elem_of_filter in Hin as [_ Hin].
        destruct Hst as (_ & _ & _ & Hc). pose proof (chain_lt _ _ _ Hc Hin). simpl in *. lia.
Qed.

(** After a flush [Ready] is at the end of the completed prefix. *)
Lemma flush_epoch stream D k t size size70 now :
  epochStream stream -> epochInv stream D k t ->
  exists cm rd rest, epochRel stream D k (flushTracker size size70 now t).1 cm rd rest /\
    donePrefix D stream = cm ++ rd /\ donePrefix D rest = [] /\
    NeedsGapAdvance (flushTracker size size70 now t).1 = false.
Proof.
  intros Hst (cm & rd & rest & HR). pose proof HR as [H1 H2 H3 H4 H5 H6 H7 H8].
  assert (Hpre : donePrefix D stream = (cm ++ rd) ++ donePrefix D rest).
  { rewrite H1, app_assoc. by apply donePrefix_all. }
  destruct (decide (NeedsGapAdvance t = true /\ elems (GapBuffer t) <> [])) as [[Hn Hb]|Hno].
  - pose proof (flushTracker_items size size70 now t Hn Hb) as HF. cbv zeta in HF.
    assert (Hsort : cores (elems (sortGapBuffer (GapBuffer t))) = doneItems D rest).
    { apply sorted_doneItems; [|done]. apply epochStream_sorted in Hst. rewrite H1, app_assoc in Hst.
      by apply sorted_drop in Hst as [? _]. }
    pose proof (flush_walk stream D k t cm rd rest now _ Hst HR Hsort) as HW.
    destruct (walk _ _ _ _ _) as [[r n] out]. destruct (flushTracker _ _ _ _) as [t' out'].
    destruct HF as (_ & HRd & HB & HF & HC & HL & _). destruct HW as [HWr ->]. simpl.
    exists cm, (rd ++ donePrefix D rest), (drop (length (donePrefix D rest)) rest).
    destruct (donePrefix_app D rest) as [tl Htl].
    assert (Hdrop : drop (length (donePrefix D rest)) rest = tl)
      by (rewrite Htl at 2; apply drop_app_length).
    assert (Hstop : donePrefix D tl = []) by (rewrite <- Hdrop; apply donePrefix_stop).
    rewrite Hdrop. split_and!; [|by rewrite Hpre, app_assoc | done | done]. split; try done.
    + by rewrite H1, Htl at 1; rewrite !app_assoc.
    + rewrite app_assoc. apply Forall_app. split; [done | apply donePrefix_Forall].
    + by rewrite HRd.
    + rewrite HB, cores_drop, Hsort, doneItems_prefix, drop_app_length. by rewrite Hdrop.
    + by rewrite HC, HL.
  - rewrite flushTracker_idle.
    2: { destruct (NeedsGapAdvance t); [|by left]. right. destruct (elems (GapBuffer t)); [done|].
         destruct Hno. done. }
    assert (Hstop : donePrefix D rest = []).
    { destruct (decide (cm ++ rd = [])) as [?|Hne]; [by apply H8|].
      destruct (decide (donePrefix D rest = [])) as [?|Hp]; [done|].
      specialize (H7 Hne Hp). destruct (elems (GapBuffer t)) eqn:Eb; [|by destruct Hno].
      simpl in H5. rewrite doneItems_prefix in H5. apply Permutation_nil_l in H5. symmetry in H5.
      by apply app_nil in H5 as [? _]. }
    exists cm, rd, rest. split_and!; [|by rewrite Hpre, Hstop, app_nil_r | done | done].
    split; try done.
Qed.

(** ** Arrival of a completion *)

Lemma donePrefix_add D l1 c l2 :
  (forall d, d ∈ l1 ++ l2 -> cOffset d <> cOffset c) -> l1 <> [] ->
  donePrefix D (l1 ++ c :: l2) <> [] <-> donePrefix ({[cOffset c]} ∪ D) (l1 ++ c :: l2) <> [].
Proof.
  destruct l1 as [|d l1]; [done|]. intros Hd _. simpl. specialize (Hd d ltac:(left)).
  destruct (decide (cOffset d ∈ D)) as [HD|HD], (decide (cOffset d ∈ {[cOffset c]} ∪ D)) as [HD'|HD']; try done.
  - destruct HD'. by apply elem_of_union_r.
  - by apply elem_of_union in HD' as [?%elem_of_singleton|?].
Qed.

Lemma doneItems_other D c l :
  (forall d, d ∈ l -> cOffset d <> cOffset c) -> doneItems ({[cOffset c]} ∪ D) l = doneItems D l.
Proof.
  unfold doneItems. induction l as [|d l IH]; intros Hd; [done|].
  rewrite !filter_cons, IH by (intros; apply Hd; by right). specialize (Hd d ltac:(left)).
  destruct (decide (cOffset d ∈ D)) as [H|H].
  - by rewrite decide_True by (by apply elem_of_union_r).
  - rewrite decide_False; [done|]. by intros [?%elem_of_singleton|?]%elem_of_union.
Qed.

Lemma doneItems_add D l1 c l2 :
  (forall d, d ∈ l1 ++ l2 -> cOffset d <> cOffset c) -> cOffset c ∉ D ->
  doneItems ({[cOffset c]} ∪ D) (l1 ++ c :: l2) ≡ₚ c :: doneItems D (l1 ++ c :: l2).
Proof.
  intros Hd Hc. unfold doneItems. rewrite !filter_app, !filter_cons.
  rewrite (decide_False (P := cOffset c ∈ D)) by done.
  rewrite (decide_True (P := cOffset c ∈ {[cOffset c]} ∪ D)) by (apply elem_of_union_l; by apply elem_of_singleton).
  pose proof (doneItems_other D c l1) as E1. pose proof (doneItems_other D c l2) as E2.
  unfold doneItems in E1, E2. rewrite E1, E2; [solve_Permutation | |]; intros; apply Hd, elem_of_app; tauto.
Qed.

(** The item becomes [Ready]: the head of the rest is taken. *)
Lemma promote_epoch stream D k t cm rd c rest w :
  epochStream stream -> epochRel stream D k t cm rd (c :: rest) -> core w = c -> cOffset c ∉ D ->
  epochRel stream ({[cOffset c]} ∪ D) k
    (advanceThroughGapBuffer (setReady (Some w) t) (offsetOf w)) cm (rd ++ [c]) rest.
Proof.
  intros Hst [H1 H2 H3 H4 H5 H6 H7 H8] Hw HcD.
  pose proof (epochStream_sorted stream Hst) as Hs. rewrite H1, app_assoc in Hs.
  apply sorted_drop in Hs as [Hs _]. apply StronglySorted_inv in Hs as [_ Hall].
  rewrite Forall_forall in Hall.
  assert (Hne : forall d, d ∈ rest -> cOffset d <> cOffset c) by (intros d Hd; specialize (Hall d Hd); lia).
  assert (Hbuf : cores (elems (GapBuffer t)) ≡ₚ doneItems ({[cOffset c]} ∪ D) rest).
  { rewrite H5, doneItems_other by done. unfold doneItems. by rewrite filter_cons, decide_False. }
  set (t' := advanceThroughGapBuffer _ _).
  assert (Hf : Ready t' = Some w /\ GapBuffer t' = GapBuffer t /\
               CommittedPlusOne t' = CommittedPlusOne t /\ LastCommittedOffset t' = LastCommittedOffset t).
  { unfold t', advanceThroughGapBuffer. by destruct (existsb _ _). }
  destruct Hf as (HR & HB & HC & HL). split; try done.
  - by rewrite H1, <- !app_assoc.
  - rewrite app_assoc. apply Forall_app. split.
    + eapply Forall_impl; [exact H3|]. intros d. apply elem_of_union_r.
    + constructor; [|constructor]. apply elem_of_union_l. by apply elem_of_singleton.
  - rewrite HR, last_snoc. simpl. by rewrite Hw.
  - by rewrite HB.
  - by rewrite HC, HL.
  - intros _ Hp. destruct rest as [|d rest]; [done|]. simpl in Hp.
    destruct (decide (cOffset d ∈ {[cOffset c]} ∪ D)) as [Hd|]; [|done].
    assert (Hin : d ∈ cores (elems (GapBuffer t))).
    { rewrite Hbuf. apply list_elem_of_filter. split; [done | by left]. }
    apply list_elem_of_fmap in Hin as (g & -> & Hg). unfold t', advanceThroughGapBuffer.
    assert (Hex : existsb (fun g => offsetOf w =? PreviousOffset g)
                    (elems (GapBuffer (setReady (Some w) t))) = true).
    { apply existsb_exists. exists g. split; [by apply list_elem_of_In|]. apply Z.eqb_eq.
      destruct (stream_chain ((cm ++ rd) ++ [c]) (core g :: rest) c) as [(Hp' & _) _].
      - rewrite H1 in Hst. rewrite <- !app_assoc. exact Hst.
      - by rewrite last_snoc.
      - simpl in Hp'. rewrite Hp', <- Hw. done. }
    by rewrite Hex.
  - by destruct cm, rd.
Qed.

(** The item is buffered.  [n] is the new flag: raised if it was, and raised if
    the item is the next one to commit. *)
Lemma buffer_epoch stream D k t cm rd l1 c l2 w n :
  epochStream stream -> epochRel stream D k t cm rd (l1 ++ c :: l2) -> core w = c -> cOffset c ∉ D ->
  (NeedsGapAdvance t = true -> n = true) ->
  (l1 = [] -> n = true /\ cm ++ rd <> []) ->
  epochRel stream ({[cOffset c]} ∪ D) k (setNeedsGapAdvance n (addToGapBuffer t w)) cm rd (l1 ++ c :: l2).
Proof.
  intros Hst [H1 H2 H3 H4 H5 H6 H7 H8] Hw HcD Hn Hl1.
  pose proof (epochStream_sorted stream Hst) as Hs. rewrite H1, app_assoc in Hs.
  apply sorted_drop in Hs as [Hs _].
  assert (Hne : forall d, d ∈ l1 ++ l2 -> cOffset d <> cOffset c).
  { apply sorted_drop in Hs as [Hs Hlt]. apply StronglySorted_inv in Hs as [_ Hall].
    rewrite Forall_forall in Hall. intros d [Hd|Hd]%elem_of_app.
    - specialize (Hlt d c Hd ltac:(left)). lia.
    - specialize (Hall d Hd). lia. }
  split; try done; simpl.
  - eapply Forall_impl; [exact H3|]. intros d. apply elem_of_union_r.
  - rewrite cores_app, doneItems_add, <- H5 by done. cbn. rewrite core_mark, Hw. solve_Permutation.
  - intros Hcr Hp. destruct l1 as [|d l1]; [by apply Hl1|].
    apply Hn, H7; [done|]. by apply (donePrefix_add D (d :: l1)).
  - intros Hcr. destruct l1 as [|d l1]; [by destruct (Hl1 eq_refl)|].
    destruct (decide (donePrefix ({[cOffset c]} ∪ D) ((d :: l1) ++ c :: l2) = [])) as [?|Hp]; [done|].
    apply (donePrefix_add D (d :: l1)) in Hp; [|done|done]. by rewrite H8 in Hp.
Qed.

(** The position of an arriving record in the rest of the stream. *)
Lemma arrive_split stream D k t cm rd rest c :
  epochRel stream D k t cm rd rest -> c ∈ stream -> cOffset c ∉ D ->
  exists l1 l2, rest = l1 ++ c :: l2.
Proof.
  intros [H1 _ H3 _ _ _ _ _] Hin HcD. rewrite H1, app_assoc in Hin.
  apply elem_of_app in Hin as [Hin|Hin].
  - rewrite Forall_forall in H3. by destruct (HcD (H3 c Hin)).
  - by apply list_elem_of_split in Hin.
Qed.

(** Where an arriving record stands relative to the last one taken. *)
Lemma arrive_position stream cm l1 c l2 e :
  epochStream stream -> stream = cm ++ l1 ++ c :: l2 -> last cm = Some e ->
  cFirst c = false /\ cOffset e < cOffset c /\
  (l1 = [] -> cPrev c = cOffset e) /\
  (l1 <> [] -> cOffset e < cPrev c /\ cOffset e + 1 < cOffset c).
Proof.
  intros Hst -> Hl. destruct (stream_chain _ _ _ Hst Hl) as [Hc _].
  pose proof (chain_lt _ _ c Hc ltac:(apply elem_of_app; right; left)) as Hlt.
  split_and!; [| done | |].
  - apply chain_app in Hc as [_ (_ & _ & ? & _)]. done.
  - intros ->. by destruct Hc as (? & _).
  - destruct l1 as [|d l1]; [done|]. intros _. simpl in Hc.
    pose proof (chain_prev (cOffset e) (d :: l1 ++ c :: l2) c Hc
                  ltac:(simpl; apply elem_of_app; right; left) d eq_refl) as Hp.
    destruct Hc as (_ & Hd & _ & _ & Hc).
    pose proof (chain_lt _ _ c Hc ltac:(apply elem_of_app; right; left)). lia.
Qed.

Lemma setNeedsGapAdvance_id t : setNeedsGapAdvance (NeedsGapAdvance t) t = t.
Proof. by destruct t. Qed.

Lemma epochRel_observe stream D k t cm rd rest o :
  epochRel stream D k t cm rd rest -> epochRel stream D k (observeOffset o t) cm rd rest.
Proof. intros []. unfold observeOffset. destruct (_ <? _); [by split|]. destruct (_ >? _); by split. Qed.

(** With some record already taken: the next record extends the run, any other
    waits in the buffer. *)
Lemma arrive_later stream D k t cm rd rest w now e :
  epochStream stream -> epochRel stream D k t cm rd rest -> core w ∈ stream -> offsetOf w ∉ D ->
  last (cm ++ rd) = Some e ->
  First w = false /\ epochInv stream ({[offsetOf w]} ∪ D) k (checkAndAdvance t w (offsetOf w) now).1.
Proof.
  intros Hst HR Hin HwD He. destruct (arrive_split _ _ _ _ _ _ _ _ HR Hin HwD) as (l1 & l2 & ->).
  pose proof (er_stream _ _ _ _ _ _ _ HR) as Hs. rewrite app_assoc in Hs.
  destruct (arrive_position _ _ _ _ _ _ Hst Hs He) as (Hf & Hlt & Hnext & Hlater). simpl in *.
  split; [done|].
  assert (Hne : cm ++ rd <> []) by (intros E; by rewrite E in He).
  assert (Hpromote : l1 = [] -> epochInv stream ({[offsetOf w]} ∪ D) k
            (advanceThroughGapBuffer (setReady (Some (stamp now w)) t) (offsetOf (stamp now w)))).
  { intros ->. eexists _, _, _. by apply (promote_epoch stream D k t cm rd (core w) l2 (stamp now w)). }
  assert (Hbuffer : forall n, (NeedsGapAdvance t = true -> n = true) -> (l1 = [] -> n = true) ->
            epochInv stream ({[offsetOf w]} ∪ D) k (setNeedsGapAdvance n (addToGapBuffer t w))).
  { intros n Hn Hl1. eexists _, _, _. apply (buffer_epoch stream D k t cm rd l1 (core w) l2); auto. }
  pose proof (Hbuffer (NeedsGapAdvance (addToGapBuffer t w))) as Hkeep.
  rewrite setNeedsGapAdvance_id in Hkeep.
  assert (Hl1 : l1 = [] \/ l1 <> []) by (destruct l1; auto).
  rewrite last_app in He. pose proof (er_ready _ _ _ _ _ _ _ HR) as Hr.
  pose proof (er_base _ _ _ _ _ _ _ HR) as Hb.
  unfold checkAndAdvance. destruct (last rd) as [c|].
  - injection He as ->. destruct (Ready t) as [r|]; [|done]. injection Hr as Hr.
    assert (Ho : offsetOf r = cOffset e) by (by rewrite <- Hr). rewrite !Ho. rewrite Z.gtb_ltb.
    destruct (Z.ltb_spec (offsetOf w) (cOffset e)); [lia|].
    destruct (Z.eqb_spec (cOffset e) (offsetOf w)); [lia|]. rewrite orb_false_r.
    destruct Hl1 as [E|E].
    + rewrite (Hnext E), Z.eqb_refl. by apply Hpromote.
    + specialize (Hlater E). destruct (Z.eqb_spec (cOffset e) (PreviousOffset w)); [lia|]. by apply Hkeep.
  - destruct (Ready t); [done|]. rewrite He in Hb. destruct Hb as [Hcpo Hlast]. rewrite !Hcpo.
    rewrite Z.gtb_ltb. destruct (Z.eqb_spec (cOffset e + 1) (offsetOf w)).
    + destruct Hl1 as [E|E]; [by apply Hpromote | specialize (Hlater E); lia].
    + destruct (Z.ltb_spec (offsetOf w) (cOffset e + 1)); [lia|].
      change (CommittedPlusOne (addToGapBuffer t w)) with (CommittedPlusOne t).
      change (LastCommittedOffset (addToGapBuffer t w)) with (LastCommittedOffset t).
      destruct (stream_chain cm (rd ++ l1 ++ core w :: l2) e) as [_ H0]; [|done|].
      { by rewrite app_assoc, <- Hs. }
      rewrite Hcpo, Hlast, Z.geb_leb. destruct (Z.leb_spec 0 (cOffset e)); [|lia].
      destruct (Z.eqb_spec (offsetOf w) (cOffset e + 1)); [lia|]. simpl.
      destruct (Z.eqb_spec (PreviousOffset w) (cOffset e)); [by apply Hbuffer|].
      apply Hkeep; [done|]. intros E. exfalso. specialize (Hnext E). lia.
Qed.

(** Before the first record of the epoch: it opens the run; others wait. *)
Lemma arrive_first stream D k t rest w now :
  epochStream stream -> epochRel stream D k t [] [] rest -> core w ∈ stream -> offsetOf w ∉ D ->
  epochInv stream ({[offsetOf w]} ∪ D) k (processItem t w now).1.
Proof.
  intros Hst HR Hin HwD. destruct (arrive_split _ _ _ _ _ _ _ _ HR Hin HwD) as (l1 & l2 & ->).
  pose proof (er_stream _ _ _ _ _ _ _ HR) as Hs. simpl in Hs. pose proof Hst as Hst0.
  pose proof (er_ready _ _ _ _ _ _ _ HR) as Hr. destruct (er_base _ _ _ _ _ _ _ HR) as [Hlast Hcpo].
  destruct (Ready t) eqn:Er; [done|]. unfold processItem, checkAndAdvance.
  destruct l1 as [|d l1]; rewrite Hs in Hst; simpl in Hst, Hs.
  - destruct Hst as (Hf & H0 & Hi & Hc). simpl in Hf. rewrite Hf.
    specialize (Hcpo (core w)). rewrite Hs in Hcpo. specialize (Hcpo eq_refl). simpl in Hcpo.
    rewrite Z.geb_leb. destruct (Z.leb_spec (CommittedPlusOne t) (offsetOf w)); [|lia].
    simpl. rewrite Er, Z.eqb_refl. eexists _, _, _.
    apply (promote_epoch stream D k (setCommittedPlusOne (offsetOf w) t) [] [] (core w) l2
             (stamp now (mark SetFirstAfterRebalance w))); try done.
    destruct HR as [H1 H2 H3 H4 H5 H6 H7 H8]. split; try done. simpl. split; [done|].
    rewrite Hs. intros c [= <-]. simpl. lia.
  - destruct Hst as (_ & H0 & Hi & Hc). apply chain_app in Hc as [Hc1 Hc2].
    destruct Hc2 as (_ & Hlt & Hf & _). simpl in Hf. rewrite Hf, Er.
    specialize (Hcpo d). rewrite Hs in Hcpo. specialize (Hcpo eq_refl).
    assert (Hd : cOffset d < offsetOf w).
    { destruct (last l1) as [e|] eqn:El; simpl in Hlt; [|done].
      apply last_Some_elem_of in El. pose proof (chain_lt _ _ _ Hc1 El). lia. }
    destruct (Z.eqb_spec (CommittedPlusOne t) (offsetOf w)); [lia|]. rewrite Z.gtb_ltb.
    destruct (Z.ltb_spec (offsetOf w) (CommittedPlusOne t)); [lia|].
    change (CommittedPlusOne (addToGapBuffer t w)) with (CommittedPlusOne t).
    change (LastCommittedOffset (addToGapBuffer t w)) with (LastCommittedOffset t).
    rewrite Hlast. destruct (Z.eqb_spec (offsetOf w) (CommittedPlusOne t)); [lia|]. simpl.
    eexists _, _, _. rewrite <- (setNeedsGapAdvance_id (addToGapBuffer t w)).
    apply (buffer_epoch stream D k t [] [] (d :: l1) (core w) l2); try done.
Qed.

Lemma arrive_epoch stream D k t w now :
  epochStream stream -> core w ∈ stream -> offsetOf w ∉ D -> epochInv stream D k t ->
  epochInv stream ({[offsetOf w]} ∪ D) k (processItem (observeOffset (offsetOf w) t) w now).1.
Proof.
  intros Hst Hin HwD (cm & rd & rest & HR). apply (epochRel_observe _ _ _ _ _ _ _ (offsetOf w)) in HR.
  destruct (last (cm ++ rd)) as [e|] eqn:E.
  - destruct (arrive_later _ _ _ _ _ _ _ w now e Hst HR Hin HwD E) as [Hf H].
    unfold processItem. by rewrite Hf.
  - apply last_None, app_nil in E as [-> ->]. by eapply arrive_first.
Qed.

(** ** Ticks *)

(** After a flush the repair finds nothing to promote. *)
Lemma repair_idle stream D k t cm rest now :
  epochStream stream -> epochRel stream D k t cm [] rest -> donePrefix D rest = [] ->
  repairSuccessor t now = (t, []).
Proof.
  intros Hst HR Hstop.
  destruct (repairSuccessor_cases t now) as [E|(s & kept & pruned & _ & _ & HL & Hf & _ & _)]; [done|].
  exfalso. apply findSuccessor_some in Hf as (Hs & [Hge Hev] & _).
  destruct HR as [H1 _ _ _ H5 H6 _ _]. simpl in H1.
  destruct (last cm) as [e|] eqn:Ee; [|lia]. destruct H6 as [Hcpo Hlast].
  rewrite H1 in Hst. destruct (stream_chain _ _ _ Hst Ee) as [Hc _].
  assert (Hin : core s ∈ doneItems D rest) by (rewrite <- H5; by apply list_elem_of_fmap_2).
  apply list_elem_of_filter in Hin as [HsD Hin]. destruct rest as [|d rest]; [by apply not_elem_of_nil in Hin|].
  simpl in Hstop. destruct (decide (cOffset d ∈ D)) as [|HdD]; [done|].
  apply elem_of_cons in Hin as [<-|Hin]; [done|].
  pose proof (chain_prev (cOffset e) (d :: rest) _ Hc Hin d eq_refl) as Hp.
  destruct Hc as (_ & Hd & _ & _ & Hc). pose proof (chain_lt _ _ _ Hc Hin) as Hlt. simpl in *. lia.
Qed.

(** The [Ready] record is at or above the baseline. *)
Lemma ready_above stream D k t cm rd rest c :
  epochStream stream -> epochRel stream D k t cm rd rest -> last rd = Some c ->
  CommittedPlusOne t <= cOffset c /\ LastCommittedOffset t < cOffset c.
Proof.
  intros Hst HR Erd. pose proof (er_base _ _ _ _ _ _ _ HR) as Hb.
  pose proof (er_stream _ _ _ _ _ _ _ HR) as Hs. pose proof (epochStream_sorted stream Hst) as Hsort.
  pose proof (last_Some_elem_of _ _ Erd) as Hin. destruct (last cm) as [e|] eqn:Ee.
  - destruct Hb as [-> ->]. rewrite Hs in Hsort. apply sorted_drop in Hsort as [_ Hlt].
    pose proof (Hlt e c (last_Some_elem_of _ _ Ee) ltac:(apply elem_of_app; by left)). lia.
  - destruct Hb as [-> Hb]. apply last_None in Ee. subst cm. simpl in Hs.
    destruct rd as [|d rd]; [by apply not_elem_of_nil in Hin|]. rewrite Hs in Hb, Hst.
    specialize (Hb d eq_refl). destruct Hst as (_ & H0 & _ & Hc).
    apply elem_of_cons in Hin as [->|Hin]; [lia|].
    pose proof (chain_lt _ _ c Hc ltac:(apply elem_of_app; by left)). lia.
Qed.

(** The commit of a tick: nothing, or the last record of the completed prefix. *)
Lemma collect_epoch stream D k t cm rd rest now :
  epochStream stream -> epochRel stream D k t cm rd rest -> donePrefix D rest = [] ->
  exists m, collectCommit true now t = (t, ([], m)) /\ Offset <$> m = cOffset <$> last rd.
Proof.
  intros Hst HR Hstop. unfold collectCommit. simpl.
  pose proof (er_ready _ _ _ _ _ _ _ HR) as Hr. destruct (last rd) as [c|] eqn:Erd.
  - destruct (Ready t) as [r|] eqn:Er; [|done]. injection Hr as Hr. rewrite Er.
    destruct (ready_above _ _ _ _ _ _ _ c Hst HR Erd) as [Hge _].
    assert (Ho : offsetOf r = cOffset c) by (by rewrite <- Hr).
    destruct (Z.ltb_spec (offsetOf r) (CommittedPlusOne t)); [lia|].
    eexists. split; [done|]. simpl. by rewrite <- Hr.
  - apply last_None in Erd. subst rd. destruct (Ready t) eqn:Er; [done|].
    rewrite (repair_idle stream D k t cm rest now) by done. rewrite Er. by exists None.
Qed.

Lemma ack_epoch stream D k t cm rd rest c :
  epochStream stream -> epochRel stream D k t cm rd rest -> donePrefix D rest = [] ->
  last rd = Some c ->
  epochInv stream D (length (cm ++ rd)) (ackCommit (cOffset c) t).1.
Proof.
  intros Hst HR0 Hstop Hc. pose proof (ready_above _ _ _ _ _ _ _ c Hst HR0 Hc) as [Hcpo Hlst].
  destruct HR0 as [H1 H2 H3 H4 H5 H6 H7 H8]. assert (Hin : c ∈ stream).
  { rewrite H1. apply elem_of_app. right. apply elem_of_app. left. by apply last_Some_elem_of. }
  pose proof (stream_int64 stream c Hst Hin) as Hi.
  destruct (ackCommit_forward (cOffset c) t Hi) as (HC & HL & HR).
  exists (cm ++ rd), [], rest. split.
  - by rewrite H1, app_assoc.
  - done.
  - by rewrite app_nil_r.
  - by rewrite HR.
  - rewrite <- H5. unfold ackCommit. by destruct (_ >? CommittedPlusOne t), (_ >? LastCommittedOffset _); simpl; destruct (_ >? 0).
  - rewrite last_app, Hc, HC, HL. lia.
  - done.
  - by rewrite app_nil_r; destruct cm, rd.
Qed.

(** ** The specification and the refinement *)

Inductive EpochOp := Arrive (w : WorkItem) | FlushOp | TickOp (acked : bool).

Record EpochSpec := mkEpochSpec { completed : gset Z; committedCount : nat }.

(** A step of the specification: the committed offset, if the step commits. *)
Definition specStep (stream : list Core) (s : EpochSpec) (op : EpochOp) : EpochSpec * option Z :=
  match op with
  | Arrive w => (mkEpochSpec ({[offsetOf w]} ∪ completed s) (committedCount s), None)
  | FlushOp => (s, None)
  | TickOp acked =>
      let prefix := donePrefix (completed s) stream in
      if (committedCount s <? length prefix)%nat
      then (mkEpochSpec (completed s) (if acked then length prefix else committedCount s),
            cOffset <$> last prefix)
      else (s, None)
  end.

(** The same step of the tracker, as [processCommit], [flushGapBuffers] and
    [CommitOffsets] perform it on an assigned partition. *)
Definition trackerStep (size size70 now : Z) (t : OffsetsTracker) (op : EpochOp)
    : OffsetsTracker * option Z :=
  match op with
  | Arrive w => ((processItem (observeOffset (offsetOf w) t) w now).1, None)
  | FlushOp => ((flushTracker size size70 now t).1, None)
  | TickOp acked =>
      let '(t, (_, m)) := collectCommit true now (flushTracker size size70 now t).1 in
      match m with
      | None => (t, None)
      | Some msg => (if acked then (ackCommit (Offset msg) t).1 else t, Some (Offset msg))
      end
  end.

(** Each record of the stream completes at most once. *)
Definition opOk (stream : list Core) (s : EpochSpec) (op : EpochOp) : Prop :=
  match op with
  | Arrive w => core w ∈ stream /\ (offsetOf w ∉ completed s)
  | _ => True
  end.

Fixpoint specRun stream s (ops : list EpochOp) : EpochSpec * list (option Z) :=
  match ops with
  | [] => (s, [])
  | op :: ops' =>
      let '(s', o) := specStep stream s op in
      let '(s'', os) := specRun stream s' ops' in (s'', o :: os)
  end.

Fixpoint trackerRun size size70 now t (ops : list EpochOp) : OffsetsTracker * list (option Z) :=
  match ops with
  | [] => (t, [])
  | op :: ops' =>
      let '(t', o) := trackerStep size size70 now t op in
      let '(t'', os) := trackerRun size size70 now t' ops' in (t'', o :: os)
  end.

Fixpoint opsOk stream s (ops : list EpochOp) : Prop :=
  match ops with
  | [] => True
  | op :: ops' => opOk stream s op /\ opsOk stream (specStep stream s op).1 ops'
  end.

Definition specRel stream (s : EpochSpec) t : Prop := epochInv stream (completed s) (committedCount s) t.

Lemma step_refines stream size size70 now s t op :
  epochStream stream -> opOk stream s op -> specRel stream s t ->
  (trackerStep size size70 now t op).2 = (specStep stream s op).2 /\
  specRel stream (specStep stream s op).1 (trackerStep size size70 now t op).1.
Proof.
  intros Hst Hok HR. destruct op as [w| |acked]; simpl.
  - split; [done|]. destruct Hok. by apply arrive_epoch.
  - split; [done|]. destruct (flush_epoch stream _ _ t size size70 now Hst HR) as (cm & rd & rest & H & _).
    by exists cm, rd, rest.
  - destruct (flush_epoch stream _ _ t size size70 now Hst HR) as (cm & rd & rest & H & Hpre & Hstop & _).
    destruct (collect_epoch _ _ _ _ _ _ _ now Hst H Hstop) as (m & -> & Hm).
    rewrite Hpre, length_app, (er_committed _ _ _ _ _ _ _ H), last_app.
    destruct (last rd) as [c|] eqn:Erd.
    + destruct m as [msg|]; [|done]. injection Hm as Hm.
      destruct (Nat.ltb_spec (committedCount s) (committedCount s + length rd));
        [|destruct rd; [done | simpl in *; lia]].
      simpl. rewrite Hm. split; [done|]. destruct acked.
      * unfold specRel. simpl. rewrite <- (er_committed _ _ _ _ _ _ _ H), <- length_app.
        by eapply ack_epoch.
      * by exists cm, rd, rest.
    + destruct m as [msg|]; [done|]. apply last_None in Erd. subst rd.
      destruct (Nat.ltb_spec (committedCount s) (committedCount s + length (@nil Core)));
        [simpl in *; lia|]. split; [done|]. by exists cm, [], rest.
Qed.

Lemma run_refines stream size size70 now s t ops :
  epochStream stream -> opsOk stream s ops -> specRel stream s t ->
  (trackerRun size size70 now t ops).2 = (specRun stream s ops).2 /\
  specRel stream (specRun stream s ops).1 (trackerRun size size70 now t ops).1.
Proof.
  intros Hst. revert s t. induction ops as [|op ops IH]; intros s t Hok HR; [done|].
  destruct Hok as [Hop Hok]. destruct (step_refines stream size size70 now s t op Hst Hop HR) as [Ho HR'].
  simpl. destruct (specStep stream s op) as [s' o], (trackerStep _ _ _ t op) as [t' o']. simpl in *. subst.
  specialize (IH s' t' Hok HR'). destruct (specRun stream s' ops), (trackerRun _ _ _ t' ops).
  simpl in *. destruct IH as [-> ?]. done.
Qed.

(** A tracker at the start of an epoch: the one [processCommit] creates, or one
    [ResetCommittedOffsets] has just given a baseline at or below the stream. *)
Record epochStart (stream : list Core) (t : OffsetsTracker) : Prop := {
  es_ready : Ready t = None;
  es_buffer : elems (GapBuffer t) = [];
  es_last : LastCommittedOffset t = -1;
  es_base : forall c, head stream = Some c -> CommittedPlusOne t <= cOffset c
}.

Lemma epochStart_rel stream t : epochStart stream t -> specRel stream (mkEpochSpec ∅ 0) t.
Proof.
  intros [Hr Hb Hl Hc]. exists [], [], stream. split; try done; simpl.
  - by rewrite Hr.
  - rewrite Hb. unfold doneItems. cbn. clear. induction stream as [|c l IH]; [done|].
    rewrite filter_cons, decide_False; [done | apply not_elem_of_empty].
  - intros _. destruct stream as [|c l]; [done|]. simpl.
    rewrite decide_False; [done | apply not_elem_of_empty].
Qed.

(** ** Properties *)

(** C8: refinement.  For any stream of stamped records, any order of completion
    and any schedule of flushes, acknowledged ticks and failed ticks, the
    tracker commits exactly the offsets the specification commits, step by step:
    the last record of the longest completed prefix whenever it is past what has
    been committed, and nothing otherwise. *)
Theorem epoch_refinement stream size size70 now t ops :
  epochStream stream -> epochStart stream t -> opsOk stream (mkEpochSpec ∅ 0) ops ->
  (trackerRun size size70 now t ops).2 = (specRun stream (mkEpochSpec ∅ 0) ops).2.
Proof. intros Hst Hs Hok. by apply run_refines; [| |apply epochStart_rel]. Qed.

(** C9: nothing is left behind.  Once every record of the epoch has completed, in
    whatever order and with whatever flushes and ticks in between, one
    acknowledged tick leaves the last record committed, the baseline right after
    it, and no item pending. *)
Theorem epoch_drains stream size size70 now t ops c :
  epochStream stream -> epochStart stream t -> opsOk stream (mkEpochSpec ∅ 0) ops ->
  last stream = Some c ->
  Forall (fun d => cOffset d ∈ completed (specRun stream (mkEpochSpec ∅ 0) ops).1) stream ->
  let t' := (trackerStep size size70 now (trackerRun size size70 now t ops).1 (TickOp true)).1 in
  LastCommittedOffset t' = cOffset c /\ CommittedPlusOne t' = cOffset c + 1 /\
  trackerHasPendingCommits t' = false.
Proof.
  intros Hst Hs Hok Hc Hall t'.
  destruct (run_refines stream size size70 now _ t ops Hst Hok (epochStart_rel _ _ Hs)) as [_ HR].
  destruct (step_refines stream size size70 now _ _ (TickOp true) Hst I HR) as [_ HR'].
  assert (Hpre : donePrefix (completed (specRun stream (mkEpochSpec ∅ 0) ops).1) stream = stream).
  { pose proof (donePrefix_all _ stream [] Hall) as E. simpl in E. by rewrite !app_nil_r in E. }
  assert (Hk : committedCount (specStep stream (specRun stream (mkEpochSpec ∅ 0) ops).1 (TickOp true)).1
               = length stream).
  { simpl. rewrite Hpre. destruct (Nat.ltb_spec (committedCount (specRun stream (mkEpochSpec ∅ 0) ops).1)
      (length stream)); [done|]. destruct HR as (cm & rd & rest & HR).
    pose proof (er_stream _ _ _ _ _ _ _ HR) as E. apply (f_equal length) in E.
    rewrite !length_app in E. rewrite (er_committed _ _ _ _ _ _ _ HR) in E. simpl. lia. }
  fold t' in HR'. unfold specRel in HR'. rewrite Hk in HR'. destruct HR' as (cm & rd & rest & HR').
  pose proof (er_stream _ _ _ _ _ _ _ HR') as E. pose proof (er_committed _ _ _ _ _ _ _ HR') as El.
  assert (rd ++ rest = []) as [-> ->]%app_nil.
  { apply length_zero_iff_nil. apply (f_equal length) in E. rewrite length_app in E. lia. }
  simpl in E. rewrite app_nil_r in E. subst cm.
  pose proof (er_base _ _ _ _ _ _ _ HR') as Hb. rewrite Hc in Hb. destruct Hb as [-> ->].
  split_and!; [done | done |]. unfold trackerHasPendingCommits.
  pose proof (er_ready _ _ _ _ _ _ _ HR') as Hr. destruct (Ready t'); [done|].
  pose proof (er_buffer _ _ _ _ _ _ _ HR') as Hb. unfold slen, doneItems in *.
  rewrite filter_nil in Hb. apply Permutation_nil_r in Hb. by destruct (elems (GapBuffer t')).
Qed.

End Epoch.

(** Three records with a gap in the log, completed out of order with a failed
    tick in between. *)
Definition gapItem (ptr offset prev : Z) (first : bool) : WorkItem :=
  mkWorkItem ptr (mkMessage 0 3 offset EmptyString None) (mkMetrics 0 0 3 offset 0 0 0 0 0 0) None
    prev first 0.

Definition gapStream : list WorkItem :=
  [gapItem 1 5 4 true; gapItem 2 6 5 false; gapItem 3 9 6 false].

Definition gapOps : list EpochOp :=
  [Arrive (gapItem 3 9 6 false); Arrive (gapItem 1 5 4 true); TickOp false; TickOp true;
   Arrive (gapItem 2 6 5 false); FlushOp].

Lemma gapOps_ok : opsOk (cores gapStream) (mkEpochSpec ∅ 0) gapOps.
Proof. by vm_compute; intuition (try congruence); repeat constructor. Qed.

Lemma epoch_refinement_witness :
  (trackerRun 6 4 0 (newResetTracker 6 5) gapOps).2 = [None; None; Some 5; Some 5; None; None].
Proof.
  rewrite (epoch_refinement (cores gapStream)).
  - vm_compute. reflexivity.
  - vm_compute. intuition congruence.
  - split; try done. intros c [= <-]. vm_compute. congruence.
  - apply gapOps_ok.
Defined.

Lemma epoch_drains_witness :
  let t' := (trackerStep 6 4 0 (trackerRun 6 4 0 (newResetTracker 6 5) gapOps).1 (TickOp true)).1 in
  LastCommittedOffset t' = 9 /\ CommittedPlusOne t' = 10 /\ trackerHasPendingCommits t' = false.
Proof.
  apply (epoch_drains (cores gapStream) 6 4 0 (newResetTracker 6 5) gapOps (core (gapItem 3 9 6 false))).
  - vm_compute. intuition congruence.
  - split; try done. intros c [= <-]. vm_compute. congruence.
  - apply gapOps_ok.
  - reflexivity.
  - apply (bool_decide_unpack _). vm_compute. exact I.
Defined.
