(* ===== verification/Handover.v ===== *)
(** * From assignment to hand-over: an ownership epoch of the running consumer

    [Epoch] is about one tracker and a given stream.  Here the stream is what the
    polling loop of [World] delivers: from the moment an assign installs a
    partition's baseline, until its revocation is executed, the tracker of the
    partition refines the specification of [Epoch] in every interleaving of the
    goroutines, whatever happens to the other partitions.  With that, a revoke whose
    drain succeeds leaves the partition's committed position right after the last
    record that was polled: the next owner neither loses nor repeats a record. *)
From S2P Require Import Prelude Types RingBuffer Tracker Committer TrackerFacts Safety Monotone Prev.
From S2P Require Import CommitterFacts Subscription Forward World WorldInv WorldSteps Accounting Epoch Run.
From stdpp Require Import base gmap list sorting relations.
Open Scope Z_scope.

Section Handover.
Context `{NX : Nexus} `{RT : GoRuntime} `{RTok : !GoRuntimeOk RT}.
Implicit Types (w : World) (oc : Committer) (t : OffsetsTracker) (stream : list Core) (D : gset Z).

(** ** The stream grows *)

Lemma doneItems_snoc D l c : cOffset c ∉ D -> doneItems D (l ++ [c]) = doneItems D l.
Proof.
  intros Hc. unfold doneItems. rewrite filter_app, filter_cons, decide_False by done.
  by rewrite app_nil_r.
Qed.

Lemma donePrefix_snoc D l c : cOffset c ∉ D -> donePrefix D (l ++ [c]) = donePrefix D l.
Proof.
  intros Hc. induction l as [|d l IH]; simpl; [by rewrite decide_False|].
  case_decide; [by rewrite IH | done].
Qed.

Lemma epochRel_extend stream D k t cm rd rest c :
  epochRel stream D k t cm rd rest -> cOffset c ∉ D ->
  (stream = [] -> CommittedPlusOne t <= cOffset c) ->
  epochRel (stream ++ [c]) D k t cm rd (rest ++ [c]).
Proof.
  intros [H1 H2 H3 H4 H5 H6 H7 H8] Hc Hb.
  split; try done; rewrite ?doneItems_snoc, ?donePrefix_snoc by done; try done.
  - by rewrite H1, <- !app_assoc.
  - destruct (last cm); [done|]. destruct H6 as [? H6]. split; [done|].
    destruct stream as [|d stream]; simpl; [|apply H6]. intros d [= <-]. by apply Hb.
Qed.

Lemma epochStream_snoc stream c :
  epochStream stream -> in_int64 (cOffset c + 1) -> 0 <= cOffset c ->
  match last stream with
  | None => cFirst c = true
  | Some d => cPrev c = cOffset d /\ cOffset d < cOffset c /\ cFirst c = false
  end -> epochStream (stream ++ [c]).
Proof.
  destruct stream as [|d l]; simpl; [by intros|]. intros (Hf & H0 & Hi & Hc) Hic Hc0 Hl.
  split_and!; try done. apply chain_app. split; [done|].
  rewrite last_cons in Hl. destruct (last l); simpl in *; by destruct Hl as (? & ? & ?).
Qed.

(** The committed and the taken part of a stream are at or below its last record. *)
Lemma stream_last_max stream c d :
  epochStream stream -> last stream = Some d -> c ∈ stream -> cOffset c <= cOffset d.
Proof.
  intros Hst Hd Hc. apply epochStream_sorted in Hst. apply last_Some in Hd as [l ->].
  apply elem_of_app in Hc as [Hc|Hc]; [|by apply list_elem_of_singleton in Hc as ->].
  apply sorted_drop in Hst as [_ Hlt]. specialize (Hlt c d Hc ltac:(left)). lia.
Qed.

(** ** What one tick does to one partition *)

Lemma collectCommits_in oc order now p t msg :
  range_order (PartitionMap oc) order -> PartitionMap oc !! p = Some t ->
  (collectAt oc now p t).2.2 = Some msg -> msg ∈ (collectCommits oc order now).2.
Proof.
  intros Ho Ht Hm. rewrite collectCommits_msgs by done. apply list_elem_of_omap. exists p.
  rewrite Ht. split; [|done]. apply Ho. by exists t.
Qed.

Lemma collectAt_partition oc now p t msg :
  homed p t -> (collectAt oc now p t).2.2 = Some msg -> Partition msg = p.
Proof.
  unfold collectAt. destruct (bool_decide _); [apply collectCommit_partition|].
  unfold collectCommit. simpl. by destruct (discardOrphanedTracker t).
Qed.

(** The tracker of [p] after a tick that got the guard: flushed, collected, and
    acknowledged if its message was. *)
Definition ticked (a : bool) (size size70 now : Z) (acked : bool) (t : OffsetsTracker)
    : OffsetsTracker * option Message :=
  let '(t, (_, m)) := collectCommit a now (flushTracker size size70 now t).1 in
  (match m with
   | Some msg => if acked then (ackCommit (Offset msg) t).1 else t
   | None => t
   end, m).

Lemma tick_at oc broker order1 order2 now oc' sent err p t :
  trackers_all homed oc ->
  range_order (PartitionMap oc) order1 -> range_order (PartitionMap oc) order2 ->
  trackers_all homed (flushGapBuffers oc order1 now) ->
  CommitOffsets oc true broker order1 order2 now = (oc', sent, err) ->
  PartitionMap oc !! p = Some t ->
  let a := bool_decide (p ∈ assigned oc) in
  let '(t', m) := ticked a (gapBufferSize oc) (gapBufferSize70Pct oc) now (bool_decide (err = None)) t in
  PartitionMap oc' !! p = Some t' /\ forall msg, (msg ∈ sent /\ Partition msg = p) <-> m = Some msg.
Proof.
  intros Hh Ho1 Ho2 Hh1 Hc Ht a. unfold ticked.
  destruct (CommitOffsets_cases _ _ _ _ _ _ _ _ _ Hc) as [(_ & _ & E)|(oc2 & Hcol & Hres)].
  { unfold CommitOffsets in Hc. simpl in Hc. destruct (collectCommits _ _ _) as [? [|]];
      [by injection Hc as ? ? <-|]. destruct (broker _); injection Hc as ? ? <-; done. }
  pose proof (flushGapBuffers_range oc order1 order2 now Ho1 Ho2) as Ho2'.
  set (t1 := (flushTracker _ _ _ t).1).
  assert (Ht1 : PartitionMap (flushGapBuffers oc order1 now) !! p = Some t1)
    by (rewrite flushGapBuffers_lookup by done; by rewrite Ht).
  assert (Ea : collectAt (flushGapBuffers oc order1 now) now p t1 = collectCommit a now t1)
    by (unfold collectAt; by rewrite flushGapBuffers_assigned).
  pose proof (collectCommits_lookup _ order2 now p Ho2') as Hl. rewrite Ht1, Hcol in Hl. simpl in Hl.
  rewrite Ea in Hl.
  pose proof (collectCommits_nodup _ order2 now Ho2' Hh1) as Hnd. rewrite Hcol in Hnd. simpl in Hnd.
  assert (Hiff : forall msg, (msg ∈ sent /\ Partition msg = p) <-> (collectCommit a now t1).2.2 = Some msg).
  { intros msg. split.
    - intros [Hin Hp].
      destruct (collectCommits_msg (flushGapBuffers oc order1 now) order2 now msg Ho2') as (q & s & Hs & Hm);
        [by rewrite Hcol|].
      assert (q = p) as -> by (rewrite <- Hp; symmetry; by eapply collectAt_partition, Hm; apply Hh1).
      rewrite Ht1 in Hs. injection Hs as <-. by rewrite <- Ea.
    - intros Hm. split.
      + pose proof (collectCommits_in _ order2 now p t1 msg Ho2' Ht1) as Hin. rewrite Ea, Hcol in Hin.
        by apply Hin.
      + rewrite <- Ea in Hm. by eapply collectAt_partition, Hm; apply Hh1. }
  destruct (collectCommit a now t1) as [t2 [out m]]. simpl in Hl, Hiff.
  split; [|done]. destruct Hres as [[-> ->]|(-> & -> & _)].
  - rewrite bool_decide_true by done. destruct m as [msg|].
    + destruct (proj2 (Hiff msg) eq_refl) as [Hin <-]. rewrite ackCommits_lookup by done. by rewrite Hl.
    + rewrite ackCommits_lookup_notin; [done|]. intros (msg & Hp & Hin)%list_elem_of_fmap.
      by pose proof (proj1 (Hiff msg) (conj Hin (eq_sym Hp))).
  - rewrite bool_decide_false by done. by destruct m.
Qed.

(** ** The invariant of an epoch *)

Variable R : Z -> Z -> Prop.
Variable exact : Prop.

(** The items between the poll and the committer's trackers, of one partition. *)
Definition pipeline w : list Core :=
  cores (wInflight w) ++ cores (received (wIngest w)) ++ cores (queued (commitsIn (wOc w))).
Definition inPipe (p : Z) w : list Core := filter (fun c => cPartition c = p) (pipeline w).

(** The tracker of [p] refines the specification, and the broker's position is
    between the last acknowledged record and the last polled one. *)
Definition committedAt (p : Z) stream D w (cm : list Core) : Prop :=
  exists t rd rest,
    PartitionMap (wOc w) !! p = Some t /\ epochRel stream D (length cm) t cm rd rest /\
    (stream = [] -> CommittedPlusOne t <= wBroker w p) /\
    (forall c, last cm = Some c -> cOffset c + 1 <= wBroker w p).

Definition trackedAt (p : Z) stream D w : Prop := exists cm, committedAt p stream D w cm.

Definition readTo (p : Z) stream w : Prop :=
  match last stream with
  | Some c => wFetch w !! p = Some (cOffset c + 1) /\ wBroker w p <= cOffset c + 1
  | None => forall f, wFetch w !! p = Some f -> wBroker w p <= f
  end.

(** [stream] are the records of [p] polled in this epoch and [D] the offsets of
    those that have reached the tracker; the others are in the pipeline. *)
Record epochAt (p : Z) stream D w : Prop := {
  ea_stream : epochStream stream;
  ea_done : forall o, o ∈ D -> exists c, c ∈ stream /\ cOffset c = o;
  ea_pipe : inPipe p w ≡ₚ filter (fun c => cOffset c ∉ D) stream;
  ea_prev : wPrev w !! p = cOffset <$> last stream;
  ea_owned : p ∈ wOwned w;
  ea_tracker : trackedAt p stream D w;
  ea_read : readTo p stream w;
  ea_assigned : p ∈ assigned (wOc w) \/
                (CallMarkPartitionAssigned p ∈ wHandler w /\ wFetch w !! p = None)
}.

(** What of a state matters for the epoch of [p], besides its tracker and items. *)
Record restAt (p : Z) w w' : Prop := {
  ra_prev : wPrev w' !! p = wPrev w !! p;
  ra_owned : p ∈ wOwned w -> p ∈ wOwned w';
  ra_broker : wBroker w' p = wBroker w p;
  ra_fetch : wFetch w' !! p = wFetch w !! p;
  ra_assigned : p ∈ assigned (wOc w) -> p ∈ assigned (wOc w');
  ra_marks : p ∈ assigned (wOc w') \/ (CallMarkPartitionAssigned p ∈ wHandler w ->
               CallMarkPartitionAssigned p ∈ wHandler w')
}.

Lemma epochAt_update p stream D D' w w' :
  epochAt p stream D w -> restAt p w w' ->
  (forall o, o ∈ D' -> exists c, c ∈ stream /\ cOffset c = o) ->
  inPipe p w' ≡ₚ filter (fun c => cOffset c ∉ D') stream ->
  trackedAt p stream D' w' -> epochAt p stream D' w'.
Proof.
  intros [H1 H2 H3 H4 H5 H6 H7 H8] S Hd Hp Ht. split; try done.
  - by rewrite (ra_prev _ _ _ S).
  - by apply S.
  - unfold readTo. by rewrite (ra_fetch _ _ _ S), (ra_broker _ _ _ S).
  - rewrite (ra_fetch _ _ _ S). destruct H8 as [?|[Hm ?]]; [left; by apply S|].
    destruct (ra_marks _ _ _ S) as [?|Hk]; [by left | right; auto].
Qed.

Lemma epochAt_same p stream D w w' :
  epochAt p stream D w -> restAt p w w' -> inPipe p w' ≡ₚ inPipe p w ->
  PartitionMap (wOc w') !! p = PartitionMap (wOc w) !! p -> epochAt p stream D w'.
Proof.
  intros HE S Hp Ht. apply (epochAt_update p stream D D w); [done | done | apply HE | |].
  - rewrite Hp. apply HE.
  - unfold trackedAt, committedAt. rewrite Ht, (ra_broker _ _ _ S). apply HE.
Qed.

Lemma inPipe_eq p w w' : pipeline w' ≡ₚ pipeline w -> inPipe p w' ≡ₚ inPipe p w.
Proof. unfold inPipe. intros E. by rewrite E. Qed.

(** ** The polling loop *)

Lemma GetPrevious_chain m p o m' prev first :
  GetPrevious m p o = (m', (prev, first, None)) ->
  0 <= o /\ m' = <[p := o]> m /\
  match m !! p with Some x => prev = x /\ x < o /\ first = false | None => first = true end.
Proof.
  unfold GetPrevious. destruct (Z.ltb_spec o 0); [done|]. destruct (m !! p) as [x|].
  - rewrite Z.gtb_ltb. destruct (Z.ltb_spec x o); [by intros [= <- <- <-]|]. by destruct (o =? x).
  - by intros [= <- <- <-].
Qed.

Lemma poll_epoch p stream D w item f prev' w' :
  epochAt p stream D w ->
  wFetch w !! partitionOf item = Some f -> f <= offsetOf item -> in_int64 (offsetOf item + 1) ->
  GetPrevious (wPrev w) (partitionOf item) (offsetOf item) =
    (prev', (PreviousOffset item, First item, None)) ->
  w' = mkWorld (wOc w) (wIngest w) (wSub w) prev' (<[partitionOf item := offsetOf item + 1]> (wFetch w))
         (item :: wPolled w) (item :: wInflight w) (wHandler w) (wOwned w) (wBroker w) (wDone w) ->
  exists stream', epochAt p stream' D w'.
Proof.
  intros HE Hf Hle Hi HG ->. apply GetPrevious_chain in HG as (H0 & -> & Hch).
  destruct (decide (partitionOf item = p)) as [<-|Hne].
  - exists (stream ++ [core item]). destruct HE as [H1 H2 H3 H4 H5 (cm & t & rd & rest & Ht & HR & Hb & Hl) H7 H8].
    rewrite H4 in Hch. unfold readTo in H7.
    assert (HnD : offsetOf item ∉ D).
    { intros Hin. destruct (H2 _ Hin) as (c & Hc & Ho). destruct (last stream) as [d|] eqn:El.
      - pose proof (stream_last_max stream c d H1 El Hc). simpl in Hch. lia.
      - apply last_None in El. subst. by apply not_elem_of_nil in Hc. }
    assert (Hbr : wBroker w (partitionOf item) <= offsetOf item + 1).
    { destruct (last stream) as [d|]; [simpl in Hch; lia|]. specialize (H7 f Hf). lia. }
    split; simpl; try done.
    + apply epochStream_snoc; try done. destruct (last stream) as [d|]; simpl in *; [|done]. tauto.
    + intros o Ho. destruct (H2 o Ho) as (c & ? & ?). exists c. split; [|done]. apply elem_of_app; by left.
    + unfold inPipe, pipeline. cbn [cores map app wInflight received wIngest wOc].
      rewrite filter_cons, decide_True by done.
      fold (cores (wInflight w)). fold (pipeline w). fold (inPipe (partitionOf item) w).
      rewrite H3, filter_app, filter_cons, decide_True by done. rewrite filter_nil. solve_Permutation.
    + by rewrite lookup_insert_eq, last_snoc.
    + exists cm, t, rd, (rest ++ [core item]). split_and!; [done | | by destruct stream | done].
      apply epochRel_extend; [done | done |]. intros ->. specialize (Hb eq_refl). simpl in H7.
      specialize (H7 f Hf). simpl. lia.
    + unfold readTo. rewrite last_snoc. simpl. by rewrite lookup_insert_eq.
    + left. destruct H8 as [?|[_ ?]]; [done | congruence].
  - exists stream. apply (epochAt_same p stream D w); [done | | | done].
    + split; simpl; auto; by rewrite lookup_insert_ne.
    + unfold inPipe, pipeline. cbn [cores map app wInflight received wIngest wOc].
      by rewrite filter_cons, decide_False by done.
Qed.

(** ** Ingest *)

Lemma pending_other D c (l : list Core) :
  (forall d, d ∈ l -> cOffset d <> cOffset c) ->
  filter (fun d => cOffset d ∉ {[cOffset c]} ∪ D) l = filter (fun d => cOffset d ∉ D) l.
Proof.
  induction l as [|d l IH]; intros Hl; [done|].
  rewrite !filter_cons, IH by (intros; apply Hl; by right). specialize (Hl d ltac:(left)).
  destruct (decide (cOffset d ∉ D)) as [HD|HD];
    [rewrite decide_True | rewrite decide_False]; try done;
    rewrite not_elem_of_union, not_elem_of_singleton; tauto.
Qed.

Lemma pending_arrived D stream c (pipe : list Core) :
  epochStream stream -> c :: pipe ≡ₚ filter (fun c => cOffset c ∉ D) stream ->
  c ∈ stream /\ (cOffset c ∉ D) /\
  pipe ≡ₚ filter (fun d => cOffset d ∉ {[cOffset c]} ∪ D) stream.
Proof.
  intros Hst Hp. assert (Hc : c ∈ filter (fun c => cOffset c ∉ D) stream) by (rewrite <- Hp; by left).
  apply list_elem_of_filter in Hc as [HcD Hc]. split_and!; [done | done |].
  apply list_elem_of_split in Hc as (l1 & l2 & ->).
  assert (Hother : forall d, d ∈ l1 ++ l2 -> cOffset d <> cOffset c).
  { pose proof (epochStream_sorted _ Hst) as Hs. apply sorted_drop in Hs as [Hs Hlt].
    apply StronglySorted_inv in Hs as [_ Hall]. rewrite Forall_forall in Hall.
    intros d [Hd|Hd]%elem_of_app; [specialize (Hlt d c Hd ltac:(left)) | specialize (Hall d Hd)]; lia. }
  rewrite filter_app, filter_cons, decide_True in Hp by done.
  rewrite filter_app, filter_cons, decide_False by set_solver.
  rewrite !pending_other by (intros; apply Hother, elem_of_app; tauto).
  apply (Permutation_cons_inv (a := c)). rewrite Hp. solve_Permutation.
Qed.

Lemma epochRel_committed stream D D' k t t' cm rd rest cm' rd' rest' :
  epochRel stream D k t cm rd rest -> epochRel stream D' k t' cm' rd' rest' -> cm' = cm.
Proof.
  intros [E1 L1 _ _ _ _ _ _] [E2 L2 _ _ _ _ _ _]. rewrite E1 in E2.
  apply app_inj_1 in E2 as [-> _]; [done | congruence].
Qed.

(** A step of the tracker that commits nothing. *)
Lemma trackedAt_step p stream D D' w w' (f : OffsetsTracker -> OffsetsTracker) :
  trackedAt p stream D w ->
  (forall k t, epochInv stream D k t -> epochInv stream D' k (f t)) ->
  (forall t, stream = [] -> CommittedPlusOne (f t) <= CommittedPlusOne t) ->
  PartitionMap (wOc w') !! p = f <$> PartitionMap (wOc w) !! p -> wBroker w' p = wBroker w p ->
  trackedAt p stream D' w'.
Proof.
  intros (cm & t & rd & rest & Ht & HR & Hb & Hl) Hf Hc Ht' Eb.
  destruct (Hf (length cm) t) as (cm' & rd' & rest' & HR'); [by exists cm, rd, rest|].
  pose proof (epochRel_committed _ _ _ _ _ _ _ _ _ _ _ _ HR HR') as ->.
  exists cm, (f t), rd', rest'. rewrite Ht', Ht, Eb. split_and!; [done | done | | done].
  intros Hs. specialize (Hb Hs). specialize (Hc t Hs). lia.
Qed.

(** An item taken from the pipeline by the ingest goroutine. *)
Lemma arrive_world p stream D w w' item oc1 now pipe :
  epochAt p stream D w -> restAt p w w' ->
  pipeline w ≡ₚ core item :: pipe -> pipeline w' ≡ₚ pipe ->
  PartitionMap oc1 = PartitionMap (wOc w) ->
  PartitionMap (wOc w') = PartitionMap (processCommit oc1 item now) ->
  exists D', epochAt p stream D' w'.
Proof.
  intros HE S Hp Hp' E1 E2. rewrite processCommit_PartitionMap, E1 in E2.
  destruct (decide (partitionOf item = p)) as [<-|Hne].
  - destruct (ea_tracker _ _ _ _ HE) as (cm & t & rd & rest & Ht & _). rewrite Ht in E2.
    assert (Hpipe : core item :: inPipe (partitionOf item) w' ≡ₚ filter (fun c => cOffset c ∉ D) stream).
    { rewrite <- (ea_pipe _ _ _ _ HE). unfold inPipe. rewrite Hp, Hp', filter_cons, decide_True by done. done. }
    destruct (pending_arrived D stream _ _ (ea_stream _ _ _ _ HE) Hpipe) as (Hin & HnD & Hrest).
    exists ({[offsetOf item]} ∪ D). apply (epochAt_update _ stream D _ w); [done | done | | done |].
    + intros o [->%elem_of_singleton|Ho]%elem_of_union; [by exists (core item) | by apply HE].
    + apply (trackedAt_step _ stream D _ w w'
               (fun t => (processItem (observeOffset (offsetOf item) t) item now).1)).
      * by apply HE.
      * intros k t'. by apply arrive_epoch; [apply HE | |].
      * intros t' ->. by apply not_elem_of_nil in Hin.
      * by rewrite E2, lookup_insert_eq, Ht.
      * apply S.
  - exists D. apply (epochAt_same p stream D w); [done | done | |].
    + unfold inPipe. by rewrite Hp, Hp', filter_cons, decide_False by done.
    + by rewrite E2, lookup_insert_ne.
Qed.

Lemma flushTracker_cpo size size70 now t :
  CommittedPlusOne (flushTracker size size70 now t).1 = CommittedPlusOne t.
Proof.
  unfold flushTracker. destruct (NeedsGapAdvance t); [|done]. cbn [negb].
  destruct (slen _ =? 0); [done|]. destruct (walk _ _ _ _ _) as [[r n] out].
  destruct (n =? 0)%nat; [done|]. by destruct (_ =? n)%nat.
Qed.

Lemma flush_world p stream D w w' order now :
  epochAt p stream D w -> restAt p w w' -> pipeline w' ≡ₚ pipeline w ->
  range_order (PartitionMap (wOc w)) order ->
  PartitionMap (wOc w') = PartitionMap (flushGapBuffers (wOc w) order now) ->
  epochAt p stream D w'.
Proof.
  intros HE S Hp Ho E. apply (epochAt_update p stream D D w); [done | done | apply HE | |].
  - rewrite (inPipe_eq p w w' Hp). apply HE.
  - eapply (trackedAt_step p stream D D w w'); [apply HE | | | by rewrite E, flushGapBuffers_lookup | apply S].
    + intros k t Ht. destruct (flush_epoch stream D k t (gapBufferSize (wOc w)) (gapBufferSize70Pct (wOc w))
        now (ea_stream _ _ _ _ HE) Ht) as (cm & rd & rest & HR & _). by exists cm, rd, rest.
    + intros t _. simpl. by rewrite flushTracker_cpo.
Qed.

(** ** Commit ticks *)

(** The tracker of a partition through a tick: what it sends is a completed record
    of the stream, past what was committed, and becomes the committed one if the
    broker acknowledges it. *)
Lemma ticked_epoch stream D t cm rd rest a size size70 now acked :
  epochStream stream -> epochRel stream D (length cm) t cm rd rest -> a = true \/ stream = [] ->
  let '(t', m) := ticked a size size70 now acked t in
  exists cm' rd' rest', epochRel stream D (length cm') t' cm' rd' rest' /\
    (stream = [] -> CommittedPlusOne t' = CommittedPlusOne t) /\
    (acked = true -> cm' = donePrefix D stream) /\
    match m with
    | None => cm' = cm
    | Some msg => exists c, c ∈ stream /\ Offset msg = cOffset c /\
        (forall e, last cm = Some e -> cOffset e <= cOffset c) /\
        if acked then last cm' = Some c else cm' = cm
    end.
Proof.
  intros Hst HR Ha. unfold ticked. pose proof (flushTracker_cpo size size70 now t) as Hcpo.
  destruct (flush_epoch stream D (length cm) t size size70 now Hst) as (cm1 & rd1 & rest1 & HR1 & Hpre & Hstop & _);
    [by exists cm, rd, rest|].
  pose proof (epochRel_committed _ _ _ _ _ _ _ _ _ _ _ _ HR HR1) as ->.
  destruct (flushTracker size size70 now t) as [t1 out1]. simpl in *.
  assert (Hcol : exists m, collectCommit a now t1 = (t1, ([], m)) /\ Offset <$> m = cOffset <$> last rd1).
  { destruct Ha as [-> | ->]; [by eapply collect_epoch|].
    destruct HR1 as [H1 _ _ H4 H5 _ _ _]. symmetry in H1. apply app_nil in H1 as [-> [-> ->]%app_nil].
    simpl in *. exists None. split; [|done]. unfold collectCommit, discardOrphanedTracker.
    apply Permutation_nil_r in H5. destruct (Ready t1) eqn:Er; [done|].
    destruct (elems (GapBuffer t1)) eqn:Eb; [|done]. destruct a; [|done]. simpl.
    unfold repairSuccessor. rewrite Er. unfold slen. rewrite Eb. simpl. by rewrite Er. }
  destruct Hcol as (m & -> & Hm). destruct (last rd1) as [c|] eqn:Erd.
  - destruct m as [msg|]; [|done]. injection Hm as Hm.
    assert (Hin : c ∈ stream).
    { rewrite (er_stream _ _ _ _ _ _ _ HR1). apply elem_of_app. right. apply elem_of_app. left.
      by apply last_Some_elem_of. }
    assert (Hpast : forall e, last cm = Some e -> cOffset e <= cOffset c).
    { intros e He. destruct (ready_above _ _ _ _ _ _ _ c Hst HR1 Erd) as [_ Hlt].
      pose proof (er_base _ _ _ _ _ _ _ HR1) as Hb. rewrite He in Hb. destruct Hb. lia. }
    assert (Hne : stream <> []) by (intros ->; by apply not_elem_of_nil in Hin).
    destruct acked.
    + rewrite Hm. destruct (ack_epoch _ _ _ _ _ _ _ c Hst HR1 Hstop Erd) as (cm' & rd' & rest' & HR').
      assert (cm' = cm ++ rd1) as ->.
      { pose proof (er_stream _ _ _ _ _ _ _ HR') as E. rewrite (er_stream _ _ _ _ _ _ _ HR1), app_assoc in E.
        apply app_inj_1 in E as [-> _]; [done|]. by rewrite (er_committed _ _ _ _ _ _ _ HR'). }
      exists (cm ++ rd1), rd', rest'. split_and!; [done | done | done |]. exists c. split_and!; try done.
      by rewrite last_app, Erd.
    + exists cm, rd1, rest1. split_and!; [done | done | done |]. by exists c.
  - destruct m as [msg|]; [done|]. exists cm, rd1, rest1. apply last_None in Erd. subst rd1.
    rewrite app_nil_r in Hpre. by split_and!.
Qed.

(** The position of [p] after a tick's messages reached the broker. *)
Lemma applied_at b (sent applied : list Message) err p m :
  brokerApplied err sent applied -> (forall msg, (msg ∈ sent /\ Partition msg = p) <-> m = Some msg) ->
  match m with
  | None => applyCommits b applied p = b p
  | Some msg => applyCommits b applied p = Offset msg + 1 \/
                (err <> None /\ applyCommits b applied p = b p)
  end.
Proof.
  intros Hb Hm. destruct (applyCommits_cases b applied p) as [[E Hni]|(msg & Hin & Hp & E)].
  - destruct m as [msg|]; [|done]. right. split; [|done]. intros ->. simpl in Hb. subst.
    destruct (proj2 (Hm msg) eq_refl) as [Hin <-]. apply Hni. by apply list_elem_of_fmap_2.
  - apply (brokerApplied_sub _ _ _ _ Hb) in Hin. rewrite (proj1 (Hm msg) (conj Hin Hp)). by left.
Qed.

Lemma homed_all done oc : trackers_all (trackerOk R done) oc -> trackers_all homed oc.
Proof. intros H p t Ht. apply (H p t Ht). Qed.

Lemma tick_world p stream D w guard broker order1 order2 now oc' sent applied err :
  dataInv R w -> epochAt p stream D w ->
  range_order (PartitionMap (wOc w)) order1 -> range_order (PartitionMap (wOc w)) order2 ->
  CommitOffsets (wOc w) guard broker order1 order2 now = (oc', sent, err) ->
  brokerApplied err sent applied ->
  let w' := setBroker (applyCommits (wBroker w) applied) (setOc oc' w) in
  epochAt p stream D w' /\
  (guard = true -> err = None -> committedAt p stream D w' (donePrefix D stream)).
Proof.
  intros HI HE Ho1 Ho2 Hc Hb. destruct (CommitOffsets_frame _ _ _ _ _ _ _ _ _ Hc) as [HQ HA].
  cbv zeta. destruct guard.
  2: { injection Hc as <- <- <-. apply sublist_nil_r in Hb as ->.
       split; [|done]. apply (epochAt_same p stream D w); [done | by split; auto | done | done]. }
  pose proof HE as [H1 H2 H3 H4 H5 (cm & t & rd & rest & Ht & HR & Hbase & Hlow) H7 H8].
  assert (Ha : bool_decide (p ∈ assigned (wOc w)) = true \/ stream = []).
  { destruct H8 as [?|[_ Hf]]; [left; by apply bool_decide_true|]. right. unfold readTo in H7.
    destruct (last stream) eqn:El; [destruct H7; congruence | by apply last_None in El]. }
  pose proof (di_trackers R w HI) as Hall.
  pose proof (tick_at (wOc w) broker order1 order2 now oc' sent err p t (homed_all _ _ Hall) Ho1 Ho2
                (homed_all _ _ (flushGapBuffers_ok R (wDone w) (wOc w) order1 now Hall)) Hc Ht) as Htick.
  pose proof (ticked_epoch stream D t cm rd rest _ (gapBufferSize (wOc w)) (gapBufferSize70Pct (wOc w)) now
                (bool_decide (err = None)) H1 HR Ha) as HT.
  cbv zeta in Htick. destruct (ticked _ _ _ _ _ _) as [t' m]. destruct Htick as [Ht' Hm].
  destruct HT as (cm' & rd' & rest' & HR' & Hcpo & Hfull & HT).
  pose proof (applied_at (wBroker w) sent applied err p m Hb Hm) as HB.
  assert (Hlow' : forall c, last cm' = Some c -> cOffset c + 1 <= applyCommits (wBroker w) applied p).
  { intros c Hc'. destruct m as [msg|]; [|subst cm'; rewrite HB; by apply Hlow].
    destruct HT as (d & _ & Ho & Hge & Hack). rewrite Ho in HB. case_bool_decide as Ee.
    - rewrite Hack in Hc'. injection Hc' as <-. destruct HB as [E|[? _]]; [lia | done].
    - subst cm'. specialize (Hge c Hc'). specialize (Hlow c Hc'). lia. }
  assert (HC : committedAt p stream D (setBroker (applyCommits (wBroker w) applied) (setOc oc' w)) cm').
  { exists t', rd', rest'. split_and!; [done | done | | done].
    intros Hs. rewrite (Hcpo Hs). simpl. destruct m as [msg|].
    - destruct HT as (d & Hd & _). rewrite Hs in Hd. by apply not_elem_of_nil in Hd.
    - rewrite HB. by apply Hbase. }
  split; [|intros _ ->; by rewrite <- Hfull by (by apply bool_decide_true)].
  split; simpl; try done.
  - unfold inPipe, pipeline. simpl. by rewrite HQ.
  - by exists cm'.
  - unfold readTo in *. simpl. destruct (last stream) as [d|] eqn:El.
    + destruct H7 as [? H7]. split; [done|]. destruct m as [msg|]; [|by rewrite HB].
      destruct HT as (c & Hin & Ho & _). pose proof (stream_last_max stream c d H1 El Hin). lia.
    + apply last_None in El. destruct m as [msg|]; [|by rewrite HB].
      destruct HT as (c & Hin & _). rewrite El in Hin. by apply not_elem_of_nil in Hin.
  - by rewrite HA.
Qed.

(** ** Rebalances that leave the partition alone *)

(** The calls of a handler that end (or restart) the epoch of [p]. *)
Definition ends (p : Z) (call : PortCall) : Prop :=
  match call with
  | CallResetPrevOffsets ps => ps = [] \/ p ∈ ps
  | CallResetCommittedOffsets m => is_Some (m !! p)
  | CallMarkPartitionRevoked q => q = p
  | CallAckRebalance Revoke ps => p ∈ ps
  | _ => False
  end.

Definition calmStep (p : Z) w w' : Prop :=
  step R exact w w' /\
  forall call rest, wHandler w = call :: rest -> ends p call -> wHandler w' = wHandler w.

Lemma Reset_other m ps p : ps <> [] -> p ∉ ps -> Reset m ps !! p = m !! p.
Proof.
  destruct ps as [|q ps]; [done|]. intros _. unfold Reset. revert m. generalize (q :: ps). clear q ps.
  intros ps. induction ps as [|q ps IH]; intros m Hp; [done|]. cbn [foldl].
  apply not_elem_of_cons in Hp as [? ?]. by rewrite IH, lookup_delete_ne.
Qed.

(** The pending mark of [p] survives every call but itself. *)
Lemma marks_tail p call rest w' :
  call <> CallMarkPartitionAssigned p ->
  p ∈ assigned (wOc w') \/ (CallMarkPartitionAssigned p ∈ call :: rest -> CallMarkPartitionAssigned p ∈ rest).
Proof. intros Hc. right. intros [?|?]%elem_of_cons; [congruence | done]. Qed.

Lemma handler_world p stream D w call rest w' :
  ownInv R exact w -> epochAt p stream D w -> wHandler w = call :: rest ->
  execCall R w call w' -> ~ ends p call -> epochAt p stream D (setHandler rest w').
Proof.
  intros HO HE Hh He Hcalm. pose proof (oi_handler R exact w HO) as Hinv. rewrite Hh in Hinv.
  apply handlerInv_cons in Hinv.
  assert (Hmark : call <> CallMarkPartitionAssigned p ->
            p ∈ assigned (wOc w') \/ (CallMarkPartitionAssigned p ∈ wHandler w ->
              CallMarkPartitionAssigned p ∈ wHandler (setHandler rest w')))
    by (rewrite Hh; apply marks_tail).
  destruct He as [reason|ps|m pos Hm Hpos|q now|q now| |ps starts Hst|ps]; simpl in Hcalm;
    try (apply (epochAt_same p stream D w); [done | by split; auto; apply Hmark | done | done]).
  - apply (epochAt_same p stream D w); [done | | done | done]. split; auto.
    simpl. by rewrite Reset_other by tauto.
  - apply (epochAt_same p stream D w); [done | | |].
    + split; simpl; rewrite ?ResetCommittedOffsets_assigned; auto. simpl in Hmark.
      rewrite ResetCommittedOffsets_assigned in Hmark. by apply Hmark.
    + unfold inPipe, pipeline. simpl. by rewrite ResetCommittedOffsets_commitsIn.
    + simpl. apply ResetCommittedOffsets_lookup_ne. rewrite Hpos. intros ([q c] & E & Hin)%list_elem_of_fmap.
      apply elem_of_map_to_list in Hin. simpl in E. subst q. by destruct Hcalm; exists c.
  - apply (epochAt_same p stream D w); [done | | done | done].
    split; auto; [simpl; rewrite elem_of_union; tauto|]. destruct (decide (q = p)) as [->|Hne].
    + left. simpl. rewrite elem_of_union, elem_of_singleton. by left.
    + apply Hmark. congruence.
  - apply (epochAt_same p stream D w); [done | | done |].
    + split; auto. simpl. intros Hp. apply elem_of_difference. split; [done|].
      by intros ->%elem_of_singleton.
    + simpl. by rewrite lookup_alter_ne.
  - destruct Hinv as (-> & Hin & _). assert (Hass : p ∈ assigned (wOc w)).
    { destruct (ea_assigned _ _ _ _ HE) as [?|[Hc _]]; [done|]. rewrite Hh in Hc.
      apply elem_of_cons in Hc as [?|Hc]; [done | by apply not_elem_of_nil in Hc]. }
    destruct HE as [H1 H2 H3 H4 H5 H6 H7 H8]. split; try done; [|by left].
    unfold readTo in *. simpl. destruct (last stream) as [c|].
    + destruct H7 as [H7 ?]. split; [|done]. rewrite lookup_union_r; [done|].
      destruct (starts !! p) as [f|] eqn:Ef; [|done]. destruct (Hst p f Ef) as (Hp & _).
      destruct (Hin p Hp). congruence.
    + intros f [Ef|[_ Ef]]%lookup_union_Some_raw; [by apply (Hst p f) | by apply H7].
  - apply (epochAt_same p stream D w); [done | | done | done]. split; auto; simpl.
    + intros Hp. apply elem_of_difference. split; [done|]. by rewrite elem_of_list_to_set.
    + destruct (wFetch w !! p) as [f|] eqn:Ef.
      * by apply map_lookup_filter_Some.
      * apply map_lookup_filter_None. by left.
Qed.

(** ** Every step keeps the epoch *)

Lemma restAt_committer p w oc' i' :
  assigned oc' = assigned (wOc w) -> restAt p w (setIngest i' (setOc oc' w)).
Proof. intros E. split; simpl; rewrite ?E; auto. Qed.

Lemma calm_epoch p stream D w w' :
  dataInv R w -> ownInv R exact w -> epochAt p stream D w -> calmStep p w w' ->
  exists stream' D', epochAt p stream' D' w'.
Proof.
  intros HI HO HE [Hs Hcalm].
  destruct Hs as [item f prev' Hh Hf Hle Hno Hi Hfr HG|item item' rest oc' Hin Hcore Hc|item c Hi Hr|item now Hi
    |n now oc' Hi Hn Hr|n order now Hi Hn Ho|guard broker order1 order2 now oc' sent applied err Hm Ho1 Ho2 Hc Hb
    | |t info ackErr s' calls err Hh Hev Hr|call rest w' Hh He|q pos done' Hp Hle Hd Hpos].
  - destruct (poll_epoch p stream D w item f prev' _ HE Hf Hle Hi HG eq_refl) as [st ?]. eauto.
  - exists stream, D. apply CollectAndCommit_cases in Hc as (HP & HA & HC & HQ).
    apply (epochAt_same p stream D w); [done | | | by simpl; rewrite HP].
    + split; simpl; rewrite ?HA; auto.
    + apply inPipe_eq. unfold pipeline. simpl. rewrite HQ, (cores_Permutation _ _ Hin), cores_app. simpl.
      rewrite Hcore. solve_Permutation.
  - exists stream, D. apply (epochAt_same p stream D w); [done | by apply restAt_committer | | done].
    apply inPipe_eq. unfold pipeline. simpl. by rewrite Hi, (tryRecv_cases _ _ _ Hr).
  - exists stream. eapply (arrive_world p stream D w _ item (wOc w) now
      (cores (wInflight w) ++ cores (queued (commitsIn (wOc w))))); [done | | | | done | done].
    + apply restAt_committer, processCommit_assigned.
    + unfold pipeline. rewrite Hi. simpl. solve_Permutation.
    + unfold pipeline. simpl. by rewrite processCommit_commitsIn.
  - exists stream. apply ingestNext_cases in Hr as (item & c & Hr & ->).
    eapply (arrive_world p stream D w _ item (setCommitsIn c (wOc w)) now
      (cores (wInflight w) ++ cores (queued c))); [done | | | | done | done].
    + apply restAt_committer. by rewrite processCommit_assigned.
    + unfold pipeline. rewrite Hi, (tryRecv_cases _ _ _ Hr). simpl. solve_Permutation.
    + unfold pipeline. simpl. by rewrite processCommit_commitsIn.
  - exists stream, D. destruct (ingestEnd_frame (wOc w) order now) as (HP & HQ & HA & _).
    apply (flush_world p stream D w _ order now); [done | by apply restAt_committer | | done | done].
    unfold pipeline. simpl. by rewrite Hi, HQ.
  - exists stream, D.
    by destruct (tick_world p stream D w guard broker order1 order2 now oc' sent applied err HI HE Ho1 Ho2 Hc Hb).
  - exists stream, D. destruct (clearDrained_frame (wOc w)) as (HP & HQ & HA & _).
    apply (epochAt_same p stream D w); [done | | | by simpl; rewrite HP].
    + split; simpl; rewrite ?HA; auto.
    + unfold inPipe, pipeline. simpl. by rewrite HQ.
  - exists stream, D. apply (epochAt_same p stream D w); [done | | done | done].
    split; simpl; auto; [destruct t; simpl; [apply elem_of_union_r|done..]|].
    rewrite Hh. right. intros Hc. by apply not_elem_of_nil in Hc.
  - exists stream, D. eapply handler_world; try done. intros Hend. specialize (Hcalm call rest Hh Hend).
    rewrite Hh in Hcalm. simpl in Hcalm. apply (f_equal length) in Hcalm. simpl in Hcalm. lia.
  - exists stream, D. apply (epochAt_same p stream D w); [done | | done | done].
    split; simpl; auto. unfold update. case_decide; [|done]. subst. by destruct (Hp (ea_owned _ _ _ _ HE)).
Qed.

Hypothesis R_nonneg : forall p r, R p r -> 0 <= r.

Lemma calm_run p w0 w w' :
  reachable R exact w0 w -> (exists stream D, epochAt p stream D w) -> rtc (calmStep p) w w' ->
  reachable R exact w0 w' /\ exists stream D, epochAt p stream D w'.
Proof.
  intros Hr HE Hrun. induction Hrun as [|w w1 w' Hs Hrun IH]; [done|]. destruct HE as (stream & D & HE).
  destruct (reachable_inv R exact R_nonneg w0 w Hr) as [HI HO]. apply IH.
  - destruct Hr. split; [done|]. eapply rtc_r; [done | apply Hs].
  - by eapply calm_epoch.
Qed.

(** ** The epoch opens *)

Lemma resetOne_at oc p c :
  PartitionMap (resetOne oc (p, c)) !! p =
    Some (match PartitionMap oc !! p with
          | None => newResetTracker (gapBufferSize oc) c
          | Some t => (resetTracker c t).1
          end).
Proof.
  unfold resetOne. destruct (PartitionMap oc !! p); by rewrite putTracker_PartitionMap, lookup_insert_eq.
Qed.

Lemma resetOne_size oc po : gapBufferSize (resetOne oc po) = gapBufferSize oc.
Proof.
  destruct po as [q c]. unfold resetOne. destruct (PartitionMap oc !! q); unfold putTracker;
    by rewrite returnAll_gapBufferSize.
Qed.

Lemma ResetCommittedOffsets_at oc pos p c :
  NoDup pos.*1 -> (p, c) ∈ pos ->
  PartitionMap (ResetCommittedOffsets oc pos) !! p =
    Some (match PartitionMap oc !! p with
          | None => newResetTracker (gapBufferSize oc) c
          | Some t => (resetTracker c t).1
          end).
Proof.
  unfold ResetCommittedOffsets. revert oc. induction pos as [|[q d] pos IH]; intros oc Hd Hin;
    [by apply not_elem_of_nil in Hin|].
  cbn in Hd. apply NoDup_cons in Hd as [Hni Hd]. cbn [foldl].
  apply elem_of_cons in Hin as [[= <- <-]|Hin].
  - fold (ResetCommittedOffsets (resetOne oc (p, c)) pos).
    rewrite ResetCommittedOffsets_lookup_ne by done. apply resetOne_at.
  - rewrite IH by done. rewrite resetOne_size, resetOne_lookup_ne; [done|].
    intros E. simpl in E. subst q. apply Hni. by apply (list_elem_of_fmap_2 fst _ (p, c)).
Qed.

(** Nothing of [p] is left from an earlier epoch: no item is on its way, and the
    tracker, if there is one, was revoked or holds nothing. *)
Definition quiet (p : Z) w : Prop :=
  inPipe p w = [] /\
  match PartitionMap (wOc w) !! p with
  | None => True
  | Some t => Assignment t = Revoke \/ (Ready t = None /\ elems (GapBuffer t) = [])
  end.

Lemma reset_start c t :
  Assignment t = Revoke \/ (Ready t = None /\ elems (GapBuffer t) = []) ->
  epochStart [] (resetTracker c t).1.
Proof.
  intros H. unfold resetTracker.
  assert (E : exists t1 out1,
    match Ready t with
    | Some r => if offsetOf r <? c then (setReady None t, [mark SetOrphaned r]) else (t, [])
    | None => (t, [])
    end = (t1, out1) /\ Assignment t1 = Assignment t /\ GapBuffer t1 = GapBuffer t /\
    (Ready t = None -> Ready t1 = None)).
  { destruct (Ready t) as [r|] eqn:Er; [|by eexists _, _]. destruct (_ <? _); by eexists _, _. }
  destruct E as (t1 & out1 & -> & Ea & Eb & Er). rewrite Ea.
  destruct (decide (Assignment t = Revoke)) as [Ed|Ed]; [by split|].
  destruct H as [?|[Hr Hb]]; [done|]. split; simpl; [auto | by rewrite Eb | done | done].
Qed.

(** The handler is about to install the baseline [c] of [p], at or below the
    position committed at the broker, and [p] is quiet. *)
Record opening (p c : Z) w : Prop := {
  op_reset : exists m rest, wHandler w = CallResetCommittedOffsets m :: rest /\ m !! p = Some c;
  op_mark : CallMarkPartitionAssigned p ∈ wHandler w;
  op_base : c <= wBroker w p;
  op_quiet : quiet p w
}.

Lemma elem_of_marks p todo ps :
  CallMarkPartitionAssigned p ∈ marks CallMarkPartitionAssigned Assign todo ps -> p ∈ todo.
Proof.
  unfold marks. intros [Hin|Hin]%elem_of_app.
  - by apply list_elem_of_fmap in Hin as (q & [= ->] & ?).
  - by apply list_elem_of_singleton in Hin.
Qed.

Lemma opens p c w w' :
  ownInv R exact w -> opening p c w -> step R exact w w' -> wHandler w' = tail (wHandler w) ->
  epochAt p [] ∅ w'.
Proof.
  intros HO [(m & rest & Hh & Hm) Hmark Hbase [Hpipe Htr]] Hs Hpop.
  pose proof (oi_handler R exact w HO) as Hinv. rewrite Hh in Hinv.
  apply handlerInv_cons in Hinv as (ps & -> & Hin & Hprev & Hba & Hdom).
  rewrite Hh in Hmark. apply elem_of_cons in Hmark as [?|Hmark]; [done|].
  pose proof (elem_of_marks _ _ _ Hmark) as Hp. destruct (Hin p Hp) as [Hown Hfetch].
  assert (Hexec : exists w1, execCall R w (CallResetCommittedOffsets m) w1 /\
            w' = setHandler (marks CallMarkPartitionAssigned Assign ps ps) w1).
  { destruct Hs; simpl in Hpop; rewrite Hh in Hpop; simpl in Hpop;
      try (by apply (f_equal length) in Hpop; simpl in Hpop; lia); try congruence.
    rewrite Hh in *. simplify_eq. eauto. }
  destruct Hexec as (w1 & He & ->). inversion He as [| |m' pos Hmx Hpos| | | | |]. subst m' w1.
  assert (Hd : NoDup pos.*1) by (rewrite Hpos; apply NoDup_fst_map_to_list).
  assert (Hpc : (p, c) ∈ pos) by (rewrite Hpos; by apply elem_of_map_to_list).
  pose proof (ResetCommittedOffsets_at (wOc w) pos p c Hd Hpc) as Ht.
  set (t := match PartitionMap (wOc w) !! p with Some _ => _ | None => _ end) in Ht.
  assert (Hstart : epochStart [] t /\ CommittedPlusOne t = c).
  { unfold t. destruct (PartitionMap (wOc w) !! p) as [t0|]; [|done].
    split; [by apply reset_start | apply resetTracker_cpo]. }
  destruct Hstart as [Hstart Hc]. destruct (epochStart_rel [] t Hstart) as (cm & rd & rest & HR).
  pose proof (er_stream _ _ _ _ _ _ _ HR) as E. symmetry in E. apply app_nil in E as [-> _].
  split; try done.
  - unfold inPipe, pipeline in *. simpl. by rewrite ResetCommittedOffsets_commitsIn, Hpipe.
  - simpl. by apply Hprev.
  - exists [], t, rd, rest. split_and!; [done | done | by rewrite Hc | done].
  - unfold readTo. simpl. intros f Hf. congruence.
  - right. done.
Qed.

(** ** The drain *)

(** While a drain waits the polling loop is blocked, or has ended, and the other
    goroutines run. *)
Definition waitStep (p : Z) w w' : Prop := calmStep p w w' /\ wPolled w' = wPolled w.

(** The [drained] token is the ingest goroutine's promise that it has emptied the
    channel: with no item in flight and the polling loop blocked, nothing is left
    in the pipeline once it is there. *)
Definition tokenInv w : Prop :=
  wInflight w = [] /\
  (queued (drained (wOc w)) <> [] -> wIngest w = IngestIdle /\ queued (commitsIn (wOc w)) = []).

Lemma flushGapBuffers_drained oc order now : drained (flushGapBuffers oc order now) = drained oc.
Proof. unfold flushGapBuffers. destruct (visit _ _ _). by rewrite returnAll_drained. Qed.

Lemma processCommit_drained oc i now : drained (processCommit oc i now) = drained oc.
Proof. unfold processCommit, putTracker. simpl. by rewrite returnAll_drained. Qed.

Lemma ackCommits_drained oc ms : drained (ackCommits oc ms) = drained oc.
Proof.
  unfold ackCommits. revert oc. induction ms as [|m ms IH]; intros oc; [done|]. cbn [foldl]. rewrite IH.
  unfold ackOne, putTracker. destruct (PartitionMap oc !! _); [by rewrite returnAll_drained | done].
Qed.

Lemma CommitOffsets_drained oc guard broker order1 order2 now oc' sent err :
  CommitOffsets oc guard broker order1 order2 now = (oc', sent, err) -> drained oc' = drained oc.
Proof.
  intros H. apply CommitOffsets_cases in H as [(-> & _)|(oc2 & Hcol & Hres)]; [done|].
  assert (E : drained oc2 = drained oc).
  { unfold collectCommits in Hcol. destruct (visit _ _ _). injection Hcol as <- <-.
    rewrite returnAll_drained. apply flushGapBuffers_drained. }
  destruct Hres as [[_ ->]|(_ & -> & _)]; [by rewrite ackCommits_drained | done].
Qed.

Lemma ingestEnd_drained oc order now :
  chLen (commitsIn oc) = 0 \/ drained (ingestEnd oc order now) = drained oc.
Proof.
  unfold ingestEnd. rewrite flushGapBuffers_commitsIn. destruct (Z.eqb_spec (chLen (commitsIn oc)) 0);
    [by left | right; apply flushGapBuffers_drained].
Qed.

Lemma ResetCommittedOffsets_drained oc pos : drained (ResetCommittedOffsets oc pos) = drained oc.
Proof.
  unfold ResetCommittedOffsets. revert oc. induction pos as [|[q c] pos IH]; intros oc; [done|].
  cbn [foldl]. rewrite IH. unfold resetOne, putTracker.
  destruct (PartitionMap oc !! q); [by rewrite returnAll_drained | done].
Qed.

Lemma execCall_token w call w' : execCall R w call w' -> tokenInv w -> tokenInv w'.
Proof.
  intros He [Hfl Htok]. destruct He; try done. split; [done|]. simpl.
  by rewrite ResetCommittedOffsets_drained, ResetCommittedOffsets_commitsIn.
Qed.

Lemma token_step w w' : tokenInv w -> step R exact w w' -> wPolled w' = wPolled w -> tokenInv w'.
Proof.
  intros HT Hs Hsame. pose proof HT as [Hfl Htok].
  destruct Hs as [item f prev' Hh'|item item' rest oc' Hin|item c Hi Hr|item now Hi|n now oc' Hi Hn Hr
    |n order now Hi Hn Ho|guard broker order1 order2 now oc' sent applied err Hm Ho1 Ho2 Hc Hb
    | |t info ackErr s' calls err Hh'|call rest w' Hh' He|q pos done' Hp]; try done.
  - apply (f_equal length) in Hsame. simpl in Hsame. lia.
  - rewrite Hfl in Hin. by apply Permutation_nil_cons in Hin.
  - split; [done|]. simpl. intros Hd. destruct (Htok Hd) as [_ E].
    apply tryRecv_cases in Hr. congruence.
  - split; [done|]. simpl. rewrite processCommit_drained. intros Hd.
    destruct (Htok Hd). congruence.
  - split; [done|]. simpl. apply ingestNext_cases in Hr as (i & c & _ & ->).
    rewrite processCommit_drained. intros Hd. destruct (Htok Hd). congruence.
  - split; [done|]. simpl. destruct (ingestEnd_frame (wOc w) order now) as (_ & HQ & _).
    rewrite HQ. destruct (ingestEnd_drained (wOc w) order now) as [E|E].
    + intros _. split; [done|]. unfold chLen in E. by destruct (queued (commitsIn (wOc w))).
    + rewrite E. intros Hd. destruct (Htok Hd). congruence.
  - destruct (CommitOffsets_frame _ _ _ _ _ _ _ _ _ Hc) as [HQ _].
    split; [done|]. simpl. by rewrite HQ, (CommitOffsets_drained _ _ _ _ _ _ _ _ _ Hc).
  - split; [done|]. simpl. destruct (clearDrained_frame (wOc w)) as (_ & -> & _).
    intros Hd. apply Htok. intros E. apply Hd. unfold clearDrained, tryRecv. by rewrite E.
  - apply (execCall_token w call w' He HT).
Qed.

Lemma token_run p w w' : tokenInv w -> rtc (waitStep p) w w' -> tokenInv w'.
Proof. intros Ht Hr. induction Hr as [|w w1 w' [[Hs _] E] Hr IH]; [done|]. by apply IH, (token_step w). Qed.

Lemma nothing_pending D stream :
  filter (fun c => cOffset c ∉ D) stream = [] -> donePrefix D stream = stream.
Proof.
  induction stream as [|c l IH]; [done|]. rewrite filter_cons. simpl.
  destruct (decide (cOffset c ∉ D)) as [|HD]; [done|]. intros E. apply dec_stable in HD.
  rewrite decide_True by done. by rewrite IH.
Qed.

(** The end of an epoch whose every record is committed. *)
Lemma committedAt_all p stream D w c :
  committedAt p stream D w stream -> last stream = Some c ->
  cOffset c + 1 <= wBroker w p /\
  exists t, PartitionMap (wOc w) !! p = Some t /\ CommittedPlusOne t = cOffset c + 1 /\
    trackerHasPendingCommits t = false.
Proof.
  intros (t & rd & rest & Ht & HR & _ & Hl) Hc. split; [by apply Hl|]. exists t.
  pose proof HR as [E _ _ Hr Hb Hbase _ _]. rewrite Hc in Hbase. split_and!; [done | apply Hbase |].
  rewrite <- (app_nil_r stream) in E at 1. apply app_inv_head in E. symmetry in E.
  apply app_nil in E as [-> ->]. simpl in *. unfold trackerHasPendingCommits.
  destruct (Ready t); [done|]. apply Permutation_nil_r in Hb. unfold slen.
  by destruct (elems (GapBuffer t)).
Qed.

(** With nothing in flight and the polling loop blocked, nothing comes in flight. *)
Lemma wait_inflight p w w' : rtc (waitStep p) w w' -> wInflight w = [] -> wInflight w' = [].
Proof.
  induction 1 as [|w w1 w' [[Hs _] Hsame] _ IH]; [done|]. intros Hfl. apply IH.
  destruct Hs as [item f prev'|item item' rest oc' Hin| | | | | | | |call rest w1 Hh' He|]; try done.
  - apply (f_equal length) in Hsame. simpl in Hsame. lia.
  - rewrite Hfl in Hin. by apply Permutation_nil_cons in Hin.
  - by destruct He.
Qed.

(** A drained hand-over is exact.  Take any run in which a partition is
    assigned with nothing left of an earlier epoch, polled, completed in any order,
    ingested and committed by any schedule of batches, ticks, broker failures and
    rebalances of other partitions, until a drain: every worker has finished, nothing is polled any more, the drain has taken an old token away and waits.  When the token
    comes back, the pipeline is empty and the mutex is free; the final commit of the
    drain, if the broker acknowledges it, leaves the partition's position at the
    broker right after the last record polled, and nothing pending. *)
Lemma handover_world w0 w1 w1' w2 w3 p c broker order1 order2 now oc' sent :
  reachable R exact w0 w1 -> opening p c w1 ->
  step R exact w1 w1' -> wHandler w1' = tail (wHandler w1) -> rtc (calmStep p) w1' w2 ->
  wInflight w2 = [] -> queued (drained (wOc w2)) = [] -> rtc (waitStep p) w2 w3 -> queued (drained (wOc w3)) <> [] ->
  range_order (PartitionMap (wOc w3)) order1 -> range_order (PartitionMap (wOc w3)) order2 ->
  CommitOffsets (wOc w3) true broker order1 order2 now = (oc', sent, None) ->
  let w4 := setBroker (applyCommits (wBroker w3) sent) (setOc oc' w3) in
  step R exact w3 w4 /\ wIngest w3 = IngestIdle /\ pipeline w4 = [] /\
  forall x, wPrev w3 !! p = Some x ->
    wBroker w4 p = x + 1 /\
    exists t, PartitionMap oc' !! p = Some t /\ CommittedPlusOne t = x + 1 /\
      trackerHasPendingCommits t = false.
Proof.
  intros Hr Hop Hs Hpop Hrun Hfl Hempty Hwait Htoken Ho1 Ho2 Hc w4.
  destruct (reachable_inv R exact R_nonneg w0 w1 Hr) as [_ HO1].
  pose proof (opens p c w1 w1' HO1 Hop Hs Hpop) as HE1.
  assert (Hr1 : reachable R exact w0 w1') by (destruct Hr; split; [done | by eapply rtc_r]).
  assert (Hcalm : rtc (calmStep p) w1' w3).
  { etrans; [exact Hrun|]. eapply rtc_subrel; [|exact Hwait]. by intros x y [? _]. }
  destruct (calm_run p w0 w1' w3 Hr1 (ex_intro _ [] (ex_intro _ ∅ HE1)) Hcalm) as (Hr3 & stream & D & HE).
  destruct (reachable_inv R exact R_nonneg w0 w3 Hr3) as [HI _].
  destruct (token_run p w2 w3) as (Hfl3 & Htok); [by split | done |].
  destruct (Htok Htoken) as [Hidle Hq]. destruct (CommitOffsets_frame _ _ _ _ _ _ _ _ _ Hc) as [HQ _].
  assert (Hpipe : pipeline w3 = []) by (unfold pipeline; by rewrite Hfl3, Hidle, Hq).
  split_and!.
  - eapply TickStep; [unfold mutexFree; by rewrite Hidle | exact Ho1 | exact Ho2 | exact Hc | done].
  - done.
  - unfold pipeline. simpl. by rewrite HQ, Hfl3, Hidle, Hq.
  - intros x Hx. rewrite (ea_prev _ _ _ _ HE) in Hx. apply fmap_Some in Hx as (e & He & ->).
    destruct (tick_world p stream D w3 true broker order1 order2 now oc' sent sent None HI HE Ho1 Ho2 Hc eq_refl)
      as [HE4 Hcm]. fold w4 in HE4, Hcm. specialize (Hcm eq_refl eq_refl).
    rewrite nothing_pending in Hcm.
    2: { pose proof (ea_pipe _ _ _ _ HE) as E. unfold inPipe in E. rewrite Hpipe in E.
         by apply Permutation_nil_l in E. }
    destruct (committedAt_all p stream D w4 e Hcm He) as (Hlow & t & Ht).
    pose proof (ea_read _ _ _ _ HE4) as Hread. unfold readTo in Hread. rewrite He in Hread.
    split; [lia | by exists t].
Qed.

End Handover.
