(* ===== verification/Duration.v ===== *)
(** * Go's [time.ParseDuration]

    A duration is a signed 64-bit number of nanoseconds.  The parser is that of the
    standard library, which [UnmarshalJSON] of the configuration calls: a sign, then
    numbers with an optional fraction, each with its unit, accumulated in 64-bit
    unsigned arithmetic; fractions are scaled in double precision, here the
    binary64 operations of [SpecFloat]. *)
From S2P Require Import Prelude GoBytes.
From Stdlib Require Import SpecFloat String.
From stdpp Require Import base list.
Open Scope Z_scope.

Inductive DurationError := InvalidDuration | MissingUnit | UnknownUnit (u : bytes).

(** ** Binary64 *)

Definition float64 := spec_float.

(** [float64(n)] of an unsigned integer *)
Definition ofUint (n : Z) : float64 := binary_normalize 53 1024 n 0 false.
Definition fmul : float64 -> float64 -> float64 := SFmul 53 1024.
Definition fdiv : float64 -> float64 -> float64 := SFdiv 53 1024.

(** [uint64(x)] of a float below 2^63: the fraction is cut off. *)
Definition truncate (x : float64) : Z :=
  match x with S754_finite false m e => Z.shiftl (Zpos m) e | _ => 0 end.

(** ** The parser *)

Definition isDigit (c : Z) : bool := (48 <=? c) && (c <=? 57).
Definition wrapU64 (x : Z) : Z := x mod 2^64.

(** [leadingInt]: [None] on overflow. *)
Fixpoint leadingInt (x : Z) (s : bytes) : option (Z * bytes) :=
  match s with
  | c :: s' =>
      if negb (isDigit c) then Some (x, s)
      else if x >? 2^63 / 10 then None
      else
        let x' := x * 10 + (c - 48) in
        if x' >? 2^63 then None else leadingInt x' s'
  | [] => Some (x, [])
  end.

(** [leadingFraction]: digits beyond the precision of 64 bits are skipped. *)
Fixpoint leadingFraction (overflow : bool) (x : Z) (scale : float64) (s : bytes) : Z * float64 * bytes :=
  match s with
  | c :: s' =>
      if negb (isDigit c) then (x, scale, s)
      else if overflow then leadingFraction true x scale s'
      else if x >? (2^63 - 1) / 10 then leadingFraction true x scale s'
      else
        let y := x * 10 + (c - 48) in
        if y >? 2^63 then leadingFraction true x scale s'
        else leadingFraction false y (fmul scale (ofUint 10)) s'
  | [] => (x, scale, [])
  end.

(** The bytes up to the next digit or point. *)
Fixpoint unitBytes (s : bytes) : bytes * bytes :=
  match s with
  | c :: s' => if (c =? 46) || isDigit c then ([], s) else let '(u, r) := unitBytes s' in (c :: u, r)
  | [] => ([], [])
  end.

(** [unitMap]; the two spellings of the micro sign are UTF-8. *)
Definition unitMap (u : bytes) : option Z :=
  if bytesEqb u (lit "ns") then Some 1
  else if bytesEqb u (lit "us") then Some 1000
  else if bytesEqb u (194 :: 181 :: lit "s") then Some 1000
  else if bytesEqb u (206 :: 188 :: lit "s") then Some 1000
  else if bytesEqb u (lit "ms") then Some 1000000
  else if bytesEqb u (lit "s") then Some 1000000000
  else if bytesEqb u (lit "m") then Some 60000000000
  else if bytesEqb u (lit "h") then Some 3600000000000
  else None.

(** The optional fraction after the whole part, and whether it had a digit. *)
Definition fraction (s : bytes) : Z * float64 * bytes * bool :=
  match s with
  | c :: s' =>
      if c =? 46 then
        let '(f, scale, r) := leadingFraction false 0 (ofUint 1) s' in
        (f, scale, r, negb (length s' =? length r)%nat)
      else (0, ofUint 1, s, false)
  | [] => (0, ofUint 1, [], false)
  end.

(** The value of [v + f/scale] units, in nanoseconds. *)
Definition inUnit (v f : Z) (scale : float64) (unit : Z) : option Z :=
  if v >? 2^63 / unit then None
  else if f >? 0 then
    let v' := v * unit + truncate (fmul (ofUint f) (fdiv (ofUint unit) scale)) in
    if v' >? 2^63 then None else Some v'
  else Some (v * unit).

(** The unit, and the sum so far. *)
Definition addUnit (d v f : Z) (scale : float64) (s : bytes) : DurationError + (Z * bytes) :=
  let '(u, rest) := unitBytes s in
  match u with
  | [] => inl MissingUnit
  | _ =>
      match unitMap u with
      | None => inl (UnknownUnit u)
      | Some unit =>
          match inUnit v f scale unit with
          | None => inl InvalidDuration
          | Some v' =>
              let d' := wrapU64 (d + v') in
              if d' >? 2^63 then inl InvalidDuration else inr (d', rest)
          end
      end
  end.

(** One round of the loop: a number and its unit, added to [d]. *)
Definition durationTerm (d : Z) (s : bytes) : DurationError + (Z * bytes) :=
  match s with
  | [] => inl InvalidDuration
  | c :: _ =>
      if negb ((c =? 46) || isDigit c) then inl InvalidDuration
      else match leadingInt 0 s with
      | None => inl InvalidDuration
      | Some (v, s1) =>
          let pre := negb (length s =? length s1)%nat in
          let '(f, scale, s2, post) := fraction s1 in
          if negb pre && negb post then inl InvalidDuration else addUnit d v f scale s2
      end
  end.

(** Every round consumes a byte, so the length of the text is enough fuel. *)
Fixpoint durationLoop (fuel : nat) (d : Z) (s : bytes) : DurationError + Z :=
  match fuel, s with
  | _, [] => inr d
  | O, _ => inl InvalidDuration
  | S fuel, _ =>
      match durationTerm d s with
      | inl e => inl e
      | inr (d', s') => durationLoop fuel d' s'
      end
  end.

Definition ParseDuration (orig : bytes) : DurationError + Z :=
  let '(neg, s) :=
    match orig with
    | c :: s' => if (c =? 45) || (c =? 43) then (c =? 45, s') else (false, orig)
    | [] => (false, [])
    end in
  if bytesEqb s (lit "0") then inr 0
  else match s with
  | [] => inl InvalidDuration
  | _ =>
      match durationLoop (length s) 0 s with
      | inl e => inl e
      | inr d =>
          if neg then inr (wrap64 (- wrap64 d))
          else if d >? 2^63 - 1 then inl InvalidDuration
          else inr d
      end
  end.

(** ** Termination *)

Lemma leadingInt_rest s x v r : leadingInt x s = Some (v, r) -> (length r <= length s)%nat.
Proof.
  revert x. induction s as [|c s IH]; intros x; cbn [leadingInt length]; [by intros [= <- <-]|].
  destruct (negb (isDigit c)); [by intros [= <- <-]|]. destruct (x >? _); [done|].
  cbv zeta. destruct (_ >? _); [done|]. intros H%IH. lia.
Qed.

Lemma leadingFraction_rest s o x k : (length (leadingFraction o x k s).2 <= length s)%nat.
Proof.
  revert o x k. induction s as [|c s IH]; intros o x k; cbn [leadingFraction]; [done|].
  cbv zeta. repeat case_match; cbn [length snd]; try lia; etrans; try apply IH; lia.
Qed.

Lemma fraction_rest s f k r p : fraction s = (f, k, r, p) -> (length r <= length s)%nat.
Proof.
  destruct s as [|c s]; cbn [fraction]; [by intros [= <- <- <- <-]|]. destruct (c =? 46).
  - pose proof (leadingFraction_rest s false 0 (ofUint 1)) as Hr.
    destruct (leadingFraction false 0 (ofUint 1) s) as [[f' k'] r']. intros [= <- <- <- <-].
    cbn [length snd] in *. lia.
  - by intros [= <- <- <- <-].
Qed.

Lemma unitBytes_rest s : (length (unitBytes s).1 + length (unitBytes s).2 = length s)%nat.
Proof.
  induction s as [|c s IH]; cbn [unitBytes]; [done|]. destruct (_ || _); [done|].
  destruct (unitBytes s) as [u r]. cbn [length fst snd] in *. lia.
Qed.

(** Every round of the loop consumes at least its unit. *)
Lemma durationTerm_consumes d s d' r : durationTerm d s = inr (d', r) -> (length r < length s)%nat.
Proof.
  unfold durationTerm. destruct s as [|c s]; [done|]. destruct (negb _); [done|].
  destruct (leadingInt 0 (c :: s)) as [[v s1]|] eqn:H1; [|done]. apply leadingInt_rest in H1. cbv zeta.
  destruct (fraction s1) as [[[f k] s2] post] eqn:H2. apply fraction_rest in H2. destruct (_ && _); [done|].
  unfold addUnit. pose proof (unitBytes_rest s2) as Hu. destruct (unitBytes s2) as [u s3].
  destruct u as [|b u]; [done|]. cbn [fst snd length] in *.
  destruct (unitMap _); [|done]. destruct (inUnit _ _ _ _); [|done]. destruct (_ >? _); [done|].
  intros [= _ <-]. lia.
Qed.

(** The length of the text is enough fuel: more changes nothing. *)
Lemma durationLoop_fuel fuel s d :
  (length s <= fuel)%nat -> durationLoop fuel d s = durationLoop (length s) d s.
Proof.
  enough (H : forall n m s d, (length s <= n)%nat -> (length s <= m)%nat -> durationLoop n d s = durationLoop m d s)
    by (intros; apply H; lia).
  clear. induction n as [|n IH]; intros m s d Hn Hm.
  - destruct s; [by destruct m | simpl in Hn; lia].
  - destruct s as [|c s]; [by destruct m|]. destruct m as [|m]; [simpl in Hm; lia|]. cbn [durationLoop].
    destruct (durationTerm d (c :: s)) as [e|[d' r]] eqn:E; [done|].
    apply durationTerm_consumes in E. apply IH; cbn [length] in *; lia.
Qed.

(** ** Lemmas *)

Definition isDigitByte (c : Z) : Prop := 48 <= c <= 57.

Lemma isDigit_spec c : isDigit c = true <-> isDigitByte c.
Proof. unfold isDigit, isDigitByte. rewrite andb_true_iff, !Z.leb_le. lia. Qed.

Definition digitsValue (x : Z) (s : bytes) : Z := foldl (fun x c => x * 10 + (c - 48)) x s.

Lemma digitsValue_mono s x : Forall isDigitByte s -> 0 <= x -> x <= digitsValue x s.
Proof.
  intros Hs. revert x. induction Hs as [|c s Hc Hs IH]; intros x Hx; [done|]. unfold isDigitByte in Hc.
  cbn [digitsValue foldl]. specialize (IH (x * 10 + (c - 48))). unfold digitsValue in IH. lia.
Qed.

(** Digits that fit are read whole. *)
Lemma leadingInt_digits a x r :
  Forall isDigitByte a -> 0 <= x -> digitsValue x a <= 2^63 ->
  leadingInt x (a ++ r) = leadingInt (digitsValue x a) r.
Proof.
  intros Ha. revert x. induction Ha as [|c a Hc Ha IH]; intros x Hx Hv; [done|].
  cbn [app leadingInt]. rewrite (proj2 (isDigit_spec c) Hc). cbn [negb]. unfold isDigitByte in Hc.
  cbn [digitsValue foldl] in *. pose proof (digitsValue_mono a (x * 10 + (c - 48)) Ha ltac:(lia)) as Hm.
  unfold digitsValue in Hm, IH. rewrite !Z.gtb_ltb.
  destruct (Z.ltb_spec (2^63 / 10) x) as [Hd|_]; [change (2^63 / 10) with 922337203685477580 in Hd; lia|].
  destruct (Z.ltb_spec (2^63) (x * 10 + (c - 48))); [lia|]. rewrite IH by lia. done.
Qed.

Lemma formatDigits_digits fuel n : 0 <= n -> Forall isDigitByte (formatDigits fuel n).
Proof.
  revert n. induction fuel as [|fuel IH]; intros n Hn; cbn [formatDigits]; [constructor|].
  unfold isDigitByte in *. destruct (Z.ltb_spec n 10).
  - repeat constructor; lia.
  - apply Forall_app. split; [apply IH; div_lia | repeat constructor; div_lia].
Qed.

Lemma formatDigits_value fuel n : 0 <= n < 10 ^ Z.of_nat fuel -> digitsValue 0 (formatDigits fuel n) = n.
Proof.
  unfold digitsValue. revert n. induction fuel as [|fuel IH]; intros n Hn; cbn [formatDigits]; [simpl in *; lia|].
  rewrite Nat2Z.inj_succ, Z.pow_succ_r in Hn by lia. destruct (Z.ltb_spec n 10); [simpl; lia|].
  rewrite foldl_app, IH by div_lia. simpl. div_lia.
Qed.

Lemma formatDigits_ne fuel n : formatDigits (S fuel) n <> [].
Proof. cbn [formatDigits]. destruct (n <? 10); [done|]. by destruct (formatDigits fuel (n / 10)). Qed.

Lemma addUnit_ns n : 0 <= n <= 2^63 -> addUnit 0 n 0 (ofUint 1) (lit "ns") = inr (n, []).
Proof.
  intros Hn. change (addUnit 0 n 0 (ofUint 1) (lit "ns")) with
    (match (if n >? 2 ^ 63 then None else Some (n * 1)) with
     | None => inl InvalidDuration
     | Some v' => if wrapU64 (0 + v') >? 2^63 then inl InvalidDuration else inr (wrapU64 (0 + v'), @nil Z)
     end).
  rewrite !Z.gtb_ltb. destruct (Z.ltb_spec (2^63) n); [lia|]. rewrite Z.mul_1_r, Z.add_0_l.
  unfold wrapU64. rewrite Z.mod_small by lia. rewrite Z.gtb_ltb. by destruct (Z.ltb_spec (2^63) n); [lia|].
Qed.

(** A whole number of nanoseconds. *)
Lemma durationLoop_ns n : 0 <= n <= 2^63 ->
  durationLoop (length (formatDigits 20 n ++ lit "ns")) 0 (formatDigits 20 n ++ lit "ns") = inr n.
Proof.
  intros Hn. pose proof (formatDigits_digits 20 n ltac:(lia)) as Hd.
  pose proof (formatDigits_value 20 n ltac:(lia)) as Hv. pose proof (formatDigits_ne 19 n) as Hne.
  change (formatDigits (S 19) n) with (formatDigits 20 n) in Hne.
  assert (Hlead : leadingInt 0 (formatDigits 20 n ++ lit "ns") = Some (n, lit "ns")).
  { rewrite leadingInt_digits, Hv by (done || lia). reflexivity. }
  destruct (formatDigits 20 n) as [|c ds]; [done|]. apply Forall_cons_1 in Hd as [Hc _].
  cbn [app length durationLoop]. cbn [app] in Hlead.
  unfold durationTerm. rewrite (proj2 (isDigit_spec c) Hc), orb_true_r. cbn [negb]. rewrite Hlead.
  assert (Hlen : (length (c :: ds ++ lit "ns") =? length (lit "ns"))%nat = false).
  { cbn [length]. rewrite length_app. apply Nat.eqb_neq. lia. }
  rewrite Hlen. cbn [negb andb]. change (fraction (lit "ns")) with (0, ofUint 1, lit "ns", false).
  cbv beta iota. rewrite addUnit_ns by lia. by destruct (length (ds ++ _)).
Qed.

Lemma not_zero_text c ds : bytesEqb (c :: ds ++ lit "ns") (lit "0") = false.
Proof. apply bool_decide_eq_false. intros [= _ E]. by destruct ds. Qed.

(** [time.ParseDuration] reads a number of nanoseconds back. *)
Lemma duration_ns d : in_int64 d -> ParseDuration (FormatInt d ++ lit "ns") = inr d.
Proof.
  intros Hd. unfold in_int64 in Hd. unfold ParseDuration, FormatInt. destruct (Z.ltb_spec d 0) as [Hneg|Hpos].
  - cbn [app]. change ((45 =? 45) || (45 =? 43)) with true. cbv iota.
    pose proof (durationLoop_ns (- d) ltac:(lia)) as Hl. pose proof (formatDigits_ne 19 (- d)) as Hne.
    destruct (formatDigits 20 (- d)) as [|c ds]; [done|]. cbn [app] in *. rewrite not_zero_text, Hl.
    change (45 =? 45) with true. cbv iota. f_equal. unfold wrap64. Z.div_mod_to_equations; lia.
  - pose proof (durationLoop_ns d ltac:(lia)) as Hl. pose proof (formatDigits_ne 19 d) as Hne.
    pose proof (formatDigits_digits 20 d ltac:(lia)) as Hdig.
    destruct (formatDigits 20 d) as [|c ds]; [done|]. apply Forall_cons_1 in Hdig as [Hc _].
    unfold isDigitByte in Hc. cbn [app] in *.
    destruct (Z.eqb_spec c 45); [lia|]. destruct (Z.eqb_spec c 43); [lia|]. cbn [orb].
    rewrite (not_zero_text c ds), Hl, Z.gtb_ltb. by destruct (Z.ltb_spec (2^63 - 1) d); [lia|].
Qed.
