(* ===== verification/DurationText.v ===== *)
(** * Go's [time.Duration.String]

    The text of a duration, as the snapshots show it, and the round trip through
    [time.ParseDuration].  The parser scales a fraction in double precision: the
    scale factors that occur are powers of ten and the products stay below 2^53, so
    the arithmetic is exact. *)
From S2P Require Import Prelude GoBytes Duration.
From Stdlib Require Import SpecFloat String.
From stdpp Require Import base list.
Open Scope Z_scope.

(** ** Printing *)

(** [fmtFrac]: the last [prec] digits of [v] in front of [acc], without trailing
    zeros, with a point when a digit is printed; and the number above them. *)
Fixpoint fmtFracLoop (prec : nat) (v : Z) (print : bool) (acc : bytes) : bytes * Z :=
  match prec with
  | O => (if print then 46 :: acc else acc, v)
  | S prec =>
      let digit := v mod 10 in
      let print := print || negb (digit =? 0) in
      fmtFracLoop prec (v / 10) print (if print then (digit + 48) :: acc else acc)
  end.
Definition fmtFrac (prec : nat) (v : Z) (acc : bytes) : bytes * Z := fmtFracLoop prec v false acc.

Definition fmtInt (v : Z) (acc : bytes) : bytes := formatDigits 20 v ++ acc.

(** The magnitude, from the right. *)
Definition formatMagnitude (u : Z) : bytes :=
  if u <? 1000000000 then
    if u =? 0 then lit "0s"
    else
      let '(prec, unit) :=
        if u <? 1000 then (0%nat, lit "ns")
        else if u <? 1000000 then (3%nat, 194 :: 181 :: lit "s")
        else (6%nat, lit "ms") in
      let '(acc, v) := fmtFrac prec u unit in fmtInt v acc
  else
    let '(acc, seconds) := fmtFrac 9 u (lit "s") in
    let acc := fmtInt (seconds mod 60) acc in
    let minutes := seconds / 60 in
    if minutes >? 0 then
      let acc := fmtInt (minutes mod 60) (lit "m" ++ acc) in
      let hours := minutes / 60 in
      if hours >? 0 then fmtInt hours (lit "h" ++ acc) else acc
    else acc.

(** [Duration.String] *)
Definition durationString (d : Z) : bytes :=
  if d <? 0 then 45 :: formatMagnitude (- d) else formatMagnitude d.

Example durationString_examples :
  map durationString [0; 1; 1500; 10000000; 1500000000; 90000000000; 3661001000000; -2^63] =
  [lit "0s"; lit "1ns"; lit "1.5" ++ 194 :: 181 :: lit "s"; lit "10ms"; lit "1.5s"; lit "1m30s"; lit "1h1m1.001s";
   lit "-2562047h47m16.854775808s"].
Proof. vm_compute. reflexivity. Qed.

(** ** Exact products *)

Lemma digits_log2 p : Zpos (digits2_pos p) = Z.log2 (Zpos p) + 1.
Proof.
  induction p as [p IH|p IH|]; [| |done]; cbn [digits2_pos]; rewrite Pos2Z.inj_succ, IH.
  - rewrite Pos2Z.inj_xI, Z.log2_succ_double; lia.
  - rewrite Pos2Z.inj_xO, Z.log2_double; lia.
Qed.

(** Shifting out zeros loses nothing. *)
Lemma shr_zeros (p : positive) m : 0 < m ->
  SpecFloat.iter_pos shr_1 p (Build_shr_record (m * 2 ^ Zpos p) false false) = Build_shr_record m false false.
Proof.
  revert m. induction p as [p IH|p IH|]; intros m Hm; cbn [SpecFloat.iter_pos].
  - assert (H1 : forall k, 0 < k -> shr_1 (Build_shr_record (k * 2) false false) = Build_shr_record k false false).
    { intros [|k|k] Hk; [done| |done]. by rewrite Z.mul_comm. }
    replace (m * 2 ^ Z.pos p~1) with (m * 2 ^ Zpos p * 2 ^ Zpos p * 2)
      by (rewrite (Pos2Z.inj_xI p), Z.pow_add_r, Z.pow_twice_r by lia; lia).
    rewrite H1 by nia. rewrite IH by nia. by apply IH.
  - replace (m * 2 ^ Z.pos p~0) with (m * 2 ^ Zpos p * 2 ^ Zpos p)
      by (rewrite (Pos2Z.inj_xO p), Z.pow_twice_r; lia).
    rewrite IH by nia. by apply IH.
  - destruct m as [|m|m]; [done| |done]. by rewrite Z.mul_comm.
Qed.

(** A mantissa of 53 digits followed by [n] zeros is rounded to itself. *)
Lemma round_exact m n e :
  2 ^ 52 <= m < 2 ^ 53 -> 0 <= n -> -1074 <= e + n <= 971 ->
  binary_round_aux 53 1024 false (m * 2 ^ n) e loc_Exact = S754_finite false (Z.to_pos m) (e + n).
Proof.
  intros Hm Hn He.
  assert (Hlog : Z.log2 m = 52) by (apply Z.log2_unique; simpl Z.succ; lia).
  assert (Hs : forall k, 0 <= k -> -1074 <= e + n - k + k -> e + n - k + k <= 971 ->
    shr_fexp 53 1024 (m * 2 ^ k) (e + n - k) loc_Exact = (Build_shr_record m false false, e + n)).
  { intros k Hk _ _. unfold shr_fexp. cbn [shr_record_of_loc].
    assert (Hd : Zdigits2 (m * 2 ^ k) = 53 + k).
    { assert (Hpos : 0 < m * 2 ^ k) by nia. destruct (m * 2 ^ k) as [|p|p] eqn:E; [lia| |lia].
      cbn [Zdigits2]. rewrite digits_log2, <- E, Z.log2_mul_pow2, Hlog by lia. lia. }
    rewrite Hd. unfold fexp, emin. replace (Z.max _ _ - (e + n - k)) with k by lia.
    unfold shr. destruct k as [|k|k]; [by rewrite Z.mul_1_r, Z.sub_0_r | | lia].
    rewrite shr_zeros by lia. f_equal. lia. }
  unfold binary_round_aux.
  replace e with (e + n - n) at 1 by lia. rewrite (Hs n) by lia. cbn [shr_m loc_of_shr_record round_nearest_even].
  pose proof (Hs 0) as H0. rewrite Z.mul_1_r, Z.sub_0_r in H0. rewrite H0 by lia. cbn [shr_m].
  destruct m as [|m|m]; [lia| |lia]. by destruct (Z.leb_spec (e + n) (1024 - 53)); [|lia].
Qed.

(** The float of an integer below 2^53: its digits moved to the top of the mantissa. *)
Definition exponentOf (n : Z) : Z := Z.log2 n - 52.
Definition mantissaOf (n : Z) : Z := n * 2 ^ (- exponentOf n).

Lemma mantissaOf_range n : 0 < n < 2 ^ 53 -> 0 <= - exponentOf n <= 52 /\ 2 ^ 52 <= mantissaOf n < 2 ^ 53.
Proof.
  intros Hn. unfold mantissaOf, exponentOf.
  assert (Hl : 0 <= Z.log2 n < 53) by (split; [apply Z.log2_nonneg | apply Z.log2_lt_pow2; lia]).
  pose proof (Z.log2_spec n ltac:(lia)) as [H1 H2]. split; [lia|].
  replace (2 ^ 52) with (2 ^ Z.log2 n * 2 ^ (- (Z.log2 n - 52))) by (rewrite <- Z.pow_add_r by lia; f_equal; lia).
  replace (2 ^ 53) with (2 ^ Z.succ (Z.log2 n) * 2 ^ (- (Z.log2 n - 52)))
    by (rewrite <- Z.pow_add_r by lia; f_equal; lia).
  pose proof (Z.pow_pos_nonneg 2 (- (Z.log2 n - 52)) ltac:(lia) ltac:(lia)). nia.
Qed.

Lemma iter_xO p d : Zpos (Pos.iter xO p d) = Zpos p * 2 ^ Zpos d.
Proof.
  induction d as [|d IH] using Pos.peano_ind; [simpl; lia|].
  rewrite Pos.iter_succ, Pos2Z.inj_xO, IH, Pos2Z.inj_succ, Z.pow_succ_r by lia. lia.
Qed.

Lemma ofUint_exact n :
  0 < n < 2 ^ 53 -> ofUint n = S754_finite false (Z.to_pos (mantissaOf n)) (exponentOf n).
Proof.
  intros Hn. destruct (mantissaOf_range n Hn) as [He Hm]. unfold ofUint, binary_normalize.
  destruct n as [|p|p]; [lia| |lia]. unfold binary_round. rewrite digits_log2.
  unfold fexp, emin. replace (Z.max _ _) with (exponentOf (Zpos p)) by (unfold exponentOf in *; lia).
  unfold shl_align. rewrite Z.sub_0_r.
  assert (H0 : binary_round_aux 53 1024 false (mantissaOf (Z.pos p)) (exponentOf (Z.pos p)) loc_Exact =
    S754_finite false (Z.to_pos (mantissaOf (Z.pos p))) (exponentOf (Z.pos p))).
  { pose proof (round_exact (mantissaOf (Zpos p)) 0 (exponentOf (Zpos p)) Hm ltac:(lia) ltac:(lia)) as H.
    by rewrite Z.mul_1_r, Z.add_0_r in H. }
  unfold mantissaOf in H0 at 1. destruct (exponentOf (Zpos p)) as [|d|d]; [by rewrite Z.mul_1_r in H0 | lia |].
  by rewrite iter_xO.
Qed.

Lemma fmul_exact a b : 0 < a -> 0 < b -> a * b < 2 ^ 53 -> fmul (ofUint a) (ofUint b) = ofUint (a * b).
Proof.
  intros Ha Hb Hab. rewrite !ofUint_exact by nia. unfold fmul, SFmul. cbn [xorb].
  destruct (mantissaOf_range a ltac:(nia)) as [Hea Hma], (mantissaOf_range b ltac:(nia)) as [Heb Hmb],
    (mantissaOf_range (a * b) ltac:(nia)) as [He Hm].
  rewrite Pos2Z.inj_mul, !Z2Pos.id by lia.
  set (n := exponentOf (a * b) - exponentOf a - exponentOf b).
  assert (Hn : 0 <= n).
  { unfold n, exponentOf in *. pose proof (Z.log2_mul_below a b ltac:(lia) ltac:(lia)).
    assert (Z.log2 (a * b) < 53) by (apply Z.log2_lt_pow2; nia). lia. }
  replace (mantissaOf a * mantissaOf b) with (mantissaOf (a * b) * 2 ^ n).
  - rewrite round_exact by (done || lia). f_equal. lia.
  - unfold mantissaOf. rewrite <- Z.mul_assoc, <- Z.pow_add_r by lia.
    replace (- exponentOf (a * b) + n) with (- exponentOf a + - exponentOf b) by lia. rewrite Z.pow_add_r by lia. lia.
Qed.

Lemma truncate_exact n : 0 < n < 2 ^ 53 -> truncate (ofUint n) = n.
Proof.
  intros Hn. rewrite ofUint_exact by done. destruct (mantissaOf_range n Hn) as [He Hm]. cbn [truncate].
  rewrite Z2Pos.id, <- (Z.opp_involutive (exponentOf n)), <- Z.shiftr_opp_r, Z.opp_involutive by lia.
  rewrite Z.shiftr_div_pow2 by lia. apply Z.div_mul. lia.
Qed.

(** ** Fractions *)

(** What a fraction prints: [ds], whose value fills [prec] places. *)
Definition fracText (ds acc : bytes) : bytes := match ds with [] => acc | _ => 46 :: ds ++ acc end.

Lemma digitsValue_app a b x : digitsValue x (a ++ b) = digitsValue (digitsValue x a) b.
Proof. unfold digitsValue. apply foldl_app. Qed.

(** Once a digit was printed, all further ones are. *)
Lemma fmtFracLoop_print prec v acc : 0 <= v ->
  exists ds, fmtFracLoop prec v true acc = (46 :: ds ++ acc, v / 10 ^ Z.of_nat prec) /\
    length ds = prec /\ Forall isDigitByte ds /\ digitsValue 0 ds = v mod 10 ^ Z.of_nat prec.
Proof.
  revert v acc. induction prec as [|prec IH]; intros v acc Hv; cbn [fmtFracLoop].
  - exists []. rewrite Z.div_1_r, Z.mod_1_r. done.
  - cbn [orb]. destruct (IH (v / 10) ((v mod 10 + 48) :: acc)) as (ds & -> & Hl & Hd & E); [div_lia|].
    exists (ds ++ [v mod 10 + 48]). rewrite <- app_assoc, length_app, Hl. cbn [app length].
    rewrite Nat2Z.inj_succ, Z.pow_succ_r by lia.
    rewrite <- Zdiv.Zdiv_Zdiv by lia. split_and!; [done | lia | |].
    + apply Forall_app. split; [done|]. constructor; [unfold isDigitByte; div_lia | constructor].
    + rewrite digitsValue_app, E. cbn [digitsValue foldl].
      rewrite (Z.rem_mul_r v 10 (10 ^ Z.of_nat prec)) by lia. lia.
Qed.

Lemma fmtFrac_spec prec v acc : 0 <= v ->
  exists ds, fmtFrac prec v acc = (fracText ds acc, v / 10 ^ Z.of_nat prec) /\
    (length ds <= prec)%nat /\ Forall isDigitByte ds /\ (ds <> [] -> 0 < digitsValue 0 ds) /\
    digitsValue 0 ds * 10 ^ Z.of_nat (prec - length ds) = v mod 10 ^ Z.of_nat prec.
Proof.
  unfold fmtFrac. revert v. induction prec as [|prec IH]; intros v Hv; cbn [fmtFracLoop].
  - exists []. rewrite Z.div_1_r, Z.mod_1_r. done.
  - cbn [orb]. rewrite Nat2Z.inj_succ, Z.pow_succ_r by lia. rewrite <- Zdiv.Zdiv_Zdiv by lia.
    rewrite (Z.rem_mul_r v 10 (10 ^ Z.of_nat prec)) by lia.
    destruct (Z.eqb_spec (v mod 10) 0) as [E0|E0]; cbn [negb].
    + destruct (IH (v / 10)) as (ds & -> & Hl & Hd & Hp & E); [div_lia|]. exists ds.
      split_and!; [done | lia | done | done |]. rewrite Nat.sub_succ_l, Nat2Z.inj_succ, Z.pow_succ_r by lia. lia.
    + destruct (fmtFracLoop_print prec (v / 10) ((v mod 10 + 48) :: acc)) as (ds & -> & Hl & Hd & E); [div_lia|].
      exists (ds ++ [v mod 10 + 48]). rewrite length_app, Hl. cbn [length].
      assert (Hval : digitsValue 0 (ds ++ [v mod 10 + 48]) = v mod 10 + 10 * (v / 10 mod 10 ^ Z.of_nat prec)).
      { rewrite digitsValue_app, E. cbn [digitsValue foldl]. lia. }
      assert (Hmod : 0 < v mod 10) by div_lia.
      pose proof (Z.mod_pos_bound (v / 10) (10 ^ Z.of_nat prec) ltac:(lia)). split_and!.
      * unfold fracText. destruct ds; cbn [app]; [done|]. by rewrite <- app_assoc.
      * lia.
      * apply Forall_app. split; [done|]. constructor; [unfold isDigitByte; div_lia | constructor].
      * intros _. rewrite Hval. lia.
      * rewrite Hval. replace (S prec - (prec + 1))%nat with 0%nat by lia. change (10 ^ Z.of_nat 0) with 1. lia.
Qed.

(** ** Reading one term back *)

Definition noDigit (r : bytes) : Prop := match r with [] => True | c :: _ => isDigit c = false end.

Lemma leadingFraction_digits ds x j r :
  Forall isDigitByte ds -> noDigit r -> 0 <= x < 10 ^ Z.of_nat j -> (j + length ds <= 9)%nat ->
  leadingFraction false x (ofUint (10 ^ Z.of_nat j)) (ds ++ r) =
  (digitsValue x ds, ofUint (10 ^ Z.of_nat (j + length ds)), r).
Proof.
  intros Hd Hr. revert x j. induction Hd as [|c ds Hc Hd IH]; intros x j Hx Hj; cbn [app length] in *.
  - rewrite Nat.add_0_r. destruct r as [|c r]; [done|]. cbn [leadingFraction]. cbn in Hr. by rewrite Hr.
  - assert (Hp : 10 ^ Z.of_nat j * 10 <= 10 ^ 9).
    { replace (10 ^ Z.of_nat j * 10) with (10 ^ (Z.of_nat j + 1)) by (rewrite Z.pow_add_r by lia; lia).
      apply Z.pow_le_mono_r; lia. }
    cbn [leadingFraction]. rewrite (proj2 (isDigit_spec c) Hc). cbn [negb]. unfold isDigitByte in Hc.
    rewrite !Z.gtb_ltb. destruct (Z.ltb_spec ((2 ^ 63 - 1) / 10) x) as [H|_];
      [change ((2 ^ 63 - 1) / 10) with 922337203685477580 in H; lia|].
    destruct (Z.ltb_spec (2 ^ 63) (x * 10 + (c - 48))); [lia|].
    rewrite fmul_exact by lia. replace (10 ^ Z.of_nat j * 10) with (10 ^ Z.of_nat (S j))
      by (rewrite Nat2Z.inj_succ, Z.pow_succ_r by lia; lia).
    rewrite IH; [|rewrite Nat2Z.inj_succ, Z.pow_succ_r by lia; lia | lia].
    cbn [digitsValue foldl]. by rewrite <- Nat.add_succ_comm.
Qed.

Lemma scale_down prec k : (k <= prec <= 9)%nat ->
  fdiv (ofUint (10 ^ Z.of_nat prec)) (ofUint (10 ^ Z.of_nat k)) = ofUint (10 ^ Z.of_nat (prec - k)).
Proof.
  intros H. do 10 (destruct k as [|k];
    [do 10 (destruct prec as [|prec]; [first [lia | vm_compute; reflexivity]|]); lia|
     destruct prec as [|prec]; [lia|]]). lia.
Qed.

(** A fraction of [prec] places is worth its digits, exactly. *)
Lemma inUnit_exact v ds prec F : (length ds <= prec <= 9)%nat -> Forall isDigitByte ds ->
  0 <= v -> F = digitsValue 0 ds * 10 ^ Z.of_nat (prec - length ds) -> F < 10 ^ 9 ->
  v * 10 ^ Z.of_nat prec + F <= 2 ^ 63 ->
  inUnit v (digitsValue 0 ds) (ofUint (10 ^ Z.of_nat (length ds))) (10 ^ Z.of_nat prec) =
  Some (v * 10 ^ Z.of_nat prec + F).
Proof.
  intros Hl Hd Hv -> HF Hle. pose proof (digitsValue_mono ds 0 Hd ltac:(lia)) as H0. unfold inUnit.
  rewrite !Z.gtb_ltb. destruct (Z.ltb_spec (2 ^ 63 / 10 ^ Z.of_nat prec) v) as [Hlt|_].
  { pose proof (Z.div_le_lower_bound (2 ^ 63) (10 ^ Z.of_nat prec) v ltac:(lia)). nia. }
  destruct (Z.ltb_spec 0 (digitsValue 0 ds)) as [Hpos|Hz]; [|f_equal; nia].
  rewrite scale_down, fmul_exact, truncate_exact by nia.
  by destruct (Z.ltb_spec (2 ^ 63) (v * 10 ^ Z.of_nat prec + digitsValue 0 ds * 10 ^ Z.of_nat (prec - length ds))); [lia|].
Qed.

(** The text after a number: the end, or a number again. *)
Definition endsUnit (r : bytes) : Prop := match r with [] => True | c :: _ => (c =? 46) || isDigit c = true end.

Definition unitText (u : bytes) : Prop := u <> [] /\ Forall (fun c => (c =? 46) || isDigit c = false) u.

Lemma unitBytes_unit u r : unitText u -> endsUnit r -> unitBytes (u ++ r) = (u, r).
Proof.
  intros [_ Hu] Hr. induction Hu as [|c u Hc Hu IH]; cbn [app unitBytes].
  - destruct r as [|c r]; [done|]. cbn [unitBytes]. cbn in Hr. by rewrite Hr.
  - by rewrite Hc, IH.
Qed.

Lemma unitText_noDigit u r : unitText u -> noDigit (u ++ r) /\ fraction (u ++ r) = (0, ofUint 1, u ++ r, false).
Proof.
  intros [Hne Hu]. destruct Hu as [|c u Hc _]; [done|]. apply orb_false_iff in Hc as [Hp Hd].
  cbn [app noDigit fraction]. by rewrite Hp.
Qed.

Lemma fraction_text ds u r : (length ds <= 9)%nat -> Forall isDigitByte ds -> unitText u ->
  exists post, fraction (fracText ds (u ++ r)) = (digitsValue 0 ds, ofUint (10 ^ Z.of_nat (length ds)), u ++ r, post).
Proof.
  intros Hl Hd Hu. destruct (unitText_noDigit u r Hu) as [Hn Hf]. destruct ds as [|c ds].
  - exists false. exact Hf.
  - unfold fracText, fraction. change (46 =? 46) with true. cbv iota.
    pose proof (leadingFraction_digits (c :: ds) 0 0 (u ++ r) Hd Hn ltac:(lia) ltac:(simpl in *; lia)) as H.
    change (10 ^ Z.of_nat 0) with 1 in H. rewrite H. by eexists.
Qed.

Definition termText (v : Z) (ds u : bytes) (r : bytes) : bytes := fmtInt v (fracText ds (u ++ r)).

(** A number, with a fraction of at most [prec] places in a unit of that many places
    when it has one, is read back exactly. *)
Lemma durationTerm_text d v ds u r unit F :
  0 <= d -> 0 <= v -> unitText u -> endsUnit r -> unitMap u = Some unit ->
  (length ds <= 9)%nat -> Forall isDigitByte ds ->
  inUnit v (digitsValue 0 ds) (ofUint (10 ^ Z.of_nat (length ds))) unit = Some (v * unit + F) ->
  v <= v * unit + F -> d + (v * unit + F) <= 2 ^ 63 ->
  durationTerm d (termText v ds u r) = inr (d + (v * unit + F), r).
Proof.
  intros Hd Hv Hu Hr Hmap Hl Hds Hin Hge Hle. unfold termText, fmtInt.
  pose proof (formatDigits_digits 20 v Hv) as Hdig. pose proof (formatDigits_value 20 v ltac:(lia)) as Hval.
  pose proof (formatDigits_ne 19 v) as Hne. change (formatDigits (S 19) v) with (formatDigits 20 v) in Hne.
  destruct (fraction_text ds u r Hl Hds Hu) as [post Hf].
  assert (Hnf : noDigit (fracText ds (u ++ r))).
  { destruct ds; [by apply unitText_noDigit | done]. }
  assert (Hlead : leadingInt 0 (formatDigits 20 v ++ fracText ds (u ++ r)) = Some (v, fracText ds (u ++ r))).
  { rewrite leadingInt_digits, Hval by (done || lia). destruct (fracText ds (u ++ r)) as [|c t]; [done|].
    cbn [leadingInt]. cbn in Hnf. by rewrite Hnf. }
  destruct (formatDigits 20 v) as [|c t]; [done|]. apply Forall_cons_1 in Hdig as [Hc _].
  unfold durationTerm. cbn [app] in *. rewrite (proj2 (isDigit_spec c) Hc), orb_true_r. cbn [negb].
  rewrite Hlead, Hf. assert (Hlen : (length (c :: t ++ fracText ds (u ++ r)) =? length (fracText ds (u ++ r)))%nat = false).
  { cbn [length]. rewrite length_app. apply Nat.eqb_neq. lia. }
  rewrite Hlen. cbn [negb andb]. unfold addUnit. rewrite unitBytes_unit by done. destruct Hu as [Hue _].
  destruct u as [|b u]; [done|]. rewrite Hmap, Hin. cbv zeta. unfold wrapU64.
  rewrite Z.mod_small by lia. rewrite Z.gtb_ltb. by destruct (Z.ltb_spec (2 ^ 63) (d + (v * unit + F))); [lia|].
Qed.

Lemma durationLoop_step d s d' r : durationTerm d s = inr (d', r) ->
  durationLoop (length s) d s = durationLoop (length r) d' r.
Proof.
  intros H. pose proof (durationTerm_consumes d s d' r H) as Hlt. destruct s as [|c s]; [done|].
  cbn [length durationLoop]. rewrite H. apply durationLoop_fuel. simpl in Hlt. lia.
Qed.

(** ** The round trip *)

Lemma fmtInt_ends v acc : 0 <= v -> endsUnit (fmtInt v acc) /\ exists c s, fmtInt v acc = c :: s /\ isDigitByte c.
Proof.
  intros Hv. unfold fmtInt. pose proof (formatDigits_digits 20 v Hv) as Hd. pose proof (formatDigits_ne 19 v) as Hne.
  change (formatDigits (S 19) v) with (formatDigits 20 v) in Hne.
  destruct (formatDigits 20 v) as [|c t]; [done|]. apply Forall_cons_1 in Hd as [Hc _]. split.
  - cbn [app endsUnit]. by rewrite (proj2 (isDigit_spec c) Hc), orb_true_r.
  - by exists c, (t ++ acc).
Qed.

Ltac unit_text := split; [done | repeat constructor].

(** A term with the fraction [fmtFrac] printed. *)
Lemma durationTerm_frac d prec u v unit :
  0 <= d -> 0 <= u -> 0 <= v -> (prec <= 9)%nat -> unitText unit -> unitMap unit = Some (10 ^ Z.of_nat prec) ->
  d + (v * 10 ^ Z.of_nat prec + u mod 10 ^ Z.of_nat prec) <= 2 ^ 63 ->
  durationTerm d (fmtInt v (fmtFrac prec u unit).1) =
  inr (d + (v * 10 ^ Z.of_nat prec + u mod 10 ^ Z.of_nat prec), []).
Proof.
  intros Hd Hu Hv Hp Hun Hm Hle. destruct (fmtFrac_spec prec u unit Hu) as (ds & -> & Hl & Hds & _ & E).
  pose proof (Z.mod_pos_bound u (10 ^ Z.of_nat prec) ltac:(lia)) as Hmod.
  pose proof (Z.pow_le_mono_r 10 (Z.of_nat prec) 9 ltac:(lia) ltac:(lia)) as Hp9.
  cbn [fst]. rewrite <- (app_nil_r unit) at 1. apply durationTerm_text; try done; try lia; [|nia].
  apply (inUnit_exact v ds prec); lia || done.
Qed.

(** A term of whole minutes or hours. *)
Lemma durationTerm_whole d v unit u r :
  0 <= d -> 0 <= v -> unitText u -> endsUnit r -> unitMap u = Some unit -> 0 < unit -> d + v * unit <= 2 ^ 63 ->
  durationTerm d (fmtInt v (u ++ r)) = inr (d + v * unit, r).
Proof.
  intros Hd Hv Hu Hr Hm Hpos Hle.
  assert (Hin : inUnit v 0 (ofUint (10 ^ Z.of_nat 0)) unit = Some (v * unit + 0)).
  { unfold inUnit. rewrite Z.gtb_ltb. destruct (Z.ltb_spec (2 ^ 63 / unit) v) as [Hlt|_]; [|f_equal; lia].
    pose proof (Z.div_le_lower_bound (2 ^ 63) unit v Hpos). nia. }
  pose proof (durationTerm_text d v [] u r unit 0 Hd Hv Hu Hr Hm ltac:(simpl; lia) ltac:(constructor) Hin
    ltac:(nia) ltac:(lia)) as H.
  rewrite Z.add_0_r in H. exact H.
Qed.

(** The last term of a text: [v] units and the fraction of [u]. *)
Lemma durationLoop_last d prec u v unit acc q :
  fmtFrac prec u unit = (acc, q) ->
  0 <= d -> 0 <= u -> 0 <= v -> (prec <= 9)%nat -> unitText unit -> unitMap unit = Some (10 ^ Z.of_nat prec) ->
  d + (v * 10 ^ Z.of_nat prec + u mod 10 ^ Z.of_nat prec) <= 2 ^ 63 ->
  q = u / 10 ^ Z.of_nat prec /\
  durationLoop (length (fmtInt v acc)) d (fmtInt v acc) =
  inr (d + (v * 10 ^ Z.of_nat prec + u mod 10 ^ Z.of_nat prec)).
Proof.
  intros E Hd Hu Hv Hp Hun Hm Hle. split.
  - destruct (fmtFrac_spec prec u unit Hu) as (ds & E' & _). rewrite E in E'. by injection E'.
  - pose proof (durationTerm_frac d prec u v unit Hd Hu Hv Hp Hun Hm Hle) as H. rewrite E in H. cbn [fst] in H.
    by rewrite (durationLoop_step _ _ _ _ H).
Qed.

Lemma durationLoop_below_second u prec unit :
  0 <= u < 10 ^ 9 -> (prec <= 9)%nat -> unitText unit -> unitMap unit = Some (10 ^ Z.of_nat prec) ->
  let s := let '(acc, v) := fmtFrac prec u unit in fmtInt v acc in durationLoop (length s) 0 s = inr u.
Proof.
  intros Hu Hp Hun Hm. destruct (fmtFrac prec u unit) as [acc q] eqn:E. cbv zeta.
  pose proof (Z.div_mod u (10 ^ Z.of_nat prec) ltac:(lia)) as Hdm.
  assert (Hq : 0 <= u / 10 ^ Z.of_nat prec) by (apply Z.div_pos; lia).
  destruct (durationLoop_last 0 prec u (u / 10 ^ Z.of_nat prec) unit acc q) as [-> ->]; try done; lia || (f_equal; lia).
Qed.

Lemma durationLoop_seconds u :
  10 ^ 9 <= u <= 2 ^ 63 -> durationLoop (length (formatMagnitude u)) 0 (formatMagnitude u) = inr u.
Proof.
  intros Hu. unfold formatMagnitude. destruct (Z.ltb_spec u 1000000000); [lia|].
  destruct (fmtFrac 9 u (lit "s")) as [acc sec] eqn:E. cbv zeta.
  assert (Hlast : forall d v, 0 <= d -> 0 <= v -> d + (v * 10 ^ 9 + u mod 10 ^ 9) <= 2 ^ 63 ->
    sec = u / 10 ^ 9 /\ durationLoop (length (fmtInt v acc)) d (fmtInt v acc) = inr (d + (v * 10 ^ 9 + u mod 10 ^ 9))).
  { intros d v Hd Hv Hle. apply (durationLoop_last d 9 u v (lit "s") acc sec); try done; [lia | unit_text]. }
  assert (Hdm := Z.div_mod u (10 ^ 9) ltac:(lia)). assert (Hm := Z.mod_pos_bound u (10 ^ 9) ltac:(lia)).
  destruct (Hlast 0 0) as [-> _]; [lia..|]. set (sec := u / 10 ^ 9) in *.
  assert (Hs := Z.div_mod sec 60 ltac:(lia)). assert (Hsm := Z.mod_pos_bound sec 60 ltac:(lia)).
  assert (Hmin := Z.div_mod (sec / 60) 60 ltac:(lia)). assert (Hmm := Z.mod_pos_bound (sec / 60) 60 ltac:(lia)).
  assert (Hpos : 0 <= sec / 60 / 60) by (repeat apply Z.div_pos; lia).
  set (s0 := sec mod 60) in *. set (m := sec / 60) in *. set (m0 := m mod 60) in *. set (h := m / 60) in *.
  rewrite !Z.gtb_ltb. destruct (Z.ltb_spec 0 m) as [Hm0|Hm0]; [|destruct (Hlast 0 s0) as [_ ->]; [lia..|]; f_equal; lia].
  assert (Hmins : forall d, 0 <= d -> d + (m0 * 60000000000 + (s0 * 10 ^ 9 + u mod 10 ^ 9)) <= 2 ^ 63 ->
    let s := fmtInt m0 (lit "m" ++ fmtInt s0 acc) in
    durationLoop (length s) d s = inr (d + (m0 * 60000000000 + (s0 * 10 ^ 9 + u mod 10 ^ 9)))).
  { intros d Hd Hle. cbv zeta.
    rewrite (durationLoop_step _ _ _ _ (durationTerm_whole d m0 60000000000 (lit "m") (fmtInt s0 acc)
      Hd ltac:(lia) ltac:(unit_text) (proj1 (fmtInt_ends s0 acc ltac:(lia))) eq_refl ltac:(lia) ltac:(lia))).
    destruct (Hlast (d + m0 * 60000000000) s0) as [_ ->]; [lia..|]. f_equal. lia. }
  destruct (Z.ltb_spec 0 h) as [Hh|Hh]; [|rewrite Hmins by lia; f_equal; lia].
  rewrite (durationLoop_step _ _ _ _ (durationTerm_whole 0 h 3600000000000 (lit "h") (fmtInt m0 (lit "m" ++ fmtInt s0 acc))
    ltac:(lia) ltac:(lia) ltac:(unit_text) (proj1 (fmtInt_ends m0 _ ltac:(lia))) eq_refl ltac:(lia) ltac:(lia))).
  rewrite Hmins by lia. f_equal. lia.
Qed.

Lemma durationLoop_magnitude u : 0 <= u <= 2 ^ 63 ->
  durationLoop (length (formatMagnitude u)) 0 (formatMagnitude u) = inr u.
Proof.
  intros Hu. destruct (Z.ltb_spec u (10 ^ 9)) as [Hs|Hs]; [|apply durationLoop_seconds; lia].
  unfold formatMagnitude. destruct (Z.ltb_spec u 1000000000); [|lia].
  destruct (Z.eqb_spec u 0) as [->|Hne]; [by vm_compute|].
  destruct (u <? 1000); [|destruct (u <? 1000000)]; apply durationLoop_below_second; first [lia | done | unit_text].
Qed.

(** The text begins with a digit and ends with the letter of its unit. *)
Lemma formatMagnitude_shape u : 0 <= u ->
  exists c s, formatMagnitude u = c :: s /\ isDigitByte c /\ bytesEqb (c :: s) (lit "0") = false.
Proof.
  intros Hu. enough (H : exists v t, 0 <= v /\ t <> [] /\ formatMagnitude u = fmtInt v t).
  { destruct H as (v & t & Hv & Ht & ->). destruct (fmtInt_ends v t Hv) as (_ & c & s & E & Hc). exists c, s.
    split_and!; [done | done |]. apply bool_decide_eq_false. intros E0. rewrite E0 in E. unfold fmtInt in E.
    apply (f_equal length) in E. rewrite length_app in E. pose proof (formatDigits_ne 19 v) as Hne.
    change (formatDigits (S 19) v) with (formatDigits 20 v) in Hne.
    destruct (formatDigits 20 v), t; cbn in *; done || lia. }
  assert (Hfrac : forall prec unit acc q, unit <> [] -> fmtFrac prec u unit = (acc, q) -> 0 <= q /\ acc <> []).
  { intros prec unit acc q Hne E. destruct (fmtFrac_spec prec u unit Hu) as (ds & E' & _). rewrite E in E'.
    injection E' as -> ->. split; [apply Z.div_pos; lia | by destruct ds]. }
  unfold formatMagnitude. destruct (u <? 1000000000).
  - destruct (u =? 0); [by exists 0, (lit "s")|].
    destruct (if u <? 1000 then (0%nat, lit "ns") else if u <? 1000000 then (3%nat, 194 :: 181 :: lit "s")
      else (6%nat, lit "ms")) as [prec unit] eqn:Eu.
    assert (Hne : unit <> []) by (destruct (u <? 1000); [|destruct (u <? 1000000)]; by injection Eu as _ <-).
    destruct (fmtFrac prec u unit) as [acc q] eqn:E. destruct (Hfrac _ _ _ _ Hne E). by exists q, acc.
  - destruct (fmtFrac 9 u (lit "s")) as [acc q] eqn:E. destruct (Hfrac 9%nat (lit "s") acc q ltac:(done) E) as [Hq Ha].
    cbv zeta. rewrite !Z.gtb_ltb. destruct (Z.ltb_spec 0 (q / 60)); [destruct (Z.ltb_spec 0 (q / 60 / 60))|].
    + eexists (q / 60 / 60), _. split_and!; [lia | | done]. done.
    + eexists (q / 60 mod 60), _. split_and!; [div_lia | | done]. done.
    + exists (q mod 60), acc. split_and!; [div_lia | done | done].
Qed.

(** [time.ParseDuration] reads every duration's text back. *)
Lemma duration_roundtrip d : in_int64 d -> ParseDuration (durationString d) = inr d.
Proof.
  intros Hd. unfold in_int64 in Hd. unfold ParseDuration, durationString. destruct (Z.ltb_spec d 0) as [Hneg|Hpos].
  - change ((45 =? 45) || (45 =? 43)) with true. cbv iota.
    pose proof (durationLoop_magnitude (- d) ltac:(lia)) as Hl.
    destruct (formatMagnitude_shape (- d) ltac:(lia)) as (c & s & E & _ & Hz). rewrite E in *. rewrite Hz, Hl.
    change (45 =? 45) with true. cbv iota. f_equal. unfold wrap64. Z.div_mod_to_equations; lia.
  - pose proof (durationLoop_magnitude d ltac:(lia)) as Hl.
    destruct (formatMagnitude_shape d ltac:(lia)) as (c & s & E & Hc & Hz). rewrite E in *. unfold isDigitByte in Hc.
    destruct (Z.eqb_spec c 45); [lia|]. destruct (Z.eqb_spec c 43); [lia|]. cbn [orb].
    rewrite Hz, Hl, Z.gtb_ltb. by destruct (Z.ltb_spec (2 ^ 63 - 1) d); [lia|].
Qed.
