(* ===== verification/Calendar.v ===== *)
(** * Go's [time.Time.UTC().Format] with the layout of the snapshots

    A time is a number of nanoseconds since 1970, in UTC.  [absDate] is the
    standard library's computation of the civil date; [daysSinceEpoch] counts days by
    the rules of the calendar.  [readTimestamp] reads a text of the layout
    "2006-01-02T15:04:05.000Z" back. *)
From S2P Require Import Prelude GoBytes Duration.
From Stdlib Require Import String.
From stdpp Require Import base list.
Open Scope Z_scope.

(** ** The calendar *)

Definition isLeap (year : Z) : bool :=
  (year mod 4 =? 0) && (negb (year mod 100 =? 0) || (year mod 400 =? 0)).

(** Days before each month of a common year. *)
Definition daysBefore : list Z := [0; 31; 59; 90; 120; 151; 181; 212; 243; 273; 304; 334; 365].

Definition daysPer400Years : Z := 365 * 400 + 97.
Definition daysPer100Years : Z := 365 * 100 + 24.
Definition daysPer4Years : Z := 365 * 4 + 1.

(** Days from the first of January of the year 1 to the first of January 1970. *)
Definition epochDays : Z := 719162.

(** The years since the year 1 and the day of the year. *)
Definition yearDay (days : Z) : Z * Z :=
  let n := days / daysPer400Years in
  let y := 400 * n in let d := days - daysPer400Years * n in
  let n := d / daysPer100Years in let n := n - n / 4 in
  let y := y + 100 * n in let d := d - daysPer100Years * n in
  let n := d / daysPer4Years in
  let y := y + 4 * n in let d := d - daysPer4Years * n in
  let n := d / 365 in let n := n - n / 4 in
  (y + n, d - 365 * n).

(** The month, from 1, and the day of the month, from 1. *)
Definition monthDay (leap : bool) (yday : Z) : Z * Z :=
  if leap && (yday =? 31 + 29 - 1) then (2, 29)
  else
    let day := if leap && (yday >? 31 + 29 - 1) then yday - 1 else yday in
    let month := day / 31 in
    let e := default 0 (daysBefore !! Z.to_nat (month + 1)) in
    if day >=? e then (month + 2, day - e + 1)
    else (month + 1, day - default 0 (daysBefore !! Z.to_nat month) + 1).

(** [absDate] *)
Definition absDate (days : Z) : Z * Z * Z :=
  let '(y, yday) := yearDay (days + epochDays) in
  let year := y + 1 in
  let '(month, day) := monthDay (isLeap year) yday in (year, month, day).

(** ** Formatting *)

(** [appendInt(b, x, width)]: zero-padded to the width. *)
Definition appendInt (x : Z) (width : nat) : bytes :=
  let digits := formatDigits 20 (Z.abs x) in
  (if x <? 0 then [45] else []) ++ replicate (width - length digits) 48 ++ digits.

Definition nsPerDay : Z := 86400000000000.

(** [t.UTC().Format("2006-01-02T15:04:05.000Z")] *)
Definition formatTimestamp (t : Z) : bytes :=
  let '(year, month, day) := absDate (t / nsPerDay) in
  let ns := t mod nsPerDay in
  let sec := ns / 1000000000 in
  appendInt year 4 ++ [45] ++ appendInt month 2 ++ [45] ++ appendInt day 2 ++ [84] ++
  appendInt (sec / 3600) 2 ++ [58] ++ appendInt (sec / 60 mod 60) 2 ++ [58] ++ appendInt (sec mod 60) 2 ++
  [46] ++ appendInt (ns mod 1000000000 / 1000000) 3 ++ [90].

Example formatTimestamp_examples :
  map formatTimestamp [0; 1749997800000000000; 951782399999999999; -62135596800000000000] =
  [lit "1970-01-01T00:00:00.000Z"; lit "2025-06-15T14:30:00.000Z"; lit "2000-02-28T23:59:59.999Z";
   lit "0001-01-01T00:00:00.000Z"].
Proof. vm_compute. reflexivity. Qed.

(** ** Reading *)

(** Days before a month, by the lengths of the months. *)
Definition monthLength (leap : bool) (month : Z) : Z :=
  if month =? 2 then (if leap then 29 else 28)
  else if (month =? 4) || (month =? 6) || (month =? 9) || (month =? 11) then 30 else 31.

Definition daysBeforeMonth (leap : bool) (month : Z) : Z :=
  foldr (fun m n => monthLength leap (Z.of_nat m) + n) 0 (seq 1 (Z.to_nat (month - 1))).

(** Days since 1970, by the rules of the calendar: the years before, with their leap
    days, the months before, and the days before. *)
Definition daysSinceEpoch (year month day : Z) : Z :=
  let y := year - 1 in
  365 * y + y / 4 - y / 100 + y / 400 + daysBeforeMonth (isLeap year) month + (day - 1) - epochDays.

(** Exactly [n] digits. *)
Definition readDigits (n : nat) (s : bytes) : option (Z * bytes) :=
  let ds := take n s in
  if (length ds =? n)%nat && forallb isDigit ds then Some (digitsValue 0 ds, drop n s) else None.

Definition readByte (c : Z) (s : bytes) : option bytes :=
  match s with b :: s => if b =? c then Some s else None | [] => None end.

Definition readTimestamp (s : bytes) : option Z :=
  '(year, s) ← readDigits 4 s; s ← readByte 45 s;
  '(month, s) ← readDigits 2 s; s ← readByte 45 s;
  '(day, s) ← readDigits 2 s; s ← readByte 84 s;
  '(hour, s) ← readDigits 2 s; s ← readByte 58 s;
  '(minute, s) ← readDigits 2 s; s ← readByte 58 s;
  '(sec, s) ← readDigits 2 s; s ← readByte 46 s;
  '(ms, s) ← readDigits 3 s; s ← readByte 90 s;
  match s with
  | [] => Some (daysSinceEpoch year month day * nsPerDay +
                (((hour * 60 + minute) * 60 + sec) * 1000 + ms) * 1000000)
  | _ => None
  end.

(** ** Lemmas *)

(** Of [k] parts of [w] days and one day more, the last day is in the last part. *)
Lemma cut_part d w k : 0 < w -> 1 <= k <= 4 -> 0 <= d < k * w + 1 -> (k = 4 \/ d < k * w) ->
  let n := d / w in let n := n - n / 4 in
  0 <= n < k /\ 0 <= d - w * n /\ (d - w * n < w \/ (n = 3 /\ d - w * n = w)).
Proof.
  intros Hw Hk Hd Hk4. cbv zeta. pose proof (Z.div_mod d w ltac:(lia)) as E.
  pose proof (Z.mod_pos_bound d w Hw) as Hm. set (n := d / w) in *.
  assert (Hn : 0 <= n <= 4) by (split; [apply Z.div_pos; lia | nia]).
  assert (n = 4 \/ n < 4) as [->|Hlt] by lia.
  - change (4 / 4) with 1. assert (k = 4) by nia. subst. nia.
  - rewrite (Z.div_small n 4) by lia. nia.
Qed.

Lemma years_div a b c e : 0 <= b < 4 -> 0 <= c < 25 -> 0 <= e < 4 ->
  let y := 400 * a + 100 * b + 4 * c + e in
  y / 4 = 100 * a + 25 * b + c /\ y / 100 = 4 * a + b /\ y / 400 = a.
Proof. intros Hb Hc He y. subst y. div_lia. Qed.

(** A year is a leap year when it ends a group of four, except the groups that end
    a century, except the centuries that end four. *)
Lemma isLeap_parts a b c e : 0 <= b < 4 -> 0 <= c < 25 -> 0 <= e < 4 ->
  isLeap (400 * a + 100 * b + 4 * c + e + 1) = (e =? 3) && (negb (c =? 24) || (b =? 3)).
Proof.
  intros Hb Hc He. unfold isLeap. set (y := 400 * a + 100 * b + 4 * c + e + 1).
  assert (H4 : (y mod 4 =? 0) = (e =? 3)) by (subst y; apply eq_true_iff_eq; rewrite !Z.eqb_eq; div_lia).
  rewrite H4. destruct (Z.eqb_spec e 3) as [->|]; [|done]. cbn [andb].
  assert (H100 : (y mod 100 =? 0) = (c =? 24)) by (subst y; apply eq_true_iff_eq; rewrite !Z.eqb_eq; div_lia).
  rewrite H100. destruct (Z.eqb_spec c 24) as [->|]; [|done]. cbn [negb orb].
  subst y. apply eq_true_iff_eq. rewrite !Z.eqb_eq. div_lia.
Qed.

Lemma yearDay_spec days y yday :
  yearDay days = (y, yday) ->
  days = 365 * y + y / 4 - y / 100 + y / 400 + yday /\
  0 <= yday < (if isLeap (y + 1) then 366 else 365).
Proof.
  unfold yearDay. cbv zeta. unfold daysPer400Years, daysPer100Years, daysPer4Years.
  change (365 * 400 + 97) with 146097. change (365 * 100 + 24) with 36524. change (365 * 4 + 1) with 1461.
  pose proof (Z.div_mod days 146097 ltac:(lia)) as E. pose proof (Z.mod_pos_bound days 146097 ltac:(lia)) as Hm.
  set (a := days / 146097) in *. set (r1 := days - 146097 * a) in *.
  destruct (cut_part r1 36524 4 ltac:(lia) ltac:(lia) ltac:(lia) ltac:(lia)) as (Hb & Hr2 & Hr2').
  set (b := r1 / 36524 - r1 / 36524 / 4) in *. set (r2 := r1 - 36524 * b) in *.
  pose proof (Z.div_mod r2 1461 ltac:(lia)) as Ec. pose proof (Z.mod_pos_bound r2 1461 ltac:(lia)) as Hc.
  set (c := r2 / 1461) in *. set (r3 := r2 - 1461 * c) in *. assert (Hc' : 0 <= c < 25) by lia.
  destruct (cut_part r3 365 4 ltac:(lia) ltac:(lia) ltac:(lia) ltac:(lia)) as (He & Hr4 & Hr4').
  set (e := r3 / 365 - r3 / 365 / 4) in *. intros [= <- <-].
  destruct (years_div a b c e Hb Hc' He) as (-> & -> & ->). rewrite isLeap_parts by done. split; [lia|].
  split; [lia|]. destruct (Z.eqb_spec e 3), (Z.eqb_spec c 24), (Z.eqb_spec b 3); cbn [negb andb orb]; lia.
Qed.

Definition monthDayOk (leap : bool) (yday : Z) : bool :=
  let '(month, day) := monthDay leap yday in
  (1 <=? month) && (month <=? 12) && (1 <=? day) && (day <=? 31) && (daysBeforeMonth leap month + (day - 1) =? yday).

(** Every day of either kind of year. *)
Lemma monthDay_spec (leap : bool) yday : 0 <= yday < (if leap then 366 else 365) ->
  let '(month, day) := monthDay leap yday in
  1 <= month <= 12 /\ 1 <= day <= 31 /\ daysBeforeMonth leap month + (day - 1) = yday.
Proof.
  intros Hy.
  assert (Hall : forallb (fun n => monthDayOk leap (Z.of_nat n)) (seq 0 (if leap then 366 else 365)) = true)
    by (destruct leap; vm_compute; reflexivity).
  assert (Hin : In (Z.to_nat yday) (seq 0 (if leap then 366 else 365))) by (apply in_seq; destruct leap; lia).
  rewrite forallb_forall in Hall. specialize (Hall _ Hin). rewrite Z2Nat.id in Hall by lia. unfold monthDayOk in Hall.
  destruct (monthDay leap yday) as [month day]. rewrite !andb_true_iff, !Z.leb_le, Z.eqb_eq in Hall. lia.
Qed.

(** [absDate] is the inverse of counting days by the calendar. *)
Lemma absDate_spec days year month day :
  absDate days = (year, month, day) ->
  1 <= month <= 12 /\ 1 <= day <= 31 /\ daysSinceEpoch year month day = days.
Proof.
  unfold absDate. destruct (yearDay (days + epochDays)) as [y yday] eqn:E. apply yearDay_spec in E as [E Hy].
  pose proof (monthDay_spec (isLeap (y + 1)) yday Hy) as Hm.
  destruct (monthDay (isLeap (y + 1)) yday) as [m d]. intros [= <- <- <-]. destruct Hm as (Hm & Hd & Hs).
  split_and!; try lia. unfold daysSinceEpoch. replace (y + 1 - 1) with y by lia. lia.
Qed.

Lemma length_formatDigits fuel w n : (w <= fuel)%nat -> (0 < w)%nat -> 0 <= n < 10 ^ Z.of_nat w ->
  (length (formatDigits fuel n) <= w)%nat.
Proof.
  revert fuel n. induction w as [|w IH]; intros fuel n Hf Hw Hn; [lia|]. destruct fuel as [|fuel]; [lia|].
  cbn [formatDigits]. rewrite Nat2Z.inj_succ, Z.pow_succ_r in Hn by lia. destruct (Z.ltb_spec n 10); [simpl; lia|].
  rewrite length_app. cbn [length]. destruct w as [|w]; [simpl in Hn; lia|].
  specialize (IH fuel (n / 10) ltac:(lia) ltac:(lia)). specialize (IH ltac:(div_lia)). lia.
Qed.

(** A number of the width is read back. *)
Lemma readDigits_appendInt x w r : (0 < w <= 20)%nat -> 0 <= x < 10 ^ Z.of_nat w ->
  readDigits w (appendInt x w ++ r) = Some (x, r).
Proof.
  intros Hw Hx. unfold appendInt. destruct (Z.ltb_spec x 0); [lia|]. rewrite Z.abs_eq by lia. cbn [app].
  pose proof (length_formatDigits 20 w x ltac:(lia) ltac:(lia) Hx) as Hl.
  pose proof (formatDigits_digits 20 x ltac:(lia)) as Hd.
  assert (Hv : digitsValue 0 (formatDigits 20 x) = x).
  { apply formatDigits_value. pose proof (Z.pow_le_mono_r 10 (Z.of_nat w) 20 ltac:(lia) ltac:(lia)). change (Z.of_nat 20) with 20. lia. }
  set (ds := replicate (w - length (formatDigits 20 x)) 48 ++ formatDigits 20 x).
  assert (Hlen : length ds = w) by (unfold ds; rewrite length_app, length_replicate; lia).
  unfold readDigits. rewrite <- Hlen, take_app_length, drop_app_length, Nat.eqb_refl. cbn [andb].
  assert (Hall : Forall isDigitByte ds).
  { apply Forall_app. split; [apply Forall_replicate; unfold isDigitByte; lia | done]. }
  replace (forallb isDigit ds) with true
    by (symmetry; apply forallb_forall; intros c Hc; apply isDigit_spec; rewrite Forall_forall in Hall; by apply Hall, list_elem_of_In).
  do 2 f_equal. unfold ds, digitsValue. rewrite foldl_app.
  replace (foldl _ 0 (replicate _ 48)) with 0; [exact Hv|].
  clear. induction (w - length (formatDigits 20 x))%nat as [|n IH]; [done|]. exact IH.
Qed.

(** A time whose year has four digits is read back to the millisecond. *)
Definition fourDigitYear (t : Z) : Prop := let '(year, _, _) := absDate (t / nsPerDay) in 0 <= year <= 9999.

Definition toMillis (t : Z) : Z := t - t mod 1000000.

(** Reading a field and the separator after it. *)
Lemma readField {A} x w c r (k : Z -> bytes -> option A) :
  (0 < w <= 20)%nat -> 0 <= x < 10 ^ Z.of_nat w ->
  ('(v, s) ← readDigits w (appendInt x w ++ [c] ++ r); s ← readByte c s; k v s) = k x r.
Proof.
  intros Hw Hx. rewrite readDigits_appendInt by done. cbn [mbind option_bind app readByte]. by rewrite Z.eqb_refl.
Qed.

Lemma timestamp_roundtrip t : fourDigitYear t -> readTimestamp (formatTimestamp t) = Some (toMillis t).
Proof.
  unfold fourDigitYear, formatTimestamp. destruct (absDate (t / nsPerDay)) as [[year month] day] eqn:E.
  intros Hy. apply absDate_spec in E as (Hm & Hd & E). cbv zeta. unfold readTimestamp.
  pose proof (Z.div_mod t nsPerDay ltac:(done)) as Ht. pose proof (Z.mod_pos_bound t nsPerDay ltac:(done)) as Hns.
  assert (Hmod : t mod 1000000 = t mod nsPerDay mod 1000000) by (unfold nsPerDay in *; div_lia).
  rewrite <- E in Ht. set (ns := t mod nsPerDay) in *. unfold nsPerDay in Hns.
  do 6 (rewrite readField; [|lia | simpl Z.of_nat; div_lia]).
  change [90] with ([90] ++ []). rewrite readField; [|lia | simpl Z.of_nat; div_lia].
  f_equal. unfold toMillis. rewrite Hmod, Ht at 1. clearbody ns. clear - Hns. div_lia.
Qed.
