(* ===== verification/Logs.v ===== *)
(** * The lines logged about commits and rebalances

    [describeCommits], [describeRebalanceInfo] and [rebalanceTypeName]: what an
    operator sees of a commit and of a rebalance event.  The lines are faithful: the
    positions of a commit and the partitions of an event can be read back from them. *)
From S2P Require Import Prelude Types GoBytes Duration.
From Stdlib Require Import String.
From stdpp Require Import base list sorting strings.
Open Scope Z_scope.

(** ** Rendering *)

(** The loop of both builders: items separated by spaces. *)
Fixpoint spaced (l : list bytes) : bytes :=
  match l with
  | [] => []
  | [x] => x
  | x :: l => x ++ 32 :: spaced l
  end.

(** [fmt.Sprintf("%d:%d", a, b)] *)
Definition pairText (a b : Z) : bytes := FormatInt a ++ 58 :: FormatInt b.

Definition rebalanceTypeName (t : RebalanceType) : bytes :=
  match t with
  | Assign => lit "assign"
  | Revoke => lit "revoke"
  | OtherRebalance n => lit "type(" ++ FormatInt n ++ lit ")"
  end.

Definition describePartition (t : RebalanceType) (r : RebalanceInfo) : bytes :=
  match t with
  | Assign => pairText (riPartition r) (CommittedOffset r)
  | _ => FormatInt (riPartition r)
  end.

Definition describeRebalanceInfo (t : RebalanceType) (info : list RebalanceInfo) : bytes :=
  FormatInt (Z.of_nat (length info)) ++ lit " partition(s) [" ++ spaced (map (describePartition t) info) ++ [93].

Section Logs.
Context `{NX : Nexus}.

(** The [sort] leaves equal partitions in an unspecified order; a commit has each
    partition once. *)
Definition byPartition (a b : Message) : Prop := Partition a <= Partition b.
#[global] Instance byPartition_dec : RelDecision byPartition := fun a b => Z.le_dec (Partition a) (Partition b).

Definition describeCommit (m : Message) : bytes := 112 :: pairText (Partition m) (Offset m).

Definition describeCommits (commits : list Message) : bytes :=
  91 :: spaced (map describeCommit (merge_sort byPartition commits)) ++ [93].

(** ** Reading *)

Definition readPair (s : bytes) : option (Z * Z) :=
  let '(a, b) := Cut s 58 in
  match ParseInt a, ParseInt b with inr a, inr b => Some (a, b) | _, _ => None end.

(** The items between the brackets. *)
Definition readItems (s : bytes) : list bytes :=
  match removelast (Cut s 91).2 with [] => [] | t => fieldsBy 32 t end.

Definition readCommit (s : bytes) : option (Z * Z) := match s with 112 :: s => readPair s | _ => None end.
Definition readCommits (s : bytes) : option (list (Z * Z)) := mapM readCommit (readItems s).
Definition readAssigned (s : bytes) : option (list (Z * Z)) := mapM readPair (readItems s).

(** ** Lemmas *)

Lemma FormatInt_chars n c : c ∈ FormatInt n -> c = 45 \/ 48 <= c <= 57.
Proof.
  unfold FormatInt. intros Hc. assert (H : forall m, 0 <= m -> c ∈ formatDigits 20 m -> 48 <= c <= 57).
  { intros m Hm Hin. pose proof (formatDigits_digits 20 m Hm) as Hd. rewrite Forall_forall in Hd. by apply Hd. }
  destruct (Z.ltb_spec n 0); [apply elem_of_cons in Hc as [->|Hc]; [by left|]|]; right; eapply H, Hc; lia.
Qed.

Lemma pairText_chars a b c : c ∈ pairText a b -> c <> 32 /\ c <> 91.
Proof.
  unfold pairText. intros [Hc|[->|Hc]%elem_of_cons]%elem_of_app; [apply FormatInt_chars in Hc| |apply FormatInt_chars in Hc]; lia.
Qed.

Lemma readPair_text a b : in_int64 a -> in_int64 b -> readPair (pairText a b) = Some (a, b).
Proof.
  intros Ha Hb. unfold readPair, pairText.
  rewrite Cut_app by (intros Hc%FormatInt_chars; lia). by rewrite !int_roundtrip.
Qed.

Lemma spaced_ne x l : x <> [] -> spaced (x :: l) <> [].
Proof. intros Hx. destruct l; [done|]. cbn [spaced]. by destruct x. Qed.

Lemma fieldsBy_spaced x l : Forall (fun y => 32 ∉ y) (x :: l) -> fieldsBy 32 (spaced (x :: l)) = x :: l.
Proof.
  revert x. induction l as [|y l IH]; intros x [Hx Hl]%Forall_cons_1; [by apply fieldsBy_one|].
  change (spaced (x :: y :: l)) with (x ++ 32 :: spaced (y :: l)). rewrite fieldsBy_app by done. by rewrite IH.
Qed.

(** What is written between brackets is read back item by item. *)
Lemma readItems_spaced head l :
  91 ∉ head -> Forall (fun y => y <> [] /\ 32 ∉ y) l -> readItems (head ++ 91 :: spaced l ++ [93]) = l.
Proof.
  intros Hh Hl. unfold readItems. rewrite Cut_app by done. cbn [snd]. rewrite removelast_last.
  destruct l as [|x l]; [done|]. pose proof (proj1 (Forall_inv Hl)) as Hx. pose proof (spaced_ne x l Hx) as Hne.
  destruct (spaced (x :: l)) as [|c s] eqn:E; [done|]. rewrite <- E. apply fieldsBy_spaced.
  eapply Forall_impl; [exact Hl|]. by intros y [_ ?].
Qed.

(** ** The lines are faithful *)

(** The log line of a commit lists its positions by partition. *)
Lemma describeCommits_reads commits :
  Forall (fun m => in_int64 (Partition m) /\ in_int64 (Offset m)) commits ->
  exists sorted, sorted ≡ₚ commits /\ StronglySorted byPartition sorted /\
    readCommits (describeCommits commits) = Some (map (fun m => (Partition m, Offset m)) sorted).
Proof.
  intros Hok. exists (merge_sort byPartition commits). split_and!.
  - apply merge_sort_Permutation.
  - apply StronglySorted_merge_sort; unfold byPartition; [intros ???; lia | intros ??; lia].
  - unfold readCommits, describeCommits. change (91 :: ?s ++ [93]) with ([] ++ 91 :: s ++ [93]).
    rewrite (readItems_spaced []); [|apply not_elem_of_nil|].
    + apply (mapM_map _ _ _ (fun m => in_int64 (Partition m) /\ in_int64 (Offset m))).
      * intros m [Hp Ho]. unfold readCommit, describeCommit. by apply readPair_text.
      * by rewrite merge_sort_Permutation.
    + apply Forall_fmap, Forall_forall. intros m _. split; [done|]. cbn.
      intros [?|Hc%pairText_chars]%elem_of_cons; [done | lia].
Qed.

(** The log line of an assign lists its partitions and baselines in order. *)
Lemma describeAssign_reads info :
  Forall (fun r => in_int64 (riPartition r) /\ in_int64 (CommittedOffset r)) info ->
  readAssigned (describeRebalanceInfo Assign info) = Some (map (fun r => (riPartition r, CommittedOffset r)) info).
Proof.
  intros Hok. unfold readAssigned, describeRebalanceInfo.
  set (n := FormatInt (Z.of_nat (length info))).
  replace (n ++ lit " partition(s) [" ++ spaced (map (describePartition Assign) info) ++ [93])
    with ((n ++ lit " partition(s) ") ++ 91 :: spaced (map (describePartition Assign) info) ++ [93])
    by (rewrite <- app_assoc; done).
  rewrite readItems_spaced.
  - apply (mapM_map _ _ _ (fun r => in_int64 (riPartition r) /\ in_int64 (CommittedOffset r))); [|done].
    intros r [Hp Ho]. by apply readPair_text.
  - intros [Hc%FormatInt_chars|Hc]%elem_of_app; [lia|].
    vm_compute in Hc. repeat (apply elem_of_cons in Hc as [?|Hc]; [done|]). by apply not_elem_of_nil in Hc.
  - apply Forall_fmap, Forall_forall. intros r _. split; cbn.
    + unfold pairText. by destruct (FormatInt (riPartition r)).
    + intros Hc%pairText_chars. lia.
Qed.
End Logs.
