(* ===== verification/Config.v ===== *)
(** * Configuration ([demux/config]) and the sizes derived from it

    [SetDemuxConfigDefaults] fills in defaults and validates; a validation
    failure is the panic of the source, a value of [ConfigError].  Integers are
    Go's 64-bit [int]; durations are nanoseconds. *)
From S2P Require Import Prelude.
From stdpp Require Import base list strings.
Open Scope Z_scope.

Record DemuxConfig := mkConfig {
  ConcurrentKeys : Z;
  PerKeyBufferLen : Z;
  PollTimeout : Z;
  AutoCommitInterval : Z;
  DrainTimeout : Z;
  AwaitAssignmentsTimeout : Z;
  CommitIngestChannelLen : Z;
  CommitPartitionSliceLen : Z;
  QueryTimeout : Z;
  AcquireWorkerTimeoutCircuitBreaker : Z;
  WorkerShardsCount : Z;
  RebalancePausePollingTimeout : Z;
  AcquireCommitGuardTimeout : Z
}.

(** [DemuxConfig{}] *)
Definition zeroConfig : DemuxConfig := mkConfig 0 0 0 0 0 0 0 0 0 0 0 0 0.

Definition millisecond : Z := 1000000.
Definition minute : Z := 60 * second.

(** The default and the bounds of each field. *)
Record Limits := mkLimits { dflt : Z; lo : Z; hi : Z }.

Definition concurrentKeysL : Limits := mkLimits 250 1 5000.
Definition perKeyBufferLenL : Limits := mkLimits 16 1 64.
Definition pollTimeoutL : Limits := mkLimits (100 * millisecond) (20 * millisecond) (2 * second).
Definition commitIntervalL : Limits := mkLimits (5 * second) (250 * millisecond) (15 * second).
Definition drainTimeoutL : Limits := mkLimits (20 * second) (2 * second) (55 * second).
Definition awaitAssignmentsL : Limits := mkLimits (50 * second) (5 * second) (5 * minute).
Definition commitPartitionSliceLenL : Limits := mkLimits 400 50 2000.
Definition queryTimeoutL : Limits := mkLimits (5 * second) (1 * second) (10 * second).
Definition acquireWorkerL : Limits := mkLimits minute (15 * second) (15 * minute).
Definition workerShardsL : Limits := mkLimits 16 2 64.
Definition pausePollingL : Limits := mkLimits (30 * second) (10 * second) (10 * minute).
Definition commitGuardL : Limits := mkLimits (10 * second) (100 * millisecond) (30 * second).

Definition commitIngestChannelLenCalcMin : Z := 5000.
Definition commitIngestChannelLenCalcMax : Z := 100000.
Definition commitIngestChannelLenMin : Z := 1000.
Definition commitIngestChannelLenMax : Z := 200000.

Inductive ConfigError := TooLow (field : string) | TooHigh (field : string) | NotPowerOfTwo.

(** [if v < min { v = default } else if v > max && !skip { panic }] *)
Definition atMost (field : string) (l : Limits) (skip : bool) (v : Z) : ConfigError + Z :=
  if v <? lo l then inr (dflt l)
  else if (v >? hi l) && negb skip then inl (TooHigh field)
  else inr v.

(** The [switch] of the other fields. *)
Definition within (field : string) (l : Limits) (skip : bool) (v : Z) : ConfigError + Z :=
  if v <? 1 then inr (dflt l)
  else if (v <? lo l) && negb skip then inl (TooLow field)
  else if (v >? hi l) && negb skip then inl (TooHigh field)
  else inr v.

Definition calcCommitIngestChannelLen (keys : Z) : Z :=
  if keys <? 50 then commitIngestChannelLenCalcMin
  else if keys >? 1000 then commitIngestChannelLenCalcMax
  else keys * 100.

Definition ingestLen (skip : bool) (keys v : Z) : ConfigError + Z :=
  within "CommitIngestChannelLen"
    (mkLimits (calcCommitIngestChannelLen keys) commitIngestChannelLenMin commitIngestChannelLenMax)
    skip v.

(** [bits.OnesCount] *)
Fixpoint onesCountPos (p : positive) : Z :=
  match p with
  | xH => 1
  | xO p => onesCountPos p
  | xI p => 1 + onesCountPos p
  end.

Definition OnesCount (z : Z) : Z := match z with Zpos p => onesCountPos p | _ => 0 end.

Definition isPowerOfTwo (value : Z) : bool := (value >=? 2) && (OnesCount value =? 1).

Definition shardsCount (skip : bool) (v : Z) : ConfigError + Z :=
  if v <? 1 then inr (dflt workerShardsL)
  else if negb (isPowerOfTwo v) then inl NotPowerOfTwo
  else if (v >? hi workerShardsL) && negb skip then inl (TooHigh "WorkerShardsCount")
  else inr v.

Definition bindE {A B} (x : ConfigError + A) (f : A -> ConfigError + B) : ConfigError + B :=
  match x with inl e => inl e | inr a => f a end.
Notation "x <-- m ; k" := (bindE m (fun x => k)) (at level 100, m at next level, right associativity).

Definition SetDemuxConfigDefaults (skipValidation : bool) (c : DemuxConfig)
    : ConfigError + DemuxConfig :=
  keys <-- atMost "ConcurrentKeys" concurrentKeysL skipValidation (ConcurrentKeys c);
  buf <-- atMost "PerKeyBufferLen" perKeyBufferLenL skipValidation (PerKeyBufferLen c);
  poll <-- within "PollTimeout" pollTimeoutL skipValidation (PollTimeout c);
  commit <-- within "AutoCommitInterval" commitIntervalL skipValidation (AutoCommitInterval c);
  query <-- within "QueryTimeout" queryTimeoutL skipValidation (QueryTimeout c);
  drain <-- within "DrainTimeout" drainTimeoutL skipValidation (DrainTimeout c);
  await <-- within "AwaitAssignmentsTimeout" awaitAssignmentsL skipValidation (AwaitAssignmentsTimeout c);
  ingest <-- ingestLen skipValidation keys (CommitIngestChannelLen c);
  slice <-- within "CommitPartitionSliceLen" commitPartitionSliceLenL skipValidation (CommitPartitionSliceLen c);
  acquire <-- within "AcquireWorkerTimeoutCircuitBreaker" acquireWorkerL skipValidation
                (AcquireWorkerTimeoutCircuitBreaker c);
  shards <-- shardsCount skipValidation (WorkerShardsCount c);
  pause <-- within "RebalancePausePollingTimeout" pausePollingL skipValidation
              (RebalancePausePollingTimeout c);
  guard <-- within "AcquireCommitGuardTimeout" commitGuardL skipValidation (AcquireCommitGuardTimeout c);
  inr (mkConfig keys buf poll commit drain await ingest slice query acquire shards pause guard).

(** ** Derived sizes *)

Definition CalcWorkerChannelsMapSize (c : DemuxConfig) : Z :=
  let count := 2 * Z.quot (ConcurrentKeys c) (WorkerShardsCount c) in
  if count <=? 64 then 128
  else if count <=? 128 then 256
  else if count <=? 256 then 512
  else if count <=? 512 then 1024
  else if count <=? 1024 then 2048
  else 4096.

(** [cmp.Or(a, b)]: the first non-zero value. *)
Definition cmpOr (a b : Z) : Z := if a =? 0 then b else a.

Definition CalcMinimumIdleWorkers (c : DemuxConfig) : Z :=
  let shardsCount := cmpOr (WorkerShardsCount c) (dflt workerShardsL) in
  let keys := cmpOr (ConcurrentKeys c) (dflt concurrentKeysL) in
  Z.quot (shardsCount + keys - 1) shardsCount.

(** [alloc.CalcWorkItemPoolSize] *)
Definition CalcWorkItemPoolSize (c : DemuxConfig) : Z :=
  let messagesInGapBuffers := ConcurrentKeys c * (50 + 25) in
  let messagesInPipeline := ConcurrentKeys c * PerKeyBufferLen c in
  let poolSize := messagesInPipeline + messagesInGapBuffers in
  if poolSize <? 5000 then 5000
  else if poolSize >? 100000 then 100000
  else poolSize.

(** [metrics.CalculateCollectBufferSize] *)
Definition CalculateCollectBufferSize (concurrentKeys perKeyBufferLength : Z) : Z :=
  let bufferSize := 5 * concurrentKeys * perKeyBufferLength in
  if bufferSize <? 20000 then 20000
  else if bufferSize >? 100000 then 100000
  else bufferSize.

(** ** Facts *)

Definition inLimits (l : Limits) (v : Z) : Prop := lo l <= v <= hi l.

(** The documented bounds of every field. *)
Record configOk (c : DemuxConfig) : Prop := {
  ok_keys : inLimits concurrentKeysL (ConcurrentKeys c);
  ok_buf : inLimits perKeyBufferLenL (PerKeyBufferLen c);
  ok_poll : inLimits pollTimeoutL (PollTimeout c);
  ok_commit : inLimits commitIntervalL (AutoCommitInterval c);
  ok_drain : inLimits drainTimeoutL (DrainTimeout c);
  ok_await : inLimits awaitAssignmentsL (AwaitAssignmentsTimeout c);
  ok_ingest : commitIngestChannelLenMin <= CommitIngestChannelLen c <= commitIngestChannelLenMax;
  ok_slice : inLimits commitPartitionSliceLenL (CommitPartitionSliceLen c);
  ok_query : inLimits queryTimeoutL (QueryTimeout c);
  ok_acquire : inLimits acquireWorkerL (AcquireWorkerTimeoutCircuitBreaker c);
  ok_shards : inLimits workerShardsL (WorkerShardsCount c);
  ok_pow2 : exists n, 1 <= n /\ WorkerShardsCount c = 2 ^ n;
  ok_pause : inLimits pausePollingL (RebalancePausePollingTimeout c);
  ok_guard : inLimits commitGuardL (AcquireCommitGuardTimeout c)
}.

(** The default is one of the accepted values. *)
Definition limitsOk (l : Limits) : Prop := 1 <= lo l /\ inLimits l (dflt l).

Lemma atMost_ok f l v r : limitsOk l -> atMost f l false v = inr r -> inLimits l r.
Proof.
  unfold limitsOk, inLimits, atMost. intros Hl. rewrite Z.gtb_ltb, andb_true_r. case_Z; intros [=]; lia.
Qed.

Lemma within_ok f l v r : limitsOk l -> within f l false v = inr r -> inLimits l r.
Proof.
  unfold limitsOk, inLimits, within. intros Hl. rewrite Z.gtb_ltb, !andb_true_r. case_Z; intros [=]; lia.
Qed.

(** A value within the limits is kept, whether or not validation is on. *)
Lemma atMost_id f l skip v : limitsOk l -> inLimits l v -> atMost f l skip v = inr v.
Proof.
  unfold limitsOk, inLimits, atMost. intros Hl Hv. rewrite Z.gtb_ltb. case_Z; try lia. done.
Qed.

Lemma within_id f l skip v : limitsOk l -> inLimits l v -> within f l skip v = inr v.
Proof.
  unfold limitsOk, inLimits, within. intros Hl Hv. rewrite Z.gtb_ltb. case_Z; try lia. done.
Qed.

Lemma onesCount_pos p : 1 <= onesCountPos p.
Proof. induction p; simpl; lia. Qed.

Lemma onesCount_pow2 p : onesCountPos p = 1 -> exists n, 0 <= n /\ Zpos p = 2 ^ n.
Proof.
  induction p as [p IH|p IH|]; simpl; intros H.
  - pose proof (onesCount_pos p). lia.
  - destruct (IH H) as (n & Hn & E). exists (Z.succ n). rewrite Z.pow_succ_r by lia. lia.
  - exists 0. lia.
Qed.

Lemma isPowerOfTwo_pow v : isPowerOfTwo v = true -> exists n, 1 <= n /\ v = 2 ^ n.
Proof.
  unfold isPowerOfTwo. rewrite Z.geb_leb, andb_true_iff, Z.leb_le, Z.eqb_eq. intros [H2 Hc].
  destruct v as [|p|p]; try lia. destruct (onesCount_pow2 p Hc) as (n & Hn & E). exists n.
  split; [|done]. destruct (decide (n = 0)) as [->|]; [lia|lia].
Qed.

Lemma shardsCount_ok v r :
  shardsCount false v = inr r -> inLimits workerShardsL r /\ exists n, 1 <= n /\ r = 2 ^ n.
Proof.
  unfold shardsCount, inLimits. rewrite Z.gtb_ltb, andb_true_r. destruct (Z.ltb_spec v 1).
  - intros [= <-]. simpl. split; [lia|]. exists 4. lia.
  - destruct (isPowerOfTwo v) eqn:E; simpl; [|done]. case_Z; intros [= <-].
    pose proof (isPowerOfTwo_pow v E) as (n & Hn & ->). split; [|by exists n]. simpl in *.
    split; [|lia]. change 2 with (2 ^ 1) at 1. apply Z.pow_le_mono_r; lia.
Qed.

Ltac bind_all :=
  repeat match goal with
  | H : bindE ?m _ = inr _ |- _ => let E := fresh "E" in destruct m eqn:E; simpl in H; [discriminate|]
  end.

Ltac limits :=
  unfold limitsOk, inLimits, millisecond, minute, second in *; cbn [lo hi dflt] in *; lia.

Lemma ingestLen_ok keys v r :
  inLimits concurrentKeysL keys -> ingestLen false keys v = inr r ->
  commitIngestChannelLenMin <= r <= commitIngestChannelLenMax.
Proof.
  intros Hk Hr. apply within_ok in Hr; [exact Hr|].
  unfold limitsOk, inLimits, calcCommitIngestChannelLen, concurrentKeysL in *. cbn [lo hi dflt] in *.
  rewrite Z.gtb_ltb. unfold commitIngestChannelLenMin, commitIngestChannelLenMax,
    commitIngestChannelLenCalcMin, commitIngestChannelLenCalcMax. case_Z; lia.
Qed.

Ltac field_ok :=
  repeat match goal with
  | H : atMost _ ?l false _ = inr _ |- _ => apply atMost_ok in H; [|unfold l; limits]
  | H : ingestLen false _ _ = inr _ |- _ => apply ingestLen_ok in H; [|assumption]
  | H : within _ ?l false _ = inr _ |- _ => apply within_ok in H; [|unfold l; limits]
  | H : shardsCount false _ = inr _ |- _ => apply shardsCount_ok in H; destruct H as [Hshards Hpow]
  end.

Lemma defaults_configOk c c' : SetDemuxConfigDefaults false c = inr c' -> configOk c'.
Proof.
  unfold SetDemuxConfigDefaults. intros H. bind_all. injection H as <-. field_ok.
  exact (Build_configOk (mkConfig z z0 z1 z2 z4 z5 z6 z7 z3 z8 z9 z10 z11) E E0 E1 E2 E4 E5 E6 E7 E3 E8 Hshards Hpow E10 E11).
Qed.

Lemma pow2_isPowerOfTwo n : 1 <= n -> isPowerOfTwo (2 ^ n) = true.
Proof.
  intros Hn. unfold isPowerOfTwo. rewrite Z.geb_leb, andb_true_iff, Z.leb_le, Z.eqb_eq. split.
  - change 2 with (2 ^ 1) at 1. apply Z.pow_le_mono_r; lia.
  - replace n with (Z.of_nat (Z.to_nat n)) by lia. induction (Z.to_nat n) as [|m IH]; [done|].
    rewrite Nat2Z.inj_succ, Z.pow_succ_r by lia. by destruct (2 ^ Z.of_nat m).
Qed.

(** A configuration within the bounds is a fixed point, with or without
    validation. *)
Lemma defaults_id skip c : configOk c -> SetDemuxConfigDefaults skip c = inr c.
Proof.
  intros [? ? ? ? ? ? Hing ? ? ? Hsh (n & Hn & Hpow) ? ?]. unfold SetDemuxConfigDefaults.
  rewrite !atMost_id by (try assumption; unfold concurrentKeysL, perKeyBufferLenL; limits). cbn [bindE].
  assert (Hi : ingestLen skip (ConcurrentKeys c) (CommitIngestChannelLen c) = inr (CommitIngestChannelLen c)).
  { unfold ingestLen, within. cbn [lo hi dflt]. unfold commitIngestChannelLenMin, commitIngestChannelLenMax in *.
    rewrite Z.gtb_ltb. case_Z; try lia. done. }
  assert (Hs : shardsCount skip (WorkerShardsCount c) = inr (WorkerShardsCount c)).
  { unfold shardsCount, inLimits, workerShardsL in *. cbn [lo hi dflt] in *. rewrite Z.gtb_ltb.
    case_Z; try lia. rewrite Hpow, pow2_isPowerOfTwo by done. by destruct skip. }
  rewrite !within_id by (try assumption; unfold pollTimeoutL, commitIntervalL, queryTimeoutL, drainTimeoutL,
    awaitAssignmentsL, commitPartitionSliceLenL, acquireWorkerL, pausePollingL, commitGuardL; limits).
  rewrite Hi, Hs. by destruct c.
Qed.

(** What one field's check returns, it returns again. *)
Lemma atMost_again f l skip v r : limitsOk l -> atMost f l skip v = inr r -> atMost f l skip r = inr r.
Proof.
  unfold limitsOk, inLimits, atMost. intros Hl. rewrite !Z.gtb_ltb. destruct skip; cbn [negb];
    rewrite ?andb_false_r, ?andb_true_r; case_Z; intros [=]; subst; case_Z; try lia; done.
Qed.

Lemma within_again f l skip v r : limitsOk l -> within f l skip v = inr r -> within f l skip r = inr r.
Proof.
  unfold limitsOk, inLimits, within. intros Hl. rewrite !Z.gtb_ltb. destruct skip; cbn [negb];
    rewrite ?andb_false_r, ?andb_true_r; case_Z; intros [=]; subst; case_Z; try lia; done.
Qed.

Lemma shardsCount_again skip v r : shardsCount skip v = inr r -> shardsCount skip r = inr r.
Proof.
  unfold shardsCount. destruct (Z.ltb_spec v 1); [intros [= <-]; reflexivity|].
  destruct (isPowerOfTwo v) eqn:E; cbn [negb]; [|done]. destruct (_ && _) eqn:E2; [done|]. intros [= <-].
  destruct (Z.ltb_spec v 1); [lia|]. by rewrite E, E2.
Qed.

Lemma ingestLen_again skip keys v r : ingestLen skip keys v = inr r -> ingestLen skip keys r = inr r.
Proof.
  apply within_again. unfold limitsOk, inLimits, calcCommitIngestChannelLen. cbn [lo hi dflt].
  unfold commitIngestChannelLenMin, commitIngestChannelLenMax, commitIngestChannelLenCalcMin,
    commitIngestChannelLenCalcMax. rewrite Z.gtb_ltb. case_Z; lia.
Qed.

(** Validation is idempotent, with or without the checks. *)
Lemma defaults_again skip c c' : SetDemuxConfigDefaults skip c = inr c' -> SetDemuxConfigDefaults skip c' = inr c'.
Proof.
  unfold SetDemuxConfigDefaults. intros H. bind_all. injection H as <-. cbn [bindE ConcurrentKeys PerKeyBufferLen
    PollTimeout AutoCommitInterval DrainTimeout AwaitAssignmentsTimeout CommitIngestChannelLen
    CommitPartitionSliceLen QueryTimeout AcquireWorkerTimeoutCircuitBreaker WorkerShardsCount
    RebalancePausePollingTimeout AcquireCommitGuardTimeout].
  repeat match goal with
  | H : atMost _ ?l skip _ = inr _ |- _ => apply atMost_again in H; [rewrite H; clear H; cbn [bindE]|unfold l; limits]
  | H : ingestLen skip _ _ = inr _ |- _ => apply ingestLen_again in H; rewrite H; clear H; cbn [bindE]
  | H : shardsCount skip _ = inr _ |- _ => apply shardsCount_again in H; rewrite H; clear H; cbn [bindE]
  | H : within _ ?l skip _ = inr _ |- _ => apply within_again in H; [rewrite H; clear H; cbn [bindE]|unfold l; limits]
  end.
  done.
Qed.

(** Even unchecked, there is a key and a shard. *)
Lemma defaults_positive skip c c' :
  SetDemuxConfigDefaults skip c = inr c' -> 1 <= ConcurrentKeys c' /\ 1 <= WorkerShardsCount c'.
Proof.
  unfold SetDemuxConfigDefaults. intros H. bind_all. injection H as <-. cbn [ConcurrentKeys WorkerShardsCount].
  match goal with H : atMost "ConcurrentKeys" _ _ _ = _ |- _ => rename H into Hk end.
  match goal with H : shardsCount _ _ = _ |- _ => rename H into Hs end. split.
  - revert Hk. unfold atMost. case_Z; simpl in *; repeat case_match; intros [= <-]; lia.
  - revert Hs. unfold shardsCount. case_Z; repeat case_match; intros [= <-]; simpl; lia.
Qed.

(** A shard never warms more workers than there are keys. *)
Lemma CalcMinimumIdleWorkers_le c :
  1 <= ConcurrentKeys c -> 1 <= WorkerShardsCount c -> 0 <= CalcMinimumIdleWorkers c <= ConcurrentKeys c.
Proof.
  intros Hk Hs. unfold CalcMinimumIdleWorkers, cmpOr. case_Z; try lia.
  rewrite Z.quot_div_nonneg by lia. split; [apply Z.div_pos; lia|].
  apply Z.div_le_upper_bound; [lia|]. nia.
Qed.

Lemma CalcMinimumIdleWorkers_ceil c :
  configOk c ->
  let n := CalcMinimumIdleWorkers c in
  (n - 1) * WorkerShardsCount c < ConcurrentKeys c <= n * WorkerShardsCount c.
Proof.
  intros Hc n. destruct Hc as [Hk _ _ _ _ _ _ _ _ _ Hs _ _ _].
  unfold inLimits, concurrentKeysL, workerShardsL in *. cbn [lo hi] in *.
  unfold n, CalcMinimumIdleWorkers, cmpOr. case_Z; try lia.
  set (s := WorkerShardsCount c) in *. set (k := ConcurrentKeys c) in *.
  rewrite Z.quot_div_nonneg by lia.
  pose proof (Z.div_mod (s + k - 1) s ltac:(lia)). pose proof (Z.mod_pos_bound (s + k - 1) s ltac:(lia)). nia.
Qed.

(** ** Properties *)

(** C27: validation is sound and stable.  An accepted configuration has every
    field within its documented bounds, validating it again changes nothing, and
    the warmed workers of all shards together cover the concurrent keys without a
    spare worker per shard. *)
Theorem config_validated c c' :
  SetDemuxConfigDefaults false c = inr c' ->
  configOk c' /\ (forall skip, SetDemuxConfigDefaults skip c' = inr c') /\
  (CalcMinimumIdleWorkers c' - 1) * WorkerShardsCount c' < ConcurrentKeys c'
    <= CalcMinimumIdleWorkers c' * WorkerShardsCount c'.
Proof.
  intros H%defaults_configOk. split_and!; [done | intros; by apply defaults_id | |];
    by apply CalcMinimumIdleWorkers_ceil.
Qed.

Definition smallConfig : DemuxConfig := mkConfig 40 0 0 0 0 0 0 0 0 0 8 0 0.
Definition smallChecked : DemuxConfig :=
  match SetDemuxConfigDefaults false smallConfig with inr c => c | inl _ => smallConfig end.

Lemma config_validated_witness : ConcurrentKeys smallChecked = 40 /\ configOk smallChecked.
Proof.
  split; [reflexivity|].
  exact (proj1 (config_validated smallConfig smallChecked eq_refl)).
Defined.
