(* ===== verification/ConfigJson.v ===== *)
(** * Loading the configuration from JSON ([DemuxConfig.UnmarshalJSON])

    A document is the tree that [encoding/json] scans from the text; [None] is a
    text its scanner refuses.  [json.Unmarshal] walks the members of an object in
    order: a member whose key names a field (exactly, or up to case) is stored,
    [null] is skipped, a value of the wrong type is recorded as an error and the walk
    goes on; the first error is returned at the end.  The durations are read into the
    strings of a local struct and parsed afterwards, one field at a time. *)
From S2P Require Import Prelude GoBytes Duration Config.
From Stdlib Require Import String.
From stdpp Require Import base option list.
Open Scope Z_scope.

Inductive json :=
| JNull
| JBool (b : bool)
| JNumber (literal : bytes)
| JString (s : bytes)
| JArray (l : list json)
| JObject (members : list (bytes * json)).

(** ** The fields *)

Inductive IntField :=
| FConcurrentKeys | FPerKeyBufferLen | FCommitIngestChannelLen | FCommitPartitionSliceLen
| FWorkerShardsCount.

Inductive DurField :=
| FPollTimeout | FAutoCommitInterval | FQueryTimeout | FDrainTimeout | FAwaitAssignmentsTimeout
| FAcquireWorkerTimeoutCircuitBreaker | FRebalancePausePollingTimeout | FAcquireCommitGuardTimeout.

#[global] Instance IntField_eq : EqDecision IntField.
Proof. solve_decision. Defined.
#[global] Instance DurField_eq : EqDecision DurField.
Proof. solve_decision. Defined.

Definition intFields : list IntField :=
  [FConcurrentKeys; FPerKeyBufferLen; FCommitIngestChannelLen; FCommitPartitionSliceLen; FWorkerShardsCount].

(** In the order in which [UnmarshalJSON] parses them. *)
Definition durFields : list DurField :=
  [FPollTimeout; FAutoCommitInterval; FQueryTimeout; FDrainTimeout; FAwaitAssignmentsTimeout;
   FAcquireWorkerTimeoutCircuitBreaker; FRebalancePausePollingTimeout; FAcquireCommitGuardTimeout].

(** The [json] tags. *)
Definition intTag (f : IntField) : bytes :=
  lit match f with
      | FConcurrentKeys => "concurrentKeys"
      | FPerKeyBufferLen => "perKeyBufferLen"
      | FCommitIngestChannelLen => "commitIngestChannelLen"
      | FCommitPartitionSliceLen => "commitPartitionSliceLen"
      | FWorkerShardsCount => "workerShardsCount"
      end.

Definition durTag (f : DurField) : bytes :=
  lit match f with
      | FPollTimeout => "pollTimeout"
      | FAutoCommitInterval => "autoCommitInterval"
      | FQueryTimeout => "queryTimeout"
      | FDrainTimeout => "drainTimeout"
      | FAwaitAssignmentsTimeout => "awaitAssignmentsTimeout"
      | FAcquireWorkerTimeoutCircuitBreaker => "acquireWorkerTimeoutCircuitBreaker"
      | FRebalancePausePollingTimeout => "rebalancePausePollingTimeout"
      | FAcquireCommitGuardTimeout => "acquireCommitGuardTimeout"
      end.

Definition getInt (f : IntField) (c : DemuxConfig) : Z :=
  match f with
  | FConcurrentKeys => ConcurrentKeys c
  | FPerKeyBufferLen => PerKeyBufferLen c
  | FCommitIngestChannelLen => CommitIngestChannelLen c
  | FCommitPartitionSliceLen => CommitPartitionSliceLen c
  | FWorkerShardsCount => WorkerShardsCount c
  end.

Definition getDur (f : DurField) (c : DemuxConfig) : Z :=
  match f with
  | FPollTimeout => PollTimeout c
  | FAutoCommitInterval => AutoCommitInterval c
  | FQueryTimeout => QueryTimeout c
  | FDrainTimeout => DrainTimeout c
  | FAwaitAssignmentsTimeout => AwaitAssignmentsTimeout c
  | FAcquireWorkerTimeoutCircuitBreaker => AcquireWorkerTimeoutCircuitBreaker c
  | FRebalancePausePollingTimeout => RebalancePausePollingTimeout c
  | FAcquireCommitGuardTimeout => AcquireCommitGuardTimeout c
  end.

(** The configuration with the given fields. *)
Definition ofFields (i : IntField -> Z) (d : DurField -> Z) : DemuxConfig :=
  mkConfig (i FConcurrentKeys) (i FPerKeyBufferLen) (d FPollTimeout) (d FAutoCommitInterval)
    (d FDrainTimeout) (d FAwaitAssignmentsTimeout) (i FCommitIngestChannelLen)
    (i FCommitPartitionSliceLen) (d FQueryTimeout) (d FAcquireWorkerTimeoutCircuitBreaker)
    (i FWorkerShardsCount) (d FRebalancePausePollingTimeout) (d FAcquireCommitGuardTimeout).

Definition upd {F A} `{EqDecision F} (f : F) (v : A) (g : F -> A) : F -> A :=
  fun x => if decide (x = f) then v else g x.

Definition setInt (f : IntField) (v : Z) (c : DemuxConfig) : DemuxConfig :=
  ofFields (upd f v (fun x => getInt x c)) (fun x => getDur x c).
Definition setDur (f : DurField) (v : Z) (c : DemuxConfig) : DemuxConfig :=
  ofFields (fun x => getInt x c) (upd f v (fun x => getDur x c)).

(** ** Field names *)

(** [foldName]: ASCII letters in upper case, and the two other runes that fold to an
    ASCII letter: U+017F to S and U+212A to K.  The other runes fold among
    themselves and match no field. *)
Fixpoint foldName (s : bytes) : bytes :=
  match s with
  | [] => []
  | 197 :: 191 :: s' => 83 :: foldName s'
  | 226 :: 132 :: 170 :: s' => 75 :: foldName s'
  | c :: s' => (if (97 <=? c) && (c <=? 122) then c - 32 else c) :: foldName s'
  end.

Definition Field := (IntField + DurField)%type.

Definition tag (f : Field) : bytes := match f with inl f => intTag f | inr f => durTag f end.
Definition fields : list Field := map inl intFields ++ map inr durFields.

(** The field a key addresses: by its exact name, else up to case. *)
Definition fieldNamed (key : bytes) : option Field :=
  match find (fun f => bytesEqb key (tag f)) fields with
  | Some f => Some f
  | None => find (fun f => bytesEqb (foldName key) (foldName (tag f))) fields
  end.

(** [strings.EqualFold(os.Getenv(SkipValidationEnvVar), "true")]: no rune outside
    ASCII folds to a letter of "true". *)
Definition isValidationSkipped (env : bytes) : bool := bytesEqb (foldName env) (lit "TRUE").

(** ** Decoding *)

(** The struct [json.Unmarshal] fills: the configuration behind the embedded
    pointer, the strings that shadow its durations, and the first error. *)
Record Decoding := mkDecoding {
  target : DemuxConfig;
  alias : DurField -> bytes;
  saved : option Field
}.

Definition saveError (f : Field) (d : Decoding) : Decoding :=
  mkDecoding (target d) (alias d) (match saved d with Some e => Some e | None => Some f end).

Definition decodeMember (d : Decoding) (member : bytes * json) : Decoding :=
  match fieldNamed member.1 with
  | None => d
  | Some (inl f) =>
      match member.2 with
      | JNull => d
      | JNumber n =>
          match ParseInt n with
          | inr v => mkDecoding (setInt f v (target d)) (alias d) (saved d)
          | inl _ => saveError (inl f) d
          end
      | _ => saveError (inl f) d
      end
  | Some (inr f) =>
      match member.2 with
      | JNull => d
      | JString s => mkDecoding (target d) (upd f s (alias d)) (saved d)
      | _ => saveError (inr f) d
      end
  end.

Inductive UnmarshalError :=
| SyntaxError                                (* the text is not JSON *)
| NotAnObject
| UnmarshalTypeError (f : Field)
| BadDuration (f : DurField) (text : bytes) (e : DurationError).

(** The checks after [json.Unmarshal]: [c.F, err = time.ParseDuration(alias.F)]
    stores the zero it returns with an error. *)
Fixpoint parseDurations (fs : list DurField) (text : DurField -> bytes) (c : DemuxConfig)
    : DemuxConfig * option UnmarshalError :=
  match fs with
  | [] => (c, None)
  | f :: fs' =>
      match text f with
      | [] => parseDurations fs' text c
      | s =>
          match ParseDuration s with
          | inr d => parseDurations fs' text (setDur f d c)
          | inl e => (setDur f 0 c, Some (BadDuration f s e))
          end
      end
  end.

(** [null] makes the pointer to the local struct nil, and the next statement
    dereferences it. *)
Definition UnmarshalJSON (data : option json) (c : DemuxConfig)
    : Outcome (DemuxConfig * option UnmarshalError) :=
  match data with
  | None => Returns (c, Some SyntaxError)
  | Some JNull => Panics
  | Some (JObject members) =>
      let d := foldl decodeMember (mkDecoding c (fun _ => []) None) members in
      match saved d with
      | Some f => Returns (target d, Some (UnmarshalTypeError f))
      | None => Returns (parseDurations durFields (alias d) (target d))
      end
  | Some _ => Returns (c, Some NotAnObject)
  end.

(** ** What a document says of each field *)

(** The value a member gives to a field, when it has the right type. *)
Definition intValue (f : IntField) (member : bytes * json) : option Z :=
  match fieldNamed member.1, member.2 with
  | Some (inl g), JNumber n =>
      if decide (f = g) then match ParseInt n with inr v => Some v | inl _ => None end else None
  | _, _ => None
  end.

Definition textValue (f : DurField) (member : bytes * json) : option bytes :=
  match fieldNamed member.1, member.2 with
  | Some (inr g), JString s => if decide (f = g) then Some s else None
  | _, _ => None
  end.

(** The field whose member has the wrong type. *)
Definition mistyped (member : bytes * json) : option Field :=
  match fieldNamed member.1, member.2 with
  | None, _ | _, JNull => None
  | Some (inl f), JNumber n => match ParseInt n with inr _ => None | inl _ => Some (inl f) end
  | Some (inr _), JString _ => None
  | Some f, _ => Some f
  end.

(** The last value counts. *)
Definition intRead (ms : list (bytes * json)) (old : IntField -> Z) (f : IntField) : Z :=
  default (old f) (last (omap (intValue f) ms)).
Definition textRead (ms : list (bytes * json)) (f : DurField) : bytes :=
  default [] (last (omap (textValue f) ms)).

Definition badText (text : DurField -> bytes) (f : DurField) : option UnmarshalError :=
  match text f with
  | [] => None
  | s => match ParseDuration s with inr _ => None | inl e => Some (BadDuration f s e) end
  end.

(** A duration after the checks: parsed when every field up to it parses, zero when
    it is the first that does not, and as it was otherwise. *)
Fixpoint durRead (fs : list DurField) (text : DurField -> bytes) (old : DurField -> Z) (f : DurField) : Z :=
  match fs with
  | [] => old f
  | g :: fs' =>
      match badText text g with
      | Some _ => if decide (f = g) then 0 else old f
      | None =>
          if decide (f = g) then
            match text f with
            | [] => old f
            | s => match ParseDuration s with inr d => d | inl _ => 0 end
            end
          else durRead fs' text old f
      end
  end.

(** The configuration a document yields, field by field. *)
Definition readConfig (data : option json) (c : DemuxConfig)
    : Outcome (DemuxConfig * option UnmarshalError) :=
  match data with
  | None => Returns (c, Some SyntaxError)
  | Some JNull => Panics
  | Some (JObject ms) =>
      let ints := intRead ms (fun f => getInt f c) in
      match head (omap mistyped ms) with
      | Some f => Returns (ofFields ints (fun f => getDur f c), Some (UnmarshalTypeError f))
      | None =>
          Returns (ofFields ints (durRead durFields (textRead ms) (fun f => getDur f c)),
                   head (omap (badText (textRead ms)) durFields))
      end
  | Some _ => Returns (c, Some NotAnObject)
  end.

(** ** Lemmas *)

Lemma getInt_ofFields f i d : getInt f (ofFields i d) = i f.
Proof. by destruct f. Qed.
Lemma getDur_ofFields f i d : getDur f (ofFields i d) = d f.
Proof. by destruct f. Qed.

(** Case analysis on members, field by field. *)
Ltac by_cases :=
  repeat (unfold setInt, setDur, saveError, upd in *; cbn [target alias saved] in *;
          rewrite ?getInt_ofFields, ?getDur_ofFields in *; first [done | case_match]; simplify_eq/=); try done.

Lemma ofFields_ext i i' d d' : (forall f, i f = i' f) -> (forall f, d f = d' f) -> ofFields i d = ofFields i' d'.
Proof. intros Hi Hd. unfold ofFields. by rewrite !Hi, !Hd. Qed.

Lemma ofFields_get c : ofFields (fun f => getInt f c) (fun f => getDur f c) = c.
Proof. by destruct c. Qed.

Lemma config_fields c i d :
  (forall f, getInt f c = i f) -> (forall f, getDur f c = d f) -> c = ofFields i d.
Proof. intros Hi Hd. rewrite <- (ofFields_get c). by apply ofFields_ext. Qed.

Lemma upd_same {F A} `{EqDecision F} (f : F) (v : A) g : upd f v g f = v.
Proof. unfold upd. by rewrite decide_True. Qed.

Lemma last_omap_snoc {A B} (h : A -> option B) ms m old :
  default old (last (omap h (ms ++ [m]))) = default (default old (last (omap h ms))) (h m).
Proof.
  rewrite omap_app. destruct (h m) as [v|] eqn:E; simpl; rewrite E; simpl.
  - by rewrite last_snoc.
  - by rewrite app_nil_r.
Qed.

Lemma head_omap_snoc {A B} (h : A -> option B) ms m :
  head (omap h (ms ++ [m])) = match head (omap h ms) with Some e => Some e | None => h m end.
Proof. rewrite omap_app. destruct (omap h ms); [|done]. simpl. by destruct (h m). Qed.

(** The walk over the members computes the reading of every field. *)
Lemma decode_reads c ms :
  let d := foldl decodeMember (mkDecoding c (fun _ => []) None) ms in
  (forall f, getInt f (target d) = intRead ms (fun f => getInt f c) f) /\
  (forall f, getDur f (target d) = getDur f c) /\
  (forall f, alias d f = textRead ms f) /\
  saved d = head (omap mistyped ms).
Proof.
  induction ms as [|m ms IH] using rev_ind; [done|]. cbv zeta in *. rewrite foldl_app. cbn [foldl].
  set (d := foldl _ _ ms) in *. destruct IH as (Hi & Hd & Ht & Hs).
  unfold intRead, textRead in *. rewrite head_omap_snoc, <- Hs. unfold decodeMember.
  split_and!; intros; try rewrite last_omap_snoc, <- ?Hi, <- ?Ht; unfold intValue, textValue, mistyped;
    by_cases.
Qed.

Lemma durRead_skip fs text old f : f ∉ fs -> durRead fs text old f = old f.
Proof.
  induction fs as [|g fs IH]; [done|]. rewrite not_elem_of_cons. intros [Hfg Hf]. simpl.
  rewrite !(decide_False (P := f = g)) by done. destruct (badText text g); auto.
Qed.

Lemma durRead_ext fs text old old' f : old f = old' f -> durRead fs text old f = durRead fs text old' f.
Proof. intros E. induction fs as [|g fs IH]; simpl; by_cases. Qed.

Lemma parseDurations_reads fs text c :
  NoDup fs ->
  parseDurations fs text c =
    (ofFields (fun f => getInt f c) (durRead fs text (fun f => getDur f c)), head (omap (badText text) fs)).
Proof.
  intros Hnd. revert c. induction Hnd as [|g fs Hg Hnd IH]; intros c.
  { simpl. by rewrite ofFields_get. }
  cbn [parseDurations omap list_omap durRead]. unfold badText at 1 2. destruct (text g) as [|b s] eqn:Et.
  - rewrite IH. f_equal. apply ofFields_ext; [done|]. intros f. destruct (decide (f = g)) as [-> | Hfg]; [|done].
    rewrite durRead_skip, Et by done. done.
  - destruct (ParseDuration (b :: s)) as [e|v] eqn:Ep.
    + by cbn [head].
    + rewrite IH. f_equal. apply ofFields_ext; intros f; unfold setDur; rewrite ?getInt_ofFields; [done|].
      destruct (decide (f = g)) as [-> | Hfg].
      * rewrite durRead_skip, getDur_ofFields, upd_same, Et, Ep by done. done.
      * apply durRead_ext. rewrite getDur_ofFields. unfold upd. by rewrite decide_False.
Qed.

Lemma parseDurations_text fs text text' c :
  (forall f, text f = text' f) -> parseDurations fs text c = parseDurations fs text' c.
Proof. intros E. revert c. induction fs as [|g fs IH]; intros c; simpl; [done|]. rewrite E. by_cases. Qed.

Lemma durFields_nodup : NoDup durFields.
Proof. by apply (bool_decide_unpack (NoDup durFields)). Qed.

Lemma unmarshal_object ms c : UnmarshalJSON (Some (JObject ms)) c = readConfig (Some (JObject ms)) c.
Proof.
  unfold UnmarshalJSON, readConfig. cbv zeta.
  pose proof (decode_reads c ms) as Hd. cbv zeta in Hd. destruct (foldl _ _ ms) as [t a s].
  cbn [target alias saved] in *. destruct Hd as (Hi & Hdur & Ht & ->).
  destruct (head (omap mistyped ms)) as [e|].
  - do 2 f_equal. by apply config_fields.
  - rewrite (parseDurations_text _ _ _ t Ht), parseDurations_reads by apply durFields_nodup.
    do 2 f_equal. apply ofFields_ext; [done|]. intros f. by apply durRead_ext.
Qed.

(** ** Round trip *)

(** A configuration as a document: the keys as [name] spells them, the durations as
    whole nanoseconds. *)
Definition document (name : Field -> bytes) (c : DemuxConfig) : list (bytes * json) :=
  map (fun f => (name (inl f), JNumber (FormatInt (getInt f c)))) intFields ++
  map (fun f => (name (inr f), JString (FormatInt (getDur f c) ++ lit "ns"))) durFields.

Lemma intFields_all f : f ∈ intFields.
Proof. by destruct f; apply (bool_decide_unpack (_ ∈ intFields)). Qed.
Lemma durFields_all f : f ∈ durFields.
Proof. by destruct f; apply (bool_decide_unpack (_ ∈ durFields)). Qed.

Lemma omap_none {A B} (h : A -> option B) (l : list A) : (forall x, x ∈ l -> h x = None) -> omap h l = [].
Proof.
  induction l as [|x l IH]; intros H; [done|]. simpl. rewrite H by (by left). apply IH. intros y Hy. apply H. by right.
Qed.

Lemma omap_map {A B C} (h : B -> option C) (g : A -> B) (l : list A) : omap h (map g l) = omap (fun x => h (g x)) l.
Proof. induction l as [|x l IH]; [done|]. simpl. destruct (h (g x)); [f_equal|]; exact IH. Qed.

Lemma omap_ext_all {A B} (h h' : A -> option B) (l : list A) : (forall x, h x = h' x) -> omap h l = omap h' l.
Proof. intros E. induction l as [|x l IH]; [done|]. simpl. rewrite E. destruct (h' x); [f_equal|]; exact IH. Qed.

(** The only element of a duplicate-free list that is selected. *)
Lemma omap_pick {A B} `{EqDecision A} (x : A) (v : B) (l : list A) :
  NoDup l -> x ∈ l -> omap (fun y => if decide (x = y) then Some v else None) l = [v].
Proof.
  induction 1 as [|y l Hy Hnd IH]; [by intros ?%elem_of_nil|]. simpl.
  destruct (decide (x = y)) as [-> | Hxy].
  - intros _. f_equal. apply omap_none. intros z Hz. by rewrite decide_False by (by intros ->).
  - intros [?|?]%elem_of_cons; [done|]. by apply IH.
Qed.

Lemma omap_perm {A B} (h : A -> option B) (l l' : list A) : l ≡ₚ l' -> omap h l ≡ₚ omap h l'.
Proof. by intros ->. Qed.

Section RoundTrip.
Variables (name : Field -> bytes) (c : DemuxConfig) (extra doc : list (bytes * json)).
Hypothesis Hname : forall f, fieldNamed (name f) = Some f.
Hypothesis Hints : forall f, in_int64 (getInt f c).
Hypothesis Hdurs : forall f, in_int64 (getDur f c).
Hypothesis Hextra : forall m, m ∈ extra -> fieldNamed m.1 = None.
Hypothesis Hdoc : doc ≡ₚ document name c ++ extra.

Lemma doc_ints f : omap (intValue f) doc = [getInt f c].
Proof.
  apply Permutation_singleton_r. rewrite (omap_perm _ _ _ Hdoc). unfold document.
  rewrite !omap_app, !omap_map. rewrite (omap_none _ extra)
    by (intros m Hm; unfold intValue; by rewrite (Hextra m Hm)).
  rewrite (omap_none _ durFields) by (intros g _; unfold intValue; simpl; by rewrite Hname).
  rewrite !app_nil_r. erewrite omap_ext_all; [by rewrite (omap_pick f (getInt f c)) by
    (apply intFields_all || by apply (bool_decide_unpack (NoDup intFields)))|].
  intros g. unfold intValue. simpl. rewrite Hname, int_roundtrip by auto. by_cases.
Qed.

Lemma doc_texts f : omap (textValue f) doc = [FormatInt (getDur f c) ++ lit "ns"].
Proof.
  apply Permutation_singleton_r. rewrite (omap_perm _ _ _ Hdoc). unfold document.
  rewrite !omap_app, !omap_map. rewrite (omap_none _ extra)
    by (intros m Hm; unfold textValue; by rewrite (Hextra m Hm)).
  rewrite (omap_none _ intFields) by (intros g _; unfold textValue; simpl; by rewrite Hname).
  rewrite app_nil_r. cbn [app]. erewrite omap_ext_all; [by rewrite (omap_pick f) by
    (apply durFields_all || apply durFields_nodup)|].
  intros g. unfold textValue. simpl. rewrite Hname. by_cases.
Qed.

Lemma doc_typed : omap mistyped doc = [].
Proof.
  apply Permutation_nil. rewrite (omap_perm _ _ _ Hdoc). unfold document.
  rewrite !omap_app, !omap_map. rewrite (omap_none _ extra)
    by (intros m Hm; unfold mistyped; by rewrite (Hextra m Hm)).
  rewrite !omap_none; [done | |]; intros g _; unfold mistyped; simpl; rewrite Hname; [done|].
  by rewrite int_roundtrip by auto.
Qed.

Lemma doc_durations f :
  textRead doc f = FormatInt (getDur f c) ++ lit "ns" /\ badText (textRead doc) f = None.
Proof.
  assert (E : textRead doc f = FormatInt (getDur f c) ++ lit "ns") by (unfold textRead; by rewrite doc_texts).
  split; [done|]. unfold badText. rewrite E. pose proof (duration_ns _ (Hdurs f)) as Hp.
  destruct (FormatInt _ ++ _); [done|]. by rewrite Hp.
Qed.

Lemma durRead_doc fs old f : f ∈ fs -> durRead fs (textRead doc) old f = getDur f c.
Proof.
  induction fs as [|g fs IH]; [by intros ?%elem_of_nil|]. intros Hf. cbn [durRead].
  rewrite (proj2 (doc_durations g)). destruct (decide (f = g)) as [-> | Hfg].
  - rewrite (proj1 (doc_durations g)). pose proof (duration_ns _ (Hdurs g)) as Hp.
    destruct (FormatInt _ ++ _); [done|]. by rewrite Hp.
  - apply IH. by apply elem_of_cons in Hf as [?|?].
Qed.
End RoundTrip.

Lemma readConfig_doc name c extra doc c0 :
  (forall f, fieldNamed (name f) = Some f) -> (forall f, in_int64 (getInt f c)) ->
  (forall f, in_int64 (getDur f c)) -> (forall m, m ∈ extra -> fieldNamed m.1 = None) ->
  doc ≡ₚ document name c ++ extra -> readConfig (Some (JObject doc)) c0 = Returns (c, None).
Proof.
  intros Hn Hi Hd He Hdoc. unfold readConfig. cbv zeta.
  rewrite (doc_typed name c extra doc) by done. cbn [head]. do 2 f_equal.
  - symmetry. apply config_fields; intros f.
    + unfold intRead. by rewrite (doc_ints name c extra doc).
    + by rewrite (durRead_doc name c extra doc) by (done || apply durFields_all).
  - rewrite omap_none; [done|]. intros f _. by apply (doc_durations name c extra doc).
Qed.

(** ** Properties *)

(** C29: [UnmarshalJSON] reads each field independently.  For every document and
    every configuration it starts from, the imperative walk gives the configuration
    and the error of the field-by-field reading: an integer is the last number its
    key (up to case) has in the document, and keeps its value when there is none;
    members of the wrong type are skipped and the first of them is the error; when
    there is none, the non-empty duration strings are parsed in the order of the
    source up to the first that is malformed, which is the error and leaves zero. *)
Theorem unmarshal_reads data c : UnmarshalJSON data c = readConfig data c.
Proof.
  destruct data as [[| | | | |ms]|]; try done. apply unmarshal_object.
Qed.

(** C28: round trip.  A configuration written as a JSON object, one member per field
    in any order, its keys in any spelling the decoder accepts, among members that
    name no field, is loaded back exactly, whatever the receiver held before; and
    when it was the result of validation, validating what was loaded accepts it
    unchanged. *)
Theorem config_roundtrip name c extra doc c0 :
  (forall f, fieldNamed (name f) = Some f) ->
  (forall f, in_int64 (getInt f c)) -> (forall f, in_int64 (getDur f c)) ->
  (forall m, m ∈ extra -> fieldNamed m.1 = None) ->
  doc ≡ₚ document name c ++ extra ->
  UnmarshalJSON (Some (JObject doc)) c0 = Returns (c, None) /\
  (forall raw, SetDemuxConfigDefaults false raw = inr c ->
   forall c1 err skip, UnmarshalJSON (Some (JObject doc)) c0 = Returns (c1, err) ->
   SetDemuxConfigDefaults skip c1 = inr c).
Proof.
  intros Hn Hi Hd He Hdoc.
  assert (E : UnmarshalJSON (Some (JObject doc)) c0 = Returns (c, None)).
  { rewrite unmarshal_object. by apply (readConfig_doc name c extra). }
  split; [done|]. intros raw Hraw c1 err skip. rewrite E. intros [= <- <-].
  by apply defaults_id, (defaults_configOk raw).
Qed.

(** Loading [null] panics. *)
Lemma unmarshal_null_panics c : UnmarshalJSON (Some JNull) c = Panics.
Proof. reflexivity. Qed.

(** The document of the package's test. *)
Definition exampleJSON : list (bytes * json) :=
  [(lit "concurrentKeys", JNumber (lit "300")); (lit "perKeyBufferLen", JNumber (lit "12"));
   (lit "pollTimeout", JString (lit "110ms")); (lit "autoCommitInterval", JString (lit "6s"));
   (lit "drainTimeout", JString (lit "16s")); (lit "awaitAssignmentsTimeout", JString (lit "31s"));
   (lit "commitIngestChannelLen", JNumber (lit "20001")); (lit "commitPartitionSliceLen", JNumber (lit "700"));
   (lit "queryTimeout", JString (lit "6s")); (lit "acquireWorkerTimeoutCircuitBreaker", JString (lit "1m"));
   (lit "workerShardsCount", JNumber (lit "64")); (lit "rebalancePausePollingTimeout", JString (lit "46s"));
   (lit "acquireCommitGuardTimeout", JString (lit "11s"))].

Definition exampleConfig : DemuxConfig :=
  mkConfig 300 12 (110 * millisecond) (6 * second) (16 * second) (31 * second) 20001 700 (6 * second)
    minute 64 (46 * second) (11 * second).

Example example_loads : UnmarshalJSON (Some (JObject exampleJSON)) zeroConfig = Returns (exampleConfig, None).
Proof. vm_compute. reflexivity. Qed.

(** A fraction, and the error of a malformed duration after the fields before it
    were stored. *)
Example partial_load :
  UnmarshalJSON (Some (JObject [(lit "QUERYTIMEOUT", JString (lit "soon")); (lit "PollTimeout", JString (lit "1.5s"))]))
    exampleConfig =
  Returns (setDur FQueryTimeout 0 (setDur FPollTimeout 1500000000 exampleConfig),
           Some (BadDuration FQueryTimeout (lit "soon") InvalidDuration)).
Proof. vm_compute. reflexivity. Qed.

(** Keys in upper case, the members reversed, and a member of another tool. *)
Definition shouted (f : Field) : bytes := foldName (tag f).
Definition comment : bytes * json := (lit "comment", JNull).
Definition savedDoc : list (bytes * json) := comment :: reverse (document shouted exampleConfig).

Lemma shouted_named f : fieldNamed (shouted f) = Some f.
Proof. destruct f as [f|f]; destruct f; vm_compute; reflexivity. Qed.

Lemma config_roundtrip_witness :
  UnmarshalJSON (Some (JObject savedDoc)) smallConfig = Returns (exampleConfig, None).
Proof.
  apply (config_roundtrip shouted exampleConfig [comment] savedDoc smallConfig).
  - exact shouted_named.
  - intros f. destruct f; vm_compute; split; discriminate || reflexivity.
  - intros f. destruct f; vm_compute; split; discriminate || reflexivity.
  - intros m ->%list_elem_of_singleton. vm_compute. reflexivity.
  - unfold savedDoc. rewrite reverse_Permutation. apply Permutation_cons_append.
Defined.
