(* ===== verification/Fnv.v ===== *)
(** * Key routing ([demux/pipeline/fnv])

    FNV-1a over the bytes of a key at 32 bits, masked to a shard index. *)
From S2P Require Import Prelude Config.
From stdpp Require Import base list strings.
From Stdlib Require Import Ascii.
Open Scope Z_scope.

Definition offsetBasis : Z := 2166136261.
Definition primeFactor : Z := 16777619.

Definition fnvStep (h : Z) (byte : Z) : Z := wrapu32 (Z.lxor h byte * primeFactor).

Fixpoint fnvLoop (h : Z) (key : string) : Z :=
  match key with
  | EmptyString => h
  | String a key' => fnvLoop (fnvStep h (Z.of_N (N_of_ascii a))) key'
  end.

Definition HashIndex (partitionKey : string) (bitMask : Z) : Z :=
  Z.land (fnvLoop offsetBasis partitionKey) bitMask.

(** The index [SendToWorkerForProcessing] computes for a demultiplexer of [n]
    shards: [uint32(n - 1)] as the mask. *)
Definition shardIndex (n : Z) (key : string) : Z := HashIndex key (wrapu32 (n - 1)).

Lemma fnvLoop_range h key : 0 <= h < 2^32 -> 0 <= fnvLoop h key < 2^32.
Proof.
  revert h. induction key as [|a key IH]; intros h Hh; [done|]. simpl. apply IH.
  unfold fnvStep, wrapu32. apply Z.mod_pos_bound. lia.
Qed.

(** With a power of two of shards, masking is reduction modulo their number. *)
Lemma shardIndex_mod n k key :
  0 <= k <= 32 -> n = 2 ^ k -> shardIndex n key = fnvLoop offsetBasis key mod n.
Proof.
  intros Hk ->. unfold shardIndex, HashIndex, wrapu32.
  assert (H2 : 0 < 2 ^ k <= 2 ^ 32) by (split; [apply Z.pow_pos_nonneg | apply Z.pow_le_mono_r]; lia).
  rewrite Z.mod_small by lia.
  replace (2 ^ k - 1) with (Z.ones k) by (rewrite Z.ones_equiv; lia).
  apply Z.land_ones. lia.
Qed.

(** Known FNV-1a vectors. *)
Example fnv_vectors :
  HashIndex "" (2^32 - 1) = 0x811c9dc5 /\ HashIndex "a" (2^32 - 1) = 0xe40c292c /\
  HashIndex "foobar" (2^32 - 1) = 0xbf9cf968.
Proof. by vm_compute. Qed.

(** Routing is total and stable.  Under every configuration that validation
    accepts, every key is routed to one of the shards that exist, and the index
    is the FNV-1a hash reduced modulo their number. *)
Lemma routing_in_range c c' key :
  SetDemuxConfigDefaults false c = inr c' ->
  0 <= shardIndex (WorkerShardsCount c') key < WorkerShardsCount c' /\
  shardIndex (WorkerShardsCount c') key = fnvLoop offsetBasis key mod WorkerShardsCount c'.
Proof.
  intros Hc. destruct (defaults_configOk c c' Hc) as [_ _ _ _ _ _ _ _ _ _ Hs (k & Hk & E) _ _].
  unfold inLimits, workerShardsL in Hs. cbn [lo hi] in Hs.
  assert (Hk' : k <= 32).
  { apply Z.nlt_ge. intros Hlt. pose proof (Z.pow_lt_mono_r 2 32 k ltac:(lia) ltac:(lia) Hlt). lia. }
  rewrite (shardIndex_mod _ k) by lia. split; [|done]. apply Z.mod_pos_bound. lia.
Qed.
