(* ===== verification/CircuitBreaker.v ===== *)
(** * The circuit breaker ([demux/circuitbreaker])

    Any number of goroutines may call [TriggerEmergencyShutdown] at once.  A call
    is a sequence of atomic actions ([callStep]); a step of the system is one
    action of one call, or the host application reading the shutdown channel. *)
From S2P Require Import Prelude.
From stdpp Require Import base gmap list relations.
Open Scope Z_scope.

Section CircuitBreaker.
Context {Err : Type}.
Variable unspecified : Err.   (* [errors.New("unspecified emergency shutdown")] *)

(** [emergencyShutdown] carries the formatted reason, here the reason itself.
    [fault]: a panic of the runtime (close of a closed channel, send on one). *)
Record CircuitBreaker := mkCB {
  trip : Chan Err;
  reason : option Err;
  mainCtxCancelled : bool;
  tripped : bool;                (* the latch is closed *)
  emergencyShutdown : Chan Err;
  emergencyClosed : bool;
  fault : bool
}.

Definition NewCircuitBreaker : CircuitBreaker :=
  mkCB (makeChan 1) None false false (makeChan 1) false false.

(** Where a call stands. *)
Inductive CallPc :=
| Entering (r : option Err)
| Elected (r : Err)
| ReasonSet (r : Err)
| MainCancelled (r : Err)
| Latched (r : Err)
| Signalled
| Returned.

Definition withFault (b : bool) (cb : CircuitBreaker) : CircuitBreaker :=
  mkCB (trip cb) (reason cb) (mainCtxCancelled cb) (tripped cb) (emergencyShutdown cb)
    (emergencyClosed cb) (fault cb || b).

(** The next action of a call; [None] while it would block. *)
Definition callStep (cb : CircuitBreaker) (pc : CallPc) : option (CircuitBreaker * CallPc) :=
  match pc with
  | Entering r =>
      let r := default unspecified r in
      match trySend (trip cb) r with
      | Some c => Some (mkCB c (reason cb) (mainCtxCancelled cb) (tripped cb) (emergencyShutdown cb)
                          (emergencyClosed cb) (fault cb), Elected r)
      | None => Some (cb, Returned)
      end
  | Elected r =>
      Some (mkCB (trip cb) (Some r) (mainCtxCancelled cb) (tripped cb) (emergencyShutdown cb)
              (emergencyClosed cb) (fault cb), ReasonSet r)
  | ReasonSet r =>
      Some (mkCB (trip cb) (reason cb) true (tripped cb) (emergencyShutdown cb)
              (emergencyClosed cb) (fault cb), MainCancelled r)
  | MainCancelled r =>
      Some (withFault (tripped cb)
              (mkCB (trip cb) (reason cb) (mainCtxCancelled cb) true (emergencyShutdown cb)
                 (emergencyClosed cb) (fault cb)), Latched r)
  | Latched r =>
      if emergencyClosed cb then Some (withFault true cb, Signalled)
      else
        c ← trySend (emergencyShutdown cb) r;
        Some (mkCB (trip cb) (reason cb) (mainCtxCancelled cb) (tripped cb) c (emergencyClosed cb)
                (fault cb), Signalled)
  | Signalled =>
      Some (withFault (emergencyClosed cb)
              (mkCB (trip cb) (reason cb) (mainCtxCancelled cb) (tripped cb) (emergencyShutdown cb)
                 true (fault cb)), Returned)
  | Returned => None
  end.

(** A call that runs with no other goroutine interleaved. *)
Fixpoint runCall (fuel : nat) (cb : CircuitBreaker) (pc : CallPc) : CircuitBreaker * CallPc :=
  match fuel with
  | O => (cb, pc)
  | S fuel' =>
      match callStep cb pc with
      | Some (cb', pc') => runCall fuel' cb' pc'
      | None => (cb, pc)
      end
  end.

(** A call makes at most six actions. *)
Definition TriggerEmergencyShutdown (cb : CircuitBreaker) (r : option Err) : CircuitBreaker * CallPc :=
  runCall 6 cb (Entering r).

(** [Reason()] *)
Definition Reason (cb : CircuitBreaker) : option Err := if tripped cb then reason cb else None.

(** ** Concurrent calls *)

Record BreakerState := mkBreakerState {
  breaker : CircuitBreaker;
  calls : gmap Z CallPc;
  delivered : list Err          (* what the host has read from [Triggered()] *)
}.

Inductive breakerStep (s : BreakerState) : BreakerState -> Prop :=
| NewCall i r :
    calls s !! i = None ->
    breakerStep s (mkBreakerState (breaker s) (<[i := Entering r]> (calls s)) (delivered s))
| CallAction i pc cb' pc' :
    calls s !! i = Some pc -> callStep (breaker s) pc = Some (cb', pc') ->
    breakerStep s (mkBreakerState cb' (<[i := pc']> (calls s)) (delivered s))
| HostReads r c :
    tryRecv (emergencyShutdown (breaker s)) = Some (r, c) ->
    breakerStep s
      (mkBreakerState
         (mkCB (trip (breaker s)) (reason (breaker s)) (mainCtxCancelled (breaker s))
            (tripped (breaker s)) c (emergencyClosed (breaker s)) (fault (breaker s)))
         (calls s) (delivered s ++ [r])).

Definition breakerInit : BreakerState := mkBreakerState NewCircuitBreaker ∅ [].

(** ** The election *)

(** A call outside the body: not yet elected, or turned away. *)
Definition outside (pc : CallPc) : Prop :=
  match pc with Entering _ | Returned => True | _ => False end.

(** The breaker when the winner, elected with [r], has reached [pc]. *)
Definition winnerAt (r : Err) (pc : CallPc) (cb : CircuitBreaker) (read : list Err) : Prop :=
  trip cb = mkChan [r] 1 /\ fault cb = false /\
  match pc with
  | Elected r' => r' = r /\ reason cb = None /\ mainCtxCancelled cb = false /\ tripped cb = false /\
      emergencyShutdown cb = makeChan 1 /\ emergencyClosed cb = false /\ read = []
  | ReasonSet r' => r' = r /\ reason cb = Some r /\ mainCtxCancelled cb = false /\ tripped cb = false /\
      emergencyShutdown cb = makeChan 1 /\ emergencyClosed cb = false /\ read = []
  | MainCancelled r' => r' = r /\ reason cb = Some r /\ mainCtxCancelled cb = true /\ tripped cb = false /\
      emergencyShutdown cb = makeChan 1 /\ emergencyClosed cb = false /\ read = []
  | Latched r' => r' = r /\ reason cb = Some r /\ mainCtxCancelled cb = true /\ tripped cb = true /\
      emergencyShutdown cb = makeChan 1 /\ emergencyClosed cb = false /\ read = []
  | Signalled => reason cb = Some r /\ mainCtxCancelled cb = true /\ tripped cb = true /\
      emergencyClosed cb = false /\ read ++ queued (emergencyShutdown cb) = [r]
  | Returned => reason cb = Some r /\ mainCtxCancelled cb = true /\ tripped cb = true /\
      emergencyClosed cb = true /\ read ++ queued (emergencyShutdown cb) = [r]
  | Entering _ => False
  end.

Definition breakerInv (s : BreakerState) : Prop :=
  (breaker s = NewCircuitBreaker /\ delivered s = [] /\
   forall i pc, calls s !! i = Some pc -> exists r, pc = Entering r) \/
  exists w r pc, calls s !! w = Some pc /\ winnerAt r pc (breaker s) (delivered s) /\
    forall i pc', i <> w -> calls s !! i = Some pc' -> outside pc'.

Lemma winnerAt_step r pc cb read cb' pc' :
  winnerAt r pc cb read -> callStep cb pc = Some (cb', pc') -> winnerAt r pc' cb' read.
Proof.
  unfold winnerAt. intros (Ht & Hf & H) Hs.
  destruct pc; simpl in *; destruct_and?; try done; subst; simplify_eq; simpl.
  - done.
  - done.
  - match goal with H : tripped cb = false |- _ => by rewrite H, Hf end.
  - match goal with H : emergencyClosed cb = false |- _ => rewrite H in Hs end.
    match goal with H : emergencyShutdown cb = _ |- _ => rewrite H in Hs end.
    simpl in Hs. by simplify_eq.
  - match goal with H : emergencyClosed cb = false |- _ => by rewrite H, Hf end.
Qed.

(** A call that is not the winner's leaves the breaker alone. *)
Lemma outside_step r pc cb read pc0 cb' pc' :
  winnerAt r pc0 cb read -> outside pc -> callStep cb pc = Some (cb', pc') -> cb' = cb /\ outside pc'.
Proof.
  intros (Ht & _ & _) Ho Hs. destruct pc; simpl in *; try done.
  rewrite Ht in Hs. unfold trySend in Hs. simpl in Hs. by simplify_eq.
Qed.

Lemma breakerInv_step s s' : breakerInv s -> breakerStep s s' -> breakerInv s'.
Proof.
  intros [(Hb & Hd & Hc)|(w & r & pc & Hw & HW & Ho)] Hs.
  - destruct Hs as [i r Hi|i pc cb' pc' Hi Hs|r c Hr]; simpl.
    + left. split_and!; try done. intros j pc. simpl. rewrite lookup_insert. case_decide; [|apply Hc].
      intros [= <-]. eauto.
    + destruct (Hc i pc Hi) as [r ->]. right. rewrite Hb in Hs. simpl in Hs. simplify_eq.
      exists i, (default unspecified r). eexists. simpl. rewrite lookup_insert_eq.
      split_and!; [done | by rewrite Hd |].
      intros j pc' Hne. rewrite lookup_insert_ne by done. intros [r' ->]%Hc. done.
    + by rewrite Hb in Hr.
  - right. exists w, r. destruct Hs as [i r' Hi|i pc1 cb' pc' Hi Hs|r' c Hr]; simpl.
    + exists pc. rewrite lookup_insert_ne by congruence. split_and!; try done.
      intros j pc' Hne. rewrite lookup_insert. case_decide; [|by apply Ho]. by intros [= <-].
    + destruct (decide (i = w)) as [->|Hne].
      * exists pc'. rewrite lookup_insert_eq. rewrite Hw in Hi. injection Hi as <-.
        split_and!; [done | by eapply winnerAt_step |].
        intros j pc2 Hne. rewrite lookup_insert_ne by done. by apply Ho.
      * destruct (outside_step r pc1 (breaker s) (delivered s) pc cb' pc' HW (Ho i pc1 Hne Hi) Hs) as [-> Ho'].
        exists pc. rewrite lookup_insert_ne by done. split_and!; try done.
        intros j pc2 Hj. rewrite lookup_insert. case_decide; [|by apply Ho]. by intros [= <-].
    + exists pc. split_and!; try done. destruct HW as (Ht & Hf & HW). split_and!; try done.
      assert (Hq := Hr). unfold tryRecv in Hr.
      destruct (queued (emergencyShutdown (breaker s))) as [|x q] eqn:Eq; [done|]. simplify_eq.
      destruct pc; simpl in *; destruct_and?; try done; simplify_eq; 
        try (match goal with H : emergencyShutdown _ = makeChan 1 |- _ => by rewrite H in Eq end);
        split_and!; try done; by rewrite <- app_assoc.
Qed.

Lemma breaker_reachable s : rtc breakerStep breakerInit s -> breakerInv s.
Proof.
  apply (rtc_ind_r breakerInv).
  - left. split_and!; try done.
  - intros s1 s2 _ Hs Hi. by eapply breakerInv_step.
Qed.

(** The elected reason, and the latch, never change. *)
Lemma elected_stable s s' r :
  breakerInv s -> trip (breaker s) = mkChan [r] 1 -> breakerStep s s' ->
  trip (breaker s') = mkChan [r] 1 /\ (tripped (breaker s) = true -> tripped (breaker s') = true).
Proof.
  intros Hi Ht Hs. destruct Hs as [i r' Hn|i pc cb' pc' Hpc Hs|r' c Hr]; simpl; [done| |done].
  destruct pc; simpl in Hs; try done; try (injection Hs as <- <-; simpl; auto; fail).
  - rewrite Ht in Hs. injection Hs as <- <-. auto.
  - destruct (emergencyClosed _); [injection Hs as <- <-; simpl; auto|].
    destruct (trySend _ _); simpl in Hs; [|done]. injection Hs as <- <-. simpl; auto.
Qed.

Lemma inv_tripped s :
  breakerInv s -> tripped (breaker s) = true ->
  exists r, trip (breaker s) = mkChan [r] 1 /\ reason (breaker s) = Some r /\
    mainCtxCancelled (breaker s) = true.
Proof.
  intros [(Hb & _)|(w & r & pc & _ & (Ht & _ & HW) & _)] Hl; [by rewrite Hb in Hl|].
  exists r. destruct pc; simpl in HW; destruct_and?; try done; congruence.
Qed.

(** How many of its own actions a call may still make. *)
Definition callMeasure (pc : CallPc) : nat :=
  match pc with
  | Entering _ => 6 | Elected _ => 5 | ReasonSet _ => 4 | MainCancelled _ => 3 | Latched _ => 2
  | Signalled => 1 | Returned => 0
  end.

(** What the host has read is the reason the breaker gives. *)
Lemma delivered_reason s r : breakerInv s -> r ∈ delivered s -> Reason (breaker s) = Some r.
Proof.
  intros [(_ & Hd & _)|(w & r' & pc & _ & (_ & _ & HW) & _)] Hr; [by rewrite Hd in Hr; apply not_elem_of_nil in Hr|].
  unfold Reason. destruct pc; simpl in HW; destruct_and?; try done;
    try (match goal with H : delivered s = [] |- _ => rewrite H in Hr; by apply not_elem_of_nil in Hr end);
    (assert (Hx : r ∈ delivered s ++ queued (emergencyShutdown (breaker s))) by (apply elem_of_app; by left));
    match goal with H : _ ++ _ = [_] |- _ => rewrite H in Hx end; apply list_elem_of_singleton in Hx as ->;
    match goal with H : tripped _ = true |- _ => by rewrite H end.
Qed.

(** A call that has not returned can act. *)
Lemma call_acts s i pc :
  breakerInv s -> calls s !! i = Some pc -> pc <> Returned ->
  exists cb' pc', callStep (breaker s) pc = Some (cb', pc').
Proof.
  intros Hi Hpc Hne. destruct pc; try done; simpl; try (by eexists _, _).
  - destruct (trySend _ _); by eexists _, _.
  - destruct (emergencyClosed (breaker s)); [by eexists _, _|].
    assert (He : emergencyShutdown (breaker s) = makeChan 1).
    { destruct Hi as [(-> & _)|(w & r' & pc & Hw & (_ & _ & HW) & Ho)]; [done|].
      destruct (decide (i = w)) as [->|Hni]; [|by destruct (Ho i _ Hni Hpc)].
      rewrite Hpc in Hw. injection Hw as <-. simpl in HW. tauto. }
    rewrite He. by eexists _, _.
Qed.

(** An action brings a call closer to its return. *)
Lemma callStep_lowers cb pc cb' pc' :
  callStep cb pc = Some (cb', pc') -> (callMeasure pc' < callMeasure pc <= 6)%nat.
Proof.
  destruct pc; simpl; try done; try (intros [= <- <-]; simpl; lia).
  - destruct (trySend _ _); intros [= <- <-]; simpl; lia.
  - destruct (emergencyClosed cb); [intros [= <- <-]; simpl; lia|].
    destruct (trySend _ _); simpl; [intros [= <- <-]; simpl; lia | done].
Qed.

(** ** Properties *)

(** C20: the breaker trips once.  However many calls race, no channel is closed or
    written twice; once the latch is closed, processing has been cancelled and
    [Reason] is the elected call's reason, and it stays so for ever; the host is
    told at most once, with that reason. *)
Theorem breaker_trips_once s s' :
  rtc breakerStep breakerInit s -> rtc breakerStep s s' ->
  fault (breaker s) = false /\
  (length (delivered s ++ queued (emergencyShutdown (breaker s))) <= 1)%nat /\
  (tripped (breaker s) = true ->
     exists r, Reason (breaker s) = Some r /\ Reason (breaker s') = Some r /\
       mainCtxCancelled (breaker s) = true /\
       forall x, x ∈ delivered s ++ queued (emergencyShutdown (breaker s)) -> x = r).
Proof.
  intros Hr Hr'. pose proof (breaker_reachable s Hr) as Hi. split_and!.
  - destruct Hi as [(-> & _)|(w & r & pc & _ & (_ & Hf & _) & _)]; done.
  - destruct Hi as [(-> & -> & _)|(w & r & pc & _ & (_ & _ & HW) & _)]; [simpl; lia|].
    destruct pc; simpl in HW; destruct_and?; try done; simplify_eq;
      repeat match goal with
      | H : emergencyShutdown _ = makeChan 1 |- _ => rewrite H
      | H : _ ++ _ = [_] |- _ => rewrite H
      | H : delivered _ = [] |- _ => rewrite H
      end; simpl; lia.
  - intros Hl. destruct (inv_tripped s Hi Hl) as (r & Ht & HR & Hm). exists r.
    assert (Hs' : breakerInv s' /\ trip (breaker s') = mkChan [r] 1 /\ tripped (breaker s') = true).
    { revert s' Hr'. apply (rtc_ind_r (fun s' => breakerInv s' /\ trip (breaker s') = mkChan [r] 1 /\
        tripped (breaker s') = true)); [done|].
      intros s1 s2 _ Hst (Hi1 & Ht1 & Hl1).
      destruct (elected_stable s1 s2 r Hi1 Ht1 Hst) as [??]. split_and!; auto. by eapply breakerInv_step. }
    destruct Hs' as (Hi' & Ht' & Hl'). destruct (inv_tripped s' Hi' Hl') as (r' & E & HR' & _).
    rewrite Ht' in E. injection E as <-. unfold Reason. rewrite Hl, Hl'. split_and!; try done.
    destruct Hi as [(Hb & _)|(w & r1 & pc & _ & (Ht1 & _ & HW) & _)]; [by rewrite Hb in Hl|].
    rewrite Ht in Ht1. injection Ht1 as <-.
    intros x. destruct pc; simpl in HW; destruct_and?; try done; try congruence;
      repeat match goal with
      | H : emergencyShutdown _ = makeChan 1 |- _ => rewrite H
      | H : _ ++ _ = [_] |- _ => rewrite H
      | H : delivered _ = [] |- _ => rewrite H
      end; simpl; intros Hx; by apply list_elem_of_singleton in Hx || by apply not_elem_of_nil in Hx.
Qed.

(** C21: no call blocks.  In every reachable state every call that has not returned
    can act, and each action brings it closer to its return, so a call returns
    after at most six actions of its own whatever the others do. *)
Theorem breaker_wait_free s i pc :
  rtc breakerStep breakerInit s -> calls s !! i = Some pc -> pc <> Returned ->
  exists cb' pc', callStep (breaker s) pc = Some (cb', pc') /\ (callMeasure pc' < callMeasure pc <= 6)%nat.
Proof.
  intros Hr Hpc Hne. destruct (call_acts s i pc (breaker_reachable s Hr) Hpc Hne) as (cb' & pc' & Hs).
  exists cb', pc'. split; [done | by eapply callStep_lowers].
Qed.
End CircuitBreaker.

(** Two calls race; the second is elected, reaches the latch, and the first is
    turned away. *)
Definition raceTripped : CircuitBreaker :=
  mkCB (mkChan [2] 1) (Some 2) true true (makeChan 1) false false.
Definition raceCalls : gmap Z CallPc := {[0 := Entering (Some 1); 1 := Entering (Some 2)]}.
Definition race : @BreakerState Z :=
  mkBreakerState raceTripped
    (<[0 := Returned]> (<[1 := Latched 2]> (<[1 := MainCancelled 2]> (<[1 := ReasonSet 2]>
      (<[1 := Elected 2]> (<[1 := Entering (Some 2)]> (<[0 := Entering (Some 1)]> ∅))))))) [].

Lemma race_reachable : rtc (breakerStep 0) breakerInit race.
Proof.
  eapply rtc_l; [apply (NewCall _ _ 0 (Some 1)); reflexivity|].
  eapply rtc_l; [apply (NewCall _ _ 1 (Some 2)); reflexivity|].
  eapply rtc_l; [eapply (CallAction _ _ 1); reflexivity|].
  eapply rtc_l; [eapply (CallAction _ _ 1); reflexivity|].
  eapply rtc_l; [eapply (CallAction _ _ 1); reflexivity|].
  eapply rtc_l; [eapply (CallAction _ _ 1); reflexivity|].
  eapply rtc_l; [eapply (CallAction _ _ 0); reflexivity|].
  apply rtc_refl.
Qed.

Lemma breaker_trips_once_witness :
  tripped (breaker race) = true /\ fault (breaker race) = false /\
  exists r, Reason (breaker race) = Some r.
Proof.
  split; [reflexivity|].
  destruct (breaker_trips_once 0 race race race_reachable (rtc_refl _ _)) as (Hf & _ & Ht).
  split; [exact Hf|]. destruct (Ht eq_refl) as (r & Hr & _). exists r. exact Hr.
Defined.

Lemma breaker_wait_free_witness :
  exists cb' pc', callStep 0 (breaker race) (Latched 2) = Some (cb', pc') /\
    (callMeasure pc' < callMeasure (Latched 2) <= 6)%nat.
Proof. exact (breaker_wait_free 0 race 1 (Latched 2) race_reachable eq_refl ltac:(discriminate)). Defined.
