(* ===== verification/Lifecycle.v ===== *)
(** * Subscribing and unsubscribing a consumer ([demux_consumer.go])

    [Subscribe] checks the breaker, installs the default callback, starts the
    collectors, joins the broker, starts the polling loop and waits for the first
    assignment, for a trip, or for its timer.  A step is one action of [Subscribe], one
    action of the breaker's goroutines ([CircuitBreaker]), a rebalance event
    ([Subscription]) or the end of the unsubscription it asked for. *)
From S2P Require Import Prelude Types Prev Subscription CircuitBreaker.
From stdpp Require Import base gmap list strings relations.
Open Scope Z_scope.

Section Lifecycle.
Context {Err : Type}.
Variable unspecified : Err.

Inductive SubscribeError :=
| EmergencyError (reason : option Err)       (* [subscribeAfterEmergency], with [Reason()] *)
| SubscribeFailed (e : Err)
| AwaitAssignmentTimeout.

(** What [Subscribe] does to the rest of the consumer. *)
Inductive ConsumerCall :=
| StartCollectingMetrics
| StartBandwidth
| BrokerSubscribe
| StartPolling
| CallUnsubscribeAsync
| DefaultShutdownCallback.

Inductive SubscribePc :=
| SubEntry
| SubCallback
| SubMetrics
| SubBandwidth
| SubBroker
| SubPoll
| SubAwait
| SubAssigned
| SubTimedOut
| SubUnsubscribing
| SubForced
| SubDone (result : option SubscribeError).

Record Life := mkLife {
  lBreaker : @BreakerState Err;
  lSub : Subscription;
  lHasCallback : bool;
  lUnsubscribed : bool;                      (* the channel of [Unsubscribe] has its value *)
  lEvents : list (RebalanceType * list RebalanceInfo);   (* the rebalances handled *)
  lCalls : list ConsumerCall;
  lPc : SubscribePc
}.

Definition goto (pc : SubscribePc) (s : Life) : Life :=
  mkLife (lBreaker s) (lSub s) (lHasCallback s) (lUnsubscribed s) (lEvents s) (lCalls s) pc.
Definition calling (c : ConsumerCall) (s : Life) : Life :=
  mkLife (lBreaker s) (lSub s) (lHasCallback s) (lUnsubscribed s) (lEvents s) (lCalls s ++ [c]) (lPc s).
Definition withSub (x : Subscription) (s : Life) : Life :=
  mkLife (lBreaker s) x (lHasCallback s) (lUnsubscribed s) (lEvents s) (lCalls s) (lPc s).
Definition withBreaker (b : BreakerState) (s : Life) : Life :=
  mkLife b (lSub s) (lHasCallback s) (lUnsubscribed s) (lEvents s) (lCalls s) (lPc s).
Definition withCallback (s : Life) : Life :=
  mkLife (lBreaker s) (lSub s) true (lUnsubscribed s) (lEvents s) (lCalls s) (lPc s).
Definition withUnsubscribed (s : Life) : Life :=
  mkLife (lBreaker s) (lSub s) (lHasCallback s) true (lEvents s) (lCalls s) (lPc s).

Definition handled (t : RebalanceType) (info : list RebalanceInfo) (s : Life) : Life :=
  mkLife (lBreaker s) (lSub s) (lHasCallback s) (lUnsubscribed s) (lEvents s ++ [(t, info)]) (lCalls s) (lPc s).

Definition isTripped (s : Life) : bool := tripped (breaker (lBreaker s)).

(** [fmt.Errorf(subscribeAfterEmergency, topicName, dxc.circuitBreaker.Reason())] *)
Definition emergencyError (s : Life) : SubscribePc :=
  SubDone (Some (EmergencyError (Reason (breaker (lBreaker s))))).

(** What the world decides at an action: which ready case a [select] takes, and
    what the broker answers. *)
Inductive Choice := Proceed | TakeTripped | TakeAssigned | TakeTimeout | BrokerFails (e : Err).

(** The next action of [Subscribe]; [None] when the chosen case is not ready.
    [hasBandwidth]: a bandwidth aggregator is configured. *)
Definition Subscribe (hasBandwidth : bool) (c : Choice) (s : Life) : option Life :=
  match lPc s, c with
  | SubEntry, _ => Some (goto (if isTripped s then emergencyError s else SubCallback) s)
  | SubCallback, _ => Some (goto SubMetrics (if lHasCallback s then s else withCallback s))
  | SubMetrics, _ => Some (goto SubBandwidth (calling StartCollectingMetrics s))
  | SubBandwidth, _ => Some (goto SubBroker (if hasBandwidth then calling StartBandwidth s else s))
  | SubBroker, BrokerFails e => Some (goto (SubDone (Some (SubscribeFailed e))) (calling BrokerSubscribe s))
  | SubBroker, _ => Some (goto SubPoll (calling BrokerSubscribe s))
  | SubPoll, _ => Some (goto SubAwait (calling StartPolling s))
  | SubAwait, TakeAssigned =>
      '(_, q) ← tryRecv (signalAssigned (lSub s));
      Some (goto SubAssigned (withSub (setSignalAssigned q (lSub s)) s))
  | SubAwait, TakeTripped => if isTripped s then Some (goto (emergencyError s) s) else None
  | SubAwait, TakeTimeout => Some (goto SubTimedOut s)
  | SubAwait, _ => None
  | SubAssigned, _ => Some (goto (if isTripped s then emergencyError s else SubDone None) s)
  | SubTimedOut, _ => Some (goto SubUnsubscribing (calling CallUnsubscribeAsync s))
  | SubUnsubscribing, TakeTimeout => Some (goto SubForced s)
  | SubUnsubscribing, _ =>
      if lUnsubscribed s then Some (goto (SubDone (Some AwaitAssignmentTimeout)) s) else None
  | SubForced, _ =>
      Some (goto (SubDone (Some AwaitAssignmentTimeout)) (calling DefaultShutdownCallback s))
  | SubDone _, _ => None
  end.

(** [Consumer.Unsubscribe]: [completed] whether the subscription's channel delivers
    before the drain timeout; an error of the broker is only logged. *)
Definition ConsumerUnsubscribe (timeoutErr : Err) (completed : bool) (cb : CircuitBreaker)
    : CircuitBreaker * option Err :=
  if completed then (cb, None)
  else ((TriggerEmergencyShutdown unspecified cb (Some timeoutErr)).1, Some timeoutErr).

Inductive lifeStep (hasBandwidth : bool) (s : Life) : Life -> Prop :=
| SubscribeActs c s' : Subscribe hasBandwidth c s = Some s' -> lifeStep hasBandwidth s s'
| BreakerActs b : breakerStep unspecified (lBreaker s) b -> lifeStep hasBandwidth s (withBreaker b s)
| Rebalances t info ackErr sub calls err :
    HandleRebalance (lSub s) t info ackErr = (sub, calls, err) ->
    lifeStep hasBandwidth s (handled t info (withSub sub s))
| UnsubscribeEnds : CallUnsubscribeAsync ∈ lCalls s -> lifeStep hasBandwidth s (withUnsubscribed s).

(** A consumer that was built and has not been subscribed; the breaker may already
    have tripped. *)
Record fresh (s : Life) : Prop := {
  fr_pc : lPc s = SubEntry;
  fr_calls : lCalls s = [];
  fr_signal : queued (signalAssigned (lSub s)) = [];
  fr_breaker : rtc (breakerStep unspecified) breakerInit (lBreaker s)
}.

(** ** Invariant *)

(** What has been done when [Subscribe] stands at [pc]. *)
Definition started (hasBandwidth : bool) : list ConsumerCall :=
  [StartCollectingMetrics] ++ if hasBandwidth then [StartBandwidth] else [].
Definition joined (hasBandwidth : bool) : list ConsumerCall :=
  started hasBandwidth ++ [BrokerSubscribe; StartPolling].

Definition callsAt (bw : bool) (pc : SubscribePc) (calls : list ConsumerCall) : Prop :=
  match pc with
  | SubEntry | SubCallback | SubMetrics => calls = []
  | SubBandwidth => calls = [StartCollectingMetrics]
  | SubBroker => calls = started bw
  | SubPoll => calls = started bw ++ [BrokerSubscribe]
  | SubAwait | SubAssigned | SubTimedOut => calls = joined bw
  | SubUnsubscribing | SubForced => calls = joined bw ++ [CallUnsubscribeAsync]
  | SubDone None => calls = joined bw
  | SubDone (Some (SubscribeFailed _)) => calls = started bw ++ [BrokerSubscribe]
  | SubDone (Some (EmergencyError _)) => calls = [] \/ calls = joined bw
  | SubDone (Some AwaitAssignmentTimeout) =>
      calls = joined bw ++ [CallUnsubscribeAsync] \/
      calls = joined bw ++ [CallUnsubscribeAsync; DefaultShutdownCallback]
  end.

(** The reason an emergency error carries is the breaker's, and it is final. *)
Definition reasonAt (pc : SubscribePc) (cb : CircuitBreaker) : Prop :=
  match pc with
  | SubDone (Some (EmergencyError e)) => is_Some e /\ Reason cb = e
  | _ => True
  end.

(** The broker has assigned partitions of this topic. *)
Definition assignedBy (s : Life) : Prop :=
  exists info, (Assign, info) ∈ lEvents s /\ foreignTopic (topicName (lSub s)) info = None.

(** Nothing but an assign event makes [Subscribe] believe in an assignment. *)
Definition signalOk (s : Life) : Prop :=
  queued (signalAssigned (lSub s)) <> [] \/ lPc s = SubAssigned \/ lPc s = SubDone None -> assignedBy s.

Definition lifeInv (bw : bool) (s : Life) : Prop :=
  breakerInv (lBreaker s) /\ callsAt bw (lPc s) (lCalls s) /\ reasonAt (lPc s) (breaker (lBreaker s)) /\ signalOk s.

Lemma emergency_reason s :
  breakerInv (lBreaker s) -> isTripped s = true -> reasonAt (emergencyError s) (breaker (lBreaker s)).
Proof.
  intros Hb Ht. destruct (inv_tripped (lBreaker s) Hb Ht) as (r & _ & Hr & _).
  simpl. split; [|done]. unfold Reason, isTripped in *. rewrite Ht, Hr. by exists r.
Qed.

Lemma reason_stable b b' r :
  breakerInv b -> breakerStep unspecified b b' -> Reason (breaker b) = Some r -> Reason (breaker b') = Some r.
Proof.
  unfold Reason. intros Hb Hs Hr. destruct (tripped (breaker b)) eqn:Ht; [|done].
  destruct (inv_tripped b Hb Ht) as (r1 & E1 & E2 & _).
  destruct (elected_stable unspecified b b' r1 Hb E1 Hs) as [E1' Ht'].
  destruct (inv_tripped b' (breakerInv_step unspecified b b' Hb Hs) (Ht' Ht)) as (r2 & E3 & E4 & _).
  rewrite (Ht' Ht). congruence.
Qed.

Lemma Subscribe_signal bw c s s' : signalOk s -> Subscribe bw c s = Some s' -> signalOk s'.
Proof.
  unfold signalOk, assignedBy. intros H Hs. unfold Subscribe in Hs.
  destruct (lPc s) eqn:Epc; (destruct c; try discriminate Hs);
    try (destruct (tryRecv (signalAssigned (lSub s))) as [[u q]|] eqn:Er; [|discriminate Hs]);
    try (destruct (isTripped s); try discriminate Hs);
    try (destruct (lUnsubscribed s); try discriminate Hs);
    injection Hs as <-; try destruct bw; try destruct (lHasCallback s); cbn [lEvents lSub lPc goto calling withSub withCallback];
    intros [Hq|[Hp|Hp]]; try discriminate Hp; try (apply H; by left); try (apply H; auto; fail);
    (apply H; left; unfold tryRecv in Er; by destruct (queued (signalAssigned (lSub s)))).
Qed.

Lemma rebalance_signal s t info ackErr sub calls err :
  signalOk s -> HandleRebalance (lSub s) t info ackErr = (sub, calls, err) ->
  signalOk (handled t info (withSub sub s)).
Proof.
  unfold signalOk, assignedBy. cbn [lEvents lSub lPc handled withSub]. intros H Hr Hq.
  assert (Hkeep : forall x, topicName x = topicName (lSub s) ->
    (exists i, (Assign, i) ∈ lEvents s /\ foreignTopic (topicName (lSub s)) i = None) ->
    exists i, (Assign, i) ∈ lEvents s ++ [(t, info)] /\ foreignTopic (topicName x) i = None).
  { intros x -> (i & Hi & Ht). exists i. split; [apply elem_of_app; by left | done]. }
  unfold HandleRebalance in Hr. destruct (foreignTopic (topicName (lSub s)) info) eqn:Ef.
  { injection Hr as <- _ _. by apply Hkeep, H. }
  destruct t.
  - injection Hr as <- _ _. exists info. split; [apply elem_of_app; right; by apply list_elem_of_singleton|].
    by destruct (trySend _ _).
  - injection Hr as <- _ _. unfold tryRecv in *.
    destruct (queued (signalAssigned (lSub s))) as [|u q] eqn:Eq; (apply Hkeep; [done|]; apply H).
    + by destruct Hq as [Hq|Hq]; [rewrite Eq in Hq; left | right].
    + by left.
  - injection Hr as <- _ _. by apply Hkeep, H.
Qed.

Lemma Subscribe_inv bw c s s' : lifeInv bw s -> Subscribe bw c s = Some s' -> lifeInv bw s'.
Proof.
  intros (Hb & Hc & Hr & Hg) Hs. pose proof (Subscribe_signal bw c s s' Hg Hs) as Hg'.
  enough (breakerInv (lBreaker s') /\ callsAt bw (lPc s') (lCalls s') /\ reasonAt (lPc s') (breaker (lBreaker s')))
    as (? & ? & ?) by done.
  clear Hg Hg'. unfold Subscribe in Hs.
  destruct (lPc s) eqn:Epc; simpl in Hc;
    (destruct c; try discriminate Hs);
    try (destruct (tryRecv _) as [[u q]|]; [|discriminate Hs]);
    try (destruct (isTripped s) eqn:Et; try discriminate Hs);
    try (destruct (lUnsubscribed s); try discriminate Hs);
    injection Hs as <-; (split; [try destruct bw; try destruct (lHasCallback s); exact Hb|]);
    simpl; rewrite ?Hc; (split; [|try exact I; try by apply emergency_reason]);
    try (destruct bw; reflexivity); try (destruct (lHasCallback s); exact Hc); auto;
    try (left; reflexivity); try (right; destruct bw; reflexivity);
    try (destruct bw; simpl; rewrite ?Hc; reflexivity).
Qed.

Lemma life_step bw s s' : lifeInv bw s -> lifeStep bw s s' -> lifeInv bw s'.
Proof.
  intros HI Hs. destruct Hs as [c s' Hs|b Hs|t info ackErr sub calls err Hh|_]; [by eapply Subscribe_inv | | |exact HI].
  2:{ destruct HI as (Hb & Hc & Hr & Hg). split_and!; [done | done | done | by eapply rebalance_signal]. }
  destruct HI as (Hb & Hc & Hr & Hg). split_and!; [by eapply breakerInv_step | done | | exact Hg]. simpl.
  destruct (lPc s) as [| | | | | | | | | | |[[e| |]|]]; try exact I. simpl in *. destruct Hr as [[r ->] Hr].
  split; [by exists r | by eapply reason_stable].
Qed.

Lemma life_run bw s s' : lifeInv bw s -> rtc (lifeStep bw) s s' -> lifeInv bw s'.
Proof. intros HI Hr. induction Hr as [|s s1 s' Hs Hr IH]; [done|]. by apply IH, (life_step bw s). Qed.

Lemma fresh_inv bw s : fresh s -> lifeInv bw s.
Proof.
  intros [Hp Hc Hg Hb]. unfold lifeInv, signalOk. rewrite Hp, Hc, Hg.
  split_and!; [by eapply breaker_reachable | done | done | by intros [|[|]]].
Qed.

(** Once the breaker has tripped before the first action, nothing is started. *)
Definition disarmed (s : Life) : Prop :=
  isTripped s = true /\ lCalls s = [] /\
  match lPc s with SubEntry | SubDone (Some (EmergencyError _)) => True | _ => False end.

Lemma disarmed_step bw s s' : lifeInv bw s -> disarmed s -> lifeStep bw s s' -> disarmed s'.
Proof.
  intros (Hb & _) (Ht & Hc & Hp) Hs. destruct Hs as [c s' Hs|b Hs|t info ackErr sub calls err _|_]; [| |done..].
  - unfold Subscribe in Hs. destruct (lPc s) as [| | | | | | | | | | |r]; try done.
    rewrite Ht in Hs. destruct c; injection Hs as <-; done.
  - split_and!; [|done|done]. destruct (inv_tripped (lBreaker s) Hb Ht) as (r & E & _).
    by apply (elected_stable unspecified (lBreaker s) b r Hb E Hs).
Qed.

(** How many actions of its own [Subscribe] may still make. *)
Definition subscribeMeasure (pc : SubscribePc) : nat :=
  match pc with
  | SubEntry => 10 | SubCallback => 9 | SubMetrics => 8 | SubBandwidth => 7 | SubBroker => 6
  | SubPoll => 5 | SubAwait => 4 | SubAssigned => 1 | SubTimedOut => 3 | SubUnsubscribing => 2
  | SubForced => 1 | SubDone _ => 0
  end.

(** C22: what [Subscribe] returns, in every interleaving with trips and rebalances.
    Without an error exactly the collectors were started, the broker joined and the
    polling loop started, each once and in this order, an assign event for the topic
    was handled, and the last action before the return saw an untripped breaker; with an emergency error the breaker has
    tripped and the error carries its final reason; a broker that refuses leaves no
    polling loop; a timeout asked for the unsubscription.  A breaker that had tripped
    before the call disarms it: nothing is started and the broker is not joined.  And
    the call returns: it can always act (its timers fire), and it makes at most ten
    actions. *)
Theorem subscribe_outcome bw s0 s :
  fresh s0 -> rtc (lifeStep bw) s0 s ->
  (forall r, lPc s = SubDone r ->
     callsAt bw (SubDone r) (lCalls s) /\ reasonAt (SubDone r) (breaker (lBreaker s)) /\
     (r = None -> assignedBy s)) /\
  (isTripped s0 = true -> disarmed s) /\
  (forall c s', Subscribe bw c s = Some s' ->
     (subscribeMeasure (lPc s') < subscribeMeasure (lPc s) <= 10)%nat /\
     (lPc s' = SubDone None -> isTripped s = false)) /\
  ((forall r, lPc s <> SubDone r) -> exists c s', Subscribe bw c s = Some s').
Proof.
  intros Hf Hr. pose proof (life_run bw s0 s (fresh_inv bw s0 Hf) Hr) as HI. split_and!.
  - intros r Hp. destruct HI as (_ & Hc & Hre & Hg). rewrite Hp in Hc, Hre. split_and!; [done | done |].
    intros ->. apply Hg. by right; right.
  - intros Ht. assert (H0 : disarmed s0) by (destruct Hf as [Hp Hc _ _]; split_and!; [done | done | by rewrite Hp]).
    clear HI. revert s Hr. apply (rtc_ind_r disarmed); [done|]. intros s1 s2 Hr1 Hs Hd.
    eapply (disarmed_step bw); [|exact Hd|exact Hs]. by eapply life_run; [apply fresh_inv|].
  - intros c s' Hs. unfold Subscribe in Hs. destruct (lPc s) eqn:Epc;
      (destruct c; try discriminate Hs); try (destruct (tryRecv _) as [[u q]|]; [|discriminate Hs]);
      try (destruct (isTripped s) eqn:Et; try discriminate Hs);
      try (destruct (lUnsubscribed s); try discriminate Hs);
      injection Hs as <-; (split; [simpl; lia | done]).
  - intros Hne. unfold Subscribe. destruct (lPc s) eqn:Epc; try (exists Proceed; eexists; reflexivity);
      try (exists TakeTimeout; eexists; reflexivity). by destruct (Hne result).
Qed.

End Lifecycle.

(** A consumer whose breaker trips while it waits for an assignment. *)
Definition ls0 : Life (Err := Z) := mkLife breakerInit (NewSubscription EmptyString) false false [] [] SubEntry.
Definition lsNext (c : @Choice Z) (s : @Life Z) : @Life Z := default s (Subscribe true c s).
Definition lsAwait : @Life Z :=
  lsNext Proceed (lsNext Proceed (lsNext Proceed (lsNext Proceed (lsNext Proceed (lsNext Proceed ls0))))).
Definition lsTripped : Life := withBreaker race lsAwait.
Definition lsEnd : Life := lsNext TakeTripped lsTripped.

Lemma lsNext_step c s : is_Some (Subscribe true c s) -> lifeStep 0 true s (lsNext c s).
Proof. intros [s' E]. apply (SubscribeActs 0 true s c). unfold lsNext. by rewrite E. Qed.

Lemma ls_breaker (b b' : BreakerState) (s : Life) :
  rtc (breakerStep 0) b b' -> rtc (lifeStep 0 true) (withBreaker b s) (withBreaker b' s).
Proof.
  intros Hr. induction Hr as [|b b1 b' Hs Hr IH]; [apply rtc_refl|]. eapply rtc_l; [|exact IH].
  exact (BreakerActs 0 true (withBreaker b s) b1 Hs).
Qed.

Lemma ls_run : rtc (lifeStep 0 true) ls0 lsEnd.
Proof.
  do 6 (eapply rtc_l; [apply (lsNext_step Proceed); eexists; vm_compute; reflexivity|]).
  apply (rtc_r _ lsTripped).
  - exact (ls_breaker breakerInit race lsAwait race_reachable).
  - apply (lsNext_step TakeTripped). eexists. vm_compute. reflexivity.
Qed.

Lemma ls0_fresh : fresh 0 ls0.
Proof. split; [reflexivity | reflexivity | reflexivity | apply rtc_refl]. Qed.

(** A consumer whose partitions are assigned while it waits. *)
Definition lsAssign : RebalanceType * list RebalanceInfo := (Assign, [mkRebalanceInfo EmptyString 0 5]).
Definition lsGranted : @Life Z :=
  handled lsAssign.1 lsAssign.2 (withSub (HandleRebalance (lSub lsAwait) lsAssign.1 lsAssign.2 false).1.1 lsAwait).
Definition lsOk : @Life Z := lsNext Proceed (lsNext TakeAssigned lsGranted).

Lemma lsOk_run : rtc (lifeStep 0 true) ls0 lsOk.
Proof.
  do 6 (eapply rtc_l; [apply (lsNext_step Proceed); eexists; vm_compute; reflexivity|]).
  apply (rtc_l _ _ lsGranted); [eapply (Rebalances 0 true lsAwait Assign lsAssign.2 false); reflexivity|].
  eapply rtc_l; [apply (lsNext_step TakeAssigned); eexists; vm_compute; reflexivity|].
  apply rtc_once, (lsNext_step Proceed). eexists. vm_compute. reflexivity.
Qed.

Lemma subscribe_outcome_witness :
  (lPc lsEnd = SubDone (Some (EmergencyError (Some 2))) /\ Reason (breaker (lBreaker lsEnd)) = Some 2 /\
   lCalls lsEnd = [StartCollectingMetrics; StartBandwidth; BrokerSubscribe; StartPolling]) /\
  lPc lsOk = SubDone None /\ assignedBy lsOk.
Proof.
  split; [split; [vm_compute; reflexivity|] | split; [vm_compute; reflexivity|]].
  - destruct (subscribe_outcome 0 true ls0 lsEnd ls0_fresh ls_run) as [H _].
    destruct (H (Some (EmergencyError (Some 2)))) as (Hc & Hr & _); [vm_compute; reflexivity|].
    split; [exact (proj2 Hr)|]. destruct Hc as [Hc|Hc]; [vm_compute in Hc; discriminate Hc | exact Hc].
  - destruct (subscribe_outcome 0 true ls0 lsOk ls0_fresh lsOk_run) as [H _].
    exact (proj2 (proj2 (H None ltac:(vm_compute; reflexivity))) eq_refl).
Defined.
