(* ===== verification/License.v ===== *)
(** * License tokens ([demux/config/verify])

    A commercial license is a token in the environment, "payload.signature": the
    payload is base64 of a URL query with the claims, the signature an Ed25519
    signature of the payload segment by the key the claims name.  [License] turns
    it into a message, a log level and an error; [licenseStatus] (of the builder)
    keeps a panicking key resolver from failing a build.

    [Verify] is [ed25519.Verify]: a parameter, with what the round trip needs of a
    key pair as hypotheses. *)
From S2P Require Import Prelude GoBytes.
From Stdlib Require Import String.
From stdpp Require Import base list.
Open Scope Z_scope.

(** ** Times *)

(** [time.Time]: seconds since year 1 as an [int64], and nanoseconds. *)
Record Time := mkTime { sec : Z; nsec : Z }.

Definition unixToInternal : Z := 62135596800.

(** [time.Unix(n, 0)] *)
Definition Unix (n : Z) : Time := mkTime (wrap64 (n + unixToInternal)) 0.

(** [Time.Before] *)
Definition Before (t u : Time) : bool :=
  (sec t <? sec u) || ((sec t =? sec u) && (nsec t <? nsec u)).

(** ** Data *)

Record Claims := mkClaims {
  KeyID : bytes;
  Issuer : bytes;
  Subject : bytes;
  LicenseType : bytes;
  IssuedAt : Time;
  ExpiresAt : Time
}.

Inductive Level := Debug | Info.

Inductive LicenseMessage := NoMessage | LicenseTerms | Licensed (subject : bytes).

Inductive LicenseError :=
| TokenTooLong (n : Z)
| InvalidToken (token : bytes)
| DecodeFailed (payload : bytes)
| InvalidPayload (payload : bytes)
| InvalidKey (kid : bytes)
| MalformedSignature (signature : bytes)
| BadSignature (signature : bytes)
| BadClaims (claim : bytes) (e : NumError)
| Expired (typ subject : bytes) (at_ : Time)
| NotYetValid (typ subject : bytes) (from : Time)
| CheckPanicked.

Definition GetKeyFn := bytes -> Outcome bytes.

(** ** The error monad of [getClaims] *)

Definition Checked (A : Type) := Outcome (LicenseError + A).

Definition ok {A} (a : A) : Checked A := Returns (inr a).
Definition fail {A} (e : LicenseError) : Checked A := Returns (inl e).

Definition bindChecked {A B} (m : Checked A) (k : A -> Checked B) : Checked B :=
  match m with
  | Returns (inr a) => k a
  | Returns (inl e) => Returns (inl e)
  | Panics => Panics
  end.

Declare Scope checked_scope.
Delimit Scope checked_scope with checked.
Notation "'let!' x := m 'in' k" := (bindChecked m (fun x => k))
  (at level 10, x binder, m at level 100, k at level 200) : checked_scope.

Definition orError {A} (o : option A) (e : LicenseError) : Checked A :=
  match o with Some a => ok a | None => fail e end.

Definition guardChecked (b : bool) (e : LicenseError) : Checked unit := if b then ok () else fail e.

Definition called {A} (o : Outcome A) : Checked A :=
  match o with Returns a => ok a | Panics => Panics end.

Section License.
(** [ed25519.Verify publicKey message signature] *)
Variable Verify : bytes -> bytes -> bytes -> bool.

Definition maxTokenLen : Z := 8192.
Definition PublicKeySize : nat := 32.
Definition SignatureSize : nat := 64.

(** [split]: "<non-empty>.<non-empty>" with a single dot. *)
Definition split (token : bytes) : option (bytes * bytes) :=
  match IndexByte token 46 with
  | None => None
  | Some i =>
      if (i =? 0)%nat || (i =? length token - 1)%nat then None
      else match IndexByte (drop (S i) token) 46 with
           | Some _ => None
           | None => Some (take i token, drop (S i) token)
           end
  end.

Definition tsClaim (s : bytes) : LicenseError + Time :=
  match ParseInt s with
  | inl e => inl (BadClaims s e)
  | inr n => inr (Unix n)
  end.

Definition parseClaims (v : Values) : LicenseError + Claims :=
  match tsClaim (Get v (lit "iat")) with
  | inl e => inl e
  | inr issuedAt =>
      match tsClaim (Get v (lit "exp")) with
      | inl e => inl e
      | inr expiresAt =>
          inr (mkClaims (Get v (lit "kid")) (Get v (lit "iss")) (Get v (lit "sub")) (Get v (lit "typ"))
                 issuedAt expiresAt)
      end
  end.

Open Scope checked_scope.

Definition getClaims (token : bytes) (getKey : GetKeyFn) : Checked Claims :=
  let! _ := guardChecked (negb (Z.of_nat (length token) >? maxTokenLen))
              (TokenTooLong (Z.of_nat (length token))) in
  let! segments := orError (split token) (InvalidToken token) in
  let '(payload, signature) := segments in
  let! payloadRaw := orError (DecodeString payload) (DecodeFailed payload) in
  let! values := orError (ParseQuery payloadRaw) (InvalidPayload payload) in
  let keyId := Get values (lit "kid") in
  let! pub := called (getKey keyId) in
  let! _ := guardChecked (length pub =? PublicKeySize)%nat (InvalidKey keyId) in
  let! sig := orError (DecodeString signature) (MalformedSignature signature) in
  let! _ := guardChecked ((length sig =? SignatureSize)%nat && Verify pub payload sig)
              (BadSignature signature) in
  Returns (parseClaims values).

(** The environment variable is an argument. *)
Definition License (token : bytes) (now : Time) (keyFn : GetKeyFn)
    : Outcome (LicenseMessage * Level * option LicenseError) :=
  match token with
  | [] => Returns (LicenseTerms, Debug, None)
  | _ =>
      match getClaims token keyFn with
      | Panics => Panics
      | Returns (inl e) => Returns (LicenseTerms, Debug, Some e)
      | Returns (inr claims) =>
          if negb (Before now (ExpiresAt claims)) then
            Returns (LicenseTerms, Info,
                     Some (Expired (LicenseType claims) (Subject claims) (ExpiresAt claims)))
          else if Before now (IssuedAt claims) then
            Returns (LicenseTerms, Debug,
                     Some (NotYetValid (LicenseType claims) (Subject claims) (IssuedAt claims)))
          else Returns (Licensed (Subject claims), Info, None)
      end
  end.

(** The builder's wrapper: a panic becomes an error. *)
Definition licenseStatus (token : bytes) (now : Time) (keyFn : GetKeyFn)
    : LicenseMessage * Level * option LicenseError :=
  match License token now keyFn with
  | Returns r => r
  | Panics => (NoMessage, Debug, Some CheckPanicked)
  end.

(** The key built into the program. *)
Definition keys : list (bytes * bytes) :=
  [(lit "fd57299352df11ba",
    [221; 153; 129; 249; 114; 192; 106; 139; 123; 174; 116; 138; 32; 165; 125; 106;
     136; 240; 19; 203; 13; 49; 168; 22; 103; 101; 171; 91; 233; 54; 39; 243])].

(** [GetPublicKey]: the nil key for an unknown id. *)
Definition GetPublicKey (kid : bytes) : Outcome bytes := Returns (Get keys kid).

(** The log lines of a build: a warning for the error, then the message at its
    level. *)
Inductive LicenseLog := LogWarn (e : LicenseError) | LogInfo (m : LicenseMessage) | LogDebug (m : LicenseMessage).

Definition licenseLogs (r : LicenseMessage * Level * option LicenseError) : list LicenseLog :=
  let '(message, level, err) := r in
  match err with Some e => [LogWarn e] | None => [] end ++
  match message with
  | NoMessage => []
  | _ => match level with Info => [LogInfo message] | Debug => [LogDebug message] end
  end.

(** ** Lemmas *)

Lemma bindChecked_ok {A B} (m : Checked A) (k : A -> Checked B) b :
  bindChecked m k = ok b <-> exists a, m = ok a /\ k a = ok b.
Proof.
  unfold ok. destruct m as [[e|a]|]; simpl; split; [done | by intros (? & ? & ?) | by exists a | | done |].
  - intros (? & [= <-] & ?). done.
  - by intros (? & ? & ?).
Qed.

Lemma orError_ok {A} (o : option A) e a : orError o e = ok a <-> o = Some a.
Proof. unfold ok. destruct o; simpl; split; intros [=]; by subst. Qed.

Lemma guardChecked_ok b e a : guardChecked b e = ok a <-> b = true.
Proof. destruct b, a; simpl; split; done. Qed.

Lemma called_ok {A} (o : Outcome A) a : called o = ok a <-> o = Returns a.
Proof. unfold ok. destruct o; simpl; split; intros [=]; by subst. Qed.

Lemma split_some token payload signature :
  split token = Some (payload, signature) <->
  token = payload ++ 46 :: signature /\ payload <> [] /\ signature <> [] /\
  (46 ∉ payload) /\ (46 ∉ signature).
Proof.
  unfold split. split.
  - destruct (IndexByte token 46) as [i|] eqn:Ei; [|done].
    apply IndexByte_some in Ei as (E & Hni & Hlt).
    destruct (Nat.eqb_spec i 0) as [|H0]; [done|]. destruct (Nat.eqb_spec i (length token - 1)) as [|Hl]; [done|].
    simpl. destruct (IndexByte (drop (S i) token) 46) eqn:Ej; [done|]. intros [= <- <-].
    apply IndexByte_none in Ej. split_and!; try done.
    + intros En. apply (f_equal length) in En. rewrite length_take in En. simpl in En. lia.
    + intros En. apply (f_equal length) in En. rewrite length_drop in En. simpl in En. lia.
  - intros (-> & Hp & Hs & Hnp & Hns). rewrite IndexByte_app by done.
    destruct (Nat.eqb_spec (length payload) 0) as [E|_]; [by apply nil_length_inv in E|].
    destruct (Nat.eqb_spec (length payload) (length (payload ++ 46 :: signature) - 1)) as [E|_].
    { rewrite length_app in E. destruct signature; [done | simpl in E; lia]. }
    assert (Ed : drop (S (length payload)) (payload ++ 46 :: signature) = signature).
    { replace (payload ++ 46 :: signature) with ((payload ++ [46]) ++ signature) by (by rewrite <- app_assoc).
      apply drop_app_length'. rewrite length_app. simpl. lia. }
    cbn [orb]. rewrite Ed, (proj2 (IndexByte_none _ _) Hns). by rewrite take_app_length.
Qed.

(** A token that carries these claims, signed by the key they name. *)
Definition authentic (keyFn : GetKeyFn) (token : bytes) (c : Claims) : Prop :=
  exists payload signature payloadRaw values pub sig iat exp,
    Z.of_nat (length token) <= maxTokenLen /\
    token = payload ++ 46 :: signature /\ payload <> [] /\ signature <> [] /\
    (46 ∉ payload) /\ (46 ∉ signature) /\
    DecodeString payload = Some payloadRaw /\ ParseQuery payloadRaw = Some values /\
    keyFn (Get values (lit "kid")) = Returns pub /\ length pub = PublicKeySize /\
    DecodeString signature = Some sig /\ length sig = SignatureSize /\ Verify pub payload sig = true /\
    ParseInt (Get values (lit "iat")) = inr iat /\ ParseInt (Get values (lit "exp")) = inr exp /\
    c = mkClaims (Get values (lit "kid")) (Get values (lit "iss")) (Get values (lit "sub"))
          (Get values (lit "typ")) (Unix iat) (Unix exp).

Lemma parseClaims_ok v c :
  parseClaims v = inr c <->
  exists iat exp, ParseInt (Get v (lit "iat")) = inr iat /\ ParseInt (Get v (lit "exp")) = inr exp /\
    c = mkClaims (Get v (lit "kid")) (Get v (lit "iss")) (Get v (lit "sub")) (Get v (lit "typ"))
          (Unix iat) (Unix exp).
Proof.
  unfold parseClaims, tsClaim. destruct (ParseInt (Get v (lit "iat"))) as [e|iat].
  { split; [done|]. by intros (? & ? & ? & _). }
  destruct (ParseInt (Get v (lit "exp"))) as [e|exp].
  { split; [done|]. by intros (? & ? & _ & ? & _). }
  split; [intros [= <-]; by exists iat, exp | intros (? & ? & [= <-] & [= <-] & ->); done].
Qed.

Lemma getClaims_authentic token keyFn c :
  getClaims token keyFn = ok c <-> authentic keyFn token c.
Proof.
  unfold getClaims, authentic. split.
  - intros H. apply bindChecked_ok in H as (u & Hlen%guardChecked_ok & H).
    rewrite negb_true_iff, Z.gtb_ltb, Z.ltb_ge in Hlen.
    apply bindChecked_ok in H as ([payload signature] & Hs%orError_ok & H).
    apply split_some in Hs as (-> & Hs). apply bindChecked_ok in H as (raw & Hraw%orError_ok & H).
    apply bindChecked_ok in H as (values & Hv%orError_ok & H).
    apply bindChecked_ok in H as (pub & Hpub & H). apply (proj1 (called_ok _ _)) in Hpub.
    apply bindChecked_ok in H as (u1 & Hl%guardChecked_ok & H).
    apply bindChecked_ok in H as (sig & Hsig%orError_ok & H).
    apply bindChecked_ok in H as (u2 & Hver%guardChecked_ok & H).
    injection H as (iat & exp & Hi & He & ->)%parseClaims_ok.
    apply andb_true_iff in Hver as [Hls%Nat.eqb_eq Hver]. apply Nat.eqb_eq in Hl.
    exists payload, signature, raw, values, pub, sig, iat, exp. destruct Hs as (? & ? & ? & ?).
    by split_and!.
  - intros (payload & signature & raw & values & pub & sig & iat & exp & Hlen & Htok & H1 & H2 & H3 & H4 &
      Hraw & Hv & Hpub & Hl & Hsig & Hls & Hver & Hi & He & ->).
    rewrite Z.gtb_ltb, (proj2 (Z.ltb_ge _ _) Hlen). cbn [negb guardChecked bindChecked ok].
    rewrite (proj2 (split_some token payload signature)) by done. cbn [bindChecked orError ok].
    rewrite Hraw. cbn [bindChecked orError ok]. rewrite Hv. cbn [bindChecked orError ok].
    rewrite Hpub. cbn [bindChecked called ok]. rewrite Hl. cbn [bindChecked guardChecked ok Nat.eqb].
    rewrite (Nat.eqb_refl PublicKeySize), Hsig. cbn [bindChecked guardChecked orError ok].
    rewrite Hls, Hver, Nat.eqb_refl. cbn [andb bindChecked guardChecked ok].
    unfold ok. f_equal. apply parseClaims_ok. by exists iat, exp.
Qed.

Lemma bindChecked_panics {A B} (m : Checked A) (k : A -> Checked B) :
  bindChecked m k = Panics -> m = Panics \/ exists a, m = ok a /\ k a = Panics.
Proof. destruct m as [[e|a]|]; simpl; [done | | by left]. right. by exists a. Qed.

Lemma orError_returns {A} (o : option A) e : orError o e <> Panics.
Proof. by destruct o. Qed.

Lemma guardChecked_returns b e : guardChecked b e <> Panics.
Proof. by destruct b. Qed.

(** Only the key resolver can panic. *)
Lemma getClaims_panics token keyFn : getClaims token keyFn = Panics -> exists kid, keyFn kid = Panics.
Proof.
  unfold getClaims. intros H.
  apply bindChecked_panics in H as [H|(_ & _ & H)]; [by apply guardChecked_returns in H|].
  apply bindChecked_panics in H as [H|([payload signature] & _ & H)]; [by apply orError_returns in H|].
  apply bindChecked_panics in H as [H|(raw & _ & H)]; [by apply orError_returns in H|].
  apply bindChecked_panics in H as [H|(values & _ & H)]; [by apply orError_returns in H|].
  apply bindChecked_panics in H as [H|(pub & _ & H)].
  { exists (Get values (lit "kid")). by destruct (keyFn _). }
  apply bindChecked_panics in H as [H|(_ & _ & H)]; [by apply guardChecked_returns in H|].
  apply bindChecked_panics in H as [H|(sig & _ & H)]; [by apply orError_returns in H|].
  apply bindChecked_panics in H as [H|(_ & _ & H)]; [by apply guardChecked_returns in H | done].
Qed.

(** C25: a license is only ever reported for an authentic, current token.  The
    verified message names a subject exactly when the environment holds a token of
    at most 8192 bytes, "payload.signature" with one dot and two non-empty
    segments, whose payload decodes to claims with that subject, whose signature
    of the payload segment is valid for the 32-byte key the claims name, and the
    present is at or after the time of issue and before the time of expiry; it is
    then logged at level info, without an error.  Otherwise the check still returns:
    with the terms and no error when there is no token; with the terms and an error
    for any other token, at level info exactly when it is authentic but expired; and
    with an error and no message only if the key resolver panicked. *)
Theorem license_sound token now keyFn :
  (forall subject,
     (licenseStatus token now keyFn).1.1 = Licensed subject <->
     exists c, authentic keyFn token c /\ Subject c = subject /\
       Before now (IssuedAt c) = false /\ Before now (ExpiresAt c) = true) /\
  match licenseStatus token now keyFn with
  | (Licensed _, level, err) => level = Info /\ err = None
  | (LicenseTerms, level, err) =>
      (token = [] /\ level = Debug /\ err = None) \/
      (token <> [] /\ is_Some err /\
       (level = Info <-> exists c, authentic keyFn token c /\ Before now (ExpiresAt c) = false))
  | (NoMessage, _, err) => err = Some CheckPanicked /\ exists kid, keyFn kid = Panics
  end.
Proof.
  unfold licenseStatus, License. destruct token as [|b token].
  { split; [|by left]. intros subject. split; [done|].
    intros (c & (payload & signature & raw & values & pub & sig & iat & exp & _ & E & _) & _).
    by destruct payload. }
  destruct (getClaims (b :: token) keyFn) as [[e|c]|] eqn:E.
  - assert (Hno : forall c, ~ authentic keyFn (b :: token) c).
    { intros c Hc%getClaims_authentic. by rewrite E in Hc. }
    split; [intros subject; split; [done | intros (c & Hc & _); by apply Hno in Hc]|].
    right. split_and!; [done | by eexists |]. split; [done | intros (c & Hc & _); by apply Hno in Hc].
  - apply getClaims_authentic in E. assert (Huniq : forall c', authentic keyFn (b :: token) c' -> c' = c).
    { intros c' Hc'%getClaims_authentic. apply getClaims_authentic in E. rewrite E in Hc'. by injection Hc'. }
    destruct (Before now (ExpiresAt c)) eqn:E1; [destruct (Before now (IssuedAt c)) eqn:E2|]; cbn [negb]; split.
    + intros subject. split; [done|]. intros (c' & Hc' & _ & Hi & _). apply Huniq in Hc' as ->. congruence.
    + right. split_and!; [done | by eexists |]. split; [done|]. intros (c' & Hc' & He). apply Huniq in Hc' as ->. congruence.
    + intros subject. split; [intros [= <-]; by exists c|]. intros (c' & Hc' & <- & _). by apply Huniq in Hc' as ->.
    + done.
    + intros subject. split; [done|]. intros (c' & Hc' & _ & _ & He). apply Huniq in Hc' as ->. congruence.
    + right. split_and!; [done | by eexists |]. split; [intros _; by exists c | done].
  - split; [|split; [done | by eapply getClaims_panics]].
    intros subject. split; [done|]. intros (c & Hc%getClaims_authentic & _). by rewrite E in Hc.
Qed.

(** ** Issued tokens *)

(** How a token is issued ([signToken] of the tests): the query of the claims, in
    the order of their names, signed as a base64 segment. *)
Definition tokenValues (kid iss sub typ : bytes) (iat exp : Z) : Values :=
  [(lit "exp", FormatInt exp); (lit "iat", FormatInt iat); (lit "iss", iss); (lit "kid", kid);
   (lit "sub", sub); (lit "typ", typ)].

Definition signToken (sign : bytes -> bytes) (v : Values) : bytes :=
  let payload := EncodeToString (Encode v) in
  payload ++ 46 :: EncodeToString (sign payload).

(** What Ed25519 promises of a key pair. *)
Record keyPair (pub : bytes) (sign : bytes -> bytes) : Prop := {
  kp_pub : length pub = PublicKeySize;
  kp_size : forall m, length (sign m) = SignatureSize;
  kp_bytes : forall m, Forall byteOk (sign m);
  kp_verify : forall m, Verify pub m (sign m) = true
}.

Lemma base64_no_dot s : Forall byteOk s -> 46 ∉ EncodeToString s.
Proof.
  intros Hs Hin. pose proof (EncodeToString_base64 s Hs) as H. rewrite Forall_forall in H.
  specialize (H 46 Hin). unfold base64Byte in H. lia.
Qed.

Lemma base64_nonempty s : s <> [] -> EncodeToString s <> [].
Proof. unfold EncodeToString. destruct s as [|a [|b [|c s]]]; simpl; done. Qed.

Lemma escape_bytes s : Forall byteOk s -> Forall byteOk (QueryEscape s).
Proof.
  unfold QueryEscape. induction 1 as [|c s Hc _ IH]; [constructor|]. cbn [map concat].
  apply Forall_app. split; [|done]. unfold escapeByte, byteOk in *.
  assert (Hh : forall n, 0 <= n < 16 -> 0 <= upperHex n < 256) by (intros n ?; unfold upperHex; case_Z; lia).
  destruct (unreserved c); [by apply Forall_singleton|].
  destruct (c =? 32); [apply Forall_singleton; lia|].
  rewrite !Forall_cons, Forall_nil. refine (conj _ (conj _ (conj _ I))); [lia | apply Hh; div_lia | apply Hh; div_lia].
Qed.

Lemma Encode_bytes v : Forall pairOk v -> Forall byteOk (Encode v).
Proof.
  assert (Hp : forall kv, pairOk kv -> Forall byteOk (encodePair kv)).
  { intros kv [Hk Hv]. unfold encodePair. apply Forall_app. split; [by apply escape_bytes|].
    constructor; [unfold byteOk; lia | by apply escape_bytes]. }
  induction 1 as [|kv v Hkv Hv IH]; [constructor|]. destruct v as [|kv' v]; [by apply Hp|].
  change (Encode (kv :: kv' :: v)) with (encodePair kv ++ 38 :: Encode (kv' :: v)).
  apply Forall_app. split; [by apply Hp|]. constructor; [unfold byteOk; lia | done].
Qed.

Lemma signToken_authentic keyFn pub sign kid iss sub typ iat exp :
  keyPair pub sign -> keyFn kid = Returns pub ->
  Forall byteOk kid -> Forall byteOk iss -> Forall byteOk sub -> Forall byteOk typ ->
  in_int64 iat -> in_int64 exp ->
  let token := signToken sign (tokenValues kid iss sub typ iat exp) in
  Z.of_nat (length token) <= maxTokenLen ->
  authentic keyFn token (mkClaims kid iss sub typ (Unix iat) (Unix exp)).
Proof.
  intros [K1 K2 K3 K4] Hkey Bk Bi Bs Bt Hi He token Hlen.
  set (v := tokenValues kid iss sub typ iat exp) in *.
  assert (Hv : Forall pairOk v).
  { unfold v, tokenValues. repeat (apply Forall_cons; split); try apply Forall_nil_2;
      (split; cbn [fst snd]; [apply lit_bytes | first [done | by apply FormatInt_bytes]]). }
  pose proof (Encode_bytes v Hv) as Hb.
  assert (Hsne : sign (EncodeToString (Encode v)) <> []).
  { intros E. pose proof (K2 (EncodeToString (Encode v))) as L. by rewrite E in L. }
  exists (EncodeToString (Encode v)), (EncodeToString (sign (EncodeToString (Encode v)))), (Encode v), v, pub,
    (sign (EncodeToString (Encode v))), iat, exp.
  split_and!; try done.
  - by apply base64_nonempty.
  - by apply base64_no_dot.
  - by apply base64_no_dot.
  - by apply base64_roundtrip.
  - by apply query_roundtrip.
  - by apply base64_roundtrip.
  - by apply int_roundtrip.
  - by apply int_roundtrip.
Qed.

(** C26: round trip.  A token issued for any claims (any bytes as key id, issuer,
    subject and type, any 64-bit times) and signed with a key pair the resolver
    knows is read back to exactly those claims, so the license check reports it
    expired, not yet valid, or verified for its subject, by the present alone. *)
Theorem token_roundtrip keyFn pub sign kid iss sub typ iat exp now :
  keyPair pub sign -> keyFn kid = Returns pub ->
  Forall byteOk kid -> Forall byteOk iss -> Forall byteOk sub -> Forall byteOk typ ->
  in_int64 iat -> in_int64 exp ->
  let token := signToken sign (tokenValues kid iss sub typ iat exp) in
  Z.of_nat (length token) <= maxTokenLen ->
  getClaims token keyFn = ok (mkClaims kid iss sub typ (Unix iat) (Unix exp)) /\
  licenseStatus token now keyFn =
    if negb (Before now (Unix exp)) then (LicenseTerms, Info, Some (Expired typ sub (Unix exp)))
    else if Before now (Unix iat) then (LicenseTerms, Debug, Some (NotYetValid typ sub (Unix iat)))
    else (Licensed sub, Info, None).
Proof.
  intros K Hkey Bk Bi Bs Bt Hi He token Hlen.
  pose proof (signToken_authentic keyFn pub sign kid iss sub typ iat exp K Hkey Bk Bi Bs Bt Hi He Hlen) as Ha.
  apply getClaims_authentic in Ha. fold token in Ha. split; [done|].
  assert (Hne : exists b l, token = b :: l).
  { unfold token, signToken. by destruct (EncodeToString (Encode _)); eexists _, _. }
  destruct Hne as (b & l & Hne). unfold licenseStatus, License. rewrite Hne in *. rewrite Ha. unfold ok. simpl.
  destruct (Before now (Unix exp)); [|done]. simpl. by destruct (Before now (Unix iat)).
Qed.

End License.

(** ** A concrete license

    A toy signature scheme (64 copies of a checksum) in place of Ed25519, to run the
    round trip: a token for "Acme" valid from 1000 to 2000 seconds after 1970. *)
Definition toySign (m : bytes) : bytes := replicate 64 (foldr Z.add 0 m mod 256).
Definition toyVerify (pub m sig : bytes) : bool := bytesEqb sig (toySign m).
Definition toyKeyFn : GetKeyFn := fun kid =>
  if bytesEqb kid (lit "k1") then Returns (replicate 32 7) else Returns [].

Lemma toyPair : keyPair toyVerify (replicate 32 7) toySign.
Proof.
  split.
  - reflexivity.
  - intros m. unfold toySign. apply length_replicate.
  - intros m. apply Forall_replicate. unfold byteOk. apply Z.mod_pos_bound. lia.
  - intros m. unfold toyVerify, bytesEqb. by apply bool_decide_true.
Qed.

Definition acmeToken : bytes :=
  signToken toySign (tokenValues (lit "k1") (lit "https://llingr.io") (lit "Acme & Co") (lit "EVAL") 1000 2000).

Definition at1500 : Time := Unix 1500.

Lemma token_roundtrip_witness :
  licenseStatus toyVerify acmeToken at1500 toyKeyFn = (Licensed (lit "Acme & Co"), Info, None) /\
  licenseStatus toyVerify acmeToken (Unix 2000) toyKeyFn =
    (LicenseTerms, Info, Some (Expired (lit "EVAL") (lit "Acme & Co") (Unix 2000))).
Proof.
  split; unfold acmeToken;
    (edestruct (token_roundtrip toyVerify toyKeyFn (replicate 32 7) toySign (lit "k1") (lit "https://llingr.io")
       (lit "Acme & Co") (lit "EVAL") 1000 2000) as [_ E];
     [exact toyPair | reflexivity | apply lit_bytes | apply lit_bytes | apply lit_bytes | apply lit_bytes
      | vm_compute; intuition congruence | vm_compute; intuition congruence
      | vm_compute; congruence | exact E]).
Defined.
