(* ===== verification/Worker.v ===== *)
(** * Workers ([demux/pipeline/worker.go], [demux/deadletter])

    What a worker does with one work item: call the application, route a
    failure to the dead-letter sink, and hand the item to the committer, or trip
    the breaker when neither succeeded.  The application's handlers are outside
    the repository: their outcomes are arguments. *)
From S2P Require Import Prelude Types.
From stdpp Require Import base list strings.
Open Scope Z_scope.

(** How a call into the application ends: normally, with an error, or with a
    panic the engine recovers. *)
Inductive AppOutcome := AppOk | AppError | AppPanic.

Section Worker.
Context `{NX : Nexus}.

Definition setMsgTraits (f : Z -> Z) (m : Message) : Message :=
  mkMessage (f (msgTraits m)) (Partition m) (Offset m) (Key m) (msgPayload m).

(** [nexus.SetX(&workItem.Message.Traits)] *)
Definition markMessage (f : Z -> Z) (w : WorkItem) : WorkItem := setMessage (setMsgTraits f) w.

Definition setProcessTimes (start duration : Z) (m : Metrics) : Metrics :=
  mkMetrics (Traits m) (QueueDepth m) (mxPartition m) (mxOffset m) duration
    (WriteDeadLetterDuration m) (ReadTime m) start (WatermarkAdvanceTime m) (mxWorkerPool m).

Definition setWriteDeadLetterDuration (d : Z) (m : Metrics) : Metrics :=
  mkMetrics (Traits m) (QueueDepth m) (mxPartition m) (mxOffset m) (ProcessDuration m)
    d (ReadTime m) (ProcessStartTime m) (WatermarkAdvanceTime m) (mxWorkerPool m).

Definition setQueueDepth (d : Z) (m : Metrics) : Metrics :=
  mkMetrics (Traits m) d (mxPartition m) (mxOffset m) (ProcessDuration m)
    (WriteDeadLetterDuration m) (ReadTime m) (ProcessStartTime m) (WatermarkAdvanceTime m) (mxWorkerPool m).

(** [Worker.process]: the item after the deferred function, and whether it
    returned an error.  [start] and [finish] are the clock readings. *)
Definition process (w : WorkItem) (outcome : AppOutcome) (start finish : Z) : WorkItem * bool :=
  let w := match outcome with AppPanic => markMessage SetProcessPanic w | _ => w end in
  let failed := match outcome with AppOk => false | _ => true end in
  let w := setMetrics (setProcessTimes start (finish - start)) w in
  (if failed then markMessage SetProcessError w else w, failed).

(** [DeadLetter.Write]: an error, or a recovered panic, is an error. *)
Definition deadLetterWrite (outcome : AppOutcome) : bool :=
  match outcome with AppOk => false | _ => true end.

(** [Worker.writeDeadLetter] *)
Definition writeDeadLetter (w : WorkItem) (outcome : AppOutcome) (now : Z) : WorkItem * bool :=
  let w := markMessage SetDeadLetter w in
  let err := deadLetterWrite outcome in
  let m := wiMetrics w in
  (setMetrics (setWriteDeadLetterDuration (now - ProcessStartTime m - ProcessDuration m)) w, err).

(** What becomes of the item. *)
Inductive ItemFate :=
| Skipped                   (* the shard is done: neither processed nor committed *)
| BreakerTripped (w : WorkItem)
| Committed (w : WorkItem).

Record AppCall := mkAppCall {
  acProcess : AppOutcome; acDeadLetter : AppOutcome; acStart : Z; acFinish : Z; acWritten : Z
}.

(** The closure [processWorkItem] of [startProcessingWorkItems]. *)
Definition processWorkItem (shardDone : bool) (w : WorkItem) (app : AppCall) : ItemFate :=
  if shardDone then Skipped
  else
    let '(w, errP) := process w (acProcess app) (acStart app) (acFinish app) in
    if errP then
      let '(w, errDL) := writeDeadLetter w (acDeadLetter app) (acWritten app) in
      if errDL then BreakerTripped w else Committed w
    else Committed w.

(** ** Facts *)

Lemma core_markMessage f w : core (markMessage f w) = core w.
Proof. done. Qed.

Lemma processWorkItem_skipped shardDone w app : processWorkItem shardDone w app = Skipped -> shardDone = true.
Proof. unfold processWorkItem. destruct shardDone; [done|]. by destruct app as [[] [] ? ? ?]. Qed.

Lemma processWorkItem_committed shardDone w app w' :
  processWorkItem shardDone w app = Committed w' ->
  core w' = core w /\ (acProcess app = AppOk \/ acDeadLetter app = AppOk).
Proof.
  unfold processWorkItem. destruct shardDone; [done|].
  destruct app as [[] [] ? ? ?]; intros [= <-]; simpl; auto.
Qed.

(** C15: an item reaches the committer only if the application processed it, or
    failed to and its dead letter was written; then it carries the same record
    and stamp, and the dead-letter trait exactly when it was dead-lettered.
    Otherwise it is not committed: the breaker trips when the dead letter could
    not be written, and nothing happens when the shard is done. *)
Theorem processWorkItem_fate `{!NexusOk NX} shardDone w app :
  match processWorkItem shardDone w app with
  | Skipped => shardDone = true
  | BreakerTripped _ =>
      shardDone = false /\ acProcess app <> AppOk /\ acDeadLetter app <> AppOk
  | Committed w' =>
      shardDone = false /\ core w' = core w /\
      (acProcess app = AppOk /\ msgTraits (wiMessage w') = msgTraits (wiMessage w) \/
       acProcess app <> AppOk /\ acDeadLetter app = AppOk /\
       hasTrait (msgTraits (wiMessage w')) DeadLetter = true)
  end.
Proof.
  unfold processWorkItem. destruct shardDone; [done|].
  destruct app as [[] [] start finish written]; simpl; split_and!; try done; try (by left); right;
    (split_and!; [done | done | apply SetDeadLetter_set]).
Qed.

End Worker.

Lemma processWorkItem_fate_witness :
  match processWorkItem false (mkWorkItem 1 (mkMessage 0 3 7 "k" None) (mkMetrics 0 0 3 7 0 0 0 0 0 0) None 6 false 0)
          (mkAppCall AppPanic AppOk 0 5 9) with
  | Committed w' => PartitionOffset w' = (3, 7) /\ hasTrait (msgTraits (wiMessage w')) DeadLetter = true
  | _ => False
  end.
Proof.
  pose proof (processWorkItem_fate false
    (mkWorkItem 1 (mkMessage 0 3 7 "k" None) (mkMetrics 0 0 3 7 0 0 0 0 0 0) None 6 false 0)
    (mkAppCall AppPanic AppOk 0 5 9)) as H.
  simpl in *. destruct H as (_ & _ & [[H _]|(_ & _ & H)]); [discriminate H | split; [reflexivity | exact H]].
Defined.
