(* ===== verification/Demux.v ===== *)
(** * The demultiplexer ([demux/pipeline])

    [Demux] fans work items out to per-key workers: the shards, their worker
    maps and pools, the guard tokens that bound concurrency, the dispatching
    goroutine ([Processor.Process] and [SendToWorkerForProcessing]) and the worker
    goroutines.  A step is one atomic action of one goroutine: what happens
    between two acquisitions of a shard's mutex or two channel operations. *)
From S2P Require Import Prelude Types Fnv Worker.
From stdpp Require Import base gmap list strings relations.
Open Scope Z_scope.

Section Demux.
Context `{NX : Nexus}.

(** Where a worker's goroutine stands in [startProcessingWorkItems]. *)
Inductive WorkerPc :=
| Cold                       (* [workItem == nil]: waits for an item or for shutdown *)
| Busy (checked : bool) (w : WorkItem)
                             (* inside [processWorkItem], before or after it has looked at the shard's [done] *)
| Hot                        (* [workItem != nil]: drains its channel without blocking *)
| Releasing                  (* left the map; gives its guard token back *)
| Returning                  (* about to call [returnWorker] *)
| Exited.

Record Worker := mkWorker {
  workItems : Chan WorkItem;
  IsActive : bool;
  shutdown : bool;           (* the shutdown channel is closed *)
  pc : WorkerPc;
  partitionKey : string;
  usedOverflow : bool
}.

(** [NewWorker] and the start of its goroutine. *)
Definition NewWorker (bufferLen : Z) : Worker :=
  mkWorker (makeChan bufferLen) true false Cold EmptyString false.

Definition setItems (c : Chan WorkItem) (k : Worker) : Worker :=
  mkWorker c (IsActive k) (shutdown k) (pc k) (partitionKey k) (usedOverflow k).
Definition setActive (b : bool) (k : Worker) : Worker :=
  mkWorker (workItems k) b (shutdown k) (pc k) (partitionKey k) (usedOverflow k).
Definition setPc (p : WorkerPc) (k : Worker) : Worker :=
  mkWorker (workItems k) (IsActive k) (shutdown k) p (partitionKey k) (usedOverflow k).
Definition closeShutdown (k : Worker) : Worker :=
  mkWorker (workItems k) (IsActive k) true (pc k) (partitionKey k) (usedOverflow k).

(** A shard: [workers] maps a key to its worker, [heap] holds the worker objects,
    [workerPool] the idle ones; [nextId] names the next worker created. *)
Record WorkerShard := mkShard {
  workers : gmap string Z;
  heap : gmap Z Worker;
  workerPool : Chan Z;
  activeCount : Z;
  shardDone : bool;
  nextId : Z
}.

Definition setHeap (h : gmap Z Worker) (s : WorkerShard) : WorkerShard :=
  mkShard (workers s) h (workerPool s) (activeCount s) (shardDone s) (nextId s).
Definition putWorker (id : Z) (k : Worker) (s : WorkerShard) : WorkerShard :=
  setHeap (<[id := k]> (heap s)) s.
Definition setWorkers (m : gmap string Z) (s : WorkerShard) : WorkerShard :=
  mkShard m (heap s) (workerPool s) (Z.of_nat (size m)) (shardDone s) (nextId s).
Definition setPool (c : Chan Z) (s : WorkerShard) : WorkerShard :=
  mkShard (workers s) (heap s) c (activeCount s) (shardDone s) (nextId s).
Definition setShardDone (s : WorkerShard) : WorkerShard :=
  mkShard (workers s) (heap s) (workerPool s) (activeCount s) true (nextId s).

(** ** The pool ([worker_pool.go]) *)

Definition createWorker (bufferLen : Z) (s : WorkerShard) : Z * WorkerShard :=
  (nextId s,
   mkShard (workers s) (<[nextId s := NewWorker bufferLen]> (heap s)) (workerPool s) (activeCount s)
     (shardDone s) (nextId s + 1)).

Definition BorrowWorker (bufferLen : Z) (s : WorkerShard) : Z * WorkerShard :=
  match tryRecv (workerPool s) with
  | Some (id, c) => (id, setPool c s)
  | None => createWorker bufferLen s
  end.

Definition ReturnWorker (id : Z) (s : WorkerShard) : WorkerShard :=
  match trySend (workerPool s) id with
  | Some c => setPool c s
  | None => setHeap (alter closeShutdown id (heap s)) s
  end.

(** One tick of [pruneIdleWorkers]: the length found is the next [prevLen]. *)
Definition pruneTick (minIdleWorkers prevLen : Z) (s : WorkerShard) : Z * WorkerShard :=
  let poolSize := chLen (workerPool s) in
  (poolSize,
   if (poolSize >? minIdleWorkers) && (poolSize <=? prevLen) then
     match tryRecv (workerPool s) with
     | Some (id, c) => setHeap (alter closeShutdown id (heap s)) (setPool c s)
     | None => s
     end
   else s).

(** [NewWorkerShard]: the warmed workers are borrowed, then returned. *)
Fixpoint borrowN (n : nat) (bufferLen : Z) (s : WorkerShard) : list Z * WorkerShard :=
  match n with
  | O => ([], s)
  | S n' =>
      let '(id, s) := BorrowWorker bufferLen s in
      let '(ids, s) := borrowN n' bufferLen s in (id :: ids, s)
  end.

Definition NewWorkerShard (bufferLen poolSize : Z) (minIdleWorkers : nat) : WorkerShard :=
  let '(ids, s) := borrowN minIdleWorkers bufferLen (mkShard ∅ ∅ (makeChan poolSize) 0 false 0) in
  foldl (fun s id => ReturnWorker id s) s ids.

(** ** Dispatch ([processor.go], [processor_demux.go]) *)

(** The section of [SendToWorkerForProcessing] that holds the shard's mutex. *)
Inductive Dispatch :=
| Enqueued                   (* pipelined in the key's worker *)
| WorkerFull                 (* its channel is full: retry or give up *)
| Registered (id : Z).       (* a worker was borrowed and registered for the key *)

Definition dispatchLocked (bufferLen : Z) (key : string) (w : WorkItem) (s : WorkerShard)
    : Dispatch * WorkerShard :=
  match workers s !! key with
  | Some id =>
      match heap s !! id with
      | Some k =>
          let w := setMetrics (setQueueDepth (chLen (workItems k))) w in
          match trySend (workItems k) w with
          | Some c => (Enqueued, putWorker id (setItems c k) s)
          | None => (WorkerFull, s)
          end
      | None => (WorkerFull, s)
      end
  | None =>
      let '(id, s) := BorrowWorker bufferLen s in
      (Registered id,
       setWorkers (<[key := id]> (workers s)) (setHeap (alter (setActive true) id (heap s)) s))
  end.

(** The send after the unlock, to a worker just registered. *)
Definition sendFirst (id : Z) (w : WorkItem) (s : WorkerShard) : option WorkerShard :=
  k ← heap s !! id; c ← trySend (workItems k) w; Some (putWorker id (setItems c k) s).

(** ** The worker goroutine ([worker.go]) *)

Definition isOverflow (w : WorkItem) : bool := hasTrait (Traits (wiMetrics w)) UsedOverflow.

(** The receive of the cold path: the key and the token kind are cached. *)
Definition coldRecv (k : Worker) : option (WorkItem * Worker) :=
  match pc k with
  | Cold =>
      '(w, c) ← tryRecv (workItems k);
      Some (w, mkWorker c (IsActive k) (shutdown k) (Busy false w) (Key (wiMessage w)) (isOverflow w))
  | _ => None
  end.

(** The receive of the hot path. *)
Definition hotRecv (k : Worker) : option (WorkItem * Worker) :=
  match pc k with
  | Hot => '(w, c) ← tryRecv (workItems k); Some (w, setPc (Busy false w) (setItems c k))
  | _ => None
  end.

(** The fall-through: under the mutex, with an empty channel, the worker leaves
    the map. *)
Definition retire (id : Z) (s : WorkerShard) : option WorkerShard :=
  k ← heap s !! id;
  match pc k with
  | Hot =>
      if chLen (workItems k) =? 0 then
        Some (setWorkers (delete (partitionKey k) (workers s))
                (putWorker id (setActive false (setPc Releasing k)) s))
      else None
  | _ => None
  end.

(** ** The whole demultiplexer *)

(** The dispatching goroutine: the polling loop inside [Process]. *)
Inductive DispatchPc :=
| DIdle
| DGuarded (w : WorkItem)                     (* holds a token, about to look the key up *)
| DSending (i : nat) (id : Z) (w : WorkItem)  (* registered a worker, about to send *)
| DReleasing (overflow : bool).               (* enqueued: about to give its token back *)

(** [accepted]: the items given to a worker, in order; [started]: the items whose
    processing began, in order; [committedItems]: the calls of [collectAndCommit]. *)
Record Demux := mkDemux {
  workerShards : list WorkerShard;
  guardLen : Z;
  overflowLen : Z;
  dispatcher : DispatchPc;
  accepted : list WorkItem;
  started : list WorkItem;
  committedItems : list WorkItem;
  trippedBreaker : bool
}.

Definition setShard (i : nat) (s : WorkerShard) (d : Demux) : Demux :=
  mkDemux (<[i := s]> (workerShards d)) (guardLen d) (overflowLen d) (dispatcher d) (accepted d)
    (started d) (committedItems d) (trippedBreaker d).
Definition setDispatcher (p : DispatchPc) (d : Demux) : Demux :=
  mkDemux (workerShards d) (guardLen d) (overflowLen d) p (accepted d) (started d)
    (committedItems d) (trippedBreaker d).
Definition accept (w : WorkItem) (d : Demux) : Demux :=
  mkDemux (workerShards d) (guardLen d) (overflowLen d) (dispatcher d) (accepted d ++ [w]) (started d)
    (committedItems d) (trippedBreaker d).
Definition start (w : WorkItem) (d : Demux) : Demux :=
  mkDemux (workerShards d) (guardLen d) (overflowLen d) (dispatcher d) (accepted d) (started d ++ [w])
    (committedItems d) (trippedBreaker d).
Definition fate (f : ItemFate) (d : Demux) : Demux :=
  match f with
  | Skipped => d
  | BreakerTripped _ =>
      mkDemux (workerShards d) (guardLen d) (overflowLen d) (dispatcher d) (accepted d) (started d)
        (committedItems d) true
  | Committed w =>
      mkDemux (workerShards d) (guardLen d) (overflowLen d) (dispatcher d) (accepted d) (started d)
        (committedItems d ++ [w]) (trippedBreaker d)
  end.

(** Taking a token from, or putting one back in, [guard] or [overflowGuard]. *)
Definition addTokens (overflow : bool) (n : Z) (d : Demux) : Demux :=
  mkDemux (workerShards d) (if overflow then guardLen d else guardLen d + n)
    (if overflow then overflowLen d + n else overflowLen d) (dispatcher d) (accepted d) (started d)
    (committedItems d) (trippedBreaker d).

Definition keyOf (w : WorkItem) : string := Key (wiMessage w).

(** The shard of a key. *)
Definition shardOf (d : Demux) (key : string) : nat :=
  Z.to_nat (shardIndex (Z.of_nat (length (workerShards d))) key).

(** [workItem.WorkerPool = hashIndex] *)
Definition pooled (d : Demux) (w : WorkItem) : WorkItem :=
  mkWorkItem (ptr w) (wiMessage w) (wiMetrics w) (wiCtx w) (PreviousOffset w) (First w)
    (shardIndex (Z.of_nat (length (workerShards d))) (keyOf w)).

Section Steps.
Variables bufferLen guardCap overflowCap : Z.

(** The steps.  [Process] prefers [guard] and waits on both guards only when
    [guard] was full at its first look; by the time it takes an overflow token
    [guard] may have room again, so [AcquireOverflow] does not ask for it to be
    full.  A retry after [WorkerFull] leaves the dispatcher where it is.

    [processWorkItem] looks at [done] once, before the handler ([WorkerCheck]): a
    worker that saw it skips the item; one that did not goes on, whatever becomes of
    the shard meanwhile.  [WorkerFinish] is the end of the handlers together with the
    send to the committer's channel.  That channel is not part of this relation, which
    lets the send happen whenever the handlers are done; [Engine] has the channel and
    lets it happen only when there is room. *)

Inductive demuxStep (d : Demux) : Demux -> Prop :=
| AcquireGuard w :
    dispatcher d = DIdle -> guardLen d < guardCap -> isOverflow w = false ->
    demuxStep d (setDispatcher (DGuarded (pooled d w)) (addTokens false 1 d))
| AcquireOverflow w :
    dispatcher d = DIdle -> overflowLen d < overflowCap -> isOverflow w = false ->
    demuxStep d (setDispatcher (DGuarded (pooled d (mark SetUsedOverflow w))) (addTokens true 1 d))
| DispatchEnqueue w s s' :
    dispatcher d = DGuarded w -> workerShards d !! shardOf d (keyOf w) = Some s ->
    dispatchLocked bufferLen (keyOf w) w s = (Enqueued, s') ->
    demuxStep d (setDispatcher (DReleasing (isOverflow w))
                   (accept w (setShard (shardOf d (keyOf w)) s' d)))
| DispatchRegister w s id s' :
    dispatcher d = DGuarded w -> workerShards d !! shardOf d (keyOf w) = Some s ->
    dispatchLocked bufferLen (keyOf w) w s = (Registered id, s') ->
    demuxStep d (setDispatcher (DSending (shardOf d (keyOf w)) id w)
                   (accept w (setShard (shardOf d (keyOf w)) s' d)))
| DispatchGiveUp w s :
    dispatcher d = DGuarded w -> workerShards d !! shardOf d (keyOf w) = Some s ->
    (dispatchLocked bufferLen (keyOf w) w s).1 = WorkerFull -> shardDone s = true ->
    demuxStep d (setDispatcher DIdle (addTokens (isOverflow w) (-1) d))
| DispatchStall w s :
    dispatcher d = DGuarded w -> workerShards d !! shardOf d (keyOf w) = Some s ->
    (dispatchLocked bufferLen (keyOf w) w s).1 = WorkerFull -> shardDone s = false ->
    demuxStep d (fate (BreakerTripped w) d)
| DispatchSend i id w s s' :
    dispatcher d = DSending i id w -> workerShards d !! i = Some s -> sendFirst id w s = Some s' ->
    demuxStep d (setDispatcher DIdle (setShard i s' d))
| DispatchRelease ov :
    dispatcher d = DReleasing ov ->
    demuxStep d (setDispatcher DIdle (addTokens ov (-1) d))
| WorkerReceive i s id k w k' :
    workerShards d !! i = Some s -> heap s !! id = Some k ->
    coldRecv k = Some (w, k') \/ hotRecv k = Some (w, k') ->
    demuxStep d (start w (setShard i (putWorker id k' s) d))
| WorkerCheck i s id k w :
    workerShards d !! i = Some s -> heap s !! id = Some k -> pc k = Busy false w ->
    demuxStep d (setShard i (putWorker id (setPc (if shardDone s then Hot else Busy true w) k) s) d)
| WorkerFinish i s id k w app :
    workerShards d !! i = Some s -> heap s !! id = Some k -> pc k = Busy true w ->
    demuxStep d (fate (processWorkItem false w app) (setShard i (putWorker id (setPc Hot k) s) d))
| WorkerRetire i s id s' :
    workerShards d !! i = Some s -> retire id s = Some s' ->
    demuxStep d (setShard i s' d)
| WorkerRelease i s id k :
    workerShards d !! i = Some s -> heap s !! id = Some k -> pc k = Releasing ->
    demuxStep d (addTokens (usedOverflow k) (-1) (setShard i (putWorker id (setPc Returning k) s) d))
| WorkerReturn i s id k :
    workerShards d !! i = Some s -> heap s !! id = Some k -> pc k = Returning ->
    demuxStep d (setShard i (ReturnWorker id (putWorker id (setPc Cold k) s)) d)
| WorkerExit i s id k :
    workerShards d !! i = Some s -> heap s !! id = Some k -> pc k = Cold -> shutdown k = true ->
    demuxStep d (setShard i (putWorker id (setPc Exited k) s) d)
| PoolPrune i s minIdle prevLen :
    workerShards d !! i = Some s ->
    demuxStep d (setShard i (pruneTick minIdle prevLen s).2 d)
| ShardDone i s :
    workerShards d !! i = Some s -> demuxStep d (setShard i (setShardDone s) d).

End Steps.
End Demux.
