(* ===== verification/DemuxFacts.v ===== *)
(** * One shard: which worker serves which key

    [shardInv]: every registered worker serves one key, every other worker is
    idle, and the pool holds idle workers only.  Each lemma gives, for one action
    on a shard, that the invariant is kept, what happens to the items waiting per
    key, and how many tokens its workers hold. *)
From S2P Require Import Prelude Types Worker Demux.
From stdpp Require Import base gmap list strings relations.
Open Scope Z_scope.

Section DemuxFacts.
Context `{NX : Nexus}.
Variable bufferLen : Z.
Hypothesis bufferLen_pos : 1 <= bufferLen.
Implicit Types (s : WorkerShard) (k : Worker) (w : WorkItem) (id : Z) (key : string).

(** An item in transit from the dispatcher to a worker it has registered. *)
Abbreviation Pend := (option (Z * WorkItem)).

Definition pendFor (pend : Pend) id : list WorkItem :=
  match pend with Some (id', w) => if decide (id' = id) then [w] else [] | None => [] end.

(** [k], with the items [todo] in transit to it, serves [key]. *)
Record serving (key : string) (todo : list WorkItem) (k : Worker) : Prop := {
  sv_keys : forall w, w ∈ queued (workItems k) ++ todo -> keyOf w = key;
  sv_pc : match pc k with
          | Cold => queued (workItems k) ++ todo <> []
          | Busy _ w => partitionKey k = key /\ keyOf w = key
          | Hot => partitionKey k = key
          | _ => False
          end;
  sv_todo : todo <> [] -> pc k = Cold /\ queued (workItems k) = [];
  sv_live : shutdown k = false;
  sv_active : IsActive k = true
}.

Definition idle (k : Worker) : Prop :=
  queued (workItems k) = [] /\
  match pc k with
  | Cold | Exited => True
  | Releasing | Returning => shutdown k = false
  | _ => False
  end.

Record shardInv (s : WorkerShard) (pend : Pend) : Prop := {
  si_map : forall key id, workers s !! key = Some id ->
    exists k, heap s !! id = Some k /\ serving key (pendFor pend id) k;
  si_inj : forall key key' id, workers s !! key = Some id -> workers s !! key' = Some id -> key = key';
  si_idle : forall id k, heap s !! id = Some k -> (forall key, workers s !! key <> Some id) -> idle k;
  si_nodup : NoDup (queued (workerPool s));
  si_pool : forall id, id ∈ queued (workerPool s) ->
    (exists k, heap s !! id = Some k /\ pc k = Cold /\ shutdown k = false) /\
    forall key, workers s !! key <> Some id;
  si_fresh : forall id k, heap s !! id = Some k -> id < nextId s /\ chCap (workItems k) = bufferLen;
  si_pend : forall id w, pend = Some (id, w) -> workers s !! keyOf w = Some id;
  si_count : activeCount s = Z.of_nat (size (workers s))
}.

(** The items of a key that wait for its worker. *)
Definition waiting (s : WorkerShard) (pend : Pend) (key : string) : list WorkItem :=
  match workers s !! key with
  | Some id => match heap s !! id with Some k => queued (workItems k) | None => [] end ++ pendFor pend id
  | None => []
  end.

(** Whether a worker holds a token of the given kind: from the registration of
    its key to the release. *)
Definition holds (ov : bool) (todo : list WorkItem) (k : Worker) : bool :=
  match pc k with
  | Cold => match queued (workItems k) ++ todo with w :: _ => eqb (isOverflow w) ov | [] => false end
  | Busy _ _ | Hot | Releasing => eqb (usedOverflow k) ov
  | _ => false
  end.

Definition holders (ov : bool) (s : WorkerShard) (pend : Pend) : Z :=
  Z.of_nat (size (filter (fun ik => holds ov (pendFor pend ik.1) ik.2 = true) (heap s))).

Definition heldBy (ov : bool) (s : WorkerShard) (pend : Pend) (id : Z) : Z :=
  match heap s !! id with
  | Some k => Z.b2z (holds ov (pendFor pend id) k)
  | None => 0
  end.

(** Only the worker a step touches changes what its shard holds. *)
Lemma holders_split ov s pend id :
  holders ov s pend =
    heldBy ov s pend id +
    Z.of_nat (size (filter (fun ik => holds ov (pendFor pend ik.1) ik.2 = true) (delete id (heap s)))).
Proof.
  unfold holders, heldBy. destruct (heap s !! id) as [k|] eqn:E.
  - rewrite <- (insert_delete_id (heap s) id k E) at 1. 
    destruct (holds ov (pendFor pend id) k) eqn:H.
    + rewrite map_filter_insert_True by done. rewrite map_size_insert_None; [simpl; lia|].
      apply map_lookup_filter_None. left. apply lookup_delete_eq.
    + rewrite map_filter_insert_False by (simpl; congruence).
      rewrite delete_delete_eq. simpl. lia.
  - rewrite delete_id by done. lia.
Qed.

Lemma holders_update ov s s' pend pend' id :
  (forall j, j <> id -> heap s' !! j = heap s !! j /\ pendFor pend' j = pendFor pend j) ->
  holders ov s' pend' = holders ov s pend - heldBy ov s pend id + heldBy ov s' pend' id.
Proof.
  intros H. rewrite (holders_split ov s pend id), (holders_split ov s' pend' id).
  assert (E : filter (fun ik => holds ov (pendFor pend' ik.1) ik.2 = true) (delete id (heap s')) =
              filter (fun ik => holds ov (pendFor pend ik.1) ik.2 = true) (delete id (heap s))).
  { apply map_eq. intros j. destruct (decide (j = id)) as [->|Hne].
    - rewrite !map_lookup_filter, !lookup_delete_eq. done.
    - destruct (H j Hne) as [Hh Hp]. rewrite !map_lookup_filter, !lookup_delete_ne, Hh by done.
      destruct (heap s !! j) as [k|]; simpl; [|done]. by rewrite Hp. }
  rewrite E. lia.
Qed.

(** ** One worker object changes *)

Lemma putWorker_inv s pend pend' id k k' :
  shardInv s pend -> heap s !! id = Some k ->
  (forall key, workers s !! key = Some id -> serving key (pendFor pend' id) k') ->
  ((forall key, workers s !! key <> Some id) -> idle k') ->
  (id ∈ queued (workerPool s) -> pc k' = Cold /\ shutdown k' = false) ->
  chCap (workItems k') = bufferLen ->
  (forall j, j <> id -> pendFor pend' j = pendFor pend j) ->
  (forall j w, pend' = Some (j, w) -> workers s !! keyOf w = Some j) ->
  shardInv (putWorker id k' s) pend'.
Proof.
  intros [H1 H2 H3 H4 H5 H6 H7 H8] Hk Hserve Hidle Hpool Hcap Hpend Hp. split; simpl; try done.
  - intros key j Hj. destruct (decide (id = j)) as [<-|Hne].
    + rewrite lookup_insert_eq. eauto.
    + rewrite lookup_insert_ne, Hpend by done. by apply H1.
  - intros j kj. destruct (decide (id = j)) as [<-|Hne].
    + rewrite lookup_insert_eq. intros [= <-]. done.
    + rewrite lookup_insert_ne by done. apply H3.
  - intros j Hj. destruct (H5 j Hj) as [(kj & Hkj & Hc & Hs) Hm]. split; [|done].
    destruct (decide (id = j)) as [<-|Hne].
    + rewrite lookup_insert_eq. eauto.
    + rewrite lookup_insert_ne by done. eauto.
  - intros j kj. destruct (decide (id = j)) as [<-|Hne].
    + rewrite lookup_insert_eq. intros [= <-]. split; [by apply (H6 id k) | done].
    + rewrite lookup_insert_ne by done. apply H6.
Qed.

Lemma waiting_put s pend pend' id k k' key :
  shardInv s pend -> heap s !! id = Some k ->
  (forall j, j <> id -> pendFor pend' j = pendFor pend j) ->
  waiting (putWorker id k' s) pend' key =
    if decide (workers s !! key = Some id) then queued (workItems k') ++ pendFor pend' id
    else waiting s pend key.
Proof.
  intros Hi Hk Hpend. unfold waiting. simpl. case_decide as E.
  - by rewrite E, lookup_insert_eq.
  - destruct (workers s !! key) as [j|]; [|done].
    rewrite lookup_insert_ne, Hpend by congruence. done.
Qed.

Lemma holders_put ov s pend pend' id k k' :
  heap s !! id = Some k -> (forall j, j <> id -> pendFor pend' j = pendFor pend j) ->
  holders ov (putWorker id k' s) pend' =
    holders ov s pend - Z.b2z (holds ov (pendFor pend id) k) + Z.b2z (holds ov (pendFor pend' id) k').
Proof.
  intros Hk Hpend. rewrite (holders_update ov s (putWorker id k' s) pend pend' id).
  - unfold heldBy. simpl. by rewrite Hk, lookup_insert_eq.
  - intros j Hj. simpl. rewrite lookup_insert_ne by done. auto.
Qed.

(** ** Receiving *)

Lemma tryRecv_queue {A} (c c' : Chan A) x :
  tryRecv c = Some (x, c') -> queued c = x :: queued c' /\ chCap c' = chCap c.
Proof. unfold tryRecv. destruct (queued c) eqn:E; [done|]. by intros [= <- <-]. Qed.

Lemma trySend_queue {A} (c c' : Chan A) x :
  trySend c x = Some c' -> queued c' = queued c ++ [x] /\ chCap c' = chCap c.
Proof. unfold trySend. destruct (_ <? _); [|done]. by intros [= <-]. Qed.

Lemma recv_cases k w k' :
  coldRecv k = Some (w, k') \/ hotRecv k = Some (w, k') ->
  queued (workItems k) = w :: queued (workItems k') /\ chCap (workItems k') = chCap (workItems k) /\
  pc k' = Busy false w /\ shutdown k' = shutdown k /\ IsActive k' = IsActive k /\
  ((pc k = Cold /\ partitionKey k' = keyOf w /\ usedOverflow k' = isOverflow w) \/
   (pc k = Hot /\ partitionKey k' = partitionKey k /\ usedOverflow k' = usedOverflow k)).
Proof.
  unfold coldRecv, hotRecv. intros [H|H]; destruct (pc k) eqn:Epc; try done;
    (destruct (tryRecv (workItems k)) as [[x c]|] eqn:E; [|done]); simpl in H; injection H as <- <-;
    apply tryRecv_queue in E as [E Hc]; simpl; rewrite E; split_and!; try done; [by left | by right].
Qed.

Lemma registered_dec s id :
  (exists key, workers s !! key = Some id) \/ (forall key, workers s !! key <> Some id).
Proof.
  destruct (decide (Exists (fun kv => kv.2 = id) (map_to_list (workers s)))) as [He|Hno].
  - left. apply Exists_exists in He as ([key j] & Hin & <-). exists key. by apply elem_of_map_to_list.
  - right. intros key Hkey. apply Hno, Exists_exists. exists (key, id). by rewrite elem_of_map_to_list.
Qed.

(** The worker of a key, as the invariant describes it. *)
Lemma registered_serving s pend key id k :
  shardInv s pend -> workers s !! key = Some id -> heap s !! id = Some k ->
  serving key (pendFor pend id) k.
Proof.
  intros Hi Hm Hk. destruct (si_map _ _ Hi key id Hm) as (k0 & Hk0 & Hs). rewrite Hk in Hk0.
  by injection Hk0 as <-.
Qed.

(** A worker that is busy or has items waiting is registered. *)
Lemma working_registered s pend id k :
  shardInv s pend -> heap s !! id = Some k -> ~ idle k ->
  exists key, workers s !! key = Some id /\ serving key (pendFor pend id) k.
Proof.
  intros Hi Hk Hn. destruct (registered_dec s id) as [[key Hm]|Hno].
  - exists key. split; [done|]. by eapply registered_serving.
  - by destruct (Hn (si_idle _ _ Hi id k Hk Hno)).
Qed.

(** A registered worker is not in the pool. *)
Lemma registered_not_pooled s pend key id :
  shardInv s pend -> workers s !! key = Some id -> id ∉ queued (workerPool s).
Proof. intros Hi Hm Hin. by destruct (si_pool _ _ Hi id Hin) as [_ Hno]; destruct (Hno key). Qed.

(** The state of a shard after a step: the invariant, the items waiting, and the
    tokens held. *)
Definition shardEffect s pend s' pend' (wait : string -> list WorkItem) (dt : bool -> Z) : Prop :=
  shardInv s' pend' /\ (forall key, waiting s' pend' key = wait key) /\
  forall ov, holders ov s' pend' = holders ov s pend + dt ov.

Definition noTokens (ov : bool) : Z := 0.
Definition token (kind : bool) (n : Z) (ov : bool) : Z := if eqb kind ov then n else 0.

(** Taking the next item: it leaves the front of its key's line. *)
Lemma receive_effect s pend id k w k' :
  shardInv s pend -> heap s !! id = Some k ->
  coldRecv k = Some (w, k') \/ hotRecv k = Some (w, k') ->
  waiting s pend (keyOf w) = w :: tail (waiting s pend (keyOf w)) /\
  shardEffect s pend (putWorker id k' s) pend
    (fun key => if decide (key = keyOf w) then tail (waiting s pend key) else waiting s pend key) noTokens.
Proof.
  intros Hi Hk Hr. apply recv_cases in Hr as (Hq & Hcap & Hpc & Hsd & Hact & Hkind).
  assert (Hni : ~ idle k) by (intros [Hq0 _]; by rewrite Hq0 in Hq).
  destruct (working_registered s pend id k Hi Hk Hni) as (key & Hm & [Hkeys Hsv Htodo Hlive Hactive]).
  assert (Hkw : keyOf w = key) by (apply Hkeys; rewrite Hq; apply elem_of_app; left; left).
  assert (Hp : pendFor pend id = []).
  { destruct (pendFor pend id) eqn:E; [done|]. destruct Htodo as [_ Htodo]; [done|]. by rewrite Htodo in Hq. }
  assert (Hw : waiting s pend key = queued (workItems k)) by (unfold waiting; by rewrite Hm, Hk, Hp, app_nil_r).
  assert (Hpk : partitionKey k' = key).
  { destruct Hkind as [(Hc & E & _)|(Hc & E & _)]; rewrite E; [done|]. by rewrite Hc in Hsv. }
  split; [by rewrite Hkw, Hw, Hq|]. split_and!.
  - apply (putWorker_inv s pend pend id k k'); try done.
    + intros key' Hm'. rewrite (si_inj _ _ Hi key' key id Hm' Hm). rewrite Hp. split.
      * intros v Hv. rewrite app_nil_r in Hv. apply Hkeys. rewrite Hq, Hp, app_nil_r. by right.
      * by rewrite Hpc.
      * done.
      * by rewrite Hsd.
      * by rewrite Hact.
    + intros Hno. by destruct (Hno key).
    + intros Hin. by destruct (registered_not_pooled s pend key id Hi Hm).
    + rewrite Hcap. by apply (si_fresh _ _ Hi id).
    + apply (si_pend _ _ Hi).
  - intros key'. rewrite (waiting_put s pend pend id k k' key' Hi Hk) by done.
    destruct (decide (workers s !! key' = Some id)) as [Hm'|Hm'].
    + rewrite (si_inj _ _ Hi key' key id Hm' Hm), decide_True by done. rewrite Hw, Hq, Hp, app_nil_r. done.
    + rewrite decide_False; [done|]. intros ->. by rewrite Hkw in Hm'.
  - intros ov. rewrite (holders_put ov s pend pend id k k' Hk) by done. unfold holds, noTokens. rewrite Hpc.
    destruct Hkind as [(Hc & _ & E)|(Hc & _ & E)]; rewrite Hc, E, ?Hq; simpl; lia.
Qed.

(** A worker whose step changes neither its line nor its registration. *)
Lemma quiet_effect s pend id k k' dt :
  shardInv s pend -> heap s !! id = Some k ->
  workItems k' = workItems k ->
  (forall key, workers s !! key = Some id -> serving key (pendFor pend id) k') ->
  ((forall key, workers s !! key <> Some id) -> idle k') ->
  (id ∈ queued (workerPool s) -> pc k' = Cold /\ shutdown k' = false) ->
  (forall ov, Z.b2z (holds ov (pendFor pend id) k') = Z.b2z (holds ov (pendFor pend id) k) + dt ov) ->
  shardEffect s pend (putWorker id k' s) pend (waiting s pend) dt.
Proof.
  intros Hi Hk Hq Hsv Hid Hpool Hdt. split_and!.
  - apply (putWorker_inv s pend pend id k k'); try done.
    + rewrite Hq. by apply (si_fresh _ _ Hi id).
    + apply (si_pend _ _ Hi).
  - intros key. rewrite (waiting_put s pend pend id k k' key Hi Hk) by done. case_decide as Hm; [|done].
    unfold waiting. by rewrite Hm, Hk, Hq.
  - intros ov. rewrite (holders_put ov s pend pend id k k' Hk) by done. rewrite Hdt. lia.
Qed.

(** A worker inside [processWorkItem] goes on with its item, or is done with it. *)
Lemma finish_effect s pend id k b w p :
  shardInv s pend -> heap s !! id = Some k -> pc k = Busy b w -> p = Hot \/ p = Busy true w ->
  shardEffect s pend (putWorker id (setPc p k) s) pend (waiting s pend) noTokens.
Proof.
  intros Hi Hk Hpc Hp.
  assert (Hni : ~ idle k) by (intros [_ H]; by rewrite Hpc in H).
  destruct (working_registered s pend id k Hi Hk Hni) as (key & Hm & [Hkeys Hsv Htodo Hlive Hactive]).
  rewrite Hpc in Hsv. eapply quiet_effect; try done.
  - intros key' Hm'. rewrite (si_inj _ _ Hi key' key id Hm' Hm).
    split; try done; [by destruct Hp as [-> | ->]; apply Hsv|].
    intros Hne. destruct (Htodo Hne) as [E _]. by rewrite Hpc in E.
  - intros Hno. by destruct (Hno key).
  - intros Hin. by destruct (registered_not_pooled s pend key id Hi Hm).
  - intros ov. unfold holds, noTokens. simpl. rewrite Hpc. destruct Hp as [-> | ->]; lia.
Qed.

(** Steps of a worker that has left the map. *)
Lemma unregistered_steps s pend id k :
  shardInv s pend -> heap s !! id = Some k ->
  match pc k with Releasing | Returning | Exited => True | Cold => shutdown k = true | _ => False end ->
  (forall key, workers s !! key <> Some id) /\ (id ∉ queued (workerPool s)) /\ idle k.
Proof.
  intros Hi Hk Hpc.
  assert (Hno : forall key, workers s !! key <> Some id).
  { intros key Hm. destruct (registered_serving s pend key id k Hi Hm Hk) as [_ Hsv _ Hl _].
    destruct (pc k); try done. congruence. }
  split_and!; [done | |].
  - intros Hin. destruct (si_pool _ _ Hi id Hin) as [(k0 & Hk0 & Hc & Hs) _]. rewrite Hk in Hk0.
    injection Hk0 as <-. rewrite Hc in Hpc. congruence.
  - by apply (si_idle _ _ Hi id).
Qed.

Lemma pend_registered s pend id :
  shardInv s pend -> (forall key, workers s !! key <> Some id) -> pendFor pend id = [].
Proof.
  intros Hi Hno. unfold pendFor. destruct pend as [[j w]|] eqn:E; [|done]. case_decide; [|done]. subst.
  by destruct (Hno (keyOf w)); apply (si_pend _ _ Hi).
Qed.

Lemma release_effect s pend id k :
  shardInv s pend -> heap s !! id = Some k -> pc k = Releasing ->
  shardEffect s pend (putWorker id (setPc Returning k) s) pend (waiting s pend) (token (usedOverflow k) (-1)).
Proof.
  intros Hi Hk Hpc.
  destruct (unregistered_steps s pend id k Hi Hk) as (Hno & Hnp & Hq & Hlive); [by rewrite Hpc|].
  eapply quiet_effect; try done.
  - intros key Hm. by destruct (Hno key).
  - intros _. split; [done|]. simpl. by rewrite Hpc in Hlive.
  - intros ov. unfold holds, token. simpl. rewrite Hpc. destruct (eqb _ _); simpl; lia.
Qed.

Lemma exit_effect s pend id k :
  shardInv s pend -> heap s !! id = Some k -> pc k = Cold -> shutdown k = true ->
  shardEffect s pend (putWorker id (setPc Exited k) s) pend (waiting s pend) noTokens.
Proof.
  intros Hi Hk Hpc Hsd.
  destruct (unregistered_steps s pend id k Hi Hk) as (Hno & Hnp & Hq & Hlive); [by rewrite Hpc|].
  eapply quiet_effect; try done.
  - intros key Hm. by destruct (Hno key).
  - intros ov. unfold holds, noTokens. simpl. by rewrite Hpc, Hq, (pend_registered s pend id Hi Hno).
Qed.

(** ** The pool *)

Lemma setPool_inv s pend c :
  shardInv s pend -> NoDup (queued c) ->
  (forall id, id ∈ queued c ->
     (exists k, heap s !! id = Some k /\ pc k = Cold /\ shutdown k = false) /\
     forall key, workers s !! key <> Some id) ->
  shardInv (setPool c s) pend.
Proof. intros [H1 H2 H3 H4 H5 H6 H7 H8] Hd Hp. by split. Qed.

Lemma alter_put id f k s : heap s !! id = Some k -> setHeap (alter f id (heap s)) s = putWorker id (f k) s.
Proof.
  intros Hk. unfold putWorker. f_equal. apply map_eq. intros j. destruct (decide (id = j)) as [<-|Hne].
  - by rewrite lookup_alter_eq, lookup_insert_eq, Hk.
  - by rewrite lookup_alter_ne, lookup_insert_ne.
Qed.

(** Closing the shutdown channel of a worker that waits outside the pool. *)
Lemma close_effect s pend id k :
  shardInv s pend -> heap s !! id = Some k -> pc k = Cold ->
  (forall key, workers s !! key <> Some id) -> id ∉ queued (workerPool s) ->
  shardEffect s pend (putWorker id (closeShutdown k) s) pend (waiting s pend) noTokens.
Proof.
  intros Hi Hk Hpc Hno Hnp. destruct (si_idle _ _ Hi id k Hk Hno) as [Hq _].
  eapply quiet_effect; try done.
  - intros key Hm. by destruct (Hno key).
  - intros _. split; [done|]. simpl. by rewrite Hpc.
  - intros ov. unfold holds, noTokens. simpl. lia.
Qed.

Lemma shardEffect_trans s1 p1 s2 p2 s3 p3 dt (wait2 wait3 : string -> list WorkItem) :
  shardEffect s1 p1 s2 p2 wait2 dt -> shardEffect s2 p2 s3 p3 wait3 noTokens ->
  shardEffect s1 p1 s3 p3 wait3 dt.
Proof.
  intros (_ & _ & H12) (Hi & Hw & H23). split_and!; [done | done |].
  intros ov. rewrite H23, H12. unfold noTokens. lia.
Qed.

Lemma return_effect s pend id k :
  shardInv s pend -> heap s !! id = Some k -> pc k = Returning ->
  shardEffect s pend (ReturnWorker id (putWorker id (setPc Cold k) s)) pend (waiting s pend) noTokens.
Proof.
  intros Hi Hk Hpc.
  destruct (unregistered_steps s pend id k Hi Hk) as (Hno & Hnp & Hq & Hlive); [by rewrite Hpc|].
  rewrite Hpc in Hlive.
  assert (He : shardEffect s pend (putWorker id (setPc Cold k) s) pend (waiting s pend) noTokens).
  { eapply quiet_effect; try done.
    - intros key Hm. by destruct (Hno key).
    - intros ov. unfold holds, noTokens. simpl. by rewrite Hpc, Hq, (pend_registered s pend id Hi Hno). }
  pose proof He as (Hi1 & Hw1 & Ht1). unfold ReturnWorker.
  destruct (trySend (workerPool _) id) as [c|] eqn:Es.
  - apply trySend_queue in Es as [Ec _]. split_and!; [|done|done].
    apply setPool_inv; [done | |]; rewrite Ec.
    + apply NoDup_app. split_and!; [apply Hi1 | | apply NoDup_singleton].
      intros j Hj ->%list_elem_of_singleton. done.
    + intros j [Hj|Hj]%elem_of_app; [by apply (si_pool _ _ Hi1)|]. apply list_elem_of_singleton in Hj as ->.
      split; [|done]. simpl. rewrite lookup_insert_eq. by exists (setPc Cold k).
  - rewrite (alter_put id closeShutdown (setPc Cold k)) by (simpl; by rewrite lookup_insert_eq).
    eapply shardEffect_trans; [exact He|].
    destruct (close_effect (putWorker id (setPc Cold k) s) pend id (setPc Cold k)) as (Hi2 & Hw2 & Ht2); try done.
    { simpl. by rewrite lookup_insert_eq. }
    split_and!; [done | intros key; by rewrite Hw2, Hw1 | done].
Qed.

Lemma prune_effect s pend minIdle prevLen :
  shardInv s pend ->
  shardEffect s pend (pruneTick minIdle prevLen s).2 pend (waiting s pend) noTokens.
Proof.
  intros Hi.
  assert (Hrefl : shardEffect s pend s pend (waiting s pend) noTokens)
    by (split_and!; [done | done | intros ov; unfold noTokens; lia]).
  unfold pruneTick. simpl. destruct (_ && _); [|done].
  destruct (tryRecv (workerPool s)) as [[id c]|] eqn:Er; [|done].
  apply tryRecv_queue in Er as [Eq _].
  pose proof (si_nodup _ _ Hi) as Hnd. rewrite Eq in Hnd. apply NoDup_cons in Hnd as [Hni Hnd].
  destruct (si_pool _ _ Hi id) as [(k & Hk & Hpc & Hl) Hno]; [rewrite Eq; by left|].
  assert (Hi1 : shardInv (setPool c s) pend).
  { apply setPool_inv; [done | done |]. intros j Hj. apply (si_pool _ _ Hi). rewrite Eq. by right. }
  change (heap s) with (heap (setPool c s)). rewrite (alter_put id closeShutdown k (setPool c s)) by done.
  by apply (close_effect (setPool c s) pend id k).
Qed.

Lemma done_effect s pend :
  shardInv s pend -> shardEffect s pend (setShardDone s) pend (waiting s pend) noTokens.
Proof. intros []. split_and!; [by split | done | intros ov; unfold noTokens, holders; simpl; lia]. Qed.

(** ** Registration *)

(** The shard after [key] is registered with the worker [id]. *)
Definition registered s key id : WorkerShard :=
  setWorkers (<[key := id]> (workers s)) (setHeap (alter (setActive true) id (heap s)) s).

Lemma registered_heap s key id k :
  heap s !! id = Some k ->
  heap (registered s key id) !! id = Some (setActive true k) /\
  forall j, j <> id -> heap (registered s key id) !! j = heap s !! j.
Proof.
  intros Hk. split; [simpl; by rewrite lookup_alter_eq, Hk|]. intros j Hj. simpl. by rewrite lookup_alter_ne.
Qed.

Lemma pendFor_sent id w :
  pendFor (Some (id, w)) id = [w] /\ forall j, j <> id -> pendFor (Some (id, w)) j = [].
Proof. split; [simpl; by rewrite decide_True|]. intros j Hj. simpl. by rewrite decide_False. Qed.

Lemma register_inv s id k key w :
  shardInv s None -> heap s !! id = Some k -> pc k = Cold -> shutdown k = false ->
  (forall key, workers s !! key <> Some id) -> id ∉ queued (workerPool s) ->
  workers s !! key = None -> keyOf w = key ->
  shardInv (registered s key id) (Some (id, w)).
Proof.
  intros Hi Hk Hpc Hl Hno Hnp Hm Hkw. destruct (si_idle _ _ Hi id k Hk Hno) as [Hq _].
  destruct (registered_heap s key id k Hk) as [Hh Hh']. destruct (pendFor_sent id w) as [Hp Hp'].
  set (s' := registered s key id) in *. destruct Hi as [H1 H2 H3 H4 H5 H6 H7 H8]. split.
  - intros key' j. change (workers s') with (<[key := id]> (workers s)).
    destruct (decide (key = key')) as [<-|Hne].
    + rewrite lookup_insert_eq. intros [= <-]. eexists. split; [exact Hh|]. rewrite Hp. split; simpl.
      * rewrite Hq. simpl. intros v ->%list_elem_of_singleton. done.
      * by rewrite Hpc, Hq.
      * done.
      * done.
      * done.
    + rewrite lookup_insert_ne by done. intros Hj. destruct (H1 key' j Hj) as (kj & Hkj & Hs).
      assert (Hji : j <> id) by (intros ->; by destruct (Hno key')).
      exists kj. rewrite Hp' by done. by rewrite <- (Hh' j Hji) in Hkj.
  - simpl. intros key1 key2 j. rewrite !lookup_insert.
    repeat case_decide; subst; try done; intros; simplify_eq; try done.
    + by destruct (Hno key2).
    + by destruct (Hno key1).
    + by eapply H2.
  - intros j kj Hj Hnj. destruct (decide (j = id)) as [->|Hne].
    + destruct (Hnj key). simpl. by rewrite lookup_insert_eq.
    + rewrite Hh' in Hj by done. apply (H3 j); [done|]. intros key' Hm'. apply (Hnj key'). simpl.
      rewrite lookup_insert_ne; [done|]. intros <-. by rewrite Hm in Hm'.
  - done.
  - intros j Hj. destruct (H5 j Hj) as [(kj & Hkj & Hc) Hnj].
    assert (Hji : j <> id) by (by intros ->). split; [exists kj; by rewrite Hh'|].
    intros key'. simpl. rewrite lookup_insert. case_decide; [congruence | apply Hnj].
  - intros j kj Hj. destruct (decide (j = id)) as [->|Hne].
    + rewrite Hh in Hj. injection Hj as <-. by apply (H6 id k).
    + rewrite Hh' in Hj by done. by apply (H6 j).
  - intros j v [= <- <-]. simpl. by rewrite Hkw, lookup_insert_eq.
  - done.
Qed.

(** An empty worker outside the pool is registered for a key, with its first item
    in transit. *)
Lemma register_effect s id k key w :
  shardInv s None -> heap s !! id = Some k -> pc k = Cold -> shutdown k = false ->
  (forall key, workers s !! key <> Some id) -> id ∉ queued (workerPool s) ->
  workers s !! key = None -> keyOf w = key ->
  shardEffect s None (registered s key id) (Some (id, w))
    (fun key' => if decide (key' = key) then [w] else waiting s None key') (token (isOverflow w) 1).
Proof.
  intros Hi Hk Hpc Hl Hno Hnp Hm Hkw. destruct (si_idle _ _ Hi id k Hk Hno) as [Hq _].
  destruct (registered_heap s key id k Hk) as [Hh Hh']. destruct (pendFor_sent id w) as [Hp Hp'].
  split_and!; [by apply (register_inv s id k)|..].
  - intros key'. unfold waiting. simpl. rewrite lookup_insert. destruct (decide (key = key')) as [<-|Hne].
    + rewrite decide_True by done. rewrite lookup_alter_eq, Hk, decide_True by done. simpl. by rewrite Hq.
    + rewrite decide_False by done. destruct (workers s !! key') as [j|] eqn:E; [|done].
      assert (Hji : j <> id) by (intros ->; by destruct (Hno key')).
      rewrite lookup_alter_ne, decide_False by done. done.
  - intros ov. rewrite (holders_update ov s (registered s key id) None (Some (id, w)) id).
    + unfold heldBy. rewrite Hh, Hk, Hp. unfold holds, token. simpl. rewrite Hpc, Hq. simpl.
      destruct (eqb _ _); simpl; lia.
    + intros j Hj. rewrite Hh', Hp' by done. done.
Qed.

(** The worker borrowed is idle, outside the pool and the map. *)
Lemma borrow_effect s :
  shardInv s None ->
  let '(id, s') := BorrowWorker bufferLen s in
  shardEffect s None s' None (waiting s None) noTokens /\ workers s' = workers s /\
  (exists k, heap s' !! id = Some k /\ pc k = Cold /\ shutdown k = false) /\
  (forall key, workers s' !! key <> Some id) /\ (id ∉ queued (workerPool s')).
Proof.
  intros Hi. unfold BorrowWorker. destruct (tryRecv (workerPool s)) as [[id c]|] eqn:Er.
  - apply tryRecv_queue in Er as [Eq _].
    pose proof (si_nodup _ _ Hi) as Hnd. rewrite Eq in Hnd. apply NoDup_cons in Hnd as [Hni Hnd].
    destruct (si_pool _ _ Hi id) as [Hk Hno]; [rewrite Eq; by left|].
    split_and!; try done. split_and!; [|done | intros ov; unfold noTokens, holders; simpl; lia].
    apply setPool_inv; [done | done |]. intros j Hj. apply (si_pool _ _ Hi). rewrite Eq. by right.
  - unfold createWorker. assert (Hf : heap s !! nextId s = None).
    { destruct (heap s !! nextId s) as [k|] eqn:E; [|done].
      destruct (si_fresh _ _ Hi _ _ E). lia. }
    assert (Hno : forall key, workers s !! key <> Some (nextId s)).
    { intros key Hm. destruct (si_map _ _ Hi key _ Hm) as (k & Hk & _). congruence. }
    assert (Hnp : nextId s ∉ queued (workerPool s)).
    { intros Hin. destruct (si_pool _ _ Hi _ Hin) as [(k & Hk & _) _]. congruence. }
    destruct Hi as [H1 H2 H3 H4 H5 H6 H7 H8].
    split_and!; try done; [split_and!|exists (NewWorker bufferLen); simpl; by rewrite lookup_insert_eq].
    + split; simpl; try done.
      * intros key j Hj. rewrite lookup_insert_ne by (intros <-; by destruct (Hno key)). by apply H1.
      * intros j kj. rewrite lookup_insert. case_decide; [intros [= <-] _; done | apply H3].
      * intros j Hj. rewrite lookup_insert_ne by (intros <-; done). by apply H5.
      * intros j kj. rewrite lookup_insert. case_decide; [intros [= <-]; simpl; subst; split; [lia | done]|].
        intros Hj. destruct (H6 j kj Hj). split; [lia | done].
    + intros key. unfold waiting. simpl. destruct (workers s !! key) as [j|] eqn:E; [|done].
      by rewrite lookup_insert_ne by (intros <-; by destruct (Hno key)).
    + intros ov. rewrite (holders_update ov s _ None None (nextId s)).
      * unfold heldBy. simpl. rewrite Hf, lookup_insert_eq. unfold noTokens. simpl. lia.
      * intros j Hj. simpl. by rewrite lookup_insert_ne.
Qed.

(** ** Dispatch *)

(** The item as it is queued: only its queue depth is new. *)
Definition queuedAs (w w' : WorkItem) : Prop :=
  core w' = core w /\ keyOf w' = keyOf w /\ isOverflow w' = isOverflow w.

Lemma enqueue_effect s key w s' :
  shardInv s None -> keyOf w = key -> dispatchLocked bufferLen key w s = (Enqueued, s') ->
  exists w', queuedAs w w' /\
    shardEffect s None s' None
      (fun key' => if decide (key' = key) then waiting s None key' ++ [w'] else waiting s None key') noTokens.
Proof.
  intros Hi Hkw. unfold dispatchLocked. destruct (workers s !! key) as [id|] eqn:Hm.
  2: { destruct (BorrowWorker bufferLen s). done. }
  destruct (heap s !! id) as [k|] eqn:Hk; [|done].
  set (w' := setMetrics _ w). destruct (trySend (workItems k) w') as [c|] eqn:Es; [|done].
  intros [= <-]. apply trySend_queue in Es as [Eq Ec]. exists w'. split; [done|].
  destruct (registered_serving s None key id k Hi Hm Hk) as [Hkeys Hsv Htodo Hlive Hactive]. simpl in Hkeys.
  split_and!.
  - apply (putWorker_inv s None None id k); try done.
    + intros key' Hm'. rewrite (si_inj _ _ Hi key' key id Hm' Hm). split; simpl; try done.
      * rewrite Eq. intros v. rewrite app_nil_r. intros [Hv|Hv]%elem_of_app.
        -- apply Hkeys. by rewrite app_nil_r.
        -- by apply list_elem_of_singleton in Hv as ->.
      * destruct (pc k); try done. rewrite Eq. by destruct (queued (workItems k)).
    + intros Hno. by destruct (Hno key).
    + intros Hin. by destruct (registered_not_pooled s None key id Hi Hm).
    + simpl. rewrite Ec. by apply (si_fresh _ _ Hi id).
  - intros key'. rewrite (waiting_put s None None id k _ key' Hi Hk) by done.
    destruct (decide (workers s !! key' = Some id)) as [Hm'|Hm'].
    + rewrite (si_inj _ _ Hi key' key id Hm' Hm), decide_True by done. unfold waiting.
      rewrite Hm, Hk. simpl. by rewrite Eq, !app_nil_r.
    + rewrite decide_False; [done|]. by intros ->.
  - intros ov. rewrite (holders_put ov s None None id k _ Hk) by done. unfold holds, noTokens. simpl.
    destruct (pc k); simpl; try lia. rewrite Eq, !app_nil_r. simpl in Hsv. rewrite app_nil_r in Hsv.
    destruct (queued (workItems k)); [done|]. simpl. lia.
Qed.

Lemma dispatch_register_effect s key w id s' :
  shardInv s None -> keyOf w = key -> dispatchLocked bufferLen key w s = (Registered id, s') ->
  waiting s None key = [] /\
  shardEffect s None s' (Some (id, w))
    (fun key' => if decide (key' = key) then [w] else waiting s None key') (token (isOverflow w) 1).
Proof.
  intros Hi Hkw. unfold dispatchLocked. destruct (workers s !! key) as [id0|] eqn:Hm.
  { destruct (heap s !! id0); [|done]. by destruct (trySend _ _). }
  pose proof (borrow_effect s Hi) as HB. destruct (BorrowWorker bufferLen s) as [id1 s1].
  intros [= -> <-]. destruct HB as ((Hi1 & Hw1 & Ht1) & HW & (k & Hk & Hpc & Hl) & Hno & Hnp).
  split; [unfold waiting; by rewrite Hm|].
  destruct (register_effect s1 id k key w Hi1 Hk Hpc Hl Hno Hnp) as (Hi2 & Hw2 & Ht2); [by rewrite HW | done |].
  split_and!; [done | |].
  - intros key'. rewrite Hw2. by destruct (decide (key' = key)).
  - intros ov. rewrite Ht2, Ht1. unfold noTokens. lia.
Qed.

Lemma sendFirst_effect s id w s' :
  shardInv s (Some (id, w)) -> sendFirst id w s = Some s' ->
  shardEffect s (Some (id, w)) s' None (waiting s (Some (id, w))) noTokens.
Proof.
  intros Hi Hs. unfold sendFirst in Hs. destruct (heap s !! id) as [k|] eqn:Hk; [|done]. simpl in Hs.
  destruct (trySend (workItems k) w) as [c|] eqn:Es; [|done]. simpl in Hs. injection Hs as <-.
  apply trySend_queue in Es as [Eq Ec].
  pose proof (si_pend _ _ Hi id w eq_refl) as Hm.
  destruct (registered_serving s _ (keyOf w) id k Hi Hm Hk) as [Hkeys Hsv Htodo Hlive Hactive].
  assert (Hp : pendFor (Some (id, w)) id = [w]) by (simpl; by rewrite decide_True).
  assert (Hp' : forall j, j <> id -> pendFor None j = pendFor (Some (id, w)) j)
    by (intros j Hj; simpl; by rewrite decide_False).
  rewrite Hp in *. destruct Htodo as [Hpc Hq]; [done|].
  split_and!.
  - apply (putWorker_inv s (Some (id, w)) None id k); try done.
    + intros key' Hm'. rewrite (si_inj _ _ Hi key' _ id Hm' Hm). split; simpl; try done.
      * rewrite Eq, Hq. intros v ->%list_elem_of_singleton. done.
      * by rewrite Hpc, Eq, Hq.
    + intros Hno. by destruct (Hno (keyOf w)).
    + simpl. rewrite Ec. by apply (si_fresh _ _ Hi id).
  - intros key'. rewrite (waiting_put s (Some (id, w)) None id k _ key' Hi Hk) by done.
    case_decide as Hm'; [|done]. unfold waiting. rewrite Hm', Hk, Hp. simpl. by rewrite Eq, app_nil_r.
  - intros ov. rewrite (holders_put ov s (Some (id, w)) None id k _ Hk) by done. rewrite Hp.
    unfold holds, noTokens. simpl. rewrite Hpc, Eq, Hq. simpl. lia.
Qed.

(** The send to a registered worker never blocks: its channel is empty. *)
Lemma sendFirst_total s id w :
  shardInv s (Some (id, w)) -> exists s', sendFirst id w s = Some s'.
Proof.
  intros Hi. pose proof (si_pend _ _ Hi id w eq_refl) as Hm.
  destruct (si_map _ _ Hi _ _ Hm) as (k & Hk & [_ _ Htodo _]). unfold sendFirst. rewrite Hk. simpl.
  destruct Htodo as [_ Hq]; [simpl; by rewrite decide_True|].
  destruct (si_fresh _ _ Hi id k Hk) as [_ Hc].
  assert (Hs : trySend (workItems k) w = Some (mkChan [w] bufferLen)).
  { unfold trySend, chLen. rewrite Hq, Hc. change (Z.of_nat (length (@nil WorkItem))) with 0. destruct (Z.ltb_spec 0 bufferLen); [done | lia]. }
  rewrite Hs. by eexists.
Qed.

Lemma retire_effect s pend id s' :
  shardInv s pend -> retire id s = Some s' -> shardEffect s pend s' pend (waiting s pend) noTokens.
Proof.
  intros Hi Hr. unfold retire in Hr. destruct (heap s !! id) as [k|] eqn:Hk; [|done]. simpl in Hr.
  destruct (pc k) eqn:Hpc; try done. destruct (Z.eqb_spec (chLen (workItems k)) 0) as [Hq|]; [|done].
  injection Hr as <-. unfold chLen in Hq.
  assert (Hq' : queued (workItems k) = []) by (destruct (queued (workItems k)); [done | simpl in Hq; lia]).
  assert (Hni : ~ idle k) by (intros [_ H]; by rewrite Hpc in H).
  destruct (working_registered s pend id k Hi Hk Hni) as (key & Hm & [Hkeys Hsv Htodo Hlive Hactive]).
  rewrite Hpc in Hsv. rewrite Hsv.
  assert (Hp : pendFor pend id = []).
  { destruct (pendFor pend id) eqn:E; [done|]. destruct Htodo as [Hc _]; [done|]. by rewrite Hpc in Hc. }
  destruct Hi as [H1 H2 H3 H4 H5 H6 H7 H8]. split_and!; [split; simpl|..]; try done.
  - intros key' j. rewrite lookup_delete. case_decide as Hd; [done|]. intros Hj.
    assert (Hne : id <> j) by (intros <-; apply Hd; by eapply H2).
    rewrite lookup_insert_ne by done. by apply H1.
  - intros key1 key2 j. rewrite !lookup_delete. repeat case_decide; try done. apply H2.
  - intros j kj. rewrite lookup_insert. case_decide as Hd.
    + intros [= <-] _. done.
    + intros Hj Hnj. apply (H3 j); [done|]. intros key' Hm'. apply (Hnj key'). rewrite lookup_delete_ne; [done|].
      intros <-. congruence.
  - intros j Hj. destruct (H5 j Hj) as [(kj & Hkj & Hc) Hnj]. split.
    + rewrite lookup_insert_ne by (intros <-; by destruct (Hnj key)). eauto.
    + intros key'. rewrite lookup_delete. case_decide; [done | apply Hnj].
  - intros j kj. rewrite lookup_insert. case_decide; [intros [= <-]; subst; by apply (H6 j k) | apply H6].
  - intros j w Hw. specialize (H7 j w Hw). rewrite lookup_delete_ne; [done|].
    intros Hkw. rewrite <- Hkw, Hm in H7. injection H7 as <-. rewrite Hw in Hp. simpl in Hp.
    by rewrite decide_True in Hp.
  - intros key'. unfold waiting. simpl. rewrite lookup_delete. destruct (decide (key = key')) as [<-|Hne].
    + by rewrite Hm, Hk, Hq', Hp.
    + destruct (workers s !! key') as [j|] eqn:E; [|done].
      rewrite lookup_insert_ne; [done|]. intros <-. apply Hne. by eapply H2.
  - intros ov. rewrite (holders_update ov s _ pend pend id).
    + unfold heldBy. simpl. rewrite Hk, lookup_insert_eq. unfold holds, noTokens. simpl. rewrite Hpc. lia.
    + intros j Hj. simpl. by rewrite lookup_insert_ne.
Qed.

(** ** A new shard *)

Definition unused s id : Prop :=
  (exists k, heap s !! id = Some k /\ pc k = Cold /\ shutdown k = false) /\
  (forall key, workers s !! key <> Some id) /\ (id ∉ queued (workerPool s)).

Lemma borrow_keeps s id :
  shardInv s None -> unused s id ->
  unused (BorrowWorker bufferLen s).2 id /\ (BorrowWorker bufferLen s).1 <> id.
Proof.
  intros Hi ((k & Hk & Hc) & Hno & Hnp). unfold BorrowWorker.
  destruct (tryRecv (workerPool s)) as [[j c]|] eqn:Er; simpl.
  - apply tryRecv_queue in Er as [Eq _]. rewrite Eq in Hnp. apply not_elem_of_cons in Hnp as [Hne Hnp].
    split; [|congruence]. split_and!; [by exists k | done | done].
  - destruct (si_fresh _ _ Hi id k Hk) as [Hlt _]. split; [|lia].
    split_and!; [|done|done]. exists k. simpl. by rewrite lookup_insert_ne by lia.
Qed.

Lemma borrowN_inv n s :
  shardInv s None ->
  let '(ids, s') := borrowN n bufferLen s in
  shardInv s' None /\ workers s' = workers s /\ NoDup ids /\ Forall (unused s') ids /\
  (forall ov, holders ov s' None = holders ov s None) /\
  forall id, unused s id -> unused s' id /\ (id ∉ ids).
Proof.
  revert s. induction n as [|n IH]; intros s Hi; simpl.
  { split_and!; try done; [apply NoDup_nil_2|]. intros id Hu. split; [done | apply not_elem_of_nil]. }
  pose proof (borrow_effect s Hi) as HB. pose proof (borrow_keeps s) as HK.
  destruct (BorrowWorker bufferLen s) as [id s1]. destruct HB as ((Hi1 & _ & Ht1) & HW1 & Hk1 & Hno1 & Hnp1).
  assert (Hu1 : unused s1 id) by done.
  specialize (IH s1 Hi1). destruct (borrowN n bufferLen s1) as [ids s2].
  destruct IH as (Hi2 & HW2 & Hnd & Hall & Ht2 & Hkeep). destruct (Hkeep id Hu1) as [Hu2 Hni].
  split_and!; try done.
  - by rewrite HW2.
  - by constructor.
  - by constructor.
  - intros ov. rewrite Ht2, Ht1. unfold noTokens. lia.
  - intros j Hj. destruct (HK j Hi Hj) as [Hj1 Hne]. destruct (Hkeep j Hj1) as [Hj2 Hnj].
    split; [done|]. apply not_elem_of_cons. simpl in Hne. split; [congruence | done].
Qed.

Lemma return_unused s id :
  shardInv s None -> unused s id ->
  shardInv (ReturnWorker id s) None /\ workers (ReturnWorker id s) = workers s /\
  (forall ov, holders ov (ReturnWorker id s) None = holders ov s None) /\
  forall j, j <> id -> unused s j -> unused (ReturnWorker id s) j.
Proof.
  intros Hi ((k & Hk & Hc & Hl) & Hno & Hnp). unfold ReturnWorker.
  destruct (trySend (workerPool s) id) as [c|] eqn:Es.
  - apply trySend_queue in Es as [Ec _]. split_and!; try done.
    + apply setPool_inv; [done | |]; rewrite Ec.
      * apply NoDup_app. split_and!; [apply Hi | | apply NoDup_singleton].
        intros j Hj ->%list_elem_of_singleton. done.
      * intros j [Hj|Hj]%elem_of_app; [by apply (si_pool _ _ Hi)|]. apply list_elem_of_singleton in Hj as ->.
        split; [by exists k | done].
    + intros j Hne (Hkj & Hnoj & Hnpj). split_and!; try done. simpl. rewrite Ec.
      intros [?|Hj]%elem_of_app; [done|]. by apply list_elem_of_singleton in Hj.
  - rewrite (alter_put id closeShutdown k s Hk).
    destruct (close_effect s None id k Hi Hk Hc Hno Hnp) as (Hi' & _ & Ht). split_and!; try done.
    + intros ov. rewrite Ht. unfold noTokens. lia.
    + intros j Hne ((kj & Hkj & Hcj) & Hnoj & Hnpj). split_and!; try done.
      exists kj. simpl. by rewrite lookup_insert_ne.
Qed.

Lemma returnAll_inv ids s :
  shardInv s None -> NoDup ids -> Forall (unused s) ids ->
  let s' := foldl (fun s id => ReturnWorker id s) s ids in
  shardInv s' None /\ workers s' = workers s /\ forall ov, holders ov s' None = holders ov s None.
Proof.
  revert s. induction ids as [|id ids IH]; intros s Hi Hnd Hall; simpl; [done|].
  apply NoDup_cons in Hnd as [Hni Hnd]. apply Forall_cons in Hall as [Hu Hall].
  destruct (return_unused s id Hi Hu) as (Hi1 & HW1 & Ht1 & Hkeep).
  destruct (IH (ReturnWorker id s)) as (Hi2 & HW2 & Ht2); try done.
  - rewrite Forall_forall in *. intros j Hj. apply Hkeep; [by intros -> | by apply Hall].
  - split_and!; [done | by rewrite HW2 | intros ov; by rewrite Ht2, Ht1].
Qed.

Lemma NewWorkerShard_inv poolSize minIdle :
  let s := NewWorkerShard bufferLen poolSize minIdle in
  shardInv s None /\ workers s = ∅ /\ forall ov, holders ov s None = 0.
Proof.
  intros s. unfold s, NewWorkerShard. set (s0 := mkShard ∅ ∅ (makeChan poolSize) 0 false 0).
  assert (H0 : shardInv s0 None).
  { split; simpl; try done; [apply NoDup_nil_2|]. intros id Hin. by apply not_elem_of_nil in Hin. }
  pose proof (borrowN_inv minIdle s0 H0) as HB. destruct (borrowN minIdle bufferLen s0) as [ids s1].
  destruct HB as (Hi1 & HW1 & Hnd & Hall & Ht1 & _).
  destruct (returnAll_inv ids s1 Hi1 Hnd Hall) as (Hi2 & HW2 & Ht2).
  split_and!; [done | by rewrite HW2, HW1 |]. intros ov. rewrite Ht2, Ht1. unfold holders. simpl.
  by rewrite map_filter_empty, map_size_empty.
Qed.

End DemuxFacts.
