(* ===== verification/DemuxTheorems.v ===== *)
(** * Correctness of the demultiplexer

    Per-key order, exclusive processing of a key, the concurrency bound of the
    guard tokens, the absence of token leaks, and what an empty worker map means
    to a drain, over every interleaving of the dispatcher, the workers, the pool
    pruning and the circuit breaker. *)
From S2P Require Import Prelude Types Fnv Worker Demux DemuxFacts.
From stdpp Require Import base gmap list strings relations.
Open Scope Z_scope.

(** ** Sums over shards *)

Section Totals.
Context {A : Type}.

Fixpoint total (f : nat -> A -> Z) (l : list A) : Z :=
  match l with
  | [] => 0
  | x :: l' => f O x + total (fun i => f (S i)) l'
  end.

Lemma total_ext f g l : (forall i x, l !! i = Some x -> f i x = g i x) -> total f l = total g l.
Proof.
  revert f g. induction l as [|x l IH]; intros f g H; simpl; [done|].
  rewrite (H O x eq_refl), (IH (fun i => f (S i)) (fun i => g (S i))); [done|]. intros i y Hy. by apply H.
Qed.

Lemma total_insert f g l i x y :
  l !! i = Some x -> (forall j z, j <> i -> g j z = f j z) ->
  total g (<[i := y]> l) = total f l - f i x + g i y.
Proof.
  revert f g i. induction l as [|a l IH]; intros f g i Hi Hne; [done|]. destruct i as [|i]; simpl in *.
  - injection Hi as ->. rewrite (total_ext (fun j => g (S j)) (fun j => f (S j))); [lia|].
    intros j z _. by apply Hne.
  - rewrite (IH (fun j => f (S j)) (fun j => g (S j)) i Hi); [rewrite Hne by done; lia|].
    intros j z Hj. apply Hne. congruence.
Qed.

Lemma total_le f g l : (forall i x, l !! i = Some x -> f i x <= g i x) -> total f l <= total g l.
Proof.
  revert f g. induction l as [|x l IH]; intros f g H; simpl; [lia|].
  pose proof (H O x eq_refl). pose proof (IH (fun i => f (S i)) (fun i => g (S i)) (fun i y Hy => H (S i) y Hy)).
  lia.
Qed.

Lemma total_add f g l : total (fun i x => f i x + g i x) l = total f l + total g l.
Proof.
  revert f g. induction l as [|x l IH]; intros f g; simpl; [lia|].
  rewrite (IH (fun i => f (S i)) (fun i => g (S i))). lia.
Qed.

End Totals.

Section DemuxTheorems.
Context `{NX : Nexus} `{NXok : !NexusOk NX}.
Variables bufferLen guardCap overflowCap : Z.
Hypothesis bufferLen_pos : 1 <= bufferLen.
Implicit Types (d : Demux) (s : WorkerShard) (k : Worker) (w : WorkItem) (key : string).

Abbreviation demuxStep := (demuxStep bufferLen guardCap overflowCap).
Abbreviation shardInv := (shardInv bufferLen).
Abbreviation shardEffect := (shardEffect bufferLen).

(** ** The invariant *)

Definition pendOf d (i : nat) : option (Z * WorkItem) :=
  match dispatcher d with
  | DSending j id w => if decide (j = i) then Some (id, w) else None
  | _ => None
  end.

(** The items of a key in a history, and those waiting for its worker. *)
Definition ofKey key (l : list WorkItem) : list Core := map core (filter (fun w => keyOf w = key) l).

Definition waitingAt d key : list WorkItem :=
  match workerShards d !! shardOf d key with
  | Some s => waiting s (pendOf d (shardOf d key)) key
  | None => []
  end.

Definition lenOf (ov : bool) d : Z := if ov then overflowLen d else guardLen d.
Definition capOf (ov : bool) : Z := if ov then overflowCap else guardCap.

(** The token the dispatcher itself holds. *)
Definition ownToken d (ov : bool) : Z :=
  match dispatcher d with
  | DGuarded w => token (isOverflow w) 1 ov
  | DReleasing k => token k 1 ov
  | _ => 0
  end.

Definition heldTokens d (ov : bool) : Z :=
  total (fun i s => holders ov s (pendOf d i)) (workerShards d).

Record demuxInv (d : Demux) : Prop := {
  dv_shards : forall i s, workerShards d !! i = Some s -> shardInv s (pendOf d i);
  dv_routing : forall i s key id, workerShards d !! i = Some s -> workers s !! key = Some id ->
    shardOf d key = i;
  dv_fifo : forall key, ofKey key (accepted d) = ofKey key (started d) ++ map core (waitingAt d key);
  dv_tokens : forall ov, lenOf ov d = heldTokens d ov + ownToken d ov;
  dv_caps : forall ov, lenOf ov d <= capOf ov;
  dv_sending : forall i id w, dispatcher d = DSending i id w -> is_Some (workerShards d !! i)
}.

Lemma shardOf_same d d' key :
  length (workerShards d') = length (workerShards d) -> shardOf d' key = shardOf d key.
Proof. unfold shardOf. by intros ->. Qed.

(** A step that acts on one shard. *)
Lemma shard_step d d' i s s' wait dt :
  demuxInv d -> workerShards d !! i = Some s -> workerShards d' = <[i := s']> (workerShards d) ->
  (forall j, j <> i -> pendOf d' j = pendOf d j) ->
  shardEffect s (pendOf d i) s' (pendOf d' i) wait dt ->
  (forall key id, workers s' !! key = Some id -> shardOf d key = i) ->
  (forall key, shardOf d key = i ->
     ofKey key (accepted d') = ofKey key (started d') ++ map core (wait key)) ->
  (forall key, shardOf d key <> i ->
     ofKey key (accepted d') = ofKey key (accepted d) /\ ofKey key (started d') = ofKey key (started d)) ->
  (forall ov, lenOf ov d' = lenOf ov d + dt ov + ownToken d' ov - ownToken d ov) ->
  (forall ov, lenOf ov d' <= capOf ov) ->
  (forall j id w, dispatcher d' = DSending j id w -> j = i \/ dispatcher d = DSending j id w) ->
  demuxInv d'.
Proof.
  intros HI Hi Hsh Hpend (Hinv & Hwait & Hhold) Hroute Hfifo Hother Hlen Hcap Hsend.
  assert (Hso : forall key, shardOf d' key = shardOf d key)
    by (intros key; apply shardOf_same; by rewrite Hsh, length_insert).
  assert (Hii : workerShards d' !! i = Some s').
  { rewrite Hsh. apply list_lookup_insert_eq. by apply lookup_lt_Some in Hi. }
  assert (Hne : forall j, j <> i -> workerShards d' !! j = workerShards d !! j)
    by (intros j Hj; rewrite Hsh; by apply list_lookup_insert_ne).
  split.
  - intros j sj Hj. destruct (decide (j = i)) as [->|Hji].
    + rewrite Hii in Hj. by injection Hj as <-.
    + rewrite Hne in Hj by done. rewrite Hpend by done. by apply HI.
  - intros j sj key id Hj Hm. rewrite Hso. destruct (decide (j = i)) as [->|Hji].
    + rewrite Hii in Hj. injection Hj as <-. by eapply Hroute.
    + rewrite Hne in Hj by done. by eapply HI.
  - intros key. unfold waitingAt. rewrite Hso. destruct (decide (shardOf d key = i)) as [E|E].
    + rewrite E, Hii, Hwait. by apply Hfifo.
    + rewrite Hne, Hpend by done. destruct (Hother key E) as [-> ->]. apply HI.
  - intros ov. rewrite Hlen, (dv_tokens d HI ov). unfold heldTokens. rewrite Hsh.
    rewrite (total_insert (fun i s => holders ov s (pendOf d i)) _ _ i s s' Hi).
    + rewrite Hhold. lia.
    + intros j z Hj. by rewrite Hpend.
  - done.
  - intros j id w Hd. destruct (Hsend j id w Hd) as [->|Hd']; [by eexists|].
    destruct (decide (j = i)) as [->|Hji]; [by eexists|]. rewrite Hne by done. by eapply HI.
Qed.

Lemma waitingAt_shard d i s key :
  demuxInv d -> workerShards d !! i = Some s -> shardOf d key = i ->
  ofKey key (accepted d) = ofKey key (started d) ++ map core (waiting s (pendOf d i) key).
Proof. intros HI Hi E. rewrite (dv_fifo d HI key). unfold waitingAt. by rewrite E, Hi. Qed.

(** A step of a worker or of the pool that neither dispatches nor starts an item. *)
Lemma quiet_step d d' i s s' dt :
  demuxInv d -> workerShards d !! i = Some s -> workerShards d' = <[i := s']> (workerShards d) ->
  dispatcher d' = dispatcher d -> accepted d' = accepted d -> started d' = started d ->
  shardEffect s (pendOf d i) s' (pendOf d i) (waiting s (pendOf d i)) dt ->
  (forall key id, workers s' !! key = Some id -> workers s !! key = Some id) ->
  (forall ov, lenOf ov d' = lenOf ov d + dt ov) -> (forall ov, dt ov <= 0) ->
  demuxInv d'.
Proof.
  intros HI Hi Hsh Hd Ha Hst Heff Hw Hlen Hdt.
  assert (Hpend : forall j, pendOf d' j = pendOf d j) by (intros j; unfold pendOf; by rewrite Hd).
  eapply (shard_step d d' i s s'); try done.
  - rewrite Hpend. exact Heff.
  - intros key id Hm. eapply HI; [exact Hi | by apply Hw].
  - intros key E. rewrite Ha, Hst. by apply (waitingAt_shard d i s).
  - intros key _. by rewrite Ha, Hst.
  - intros ov. rewrite Hlen. unfold ownToken. rewrite Hd. lia.
  - intros ov. rewrite Hlen. pose proof (dv_caps d HI ov). pose proof (Hdt ov). lia.
  - intros j id w Hj. right. by rewrite <- Hd.
Qed.

(** A step of the dispatcher alone. *)
Lemma dispatcher_step d p ov0 n :
  demuxInv d -> (forall i, pendOf (setDispatcher p d) i = pendOf d i) ->
  (forall ov, ownToken (setDispatcher p d) ov = ownToken d ov + token ov0 n ov) ->
  lenOf ov0 d + n <= capOf ov0 -> (forall i id w, p = DSending i id w -> False) ->
  demuxInv (setDispatcher p (addTokens ov0 n d)).
Proof.
  intros HI Hp0 Ho0 Hc Hs.
  assert (Hp : forall i, pendOf (setDispatcher p (addTokens ov0 n d)) i = pendOf d i) by exact Hp0.
  assert (Ho : forall ov, ownToken (setDispatcher p (addTokens ov0 n d)) ov = ownToken d ov + token ov0 n ov)
    by exact Ho0.
  destruct HI as [H1 H2 H3 H4 H5 H6].
  assert (Hlen : forall ov, lenOf ov (setDispatcher p (addTokens ov0 n d)) = lenOf ov d + token ov0 n ov)
    by (intros ov; unfold token; destruct ov0, ov; simpl; lia).
  split.
  - intros i s Hi. rewrite Hp. by apply H1.
  - apply H2.
  - intros key. unfold waitingAt. rewrite Hp. apply H3.
  - intros ov. rewrite Hlen, H4, Ho. unfold heldTokens. simpl.
    rewrite (total_ext (fun i s => holders ov s (pendOf (setDispatcher p (addTokens ov0 n d)) i))
               (fun i s => holders ov s (pendOf d i))); [lia|].
    intros i s _. by rewrite Hp.
  - intros ov. rewrite Hlen. specialize (H5 ov). unfold token. destruct ov0, ov; simpl in *; lia.
  - intros i id w Hd. by destruct (Hs i id w Hd).
Qed.

Lemma ofKey_snoc key l w :
  ofKey key (l ++ [w]) = if decide (keyOf w = key) then ofKey key l ++ [core w] else ofKey key l.
Proof.
  unfold ofKey. rewrite filter_app, map_app, filter_cons, filter_nil. case_decide; [done|]. apply app_nil_r.
Qed.

Lemma workers_ReturnWorker id s : workers (ReturnWorker id s) = workers s.
Proof. unfold ReturnWorker. by destruct (trySend _ _). Qed.

Lemma workers_pruneTick m n s : workers (pruneTick m n s).2 = workers s.
Proof.
  unfold pruneTick. simpl. destruct (_ && _); [|done]. by destruct (tryRecv _) as [[? ?]|].
Qed.

Lemma workers_dispatch key w s r s' :
  dispatchLocked bufferLen key w s = (r, s') ->
  match r with Registered id => workers s' = <[key := id]> (workers s) | _ => workers s' = workers s end.
Proof.
  unfold dispatchLocked. destruct (workers s !! key) as [id|].
  - destruct (heap s !! id); [|by intros [= <- <-]]. destruct (trySend _ _); by intros [= <- <-].
  - unfold BorrowWorker. destruct (tryRecv _) as [[id c]|]; intros [= <- <-]; done.
Qed.

Lemma workers_retire id s s' :
  retire id s = Some s' -> forall key j, workers s' !! key = Some j -> workers s !! key = Some j.
Proof.
  unfold retire. destruct (heap s !! id) as [k|]; [|done]. simpl. destruct (pc k); try done.
  destruct (_ =? 0); [|done]. intros [= <-] key j. simpl. rewrite lookup_delete. by case_decide.
Qed.

(** ** The steps *)

Lemma isOverflow_mark w : isOverflow (mark SetUsedOverflow w) = true.
Proof. apply SetUsedOverflow_set. Qed.

Lemma enqueue_step d w s s' :
  demuxInv d -> dispatcher d = DGuarded w -> workerShards d !! shardOf d (keyOf w) = Some s ->
  dispatchLocked bufferLen (keyOf w) w s = (Enqueued, s') ->
  demuxInv (setDispatcher (DReleasing (isOverflow w)) (accept w (setShard (shardOf d (keyOf w)) s' d))).
Proof.
  intros HI Hd Hs Hdisp. set (i := shardOf d (keyOf w)) in *.
  assert (Hp : forall j, pendOf d j = None) by (intros j; unfold pendOf; by rewrite Hd).
  pose proof (dv_shards d HI i s Hs) as Hi. rewrite Hp in Hi.
  destruct (enqueue_effect bufferLen s (keyOf w) w s' Hi eq_refl Hdisp) as (w' & (Hc & Hk & Ho) & Heff).
  eapply (shard_step d _ i s s'); try done.
  - rewrite Hp. exact Heff.
  - intros key id Hm. rewrite (workers_dispatch _ _ _ _ _ Hdisp) in Hm. by eapply HI.
  - intros key E. simpl. rewrite ofKey_snoc. rewrite (waitingAt_shard d i s key HI Hs E), Hp.
    destruct (decide (keyOf w = key)) as [<-|Hne].
    + rewrite decide_True by done. rewrite map_app, <- app_assoc. simpl. by rewrite Hc.
    + by rewrite decide_False by done.
  - intros key E. simpl. rewrite ofKey_snoc, decide_False; [done|]. by intros <-.
  - intros ov. unfold ownToken, noTokens. rewrite Hd. simpl. destruct ov; simpl; lia.
  - apply HI.
Qed.

Lemma register_step d w s id s' :
  demuxInv d -> dispatcher d = DGuarded w -> workerShards d !! shardOf d (keyOf w) = Some s ->
  dispatchLocked bufferLen (keyOf w) w s = (Registered id, s') ->
  demuxInv (setDispatcher (DSending (shardOf d (keyOf w)) id w)
              (accept w (setShard (shardOf d (keyOf w)) s' d))).
Proof.
  intros HI Hd Hs Hdisp. set (i := shardOf d (keyOf w)) in *. set (d' := setDispatcher _ _).
  assert (Hp : forall j, pendOf d j = None) by (intros j; unfold pendOf; by rewrite Hd).
  pose proof (dv_shards d HI i s Hs) as Hi. rewrite Hp in Hi.
  destruct (dispatch_register_effect bufferLen s (keyOf w) w id s' Hi eq_refl Hdisp)
    as (Hw0 & Heff).
  assert (Hpi : pendOf d' i = Some (id, w)) by (unfold pendOf; simpl; by rewrite decide_True).
  eapply (shard_step d d' i s s'); try done.
  - intros j Hj. rewrite Hp. unfold pendOf. simpl. by rewrite decide_False.
  - rewrite Hp, Hpi. exact Heff.
  - intros key j Hm. rewrite (workers_dispatch _ _ _ _ _ Hdisp), lookup_insert in Hm.
    case_decide; [by subst | by eapply HI].
  - intros key E. simpl. rewrite ofKey_snoc. rewrite (waitingAt_shard d i s key HI Hs E), Hp.
    destruct (decide (keyOf w = key)) as [<-|Hne].
    + rewrite decide_True by done. by rewrite Hw0, app_nil_r.
    + by rewrite decide_False by done.
  - intros key E. simpl. rewrite ofKey_snoc, decide_False; [done|]. by intros <-.
  - intros ov. unfold ownToken. rewrite Hd. simpl. destruct ov; simpl; lia.
  - apply HI.
  - intros j id' w' [= <- <- <-]. by left.
Qed.

Lemma send_step d i id w s s' :
  demuxInv d -> dispatcher d = DSending i id w -> workerShards d !! i = Some s ->
  sendFirst id w s = Some s' -> demuxInv (setDispatcher DIdle (setShard i s' d)).
Proof.
  intros HI Hd Hs Hsend.
  assert (Hp : pendOf d i = Some (id, w)) by (unfold pendOf; rewrite Hd; by rewrite decide_True).
  pose proof (dv_shards d HI i s Hs) as Hi. rewrite Hp in Hi.
  pose proof (sendFirst_effect bufferLen s id w s' Hi Hsend) as Heff.
  eapply (shard_step d _ i s s'); try done.
  - intros j Hj. unfold pendOf. simpl. rewrite Hd. by rewrite decide_False.
  - rewrite Hp. exact Heff.
  - intros key j Hm. eapply HI; [exact Hs|]. unfold sendFirst in Hsend.
    destruct (heap s !! id) as [k|]; [|done]. simpl in Hsend. destruct (trySend _ _); [|done].
    simpl in Hsend. injection Hsend as <-. exact Hm.
  - intros key E. simpl. rewrite (waitingAt_shard d i s key HI Hs E), Hp. done.
  - intros ov. unfold ownToken, noTokens. rewrite Hd. simpl. destruct ov; simpl; lia.
  - apply HI.
Qed.

Lemma receive_step d i s id k w k' :
  demuxInv d -> workerShards d !! i = Some s -> heap s !! id = Some k ->
  coldRecv k = Some (w, k') \/ hotRecv k = Some (w, k') ->
  demuxInv (start w (setShard i (putWorker id k' s) d)).
Proof.
  intros HI Hs Hk Hr. pose proof (dv_shards d HI i s Hs) as Hi.
  destruct (receive_effect bufferLen s (pendOf d i) id k w k' Hi Hk Hr) as [Hw Heff].
  assert (Hroute : shardOf d (keyOf w) = i).
  { unfold waiting in Hw. destruct (workers s !! keyOf w) as [j|] eqn:E; [by eapply HI | done]. }
  eapply (shard_step d _ i s (putWorker id k' s)); try done.
  - intros key j Hm. by eapply HI.
  - intros key E. simpl. rewrite ofKey_snoc, (waitingAt_shard d i s key HI Hs E).
    destruct (decide (keyOf w = key)) as [<-|Hne].
    + rewrite decide_True by done. rewrite Hw at 1. simpl. by rewrite <- app_assoc.
    + by rewrite decide_False by done.
  - intros key E. simpl. rewrite ofKey_snoc, decide_False; [done|]. by intros <-.
  - intros ov. unfold ownToken, noTokens. simpl. destruct ov; simpl; lia.
  - apply HI.
  - intros j id' w' Hd. by right.
Qed.

Lemma lenOf_same d d' :
  guardLen d' = guardLen d -> overflowLen d' = overflowLen d -> forall ov, lenOf ov d' = lenOf ov d + noTokens ov.
Proof. intros Hg Ho ov. unfold noTokens. destruct ov; simpl; lia. Qed.

Lemma fate_frame f d :
  workerShards (fate f d) = workerShards d /\ dispatcher (fate f d) = dispatcher d /\
  accepted (fate f d) = accepted d /\ started (fate f d) = started d /\
  guardLen (fate f d) = guardLen d /\ overflowLen (fate f d) = overflowLen d.
Proof. by destruct f. Qed.

Lemma isOverflow_pooled d w : isOverflow (pooled d w) = isOverflow w.
Proof. done. Qed.

(** A quiet step that moves no token. *)
Lemma still_step d d' i s s' :
  demuxInv d -> workerShards d !! i = Some s -> workerShards d' = <[i := s']> (workerShards d) ->
  dispatcher d' = dispatcher d -> accepted d' = accepted d -> started d' = started d ->
  guardLen d' = guardLen d -> overflowLen d' = overflowLen d ->
  shardEffect s (pendOf d i) s' (pendOf d i) (waiting s (pendOf d i)) noTokens ->
  (forall key id, workers s' !! key = Some id -> workers s !! key = Some id) ->
  demuxInv d'.
Proof.
  intros HI Hs Hsh Hd Ha Hst Hg Ho Heff Hw. eapply (quiet_step d d' i s s' noTokens); try done. by apply lenOf_same.
Qed.

(** The dispatcher takes a token, or gives its own back. *)
Lemma acquire_step d w ov :
  demuxInv d -> dispatcher d = DIdle -> lenOf ov d < capOf ov -> isOverflow w = ov ->
  demuxInv (setDispatcher (DGuarded w) (addTokens ov 1 d)).
Proof.
  intros HI Hd Hlt Hov. apply dispatcher_step; try done.
  - intros i. unfold pendOf. by rewrite Hd.
  - intros ov'. unfold ownToken. rewrite Hd. simpl. rewrite Hov. lia.
  - lia.
Qed.

Lemma giveBack_step d ov :
  demuxInv d -> (forall i, pendOf d i = None) -> (forall ov', ownToken d ov' = token ov 1 ov') ->
  demuxInv (setDispatcher DIdle (addTokens ov (-1) d)).
Proof.
  intros HI Hp Ho. apply dispatcher_step; try done.
  - intros ov'. rewrite Ho. unfold ownToken, token. simpl. destruct (eqb _ _); lia.
  - pose proof (dv_caps d HI ov). lia.
Qed.

Lemma demux_step d d' : demuxInv d -> demuxStep d d' -> demuxInv d'.
Proof.
  intros HI Hst. destruct Hst as [w Hd Hlt Hov|w Hd Hlt Hov|w s s' Hd Hs Hdisp|w s id s' Hd Hs Hdisp
    |w s Hd Hs Hfull Hdone|w s Hd Hs Hfull Hdone|i id w s s' Hd Hs Hsend|ov Hd|i s id k w k' Hs Hk Hr
    |i s id k w Hs Hk Hpc|i s id k w app Hs Hk Hpc|i s id s' Hs Hr|i s id k Hs Hk Hpc|i s id k Hs Hk Hpc|i s id k Hs Hk Hpc Hsd
    |i s m n Hs|i s Hs].
  - by apply acquire_step.
  - apply acquire_step; try done. rewrite isOverflow_pooled. apply isOverflow_mark.
  - by eapply enqueue_step.
  - by eapply register_step.
  - apply giveBack_step; [done|..]; intros; unfold pendOf, ownToken; by rewrite Hd.
  - destruct HI. by split.
  - by eapply send_step.
  - apply giveBack_step; [done|..]; intros; unfold pendOf, ownToken; by rewrite Hd.
  - by eapply receive_step.
  - eapply (still_step d _ i s (putWorker id (setPc (if shardDone s then Hot else Busy true w) k) s)); try done.
    eapply finish_effect; [by apply HI | done | done | destruct (shardDone s); auto].
  - destruct (fate_frame (processWorkItem false w app) (setShard i (putWorker id (setPc Hot k) s) d))
      as (F1 & F2 & F3 & F4 & F5 & F6).
    eapply (still_step d _ i s (putWorker id (setPc Hot k) s)); try done.
    eapply finish_effect; [by apply HI | done | done | by left].
  - eapply (still_step d _ i s s'); try done.
    + eapply retire_effect; [by apply HI | done].
    + by eapply workers_retire.
  - eapply (quiet_step d _ i s _ (token (usedOverflow k) (-1))); try done.
    + apply release_effect; [by apply HI | done | done].
    + intros ov. unfold token. destruct (usedOverflow k), ov; simpl; lia.
    + intros ov. unfold token. destruct (eqb _ _); lia.
  - eapply (still_step d _ i s); try done.
    + apply return_effect; [by apply HI | done | done].
    + intros key j. by rewrite workers_ReturnWorker.
  - eapply (still_step d _ i s); try done. apply exit_effect; [by apply HI | done | done | done].
  - eapply (still_step d _ i s); try done.
    + apply prune_effect; by apply HI.
    + intros key j. by rewrite workers_pruneTick.
  - eapply (still_step d _ i s); try done. apply done_effect; by apply HI.
Qed.

(** ** Reachable states *)

(** [NewDemux] with [n] shards. *)
Definition NewDemux (n : nat) (poolSize : Z) (minIdle : nat) : Demux :=
  mkDemux (replicate n (NewWorkerShard bufferLen poolSize minIdle)) 0 0 DIdle [] [] [] false.

Lemma NewDemux_inv n poolSize minIdle :
  0 <= guardCap -> 0 <= overflowCap -> demuxInv (NewDemux n poolSize minIdle).
Proof.
  intros Hg Ho. destruct (NewWorkerShard_inv bufferLen poolSize minIdle) as (Hi & HW & Ht).
  split; simpl.
  - intros i s Hs. apply lookup_replicate in Hs as [-> _]. exact Hi.
  - intros i s key id Hs Hm. apply lookup_replicate in Hs as [-> _]. by rewrite HW in Hm.
  - intros key. unfold waitingAt, waiting. simpl. destruct (_ !! _) as [s|] eqn:E; [|done].
    apply lookup_replicate in E as [-> _]. by rewrite HW.
  - intros ov. unfold heldTokens, ownToken. simpl.
    rewrite (total_ext _ (fun _ _ => 0)).
    + assert (H0 : forall (l : list WorkerShard), total (fun _ _ => 0) l = 0) by (induction l; simpl; lia).
      rewrite H0. by destruct ov.
    + intros i s Hs. apply lookup_replicate in Hs as [-> _]. apply Ht.
  - intros ov. by destruct ov.
  - done.
Qed.

Lemma demux_reachable n poolSize minIdle d :
  0 <= guardCap -> 0 <= overflowCap -> rtc demuxStep (NewDemux n poolSize minIdle) d -> demuxInv d.
Proof.
  intros Hg Ho. apply (rtc_ind_r demuxInv); [by apply NewDemux_inv|].
  intros d1 d2 _ Hs HI. by eapply demux_step.
Qed.

(** A worker that is processing an item, inside the handler or about to be. *)
Definition busyWith d (i : nat) (id : Z) (w : WorkItem) : Prop :=
  exists s k b, workerShards d !! i = Some s /\ heap s !! id = Some k /\ pc k = Busy b w.

Definition isBusy (k : Worker) : bool := match pc k with Busy _ _ => true | _ => false end.

Definition busyCount d : Z :=
  total (fun _ s => Z.of_nat (size (filter (fun ik => isBusy ik.2 = true) (heap s)))) (workerShards d).

Lemma busy_registered d i id w :
  demuxInv d -> busyWith d i id w ->
  shardOf d (keyOf w) = i /\ exists s, workerShards d !! i = Some s /\ workers s !! keyOf w = Some id.
Proof.
  intros HI (s & k & b & Hs & Hk & Hpc). pose proof (dv_shards d HI i s Hs) as Hi.
  assert (Hni : ~ idle k) by (intros [_ H]; by rewrite Hpc in H).
  destruct (working_registered bufferLen s _ id k Hi Hk Hni) as (key & Hm & [_ Hsv _ _ _]).
  rewrite Hpc in Hsv. destruct Hsv as [_ Hkw]. subst key. split; [by eapply HI|]. by exists s.
Qed.

(** Each busy worker holds a token of one kind. *)
Lemma busy_holders s pend :
  Z.of_nat (size (filter (fun ik => isBusy ik.2 = true) (heap s))) <= holders false s pend + holders true s pend.
Proof.
  unfold holders. generalize (heap s). intros h. induction h as [|id k h Hid IH] using map_ind.
  { rewrite !map_filter_empty, map_size_empty. lia. }
  assert (Hf : forall (P : Z * Worker -> Prop) `{!forall x, Decision (P x)},
             size (filter P (<[id := k]> h)) = ((if decide (P (id, k)) then 1 else 0) + size (filter P h))%nat).
  { intros P HP. case_decide as D.
    - rewrite map_filter_insert_True by done. rewrite map_size_insert_None; [done|].
      apply map_lookup_filter_None. by left.
    - rewrite map_filter_insert_False by done. by rewrite delete_id. }
  rewrite !Hf. simpl. unfold isBusy, holds in *. destruct (pc k); repeat case_decide; try done; try lia.
  destruct (usedOverflow k); simpl in *; done.
Qed.

(** The workers' tokens are among those in the guards. *)
Lemma heldTokens_le d ov : demuxInv d -> heldTokens d ov <= lenOf ov d.
Proof.
  intros HI. rewrite (dv_tokens d HI ov). unfold ownToken, token.
  destruct (dispatcher d); try destruct (eqb _ _); lia.
Qed.

Lemma busy_bounded d : demuxInv d -> busyCount d <= guardCap + overflowCap.
Proof.
  intros HI. assert (Hle : busyCount d <= heldTokens d false + heldTokens d true).
  { unfold busyCount, heldTokens. rewrite <- total_add. apply total_le. intros i s _. apply busy_holders. }
  pose proof (heldTokens_le d false HI) as H1. pose proof (heldTokens_le d true HI) as H2.
  pose proof (dv_caps d HI false) as C1. pose proof (dv_caps d HI true) as C2. simpl in *. lia.
Qed.

(** ** Properties *)

(** C11: a key is processed by one worker at a time: two workers that are both
    inside the handler with items of the same key are the same worker. *)
Theorem key_exclusive n poolSize minIdle d i1 id1 w1 i2 id2 w2 :
  0 <= guardCap -> 0 <= overflowCap -> rtc demuxStep (NewDemux n poolSize minIdle) d ->
  busyWith d i1 id1 w1 -> busyWith d i2 id2 w2 -> keyOf w1 = keyOf w2 ->
  i1 = i2 /\ id1 = id2 /\ w1 = w2.
Proof.
  intros Hg Ho Hr H1 H2 Hk. pose proof (demux_reachable n poolSize minIdle d Hg Ho Hr) as HI.
  destruct (busy_registered d i1 id1 w1 HI H1) as (E1 & s1 & Hs1 & Hm1).
  destruct (busy_registered d i2 id2 w2 HI H2) as (E2 & s2 & Hs2 & Hm2).
  rewrite Hk, E2 in E1. subst i2. rewrite Hs1 in Hs2. injection Hs2 as <-.
  rewrite Hk, Hm2 in Hm1. injection Hm1 as <-. split_and!; [done | done |].
  destruct H1 as (s & k & b & Hs & Hk1 & Hp1), H2 as (s' & k' & b' & Hs' & Hk2 & Hp2).
  rewrite Hs in Hs'. injection Hs' as <-. rewrite Hk1 in Hk2. injection Hk2 as <-. congruence.
Qed.

End DemuxTheorems.
