(* ===== verification/DemuxDrain.v ===== *)
(** * Draining the workers ([Demux.DrainWorkers], [Worker.Drain])

    The drain visits the shards in order; in each it copies the worker map under
    the mutex and then waits, one worker after the other, until the worker is
    inactive.  The workers, the pool and the breaker go on meanwhile; the polling
    loop is stopped, so the dispatcher stays idle. *)
From S2P Require Import Prelude Types Fnv Worker Demux DemuxFacts DemuxTheorems.
From stdpp Require Import base gmap list strings relations.
Open Scope Z_scope.

Section DemuxDrain.
Context `{NX : Nexus} `{NXok : !NexusOk NX}.
Variables bufferLen guardCap overflowCap : Z.
Implicit Types (d : Demux) (s : WorkerShard) (k : Worker) (w : WorkItem) (key : string).

(** Where [DrainWorkers] stands. *)
Inductive DrainPc :=
| AtShard (i : nat)                    (* the loop's next shard *)
| Awaiting (i : nat) (ids : list Z)    (* the workers of shard [i] still to wait for *)
| Drained.

(** [ids] lists the workers of the map, in the order the [range] loop meets them. *)
Definition snapshotOf (s : WorkerShard) (ids : list Z) : Prop :=
  ids ≡ₚ (map_to_list (workers s)).*2.

Inductive drainStep : Demux * DrainPc -> Demux * DrainPc -> Prop :=
| SkipShard d i s :
    workerShards d !! i = Some s -> workers s = ∅ -> drainStep (d, AtShard i) (d, AtShard (S i))
| SnapshotShard d i s ids :
    workerShards d !! i = Some s -> snapshotOf s ids ->
    drainStep (d, AtShard i) (d, Awaiting i ids)
| WorkerInactive d i s id k ids :
    workerShards d !! i = Some s -> heap s !! id = Some k -> IsActive k = false ->
    drainStep (d, Awaiting i (id :: ids)) (d, Awaiting i ids)
| NextShard d i :
    drainStep (d, Awaiting i []) (d, AtShard (S i))
| LastShard d i :
    workerShards d !! i = None -> drainStep (d, AtShard i) (d, Drained)
| Meanwhile d d' p :
    dispatcher d = DIdle -> dispatcher d' = DIdle -> demuxStep bufferLen guardCap overflowCap d d' ->
    drainStep (d, p) (d', p).

(** ** Workers leave the maps and none enters *)

Definition mapShrinks (s s' : WorkerShard) : Prop :=
  forall key id, workers s' !! key = Some id -> workers s !! key = Some id.

Lemma shrinks_set d i s s' :
  workerShards d !! i = Some s -> mapShrinks s s' ->
  forall j t', <[i := s']> (workerShards d) !! j = Some t' ->
    exists t, workerShards d !! j = Some t /\ mapShrinks t t'.
Proof.
  intros Hs Hm j t' Ht. destruct (decide (i = j)) as [<-|Hne].
  - rewrite list_lookup_insert_eq in Ht by by eapply lookup_lt_Some. injection Ht as <-. eauto.
  - rewrite list_lookup_insert_ne in Ht by done. exists t'. split; [done|]. by intros ??.
Qed.

Lemma idle_step_shrinks d d' :
  dispatcher d = DIdle -> dispatcher d' = DIdle -> demuxStep bufferLen guardCap overflowCap d d' ->
  length (workerShards d') = length (workerShards d) /\
  forall j t', workerShards d' !! j = Some t' -> exists t, workerShards d !! j = Some t /\ mapShrinks t t'.
Proof.
  intros Hd Hd' Hst.
  destruct Hst as [w|w|w s s' H|w s id s' H|w s H|w s H|i id w s s' H|ov H|i s id k w k' Hs|i s id k w Hs|i s id k w app Hs
    |i s id s' Hs Hr|i s id k Hs|i s id k Hs Hk|i s id k Hs|i s m n Hs|i s Hs]; try done; try congruence.
  - split; [apply length_insert|]. apply (shrinks_set d i s); [done|]; by intros ??.
  - split; [apply length_insert|]. apply (shrinks_set d i s); [done|]; by intros ??.
  - destruct (fate_frame (processWorkItem false w app) (setShard i (putWorker id (setPc Hot k) s) d))
      as (E & _). rewrite E. split; [apply length_insert|]. apply (shrinks_set d i s); [done|]; by intros ??.
  - split; [apply length_insert|]. apply (shrinks_set d i s); [done|]. intros key. by apply (workers_retire id).
  - split; [apply length_insert|]. apply (shrinks_set d i s); [done|]; by intros ??.
  - split; [apply length_insert|]. apply (shrinks_set d i s); [done|]. intros key j. by rewrite workers_ReturnWorker.
  - split; [apply length_insert|]. apply (shrinks_set d i s); [done|]; by intros ??.
  - split; [apply length_insert|]. apply (shrinks_set d i s); [done|]. intros key j. by rewrite workers_pruneTick.
  - split; [apply length_insert|]. apply (shrinks_set d i s); [done|]; by intros ??.
Qed.

(** ** The invariant of the drain *)

Definition mapEmpty d (j : nat) : Prop := forall s, workerShards d !! j = Some s -> workers s = ∅.

Definition progress d (p : DrainPc) : Prop :=
  match p with
  | AtShard i => forall j, (j < i)%nat -> mapEmpty d j
  | Awaiting i ids =>
      (forall j, (j < i)%nat -> mapEmpty d j) /\
      forall s key id, workerShards d !! i = Some s -> workers s !! key = Some id -> id ∈ ids
  | Drained => forall j, mapEmpty d j
  end.

Definition drainInv (dp : Demux * DrainPc) : Prop :=
  demuxInv bufferLen guardCap overflowCap dp.1 /\ progress dp.1 dp.2.

Lemma mapEmpty_shrinks d d' j :
  (forall t', workerShards d' !! j = Some t' -> exists t, workerShards d !! j = Some t /\ mapShrinks t t') ->
  mapEmpty d j -> mapEmpty d' j.
Proof.
  intros Hsh He t' Ht'. destruct (Hsh t' Ht') as (t & Ht & Hm). apply map_empty. intros key.
  destruct (workers t' !! key) as [id|] eqn:E; [|done]. apply Hm in E. by rewrite (He t Ht), lookup_empty in E.
Qed.

Lemma progress_shrinks d d' p :
  (forall j t', workerShards d' !! j = Some t' -> exists t, workerShards d !! j = Some t /\ mapShrinks t t') ->
  progress d p -> progress d' p.
Proof.
  intros Hsh. destruct p as [i|i ids|]; simpl.
  - intros H j Hj. by eapply mapEmpty_shrinks; [apply Hsh | apply H].
  - intros [H Hids]. split; [intros j Hj; by eapply mapEmpty_shrinks; [apply Hsh | apply H]|].
    intros t' key id Ht' Hk. destruct (Hsh i t' Ht') as (t & Ht & Hm). eapply Hids; [exact Ht | by apply Hm].
  - intros H j. by eapply mapEmpty_shrinks; [apply Hsh | apply H].
Qed.

Lemma below_succ d i :
  (forall j, (j < i)%nat -> mapEmpty d j) -> mapEmpty d i -> forall j, (j < S i)%nat -> mapEmpty d j.
Proof. intros H Hi j Hj. destruct (decide (j = i)) as [->|]; [done | apply H; lia]. Qed.

Lemma drain_step dp dp' : drainInv dp -> drainStep dp dp' -> drainInv dp'.
Proof.
  intros [HI HP] Hst. destruct Hst as [d i s Hs He|d i s ids Hs Hids|d i s id k ids Hs Hk Ha|d i|d i Hn|d d' p H1 H2 Hst];
    simpl in *.
  - split; [done|]. simpl. apply below_succ; [done|]. intros t Ht. by rewrite Hs in Ht; simplify_eq.
  - split; [done|]. simpl. split; [done|]. intros t key id Ht Hm. rewrite Hs in Ht. injection Ht as <-.
    unfold snapshotOf in Hids. rewrite Hids. apply list_elem_of_fmap. exists (key, id).
    by rewrite elem_of_map_to_list.
  - split; [done|]. simpl. destruct HP as [HP Hin]. split; [done|]. intros t key j Ht Hm.
    specialize (Hin t key j Ht Hm). apply elem_of_cons in Hin as [->|Hin]; [|done].
    rewrite Hs in Ht. injection Ht as <-. pose proof (dv_shards _ _ _ d HI i s Hs) as Hi.
    destruct (registered_serving _ s _ key id k Hi Hm Hk) as [_ _ _ _ Hact]. congruence.
  - split; [done|]. simpl. destruct HP as [HP Hin]. apply below_succ; [done|]. intros s Hs. apply map_empty.
    intros key. destruct (workers s !! key) as [id|] eqn:E; [|done].
    by apply (Hin s key id Hs), not_elem_of_nil in E.
  - split; [done|]. simpl. intros j s Hs. apply (HP j); [|done].
    apply lookup_ge_None in Hn. apply lookup_lt_Some in Hs. lia.
  - destruct (idle_step_shrinks d d' H1 H2 Hst) as [_ Hsh]. split; simpl.
    + by eapply demux_step.
    + by eapply progress_shrinks.
Qed.

Lemma drain_run dp dp' : rtc drainStep dp dp' -> drainInv dp -> drainInv dp'.
Proof. induction 1 as [|x y z Hxy _ IH]; [done|]. intros Hx. apply IH. by eapply drain_step. Qed.

(** ** Properties *)

(** C13: the drain of the workers.  Suppose the dispatcher is idle when
    [DrainWorkers] starts and no item is dispatched while it runs.  When it
    returns, every item ever dispatched has been taken by a worker, no handler is
    running, and no worker is registered, whatever the workers did meanwhile. *)
Theorem drain_waits_for_all n poolSize minIdle d0 d :
  0 <= guardCap -> 0 <= overflowCap ->
  rtc (demuxStep bufferLen guardCap overflowCap) (NewDemux bufferLen n poolSize minIdle) d0 ->
  rtc drainStep (d0, AtShard 0) (d, Drained) ->
  (forall i s, workerShards d !! i = Some s -> workers s = ∅) /\
  (forall key, ofKey key (started d) = ofKey key (accepted d)) /\
  forall i id w, ~ busyWith d i id w.
Proof.
  intros Hg Ho H0 Hr.
  assert (Hinv : drainInv (d, Drained)).
  { apply (drain_run (d0, AtShard 0) (d, Drained) Hr).
    split; [by eapply demux_reachable | intros j Hj; lia]. }
  destruct Hinv as [HI HE]. simpl in *. split; [intros i s Hs; by apply (HE i)|]. split.
  - intros key. rewrite (dv_fifo _ _ _ d HI key). unfold waitingAt, waiting.
    destruct (workerShards d !! shardOf d key) as [s|] eqn:E; [|by rewrite app_nil_r].
    rewrite (HE _ s E), lookup_empty. by rewrite app_nil_r.
  - intros i id w Hb. destruct (busy_registered _ _ _ d i id w HI Hb) as (_ & s & Hs & Hm).
    by rewrite (HE _ s Hs), lookup_empty in Hm.
Qed.

End DemuxDrain.
