(* ===== verification/DemuxRun.v ===== *)
(** * A concrete run of the demultiplexer

    Two shards, one guard token and one overflow token: two items of one key are
    dispatched, the second while the first is being processed, and both are
    processed before the worker retires. *)
From S2P Require Import Prelude Types Fnv Worker Demux DemuxFacts DemuxTheorems DemuxDrain.
From stdpp Require Import base gmap list strings relations.
Open Scope Z_scope.

Definition demuxItem (ptr offset : Z) (first : bool) : WorkItem :=
  mkWorkItem ptr (mkMessage 0 0 offset "order-7" None) (mkMetrics 0 0 0 0 0 0 0 0 0 0) None
    (offset - 1) first 0.

Definition itemA : WorkItem := demuxItem 1 0 true.
Definition itemB : WorkItem := demuxItem 2 1 false.

Definition shardAt (d : Demux) (i : nat) : WorkerShard := default (mkShard ∅ ∅ (makeChan 0) 0 false 0) (workerShards d !! i).
Definition workerAt (s : WorkerShard) (id : Z) : Worker := default (NewWorker 0) (heap s !! id).
Definition theShard : nat := Z.to_nat (shardIndex 2 "order-7").

Definition dr0 : Demux := NewDemux 2 2 2 0.
Definition itemA' : WorkItem := pooled dr0 itemA.
Definition dr1 : Demux := setDispatcher (DGuarded itemA') (addTokens false 1 dr0).
Definition dr2 : Demux :=
  setDispatcher (DSending theShard 0 itemA')
    (accept itemA' (setShard theShard (dispatchLocked 2 "order-7" itemA' (shardAt dr1 theShard)).2 dr1)).
Definition dr3 : Demux :=
  setDispatcher DIdle
    (setShard theShard (default (shardAt dr2 theShard) (sendFirst 0 itemA' (shardAt dr2 theShard))) dr2).

(** The worker takes the next item, from either path. *)
Definition recvAt (k : Worker) : WorkItem * Worker :=
  match coldRecv k with Some r => r | None => default (itemA, k) (hotRecv k) end.
Definition receiveAt (d : Demux) : Demux :=
  let '(w, k) := recvAt (workerAt (shardAt d theShard) 0) in
  start w (setShard theShard (putWorker 0 k (shardAt d theShard)) d).

(** It finds the shard open. *)
Definition checkAt (d : Demux) (w : WorkItem) : Demux :=
  setShard theShard
    (putWorker 0 (setPc (if shardDone (shardAt d theShard) then Hot else Busy true w) (workerAt (shardAt d theShard) 0))
       (shardAt d theShard)) d.

Definition drA : Demux := receiveAt dr3.
Definition dr4 : Demux := checkAt drA itemA'.
Definition itemB' : WorkItem := pooled dr0 (mark SetUsedOverflow itemB).
Definition dr5 : Demux := setDispatcher (DGuarded itemB') (addTokens true 1 dr4).
Definition dr6 : Demux :=
  setDispatcher (DReleasing true)
    (accept itemB' (setShard theShard (dispatchLocked 2 "order-7" itemB' (shardAt dr5 theShard)).2 dr5)).
Definition dr7 : Demux := setDispatcher DIdle (addTokens true (-1) dr6).

Definition okCall : AppCall := mkAppCall AppOk AppOk 0 5 5.
Definition finishAt (d : Demux) (w : WorkItem) : Demux :=
  fate (processWorkItem false w okCall)
    (setShard theShard (putWorker 0 (setPc Hot (workerAt (shardAt d theShard) 0)) (shardAt d theShard)) d).

Definition dr8 : Demux := finishAt dr7 itemA'.
Definition itemB'' : WorkItem := setMetrics (setQueueDepth 0) itemB'.
Definition drB : Demux := receiveAt dr8.
Definition dr9 : Demux := checkAt drB itemB''.
Definition dr10 : Demux := finishAt dr9 itemB''.
Definition dr11 : Demux :=
  setShard theShard (default (shardAt dr10 theShard) (retire 0 (shardAt dr10 theShard))) dr10.

Lemma receiveAt_step d s k w k' :
  workerShards d !! theShard = Some s -> heap s !! 0 = Some k ->
  coldRecv k = Some (w, k') \/ (coldRecv k = None /\ hotRecv k = Some (w, k')) -> demuxStep 2 1 1 d (receiveAt d).
Proof.
  intros Hs Hk Hr. unfold receiveAt, workerAt, shardAt. rewrite Hs. cbn [from_option id].
  rewrite Hk. unfold recvAt. cbn [from_option id].
  destruct Hr as [Hc|[Hc Hh]]; rewrite Hc; [|rewrite Hh];
    apply (WorkerReceive 2 1 1 d theShard s 0 k); auto.
Qed.

Lemma checkAt_step d s k w :
  workerShards d !! theShard = Some s -> heap s !! 0 = Some k -> pc k = Busy false w ->
  demuxStep 2 1 1 d (checkAt d w).
Proof.
  intros Hs Hk Hw. unfold checkAt, workerAt, shardAt. rewrite Hs. cbn [from_option id].
  rewrite Hk. cbn [from_option id]. by apply (WorkerCheck 2 1 1 d theShard s 0 k w).
Qed.

Lemma step01 : demuxStep 2 1 1 dr0 dr1.
Proof. apply AcquireGuard; vm_compute; reflexivity. Qed.

Lemma step12 : demuxStep 2 1 1 dr1 dr2.
Proof. apply (DispatchRegister 2 1 1 dr1 itemA' (shardAt dr1 theShard)); vm_compute; reflexivity. Qed.

Lemma step23 : demuxStep 2 1 1 dr2 dr3.
Proof. apply (DispatchSend 2 1 1 dr2 theShard 0 itemA' (shardAt dr2 theShard)); vm_compute; reflexivity. Qed.

Lemma step3A : demuxStep 2 1 1 dr3 drA.
Proof.
  apply (receiveAt_step dr3 (shardAt dr3 theShard) (workerAt (shardAt dr3 theShard) 0)
           (recvAt (workerAt (shardAt dr3 theShard) 0)).1 (recvAt (workerAt (shardAt dr3 theShard) 0)).2);
    [vm_compute; reflexivity.. | left; vm_compute; reflexivity].
Qed.

Lemma stepA4 : demuxStep 2 1 1 drA dr4.
Proof.
  apply (checkAt_step drA (shardAt drA theShard) (workerAt (shardAt drA theShard) 0) itemA'); vm_compute; reflexivity.
Qed.

Lemma step45 : demuxStep 2 1 1 dr4 dr5.
Proof. apply (AcquireOverflow 2 1 1 dr4 itemB); vm_compute; reflexivity. Qed.

Lemma step56 : demuxStep 2 1 1 dr5 dr6.
Proof. apply (DispatchEnqueue 2 1 1 dr5 itemB' (shardAt dr5 theShard)); vm_compute; reflexivity. Qed.

Lemma step67 : demuxStep 2 1 1 dr6 dr7.
Proof. apply (DispatchRelease 2 1 1 dr6 true); vm_compute; reflexivity. Qed.

Lemma dr_steps1 : rtc (demuxStep 2 1 1) dr0 dr7.
Proof.
  apply (rtc_l _ _ dr1 _ step01), (rtc_l _ _ dr2 _ step12), (rtc_l _ _ dr3 _ step23), (rtc_l _ _ drA _ step3A), (rtc_l _ _ dr4 _ stepA4),
    (rtc_l _ _ dr5 _ step45), (rtc_l _ _ dr6 _ step56).
  apply rtc_once, step67.
Qed.

Lemma finishAt_step d s k w :
  workerShards d !! theShard = Some s -> heap s !! 0 = Some k -> pc k = Busy true w ->
  demuxStep 2 1 1 d (finishAt d w).
Proof.
  intros Hs Hk Hw. unfold finishAt, workerAt, shardAt. rewrite Hs. cbn [from_option id].
  rewrite Hk. cbn [from_option id]. by apply (WorkerFinish 2 1 1 d theShard s 0 k w okCall).
Qed.

Lemma retireAt_step d s s' :
  workerShards d !! theShard = Some s -> retire 0 s = Some s' ->
  demuxStep 2 1 1 d (setShard theShard (default (shardAt d theShard) (retire 0 (shardAt d theShard))) d).
Proof.
  intros Hs Hr. unfold shardAt. rewrite Hs. cbn [from_option id]. rewrite Hr.
  by apply (WorkerRetire 2 1 1 d theShard s 0).
Qed.

(** What [w] and [k] of a step are in a given state. *)
Definition hotAt (d : Demux) : WorkItem * Worker :=
  let k := workerAt (shardAt d theShard) 0 in default (itemA, k) (hotRecv k).

Lemma step78 : demuxStep 2 1 1 dr7 dr8.
Proof.
  apply (finishAt_step dr7 (shardAt dr7 theShard) (workerAt (shardAt dr7 theShard) 0) itemA');
    vm_compute; reflexivity.
Qed.

Lemma step8B : demuxStep 2 1 1 dr8 drB.
Proof.
  apply (receiveAt_step dr8 (shardAt dr8 theShard) (workerAt (shardAt dr8 theShard) 0)
           (hotAt dr8).1 (hotAt dr8).2); [vm_compute; reflexivity.. | right; split; vm_compute; reflexivity].
Qed.

Lemma stepB9 : demuxStep 2 1 1 drB dr9.
Proof.
  apply (checkAt_step drB (shardAt drB theShard) (workerAt (shardAt drB theShard) 0) itemB''); vm_compute; reflexivity.
Qed.

Lemma step910 : demuxStep 2 1 1 dr9 dr10.
Proof.
  apply (finishAt_step dr9 (shardAt dr9 theShard) (workerAt (shardAt dr9 theShard) 0) itemB'');
    vm_compute; reflexivity.
Qed.

Lemma step1011 : demuxStep 2 1 1 dr10 dr11.
Proof.
  apply (retireAt_step dr10 (shardAt dr10 theShard) (default (shardAt dr10 theShard) (retire 0 (shardAt dr10 theShard))));
    vm_compute; reflexivity.
Qed.

Lemma busy7 : busyWith dr7 theShard 0 itemA'.
Proof.
  exists (shardAt dr7 theShard), (workerAt (shardAt dr7 theShard) 0), true. split_and!; vm_compute; reflexivity.
Qed.

Lemma key_exclusive_witness :
  busyWith dr7 theShard 0 itemA' /\ (theShard = theShard /\ 0 = 0 /\ itemA' = itemA').
Proof.
  split; [exact busy7|].
  exact (key_exclusive 2 1 1 2 2 0 dr7 theShard 0 itemA' theShard 0 itemA' ltac:(lia) ltac:(lia) dr_steps1
           busy7 busy7 eq_refl).
Defined.

(** The drain starts while the first item is with the handler. *)
Lemma dr_drain : rtc (drainStep 2 1 1) (dr7, AtShard 0) (dr11, Drained).
Proof.
  assert (Hi : forall d d', dispatcher d = DIdle -> dispatcher d' = DIdle -> demuxStep 2 1 1 d d' ->
            forall p, drainStep 2 1 1 (d, p) (d', p)) by (intros; by apply Meanwhile).
  apply (rtc_l _ _ (dr7, AtShard 1)).
  { apply (SkipShard 2 1 1 dr7 0 (shardAt dr7 0)); vm_compute; reflexivity. }
  apply (rtc_l _ _ (dr7, Awaiting 1 [0])).
  { apply (SnapshotShard 2 1 1 dr7 1 (shardAt dr7 1)); [vm_compute; reflexivity|].
    unfold snapshotOf. vm_compute. reflexivity. }
  apply (rtc_l _ _ (dr8, Awaiting 1 [0])). { apply Hi; [vm_compute; reflexivity.. | apply step78]. }
  apply (rtc_l _ _ (drB, Awaiting 1 [0])). { apply Hi; [vm_compute; reflexivity.. | apply step8B]. }
  apply (rtc_l _ _ (dr9, Awaiting 1 [0])). { apply Hi; [vm_compute; reflexivity.. | apply stepB9]. }
  apply (rtc_l _ _ (dr10, Awaiting 1 [0])). { apply Hi; [vm_compute; reflexivity.. | apply step910]. }
  apply (rtc_l _ _ (dr11, Awaiting 1 [0])). { apply Hi; [vm_compute; reflexivity.. | apply step1011]. }
  apply (rtc_l _ _ (dr11, Awaiting 1 [])).
  { apply (WorkerInactive 2 1 1 dr11 1 (shardAt dr11 1) 0 (workerAt (shardAt dr11 1) 0)); vm_compute; reflexivity. }
  apply (rtc_l _ _ (dr11, AtShard 2)). { apply NextShard. }
  apply rtc_once. apply LastShard. vm_compute. reflexivity.
Qed.

Lemma drain_waits_for_all_witness :
  map cPtr (ofKey "order-7" (accepted dr11)) = [1; 2] /\
  ofKey "order-7" (started dr11) = ofKey "order-7" (accepted dr11).
Proof.
  split; [vm_compute; reflexivity|].
  destruct (drain_waits_for_all 2 1 1 2 2 0 dr7 dr11 ltac:(lia) ltac:(lia) dr_steps1 dr_drain) as (_ & H & _).
  exact (H "order-7").
Defined.
