(* ===== verification/DemuxItems.v ===== *)
(** * The items in the pipeline

    [demuxCores]: the records that the dispatcher and the workers hold, with their
    stamps.  Every step of the pipeline keeps them, but for an item that the
    consumer gives up when it is already stopping. *)
From S2P Require Import Prelude Types Tracker TrackerFacts Worker Demux DemuxFacts DemuxTheorems.
From stdpp Require Import base gmap list strings relations.
Open Scope Z_scope.

Section DemuxItems.
Context `{NX : Nexus} `{NXok : !NexusOk NX}.
Variables bufferLen guardCap overflowCap : Z.
Implicit Types (d : Demux) (s : WorkerShard) (k : Worker) (w : WorkItem).

Definition busyItem k : list WorkItem := match pc k with Busy _ w => [w] | _ => [] end.
Definition workerCores k : list Core := cores (busyItem k ++ queued (workItems k)).
Definition shardCores s : list Core := gather workerCores (heap s).

Definition dispatching (p : DispatchPc) : list WorkItem :=
  match p with DGuarded w | DSending _ _ w => [w] | _ => [] end.

Definition demuxCores d : list Core :=
  cores (dispatching (dispatcher d)) ++ (workerShards d ≫= shardCores).

(** ** One shard *)

Lemma shardCores_put s id k k' :
  heap s !! id = Some k -> shardCores (putWorker id k' s) ++ workerCores k ≡ₚ workerCores k' ++ shardCores s.
Proof.
  intros Hk. unfold shardCores. simpl. rewrite gather_insert, (gather_lookup _ (heap s) id k Hk).
  solve_Permutation.
Qed.

Lemma shardCores_put_same s id k k' :
  heap s !! id = Some k -> workerCores k' ≡ₚ workerCores k -> shardCores (putWorker id k' s) ≡ₚ shardCores s.
Proof. intros Hk Hc. by apply (gather_same workerCores (heap s) id k k'). Qed.

Lemma workerCores_cold k : busyItem k = [] -> workerCores k = cores (queued (workItems k)).
Proof. unfold workerCores. by intros ->. Qed.

Lemma shardCores_ReturnWorker id s : shardCores (ReturnWorker id s) ≡ₚ shardCores s.
Proof. unfold ReturnWorker. destruct (trySend _ _); [done|]. by apply gather_alter. Qed.

Lemma shardCores_pruneTick m n s : shardCores (pruneTick m n s).2 ≡ₚ shardCores s.
Proof.
  unfold pruneTick. simpl. destruct (_ && _); [|done]. destruct (tryRecv _) as [[id c]|]; [|done].
  by apply gather_alter.
Qed.

Lemma shardCores_borrow s id s' :
  heap s !! nextId s = None -> BorrowWorker bufferLen s = (id, s') -> shardCores s' ≡ₚ shardCores s.
Proof.
  intros Hn. unfold BorrowWorker. destruct (tryRecv _) as [[j c]|]; intros [= <- <-]; [done|].
  unfold shardCores. simpl. by rewrite gather_fresh.
Qed.

Lemma shardInv_fresh s pend : shardInv bufferLen s pend -> heap s !! nextId s = None.
Proof.
  intros Hi. destruct (heap s !! nextId s) as [k|] eqn:E; [|done].
  destruct (si_fresh _ _ _ Hi _ _ E). lia.
Qed.

(** A shard whose map is empty holds nothing. *)
Lemma shardCores_idle s pend : shardInv bufferLen s pend -> workers s = ∅ -> shardCores s = [].
Proof.
  intros Hi He. apply gather_nil. intros id k Hk.
  destruct (si_idle _ _ _ Hi id k Hk) as [Hq Hpc]; [intros key; by rewrite He, lookup_empty|].
  unfold workerCores, busyItem. rewrite Hq. by destruct (pc k).
Qed.

(** What the locked section does to the shard's items. *)
Lemma shardCores_dispatch s pend w r s' :
  shardInv bufferLen s pend -> dispatchLocked bufferLen (keyOf w) w s = (r, s') ->
  shardCores s' ≡ₚ (match r with Enqueued => [core w] | _ => [] end) ++ shardCores s.
Proof.
  intros Hi. unfold dispatchLocked. destruct (workers s !! keyOf w) as [id|].
  - destruct (heap s !! id) as [k|] eqn:Hk; [|by intros [= <- <-]].
    destruct (trySend _ _) as [c|] eqn:Et; intros [= <- <-]; [|done].
    apply trySend_queue in Et as [Hq _].
    unfold shardCores. simpl. rewrite gather_insert, (gather_lookup _ (heap s) id k Hk).
    unfold workerCores. rewrite !cores_app. simpl. rewrite Hq, cores_app. simpl.
    change (core (setMetrics _ w)) with (core w). change (busyItem (setItems c k)) with (busyItem k).
    solve_Permutation.
  - destruct (BorrowWorker bufferLen s) as [id s1] eqn:Eb. intros [= <- <-]. simpl.
    transitivity (shardCores s1); [by apply gather_alter|].
    eapply shardCores_borrow; [by eapply shardInv_fresh | exact Eb].
Qed.

Lemma shardCores_send id w s s' :
  sendFirst id w s = Some s' -> shardCores s' ≡ₚ core w :: shardCores s.
Proof.
  unfold sendFirst. destruct (heap s !! id) as [k|] eqn:Hk; [|done]. simpl.
  destruct (trySend _ _) as [c|] eqn:Et; [|done]. simpl. intros [= <-].
  apply trySend_queue in Et as [Hq _].
  unfold shardCores. simpl. rewrite gather_insert, (gather_lookup _ (heap s) id k Hk).
  unfold workerCores. rewrite !cores_app. simpl. rewrite Hq, cores_app. simpl.
  change (busyItem (setItems c k)) with (busyItem k). solve_Permutation.
Qed.

Lemma shardCores_retire id s s' : retire id s = Some s' -> shardCores s' ≡ₚ shardCores s.
Proof.
  unfold retire. destruct (heap s !! id) as [k|] eqn:Hk; [|done]. simpl.
  destruct (pc k) eqn:Epc; try done. destruct (_ =? 0); [|done]. intros [= <-].
  apply (shardCores_put_same s id k); [done|]. unfold workerCores, busyItem. simpl. by rewrite Epc.
Qed.

(** ** The demultiplexer *)

Lemma demuxCores_shard d d' i s s' gained lost :
  workerShards d !! i = Some s -> workerShards d' = <[i := s']> (workerShards d) ->
  cores (dispatching (dispatcher d')) ++ shardCores s' ++ lost ≡ₚ
    gained ++ cores (dispatching (dispatcher d)) ++ shardCores s ->
  demuxCores d' ++ lost ≡ₚ gained ++ demuxCores d.
Proof.
  intros Hs Hs' Hp. unfold demuxCores. rewrite Hs', (bind_insert _ _ i s s' Hs), (bind_split _ _ i s Hs).
  trans ((cores (dispatching (dispatcher d')) ++ shardCores s' ++ lost) ++ (delete i (workerShards d) ≫= shardCores));
    [solve_Permutation|]. rewrite Hp. solve_Permutation.
Qed.

Lemma demuxCores_move d d' i s s' :
  workerShards d !! i = Some s -> workerShards d' = <[i := s']> (workerShards d) ->
  cores (dispatching (dispatcher d')) ++ shardCores s' ≡ₚ cores (dispatching (dispatcher d)) ++ shardCores s ->
  demuxCores d' ≡ₚ demuxCores d.
Proof.
  intros Hs Hs' Hp. pose proof (demuxCores_shard d d' i s s' [] [] Hs Hs') as H.
  rewrite !app_nil_r in H. by apply H.
Qed.

Lemma demuxCores_quiet d d' i s s' :
  workerShards d !! i = Some s -> workerShards d' = <[i := s']> (workerShards d) ->
  dispatcher d' = dispatcher d -> shardCores s' ≡ₚ shardCores s -> demuxCores d' ≡ₚ demuxCores d.
Proof. intros Hs Hs' Hd Hc. apply (demuxCores_move d d' i s s'); try done. by rewrite Hd, Hc. Qed.

(** A worker that only changes its program point, busy neither before nor after. *)
Lemma shardCores_pc s id k p :
  heap s !! id = Some k -> busyItem k = [] -> busyItem (setPc p k) = [] ->
  shardCores (putWorker id (setPc p k) s) ≡ₚ shardCores s.
Proof. intros Hk Hb Hb'. apply (shardCores_put_same s id k); [done|]. by rewrite !workerCores_cold. Qed.

(** A worker that finishes an item lets go of it. *)
Lemma demuxCores_finish d i s id k b w f :
  workerShards d !! i = Some s -> heap s !! id = Some k -> pc k = Busy b w ->
  demuxCores (fate f (setShard i (putWorker id (setPc Hot k) s) d)) ++ [core w] ≡ₚ demuxCores d.
Proof.
  intros Hs Hk Hpc. destruct (fate_frame f (setShard i (putWorker id (setPc Hot k) s) d)) as (E & Ed & _).
  apply (demuxCores_shard d _ i s (putWorker id (setPc Hot k) s) [] [core w] Hs E). rewrite Ed. simpl.
  f_equiv. pose proof (shardCores_put s id k (setPc Hot k) Hk) as H.
  unfold workerCores in H. rewrite !cores_app in H. unfold busyItem in H. rewrite Hpc in H. simpl in H.
  apply (Permutation_app_inv_l (cores (queued (workItems k)))). rewrite <- H. solve_Permutation.
Qed.

(** The breaker has not tripped and no shard has seen the context end. *)
Definition healthyDemux d : Prop :=
  trippedBreaker d = false /\ Forall (fun s => shardDone s = false) (workerShards d).

Lemma shardDone_dispatch w s r s' :
  dispatchLocked bufferLen (keyOf w) w s = (r, s') -> shardDone s' = shardDone s.
Proof.
  unfold dispatchLocked. destruct (workers s !! keyOf w) as [id|].
  - destruct (heap s !! id); [|by intros [= <- <-]]. destruct (trySend _ _); by intros [= <- <-].
  - unfold BorrowWorker. destruct (tryRecv _) as [[? ?]|]; by intros [= <- <-].
Qed.

Lemma healthy_shard d d' i s s' :
  workerShards d !! i = Some s -> workerShards d' = <[i := s']> (workerShards d) ->
  (shardDone s' = false -> shardDone s = false) ->
  (trippedBreaker d' = false -> trippedBreaker d = false) -> healthyDemux d' -> healthyDemux d.
Proof.
  intros Hs Hs' Hd Ht [H1 H2]. split; [by apply Ht|]. rewrite Hs' in H2.
  apply Forall_lookup. intros j t Hj. rewrite Forall_lookup in H2. destruct (decide (i = j)) as [<-|Hne].
  - rewrite Hs in Hj. injection Hj as <-. apply Hd, (H2 i). apply list_lookup_insert_eq. by eapply lookup_lt_Some.
  - apply (H2 j). by rewrite list_lookup_insert_ne.
Qed.

(** The end of a consumer is final. *)
Lemma healthy_step d d' :
  demuxStep bufferLen guardCap overflowCap d d' -> healthyDemux d' -> healthyDemux d.
Proof.
  intros Hst. destruct Hst as [w|w|w s s' Hd Hs Hdisp|w s id s' Hd Hs Hdisp|w s Hd Hs|w s Hd Hs|i id w s s' Hd Hs Hsend
    |ov|i s id k w k' Hs|i s id k w Hs|i s id k w app Hs|i s id s' Hs Hr|i s id k Hs|i s id k Hs|i s id k Hs|i s m n Hs|i s Hs];
    try done; try (by intros [? ?]).
  - eapply (healthy_shard d _ _ s s'); try done. by rewrite (shardDone_dispatch _ _ _ _ Hdisp).
  - eapply (healthy_shard d _ _ s s'); try done. by rewrite (shardDone_dispatch _ _ _ _ Hdisp).
  - eapply (healthy_shard d _ _ s s'); try done. unfold sendFirst in Hsend.
    destruct (heap s !! id); [|done]. simpl in Hsend. destruct (trySend _ _); [|done]. by injection Hsend as <-.
  - by eapply (healthy_shard d _ i s).
  - by eapply (healthy_shard d _ i s).
  - destruct (fate_frame (processWorkItem false w app) (setShard i (putWorker id (setPc Hot k) s) d)) as [E _].
    eapply (healthy_shard d _ i s); [done | rewrite E; done | done |]. by destruct (processWorkItem _ _ _).
  - eapply (healthy_shard d _ i s s'); try done. unfold retire in Hr. destruct (heap s !! id) as [k|]; [|done].
    simpl in Hr. destruct (pc k); try done. destruct (_ =? 0); [|done]. by injection Hr as <-.
  - by eapply (healthy_shard d _ i s).
  - eapply (healthy_shard d _ i s); try done. unfold ReturnWorker. by destruct (trySend _ _).
  - by eapply (healthy_shard d _ i s).
  - eapply (healthy_shard d _ i s); try done. unfold pruneTick. simpl. destruct (_ && _); [|done].
    by destruct (tryRecv _) as [[? ?]|].
  - by eapply (healthy_shard d _ i s).
Qed.

(** An item given up by a worker: the breaker tripped, or its shard is done. *)
Lemma finish_unhealthy d i s id k w app :
  let d' := fate (processWorkItem false w app) (setShard i (putWorker id (setPc Hot k) s) d) in
  committedItems d' = committedItems d -> ~ healthyDemux d'.
Proof.
  intros d' Hcm [Ht _]. subst d'.
  destruct (processWorkItem false w app) eqn:Ef; [by apply processWorkItem_skipped in Ef | done |]. simpl in Hcm.
  apply (f_equal length) in Hcm. rewrite length_app in Hcm. simpl in Hcm. lia.
Qed.

Lemma skip_unhealthy d i s k id :
  workerShards d !! i = Some s -> shardDone s = true -> ~ healthyDemux (setShard i (putWorker id k s) d).
Proof.
  intros Hs Hd [_ Hall]. rewrite Forall_lookup in Hall. specialize (Hall i (putWorker id k s)). simpl in Hall.
  rewrite list_lookup_insert_eq in Hall by by eapply lookup_lt_Some. specialize (Hall eq_refl). congruence.
Qed.

(** The items after a step in which none enters and none is handed on: some may be
    given up, by a consumer that is stopping. *)
Lemma pipeline_cores d d' :
  demuxInv bufferLen guardCap overflowCap d -> demuxStep bufferLen guardCap overflowCap d d' ->
  (dispatcher d = DIdle -> dispatcher d' = DIdle) -> committedItems d' = committedItems d ->
  exists lost, demuxCores d' ++ lost ≡ₚ demuxCores d /\ (healthyDemux d' -> lost = []).
Proof.
  intros HI Hst Hidle Hcm.
  assert (Hquiet : demuxCores d' ≡ₚ demuxCores d ->
    exists lost, demuxCores d' ++ lost ≡ₚ demuxCores d /\ (healthyDemux d' -> lost = []))
    by (intros E; exists []; by rewrite app_nil_r).
  destruct Hst as [w Hd|w Hd|w s s' Hd Hs Hdisp|w s id s' Hd Hs Hdisp|w s Hd Hs Hf Hdone|w s Hd Hs|i id w s s' Hd Hs Hsend
    |ov Hd|i s id k w k' Hs Hk Hr|i s id k w Hs Hk Hpc|i s id k w app Hs Hk Hpc|i s id s' Hs Hr|i s id k Hs Hk Hpc|i s id k Hs Hk Hpc
    |i s id k Hs Hk Hpc|i s m n Hs|i s Hs]; simpl in Hidle.
  - by rewrite Hd in Hidle; specialize (Hidle eq_refl).
  - by rewrite Hd in Hidle; specialize (Hidle eq_refl).
  - apply Hquiet. eapply (demuxCores_move d _ _ s s' Hs); [done|]. rewrite Hd. simpl.
    by rewrite (shardCores_dispatch s _ w _ s' (dv_shards _ _ _ d HI _ s Hs) Hdisp).
  - apply Hquiet. eapply (demuxCores_move d _ _ s s' Hs); [done|]. rewrite Hd. simpl.
    by rewrite (shardCores_dispatch s _ w _ s' (dv_shards _ _ _ d HI _ s Hs) Hdisp).
  - exists [core w]. split; [unfold demuxCores; simpl; rewrite Hd; simpl; solve_Permutation|].
    intros [_ Hall]. simpl in Hall. rewrite Forall_lookup in Hall. specialize (Hall _ s Hs). congruence.
  - by apply Hquiet.
  - apply Hquiet. eapply (demuxCores_move d _ i s s' Hs); [done|]. rewrite Hd. simpl. by rewrite (shardCores_send id w s s' Hsend).
  - apply Hquiet. unfold demuxCores. simpl. by rewrite Hd.
  - apply Hquiet. eapply (demuxCores_quiet d _ i s); try done. apply (shardCores_put_same s id k); [done|].
    apply recv_cases in Hr as (Hq & _ & Hpc & _ & _ & Hkind). unfold workerCores, busyItem. rewrite Hpc, Hq.
    destruct Hkind as [(E & _)|(E & _)]; by rewrite E.
  - destruct (shardDone s) eqn:Hsd.
    + exists [core w]. split; [by apply (demuxCores_finish d i s id k false w Skipped)|]. intros H.
      by destruct (skip_unhealthy d i s (setPc Hot k) id Hs Hsd).
    + apply Hquiet. eapply (demuxCores_quiet d _ i s); try done. apply (shardCores_put_same s id k); [done|].
      unfold workerCores, busyItem. simpl. by rewrite Hpc.
  - exists [core w]. split; [by eapply demuxCores_finish|]. intros H.
    by destruct (finish_unhealthy d i s id k w app Hcm).
  - apply Hquiet. eapply (demuxCores_quiet d _ i s s'); try done. by eapply shardCores_retire.
  - apply Hquiet. eapply (demuxCores_quiet d _ i s); try done. apply shardCores_pc; [done | |done].
    unfold busyItem. by rewrite Hpc.
  - apply Hquiet. eapply (demuxCores_quiet d _ i s); try done. rewrite shardCores_ReturnWorker.
    apply shardCores_pc; [done | |done]. unfold busyItem. by rewrite Hpc.
  - apply Hquiet. eapply (demuxCores_quiet d _ i s); try done. apply shardCores_pc; [done | |done].
    unfold busyItem. by rewrite Hpc.
  - apply Hquiet. eapply (demuxCores_quiet d _ i s); try done. apply shardCores_pruneTick.
  - apply Hquiet. by eapply (demuxCores_quiet d _ i s).
Qed.

(** With an idle dispatcher and empty maps nothing is left. *)
Lemma demuxCores_empty d :
  demuxInv bufferLen guardCap overflowCap d -> dispatcher d = DIdle ->
  (forall i s, workerShards d !! i = Some s -> workers s = ∅) -> demuxCores d = [].
Proof.
  intros HI Hd He. unfold demuxCores. rewrite Hd. simpl. apply bind_nil. intros s Hs.
  apply list_elem_of_lookup in Hs as [i Hi].
  eapply shardCores_idle; [by apply (dv_shards _ _ _ d HI i) | by eapply He].
Qed.

End DemuxItems.
