(* ===== verification/DemuxLive.v ===== *)
(** * The work left in the shards

    With the polling loop blocked the workers have a bounded amount of work: every
    step of a worker lowers [workLeft], and a registered worker can make a step of its
    own or has an item with the handler, whose end needs room in the committer's
    channel.  [EngineLive] adds that channel and concludes that a drain ends. *)
From S2P Require Import Prelude Types Worker Demux DemuxFacts DemuxTheorems DemuxDrain DemuxItems.
From stdpp Require Import base gmap list strings relations.
Open Scope Z_scope.

Section DemuxLive.
Context `{NX : Nexus} `{NXok : !NexusOk NX}.
Variables bufferLen guardCap overflowCap : Z.
Implicit Types (d : Demux) (s : WorkerShard) (k : Worker).

Abbreviation demuxStep := (demuxStep bufferLen guardCap overflowCap).
Abbreviation demuxInv := (demuxInv bufferLen guardCap overflowCap).

(** ** The measure *)

(** The steps a worker can still make: six per waiting item (it is received, the
    shard is checked, the item is handled, and the worker looks again), and those left
    of its current turn. *)
Definition rank (p : WorkerPc) : nat :=
  match p with Exited => 0 | Cold => 1 | Returning => 2 | Releasing => 3 | Hot => 4 | Busy true _ => 5 | Busy false _ => 6 end.

Definition workOf k : nat := 6 * length (queued (workItems k)) + rank (pc k).

(** One mark per step, collected over the workers and the shards. *)
Definition workMarks k : list unit := replicate (workOf k) ().
Definition shardMarks s : list unit := gather workMarks (heap s).
Definition workLeft d : nat := length (workerShards d ≫= shardMarks).

Lemma workLeft_shard d d' i s s' :
  workerShards d !! i = Some s -> workerShards d' = <[i := s']> (workerShards d) ->
  (workLeft d' + length (shardMarks s) = workLeft d + length (shardMarks s'))%nat.
Proof.
  intros Hs Hs'. unfold workLeft. rewrite Hs', (bind_insert _ _ i s s' Hs), (bind_split _ _ i s Hs), !length_app. lia.
Qed.

Lemma shardMarks_put s id k k' :
  heap s !! id = Some k ->
  (length (shardMarks (putWorker id k' s)) + workOf k = length (shardMarks s) + workOf k')%nat.
Proof.
  intros Hk. unfold shardMarks. simpl. rewrite gather_insert, (gather_lookup _ (heap s) id k Hk), !length_app.
  unfold workMarks at 1 3. rewrite !length_replicate. lia.
Qed.

(** A worker's program point moves. *)
Definition advances d d' : Prop :=
  exists i s s' id k k', workerShards d !! i = Some s /\ workerShards d' !! i = Some s' /\
    heap s !! id = Some k /\ heap s' !! id = Some k' /\ pc k' <> pc k.

(** A step while the polling loop is blocked. *)
Definition idleStep d d' : Prop := demuxStep d d' /\ dispatcher d = DIdle /\ dispatcher d' = DIdle.

Definition lowers d d' : Prop :=
  (workLeft d' <= workLeft d)%nat /\ (advances d d' -> (workLeft d' < workLeft d)%nat).

(** A worker that moves, in a shard whose pool and map may change with it. *)
Lemma worker_lowers d d' i s s' id k k' :
  workerShards d !! i = Some s -> workerShards d' = <[i := s']> (workerShards d) -> heap s !! id = Some k ->
  shardMarks s' ≡ₚ shardMarks (putWorker id k' s) -> (workOf k' < workOf k)%nat -> lowers d d'.
Proof.
  intros Hs Hs' Hk Hp Hlt. pose proof (workLeft_shard d d' i s s' Hs Hs') as H. rewrite Hp in H.
  pose proof (shardMarks_put s id k k' Hk). unfold lowers. lia.
Qed.

Lemma shard_keeps d d' i s s' :
  workerShards d !! i = Some s -> workerShards d' = <[i := s']> (workerShards d) ->
  shardMarks s' ≡ₚ shardMarks s -> workLeft d' = workLeft d.
Proof.
  intros Hs Hs' Hp. pose proof (workLeft_shard d d' i s s' Hs Hs') as H. rewrite Hp in H. lia.
Qed.

Lemma shardMarks_pruneTick m n s : shardMarks (pruneTick m n s).2 ≡ₚ shardMarks s.
Proof.
  unfold pruneTick. simpl. destruct (_ && _); [|done]. destruct (tryRecv _) as [[id c]|]; [|done].
  by apply gather_alter.
Qed.

Lemma shardMarks_ReturnWorker id s : shardMarks (ReturnWorker id s) ≡ₚ shardMarks s.
Proof. unfold ReturnWorker. destruct (trySend _ _); [done|]. by apply gather_alter. Qed.

(** A shard in which nothing but the pool or a flag changes has the same program points. *)
Lemma no_advance d d' i s s' :
  workerShards d !! i = Some s -> workerShards d' = <[i := s']> (workerShards d) ->
  (forall id k k', heap s !! id = Some k -> heap s' !! id = Some k' -> pc k' = pc k) -> ~ advances d d'.
Proof.
  intros Hs Hs' Hpc (j & t & t' & id & k & k' & Ht & Ht' & Hk & Hk' & Hne). rewrite Hs' in Ht'.
  destruct (decide (i = j)) as [<-|Hij].
  - rewrite list_lookup_insert_eq in Ht' by by eapply lookup_lt_Some. injection Ht' as <-.
    rewrite Hs in Ht. injection Ht as <-. by destruct Hne; eapply Hpc.
  - rewrite list_lookup_insert_ne in Ht' by done. congruence.
Qed.

Lemma alter_pc (f : Worker -> Worker) j (h : gmap Z Worker) id k k' :
  (forall x, pc (f x) = pc x) -> h !! id = Some k -> alter f j h !! id = Some k' -> pc k' = pc k.
Proof.
  intros Hf Hk. destruct (decide (j = id)) as [->|Hne].
  - rewrite lookup_alter_eq, Hk. intros [= <-]. apply Hf.
  - rewrite lookup_alter_ne by done. congruence.
Qed.

Lemma pruneTick_pc m n s id k k' :
  heap s !! id = Some k -> heap (pruneTick m n s).2 !! id = Some k' -> pc k' = pc k.
Proof.
  intros Hk. unfold pruneTick. simpl. destruct (_ && _); [|congruence].
  destruct (tryRecv _) as [[j c]|]; [|congruence]. simpl. by apply alter_pc.
Qed.

Lemma quiet_lowers d d' i s s' :
  workerShards d !! i = Some s -> workerShards d' = <[i := s']> (workerShards d) ->
  shardMarks s' ≡ₚ shardMarks s ->
  (forall id k k', heap s !! id = Some k -> heap s' !! id = Some k' -> pc k' = pc k) -> lowers d d'.
Proof.
  intros Hs Hs' Hp Hpc. split; [by rewrite (shard_keeps d d' i s s')|]. intros Ha.
  by destruct (no_advance d d' i s s' Hs Hs' Hpc).
Qed.

(** No step raises the work left, and every step of a worker lowers it. *)
Lemma idle_lowers d d' : idleStep d d' -> lowers d d'.
Proof.
  intros (Hst & Hd & Hd').
  destruct Hst as [w|w|w s s' H|w s id s' H|w s H|w s H|i id w s s' H|ov H|i s id k w k' Hs Hk Hr|i s id k w Hs Hk Hpc|i s id k w app Hs Hk Hpc
    |i s id s' Hs Hr|i s id k Hs Hk Hpc|i s id k Hs Hk Hpc|i s id k Hs Hk Hpc|i s m n Hs|i s Hs]; try done; try congruence.
  - apply (worker_lowers d _ i s (putWorker id k' s) id k k'); try done.
    apply recv_cases in Hr as (Hq & _ & Hpc & _ & _ & Hkind). unfold workOf. rewrite Hq, Hpc. simpl.
    destruct Hkind as [(-> & _)|(-> & _)]; simpl; lia.
  - eapply (worker_lowers d _ i s _ id k); try done.
    unfold workOf. rewrite Hpc. simpl. destruct (shardDone s); simpl; lia.
  - apply (worker_lowers d _ i s (putWorker id (setPc Hot k) s) id k (setPc Hot k)); try done; [apply fate_frame|].
    unfold workOf. rewrite Hpc. simpl. lia.
  - unfold retire in Hr. destruct (heap s !! id) as [k|] eqn:Hk; [|done]. simpl in Hr.
    destruct (pc k) eqn:Hpc; try done. destruct (_ =? 0); [|done]. injection Hr as <-.
    eapply (worker_lowers d _ i s _ id k (setActive false (setPc Releasing k))); try done.
    unfold workOf. simpl. rewrite Hpc. simpl. lia.
  - apply (worker_lowers d _ i s (putWorker id (setPc Returning k) s) id k (setPc Returning k)); try done.
    unfold workOf. rewrite Hpc. simpl. lia.
  - eapply (worker_lowers d _ i s _ id k (setPc Cold k)); try done; [apply shardMarks_ReturnWorker|].
    unfold workOf. rewrite Hpc. simpl. lia.
  - apply (worker_lowers d _ i s (putWorker id (setPc Exited k) s) id k (setPc Exited k)); try done.
    unfold workOf. rewrite Hpc. simpl. lia.
  - eapply (quiet_lowers d _ i s); try done; [apply shardMarks_pruneTick|]. intros id k k'. apply pruneTick_pc.
  - eapply (quiet_lowers d _ i s); try done. simpl. congruence.
Qed.

(** ** Progress *)

(** A step of a worker by which no item is handed on and the breaker does not trip. *)
Definition workerStep d d' : Prop :=
  idleStep d d' /\ advances d d' /\ committedItems d' = committedItems d /\ trippedBreaker d' = trippedBreaker d.

(** A step that moves worker [id] of shard [i]. *)
Lemma moves d d' i s s' id k k' :
  demuxStep d d' -> dispatcher d = DIdle -> dispatcher d' = DIdle ->
  workerShards d !! i = Some s -> workerShards d' = <[i := s']> (workerShards d) ->
  heap s !! id = Some k -> heap s' !! id = Some k' -> pc k' <> pc k -> idleStep d d' /\ advances d d'.
Proof.
  intros Hst Hd Hd' Hs Hs' Hk Hk' Hne. split; [done|]. exists i, s, s', id, k, k'.
  split_and!; try done. rewrite Hs'. apply list_lookup_insert_eq. by eapply lookup_lt_Some.
Qed.

Lemma receive_moves d i s id k w k' :
  dispatcher d = DIdle -> workerShards d !! i = Some s -> heap s !! id = Some k ->
  coldRecv k = Some (w, k') \/ hotRecv k = Some (w, k') -> exists d', workerStep d d'.
Proof.
  intros Hd Hs Hk Hr. exists (start w (setShard i (putWorker id k' s) d)).
  destruct (moves d (start w (setShard i (putWorker id k' s) d)) i s (putWorker id k' s) id k k'); try done.
  - by eapply WorkerReceive.
  - simpl. apply lookup_insert_eq.
  - apply recv_cases in Hr as (_ & _ & -> & _ & _ & [(-> & _)|(-> & _)]); done.
Qed.

(** With an idle dispatcher a registered worker can move by itself, by taking an item,
    checking the shard or leaving, or it has an item with the handler. *)
Lemma registered_moves d i s key id :
  demuxInv d -> dispatcher d = DIdle -> workerShards d !! i = Some s -> workers s !! key = Some id ->
  (exists d', workerStep d d') \/ exists k w, heap s !! id = Some k /\ pc k = Busy true w.
Proof.
  intros HI Hd Hs Hm. pose proof (dv_shards _ _ _ d HI i s Hs) as Hi.
  assert (Hp : pendOf d i = None) by (unfold pendOf; by rewrite Hd). rewrite Hp in Hi.
  destruct (si_map _ _ _ Hi key id Hm) as (k & Hk & [_ Hpc _ _ _]). simpl in Hpc. rewrite app_nil_r in Hpc.
  destruct (pc k) as [|[] w| | | |] eqn:Epc; try done.
  - left. destruct (queued (workItems k)) as [|w q] eqn:Eq; [done|].
    eapply (receive_moves d i s id k w); try done. left. unfold coldRecv, tryRecv. by rewrite Epc, Eq.
  - right. by exists k, w.
  - left. set (k' := setPc (if shardDone s then Hot else Busy true w) k).
    exists (setShard i (putWorker id k' s) d).
    destruct (moves d (setShard i (putWorker id k' s) d) i s (putWorker id k' s) id k k'); try done;
      [by apply WorkerCheck | apply lookup_insert_eq | rewrite Epc; simpl; by destruct (shardDone s)].
  - left. destruct (queued (workItems k)) as [|w q] eqn:Eq.
    + set (s' := setWorkers (delete (partitionKey k) (workers s)) (putWorker id (setActive false (setPc Releasing k)) s)).
      exists (setShard i s' d).
      destruct (moves d (setShard i s' d) i s s' id k (setActive false (setPc Releasing k))); try done;
        [|apply lookup_insert_eq | by rewrite Epc].
      eapply WorkerRetire; [done|]. unfold retire. rewrite Hk. simpl. rewrite Epc. unfold chLen. by rewrite Eq.
    + eapply (receive_moves d i s id k w); try done. right. unfold hotRecv, tryRecv. by rewrite Epc, Eq.
Qed.

Lemma shard_dec d : (exists i s key id, workerShards d !! i = Some s /\ workers s !! key = Some id) \/
  forall i s, workerShards d !! i = Some s -> workers s = ∅.
Proof.
  destruct (decide (Exists (fun s => workers s <> ∅) (workerShards d))) as [He|Hn].
  - left. apply Exists_exists in He as (s & Hin & Hne). apply list_elem_of_lookup in Hin as [i Hi].
    apply map_choose in Hne as (key & id & Hm). eauto 6.
  - right. intros i s Hs. apply dec_stable. intros Hne. apply Hn, Exists_exists. exists s.
    split; [by eapply list_elem_of_lookup_2 | done].
Qed.

End DemuxLive.
