(* ===== verification/Processor.v ===== *)
(** * From a payload to a dispatched work item ([processor.go], [demux/alloc])

    The pool of work items, [toWorkItem], and [Process] up to the call of
    [SendToWorkerForProcessing], which [Demux] continues.  [sync.Pool] may hand
    out any pooled item, make a new one, or forget pooled items at will. *)
From S2P Require Import Prelude Types Config Prev.
From stdpp Require Import base gmap list strings relations.
Open Scope Z_scope.

Section Processor.
Context `{NX : Nexus}.
Implicit Types (w : WorkItem) (m : gmap Z Z).

(** ** The pool ([work_items_pool.go]) *)

Definition zeroMetrics (workerPool : Z) : Metrics := mkMetrics 0 0 0 0 0 0 0 0 0 workerPool.

(** The pool's [New] function; [p] is the address of the new object. *)
Definition NewWorkItem (p : Z) : WorkItem :=
  mkWorkItem p (mkMessage 0 0 0 EmptyString None) (zeroMetrics 0) None (-1) false 0.

(** The fields [Return] assigns before the [Put]; [Metrics.WorkerPool] is not
    among them. *)
Definition ReturnItem w : WorkItem :=
  mkWorkItem (ptr w) (mkMessage 0 0 0 EmptyString None) (zeroMetrics (mxWorkerPool (wiMetrics w)))
    None (-1) false 0.

(** The items in the pool and the items borrowed; [nextPtr] is a fresh address. *)
Record WorkItemsPool := mkPool { pooledItems : list WorkItem; borrowed : list Z; nextPtr : Z }.

Inductive poolStep (s : WorkItemsPool) : WorkItemsPool -> Prop :=
| BorrowNew :
    poolStep s (mkPool (pooledItems s) (nextPtr s :: borrowed s) (nextPtr s + 1))
| BorrowPooled w rest :
    pooledItems s ≡ₚ w :: rest -> poolStep s (mkPool rest (ptr w :: borrowed s) (nextPtr s))
| ReturnBorrowed w rest :
    borrowed s ≡ₚ ptr w :: rest -> poolStep s (mkPool (ReturnItem w :: pooledItems s) rest (nextPtr s))
| ForgetPooled w rest :
    pooledItems s ≡ₚ w :: rest -> poolStep s (mkPool rest (borrowed s) (nextPtr s)).

(** An item as the pool may hand it out: zeroed, but for [Metrics.WorkerPool]. *)
Definition blank w : Prop := exists p n, w = setMetrics (fun _ => zeroMetrics n) (NewWorkItem p).

Record poolInv (s : WorkItemsPool) : Prop := {
  po_nodup : NoDup (map ptr (pooledItems s) ++ borrowed s);
  po_fresh : forall p, p ∈ map ptr (pooledItems s) ++ borrowed s -> p < nextPtr s;
  po_blank : Forall blank (pooledItems s)
}.

Lemma poolInv_sub s items out next :
  poolInv s -> map ptr items ++ out ⊆+ map ptr (pooledItems s) ++ borrowed s -> nextPtr s <= next ->
  Forall blank items -> poolInv (mkPool items out next).
Proof.
  intros [Hn Hf Hb] Hsub Hle Hbl. split; simpl; [|intros p Hp|done].
  - apply submseteq_Permutation in Hsub as [k Hk]. rewrite Hk in Hn. by apply NoDup_app in Hn as (? & _).
  - enough (p < nextPtr s) by lia. apply Hf. by eapply elem_of_submseteq.
Qed.

Lemma pool_step s s' : poolStep s s' -> poolInv s -> poolInv s'.
Proof.
  intros Hs HI. pose proof HI as [Hn Hf Hb]. destruct Hs as [|w rest Hp|w rest Hp|w rest Hp].
  - split; simpl; [| |done].
    + rewrite <- Permutation_middle. constructor; [|done]. intros Hin. specialize (Hf _ Hin). lia.
    + intros p. rewrite <- Permutation_middle. intros [->|Hin]%elem_of_cons; [lia|]. specialize (Hf _ Hin). lia.
  - apply (poolInv_sub s); [done | | lia |].
    + rewrite Hp. simpl. by rewrite <- Permutation_middle.
    + rewrite Hp in Hb. by inversion Hb.
  - apply (poolInv_sub s); [done | | lia |].
    + rewrite Hp. simpl. by rewrite <- Permutation_middle.
    + constructor; [|done]. by exists (ptr w), (mxWorkerPool (wiMetrics w)).
  - apply (poolInv_sub s); [done | | lia |].
    + rewrite Hp. simpl. apply submseteq_cons. done.
    + rewrite Hp in Hb. by inversion Hb.
Qed.

Definition emptyPool : WorkItemsPool := mkPool [] [] 0.

(** [warmPool]: [Get] as many items as the pipeline is sized for, then [Put] them all
    back as they are. *)
Definition poolGet (s : WorkItemsPool) : WorkItem * WorkItemsPool :=
  match pooledItems s with
  | w :: rest => (w, mkPool rest (ptr w :: borrowed s) (nextPtr s))
  | [] => (NewWorkItem (nextPtr s), mkPool [] (nextPtr s :: borrowed s) (nextPtr s + 1))
  end.

Definition poolPut (s : WorkItemsPool) w : WorkItemsPool :=
  mkPool (w :: pooledItems s) (filter (fun p => p <> ptr w) (borrowed s)) (nextPtr s).

Fixpoint getAll (n : nat) (s : WorkItemsPool) : list WorkItem * WorkItemsPool :=
  match n with
  | O => ([], s)
  | S n => let '(w, s) := poolGet s in let '(ws, s) := getAll n s in (w :: ws, s)
  end.

Definition warmPool (n : nat) (s : WorkItemsPool) : WorkItemsPool :=
  let '(ws, s) := getAll n s in foldl poolPut s ws.

Definition NewWorkItemsPool (c : DemuxConfig) : WorkItemsPool :=
  warmPool (Z.to_nat (CalcWorkItemPoolSize c)) emptyPool.

(** From an empty pool every [Get] makes a new item. *)
Lemma getAll_new n out next :
  getAll n (mkPool [] out next) =
  (map NewWorkItem (seqZ next (Z.of_nat n)), mkPool [] (reverse (seqZ next (Z.of_nat n)) ++ out) (next + Z.of_nat n)).
Proof.
  revert out next. induction n as [|n IH]; intros out next; cbn [getAll poolGet pooledItems borrowed nextPtr].
  - by rewrite Z.add_0_r.
  - rewrite IH, (seqZ_cons next (Z.of_nat (S n))) by lia.
    replace (Z.pred (Z.of_nat (S n))) with (Z.of_nat n) by lia. change (Z.succ next) with (next + 1).
    cbn [map]. rewrite reverse_cons, <- app_assoc. do 2 f_equal. lia.
Qed.

Lemma putAll_pooled ws s : pooledItems (foldl poolPut s ws) = reverse ws ++ pooledItems s.
Proof.
  revert s. induction ws as [|w ws IH]; intros s; [done|]. cbn [foldl]. by rewrite IH, reverse_cons, <- app_assoc.
Qed.

Lemma putAll_next ws s : nextPtr (foldl poolPut s ws) = nextPtr s.
Proof. revert s. induction ws as [|w ws IH]; intros s; [done|]. cbn [foldl]. by rewrite IH. Qed.

Lemma putAll_borrowed ws s p : p ∈ borrowed (foldl poolPut s ws) -> p ∈ borrowed s /\ p ∉ map ptr ws.
Proof.
  revert s. induction ws as [|w ws IH]; intros s; cbn [foldl map].
  - intros Hp. split; [done | apply not_elem_of_nil].
  - intros [[Hne Hin]%list_elem_of_filter Hws]%IH. split; [done|]. by apply not_elem_of_cons.
Qed.

(** A warmed pool holds as many new items as it is sized for, and none is lent. *)
Lemma NewWorkItemsPool_warmed c :
  let n := Z.of_nat (Z.to_nat (CalcWorkItemPoolSize c)) in
  NewWorkItemsPool c = mkPool (reverse (map NewWorkItem (seqZ 0 n))) [] n.
Proof.
  cbv zeta. unfold NewWorkItemsPool, warmPool, emptyPool. rewrite getAll_new, app_nil_r, Z.add_0_l.
  set (n := Z.of_nat _). set (s := mkPool [] (reverse (seqZ 0 n)) n).
  pose proof (putAll_pooled (map NewWorkItem (seqZ 0 n)) s) as Hp.
  pose proof (putAll_next (map NewWorkItem (seqZ 0 n)) s) as Hn.
  assert (Hb : borrowed (foldl poolPut s (map NewWorkItem (seqZ 0 n))) = []).
  { destruct (borrowed _) as [|p l] eqn:E; [done|]. exfalso.
    destruct (putAll_borrowed (map NewWorkItem (seqZ 0 n)) s p) as [H1 H2]; [rewrite E; left|].
    apply H2. rewrite map_map. cbn [ptr NewWorkItem]. rewrite map_id. cbn [s borrowed] in H1. by rewrite elem_of_reverse in H1. }
  destruct (foldl poolPut s _) as [items out next]. cbn [pooledItems borrowed nextPtr s] in *.
  rewrite app_nil_r in Hp. by subst.
Qed.

Lemma warmed_inv c : poolInv (NewWorkItemsPool c).
Proof.
  rewrite NewWorkItemsPool_warmed. set (n := Z.of_nat _).
  assert (Hp : map ptr (reverse (map NewWorkItem (seqZ 0 n))) = reverse (seqZ 0 n)).
  { etrans; [apply (fmap_reverse ptr)|]. f_equal. etrans; [apply map_map|]. apply map_id. }
  split; cbn [pooledItems borrowed nextPtr].
  - rewrite Hp, app_nil_r, reverse_Permutation. apply NoDup_seqZ.
  - intros p. rewrite Hp, app_nil_r, elem_of_reverse, elem_of_seqZ. lia.
  - apply Forall_reverse, Forall_fmap, Forall_forall. intros p _. by exists p, 0.
Qed.

(** ** [toWorkItem] and [Process] *)

(** What the adapter's [extractEnvelope] returns. *)
Record Envelope := mkEnvelope { eKey : string; ePartition : Z; eOffset : Z; eCtx : option Ctx }.

Definition toWorkItem m w (env : Envelope) (payload : option Payload)
    : gmap Z Z * (WorkItem * option OffsetError) :=
  let '(m', (prev, first, err)) := GetPrevious m (ePartition env) (eOffset env) in
  (m', (mkWorkItem (ptr w)
          (mkMessage (msgTraits (wiMessage w)) (ePartition env) (eOffset env) (eKey env) payload)
          (wiMetrics w) (eCtx env) prev first (WorkerPool w), err)).

(** How the two [select]s of [Process] end. *)
Inductive Acquire := GuardNow | GuardLater | OverflowLater | AcquireTimeout.

Inductive ProcessError := OffsetRejected (e : OffsetError) | NoWorker (partition offset : Z).

Definition setReadTime (t : Z) (x : Metrics) : Metrics :=
  mkMetrics (Traits x) (QueueDepth x) (mxPartition x) (mxOffset x) (ProcessDuration x)
    (WriteDeadLetterDuration x) t (ProcessStartTime x) (WatermarkAdvanceTime x) (mxWorkerPool x).

(** The item passed to [SendToWorkerForProcessing], or the error that makes the
    polling loop trip the breaker. *)
Definition Process m w (env : Envelope) (payload : option Payload) (readTime : Z) (a : Acquire)
    : gmap Z Z * (ProcessError + WorkItem) :=
  let '(m', (w, err)) := toWorkItem m w env payload in
  match err with
  | Some e => (m', inl (OffsetRejected e))
  | None =>
      let w := setMetrics (setReadTime readTime) w in
      (m', match a with
           | GuardNow | GuardLater => inr w
           | OverflowLater => inr (mark SetUsedOverflow w)
           | AcquireTimeout => inl (NoWorker (ePartition env) (eOffset env))
           end)
  end.

(** An item, and a result, with the value of the one metrics field [Return] leaves
    behind. *)
Definition withPool (n : Z) w : WorkItem := setMetrics (fun x => mkMetrics (Traits x) (QueueDepth x)
  (mxPartition x) (mxOffset x) (ProcessDuration x) (WriteDeadLetterDuration x) (ReadTime x)
  (ProcessStartTime x) (WatermarkAdvanceTime x) n) w.

Definition resultWithPool (n : Z) (r : ProcessError + WorkItem) : ProcessError + WorkItem :=
  match r with inl e => inl e | inr w => inr (withPool n w) end.

(** ** Properties *)

(** C31: what recycling leaves behind.  From a warmed pool, whatever is borrowed,
    returned and forgotten, no work item is lent to two owners; and a pooled item
    differs from a new one in [Metrics.WorkerPool] alone: for every payload, [Process]
    tracks the same offsets, fails with the same error, or dispatches the item it would
    have made of a new one, except that this field holds what the item's last user
    left in it, since [Return] does not reset it. *)
Theorem recycled_exact c s :
  rtc poolStep (NewWorkItemsPool c) s ->
  NoDup (map ptr (pooledItems s) ++ borrowed s) /\
  forall w m env payload readTime a, w ∈ pooledItems s ->
    let stale := mxWorkerPool (wiMetrics w) in
    let r := Process m w env payload readTime a in
    let r' := Process m (NewWorkItem (ptr w)) env payload readTime a in
    w = withPool stale (NewWorkItem (ptr w)) /\ r = (r'.1, resultWithPool stale r'.2).
Proof.
  intros Hr. assert (HI : poolInv s).
  { revert s Hr. apply (rtc_ind_r poolInv); [apply warmed_inv|]. intros s1 s2 _ Hst HI. by eapply pool_step. }
  split; [apply HI|]. intros w m env payload t a Hw.
  pose proof (po_blank s HI) as Hb. rewrite Forall_forall in Hb. destruct (Hb w Hw) as (p & n & ->).
  split; [done|]. unfold Process, toWorkItem. simpl.
  destruct (GetPrevious m (ePartition env) (eOffset env)) as [m' [[prev first] [e|]]]; [done|].
  by destruct a.
Qed.

(** What reaches the workers.  [Process] dispatches an item exactly when the
    offset follows the partition's last and a token was acquired; the item then
    carries the envelope's key, partition and offset, the stamp of the polling
    boundary and the read time, and is marked as overflow exactly when its token
    is an overflow token.  Otherwise the polling loop gets an error. *)
Lemma process_dispatches `{!NexusOk NX} m p env payload readTime a m' r :
  Process m (NewWorkItem p) env payload readTime a = (m', r) ->
  let '(m1, (prev, first, err)) := GetPrevious m (ePartition env) (eOffset env) in
  m' = m1 /\
  match r with
  | inr w =>
      err = None /\ a <> AcquireTimeout /\ Key (wiMessage w) = eKey env /\ msgPayload (wiMessage w) = payload /\
      core w = mkCore p (ePartition env) (eOffset env) prev first readTime /\
      (hasTrait (Traits (wiMetrics w)) UsedOverflow = true <-> a = OverflowLater)
  | inl (OffsetRejected e) => err = Some e
  | inl (NoWorker q o) => err = None /\ a = AcquireTimeout /\ (q, o) = (ePartition env, eOffset env)
  end.
Proof.
  unfold Process, toWorkItem.
  destruct (GetPrevious m (ePartition env) (eOffset env)) as [m1 [[prev first] [e|]]]; [by intros [= <- <-]|].
  pose proof noTraits_usedOverflow as H0. pose proof (SetUsedOverflow_set 0) as H1.
  destruct a; intros [= <- <-]; simpl; split_and!; try done; rewrite ?H0, ?H1; done.
Qed.

End Processor.

(** An item lent by a warmed pool of 5000 items, used once, recycled, and lent again. *)
Definition usedItem : WorkItem :=
  mkWorkItem 5000 (mkMessage 64 3 9 "k" (Some 1)) (mkMetrics 5 1 3 9 1 1 1 1 1 7) (Some tt) 8 false 7.

Lemma recycled_steps items : rtc poolStep (mkPool items [] 5000) (mkPool (ReturnItem usedItem :: items) [] 5001).
Proof.
  eapply rtc_l; [apply BorrowNew|]. apply rtc_once. by apply (ReturnBorrowed (mkPool items [5000] 5001) usedItem []).
Qed.

Lemma warmed_default :
  NewWorkItemsPool zeroConfig = mkPool (reverse (map NewWorkItem (seqZ 0 5000))) [] 5000.
Proof.
  rewrite NewWorkItemsPool_warmed. by replace (Z.of_nat (Z.to_nat (CalcWorkItemPoolSize zeroConfig))) with 5000.
Qed.

Lemma recycled_exact_witness :
  length (reverse (map NewWorkItem (seqZ 0 5000))) = 5000%nat /\
  Process ∅ (ReturnItem usedItem) (mkEnvelope "a" 1 4 None) (Some 2) 11 GuardNow =
  (<[1 := 4]> ∅, inr (withPool 7 (mkWorkItem 5000 (mkMessage 0 1 4 "a" (Some 2)) (mkMetrics 0 0 0 0 0 0 11 0 0 0) None 3 true 0))).
Proof.
  split; [by rewrite length_reverse, length_map, length_seqZ|].
  generalize (recycled_exact zeroConfig). rewrite warmed_default.
  generalize (reverse (map NewWorkItem (seqZ 0 5000))). intros items H. destruct (H _ (recycled_steps items)) as [_ H'].
  exact (proj2 (H' (ReturnItem usedItem) ∅ (mkEnvelope "a" 1 4 None) (Some 2) 11 GuardNow (list_elem_of_here _ _))).
Defined.
