(* ===== verification/Engine.v ===== *)
(** * The whole consumer: polling loop, demultiplexer, committer and group

    [World] treats the pipeline as a bag from which any item may complete, and
    [Demux] runs the pipeline without saying where its items come from or go to.
    An [Engine] is both: the polling loop stamps a record, waits for a guard token and
    dispatches it to the shards; a worker that has handled an item sends it to the
    committer's channel; ingest, commit ticks, rebalances and the group are the steps
    of [World].

    [eWorld] is everything but the pipeline: its [wInflight] stays empty.
    [eStamped] is the item the polling loop holds in [Process] while it waits for a
    token, [ePolling] whether the loop is still running.  [eHandled] records the
    items handed to the committer with the application's calls, [eElsewhere] the
    records that other members of the group have processed. *)
From S2P Require Import Prelude Types RingBuffer Tracker Committer Prev Subscription World.
From S2P Require Import Worker Demux DemuxFacts DemuxTheorems DemuxItems Processor.
From stdpp Require Import base gmap list strings relations.
Open Scope Z_scope.

Section Engine.
Context `{NX : Nexus} `{RT : GoRuntime}.
Variable R : Z -> Z -> Prop.
Variable exact : Prop.
Variables bufferLen guardCap overflowCap : Z.

Record Engine := mkEngine {
  eWorld : World;
  eDemux : Demux;
  eStamped : option WorkItem;
  ePolling : bool;
  eHandled : list (WorkItem * AppCall);
  eElsewhere : Z -> Z -> Prop
}.

Definition setWorld (w : World) (e : Engine) : Engine :=
  mkEngine w (eDemux e) (eStamped e) (ePolling e) (eHandled e) (eElsewhere e).
Definition setDemux (d : Demux) (e : Engine) : Engine :=
  mkEngine (eWorld e) d (eStamped e) (ePolling e) (eHandled e) (eElsewhere e).
Definition setStamped (o : option WorkItem) (e : Engine) : Engine :=
  mkEngine (eWorld e) (eDemux e) o (ePolling e) (eHandled e) (eElsewhere e).
Definition stopPolling (e : Engine) : Engine :=
  mkEngine (eWorld e) (eDemux e) (eStamped e) false (eHandled e) (eElsewhere e).

(** The polling loop is outside [Process]. *)
Definition pollingIdle (e : Engine) : Prop :=
  eStamped e = None /\ dispatcher (eDemux e) = DIdle.

(** A polled record: the item enters the history, and its partition's read
    position moves past it. *)
Definition pollWorld (item : WorkItem) (prev' : gmap Z Z) (w : World) : World :=
  mkWorld (wOc w) (wIngest w) (wSub w) prev'
    (<[partitionOf item := offsetOf item + 1]> (wFetch w))
    (item :: wPolled w) (wInflight w) (wHandler w) (wOwned w) (wBroker w) (wDone w).

(** An item handed to the committer. *)
Definition collectWorld (oc : Committer) (item : WorkItem) (w : World) : World :=
  mkWorld oc (wIngest w) (wSub w) (wPrev w) (wFetch w) (wPolled w) (wInflight w) (wHandler w)
    (wOwned w) (wBroker w) (complete (wDone w) item).

(** Another member commits. *)
Definition otherWorld (p pos : Z) (more : Z -> Z -> Prop) (w : World) : World :=
  mkWorld (wOc w) (wIngest w) (wSub w) (wPrev w) (wFetch w) (wPolled w) (wInflight w) (wHandler w)
    (wOwned w) (update (wBroker w) p pos) (fun q r => wDone w q r \/ more q r).

(** A step of the pipeline in which no item enters and none is handed on. *)
Definition pipelineStep (d d' : Demux) : Prop :=
  demuxStep bufferLen guardCap overflowCap d d' /\
  (dispatcher d = DIdle -> dispatcher d' = DIdle) /\ committedItems d' = committedItems d.

(** A step of the ingest loop, of a commit tick or of the rebalance handler. *)
Definition surroundings (w w' : World) : Prop :=
  step R exact w w' /\ wPolled w' = wPolled w /\ wDone w' = wDone w.

(** The steps.
    - [EnginePoll]: [poll] returned a record of an owned partition and [toWorkItem]
      stamped it ([ptr] names one use of a work item: an object that the pool hands out
      again counts as a new one, since [ReturnWorkItem] has cleared it and nothing
      else holds it); [EngineReject]: [toWorkItem] failed, so the loop trips the breaker
      and ends;
    - [EngineAcquire]: one of the [select]s of [Process] got a token;
      [EngineTimeout]: neither did, the loop trips the breaker and ends;
    - [EnginePipeline]: a step of the dispatcher, a worker or a pool;
    - [EngineCollect]: a worker's handling of an item succeeded, and the item went into
      the committer's channel, which has room;
    - [EngineAround]: the rest of the consumer.  A rebalance is delivered from inside
      [poll], so a handler runs only while the polling loop is outside [Process];
    - [EngineOther]: another member commits a partition it owns;
    - [EngineStop]: the polling loop takes the stop request of a shutdown, or sees the
      context end. *)
Inductive engineStep (e : Engine) : Engine -> Prop :=
| EnginePoll w0 env payload readTime f prev' item :
    ePolling e = true -> pollingIdle e -> wHandler (eWorld e) = [] ->
    blank w0 -> ptr w0 ∉ map ptr (wPolled (eWorld e)) ->
    wFetch (eWorld e) !! ePartition env = Some f -> f <= eOffset env ->
    noRecord R (ePartition env) f (eOffset env) -> in_int64 (eOffset env + 1) ->
    toWorkItem (wPrev (eWorld e)) w0 env payload = (prev', (item, None)) ->
    let item := setMetrics (setReadTime readTime) item in
    engineStep e (setStamped (Some item) (setWorld (pollWorld item prev' (eWorld e)) e))
| EngineReject w0 env payload prev' item err :
    ePolling e = true -> pollingIdle e -> wHandler (eWorld e) = [] ->
    toWorkItem (wPrev (eWorld e)) w0 env payload = (prev', (item, Some err)) ->
    engineStep e (stopPolling (setDemux (fate (BreakerTripped item) (eDemux e))
                    (setWorld (setPrev prev' (eWorld e)) e)))
| EngineAcquire item d' :
    eStamped e = Some item ->
    d' = setDispatcher (DGuarded (pooled (eDemux e) item)) (addTokens false 1 (eDemux e)) \/
    d' = setDispatcher (DGuarded (pooled (eDemux e) (mark SetUsedOverflow item))) (addTokens true 1 (eDemux e)) ->
    demuxStep bufferLen guardCap overflowCap (eDemux e) d' ->
    engineStep e (setStamped None (setDemux d' e))
| EngineTimeout item :
    eStamped e = Some item ->
    engineStep e (stopPolling (setStamped None (setDemux (fate (BreakerTripped item) (eDemux e)) e)))
| EnginePipeline d' :
    pipelineStep (eDemux e) d' -> engineStep e (setDemux d' e)
| EngineCollect i s id k w app w' oc' :
    workerShards (eDemux e) !! i = Some s -> heap s !! id = Some k -> pc k = Busy true w ->
    processWorkItem false w app = Committed w' ->
    CollectAndCommit (wOc (eWorld e)) w' = Some oc' ->
    engineStep e
      (mkEngine (collectWorld oc' w (eWorld e))
         (fate (Committed w') (setShard i (putWorker id (setPc Hot k) s) (eDemux e)))
         (eStamped e) (ePolling e) (eHandled e ++ [(w, app)]) (eElsewhere e))
| EngineAround w' :
    surroundings (eWorld e) w' -> (wHandler w' <> [] -> pollingIdle e) -> engineStep e (setWorld w' e)
| EngineOther p pos more :
    p ∉ wOwned (eWorld e) -> wBroker (eWorld e) p <= pos ->
    (forall r, R p r -> r < pos -> wDone (eWorld e) p r \/ more p r) ->
    engineStep e
      (mkEngine (otherWorld p pos more (eWorld e)) (eDemux e) (eStamped e) (ePolling e) (eHandled e)
         (fun q r => eElsewhere e q r \/ more q r))
| EngineStop :
    pollingIdle e -> engineStep e (stopPolling e).

(** A consumer as [Build] makes it ([Builder]): an initial [World] and new shards.
    What was done before was done elsewhere. *)
Record freshEngine (n : nat) (poolSize : Z) (minIdle : nat) (e : Engine) : Prop := {
  fe_world : initial R (eWorld e);
  fe_demux : eDemux e = NewDemux bufferLen n poolSize minIdle;
  fe_stamped : eStamped e = None;
  fe_handled : eHandled e = [];
  fe_elsewhere : forall p r, wDone (eWorld e) p r -> eElsewhere e p r
}.

(** Nothing has ended the consumer. *)
Definition healthy (e : Engine) : Prop := healthyDemux (eDemux e).

End Engine.
