(* ===== verification/EngineRefines.v ===== *)
(** * The engine refines the abstract pipeline

    Every step of [Engine] is a step of [World] or none: the items that [World] has
    in flight are those the polling loop, the dispatcher and the workers hold, and
    the ones a stopping consumer has given up, which never complete.  So what holds of
    every reachable [World] holds of every reachable [Engine]. *)
From S2P Require Import Prelude Types RingBuffer Tracker Committer TrackerFacts Prev Subscription World.
From S2P Require Import Worker Demux DemuxFacts DemuxTheorems DemuxItems Processor Accounting Engine.
From stdpp Require Import base gmap list strings relations.
Open Scope Z_scope.

Section EngineRefines.
Context `{NX : Nexus} `{NXok : !NexusOk NX} `{RT : GoRuntime}.
Variable R : Z -> Z -> Prop.
Variable exact : Prop.
Variables bufferLen guardCap overflowCap : Z.
Implicit Types (e : Engine) (w : World) (d : Demux).

Abbreviation engineStep := (engineStep R exact bufferLen guardCap overflowCap).

(** ** The abstraction *)

Definition withInflight (l : list WorkItem) w : World :=
  mkWorld (wOc w) (wIngest w) (wSub w) (wPrev w) (wFetch w) (wPolled w) l (wHandler w)
    (wOwned w) (wBroker w) (wDone w).

Definition engineCores e : list Core := cores (option_list (eStamped e)) ++ demuxCores (eDemux e).

Definition abstracts e w : Prop :=
  exists inflight lost, w = withInflight inflight (eWorld e) /\
    cores inflight ≡ₚ engineCores e ++ lost /\ (healthy e -> lost = []).

(** A record whose handling by this consumer's application succeeded. *)
Definition handled e (p r : Z) : Prop :=
  exists item app, (item, app) ∈ eHandled e /\ partitionOf item = p /\ offsetOf item = r /\
    (acProcess app = AppOk \/ acDeadLetter app = AppOk).

Record engineInv e : Prop := {
  en_demux : demuxInv bufferLen guardCap overflowCap (eDemux e);
  en_inflight : wInflight (eWorld e) = [];
  en_handler : wHandler (eWorld e) <> [] -> pollingIdle e;
  en_stamped : eStamped e <> None -> dispatcher (eDemux e) = DIdle;
  en_done : forall p r, wDone (eWorld e) p r -> eElsewhere e p r \/ handled e p r
}.

(** ** Steps around the pipeline *)

Lemma execCall_frame l w call w' :
  execCall R w call w' -> execCall R (withInflight l w) call (withInflight l w').
Proof.
  intros H. destruct H; try (by constructor).
  - by apply (ExecResetCommitted R (withInflight l w) m pos).
  - by apply (ExecMarkAssigned R (withInflight l w) p now).
  - by apply (ExecMarkRevoked R (withInflight l w) p now).
  - by apply (ExecAckAssign R (withInflight l w) ps starts).
Qed.

Lemma execCall_inflight w call w' : execCall R w call w' -> wInflight w' = wInflight w.
Proof. by destruct 1. Qed.

Lemma step_frame l w w' :
  step R exact w w' -> wInflight w = [] -> wPolled w' = wPolled w ->
  step R exact (withInflight l w) (withInflight l w') /\ wInflight w' = [].
Proof.
  intros Hs Hf Hp. destruct Hs as [item f prev'|item item' rest oc' Hin|item c Hi Hr
    |item now Hi|n now oc' Hi Hn Hr|n order now Hi Hn Ho
    |guard broker order1 order2 now oc' sent applied err Hm Ho1 Ho2 Hc Hb
    | |t info ackErr s' calls err Hh Hev Hr|call rest w' Hh He|p pos done' Hp' Hle Hd Hpos]; simpl in *.
  - exfalso. apply (f_equal length) in Hp. simpl in Hp. lia.
  - rewrite Hf in Hin. by apply Permutation_nil_cons in Hin.
  - split; [by apply (ReceiveStep R exact (withInflight l w) item c) | done].
  - split; [by apply (BatchStart R exact (withInflight l w) item now) | done].
  - split; [by apply (BatchNext R exact (withInflight l w) n now oc') | done].
  - split; [by apply (BatchEnd R exact (withInflight l w) n order now) | done].
  - split; [by apply (TickStep R exact (withInflight l w) guard broker order1 order2 now oc' sent applied err) | done].
  - split; [apply (DrainStep R exact (withInflight l w)) | done].
  - split; [by apply (RebalanceStart R exact (withInflight l w) t info ackErr s' calls err) | done].
  - split; [|by rewrite (execCall_inflight _ _ _ He)].
    apply (HandlerStep R exact (withInflight l w) call rest (withInflight l w')); [done|]. by apply execCall_frame.
  - split; [by apply (OtherCommit R exact (withInflight l w) p pos done') | done].
Qed.

(** ** Lists of records *)

Lemma cores_cons_inv l c rest :
  cores l ≡ₚ c :: rest -> exists i l', l ≡ₚ i :: l' /\ core i = c /\ cores l' ≡ₚ rest.
Proof.
  intros H. assert (Hc : c ∈ cores l) by (rewrite H; left).
  apply list_elem_of_fmap in Hc as (i & -> & Hi). apply elem_of_Permutation in Hi as [l' Hl].
  exists i, l'. split_and!; [done | done |]. rewrite Hl in H. simpl in H. by apply Permutation_cons_inv in H.
Qed.

Lemma complete_core (done : Z -> Z -> Prop) (i j : WorkItem) : core i = core j -> complete done i = complete done j.
Proof. intros [= E1 E2 E3 E4 E5 E6]. unfold complete. by rewrite E2, E3. Qed.

Lemma GetPrevious_error m p o m' prev first err :
  GetPrevious m p o = (m', (prev, first, Some err)) -> m' = m.
Proof.
  unfold GetPrevious. destruct (o <? 0); [congruence|]. destruct (m !! p); [|congruence].
  destruct (_ >? _); [congruence|]. destruct (_ =? _); congruence.
Qed.

Lemma setPrev_id w : setPrev (wPrev w) w = w.
Proof. by destruct w. Qed.

(** ** The simulation *)

Definition simulated w e' : Prop :=
  exists w', (w' = w \/ step R exact w w') /\ abstracts e' w' /\ engineInv e'.

(** A step of the engine that leaves [World] alone. *)
Lemma stutter e w e' lost :
  abstracts e w -> engineInv e' -> eWorld e' = eWorld e ->
  engineCores e' ++ lost ≡ₚ engineCores e -> (healthy e' -> healthy e /\ lost = []) -> simulated w e'.
Proof.
  intros (l & old & -> & Hl & Hh) HI Hw Hc Hh'. exists (withInflight l (eWorld e)). split; [by left|].
  split; [|done]. exists l, (lost ++ old). rewrite Hw. split_and!; [done | |].
  - rewrite Hl, <- Hc. by rewrite app_assoc.
  - intros H. destruct (Hh' H) as [H1 ->]. by rewrite Hh.
Qed.

Lemma sim_poll e w x0 env payload readTime f prev' item :
  engineInv e -> abstracts e w -> ePolling e = true -> pollingIdle e -> wHandler (eWorld e) = [] ->
  ptr x0 ∉ map ptr (wPolled (eWorld e)) -> wFetch (eWorld e) !! ePartition env = Some f -> f <= eOffset env ->
  noRecord R (ePartition env) f (eOffset env) -> in_int64 (eOffset env + 1) ->
  toWorkItem (wPrev (eWorld e)) x0 env payload = (prev', (item, None)) ->
  let item := setMetrics (setReadTime readTime) item in
  simulated w (setStamped (Some item) (setWorld (pollWorld item prev' (eWorld e)) e)).
Proof.
  intros [H1 H2 H3 H4 H5] (l & lost & -> & Hl & Hh) Hpo [Hst Hd] Hw Hptr Hf Hle Hno Hin Hto item'.
  unfold toWorkItem in Hto.
  destruct (GetPrevious _ _ _) as [m' [[prev first] err]] eqn:Hg. injection Hto as -> <- ->.
  exists (withInflight (item' :: l) (pollWorld item' prev' (eWorld e))). split_and!.
  - right. by apply (PollStep R exact (withInflight l (eWorld e)) item' f prev').
  - exists (item' :: l), lost. split_and!; [done | | done].
    simpl. rewrite Hl. unfold engineCores. simpl. by rewrite Hst.
  - by split.
Qed.

Lemma collect_demux d i s id k x app x' :
  workerShards d !! i = Some s -> heap s !! id = Some k -> pc k = Busy true x ->
  processWorkItem false x app = Committed x' ->
  demuxStep bufferLen guardCap overflowCap d (fate (Committed x') (setShard i (putWorker id (setPc Hot k) s) d)).
Proof. intros Hs Hk Hpc Hf. rewrite <- Hf. by eapply WorkerFinish. Qed.

Lemma sim_collect e w i s id k x app x' oc' :
  engineInv e -> abstracts e w ->
  workerShards (eDemux e) !! i = Some s -> heap s !! id = Some k -> pc k = Busy true x ->
  processWorkItem false x app = Committed x' -> CollectAndCommit (wOc (eWorld e)) x' = Some oc' ->
  simulated w (mkEngine (collectWorld oc' x (eWorld e))
    (fate (Committed x') (setShard i (putWorker id (setPc Hot k) s) (eDemux e)))
    (eStamped e) (ePolling e) (eHandled e ++ [(x, app)]) (eElsewhere e)).
Proof.
  intros [H1 H2 H3 H4 H5] (l & lost & -> & Hl & Hh) Hs Hk Hpc Hf Hc.
  destruct (processWorkItem_committed _ _ _ _ Hf) as [Hcore Happ].
  pose proof (demuxCores_finish (eDemux e) i s id k true x (Committed x') Hs Hk Hpc) as Hd.
  pose proof (collect_demux (eDemux e) i s id k x app x' Hs Hk Hpc Hf) as Hstep.
  set (d' := fate _ _) in *.
  assert (Hl' : cores l ≡ₚ core x :: (cores (option_list (eStamped e)) ++ demuxCores d') ++ lost).
  { rewrite Hl. unfold engineCores. rewrite <- Hd. solve_Permutation. }
  destruct (cores_cons_inv l _ _ Hl') as (y & rest & Hy & Ey & Hrest).
  exists (withInflight rest (collectWorld oc' x (eWorld e))). split_and!.
  - right. unfold collectWorld. rewrite <- (complete_core _ y x Ey).
    apply (CompleteStep R exact (withInflight l (eWorld e)) y x' rest oc'); [done | by rewrite Ey, Hcore | done].
  - exists rest, lost. split_and!; [done | done |]. intros Hhe. apply Hh. by eapply healthy_step.
  - split; simpl; [by eapply demux_step | done | done | done |].
    intros p r [Hdone|[-> ->]].
    + destruct (H5 p r Hdone) as [?|(y1 & a1 & Hin & Hrest1)]; [by left|]. right. exists y1, a1.
      split; [apply elem_of_app; by left | done].
    + right. exists x, app. split; [apply elem_of_app; right; left|]. done.
Qed.

Lemma fate_inv x d : demuxInv bufferLen guardCap overflowCap d ->
  demuxInv bufferLen guardCap overflowCap (fate (BreakerTripped x) d).
Proof. intros []. by split. Qed.

Lemma demuxCores_acquire d ov x :
  dispatcher d = DIdle ->
  demuxCores (setDispatcher (DGuarded (pooled d x)) (addTokens ov 1 d)) = core x :: demuxCores d.
Proof. intros Hd. unfold demuxCores. by rewrite Hd. Qed.

(** Every step of the engine is matched. *)
Lemma simulates e w e' : engineInv e -> abstracts e w -> engineStep e e' -> simulated w e'.
Proof.
  intros HI Ha Hst. destruct Hst as [x0 env payload t f prev' item Hpo Hid Hw Hb Hptr Hf Hle Hno Hin Hto item'
    |x0 env payload prev' item err Hpo Hid Hw Hto|item d' Hs Hd' Hst|item Hs|d' [Hst [Hi Hc]]
    |i s id k x app x' oc' Hs Hk Hpc Hf Hc|w' [Hst [Hp Hdone]] Hh|p pos more Hp Hle Hr|Hid].
  - by eapply sim_poll.
  - unfold toWorkItem in Hto. destruct (GetPrevious _ _ _) as [m' [[prev first] e0]] eqn:Hg.
    injection Hto as -> <- ->. apply GetPrevious_error in Hg as ->. rewrite setPrev_id.
    destruct HI as [H1 H2 H3 H4 H5]. apply (stutter e w _ []); try done.
    + split; try done. by apply (fate_inv x0).
    + by rewrite app_nil_r.
    + by intros [? _].
  - destruct HI as [H1 H2 H3 H4 H5]. assert (Hd : dispatcher (eDemux e) = DIdle) by (apply H4; by rewrite Hs).
    assert (Hhl : wHandler (eWorld e) = []).
    { destruct (wHandler (eWorld e)); [done|]. destruct H3 as [E _]; [done | by rewrite Hs in E]. }
    apply (stutter e w _ []); try done.
    + split; simpl; [by eapply demux_step | done | by rewrite Hhl | done | done].
    + rewrite app_nil_r. unfold engineCores. rewrite Hs. simpl.
      destruct Hd' as [->| ->]; by rewrite (demuxCores_acquire (eDemux e) _ _ Hd).
    + intros H. split; [|done]. by eapply healthy_step.
  - destruct HI as [H1 H2 H3 H4 H5]. apply (stutter e w _ [core item]); try done.
    + split; simpl; try done; [by apply (fate_inv item)|]. intros Hne. by destruct (H3 Hne).
    + unfold engineCores. rewrite Hs. simpl. change (demuxCores (fate _ (eDemux e))) with (demuxCores (eDemux e)).
      solve_Permutation.
    + by intros [? _].
  - pose proof HI as [H1 H2 H3 H4 H5]. destruct (pipeline_cores _ _ _ _ _ H1 Hst Hi Hc) as (lost & Hl & Hlost).
    apply (stutter e w _ lost); try done.
    + split; simpl; [by eapply demux_step | done | | |done].
      * intros Hne. destruct (H3 Hne) as [? ?]. split; [done|]. by apply Hi.
      * intros Hne. by apply Hi, H4.
    + unfold engineCores. simpl. by rewrite <- Hl, app_assoc.
    + intros H. split; [by eapply healthy_step | by apply Hlost].
  - by eapply sim_collect.
  - destruct HI as [H1 H2 H3 H4 H5], Ha as (l & lost & -> & Hl & Hhl).
    destruct (step_frame l (eWorld e) w' Hst H2 Hp) as [Hst' Hf].
    exists (withInflight l w'). split; [by right|]. split; [by exists l, lost|].
    split; try done. simpl. rewrite Hdone. apply H5.
  - destruct HI as [H1 H2 H3 H4 H5], Ha as (l & lost & -> & Hl & Hhl).
    exists (withInflight l (otherWorld p pos more (eWorld e))). split; [|split].
    + right. apply (OtherCommit R exact (withInflight l (eWorld e)) p pos); try done. simpl. auto.
    + by exists l, lost.
    + split; try done. simpl. intros q r [Hq|Hq]; [|by left; right].
      destruct (H5 q r Hq) as [?|?]; [by left; left | by right].
  - destruct HI as [H1 H2 H3 H4 H5]. apply (stutter e w _ []); try done. by rewrite app_nil_r.
Qed.

Lemma fresh_abstracts n poolSize minIdle e :
  0 <= guardCap -> 0 <= overflowCap -> freshEngine R bufferLen n poolSize minIdle e ->
  engineInv e /\ abstracts e (eWorld e).
Proof.
  intros Hg Ho [H1 H2 H3 H4 H5]. pose proof (init_inflight R _ H1) as Hf.
  assert (HI : demuxInv bufferLen guardCap overflowCap (eDemux e)) by (rewrite H2; by apply NewDemux_inv).
  split.
  - split; [done | done | | by rewrite H3 |].
    + by rewrite (init_handler R _ H1).
    + intros p r Hd. left. by apply H5.
  - exists [], []. split_and!; [rewrite <- Hf; by destruct (eWorld e) | | done].
    rewrite app_nil_r. unfold engineCores. rewrite H3. simpl. rewrite (demuxCores_empty bufferLen guardCap overflowCap); [done | done | by rewrite H2 |].
    rewrite H2. intros i s Hs. apply lookup_replicate in Hs as [-> _]. apply NewWorkerShard_inv.
Qed.

End EngineRefines.
