(* ===== verification/EngineOrder.v ===== *)
(** * The order of the whole pipeline

    From the poll to the application: the items a key's handler is given are those
    polled with that key, in the order they were polled; none is passed over while the
    consumer is healthy. *)
From S2P Require Import Prelude Types RingBuffer Tracker Committer TrackerFacts Prev Subscription World.
From S2P Require Import Worker Demux DemuxFacts DemuxTheorems DemuxItems Processor Accounting Engine EngineRefines.
From stdpp Require Import base gmap list strings relations.
Open Scope Z_scope.

Lemma filter_sublist {A} (P : A -> Prop) `{!forall x, Decision (P x)} (l k : list A) :
  l `sublist_of` k -> filter P l `sublist_of` filter P k.
Proof.
  induction 1 as [|x l k _ IH|x l k _ IH]; [done| |]; rewrite !filter_cons; case_decide; try done.
  - by apply sublist_skip.
  - by apply sublist_cons.
Qed.

Section EngineOrder.
Context `{NX : Nexus} `{NXok : !NexusOk NX} `{RT : GoRuntime}.
Variable R : Z -> Z -> Prop.
Variable exact : Prop.
Variables bufferLen guardCap overflowCap : Z.
Implicit Types (e : Engine) (d : Demux).

Abbreviation engineStep := (engineStep R exact bufferLen guardCap overflowCap).

(** A record with its key, and the records of one key. *)
Definition tag (w : WorkItem) : string * Core := (keyOf w, core w).

Definition tagged (key : string) (l : list (string * Core)) : list Core :=
  map snd (filter (fun t => t.1 = key) l).

Lemma ofKey_tags key l : ofKey key l = tagged key (map tag l).
Proof.
  unfold ofKey, tagged. induction l as [|w l IH]; [done|]. simpl. rewrite !filter_cons. simpl.
  case_decide; simpl; by rewrite IH.
Qed.

Lemma tagged_sublist key l k : l `sublist_of` k -> tagged key l `sublist_of` tagged key k.
Proof. intros H. by apply fmap_sublist, filter_sublist. Qed.

Lemma tagged_app key l k : tagged key (l ++ k) = tagged key l ++ tagged key k.
Proof. unfold tagged. by rewrite filter_app, map_app. Qed.

(** The items that have left the polling loop, in order: those given to workers, the one
    at the dispatcher, the one that waits for a token. *)
Definition guarded d : list WorkItem := match dispatcher d with DGuarded w => [w] | _ => [] end.
Definition line d : list (string * Core) := map tag (accepted d ++ guarded d).

Lemma pipeline_line d d' :
  pipelineStep bufferLen guardCap overflowCap d d' ->
  line d' `sublist_of` line d /\ (healthyDemux d' -> line d' = line d).
Proof.
  intros (Hst & Hidle & _).
  assert (Hsame : line d' = line d -> line d' `sublist_of` line d /\ (healthyDemux d' -> line d' = line d))
    by (intros ->; done).
  unfold line, guarded in *.
  destruct Hst as [w Hd|w Hd|w s s' Hd|w s id s' Hd|w s Hd Hs Hf Hdone|w s Hd|i id w s s' Hd|ov Hd|i s id k w k'
    |i s id k w|i s id k w app Hs|i s id s'|i s id k|i s id k|i s id k|i s m n|i s]; simpl in *.
  - by rewrite Hd in Hidle; specialize (Hidle eq_refl).
  - by rewrite Hd in Hidle; specialize (Hidle eq_refl).
  - apply Hsame. rewrite Hd. by rewrite app_nil_r.
  - apply Hsame. rewrite Hd. by rewrite app_nil_r.
  - rewrite Hd. split.
    + rewrite app_nil_r, map_app. by apply sublist_inserts_r.
    + intros [_ Hall]. simpl in Hall. rewrite Forall_lookup in Hall. specialize (Hall _ s Hs). congruence.
  - by apply Hsame.
  - apply Hsame. by rewrite Hd.
  - apply Hsame. by rewrite Hd.
  - by apply Hsame.
  - by apply Hsame.
  - apply Hsame. match goal with |- context [fate ?f ?x] => destruct (fate_frame f x) as (_ & E2 & E3 & _) end.
    by rewrite E2, E3.
  - by apply Hsame.
  - by apply Hsame.
  - by apply Hsame.
  - by apply Hsame.
  - by apply Hsame.
  - by apply Hsame.
Qed.

Definition queue e : list (string * Core) := line (eDemux e) ++ map tag (option_list (eStamped e)).
Definition polled e : list WorkItem := reverse (wPolled (eWorld e)).

Definition ordered e : Prop :=
  queue e `sublist_of` map tag (polled e) /\ (healthy e -> queue e = map tag (polled e)).

Lemma ordered_sub e e' :
  ordered e -> wPolled (eWorld e') = wPolled (eWorld e) -> queue e' `sublist_of` queue e ->
  (healthy e' -> healthy e /\ queue e' = queue e) -> ordered e'.
Proof.
  intros [H1 H2] Hp Hs Hh. unfold ordered, polled. rewrite Hp. split; [by trans (queue e)|].
  intros H. destruct (Hh H) as [He ->]. by apply H2.
Qed.

Lemma ordered_step e e' :
  engineInv bufferLen guardCap overflowCap e -> ordered e -> engineStep e e' -> ordered e'.
Proof.
  intros HI Ho Hst. pose proof HI as [H1 H2 H3 H4 H5].
  destruct Hst as [x0 env payload t f prev' item Hpo [Hs Hid] Hw Hb Hptr Hf Hle Hno Hin Hto item'
    |x0 env payload prev' item err Hpo Hid Hw Hto|item d' Hs Hd' Hst|item Hs|d' Hst
    |i s id k x app x' oc' Hs Hk Hpc Hf Hc|w' [Hst [Hp Hdone]] Hh|p pos more Hp Hle Hr|Hid].
  - destruct Ho as [Ho1 Ho2]. unfold ordered, queue, polled in *. simpl in *. rewrite Hs in Ho1, Ho2.
    rewrite reverse_cons, map_app. simpl in *. rewrite !app_nil_r in *. split.
    + by apply sublist_app.
    + intros H. f_equal. by apply Ho2.
  - apply (ordered_sub e); [done | done | done |]. by intros [? _].
  - assert (Hd : dispatcher (eDemux e) = DIdle) by (apply H4; by rewrite Hs).
    assert (Hq : queue (setStamped None (setDemux d' e)) = queue e).
    { unfold queue, line, guarded. rewrite Hs. simpl. rewrite Hd, !app_nil_r.
      destruct Hd' as [->| ->]; simpl; by rewrite map_app. }
    apply (ordered_sub e); [done | done | by rewrite Hq |]. intros H. split; [by eapply healthy_step | done].
  - apply (ordered_sub e); [done | done | |by intros [? _]].
    unfold queue. rewrite Hs. simpl. rewrite app_nil_r. by apply sublist_inserts_r.
  - destruct (pipeline_line _ _ Hst) as [Hl1 Hl2].
    apply (ordered_sub e); [done | done | by apply sublist_app |].
    intros H. split; [by eapply healthy_step; [apply Hst | exact H]|]. unfold queue. simpl. by rewrite Hl2.
  - apply (ordered_sub e); [done | done | done |]. intros H. split; [|done].
    eapply (healthy_step bufferLen guardCap overflowCap); [|exact H]. by eapply collect_demux.
  - by apply (ordered_sub e).
  - by apply (ordered_sub e).
  - by apply (ordered_sub e).
Qed.

Lemma fresh_ordered n poolSize minIdle e : freshEngine R bufferLen n poolSize minIdle e -> ordered e.
Proof.
  intros [H1 H2 H3 _ _]. unfold ordered, queue, polled. rewrite H2, H3, (init_polled R _ H1). done.
Qed.

End EngineOrder.
