(* ===== verification/EngineTheorems.v ===== *)
(** * Correctness of the whole consumer

    The properties of every run of [Engine], from a consumer as it is built: the
    refinement of [World], and with it what the application, the group and the
    broker can rely on. *)
From S2P Require Import Prelude Types RingBuffer Tracker Committer TrackerFacts Safety Monotone Prev.
From S2P Require Import CommitterFacts Subscription Forward World WorldInv WorldSteps Accounting WorldTheorems.
From S2P Require Import Worker Demux DemuxFacts DemuxTheorems DemuxItems Processor Engine EngineRefines EngineOrder.
From stdpp Require Import base gmap list strings relations.
Open Scope Z_scope.

Section EngineTheorems.
Context `{NX : Nexus} `{NXok : !NexusOk NX} `{RT : GoRuntime} `{RTok : !GoRuntimeOk RT}.
Variable R : Z -> Z -> Prop.
Variable exact : Prop.
Variables bufferLen guardCap overflowCap : Z.
Hypothesis guardCap_nonneg : 0 <= guardCap.
Hypothesis overflowCap_nonneg : 0 <= overflowCap.
Implicit Types (e : Engine) (w : World).

Abbreviation engineStep := (engineStep R exact bufferLen guardCap overflowCap).
Abbreviation engineInv := (engineInv bufferLen guardCap overflowCap).

(** A run of a consumer with [n] shards. *)
Definition engineRun (n : nat) (poolSize : Z) (minIdle : nat) e0 e : Prop :=
  freshEngine R bufferLen n poolSize minIdle e0 /\ rtc engineStep e0 e.

Lemma engine_run_abstracts n poolSize minIdle e0 e :
  engineRun n poolSize minIdle e0 e ->
  engineInv e /\ ordered e /\ exists w, reachable R exact (eWorld e0) w /\ abstracts e w.
Proof.
  intros [H0 Hr]. revert e Hr. apply (rtc_ind_r (fun e => engineInv e /\ ordered e /\
    exists w, reachable R exact (eWorld e0) w /\ abstracts e w)).
  - destruct (fresh_abstracts R bufferLen guardCap overflowCap n poolSize minIdle e0) as [HI Ha]; [done..|].
    split_and!; [done | by eapply fresh_ordered |]. exists (eWorld e0). split; [|done].
    split; [apply H0 | apply rtc_refl].
  - intros e1 e2 _ Hst (HI & Ho & w & Hw & Ha).
    destruct (simulates R exact bufferLen guardCap overflowCap e1 w e2 HI Ha Hst) as (w' & Hs & Ha' & HI').
    split_and!; [done | by eapply (ordered_step R exact bufferLen guardCap overflowCap e1) |]. exists w'. split; [|done].
    destruct Hs as [->|Hs]; [done|]. destruct Hw as [? ?]. split; [done | by eapply rtc_r].
Qed.

(** C3: the whole consumer refines the running consumer with an abstract pipeline.
    Whatever the polling loop, the dispatcher, the workers, the pools, the ingest
    loop, the ticker and the rebalance handler do, the state of every run is a
    reachable state of [World] in which the items in flight are those held by the
    polling loop, the dispatcher and the workers, together with the items given up,
    and nothing is given up before the consumer stops. *)
Theorem engine_refines n poolSize minIdle e0 e :
  engineRun n poolSize minIdle e0 e ->
  exists inflight lost, reachable R exact (eWorld e0) (withInflight inflight (eWorld e)) /\
    cores inflight ≡ₚ engineCores e ++ lost /\ (healthy e -> lost = []).
Proof.
  intros Hr. destruct (engine_run_abstracts _ _ _ _ _ Hr) as (_ & _ & w & Hw & l & lost & -> & Hl & Hh). by exists l, lost.
Qed.

(** C1: at-least-once, end to end.  In every state of every run, every record of a
    partition's log below the position committed at the broker was handled: this
    consumer's application processed it, or failed and its dead letter was
    written, or another member of the group had processed it.  This holds for every
    interleaving, every order of the map iterations, every failure of the
    application and of the broker, every rebalance the group allows, and during and
    after an emergency stop. *)
Theorem committed_handled n poolSize minIdle e0 e :
  (forall p r, R p r -> 0 <= r) -> engineRun n poolSize minIdle e0 e ->
  forall p r, R p r -> r < wBroker (eWorld e) p -> eElsewhere e p r \/ handled e p r.
Proof.
  intros HR Hr p r Hp Hlt. destruct (engine_run_abstracts _ _ _ _ _ Hr) as (HI & _ & w & Hw & l & lost & -> & _).
  apply HI. by apply (reachable_done R exact _ _ p r HR Hw).
Qed.

(** The records the consumer holds, and those it has returned. *)
Definition engineRecords e : list Core :=
  engineCores e ++ cores (received (wIngest (eWorld e))) ++ cores (queued (commitsIn (wOc (eWorld e)))) ++
  kept (wOc (eWorld e)).

(** C7: work items are accounted for, end to end.  At any time no two parts of the
    consumer hold the same work item: the polling loop, the dispatcher, the workers
    (waiting and being processed), the ingest loop, the trackers, and the items
    already returned are all distinct; and each is an item the polling loop made,
    with its record, stamp and flags intact. *)
Theorem records_distinct n poolSize minIdle e0 e :
  engineRun n poolSize minIdle e0 e ->
  NoDup (map cPtr (engineRecords e)) /\
  forall c, c ∈ engineRecords e -> exists i, i ∈ wPolled (eWorld e) /\ core i = c.
Proof.
  intros Hr. destruct (engine_run_abstracts _ _ _ _ _ Hr) as (_ & _ & w & Hw & l & lost & -> & Hl & _).
  destruct (reachable_acc R exact _ _ Hw) as [Hp Hi]. simpl in Hp.
  assert (Hsub : engineRecords e ⊆+ cores (wPolled (eWorld e))).
  { etrans; [|exact Hi]. unfold engineRecords, worldCores. simpl. rewrite Hl.
    apply submseteq_app; [apply submseteq_inserts_r|]; done. }
  split.
  - rewrite <- ptrs_of_cores in Hp. eapply submseteq_NoDup; [apply (fmap_submseteq cPtr), Hsub | exact Hp].
  - intros c Hc. assert (Hin : c ∈ cores (wPolled (eWorld e))) by by eapply elem_of_submseteq.
    apply list_elem_of_fmap in Hin as (i & -> & Hi'). by exists i.
Qed.

(** C10: order, end to end.  For every key, the records whose handling has started are
    among the records polled with that key and in the order they were polled: a later
    record of a key never reaches the application before an earlier one.  While the
    consumer is healthy none is passed over: they are the first records polled with
    the key. *)
Theorem handled_in_poll_order n poolSize minIdle e0 e key :
  engineRun n poolSize minIdle e0 e ->
  ofKey key (started (eDemux e)) `sublist_of` ofKey key (polled e) /\
  (healthy e -> ofKey key (started (eDemux e)) `prefix_of` ofKey key (polled e)).
Proof.
  intros Hr. destruct (engine_run_abstracts _ _ _ _ _ Hr) as (HI & [Ho1 Ho2] & _).
  pose proof (dv_fifo _ _ _ _ (en_demux _ _ _ _ HI) key) as Hf.
  assert (Hq : tagged key (queue e) = ofKey key (started (eDemux e)) ++ map core (waitingAt (eDemux e) key) ++
    tagged key (map tag (guarded (eDemux e) ++ option_list (eStamped e)))).
  { unfold queue, line. rewrite <- map_app, <- app_assoc, map_app, tagged_app, <- ofKey_tags, Hf.
    by rewrite <- app_assoc. }
  rewrite (ofKey_tags key (polled e)). split.
  - trans (tagged key (queue e)); [|by apply tagged_sublist]. rewrite Hq. by apply sublist_inserts_r.
  - intros Hh. rewrite <- (Ho2 Hh), Hq. by eexists.
Qed.

End EngineTheorems.
