(* ===== verification/EngineHandover.v ===== *)
(** * Handing a partition over, end to end

    A revoke or a shutdown drains the consumer: [DrainWorkers] waits for the workers
    of every shard, [DrainCommitter] for the committer, and a last commit follows.
    Here the three are composed over the whole consumer.  While the handler waits the
    polling loop is blocked, and at a shutdown it has ended, so the workers' maps only
    shrink; once they are empty the pipeline is, and the hand-over of [Handover] is
    exact. *)
From S2P Require Import Prelude Types RingBuffer Tracker Committer TrackerFacts Safety Monotone Prev.
From S2P Require Import CommitterFacts Subscription Forward World WorldInv WorldSteps Accounting Epoch Handover.
From S2P Require Import Worker Demux DemuxFacts DemuxTheorems DemuxDrain DemuxItems Processor Engine EngineRefines.
From S2P Require Import EngineOrder EngineTheorems.
From stdpp Require Import base gmap list strings relations.
Open Scope Z_scope.

Section EngineHandover.
Context `{NX : Nexus} `{NXok : !NexusOk NX} `{RT : GoRuntime} `{RTok : !GoRuntimeOk RT}.
Variable R : Z -> Z -> Prop.
Variable exact : Prop.
Variables bufferLen guardCap overflowCap : Z.
Hypothesis guardCap_nonneg : 0 <= guardCap.
Hypothesis overflowCap_nonneg : 0 <= overflowCap.
Hypothesis R_nonneg : forall p r, R p r -> 0 <= r.
Implicit Types (e : Engine) (w : World).

Abbreviation engineStep := (engineStep R exact bufferLen guardCap overflowCap).
Abbreviation engineInv := (engineInv bufferLen guardCap overflowCap).
Abbreviation engineRun := (engineRun R exact bufferLen guardCap overflowCap).

(** ** Runs during which the handler of a partition waits *)

(** No call of the handler that ends the ownership of [p] is executed. *)
Definition sparing (p : Z) w w' : Prop :=
  forall call rest, wHandler w = call :: rest -> ends p call -> wHandler w' = wHandler w.

Definition notPolling (p : Z) w w' : Prop := sparing p w w' /\ wPolled w' = wPolled w.

Definition calmEngine (p : Z) e e' : Prop := engineStep e e' /\ sparing p (eWorld e) (eWorld e').

(** The polling loop is inside a rebalance handler, or has ended. *)
Definition blocked e : Prop := ePolling e = false \/ wHandler (eWorld e) <> [].

Definition waitEngine (p : Z) e e' : Prop := calmEngine p e e' /\ blocked e.

(** A run of the engine whose steps satisfy a condition on the handler is matched by such a run. *)
Lemma run_sim (P : World -> World -> Prop) e w e' :
  (forall l l' x y, P x y -> P (withInflight l x) (withInflight l' y)) ->
  engineInv e -> abstracts e w -> rtc (fun x y => engineStep x y /\ P (eWorld x) (eWorld y)) e e' ->
  exists w', rtc (fun x y => step R exact x y /\ P x y) w w' /\ abstracts e' w' /\ engineInv e'.
Proof.
  intros HP HI Ha Hr. revert w HI Ha. induction Hr as [e|e e1 e' [Hst Hc] _ IH]; intros w HI Ha.
  { exists w. split; [apply rtc_refl | done]. }
  destruct (simulates R exact bufferLen guardCap overflowCap e w e1 HI Ha Hst) as (w1 & Hs & Ha1 & HI1).
  destruct (IH w1 HI1 Ha1) as (w' & Hr' & Ha'). exists w'. split; [|done].
  destruct Hs as [->|Hs]; [done|]. eapply rtc_l; [|exact Hr']. split; [done|].
  destruct Ha as (l & ? & -> & _), Ha1 as (l1 & ? & -> & _). by apply HP.
Qed.

Lemma healthy_engine e e' : engineStep e e' -> healthy e' -> healthy e.
Proof.
  intros Hst. destruct Hst as [| |item d' Hs Hd' Hst| |d' [Hst _]|i s id k x app x' oc' Hs Hk Hpc Hf Hc| | |];
    try done; try (by intros [? _]); unfold healthy; simpl.
  - by apply (healthy_step bufferLen guardCap overflowCap).
  - by apply (healthy_step bufferLen guardCap overflowCap).
  - apply (healthy_step bufferLen guardCap overflowCap). by eapply collect_demux.
Qed.

Lemma healthy_run e e' : rtc engineStep e e' -> healthy e' -> healthy e.
Proof. induction 1 as [|e e1 e' Hst _ IH]; [done|]. intros H. by eapply healthy_engine, IH. Qed.

(** ** The drain of the workers inside the engine *)

(** A blocked polling loop polls nothing, and stays outside [Process]. *)
Lemma blocked_polls e e' : blocked e -> engineStep e e' -> wPolled (eWorld e') = wPolled (eWorld e).
Proof. intros [Hb|Hb] Hst; destruct Hst as [| | | | | |w' (_ & Hp & _)| |]; try done; congruence. Qed.

Lemma idle_kept e e' : blocked e -> pollingIdle e -> engineStep e e' -> pollingIdle e'.
Proof.
  intros Hb [Hs Hd] Hst. destruct Hst as [| |item d' Hs'|item Hs'|d' (_ & Hi & _)| | | |]; try done; try congruence.
  - by destruct Hb as [Hb|Hb]; [congruence|].
  - split; [done|]. by apply Hi.
Qed.

(** [DrainWorkers] while the rest of the consumer goes on. *)
Inductive engineDrain (p : Z) : Engine * DrainPc -> Engine * DrainPc -> Prop :=
| DrainTurn e at0 at1 :
    drainStep bufferLen guardCap overflowCap (eDemux e, at0) (eDemux e, at1) -> engineDrain p (e, at0) (e, at1)
| DrainWait e e' at0 : waitEngine p e e' -> engineDrain p (e, at0) (e', at0).

(** With the polling loop blocked, a step of the engine moves the shards by a step of
    the workers at most. *)
Lemma blocked_step e e' :
  blocked e -> pollingIdle e -> engineStep e e' ->
  eDemux e' = eDemux e \/
  (dispatcher (eDemux e) = DIdle /\ dispatcher (eDemux e') = DIdle /\
   demuxStep bufferLen guardCap overflowCap (eDemux e) (eDemux e')).
Proof.
  intros Hb [Hs Hd] Hst.
  destruct Hst as [|x0 env payload prev' item err Hpo Hid Hw|item d' Hs'|item Hs'|d' [Hst [Hi Hc]]
    |i s id k x app x' oc' Hi Hk Hpc Hf Hc| | |]; try congruence; try (by left).
  - by destruct Hb as [Hb|Hb]; [congruence|].
  - right. split_and!; [done | by apply Hi | done].
  - right. split_and!; [done | done |]. by eapply collect_demux.
Qed.

Definition linked e : Prop := engineInv e /\ exists w, abstracts e w.

Lemma linked_step e e' : linked e -> engineStep e e' -> linked e'.
Proof.
  intros [HI [w Ha]] Hst.
  destruct (simulates R exact bufferLen guardCap overflowCap e w e' HI Ha Hst) as (w' & _ & Ha' & HI').
  split; [done | by exists w'].
Qed.

Definition drainingInv (ep : Engine * DrainPc) : Prop :=
  linked ep.1 /\ pollingIdle ep.1 /\ drainInv bufferLen guardCap overflowCap (eDemux ep.1, ep.2).

Lemma engineDrain_step p ep ep' : drainingInv ep -> engineDrain p ep ep' -> drainingInv ep'.
Proof.
  intros (HL & Hi & Hd) Hst. destruct Hst as [e at0 at1 Hst|e e' at0 [[Hst _] Hb]]; simpl in *.
  - split; [done|]. split; [done|]. by eapply drain_step.
  - split; [by eapply linked_step|]. split; [by eapply idle_kept|].
    destruct (blocked_step e e' Hb Hi Hst) as [E|(H1 & H2 & H3)]; simpl; [by rewrite E|].
    eapply drain_step; [exact Hd|]. by apply Meanwhile.
Qed.

Lemma engineDrain_run p ep ep' :
  rtc (engineDrain p) ep ep' -> drainingInv ep -> drainingInv ep' /\ rtc (waitEngine p) ep.1 ep'.1.
Proof.
  induction 1 as [|x y z Hst _ IH]; intros Hx; [by split|].
  destruct (IH (engineDrain_step p x y Hx Hst)) as [Hz Hr]. split; [done|].
  destruct Hst as [|e e' at0 Hw]; [done|]. by eapply rtc_l.
Qed.

(** When [DrainWorkers] returns, nothing is left in the polling loop, the dispatcher
    and the workers. *)
Lemma drained_empty p e e' :
  linked e -> pollingIdle e -> rtc (engineDrain p) (e, AtShard 0) (e', Drained) ->
  rtc (waitEngine p) e e' /\ engineCores e' = [].
Proof.
  intros HL Hi Hr. destruct (engineDrain_run p _ _ Hr) as [([HI _] & [Hs Hdi] & HD & HP) Hw].
  { split; [done|]. split; [done|]. split; [apply HL | intros j Hj; lia]. }
  split; [done|]. simpl in *. unfold engineCores. rewrite Hs. simpl.
  apply (demuxCores_empty bufferLen guardCap overflowCap); [done | done |]. intros i s Hi'. by apply (HP i).
Qed.

(** ** The hand-over *)

(** The assign handler is about to install the baseline [c] of [p], and nothing of
    [p] is left in the consumer. *)
Definition engineOpening (p c : Z) e : Prop :=
  opening p c (eWorld e) /\ Forall (fun x => cPartition x <> p) (engineCores e).

Lemma opening_abstracts p c e w :
  engineInv e -> abstracts e w -> healthy e -> engineOpening p c e -> opening p c w.
Proof.
  intros HI (l & lost & -> & Hl & Hh) He [[H1 H2 H3 [H4 H5]] Hf]. split; try done. split; [|done].
  rewrite (Hh He), app_nil_r in Hl. unfold inPipe, pipeline in *. simpl.
  rewrite (en_inflight _ _ _ _ HI) in H4. simpl in H4. rewrite filter_app, H4, app_nil_r.
  assert (E : filter (fun x => cPartition x = p) (engineCores e) = []).
  { clear -Hf. induction Hf as [|x k Hx _ IH]; [done|]. by rewrite filter_cons, decide_False. }
  apply Permutation_nil_r. by rewrite Hl, E.
Qed.

(** The step that installs the baseline is not a stutter. *)
Lemma opening_step p c e1 e1' w1 :
  engineInv e1 -> abstracts e1 w1 -> opening p c w1 -> engineStep e1 e1' ->
  wHandler (eWorld e1') = tail (wHandler (eWorld e1)) ->
  exists w1', step R exact w1 w1' /\ wHandler w1' = tail (wHandler w1) /\ abstracts e1' w1' /\ engineInv e1'.
Proof.
  intros HI Ha Hop Hst Hpop.
  destruct (simulates R exact bufferLen guardCap overflowCap e1 w1 e1' HI Ha Hst) as (w1' & Hs & Ha' & HI').
  assert (Hp : wHandler w1' = tail (wHandler w1)).
  { destruct Ha as (? & ? & -> & _), Ha' as (? & ? & -> & _). done. }
  exists w1'. split_and!; try done. destruct Hs as [->|Hs]; [|done].
  destruct (op_reset _ _ _ Hop) as (m & rest & E & _). rewrite E in Hp. simpl in Hp.
  apply (f_equal length) in Hp. simpl in Hp. lia.
Qed.

Lemma linked_run e e' : linked e -> rtc engineStep e e' -> linked e'.
Proof. intros HL Hr. induction Hr as [|e e1 e' Hst _ IH]; [done|]. by apply IH, (linked_step e). Qed.

Lemma calm_steps p e e' : rtc (calmEngine p) e e' -> rtc engineStep e e'.
Proof. intros Hr. eapply rtc_subrel; [|exact Hr]. by intros ? ? [? _]. Qed.

Lemma wait_steps p e e' : rtc (waitEngine p) e e' -> rtc engineStep e e'.
Proof. intros Hr. eapply rtc_subrel; [|exact Hr]. by intros ? ? [[? _] _]. Qed.

Lemma wait_sim p e w e' :
  engineInv e -> abstracts e w -> rtc (waitEngine p) e e' ->
  exists w', rtc (waitStep R exact p) w w' /\ abstracts e' w' /\ engineInv e'.
Proof.
  intros HI Ha Hr. destruct (run_sim (notPolling p) e w e') as (w' & Hr' & Ha' & HI'); [done | done | done | |].
  - eapply rtc_subrel; [|exact Hr]. intros x y [[Hs Hc] Hb]. split; [done|]. split; [done|]. by apply blocked_polls.
  - exists w'. split; [|done]. eapply rtc_subrel; [|exact Hr']. by intros x y (? & ? & ?).
Qed.

Lemma wait_calm p w w' : rtc (waitStep R exact p) w w' -> rtc (calmStep R exact p) w w'.
Proof. intros Hr. eapply rtc_subrel; [|exact Hr]. by intros x y [? _]. Qed.

Lemma abstracts_empty e w : abstracts e w -> healthy e -> engineCores e = [] -> wInflight w = [].
Proof.
  intros (l & lost & -> & Hl & Hh) He Hc. rewrite Hc, (Hh He) in Hl. simpl in *.
  apply Permutation_nil_r in Hl. by destruct l.
Qed.

(** C2: a drained hand-over is exact, end to end.  Take any run of the consumer in
    which a partition is assigned with nothing left of an earlier ownership; then it
    polls, dispatches, processes, ingests and commits in any interleaving, with
    rebalances of other partitions, failed commits and failing handlers whose dead
    letters are written, until it drains: the polling loop is blocked by a revoke, or has been
    stopped by a shutdown, and [DrainWorkers] goes through the shards while the workers finish;
    when it has returned, the committer's drain takes an old token away, and waits for
    the ingest loop's.  If the consumer has not been stopped in an emergency and the broker
    acknowledges the final commit, the partition's position at the broker is the one
    right after the last record polled, nothing is pending, and no item is left
    anywhere between the poll and the committer: the next owner neither loses nor
    repeats a record. *)
Theorem engine_handover n poolSize minIdle e0 e1 e1' e2 e3 e4 e5 p c broker order1 order2 now oc' sent :
  engineRun n poolSize minIdle e0 e1 -> engineOpening p c e1 ->
  engineStep e1 e1' -> wHandler (eWorld e1') = tail (wHandler (eWorld e1)) ->
  rtc (calmEngine p) e1' e2 -> pollingIdle e2 ->
  rtc (engineDrain p) (e2, AtShard 0) (e3, Drained) -> healthy e3 ->
  rtc (waitEngine p) e3 e4 -> queued (drained (wOc (eWorld e4))) = [] ->
  rtc (waitEngine p) e4 e5 -> queued (drained (wOc (eWorld e5))) <> [] ->
  range_order (PartitionMap (wOc (eWorld e5))) order1 -> range_order (PartitionMap (wOc (eWorld e5))) order2 ->
  CommitOffsets (wOc (eWorld e5)) true broker order1 order2 now = (oc', sent, None) ->
  let e6 := setWorld (setBroker (applyCommits (wBroker (eWorld e5)) sent) (setOc oc' (eWorld e5))) e5 in
  engineStep e5 e6 /\
  engineCores e6 = [] /\ wIngest (eWorld e6) = IngestIdle /\ queued (commitsIn (wOc (eWorld e6))) = [] /\
  forall x, wPrev (eWorld e5) !! p = Some x ->
    wBroker (eWorld e6) p = x + 1 /\
    exists t, PartitionMap oc' !! p = Some t /\ CommittedPlusOne t = x + 1 /\
      trackerHasPendingCommits t = false.
Proof.
  intros Hrun Hop Hst Hpop Hcalm Hid Hd Hhe Hw34 Hempty Hw45 Htok Ho1 Ho2 Hc e6.
  destruct (engine_run_abstracts R exact bufferLen guardCap overflowCap guardCap_nonneg overflowCap_nonneg _ _ _ _ _ Hrun)
    as (HI1 & _ & w1 & Hr1 & Ha1).
  assert (Hr12 : rtc engineStep e1 e2) by (eapply rtc_l; [exact Hst | by apply (calm_steps p)]).
  destruct (drained_empty p e2 e3 (linked_run _ _ (conj HI1 (ex_intro _ w1 Ha1)) Hr12) Hid Hd) as [Hw23 Hcores].
  assert (Hop1 : opening p c w1).
  { apply (opening_abstracts p c e1 w1 HI1 Ha1); [|done]. apply (healthy_run e1 e3); [|done].
    etrans; [exact Hr12 | by apply (wait_steps p)]. }
  destruct (opening_step p c e1 e1' w1 HI1 Ha1 Hop1 Hst Hpop) as (w1' & Hs1 & Hp1 & Ha1' & HI1').
  destruct (run_sim (sparing p) e1' w1' e2 ltac:(done) HI1' Ha1' Hcalm) as (w2 & Hr2 & Ha2 & HI2).
  destruct (wait_sim p e2 w2 e3 HI2 Ha2 Hw23) as (w3 & Hr3 & Ha3 & HI3).
  destruct (wait_sim p e3 w3 e4 HI3 Ha3 Hw34) as (w4 & Hr4 & Ha4 & HI4).
  destruct (wait_sim p e4 w4 e5 HI4 Ha4 Hw45) as (w5 & Hr5 & Ha5 & HI5).
  assert (Hc4 : rtc (calmStep R exact p) w1' w4).
  { etrans; [exact Hr2|]. apply wait_calm. by etrans. }
  pose proof (wait_inflight R exact p w3 w4 Hr4 (abstracts_empty e3 w3 Ha3 Hhe Hcores)) as Hf4.
  destruct Ha4 as (l4 & ? & -> & _), Ha5 as (l5 & lost5 & -> & Hl5 & _).
  destruct (handover_world R exact R_nonneg _ _ w1' _ _ p c broker order1 order2 now oc' sent Hr1 Hop1 Hs1 Hp1 Hc4 Hf4
    Hempty Hr5 Htok Ho1 Ho2 Hc) as (_ & Hidle & Hpipe & Hx).
  unfold pipeline in Hpipe. simpl in Hpipe. apply app_eq_nil in Hpipe as [Hp1' [Hp2 Hp3]%app_eq_nil].
  rewrite Hp1' in Hl5. symmetry in Hl5. apply Permutation_nil_r, app_eq_nil in Hl5 as [Hcores5 _].
  split_and!; [| done | done | |].
  - apply EngineAround.
    + split_and!; [|done | done]. eapply TickStep; [|exact Ho1 | exact Ho2 | exact Hc | done].
      unfold mutexFree. simpl in Hidle. by rewrite Hidle.
    + apply HI5.
  - by apply fmap_nil_inv in Hp3.
  - intros y Hy. by apply Hx.
Qed.

End EngineHandover.
