(* ===== verification/EngineRun.v ===== *)
(** * A concrete run of the whole consumer

    Two shards, one guard token and one overflow token, one partition with two records
    of one key.  The partition is assigned; both records are polled, the second while
    the first is with the handler; the partition is revoked, the workers drain, one
    ingest batch takes both items and the final commit moves the position to 2.  The
    shards go through the states of [DemuxRun]. *)
From S2P Require Import Prelude Types RingBuffer Tracker Committer TrackerFacts CommitterFacts Prev Subscription.
From S2P Require Import Accounting World Run Handover Worker Demux DemuxFacts DemuxTheorems DemuxDrain DemuxRun DemuxItems.
From S2P Require Import Processor Engine EngineRefines EngineOrder EngineTheorems EngineHandover.
From stdpp Require Import base gmap list strings relations.
Open Scope Z_scope.

Abbreviation runStep := (engineStep runLog True 2 1 1).

Definition mk (w : World) (d : Demux) (stamped : option WorkItem) (h : list (WorkItem * AppCall)) : Engine :=
  mkEngine w d stamped true h (fun _ _ => False).

(** ** The assignment *)

Definition er0 : Engine := mk run0 dr0 None [].
Definition er1 : Engine := mk run1 dr0 None [].
Definition reset1 : World := setHandler (tail (wHandler run1)) (setPrev (Reset (wPrev run1) [0]) run1).
Definition er2 : Engine := mk reset1 dr0 None [].
Definition er3 : Engine := mk run2 dr0 None [].
Definition marked : World :=
  setHandler [CallAckRebalance Assign [0]] (setOc (MarkPartitionAssigned (wOc run2) 0 7) run2).
Definition er4 : Engine := mk marked dr0 None [].
Definition er5 : Engine := mk run3 dr0 None [].

(** A step around the pipeline, while the polling loop is idle. *)
Lemma around w w' d h :
  step runLog True w w' -> wPolled w' = wPolled w -> wDone w' = wDone w -> dispatcher d = DIdle ->
  runStep (mk w d None h) (mk w' d None h).
Proof. intros Hs Hp Hd Hi. apply (EngineAround _ _ _ _ _ (mk w d None h) w'); [done|]. by split. Qed.

Lemma er0_1 : runStep er0 er1.
Proof.
  apply around; try done. apply (RebalanceStart _ _ run0 Assign runInfo false _ _ None); [done | | done].
  split; [done|]. by intros r ->%list_elem_of_singleton.
Qed.

Lemma er1_2 : runStep er1 er2.
Proof.
  apply around; try done.
  exact (HandlerStep runLog True run1 _ _ _ eq_refl (ExecResetPrev runLog run1 [0])).
Qed.

Lemma er2_3 : runStep er2 er3.
Proof.
  apply around; try done.
  exact (HandlerStep runLog True reset1 (CallResetCommittedOffsets (baselines runInfo))
           [CallMarkPartitionAssigned 0; CallAckRebalance Assign [0]]
           (setOc (ResetCommittedOffsets (wOc reset1) [(0, 0)]) reset1) eq_refl
           (ExecResetCommitted runLog reset1 (baselines runInfo) [(0, 0)] I ltac:(by vm_compute))).
Qed.

Lemma er3_4 : runStep er3 er4.
Proof.
  apply around; try done.
  exact (HandlerStep runLog True run2 _ _ _ eq_refl (ExecMarkAssigned runLog run2 0 7 I)).
Qed.

Lemma er4_5 : runStep er4 er5.
Proof.
  apply around; try done.
  assert (Hs : startsAt runLog (wBroker marked) [0] {[0 := 0]}).
  { intros p f [<- <-]%lookup_singleton_Some. simpl. split_and!; [by left | lia |]. intros r ???. lia. }
  exact (HandlerStep runLog True marked _ _ _ eq_refl (ExecAckAssign runLog marked [0] {[0 := 0]} Hs)).
Qed.

(** ** Both records are polled *)

Definition envA : Envelope := mkEnvelope "order-7" 0 0 None.
Definition envB : Envelope := mkEnvelope "order-7" 0 1 None.
Definition prevA : gmap Z Z := <[0 := 0]> ∅.
Definition prevB : gmap Z Z := <[0 := 1]> prevA.
Definition polledA : World := pollWorld itemA prevA run3.
Definition polledB : World := pollWorld itemB prevB polledA.

Definition er6 : Engine := mk polledA dr0 (Some itemA) [].
Definition er7 : Engine := mk polledA dr1 None [].
Definition er8 : Engine := mk polledA dr2 None [].
Definition er9 : Engine := mk polledA dr3 None [].
Definition erA : Engine := mk polledA drA None [].
Definition er10 : Engine := mk polledA dr4 None [].
Definition er11 : Engine := mk polledB dr4 (Some itemB) [].
Definition er12 : Engine := mk polledB dr5 None [].
Definition er13 : Engine := mk polledB dr6 None [].
Definition er14 : Engine := mk polledB dr7 None [].

Lemma er5_6 : runStep er5 er6.
Proof.
  apply (EnginePoll runLog True 2 1 1 er5 (NewWorkItem 1) envA None 0 0 prevA itemA); try done.
  - by exists 1, 0.
  - apply not_elem_of_nil.
  - intros r [_ ?] ??. simpl in *. lia.
Qed.

Lemma er10_11 : runStep er10 er11.
Proof.
  apply (EnginePoll runLog True 2 1 1 er10 (NewWorkItem 2) envB None 0 1 prevB itemB); try done.
  - by exists 2, 0.
  - change (2 ∉ [1]). by rewrite list_elem_of_singleton.
  - intros r [_ ?] ??. simpl in *. lia.
Qed.

(** A step of the pipeline. *)
Lemma inside w d d' h :
  demuxStep 2 1 1 d d' -> (dispatcher d = DIdle -> dispatcher d' = DIdle) -> committedItems d' = committedItems d ->
  runStep (mk w d None h) (mk w d' None h).
Proof. intros Hs Hi Hc. by apply (EnginePipeline runLog True 2 1 1 (mk w d None h) d'). Qed.

Lemma er6_7 : runStep er6 er7.
Proof. apply (EngineAcquire runLog True 2 1 1 er6 itemA dr1); [done | by left | exact step01]. Qed.

Lemma er11_12 : runStep er11 er12.
Proof. apply (EngineAcquire runLog True 2 1 1 er11 itemB dr5); [done | by right | exact step45]. Qed.

(** ** The revoke, and the drain of the workers *)

Definition revoked : World :=
  let '(s, calls, _) := HandleRebalance (wSub polledB) Revoke runInfo false in
  mkWorld (wOc polledB) IngestIdle s prevB (wFetch polledB) (wPolled polledB) [] calls (wOwned polledB)
    (wBroker polledB) (wDone polledB).

(** What the worker sends to the committer. *)
Definition handledAs (x : WorkItem) : WorkItem :=
  match processWorkItem false x okCall with Committed x' => x' | _ => x end.

Definition collected1 : World := collectWorld (sent (wOc revoked) (handledAs itemA')) itemA' revoked.
Definition collected2 : World := collectWorld (sent (wOc collected1) (handledAs itemB'')) itemB'' collected1.

Definition hA : list (WorkItem * AppCall) := [(itemA', okCall)].
Definition hAB : list (WorkItem * AppCall) := [(itemA', okCall); (itemB'', okCall)].

Definition er15 : Engine := mk revoked dr7 None [].
Definition er16 : Engine := mk collected1 dr8 None hA.
Definition erB : Engine := mk collected1 drB None hA.
Definition er17 : Engine := mk collected1 dr9 None hA.
Definition er18 : Engine := mk collected2 dr10 None hAB.
Definition er19 : Engine := mk collected2 dr11 None hAB.

Lemma er14_15 : runStep er14 er15.
Proof.
  apply around; try done.
  by apply (RebalanceStart _ _ polledB Revoke runInfo false _ _ None).
Qed.

(** A worker's handling of [x] succeeds. *)
Lemma collecting w d h x s k oc' :
  workerShards d !! theShard = Some s -> heap s !! 0 = Some k -> pc k = Busy true x ->
  CollectAndCommit (wOc w) (handledAs x) = Some oc' ->
  runStep (mk w d None h) (mk (collectWorld oc' x w) (finishAt d x) None (h ++ [(x, okCall)])).
Proof.
  intros Hs Hk Hpc Hc. unfold finishAt, workerAt, shardAt. rewrite Hs. cbn [from_option id].
  rewrite Hk. cbn [from_option id].
  by apply (EngineCollect runLog True 2 1 1 (mk w d None h) theShard s 0 k x okCall (handledAs x) oc').
Qed.

Lemma er15_16 : runStep er15 er16.
Proof.
  apply (collecting revoked dr7 [] itemA' (shardAt dr7 theShard) (workerAt (shardAt dr7 theShard) 0));
    vm_compute; reflexivity.
Qed.

Lemma er16_B : runStep er16 erB.
Proof. apply inside; [exact step8B | vm_compute; reflexivity | vm_compute; reflexivity]. Qed.

Lemma erB_17 : runStep erB er17.
Proof. apply inside; [exact stepB9 | vm_compute; reflexivity | vm_compute; reflexivity]. Qed.

Lemma er17_18 : runStep er17 er18.
Proof.
  apply (collecting collected1 dr9 hA itemB'' (shardAt dr9 theShard) (workerAt (shardAt dr9 theShard) 0));
    vm_compute; reflexivity.
Qed.

Lemma er18_19 : runStep er18 er19.
Proof. apply inside; [exact step1011 | vm_compute; reflexivity | vm_compute; reflexivity]. Qed.

(** A turn of [DrainWorkers], and a step of the others while it waits. *)
Abbreviation runDrain := (engineDrain runLog True 2 1 1 0).
Abbreviation runWait := (waitEngine runLog True 2 1 1 0).

Lemma turn e at0 at1 : drainStep 2 1 1 (eDemux e, at0) (eDemux e, at1) -> runDrain (e, at0) (e, at1).
Proof. apply DrainTurn. Qed.

Lemma waits e e' :
  runStep e e' -> wHandler (eWorld e) <> [] -> wHandler (eWorld e') = wHandler (eWorld e) -> runWait e e'.
Proof. intros Hs Hne Hh. split; [|by right]. split; [done|]. by intros ? ? _ _. Qed.

Lemma meanwhile e e' at0 :
  runStep e e' -> wHandler (eWorld e) <> [] -> wHandler (eWorld e') = wHandler (eWorld e) ->
  runDrain (e, at0) (e', at0).
Proof. intros. by apply DrainWait, waits. Qed.

Lemma er_drain : rtc runDrain (er15, AtShard 0) (er19, Drained).
Proof.
  apply (rtc_l _ _ (er15, AtShard 1)).
  { apply turn, (SkipShard 2 1 1 dr7 0 (shardAt dr7 0)); vm_compute; reflexivity. }
  apply (rtc_l _ _ (er15, Awaiting 1 [0])).
  { apply turn, (SnapshotShard 2 1 1 dr7 1 (shardAt dr7 1)); [vm_compute; reflexivity|].
    unfold snapshotOf. vm_compute. reflexivity. }
  apply (rtc_l _ _ (er16, Awaiting 1 [0])). { by apply meanwhile; [exact er15_16 | ..]. }
  apply (rtc_l _ _ (erB, Awaiting 1 [0])). { by apply meanwhile; [exact er16_B | ..]. }
  apply (rtc_l _ _ (er17, Awaiting 1 [0])). { by apply meanwhile; [exact erB_17 | ..]. }
  apply (rtc_l _ _ (er18, Awaiting 1 [0])). { by apply meanwhile; [exact er17_18 | ..]. }
  apply (rtc_l _ _ (er19, Awaiting 1 [0])). { by apply meanwhile; [exact er18_19 | ..]. }
  apply (rtc_l _ _ (er19, Awaiting 1 [])).
  { apply turn, (WorkerInactive 2 1 1 dr11 1 (shardAt dr11 1) 0 (workerAt (shardAt dr11 1) 0)); vm_compute; reflexivity. }
  apply (rtc_l _ _ (er19, AtShard 2)). { apply turn, NextShard. }
  apply rtc_once, turn, LastShard. vm_compute. reflexivity.
Qed.

(** ** The batch and the commit *)

Definition ing1 : World := setIngest (Received (handledAs itemA')) (setOc (recv (wOc collected2)) collected2).
Definition ing2 : World := setIngest (InBatch 1) (setOc (processCommit (wOc ing1) (handledAs itemA') 9) ing1).
Definition ing3 : World := setIngest (InBatch 2) (setOc (default (wOc ing2) (ingestNext (wOc ing2) 9)) ing2).
Definition ing4 : World := setIngest IngestIdle (setOc (ingestEnd (wOc ing3) (keys (wOc ing3)) 9) ing3).

Definition er20 : Engine := mk ing1 dr11 None hAB.
Definition er21 : Engine := mk ing2 dr11 None hAB.
Definition er22 : Engine := mk ing3 dr11 None hAB.
Definition er23 : Engine := mk ing4 dr11 None hAB.

Lemma er_ingest : rtc runWait er19 er23.
Proof.
  apply (rtc_l _ _ er20).
  { apply waits; [|done | done]. apply around; [|reflexivity..]. eapply ReceiveStep; vm_compute; reflexivity. }
  apply (rtc_l _ _ er21). { apply waits; [|done | done]. apply around; [|reflexivity..]. by apply BatchStart. }
  apply (rtc_l _ _ er22).
  { apply waits; [|done | done]. apply around; [|reflexivity..]. apply (BatchNext runLog True ing2 1 9);
      [done | unfold readBatchSize; lia | vm_compute; reflexivity]. }
  apply rtc_once. apply waits; [|done | done]. apply around; [|reflexivity..].
  unfold ing4. apply (BatchEnd runLog True ing3 2 (keys (wOc ing3)) 9);
    [reflexivity | right; vm_compute; reflexivity | exact (keys_range (wOc ing3))].
Qed.

Definition finalTick : Committer * list Message * option CommitError :=
  CommitOffsets (wOc ing4) true (fun _ => false) (keys (wOc ing4)) (keys (wOc ing4)) 11.

Definition er24 : Engine :=
  setWorld (setBroker (applyCommits (wBroker ing4) finalTick.1.2) (setOc finalTick.1.1 ing4)) er23.

Lemma finalTick_eq :
  CommitOffsets (wOc (eWorld er23)) true (fun _ => false) (keys (wOc ing4)) (keys (wOc ing4)) 11 =
    (finalTick.1.1, finalTick.1.2, None).
Proof. vm_compute. reflexivity. Qed.

(** ** Witnesses *)

Lemma er0_fresh : freshEngine runLog 2 2 2 0 er0.
Proof. by split; [apply run0_initial | ..]. Qed.

Lemma er0_2 : rtc runStep er0 er2.
Proof. apply (rtc_l _ _ er1 _ er0_1), rtc_once, er1_2. Qed.

(** From the installed baseline to the drain. *)
Lemma er3_15 : rtc (calmEngine runLog True 2 1 1 0) er3 er15.
Proof.
  assert (Hc : forall e e', runStep e e' ->
    (forall call, head (wHandler (eWorld e)) = Some call -> ~ ends 0 call) -> calmEngine runLog True 2 1 1 0 e e').
  { intros e e' Hs Hn. split; [done|]. intros call rest Hh He. destruct (Hn call); [by rewrite Hh | done]. }
  assert (Hi : forall w d d' o o' h h', wHandler w = [] -> runStep (mk w d o h) (mk w d' o' h') ->
    calmEngine runLog True 2 1 1 0 (mk w d o h) (mk w d' o' h')).
  { intros w d d' o o' h h' Hw Hs. apply Hc; [done|]. simpl. by rewrite Hw. }
  apply (rtc_l _ _ er4). { apply (Hc _ _ er3_4). intros ? [= <-] []. }
  apply (rtc_l _ _ er5). { apply (Hc _ _ er4_5). intros ? [= <-] []. }
  apply (rtc_l _ _ er6). { by apply (Hc _ _ er5_6). }
  apply (rtc_l _ _ er7). { by apply Hi, er6_7. }
  apply (rtc_l _ _ er8). { apply Hi; [done|]. apply inside; [exact step12 | vm_compute; discriminate | vm_compute; reflexivity]. }
  apply (rtc_l _ _ er9). { apply Hi; [done|]. apply inside; [exact step23 | vm_compute; discriminate | vm_compute; reflexivity]. }
  apply (rtc_l _ _ erA). { apply Hi; [done|]. apply inside; [exact step3A | vm_compute; reflexivity | vm_compute; reflexivity]. }
  apply (rtc_l _ _ er10). { apply Hi; [done|]. apply inside; [exact stepA4 | vm_compute; reflexivity | vm_compute; reflexivity]. }
  apply (rtc_l _ _ er11). { by apply (Hc _ _ er10_11). }
  apply (rtc_l _ _ er12). { by apply Hi, er11_12. }
  apply (rtc_l _ _ er13). { apply Hi; [done|]. apply inside; [exact step56 | vm_compute; discriminate | vm_compute; reflexivity]. }
  apply (rtc_l _ _ er14). { apply Hi; [done|]. apply inside; [exact step67 | vm_compute; discriminate | vm_compute; reflexivity]. }
  apply rtc_once. by apply (Hc _ _ er14_15).
Qed.

Lemma er23_24 : runStep er23 er24.
Proof.
  apply (around ing4 (setBroker (applyCommits (wBroker ing4) finalTick.1.2) (setOc finalTick.1.1 ing4)) dr11 hAB);
    [|reflexivity..].
  eapply TickStep; [exact I | apply keys_range | apply keys_range | exact finalTick_eq | reflexivity].
Qed.

Lemma er15_run : engineRun runLog True 2 1 1 2 2 0 er0 er15.
Proof.
  split; [exact er0_fresh|]. etrans; [exact er0_2|]. apply (rtc_l _ _ er3 _ er2_3).
  eapply calm_steps, er3_15.
Qed.

Lemma er24_run : engineRun runLog True 2 1 1 2 2 0 er0 er24.
Proof.
  split; [apply er15_run|]. etrans; [apply er15_run|].
  apply (rtc_l _ _ er16 _ er15_16), (rtc_l _ _ erB _ er16_B), (rtc_l _ _ er17 _ erB_17), (rtc_l _ _ er18 _ er17_18), (rtc_l _ _ er19 _ er18_19).
  eapply rtc_r; [eapply wait_steps, er_ingest | exact er23_24].
Qed.

Lemma committed_handled_witness : wBroker (eWorld er24) 0 = 2 /\ handled er24 0 1.
Proof.
  split; [vm_compute; reflexivity|].
  destruct (committed_handled runLog True 2 1 1 ltac:(lia) ltac:(lia) 2 2 0 er0 er24 runLog_nonneg er24_run 0 1) as [[]|H];
    [by split; [|lia] | vm_compute; reflexivity | exact H].
Defined.

Lemma engine_refines_witness :
  map cPtr (engineCores er14) = [1; 2] /\
  exists inflight, reachable runLog True run0 (withInflight inflight revoked) /\ cores inflight ≡ₚ engineCores er15.
Proof.
  split; [vm_compute; reflexivity|].
  destruct (engine_refines runLog True 2 1 1 ltac:(lia) ltac:(lia) 2 2 0 er0 er15 er15_run) as (l & lost & Hr & Hl & Hh).
  exists l. split; [exact Hr|]. rewrite Hh in Hl; [by rewrite app_nil_r in Hl|].
  split; [vm_compute; reflexivity|]. vm_compute. repeat constructor.
Defined.

Lemma records_distinct_witness :
  map cPtr (engineRecords er24) = [1; 2] /\ NoDup (map cPtr (engineRecords er24)).
Proof.
  split; [vm_compute; reflexivity|].
  exact (proj1 (records_distinct runLog True 2 1 1 ltac:(lia) ltac:(lia) 2 2 0 er0 er24 er24_run)).
Defined.

Lemma handled_in_poll_order_witness :
  map cPtr (ofKey "order-7" (started (eDemux er15))) = [1] /\ map cPtr (ofKey "order-7" (polled er15)) = [1; 2] /\
  ofKey "order-7" (started (eDemux er15)) `sublist_of` ofKey "order-7" (polled er15).
Proof.
  split; [vm_compute; reflexivity|]. split; [vm_compute; reflexivity|].
  exact (proj1 (handled_in_poll_order runLog True 2 1 1 ltac:(lia) ltac:(lia) 2 2 0 er0 er15 "order-7" er15_run)).
Defined.

Lemma er2_opening : engineOpening 0 0 er2.
Proof.
  split; [|vm_compute; repeat constructor]. split.
  - eexists _, _. split; reflexivity.
  - right. left.
  - done.
  - by split.
Qed.

Lemma engine_handover_witness :
  wBroker (eWorld er24) 0 = 2 /\ map Offset finalTick.1.2 = [1].
Proof.
  split; [|vm_compute; reflexivity].
  assert (H2 : engineRun runLog True 2 1 1 2 2 0 er0 er2) by (split; [exact er0_fresh | exact er0_2]).
  assert (Hi : pollingIdle er15) by (split; vm_compute; reflexivity).
  assert (Hh : healthy er19) by (split; [vm_compute; reflexivity | vm_compute; repeat constructor]).
  destruct (engine_handover runLog True 2 1 1 ltac:(lia) ltac:(lia) runLog_nonneg 2 2 0 er0 er2 er3 er15 er19 er19 er23 0 0
    (fun _ => false) (keys (wOc ing4)) (keys (wOc ing4)) 11 finalTick.1.1 finalTick.1.2 H2 er2_opening er2_3 eq_refl er3_15
    Hi er_drain Hh (rtc_refl _ er19) ltac:(vm_compute; reflexivity) er_ingest ltac:(vm_compute; congruence)
    (keys_range (wOc ing4)) (keys_range (wOc ing4)) finalTick_eq) as (_ & _ & _ & _ & H).
  exact (proj1 (H 1 eq_refl)).
Defined.
