(* ===== verification/EngineLive.v ===== *)
(** * A drain comes to an end

    The workers hand their items over through the committer's channel, and wait while
    it is full.  With the polling loop blocked the workers of an [Engine] have a bounded
    number of steps left; while one is registered, a worker can move, or the channel is
    full and the ingest loop makes room in at most three steps of its own.  So
    [DrainWorkers] returns as long as handlers and commits return, and the workers and
    the ingest loop are scheduled. *)
From S2P Require Import Prelude Types RingBuffer Tracker Committer TrackerFacts Safety Monotone Prev.
From S2P Require Import CommitterFacts Subscription Forward World WorldInv WorldSteps Accounting Epoch Handover Run.
From S2P Require Import Worker Demux DemuxFacts DemuxTheorems DemuxDrain DemuxRun DemuxItems DemuxLive Processor.
From S2P Require Import Engine EngineRefines EngineOrder EngineTheorems EngineHandover EngineRun.
From stdpp Require Import base gmap list strings relations.
Open Scope Z_scope.

Section EngineLive.
Context `{NX : Nexus} `{NXok : !NexusOk NX} `{RT : GoRuntime} `{RTok : !GoRuntimeOk RT}.
Variable R : Z -> Z -> Prop.
Variable exact : Prop.
Variables bufferLen guardCap overflowCap : Z.
Hypothesis guardCap_nonneg : 0 <= guardCap.
Hypothesis overflowCap_nonneg : 0 <= overflowCap.
Implicit Types (e : Engine) (w : World) (oc : Committer).

Abbreviation engineStep := (engineStep R exact bufferLen guardCap overflowCap).
Abbreviation engineInv := (engineInv bufferLen guardCap overflowCap).
Abbreviation engineRun := (engineRun R exact bufferLen guardCap overflowCap).
Abbreviation waitEngine := (waitEngine R exact bufferLen guardCap overflowCap).
Abbreviation engineDrain := (engineDrain R exact bufferLen guardCap overflowCap).
Abbreviation linked := (linked bufferLen guardCap overflowCap).

(** ** The committer's channel *)

Definition channel e : Chan WorkItem := commitsIn (wOc (eWorld e)).

(** [cap] is its capacity, and is never exceeded. *)
Definition channelOk (cap : Z) (c : Chan WorkItem) : Prop := chCap c = cap /\ chLen c <= cap.

Lemma send_channel cap c x c' : channelOk cap c -> trySend c x = Some c' -> channelOk cap c'.
Proof.
  intros [Hc Hl]. unfold trySend. destruct (Z.ltb_spec (chLen c) (chCap c)); [|done]. intros [= <-].
  split; [done|]. unfold chLen in *. simpl. rewrite length_app. simpl. lia.
Qed.

Lemma recv_channel cap c x c' : channelOk cap c -> tryRecv c = Some (x, c') -> channelOk cap c' /\ chLen c' < cap.
Proof.
  intros [Hc Hl] [Hq Hcap]%tryRecv_queue. unfold channelOk, chLen in *. rewrite Hq in Hl. simpl in Hl.
  split; [split; [congruence|]|]; lia.
Qed.

Lemma collect_channel cap oc x oc' :
  CollectAndCommit oc x = Some oc' -> channelOk cap (commitsIn oc) -> channelOk cap (commitsIn oc').
Proof.
  unfold CollectAndCommit. destruct (trySend _ _) as [c|] eqn:E; [|done]. intros [= <-] Ho. by eapply send_channel.
Qed.

Lemma execCall_channel w call w' : execCall R w call w' -> commitsIn (wOc w') = commitsIn (wOc w).
Proof.
  destruct 1; try done. simpl. apply ResetCommittedOffsets_commitsIn.
Qed.

Lemma step_channel cap w w' :
  step R exact w w' -> channelOk cap (commitsIn (wOc w)) -> channelOk cap (commitsIn (wOc w')).
Proof.
  intros Hs Ho. destruct Hs as [item f prev'|item item' rest oc' Hin Hcr Hc|item c Hi Hr
    |item now Hi|n now oc' Hi Hn Hr|n order now Hi Hn Hor
    |guard broker order1 order2 now oc' sent applied err Hm Ho1 Ho2 Hc Hb
    | |t info ackErr s' calls err Hh Hev Hr|call rest w' Hh He|p pos done' Hp' Hle Hd Hpos]; simpl in *; try done.
  - by eapply collect_channel.
  - by eapply recv_channel.
  - by rewrite processCommit_commitsIn.
  - apply ingestNext_cases in Hr as (x & c & Hr & ->). rewrite processCommit_commitsIn. by eapply recv_channel.
  - by rewrite (proj1 (proj2 (ingestEnd_frame _ _ _))).
  - by rewrite (proj1 (CommitOffsets_frame _ _ _ _ _ _ _ _ _ Hc)).
  - unfold channelOk. by rewrite (proj1 (proj2 (clearDrained_frame _))).
  - by rewrite (execCall_channel _ _ _ He).
Qed.

Lemma engine_channel cap e e' : engineStep e e' -> channelOk cap (channel e) -> channelOk cap (channel e').
Proof.
  intros Hst Ho. destruct Hst as [| | | | |i s id k x app x' oc' Hs Hk Hpc Hf Hc|w' [Hst _] _| |]; try done.
  - by eapply collect_channel.
  - by eapply step_channel.
Qed.

Lemma run_channel cap e e' : rtc engineStep e e' -> channelOk cap (channel e) -> channelOk cap (channel e').
Proof. induction 1 as [|e e1 e' Hst _ IH]; [done|]. intros Ho. by eapply IH, engine_channel. Qed.

(** ** The ingest loop makes room *)

(** A step of the ingest loop. *)
Definition ingestTurn (p : Z) e e' : Prop :=
  waitEngine p e e' /\ eDemux e' = eDemux e /\ eStamped e' = eStamped e /\
  wIngest (eWorld e') <> wIngest (eWorld e).

Lemma ingest_turn p e w' :
  linked e -> blocked e -> step R exact (eWorld e) w' -> wPolled w' = wPolled (eWorld e) -> wDone w' = wDone (eWorld e) ->
  wHandler w' = wHandler (eWorld e) -> wIngest w' <> wIngest (eWorld e) -> ingestTurn p e (setWorld w' e).
Proof.
  intros [HI _] Hb Hs Hp Hd Hh Hi. split_and!; try done. split; [|done]. split.
  - apply EngineAround; [by split_and!|]. rewrite Hh. apply HI.
  - intros call rest _ _. done.
Qed.

(** A batch has at most [readBatchSize] items. *)
Definition batchOk w : Prop := match wIngest w with InBatch n => (n <= readBatchSize)%nat | _ => True end.

Lemma step_batch w w' : step R exact w w' -> batchOk w -> batchOk w'.
Proof.
  unfold batchOk. intros Hs Ho. destruct Hs as [| | | |n now oc' Hi Hn| | | | |call rest w' Hh He|]; simpl in *; try done.
  - unfold readBatchSize. lia.
  - by destruct He.
Qed.

Lemma engine_batch e e' : engineStep e e' -> batchOk (eWorld e) -> batchOk (eWorld e').
Proof. intros Hst. destruct Hst as [| | | | | |w' [Hst _] _| |]; try done. by apply step_batch. Qed.

(** A state as a drain finds it: reached, with the polling loop blocked. *)
Record draining (cap : Z) e : Prop := {
  dr_linked : linked e;
  dr_idle : pollingIdle e;
  dr_blocked : blocked e;
  dr_channel : channelOk cap (channel e);
  dr_batch : batchOk (eWorld e)
}.

Lemma wait_draining cap p e e' : draining cap e -> waitEngine p e e' -> blocked e' -> draining cap e'.
Proof.
  intros [HL Hi Hb Hc Hn] [[Hst _] _] Hb'. split; [by eapply linked_step | by apply (idle_kept R exact bufferLen guardCap overflowCap e) | done | |].
  - by eapply engine_channel.
  - by eapply engine_batch.
Qed.

Lemma turn_draining cap p e e' : draining cap e -> ingestTurn p e e' -> blocked e' -> draining cap e'.
Proof. intros HD [Hw _]. by apply (wait_draining cap p e). Qed.

Lemma nonempty_recv cap e :
  0 < cap -> channelOk cap (channel e) -> ~ chLen (channel e) < cap -> exists x c, tryRecv (channel e) = Some (x, c).
Proof.
  intros H0 [_ Hl] Hf. unfold tryRecv, chLen in *. destruct (queued (channel e)); [simpl in *; lia | eauto].
Qed.

(** From between two batches it takes one receive. *)
Lemma room_idle cap p e :
  0 < cap -> draining cap e -> wIngest (eWorld e) = IngestIdle -> ~ chLen (channel e) < cap ->
  exists e', nsteps (ingestTurn p) 1 e e' /\ draining cap e' /\ chLen (channel e') < cap.
Proof.
  intros H0 HD Hi Hf. destruct (nonempty_recv cap e H0 (dr_channel _ _ HD) Hf) as (x & c & Hr).
  set (w' := setIngest (Received x) (setOc (setCommitsIn c (wOc (eWorld e))) (eWorld e))).
  assert (Ht : ingestTurn p e (setWorld w' e)).
  { apply ingest_turn; try done; [apply HD | apply HD | by apply ReceiveStep | simpl; by rewrite Hi]. }
  exists (setWorld w' e). split_and!; [by apply nsteps_once | by eapply turn_draining; [..|apply HD] |].
  by destruct (recv_channel cap _ x c (dr_channel _ _ HD) Hr).
Qed.

(** Some order in which a [range] may visit the trackers. *)
Definition visitOrder oc : list Z := (map_to_list (PartitionMap oc)).*1.

Lemma visitOrder_range oc : range_order (PartitionMap oc) (visitOrder oc).
Proof.
  split; [apply NoDup_fst_map_to_list|]. intros p. unfold visitOrder. rewrite list_elem_of_fmap. split.
  - intros ([q t] & -> & Ht%elem_of_map_to_list). by exists t.
  - intros [t Ht]. exists (p, t). by rewrite elem_of_map_to_list.
Qed.

(** Inside a batch it takes the next item, or ends the batch first. *)
Lemma room_batch cap p e n :
  0 < cap -> draining cap e -> wIngest (eWorld e) = InBatch n -> (n <= readBatchSize)%nat -> ~ chLen (channel e) < cap ->
  exists k e', (k <= 2)%nat /\ nsteps (ingestTurn p) k e e' /\ draining cap e' /\ chLen (channel e') < cap.
Proof.
  intros H0 HD Hi Hn Hf. destruct (decide (n = readBatchSize)) as [Heq|Hne].
  - set (oc := ingestEnd (wOc (eWorld e)) (visitOrder (wOc (eWorld e))) 0).
    set (w' := setIngest IngestIdle (setOc oc (eWorld e))).
    assert (Ht : ingestTurn p e (setWorld w' e)).
    { apply ingest_turn; try done; [apply HD | apply HD | | simpl; by rewrite Hi].
      apply (BatchEnd R exact (eWorld e) n); [done | by left | apply visitOrder_range]. }
    assert (HD' : draining cap (setWorld w' e)) by (eapply turn_draining; [exact HD | exact Ht | apply HD]).
    destruct (room_idle cap p (setWorld w' e) H0 HD' eq_refl) as (e' & Hs & HD2 & Hr).
    { change (channel (setWorld w' e)) with (commitsIn oc). unfold oc. by rewrite (proj1 (proj2 (ingestEnd_frame _ _ _))). }
    exists 2%nat, e'. split_and!; try done. by eapply nsteps_l.
  - destruct (nonempty_recv cap e H0 (dr_channel _ _ HD) Hf) as (x & c & Hr).
    set (oc := processCommit (setCommitsIn c (wOc (eWorld e))) x 0).
    set (w' := setIngest (InBatch (S n)) (setOc oc (eWorld e))).
    assert (Ht : ingestTurn p e (setWorld w' e)).
    { apply ingest_turn; try done; [apply HD | apply HD | | simpl; rewrite Hi; intros [= E]; lia].
      apply (BatchNext R exact (eWorld e) n 0); [done | lia |]. unfold ingestNext.
      change (commitsIn (wOc (eWorld e))) with (channel e). by rewrite Hr. }
    exists 1%nat, (setWorld w' e). split_and!; [lia | by apply nsteps_once | by eapply turn_draining; [..|apply HD] |].
    change (channel (setWorld w' e)) with (commitsIn oc). unfold oc. rewrite processCommit_commitsIn.
    by destruct (recv_channel cap _ x c (dr_channel _ _ HD) Hr).
Qed.

Lemma room_made cap p e :
  0 < cap -> draining cap e -> ~ chLen (channel e) < cap ->
  exists k e', (k <= 3)%nat /\ nsteps (ingestTurn p) k e e' /\ draining cap e' /\ chLen (channel e') < cap.
Proof.
  intros H0 HD Hf. pose proof (dr_batch _ _ HD) as Hn. unfold batchOk in Hn. destruct (wIngest (eWorld e)) as [|x|n] eqn:Hi.
  - destruct (room_idle cap p e H0 HD Hi Hf) as (e' & ?). exists 1%nat, e'. split; [lia | done].
  - set (oc := processCommit (wOc (eWorld e)) x 0). set (w' := setIngest (InBatch 1) (setOc oc (eWorld e))).
    assert (Ht : ingestTurn p e (setWorld w' e)).
    { apply ingest_turn; try done; [apply HD | apply HD | by apply BatchStart | simpl; by rewrite Hi]. }
    assert (HD' : draining cap (setWorld w' e)) by (eapply turn_draining; [exact HD | exact Ht | apply HD]).
    destruct (room_batch cap p (setWorld w' e) 1 H0 HD' eq_refl) as (k & e' & Hk & Hs & HD2 & Hr).
    { unfold readBatchSize. lia. }
    { change (channel (setWorld w' e)) with (commitsIn oc). unfold oc. by rewrite processCommit_commitsIn. }
    exists (S k), e'. split_and!; [lia | by eapply nsteps_l | done | done].
  - destruct (room_batch cap p e n H0 HD Hi Hn Hf) as (k & e' & Hk & ?). exists k, e'. split; [lia | done].
Qed.

Lemma turns_demux p k e e' : nsteps (ingestTurn p) k e e' -> eDemux e' = eDemux e.
Proof. induction 1 as [|k e e1 e' (_ & Hd & _) _ IH]; [done|]. by rewrite IH. Qed.

Lemma turns_wait p k e e' : nsteps (ingestTurn p) k e e' -> rtc (waitEngine p) e e'.
Proof. induction 1 as [|k e e1 e' [Hw _] _ IH]; [done|]. by eapply rtc_l. Qed.

(** ** The workers move *)

(** A worker moves, and the breaker is left alone. *)
Definition workerMoves (p : Z) e e' : Prop :=
  waitEngine p e e' /\ advances (eDemux e) (eDemux e') /\ trippedBreaker (eDemux e') = trippedBreaker (eDemux e).

(** A worker whose handler is done hands its item over, if the channel has room. *)
Lemma collect_moves cap p e i s id k x :
  draining cap e -> workerShards (eDemux e) !! i = Some s -> heap s !! id = Some k -> pc k = Busy true x ->
  chLen (channel e) < cap -> exists e', workerMoves p e e' /\ draining cap e'.
Proof.
  intros HD Hs Hk Hpc Hroom. pose proof HD as [_ _ Hb [Hcap _] _].
  set (app := mkAppCall AppOk AppOk 0 0 0).
  destruct (processWorkItem false x app) as [| |x'] eqn:Hf; try done.
  destruct (CollectAndCommit (wOc (eWorld e)) x') as [oc'|] eqn:Hc.
  2: { unfold CollectAndCommit, trySend in Hc. unfold channel in Hroom, Hcap. rewrite Hcap in Hc.
       by destruct (Z.ltb_spec (chLen (commitsIn (wOc (eWorld e)))) cap); [|lia]. }
  set (d' := setShard i (putWorker id (setPc Hot k) s) (eDemux e)).
  exists (mkEngine (collectWorld oc' x (eWorld e)) (fate (Committed x') d') (eStamped e) (ePolling e)
           (eHandled e ++ [(x, app)]) (eElsewhere e)).
  assert (Hw : waitEngine p e (mkEngine (collectWorld oc' x (eWorld e)) (fate (Committed x') d') (eStamped e) (ePolling e)
           (eHandled e ++ [(x, app)]) (eElsewhere e))).
  { split; [|done]. split; [by eapply EngineCollect | by intros call rest _ _]. }
  split; [|by eapply wait_draining]. split; [done|]. split; [|done].
  exists i, s, (putWorker id (setPc Hot k) s), id, k, (setPc Hot k). split_and!; try done.
  - simpl. apply list_lookup_insert_eq. by eapply lookup_lt_Some.
  - apply lookup_insert_eq.
  - by rewrite Hpc.
Qed.

(** A step of a worker by itself. *)
Lemma alone_moves cap p e d' :
  draining cap e -> workerStep bufferLen guardCap overflowCap (eDemux e) d' ->
  exists e', workerMoves p e e' /\ draining cap e'.
Proof.
  intros HD ((Hst & Hd & Hd') & Ha & Hc & Ht). exists (setDemux d' e).
  assert (Hw : waitEngine p e (setDemux d' e)).
  { split; [|apply HD]. split; [|by intros call rest _ _]. by apply EnginePipeline. }
  split; [by split_and! | eapply wait_draining; [exact HD | exact Hw | apply HD]].
Qed.

(** While a worker is registered one can move, after at most three steps of the ingest
    loop, and after none if the channel has room. *)
Lemma drain_progress cap p e i s key id :
  0 < cap -> draining cap e -> workerShards (eDemux e) !! i = Some s -> workers s !! key = Some id ->
  exists turns e1 e2, (turns <= 3)%nat /\ (turns <> 0%nat -> chLen (channel e) = cap) /\
    nsteps (ingestTurn p) turns e e1 /\ workerMoves p e1 e2 /\ draining cap e2.
Proof.
  intros H0 HD Hs Hm. pose proof HD as [[HI _] [_ Hd] _ [_ Hle] _].
  destruct (registered_moves bufferLen guardCap overflowCap (eDemux e) i s key id (en_demux _ _ _ _ HI) Hd Hs Hm)
    as [[d' Hst]|(k & x & Hk & Hpc)].
  - destruct (alone_moves cap p e d' HD Hst) as (e2 & ? & ?). exists 0%nat, e, e2.
    split_and!; [lia | done | constructor | done | done].
  - destruct (decide (chLen (channel e) < cap)) as [Hroom|Hfull].
    + destruct (collect_moves cap p e i s id k x HD Hs Hk Hpc Hroom) as (e2 & ? & ?). exists 0%nat, e, e2.
      split_and!; [lia | done | constructor | done | done].
    + destruct (room_made cap p e H0 HD Hfull) as (turns & e1 & Ht & Hn & HD1 & Hroom).
      destruct (collect_moves cap p e1 i s id k x HD1) as (e2 & ? & ?); try done; [by rewrite (turns_demux p turns e e1)|].
      exists turns, e1, e2. split_and!; try done. lia.
Qed.

(** ** The end of the drain *)

(** A run with the polling loop blocked, in which workers make the given number of steps. *)
Inductive waitRun (p : Z) : nat -> Engine -> Engine -> Prop :=
| WaitEnd e : waitRun p 0 e e
| WaitWork n e e1 e' :
    waitEngine p e e1 -> advances (eDemux e) (eDemux e1) -> waitRun p n e1 e' -> waitRun p (S n) e e'
| WaitOther n e e1 e' : waitEngine p e e1 -> waitRun p n e1 e' -> waitRun p n e e'.

Lemma wait_lowers p e e' : pollingIdle e -> waitEngine p e e' -> lowers (eDemux e) (eDemux e') /\ pollingIdle e'.
Proof.
  intros Hi [[Hst _] Hb]. split; [|by apply (idle_kept R exact bufferLen guardCap overflowCap e)].
  destruct (blocked_step R exact bufferLen guardCap overflowCap e e' Hb Hi Hst) as [E|(H1 & H2 & H3)].
  - rewrite E. split; [lia|]. intros (i & s & s' & id & k & k' & Hs & Hs' & Hk & Hk' & Hne). congruence.
  - by apply (idle_lowers bufferLen guardCap overflowCap).
Qed.

Lemma waitRun_bound p n e e' :
  waitRun p n e e' -> pollingIdle e -> (n + workLeft (eDemux e') <= workLeft (eDemux e))%nat.
Proof.
  induction 1 as [|n e e1 e' Hs Ha _ IH|n e e1 e' Hs _ IH]; intros Hi; [lia | |];
    destruct (wait_lowers p e e1 Hi Hs) as [[Hle Hlt] Hi1]; specialize (IH Hi1); [specialize (Hlt Ha)|]; lia.
Qed.

(** From empty maps the loop of [DrainWorkers] runs through. *)
Lemma drain_skips p e i :
  (forall j s, workerShards (eDemux e) !! j = Some s -> workers s = ∅) -> (i <= length (workerShards (eDemux e)))%nat ->
  rtc (engineDrain p) (e, AtShard i) (e, Drained).
Proof.
  intros He Hi. remember (length (workerShards (eDemux e)) - i)%nat as n eqn:En. revert i Hi En.
  induction n as [|n IH]; intros i Hi En.
  - apply rtc_once, DrainTurn, LastShard. apply lookup_ge_None. lia.
  - destruct (lookup_lt_is_Some_2 (workerShards (eDemux e)) i) as [s Hs]; [lia|].
    eapply rtc_l; [eapply DrainTurn, SkipShard; [exact Hs | by eapply He]|]. apply IH; [|lia].
    apply lookup_lt_Some in Hs. lia.
Qed.

Lemma wait_drain p e e' at0 : rtc (waitEngine p) e e' -> rtc (engineDrain p) (e, at0) (e', at0).
Proof. induction 1 as [|e e1 e' Hw _ IH]; [done|]. eapply rtc_l; [by apply DrainWait | exact IH]. Qed.

Lemma drain_completes cap p e :
  0 < cap -> draining cap e ->
  exists e', rtc (engineDrain p) (e, AtShard 0) (e', Drained) /\ trippedBreaker (eDemux e') = trippedBreaker (eDemux e).
Proof.
  intros H0 HD. remember (workLeft (eDemux e)) as m eqn:Em. revert e HD Em. induction (lt_wf m) as [m _ IH].
  intros e HD ->. destruct (shard_dec (eDemux e)) as [(i & s & key & id & Hs & Hm)|He].
  - destruct (drain_progress cap p e i s key id H0 HD Hs Hm) as (turns & e1 & e2 & _ & _ & Hn & (Hw & Ha & Ht) & HD2).
    pose proof (turns_demux p turns e e1 Hn) as E. rewrite E in Ha, Ht.
    assert (Hi1 : pollingIdle e1).
    { clear -HD Hn. pose proof (dr_idle _ _ HD) as Hi. clear HD. induction Hn as [|k e e1 e' [Hw _] _ IHn]; [done|].
      apply IHn. by apply (wait_lowers p e e1). }
    destruct (wait_lowers p e1 e2 Hi1 Hw) as [[_ Hlt] _]. rewrite E in Hlt.
    destruct (IH (workLeft (eDemux e2)) (Hlt Ha) e2 HD2 eq_refl) as (e' & Hr & Ht'). exists e'. split; [|congruence].
    etrans; [apply wait_drain, (turns_wait p turns e e1 Hn)|]. eapply rtc_l; [by apply DrainWait | exact Hr].
  - exists e. split; [apply drain_skips; [done | lia] | done].
Qed.

Lemma fresh_batch n poolSize minIdle e : freshEngine R bufferLen n poolSize minIdle e -> batchOk (eWorld e).
Proof. intros [Hw _ _ _ _]. unfold batchOk. by rewrite (init_ingest R _ Hw). Qed.

Lemma run_draining n poolSize minIdle e0 e :
  engineRun n poolSize minIdle e0 e -> 0 <= chCap (channel e0) -> pollingIdle e -> blocked e ->
  draining (chCap (channel e0)) e.
Proof.
  intros Hrun Hcap Hi Hb. pose proof Hrun as [Hf Hr].
  destruct (engine_run_abstracts R exact bufferLen guardCap overflowCap guardCap_nonneg overflowCap_nonneg _ _ _ _ _ Hrun)
    as (HI & _ & w & _ & Ha).
  split; [by split; [|exists w] | done | done | |].
  - eapply run_channel; [exact Hr|]. split; [done|]. unfold chLen, channel. destruct Hf as [Hw _ _ _ _].
    rewrite (init_channel R _ Hw). simpl. exact Hcap.
  - clear -Hr Hf. pose proof (fresh_batch _ _ _ _ Hf) as Hn. clear Hf.
    induction Hr as [|e e1 e' Hst _ IH]; [done|]. by eapply IH, engine_batch.
Qed.

(** C14: a drain of the workers terminates.  Take any reachable state of a consumer
    whose polling loop is blocked outside [Process], by a rebalance handler or because it
    has ended, and whose commit channel has a buffer.  Whatever the pools, the breaker,
    the ingest loop, the commit ticks and the group do, the workers make at most
    [workLeft] more steps.  As long as a worker is registered, one can make a step
    that does not trip the breaker: at once, or, if the commit channel is full, after at
    most three steps of the ingest loop, which takes an item out of it.  And
    [DrainWorkers] can be completed without a trip.  So it returns when handlers and
    commits return, and the workers and the ingest loop are scheduled. *)
Theorem drain_terminates p n poolSize minIdle e0 e :
  engineRun n poolSize minIdle e0 e -> 0 < chCap (channel e0) -> pollingIdle e -> blocked e ->
  (forall moved e', waitRun p moved e e' -> (moved <= workLeft (eDemux e))%nat) /\
  ((forall i s, workerShards (eDemux e) !! i = Some s -> workers s = ∅) \/
   exists turns e1 e2, (turns <= 3)%nat /\ (turns <> 0%nat -> chLen (channel e) = chCap (channel e)) /\
     nsteps (ingestTurn p) turns e e1 /\ workerMoves p e1 e2) /\
  exists e', rtc (engineDrain p) (e, AtShard 0) (e', Drained) /\ trippedBreaker (eDemux e') = trippedBreaker (eDemux e).
Proof.
  intros Hrun H0 Hi Hb. pose proof (run_draining n poolSize minIdle e0 e Hrun ltac:(lia) Hi Hb) as HD. split_and!.
  - intros moved e' Hw. pose proof (waitRun_bound p moved e e' Hw Hi). lia.
  - destruct (shard_dec (eDemux e)) as [(i & s & key & id & Hs & Hm)|He]; [right | by left].
    destruct (drain_progress _ p e i s key id H0 HD Hs Hm) as (turns & e1 & e2 & Ht & Hf & Hn & Hw & _).
    exists turns, e1, e2. by rewrite (proj1 (dr_channel _ _ HD)).
  - by apply (drain_completes (chCap (channel e0)) p e).
Qed.

End EngineLive.

(** The run of [EngineRun] when the revoke starts its drain: the first item is with the
    handler and the second waits, so at most eleven more steps. *)
Lemma drain_terminates_witness :
  workLeft (eDemux er15) = 11%nat /\
  exists e', rtc (engineDrain runLog True 2 1 1 0) (er15, AtShard 0) (e', Drained) /\
    trippedBreaker (eDemux e') = false.
Proof.
  split; [vm_compute; reflexivity|].
  exact (proj2 (proj2 (drain_terminates runLog True 2 1 1 ltac:(lia) ltac:(lia) 0 2 2 0 er0 er15 er15_run
    ltac:(vm_compute; reflexivity) ltac:(split; vm_compute; reflexivity) ltac:(right; vm_compute; discriminate)))).
Defined.
