(* ===== verification/Collector.v ===== *)
(** * The metrics collector ([demux/metrics/metrics_collector.go])

    [Collect] is called under the committer's mutex, by one goroutine at a time, and
    must not block; each call of [StartCollectingMetrics] starts a goroutine that takes
    items from the channel and calls the sink.  A step is one atomic action of one of
    them.  The sink is outside the repository: how a call of it ends is an argument,
    and it may take any time. *)
From S2P Require Import Prelude Types Processor.
From stdpp Require Import base gmap list strings relations.
Open Scope Z_scope.
Open Scope go_scope.

(** How a call of the sink ends. *)
Inductive SinkOutcome := SinkOk | SinkError | SinkPanic.

Section Collector.
Context `{NX : Nexus}.
Implicit Types (w : WorkItem).

(** Where a goroutine of [startCollectLoop] stands; [quit] is its variable. *)
Inductive LoopPc :=
| Selecting (quit : bool)
| Taken (quit : bool) (w : WorkItem)              (* received: fills in the metrics *)
| InSink (quit : bool) (w : WorkItem)             (* the sink was called *)
| Deferred (quit : bool) (w : WorkItem) (panicked : bool)   (* about to return the item *)
| Recovered (quit : bool)                         (* returned, about to count the panic *)
| Checking (quit : bool)                          (* [if quit && len(c.workItems) == 0] *)
| LoopReturned.

(** Where the caller of [Collect] stands. *)
Inductive CollectPc :=
| NotCollecting
| Yielding (w : WorkItem)                         (* the channel was full: [Gosched] *)
| Dropping.                                       (* returned the item, about to count *)

(** [sinkCalls]: what the sink was given; [returnedItems]: what went back to the
    pool; [offered]: the arguments of [Collect]; [accepted]: what it put in the
    channel. *)
Record Collector := mkCollector {
  workItems : Chan WorkItem;
  CollectedCount : Z;
  DroppedCount : Z;
  SendFailedCount : Z;
  quitClosed : bool;
  loops : gmap Z LoopPc;
  caller : CollectPc;
  sinkCalls : list Metrics;
  returnedItems : list WorkItem;
  offered : list WorkItem;
  accepted : list WorkItem
}.
Implicit Types (c : Collector) (pc : LoopPc).

Definition NewCollector (bufferSize : Z) : Collector :=
  mkCollector (makeChan bufferSize) 0 0 0 false ∅ NotCollecting [] [] [] [].

Definition setLoop (g : Z) pc c : Collector :=
  mkCollector (workItems c) (CollectedCount c) (DroppedCount c) (SendFailedCount c) (quitClosed c)
    (<[g := pc]> (loops c)) (caller c) (sinkCalls c) (returnedItems c) (offered c) (accepted c).
Definition setItems (q : Chan WorkItem) c : Collector :=
  mkCollector q (CollectedCount c) (DroppedCount c) (SendFailedCount c) (quitClosed c) (loops c) (caller c)
    (sinkCalls c) (returnedItems c) (offered c) (accepted c).
Definition setCaller (p : CollectPc) c : Collector :=
  mkCollector (workItems c) (CollectedCount c) (DroppedCount c) (SendFailedCount c) (quitClosed c)
    (loops c) p (sinkCalls c) (returnedItems c) (offered c) (accepted c).
Definition offer w c : Collector :=
  mkCollector (workItems c) (CollectedCount c) (DroppedCount c) (SendFailedCount c) (quitClosed c)
    (loops c) (caller c) (sinkCalls c) (returnedItems c) (offered c ++ [w]) (accepted c).
Definition enqueue w (q : Chan WorkItem) c : Collector :=
  mkCollector q (CollectedCount c) (DroppedCount c) (SendFailedCount c) (quitClosed c) (loops c) (caller c)
    (sinkCalls c) (returnedItems c) (offered c) (accepted c ++ [w]).
Definition poolReturn w c : Collector :=
  mkCollector (workItems c) (CollectedCount c) (DroppedCount c) (SendFailedCount c) (quitClosed c)
    (loops c) (caller c) (sinkCalls c) (returnedItems c ++ [ReturnItem w]) (offered c) (accepted c).
Definition callSink (x : Metrics) c : Collector :=
  mkCollector (workItems c) (CollectedCount c) (DroppedCount c) (SendFailedCount c) (quitClosed c)
    (loops c) (caller c) (sinkCalls c ++ [x]) (returnedItems c) (offered c) (accepted c).
Definition addCounts (collected dropped failed : Z) c : Collector :=
  mkCollector (workItems c) (CollectedCount c +64 collected) (DroppedCount c +64 dropped)
    (SendFailedCount c +64 failed) (quitClosed c) (loops c) (caller c) (sinkCalls c) (returnedItems c)
    (offered c) (accepted c).

(** What [sendToMetricsSink] fills in before the call. *)
Definition sinkMetrics w : Metrics :=
  let x := wiMetrics w in
  let t := Z.lor (Traits x) (Z.land (msgTraits (wiMessage w)) FrameworkReserved) in
  mkMetrics (AddCustomTraits t (msgTraits (wiMessage w))) (QueueDepth x)
    (Partition (wiMessage w)) (Offset (wiMessage w)) (ProcessDuration x) (WriteDeadLetterDuration x)
    (ReadTime x) (ProcessStartTime x) (WatermarkAdvanceTime x) (WorkerPool w).

(** The next action inside [sendToMetricsSink]: the call, its end with the count, the
    deferred return to the pool, and the count of a recovered panic. *)
Definition sendToMetricsSink (g : Z) pc (outcome : SinkOutcome) c : option Collector :=
  match pc with
  | Taken quit w =>
      let w := setMetrics (fun _ => sinkMetrics w) w in
      Some (setLoop g (InSink quit w) (callSink (wiMetrics w) c))
  | InSink quit w =>
      Some (match outcome with
            | SinkOk => setLoop g (Deferred quit w false) (addCounts 1 0 0 c)
            | SinkError => setLoop g (Deferred quit w false) (addCounts 0 0 1 c)
            | SinkPanic => setLoop g (Deferred quit w true) c
            end)
  | Deferred quit w panicked =>
      Some (setLoop g (if panicked then Recovered quit else Checking quit) (poolReturn w c))
  | Recovered quit => Some (setLoop g (Checking quit) (addCounts 0 0 1 c))
  | _ => None
  end.

(** The next action of a goroutine of [startCollectLoop]; [None] while it is parked or
    gone.  With both cases ready the [select] picks either: [preferQuit]. *)
Definition loopAction (g : Z) pc (preferQuit : bool) (outcome : SinkOutcome) c : option Collector :=
  match pc with
  | Selecting quit =>
      if quitClosed c && (preferQuit || (chLen (workItems c) =? 0)) then
        Some (setLoop g (if chLen (workItems c) =? 0 then LoopReturned else Selecting true) c)
      else
        '(w, q) ← tryRecv (workItems c); Some (setLoop g (Taken quit w) (setItems q c))
  | Checking quit =>
      Some (setLoop g (if quit && (chLen (workItems c) =? 0) then LoopReturned else Selecting quit) c)
  | LoopReturned => None
  | _ => sendToMetricsSink g pc outcome c
  end.

(** [Collect], called with [w]: the first [select]. *)
Definition Collect w c : Collector :=
  match trySend (workItems c) w with
  | Some q => enqueue w q (offer w c)
  | None => setCaller (Yielding w) (offer w c)
  end.

(** Its second [select], and the count after a drop. *)
Definition collectAction (p : CollectPc) c : option Collector :=
  match p with
  | NotCollecting => None
  | Yielding w =>
      Some (match trySend (workItems c) w with
            | Some q => setCaller NotCollecting (enqueue w q c)
            | None => setCaller Dropping (poolReturn w c)
            end)
  | Dropping => Some (setCaller NotCollecting (addCounts 0 1 0 c))
  end.

(** [StartCollectingMetrics], on a goroutine numbered [g] *)
Definition StartCollectingMetrics (g : Z) c : Collector := setLoop g (Selecting false) c.

(** [Stop]: the channel is closed once; [wg.Wait] returns when every loop has. *)
Definition Stop c : Collector :=
  mkCollector (workItems c) (CollectedCount c) (DroppedCount c) (SendFailedCount c) true (loops c) (caller c)
    (sinkCalls c) (returnedItems c) (offered c) (accepted c).

(** [Stats]: the counters, each loaded atomically. *)
Record Stats := mkStats { Collected : Z; Dropped : Z; SendFailed : Z }.

Definition collectorStats c : Stats := mkStats (CollectedCount c) (DroppedCount c) (SendFailedCount c).

Inductive collectorStep c : Collector -> Prop :=
| CollectCall w : caller c = NotCollecting -> collectorStep c (Collect w c)
| CollectActs c' : collectAction (caller c) c = Some c' -> collectorStep c c'
| StartLoop g : loops c !! g = None -> collectorStep c (StartCollectingMetrics g c)
| LoopActs g pc preferQuit outcome c' :
    loops c !! g = Some pc -> loopAction g pc preferQuit outcome c = Some c' -> collectorStep c c'
| StopCall : collectorStep c (Stop c).

Definition recordOf (x : Metrics) : Z * Z := (mxPartition x, mxOffset x).

(** ** What the goroutines hold *)

Definition loopItem pc : list WorkItem :=
  match pc with Taken _ w | InSink _ w | Deferred _ w _ => [w] | _ => [] end.
Definition callerItem (p : CollectPc) : list WorkItem := match p with Yielding w => [w] | _ => [] end.

(** Received, and not given to the sink yet. *)
Definition unsent pc : list WorkItem := match pc with Taken _ w => [w] | _ => [] end.

(** Given to the sink, and not counted yet. *)
Definition uncounted pc : nat :=
  match pc with InSink _ _ | Deferred _ _ true | Recovered _ => 1 | _ => 0 end.

Definition undropped (p : CollectPc) : nat := match p with Dropping => 1 | _ => 0 end.

(** The items in nobody's hands but the collector's. *)
Definition held c : list Z :=
  map ptr (queued (workItems c)) ++ gather (fun pc => map ptr (loopItem pc)) (loops c) ++ map ptr (callerItem (caller c)).

Record collectorInv c : Prop := {
  ci_ptrs : map ptr (offered c) ≡ₚ map ptr (returnedItems c) ++ held c;
  ci_sent : map PartitionOffset (accepted c) ≡ₚ
    map recordOf (sinkCalls c) ++ gather (fun pc => map PartitionOffset (unsent pc)) (loops c) ++
    map PartitionOffset (queued (workItems c));
  ci_none : loops c = ∅ -> sinkCalls c = [] /\ map PartitionOffset (accepted c) = map PartitionOffset (queued (workItems c));
  ci_one : forall g pc, loops c = {[g := pc]} ->
    map PartitionOffset (accepted c) =
      map recordOf (sinkCalls c) ++ map PartitionOffset (unsent pc) ++ map PartitionOffset (queued (workItems c));
  ci_sub : accepted c ++ callerItem (caller c) `sublist_of` offered c;
  ci_sink : CollectedCount c + SendFailedCount c + Z.of_nat (mapSum uncounted (loops c)) = Z.of_nat (length (sinkCalls c));
  ci_drop : DroppedCount c + Z.of_nat (undropped (caller c)) + Z.of_nat (length (callerItem (caller c))) +
    Z.of_nat (length (accepted c)) = Z.of_nat (length (offered c));
  ci_nonneg : 0 <= CollectedCount c /\ 0 <= DroppedCount c /\ 0 <= SendFailedCount c
}.

Definition bounded c : Prop := Z.of_nat (length (offered c)) < 2^63 - 1.

(** The counters are bounded by the number of items offered. *)
Lemma counts_fit c :
  collectorInv c -> bounded c ->
  in_int64 (CollectedCount c + 1) /\ in_int64 (DroppedCount c + 1) /\ in_int64 (SendFailedCount c + 1).
Proof.
  intros [_ Hf _ _ Hs Hk Hd Hn] Hl. unfold bounded in Hl. apply sublist_length in Hs. rewrite length_app in Hs.
  apply Permutation_length in Hf. rewrite !length_app, !length_map in Hf. unfold in_int64. lia.
Qed.

Lemma add_counts c a b d :
  collectorInv c -> bounded c -> 0 <= a <= 1 -> 0 <= b <= 1 -> 0 <= d <= 1 ->
  CollectedCount c +64 a = CollectedCount c + a /\ DroppedCount c +64 b = DroppedCount c + b /\
  SendFailedCount c +64 d = SendFailedCount c + d.
Proof.
  intros HI Hb Ha Hb' Hd. destruct (counts_fit c HI Hb) as (H1 & H2 & H3). pose proof (ci_nonneg c HI).
  rewrite !add64_id by (unfold in_int64 in *; lia). done.
Qed.

(** A goroutine moves on: it may take an item from the channel, give it to the sink,
    or return it. *)
Lemma loop_move c c' g pc pc' :
  collectorInv c -> loops c !! g = Some pc -> loops c' = <[g := pc']> (loops c) ->
  caller c' = caller c -> offered c' = offered c -> accepted c' = accepted c -> DroppedCount c' = DroppedCount c ->
  map ptr (returnedItems c') ++ map ptr (queued (workItems c')) ++ map ptr (loopItem pc') ≡ₚ
    map ptr (returnedItems c) ++ map ptr (queued (workItems c)) ++ map ptr (loopItem pc) ->
  map recordOf (sinkCalls c') ++ map PartitionOffset (unsent pc') ++ map PartitionOffset (queued (workItems c')) =
    map recordOf (sinkCalls c) ++ map PartitionOffset (unsent pc) ++ map PartitionOffset (queued (workItems c)) ->
  CollectedCount c' + SendFailedCount c' + Z.of_nat (uncounted pc') - Z.of_nat (length (sinkCalls c')) =
    CollectedCount c + SendFailedCount c + Z.of_nat (uncounted pc) - Z.of_nat (length (sinkCalls c)) ->
  0 <= CollectedCount c' /\ 0 <= SendFailedCount c' -> collectorInv c'.
Proof.
  intros [H1 H2 H3 H4 H5 H6 H7 H8] Hg EL EC EO EA ED HP HR HN Hnn.
  split; rewrite ?EC, ?EO, ?EA, ?ED; try done.
  - unfold held in *. rewrite H1, EL, EC, gather_insert, (gather_lookup _ _ g pc Hg).
    transitivity ((map ptr (returnedItems c) ++ map ptr (queued (workItems c)) ++ map ptr (loopItem pc)) ++
      gather (fun pc => map ptr (loopItem pc)) (delete g (loops c)) ++ map ptr (callerItem (caller c)));
      [solve_Permutation|]. rewrite <- HP. solve_Permutation.
  - rewrite H2, EL, gather_insert, (gather_lookup _ _ g pc Hg).
    transitivity ((map recordOf (sinkCalls c) ++ map PartitionOffset (unsent pc) ++ map PartitionOffset (queued (workItems c))) ++
      gather (fun pc => map PartitionOffset (unsent pc)) (delete g (loops c))); [solve_Permutation|].
    rewrite <- HR. solve_Permutation.
  - rewrite EL. intros E. by destruct (insert_non_empty (loops c) g pc').
  - rewrite EL. intros g' q E. assert (loops c = {[g := pc]} /\ q = pc') as [Ho ->].
    { assert (Hl : ({[g' := q]} : gmap Z LoopPc) !! g = Some pc') by (rewrite <- E; apply lookup_insert_eq).
      apply lookup_singleton_Some in Hl as [-> ->]. split; [|done]. apply map_eq. intros h.
      pose proof (f_equal (fun m : gmap Z LoopPc => m !! h) E) as Eh. cbn in Eh.
      destruct (decide (g = h)) as [<-|Hne]; [by rewrite lookup_singleton_eq|].
      rewrite lookup_insert_ne, lookup_singleton_ne in Eh by done. by rewrite lookup_singleton_ne by done. }
    rewrite HR. by apply (H4 g).
  - rewrite EL. pose proof (mapSum_update uncounted _ g pc' pc Hg). lia.
  - lia.
Qed.

Lemma loop_inv c g pc pq o c' :
  collectorInv c -> bounded c -> loops c !! g = Some pc -> loopAction g pc pq o c = Some c' -> collectorInv c'.
Proof.
  intros HI Hb Hg Ha. pose proof (ci_nonneg c HI) as Hnn.
  destruct pc as [quit|quit w|quit w|quit w panicked|quit|quit|]; cbn in Ha; try discriminate.
  - destruct (quitClosed c && _).
    + injection Ha as <-. eapply (loop_move c _ g (Selecting quit)); try done; destruct (_ =? 0); try done; cbn; lia.
    + unfold tryRecv in Ha. destruct (queued (workItems c)) as [|w q] eqn:Eq; [done|]. injection Ha as <-.
      eapply (loop_move c _ g (Selecting quit) (Taken quit w)); try done; cbn; try lia; rewrite Eq; [|done].
      cbn. solve_Permutation.
  - injection Ha as <-. eapply (loop_move c _ g (Taken quit w) (InSink quit _)); try done; cbn; try lia.
    + by rewrite map_app, <- app_assoc.
    + rewrite length_app. cbn. lia.
  - destruct (add_counts c 1 0 0 HI Hb) as (E1 & _ & E3); [lia..|].
    destruct (add_counts c 0 0 1 HI Hb) as (F1 & F2 & F3); [lia..|]. injection Ha as <-.
    destruct o; [eapply (loop_move c _ g (InSink quit w) (Deferred quit w false)) |
                 eapply (loop_move c _ g (InSink quit w) (Deferred quit w false)) |
                 eapply (loop_move c _ g (InSink quit w) (Deferred quit w true))]; try done; cbn;
      rewrite ?E1, ?E3, ?F1, ?F2, ?F3; lia.
  - injection Ha as <-. eapply (loop_move c _ g (Deferred quit w panicked)); try done; cbn; destruct panicked; try done; cbn;
      try lia; rewrite map_app; cbn; solve_Permutation.
  - destruct (add_counts c 0 0 1 HI Hb) as (F1 & F2 & F3); [lia..|]. injection Ha as <-.
    eapply (loop_move c _ g (Recovered quit) (Checking quit)); try done; cbn; rewrite ?F1, ?F2, ?F3; lia.
  - injection Ha as <-. eapply (loop_move c _ g (Checking quit)); try done; destruct (_ && _); try done; cbn; lia.
Qed.

(** The caller of [Collect] moves on; the goroutines are not touched. *)
Lemma caller_move c c' ws :
  collectorInv c -> loops c' = loops c -> sinkCalls c' = sinkCalls c ->
  CollectedCount c' = CollectedCount c -> SendFailedCount c' = SendFailedCount c ->
  offered c' = offered c ++ ws ->
  map ptr (returnedItems c') ++ map ptr (queued (workItems c')) ++ map ptr (callerItem (caller c')) ≡ₚ
    (map ptr (returnedItems c) ++ map ptr (queued (workItems c)) ++ map ptr (callerItem (caller c))) ++ map ptr ws ->
  (exists more, accepted c' = accepted c ++ more /\ queued (workItems c') = queued (workItems c) ++ more) ->
  accepted c' ++ callerItem (caller c') `sublist_of` (accepted c ++ callerItem (caller c)) ++ ws ->
  DroppedCount c' + Z.of_nat (undropped (caller c')) + Z.of_nat (length (callerItem (caller c'))) +
    Z.of_nat (length (accepted c')) =
  DroppedCount c + Z.of_nat (undropped (caller c)) + Z.of_nat (length (callerItem (caller c))) +
    Z.of_nat (length (accepted c)) + Z.of_nat (length ws) ->
  0 <= DroppedCount c' -> collectorInv c'.
Proof.
  intros [H1 H2 H3 H4 H5 H6 H7 H8] EL ES EC EF EO HP (more & EA & EQ) HS HD Hnn.
  split; rewrite ?EL, ?ES, ?EC, ?EF, ?EO; try done.
  - unfold held in *. rewrite EL, map_app, H1.
    transitivity (((map ptr (returnedItems c) ++ map ptr (queued (workItems c)) ++ map ptr (callerItem (caller c))) ++ map ptr ws) ++
      gather (fun pc => map ptr (loopItem pc)) (loops c)); [solve_Permutation|]. rewrite <- HP. solve_Permutation.
  - rewrite EA, EQ, !map_app, H2. solve_Permutation.
  - intros E. destruct (H3 E) as [? Ha]. split; [done|]. by rewrite EA, EQ, !map_app, Ha.
  - intros g pc E. by rewrite EA, EQ, !map_app, (H4 g pc E), <- !app_assoc.
  - etrans; [exact HS|]. by apply sublist_app.
  - rewrite length_app. lia.
  - lia.
Qed.

Lemma send_queue (q : Chan WorkItem) w q' : trySend q w = Some q' -> queued q' = queued q ++ [w].
Proof. unfold trySend. destruct (_ <? _); [by intros [= <-] | done]. Qed.

Lemma collect_inv c w : collectorInv c -> caller c = NotCollecting -> collectorInv (Collect w c).
Proof.
  intros HI Ec. pose proof (ci_nonneg c HI) as Hnn. unfold Collect.
  destruct (trySend (workItems c) w) as [q|] eqn:Eq.
  - apply send_queue in Eq. eapply (caller_move c _ [w]); try done; cbn; rewrite ?Ec, ?Eq; cbn; try lia.
    + rewrite map_app. solve_Permutation.
    + by eexists.
    + by rewrite !app_nil_r.
    + rewrite length_app. cbn. lia.
  - eapply (caller_move c _ [w]); try done; cbn; rewrite ?Ec; cbn; try lia.
    + solve_Permutation.
    + exists []. by rewrite !app_nil_r.
    + by rewrite app_nil_r.
Qed.

Lemma action_inv c c' : collectorInv c -> bounded c -> collectAction (caller c) c = Some c' -> collectorInv c'.
Proof.
  intros HI Hb Ha. pose proof (ci_nonneg c HI) as Hnn. destruct (caller c) as [|w|] eqn:Ec; cbn in Ha; [done| |].
  - destruct (trySend (workItems c) w) as [q|] eqn:Eq; injection Ha as <-.
    + apply send_queue in Eq. eapply (caller_move c _ []); try done; cbn; rewrite ?Ec, ?Eq, ?app_nil_r; cbn; try lia; try done.
      * by rewrite map_app.
      * by eexists.
      * rewrite length_app. cbn. lia.
    + eapply (caller_move c _ []); try done; cbn; rewrite ?Ec, ?app_nil_r; cbn; try lia; try done.
      * rewrite map_app. cbn. solve_Permutation.
      * exists []. by rewrite !app_nil_r.
      * by apply sublist_inserts_r.
  - destruct (add_counts c 0 1 0 HI Hb) as (E1 & E2 & E3); [lia..|]. injection Ha as <-.
    eapply (caller_move c _ []); try done; cbn; rewrite ?Ec, ?E1, ?E2, ?E3, ?app_nil_r; cbn; try lia; try done.
    exists []. by rewrite !app_nil_r.
Qed.

Lemma start_inv c g : collectorInv c -> loops c !! g = None -> collectorInv (StartCollectingMetrics g c).
Proof.
  intros [H1 H2 H3 H4 H5 H6 H7 H8] Hg. unfold StartCollectingMetrics. split; cbn; try done.
  - unfold held in *. cbn. by rewrite gather_fresh.
  - by rewrite gather_fresh.
  - intros E. by destruct (insert_non_empty (loops c) g (Selecting false)).
  - intros h pc E. assert (loops c = ∅ /\ pc = Selecting false) as [E0 ->].
    { assert (Hl : ({[h := pc]} : gmap Z LoopPc) !! g = Some (Selecting false)) by (rewrite <- E; apply lookup_insert_eq).
      apply lookup_singleton_Some in Hl as [-> ->]. split; [|done]. apply map_empty. intros k.
      pose proof (f_equal (fun m : gmap Z LoopPc => m !! k) E) as Ek. cbn in Ek.
      destruct (decide (g = k)) as [<-|Hne]; [done|]. by rewrite lookup_insert_ne, lookup_singleton_ne in Ek by done. }
    destruct (H3 E0) as [-> ->]. done.
  - rewrite mapSum_fresh by done. done.
Qed.

Lemma collector_step c c' : collectorStep c c' -> bounded c -> collectorInv c -> collectorInv c'.
Proof.
  intros [w Hc|c1 Ha|g Hg|g pc pq o c1 Hg Ha|] Hb HI.
  - by apply collect_inv.
  - by apply action_inv in Ha.
  - by apply start_inv.
  - by eapply loop_inv.
  - by destruct HI.
Qed.

(** [Collect] is the only one that offers. *)
Lemma step_offers c c' : collectorStep c c' -> bounded c' -> bounded c.
Proof.
  unfold bounded. intros [w Hc|c1 Ha|g Hg|g pc pq o c1 Hg Ha|]; cbn; try done.
  - unfold Collect. destruct (trySend _ _); cbn; rewrite length_app; cbn; lia.
  - destruct (caller c); cbn in Ha; try done; [destruct (trySend _ _)|]; by injection Ha as <-.
  - destruct pc; cbn in Ha; try done; try (injection Ha as <-; try destruct o; done).
    destruct (_ && _); [by injection Ha as <-|]. destruct (tryRecv _) as [[w q]|]; [|done]. by injection Ha as <-.
Qed.

Lemma collector_reachable bufferSize c :
  rtc collectorStep (NewCollector bufferSize) c -> bounded c -> collectorInv c.
Proof.
  intros Hr. revert c Hr. apply (rtc_ind_r (fun c => bounded c -> collectorInv c)).
  - intros _. split; cbn; try done.
  - intros c1 c2 _ Hs IH Hb. pose proof (step_offers c1 c2 Hs Hb). by eapply collector_step; [|done|apply IH].
Qed.

(** The field that recycling leaves behind never reaches the sink. *)
Lemma sink_ignores_pool n w : sinkMetrics (withPool n w) = sinkMetrics w.
Proof. done. Qed.

(** ** Properties *)

(** C32: the collector's account, at every moment of every interleaving of [Collect]
    calls, of any number of collect loops, of sink calls that take any time, fail or
    panic, and of [Stop].  Every work item offered is, exactly once, back in the pool,
    queued, with a loop, or with the caller of [Collect]; the sink was given every
    accepted item that has left the channel, once, except the ones loops are about to
    give it; with one loop, in the order they were offered; and the counters of [Stats]
    add up to the items offered less those queued, not yet given to the sink or not yet
    counted.  When no call is under way and no loop holds an item, the three counters
    and the queue are exactly the items offered. *)
Theorem collector_accounts bufferSize c :
  rtc collectorStep (NewCollector bufferSize) c -> bounded c ->
  let stats := collectorStats c in
  map ptr (offered c) ≡ₚ map ptr (returnedItems c) ++ held c /\
  accepted c `sublist_of` offered c /\
  map PartitionOffset (accepted c) ≡ₚ
    map recordOf (sinkCalls c) ++ gather (fun pc => map PartitionOffset (unsent pc)) (loops c) ++
    map PartitionOffset (queued (workItems c)) /\
  (forall g pc, loops c = {[g := pc]} ->
     map PartitionOffset (accepted c) =
       map recordOf (sinkCalls c) ++ map PartitionOffset (unsent pc) ++ map PartitionOffset (queued (workItems c))) /\
  Collected stats + Dropped stats + SendFailed stats + chLen (workItems c) <= Z.of_nat (length (offered c)) /\
  (caller c = NotCollecting ->
   (forall g pc, loops c !! g = Some pc -> loopItem pc = [] /\ uncounted pc = 0%nat) ->
   Collected stats + Dropped stats + SendFailed stats + chLen (workItems c) = Z.of_nat (length (offered c))).
Proof.
  intros Hr Hb. destruct (collector_reachable bufferSize c Hr Hb) as [H1 H2 _ H4 H5 H6 H7 _]. cbn.
  pose proof (Permutation_length H2) as HL. rewrite !length_app, !length_map in HL. split_and!; try done.
  - etrans; [|exact H5]. by apply sublist_inserts_r.
  - unfold chLen. lia.
  - intros Hc Hl. rewrite Hc in H7. cbn in H7.
    rewrite (mapSum_none uncounted) in H6 by (intros g pc Hg; by apply (Hl g)).
    assert (E : gather (fun pc => map PartitionOffset (unsent pc)) (loops c) = []).
    { apply gather_nil. intros g pc Hg. destruct (Hl g pc Hg) as [Hi _]. by destruct pc. }
    rewrite E in HL. unfold chLen. cbn in HL. lia.
Qed.

End Collector.

(** A loop is in its sink call with the second item when the third is dropped. *)
Definition collectorTurn (c : Collector) : Collector :=
  match loops c !! 1 with Some pc => default c (loopAction 1 pc false SinkPanic c) | None => c end.
Definition cr1 : Collector := Collect (NewWorkItem 10) (StartCollectingMetrics 1 (NewCollector 1)).
Definition cr2 : Collector := Nat.iter 6 collectorTurn cr1.
Definition cr3 : Collector := Collect (NewWorkItem 20) cr2.
Definition cr4 : Collector := Nat.iter 2 collectorTurn cr3.
Definition cr5 : Collector := Collect (NewWorkItem 40) (Collect (NewWorkItem 30) cr4).
Definition cr6 : Collector := default cr5 (collectAction (caller cr5) cr5).
Definition collectorRun : Collector := default cr6 (collectAction (caller cr6) cr6).

Lemma turn_step c : rtc collectorStep c (collectorTurn c).
Proof.
  unfold collectorTurn. destruct (loops c !! 1) as [pc|] eqn:Hl; [|apply rtc_refl].
  destruct (loopAction 1 pc false SinkPanic c) as [c'|] eqn:Ha; [|apply rtc_refl].
  apply rtc_once. by eapply LoopActs.
Qed.

Lemma turn_steps c n : rtc collectorStep c (Nat.iter n collectorTurn c).
Proof. induction n as [|n IH]; [apply rtc_refl|]. etransitivity; [exact IH | apply turn_step]. Qed.

Lemma collectorRun_reachable : rtc collectorStep (NewCollector 1) collectorRun.
Proof.
  eapply rtc_l; [apply (StartLoop _ 1); reflexivity|].
  apply (rtc_l _ _ cr1); [apply (CollectCall (StartCollectingMetrics 1 (NewCollector 1))); reflexivity|].
  transitivity cr2; [exact (turn_steps cr1 6)|].
  apply (rtc_l _ _ cr3); [apply (CollectCall cr2); vm_compute; reflexivity|].
  transitivity cr4; [exact (turn_steps cr3 2)|].
  apply (rtc_l _ _ (Collect (NewWorkItem 30) cr4)); [apply (CollectCall cr4); vm_compute; reflexivity|].
  apply (rtc_l _ _ cr5); [apply (CollectCall (Collect (NewWorkItem 30) cr4)); vm_compute; reflexivity|].
  apply (rtc_l _ _ cr6); [apply CollectActs; vm_compute; reflexivity|].
  apply rtc_once, CollectActs. vm_compute. reflexivity.
Qed.

Lemma collector_accounts_witness :
  collectorStats collectorRun = mkStats 0 1 1 /\ map ptr (queued (workItems collectorRun)) = [30] /\
  map recordOf (sinkCalls collectorRun) = [(0, 0); (0, 0)] /\
  map ptr (offered collectorRun) ≡ₚ map ptr (returnedItems collectorRun) ++ held collectorRun.
Proof.
  split; [vm_compute; reflexivity|]. split; [vm_compute; reflexivity|]. split; [vm_compute; reflexivity|].
  exact (proj1 (collector_accounts 1 collectorRun collectorRun_reachable ltac:(vm_compute; reflexivity))).
Defined.
