(* ===== verification/Bandwidth.v ===== *)
(** * The bandwidth aggregator ([demux/bandwidth/aggregator.go])

    Adapters call [Receive] from any goroutine; the timer goroutines that [Start]
    spawns, a receiver that fills the buffer, and [Stop] flush.  A flush takes the
    buffer under the mutex and then delivers its packets one by one outside it, so
    several flushes may be in progress at once.  [Stop] closes [quit], waits for the
    timer goroutines and flushes what is left. *)
From S2P Require Import Prelude.
From stdpp Require Import base gmap list relations.
Open Scope Z_scope.
Open Scope go_scope.

Section Bandwidth.
Context {Packet Service : Type}.
Variable stampService : Service -> Packet -> Packet.   (* [packet.Service = a.service] *)

Definition defaultFlushInterval : Z := 60 * second.
Definition defaultMaxBuffer : Z := 50.

(** Where a goroutine that uses the aggregator stands. *)
Inductive GoPc :=
| LoopWaiting                                 (* the [select] of [flushLoop] *)
| LoopFlushing
| MustFlush                                   (* in [Receive], the buffer was full *)
| ReceiveFlushing
| StopWaiting                                 (* [a.wg.Wait()] *)
| StopFlushing
| StopReturned.

(** [flushes]: the packets each flush in progress has still to deliver;
    [sunk]: the packets the sink was called with, and whether it accepted them;
    [warnings]: how often the missing service was logged. *)
Record Aggregator := mkAggregator {
  service : option Service;
  flushInterval : Z;
  buffer : list Packet;
  maxBuffer : Z;
  quit : bool;                                (* closed *)
  warned : bool;                              (* [warnOnce] was done *)
  warnings : nat;
  flushedCount : Z;
  droppedCount : Z;
  goroutines : gmap Z GoPc;
  flushes : gmap Z (list Packet);
  sunk : list (Packet * bool);
  received : list Packet
}.

Definition setService (svc : option Service) (a : Aggregator) : Aggregator :=
  mkAggregator svc (flushInterval a) (buffer a) (maxBuffer a) (quit a) (warned a) (warnings a)
    (flushedCount a) (droppedCount a) (goroutines a) (flushes a) (sunk a) (received a).
Definition setFlushInterval (d : Z) (a : Aggregator) : Aggregator :=
  mkAggregator (service a) d (buffer a) (maxBuffer a) (quit a) (warned a) (warnings a)
    (flushedCount a) (droppedCount a) (goroutines a) (flushes a) (sunk a) (received a).
Definition setGo (g : Z) (pc : GoPc) (a : Aggregator) : Aggregator :=
  mkAggregator (service a) (flushInterval a) (buffer a) (maxBuffer a) (quit a) (warned a) (warnings a)
    (flushedCount a) (droppedCount a) (<[g := pc]> (goroutines a)) (flushes a) (sunk a) (received a).
Definition endGo (g : Z) (a : Aggregator) : Aggregator :=
  mkAggregator (service a) (flushInterval a) (buffer a) (maxBuffer a) (quit a) (warned a) (warnings a)
    (flushedCount a) (droppedCount a) (delete g (goroutines a)) (flushes a) (sunk a) (received a).
Definition closeQuit (a : Aggregator) : Aggregator :=
  mkAggregator (service a) (flushInterval a) (buffer a) (maxBuffer a) true (warned a) (warnings a)
    (flushedCount a) (droppedCount a) (goroutines a) (flushes a) (sunk a) (received a).

(** The functional options. *)
Inductive AggregatorOption := WithFlushInterval (d : Z) | WithService (svc : option Service).

Definition applyOption (a : Aggregator) (opt : AggregatorOption) : Aggregator :=
  match opt with
  | WithFlushInterval d => if d >? 0 then setFlushInterval d a else a
  | WithService svc => setService svc a
  end.

Definition NewAggregator (opts : list AggregatorOption) : Aggregator :=
  foldl applyOption
    (mkAggregator None defaultFlushInterval [] defaultMaxBuffer false false 0 0 0 ∅ ∅ [] []) opts.

(** The critical section of [Receive]: the aggregator, and [shouldFlush]. *)
Definition receive (packet : Packet) (a : Aggregator) : Aggregator * bool :=
  let packet := match service a with Some s => stampService s packet | None => packet end in
  let b := buffer a ++ [packet] in
  (mkAggregator (service a) (flushInterval a) b (maxBuffer a) (quit a) (warned a) (warnings a)
     (flushedCount a) (droppedCount a) (goroutines a) (flushes a) (sunk a) (received a ++ [packet]),
   Z.of_nat (length b) >=? maxBuffer a).

(** The critical section of [flush], by the goroutine [g], and its warning. *)
Definition takeBuffer (g : Z) (a : Aggregator) : Aggregator :=
  match buffer a with
  | [] => a
  | packets =>
      let warn := bool_decide (service a = None) && negb (warned a) in
      mkAggregator (service a) (flushInterval a) [] (maxBuffer a) (quit a) (warned a || warn)
        (if warn then S (warnings a) else warnings a) (flushedCount a) (droppedCount a) (goroutines a)
        (<[g := packets]> (flushes a)) (sunk a) (received a)
  end.

(** One iteration of its delivery loop; [ok]: the sink returned no error. *)
Definition deliver (g : Z) (ok : bool) (a : Aggregator) : option Aggregator :=
  match flushes a !! g with
  | Some (p :: rest) =>
      Some (mkAggregator (service a) (flushInterval a) (buffer a) (maxBuffer a) (quit a) (warned a)
              (warnings a) (if ok then flushedCount a +64 1 else flushedCount a)
              (if ok then droppedCount a else droppedCount a +64 1) (goroutines a)
              (match rest with [] => delete g (flushes a) | _ => <[g := rest]> (flushes a) end)
              (sunk a ++ [(p, ok)]) (received a))
  | _ => None
  end.

(** [Stats] *)
Definition Stats (a : Aggregator) : Z * Z := (flushedCount a, droppedCount a).

(** [wg.Wait()] passes: every goroutine that [Start] spawned has returned. *)
Definition isLoop (pc : GoPc) : bool := match pc with LoopWaiting | LoopFlushing => true | _ => false end.
Definition loopsDone (a : Aggregator) : Prop := map_Forall (fun _ pc => isLoop pc = false) (goroutines a).

(** One action.  [Start]; the [select] of [flushLoop] and its flush; [Receive] and
    its flush; [Stop]; a delivery. *)
Inductive aggregatorStep (a : Aggregator) : Aggregator -> Prop :=
| StartStep g : goroutines a !! g = None -> aggregatorStep a (setGo g LoopWaiting a)
| TickStep g :
    goroutines a !! g = Some LoopWaiting ->
    aggregatorStep a (setGo g LoopFlushing (takeBuffer g a))
| LoopStep g :
    goroutines a !! g = Some LoopFlushing -> flushes a !! g = None ->
    aggregatorStep a (setGo g LoopWaiting a)
| QuitStep g :
    goroutines a !! g = Some LoopWaiting -> quit a = true -> aggregatorStep a (endGo g a)
| ReceiveStep g p a' full :
    goroutines a !! g = None -> receive p a = (a', full) ->
    aggregatorStep a (if full then setGo g MustFlush a' else a')
| ReceiveFlush g :
    goroutines a !! g = Some MustFlush ->
    aggregatorStep a (setGo g ReceiveFlushing (takeBuffer g a))
| ReceiveEnd g :
    goroutines a !! g = Some ReceiveFlushing -> flushes a !! g = None -> aggregatorStep a (endGo g a)
| StopStep g :
    goroutines a !! g = None -> aggregatorStep a (setGo g StopWaiting (closeQuit a))
| StopFlush g :
    goroutines a !! g = Some StopWaiting -> loopsDone a ->
    aggregatorStep a (setGo g StopFlushing (takeBuffer g a))
| StopEnd g :
    goroutines a !! g = Some StopFlushing -> flushes a !! g = None ->
    aggregatorStep a (setGo g StopReturned a)
| DeliverStep g ok a' : deliver g ok a = Some a' -> aggregatorStep a a'.

(** A flush that runs with no other goroutine interleaved. *)
Fixpoint deliverAll (n : nat) (g : Z) (sink : Packet -> bool) (a : Aggregator) : Aggregator :=
  match n with
  | O => a
  | S n' =>
      match flushes a !! g with
      | Some (p :: _) => deliverAll n' g sink (default a (deliver g (sink p) a))
      | _ => a
      end
  end.

Definition flush (g : Z) (sink : Packet -> bool) (a : Aggregator) : Aggregator :=
  deliverAll (length (buffer a)) g sink (takeBuffer g a).

(** [Receive] with no other goroutine interleaved. *)
Definition Receive (g : Z) (sink : Packet -> bool) (p : Packet) (a : Aggregator) : Aggregator :=
  let '(a', shouldFlush) := receive p a in if shouldFlush then flush g sink a' else a'.

(** ** Invariant *)

Definition pending (a : Aggregator) : list Packet := concat (map snd (map_to_list (flushes a))).

Record aggInv (a : Aggregator) : Prop := {
  ag_perm : received a ≡ₚ map fst (sunk a) ++ pending a ++ buffer a;
  ag_flushed : Z.of_nat (length (received a)) < 2^63 ->
    flushedCount a = Z.of_nat (length (filter (fun x => x.2 = true) (sunk a))) /\
    droppedCount a = Z.of_nat (length (filter (fun x => x.2 = false) (sunk a)));
  ag_nonempty : forall g l, flushes a !! g = Some l -> l <> []
}.

Lemma pending_insert a g l :
  flushes a !! g = None -> concat (map snd (map_to_list (<[g := l]> (flushes a)))) ≡ₚ l ++ pending a.
Proof. intros Hg. rewrite map_to_list_insert by done. done. Qed.

Lemma pending_delete a g l :
  flushes a !! g = Some l -> pending a ≡ₚ l ++ concat (map snd (map_to_list (delete g (flushes a)))).
Proof. intros Hg. unfold pending. by rewrite <- (map_to_list_delete _ _ _ Hg). Qed.

Lemma sunk_le a : aggInv a -> (length (sunk a) <= length (received a))%nat.
Proof. intros [H _ _]. apply Permutation_length in H. rewrite !length_app, length_map in H. lia. Qed.

Lemma filter_snoc {A} (P : A -> Prop) `{!forall x, Decision (P x)} l x :
  length (filter P (l ++ [x])) = (length (filter P l) + if decide (P x) then 1 else 0)%nat.
Proof. rewrite filter_app, length_app, filter_cons, filter_nil. by case_decide. Qed.

Lemma deliver_inv a g ok a' : deliver g ok a = Some a' -> aggInv a -> aggInv a'.
Proof.
  unfold deliver. destruct (flushes a !! g) as [[|p rest]|] eqn:Eg; [done| |done]. intros [= <-] HI.
  pose proof (sunk_le a HI) as Hle. destruct HI as [Hp Hc Hn].
  assert (Hpend : pending a ≡ₚ p :: concat (map snd (map_to_list
             (match rest with [] => delete g (flushes a) | _ => <[g := rest]> (flushes a) end)))).
  { rewrite (pending_delete a g _ Eg). simpl. destruct rest as [|q rest]; [done|].
    f_equiv. rewrite <- (insert_delete_eq (flushes a)).
    by rewrite (map_to_list_insert _ _ _ (lookup_delete_eq (flushes a) g)). }
  split; simpl.
  - etrans; [exact Hp|]. rewrite map_app, Hpend. unfold pending. simpl. solve_Permutation.
  - intros Hlen. destruct (Hc Hlen) as [Hf Hd]. rewrite !filter_snoc. simpl.
    assert (Hbound : forall (P : Packet * bool -> Prop) `{!forall x, Decision (P x)},
              (length (filter P (sunk a)) <= length (sunk a))%nat) by (intros; apply length_filter).
    pose proof (Hbound (fun x => x.2 = true) _) as B1. pose proof (Hbound (fun x => x.2 = false) _) as B2.
    assert (S (length (sunk a)) <= length (received a))%nat.
    { apply Permutation_length in Hp. rewrite Hpend in Hp. rewrite !length_app, length_map in Hp. simpl in Hp. lia. }
    destruct ok; rewrite add64_id by (unfold in_int64; lia); repeat case_decide; try done; lia.
  - intros g' l. destruct rest as [|q rest].
    + rewrite lookup_delete. case_decide; [done|]. apply Hn.
    + rewrite lookup_insert. case_decide; [by intros [= <-] | apply Hn].
Qed.

Lemma take_inv a g : flushes a !! g = None -> aggInv a -> aggInv (takeBuffer g a).
Proof.
  intros Hg HI. unfold takeBuffer. destruct (buffer a) as [|p b] eqn:Eb; [done|]. destruct HI as [Hp Hc Hn].
  split; simpl; [|done|].
  - etrans; [exact Hp|]. rewrite Eb. unfold pending at 2. simpl. rewrite pending_insert by done. solve_Permutation.
  - intros g' l. rewrite lookup_insert. case_decide; [by intros [= <-] | apply Hn].
Qed.

Lemma receive_inv a p : aggInv a -> aggInv (receive p a).1.
Proof.
  intros [Hp Hc Hn]. split; simpl; [|intros Hl|done].
  - unfold pending in *. simpl. rewrite Hp at 1. solve_Permutation.
  - apply Hc. rewrite length_app in Hl. lia.
Qed.

(** The goroutines' places do not matter to the accounts. *)
Lemma aggInv_go a g pc : aggInv a -> aggInv (setGo g pc a) /\ aggInv (endGo g a) /\ aggInv (closeQuit a).
Proof. by intros [? ? ?]. Qed.

(** A flush belongs to a goroutine that is flushing. *)
Definition isFlushing (pc : GoPc) : bool :=
  match pc with LoopFlushing | ReceiveFlushing | StopFlushing => true | _ => false end.

Definition flusherInv (a : Aggregator) : Prop :=
  forall g, is_Some (flushes a !! g) -> exists pc, goroutines a !! g = Some pc /\ isFlushing pc = true.

Lemma flusher_idle a g : flusherInv a ->
  (forall pc, goroutines a !! g = Some pc -> isFlushing pc = false) -> flushes a !! g = None.
Proof.
  intros HF Hg. apply eq_None_not_Some. intros (pc & Hpc & Hf)%HF. by rewrite (Hg pc Hpc) in Hf.
Qed.

Lemma takeBuffer_fields g a :
  goroutines (takeBuffer g a) = goroutines a /\ received (takeBuffer g a) = received a /\
  buffer (takeBuffer g a) = [] /\
  forall g', g' <> g -> flushes (takeBuffer g a) !! g' = flushes a !! g'.
Proof.
  unfold takeBuffer. destruct (buffer a) eqn:Eb; [done|]. split_and!; try done.
  intros g' Hg. simpl. by rewrite lookup_insert_ne.
Qed.

Lemma deliver_fields g ok a a' :
  deliver g ok a = Some a' ->
  goroutines a' = goroutines a /\ received a' = received a /\ buffer a' = buffer a /\
  forall g', is_Some (flushes a' !! g') -> is_Some (flushes a !! g').
Proof.
  unfold deliver. destruct (flushes a !! g) as [[|p rest]|] eqn:Eg; [done| |done]. intros [= <-].
  split_and!; try done. intros g'. simpl. destruct (decide (g' = g)) as [-> | Hne]; [by rewrite Eg|].
  destruct rest; [rewrite lookup_delete_ne by done | rewrite lookup_insert_ne by done]; done.
Qed.

Lemma flusher_take a g pc : flusherInv a -> isFlushing pc = true -> flusherInv (setGo g pc (takeBuffer g a)).
Proof.
  intros HF Hpc g' Hg'. pose proof (takeBuffer_fields g a) as (Hgo & _ & _ & Hfl).
  cbn [goroutines flushes setGo] in *. rewrite Hgo. destruct (decide (g' = g)) as [-> | Hne].
  - rewrite lookup_insert_eq. by exists pc.
  - rewrite lookup_insert_ne by done. apply HF. by rewrite <- Hfl.
Qed.

(** A goroutine that is not flushing may move on or leave. *)
Lemma flusher_move a g pc : flusherInv a -> flushes a !! g = None ->
  flusherInv (setGo g pc a) /\ flusherInv (endGo g a).
Proof.
  intros HF Hg. split; intros g' Hg'; cbn [goroutines flushes setGo endGo] in *;
    (destruct (decide (g' = g)) as [-> | Hne]; [rewrite Hg in Hg'; by destruct Hg' |]).
  - rewrite lookup_insert_ne by done. by apply HF.
  - rewrite lookup_delete_ne by done. by apply HF.
Qed.

Lemma aggregator_step a a' : aggregatorStep a a' -> aggInv a /\ flusherInv a -> aggInv a' /\ flusherInv a'.
Proof.
  intros Hs [HI HF].
  assert (Hidle : forall g pc, goroutines a !! g = Some pc -> isFlushing pc = false -> flushes a !! g = None).
  { intros g pc Hg Hpc. apply flusher_idle; [done|]. intros pc'. rewrite Hg. by intros [= <-]. }
  assert (Hnew : forall g, goroutines a !! g = None -> flushes a !! g = None).
  { intros g Hg. apply flusher_idle; [done|]. intros pc. by rewrite Hg. }
  destruct Hs as [g Hg|g Hg|g Hg Hf|g Hg Hq|g p a' full Hg Hr|g Hg|g Hg Hf|g Hg|g Hg Hl|g Hg Hf|g ok a' Hd].
  - split; [by apply aggInv_go | by apply flusher_move; auto].
  - split; [apply aggInv_go, take_inv; by eauto | by apply flusher_take].
  - split; [by apply aggInv_go | by apply flusher_move].
  - split; [by apply (aggInv_go a g LoopWaiting) | apply (flusher_move a g LoopWaiting); by eauto].
  - assert (E : a' = (receive p a).1) by (by rewrite Hr). rewrite E.
    pose proof (receive_inv a p HI) as HI'. assert (HF' : flusherInv (receive p a).1) by exact HF.
    destruct full; [|done]. split; [by apply aggInv_go | by apply flusher_move; auto].
  - split; [apply aggInv_go, take_inv; by eauto | by apply flusher_take].
  - split; [by apply (aggInv_go a g LoopWaiting) | by apply (flusher_move a g LoopWaiting)].
  - split; [by apply aggInv_go, (aggInv_go a g StopWaiting) | by apply (flusher_move (closeQuit a)); auto].
  - split; [apply aggInv_go, take_inv; by eauto | by apply flusher_take].
  - split; [by apply aggInv_go | by apply flusher_move].
  - split; [by eapply deliver_inv|]. destruct (deliver_fields g ok a a' Hd) as (Hgo & _ & _ & Hfl).
    intros g' Hg'%Hfl. rewrite Hgo. by apply HF.
Qed.

(** The options touch neither the accounts nor the goroutines. *)
Lemma NewAggregator_empty opts :
  let a := NewAggregator opts in
  received a = [] /\ sunk a = [] /\ flushes a = ∅ /\ buffer a = [] /\ goroutines a = ∅ /\
  flushedCount a = 0 /\ droppedCount a = 0 /\ maxBuffer a = defaultMaxBuffer.
Proof.
  cbv zeta. unfold NewAggregator. induction opts as [|o opts IH] using rev_ind; [done|].
  rewrite foldl_app. cbn [foldl]. destruct o as [d|svc]; cbn [applyOption]; [|done]. by destruct (d >? 0).
Qed.

Lemma aggregator_reachable opts a : rtc aggregatorStep (NewAggregator opts) a -> aggInv a /\ flusherInv a.
Proof.
  apply (rtc_ind_r (fun a => aggInv a /\ flusherInv a)); [|intros a1 a2 _ Hs HI; by eapply aggregator_step].
  destruct (NewAggregator_empty opts) as (Er & Es & Ef & Eb & Eg & Efl & Ed & _). split.
  - split; [unfold pending; by rewrite Er, Es, Ef, Eb, map_to_list_empty | intros _; by rewrite Efl, Ed, Es |].
    intros g l. by rewrite Ef, lookup_empty.
  - intros g. rewrite Ef, lookup_empty. by intros [? ?].
Qed.

(** ** Stopping *)

(** A step after the adapter has stopped: no packet arrives and no call begins. *)
Definition stillStep (a a' : Aggregator) : Prop :=
  aggregatorStep a a' /\ received a' = received a /\ dom (goroutines a') ⊆ dom (goroutines a).

(** The progress of the one call of [Stop], by [g]. *)
Definition stopInv (g : Z) (a : Aggregator) : Prop :=
  flusherInv a /\
  ((goroutines a !! g = Some StopWaiting /\
    forall g' pc, goroutines a !! g' = Some pc -> g' <> g -> isLoop pc = true) \/
   (exists pc, goroutines a = {[g := pc]} /\ (pc = StopFlushing \/ pc = StopReturned) /\ buffer a = [] /\
      (pc = StopReturned -> flushes a = ∅))).

Lemma calm_fresh a a' g pc : stillStep a a' -> goroutines a !! g = None -> goroutines a' !! g = Some pc -> False.
Proof.
  intros (_ & _ & Hdom) Hg Hg'. assert (Hin : g ∈ dom (goroutines a)) by (apply Hdom, elem_of_dom; by eexists).
  apply elem_of_dom in Hin as [? Hin]. congruence.
Qed.

Lemma not_snoc {A} (l : list A) x : l ++ [x] = l -> False.
Proof. intros H%(f_equal length). rewrite length_app in H. simpl in H. lia. Qed.

Lemma calm_receive a g p a' full :
  receive p a = (a', full) -> received (if full then setGo g MustFlush a' else a') = received a -> False.
Proof. unfold receive. intros [= <- <-]. destruct (_ >=? _); apply not_snoc. Qed.

Lemma calm_waiting g a a' :
  stillStep a a' -> goroutines a !! g = Some StopWaiting ->
  (forall g' pc, goroutines a !! g' = Some pc -> g' <> g -> isLoop pc = true) ->
  (goroutines a' !! g = Some StopWaiting /\
   forall g' pc, goroutines a' !! g' = Some pc -> g' <> g -> isLoop pc = true) \/
  (goroutines a' = {[g := StopFlushing]} /\ buffer a' = []).
Proof.
  intros Hc Hg Hloops. pose proof Hc as (Hs & Hrec & _).
  assert (Hmove : forall h pc pc', goroutines a !! h = Some pc -> isLoop pc = true -> isLoop pc' = true ->
    <[h := pc']> (goroutines a) !! g = Some StopWaiting /\
    forall g' q, <[h := pc']> (goroutines a) !! g' = Some q -> g' <> g -> isLoop q = true).
  { intros h pc pc' Hh Hpc Hpc'. assert (h <> g) by (intros ->; rewrite Hg in Hh; by injection Hh as <-).
    split; [by rewrite lookup_insert_ne|]. intros g' q. rewrite lookup_insert. case_decide; [by intros [= <-]|].
    apply Hloops. }
  destruct Hs as [h Hh|h Hh|h Hh Hf|h Hh Hq|h p a' full Hh Hr|h Hh|h Hh Hf|h Hh|h Hh Hl|h Hh Hf|h ok a' Hd].
  - exfalso. apply (calm_fresh _ _ h LoopWaiting Hc Hh). apply lookup_insert_eq.
  - left. cbn [goroutines setGo]. rewrite (proj1 (takeBuffer_fields h a)). by eapply Hmove.
  - left. by eapply Hmove.
  - left. assert (h <> g) by (intros ->; congruence). cbn [goroutines endGo]. rewrite lookup_delete_ne by done.
    split; [done|]. intros g' q [_ Hq']%lookup_delete_Some. by apply Hloops.
  - exfalso. by eapply calm_receive.
  - exfalso. assert (h <> g) by (intros ->; congruence). by specialize (Hloops h _ Hh ltac:(done)).
  - exfalso. assert (h <> g) by (intros ->; congruence). by specialize (Hloops h _ Hh ltac:(done)).
  - exfalso. apply (calm_fresh _ _ h StopWaiting Hc Hh). apply lookup_insert_eq.
  - right. cbn [goroutines setGo buffer]. pose proof (takeBuffer_fields h a) as (-> & _ & Hb & _).
    assert (h = g) as -> by (destruct (decide (h = g)); [done|]; by specialize (Hloops h _ Hh ltac:(done))).
    split; [|done]. apply map_eq. intros x. destruct (decide (x = g)) as [-> | Hx].
    + by rewrite lookup_insert_eq, lookup_singleton_eq.
    + rewrite lookup_insert_ne, lookup_singleton_ne by done. apply eq_None_not_Some. intros [pc Hpc].
      assert (Hl' : isLoop pc = false) by exact (Hl x pc Hpc). by rewrite (Hloops x pc Hpc Hx) in Hl'.
  - exfalso. assert (h <> g) by (intros ->; congruence). by specialize (Hloops h _ Hh ltac:(done)).
  - left. by rewrite (proj1 (deliver_fields h ok a a' Hd)).
Qed.

Lemma calm_flushing g pc a a' :
  flusherInv a -> stillStep a a' -> goroutines a = {[g := pc]} -> pc = StopFlushing \/ pc = StopReturned ->
  buffer a = [] -> (pc = StopReturned -> flushes a = ∅) ->
  exists pc', goroutines a' = {[g := pc']} /\ (pc' = StopFlushing \/ pc' = StopReturned) /\ buffer a' = [] /\
    (pc' = StopReturned -> flushes a' = ∅).
Proof.
  intros HF Hc Hgo Hpc Hb Hfl. pose proof Hc as (Hs & Hrec & _).
  assert (Hat : forall h q, goroutines a !! h = Some q -> h = g /\ q = pc).
  { intros h q. rewrite Hgo. by intros [-> ->]%lookup_singleton_Some. }
  destruct Hs as [h Hh|h Hh|h Hh Hf|h Hh Hq|h p a' full Hh Hr|h Hh|h Hh Hf|h Hh|h Hh Hl|h Hh Hf|h ok a' Hd];
    try (destruct (Hat _ _ Hh) as [_ Hq']; subst pc; destruct Hpc; discriminate).
  - exfalso. apply (calm_fresh _ _ h LoopWaiting Hc Hh). apply lookup_insert_eq.
  - exfalso. by eapply calm_receive.
  - exfalso. apply (calm_fresh _ _ h StopWaiting Hc Hh). apply lookup_insert_eq.
  - destruct (Hat _ _ Hh) as [-> <-]. exists StopReturned. cbn [goroutines setGo buffer flushes].
    split_and!; [by rewrite Hgo, insert_singleton_eq | by right | done |]. intros _. apply map_empty. intros x.
    destruct (decide (x = g)) as [-> | Hx]; [done|]. apply flusher_idle; [done|]. intros q Hq.
    by destruct (Hat _ _ Hq).
  - destruct (deliver_fields h ok a a' Hd) as (-> & _ & -> & _). exists pc. split_and!; try done. intros Hp.
    unfold deliver in Hd. by rewrite (Hfl Hp), lookup_empty in Hd.
Qed.

Lemma calm_stop g a a' : aggInv a -> stillStep a a' -> stopInv g a -> aggInv a' /\ stopInv g a'.
Proof.
  intros HI Hc (HF & Hst). pose proof (aggregator_step a a' (proj1 Hc) (conj HI HF)) as [HI' HF'].
  split; [done|]. split; [done|]. destruct Hst as [[Hg Hl] | (pc & Hgo & Hpc & Hb & Hfl)].
  - destruct (calm_waiting g a a' Hc Hg Hl) as [?|[Hgo Hb]]; [by left|]. right. exists StopFlushing.
    split_and!; [done | by left | done | done].
  - right. by apply (calm_flushing g pc a a').
Qed.

(** ** Properties *)

Lemma sunk_counts a : aggInv a -> Z.of_nat (length (received a)) < 2^63 -> flushes a = ∅ -> buffer a = [] ->
  received a ≡ₚ map fst (sunk a) /\ (Stats a).1 + (Stats a).2 = Z.of_nat (length (received a)).
Proof.
  intros [Hp Hc Hn] Hl Hf Hb. rewrite Hb, app_nil_r in Hp. unfold pending in Hp.
  rewrite Hf, map_to_list_empty in Hp. simpl in Hp. rewrite app_nil_r in Hp. split; [done|].
  unfold Stats. destruct (Hc Hl) as [-> ->]. apply Permutation_length in Hp. rewrite length_map in Hp.
  rewrite Hp. clear. induction (sunk a) as [|[p []] l IH]; [done| |]; rewrite !filter_cons; simpl in *; lia.
Qed.

(** C33: no packet is lost or delivered twice.  In every interleaving of receivers,
    timer goroutines, flushes and calls of [Stop], the packets received are those
    given to the sink, those a flush in progress still holds, and those buffered.
    And [Stop] drains: from a moment at which it waits and only timer goroutines run
    beside it, with no packet arriving any more, when it returns every packet was
    given to the sink exactly once, and the flushed and dropped counts of [Stats]
    add up to them. *)
Theorem packets_accounted opts a :
  rtc aggregatorStep (NewAggregator opts) a -> Z.of_nat (length (received a)) < 2^63 ->
  received a ≡ₚ map fst (sunk a) ++ pending a ++ buffer a /\
  (forall g a', goroutines a !! g = Some StopWaiting ->
     (forall g' pc, goroutines a !! g' = Some pc -> g' <> g -> isLoop pc = true) ->
     rtc stillStep a a' -> goroutines a' !! g = Some StopReturned ->
     received a' = received a /\ received a' ≡ₚ map fst (sunk a') /\
     (Stats a').1 + (Stats a').2 = Z.of_nat (length (received a'))).
Proof.
  intros Hr Hl. destruct (aggregator_reachable opts a Hr) as [HI HF]. split; [apply HI|].
  intros g a' Hg Hloops Hcalm Hret.
  assert (H : (aggInv a' /\ stopInv g a') /\ received a' = received a).
  { revert Hcalm. apply (rtc_ind_r (fun a' => (aggInv a' /\ stopInv g a') /\ received a' = received a)).
    - split; [|done]. split; [done|]. split; [done|]. by left.
    - intros a1 a2 _ Hs [[HI1 Hs1] E]. split; [by apply (calm_stop g a1)|]. by rewrite <- E; apply Hs. }
  destruct H as [[HI' [_ Hst]] E]. split; [done|]. rewrite E in *.
  destruct Hst as [[Hw _] | (pc & Hgo & _ & Hb & Hfl)]; [congruence|].
  rewrite Hgo, lookup_singleton_eq in Hret. injection Hret as ->.
  rewrite <- E. apply sunk_counts; auto. by rewrite E.
Qed.

End Bandwidth.

(** Two packets, then a timer goroutine quits and [Stop] flushes them; the sink
    refuses the second. *)
Definition agg0 : @Aggregator Z Z := NewAggregator [WithFlushInterval 5; WithService (Some 7)].
Definition stampZ (s p : Z) : Z := s + p.
Definition agg1 : @Aggregator Z Z := setGo 0 LoopWaiting agg0.
Definition agg2 : @Aggregator Z Z := (receive stampZ 20 (receive stampZ 10 agg1).1).1.
Definition agg3 : @Aggregator Z Z := setGo 1 StopWaiting (closeQuit agg2).
Definition agg4 : @Aggregator Z Z := setGo 1 StopFlushing (takeBuffer 1 (endGo 0 agg3)).
Definition sinkTurn (a : @Aggregator Z Z) (ok : bool) : @Aggregator Z Z := default a (deliver 1 ok a).
Definition agg4a : @Aggregator Z Z := sinkTurn agg4 true.
Definition agg4b : @Aggregator Z Z := sinkTurn agg4a false.
Definition agg5 : @Aggregator Z Z := setGo 1 StopReturned agg4b.

Lemma agg3_reachable : rtc (aggregatorStep stampZ) agg0 agg3.
Proof.
  eapply rtc_l; [apply (StartStep _ _ 0); reflexivity|].
  eapply rtc_l; [eapply (ReceiveStep _ _ 2 10); reflexivity|].
  eapply rtc_l; [eapply (ReceiveStep _ _ 2 20); reflexivity|].
  eapply rtc_l; [apply (StopStep _ _ 1); reflexivity|]. apply rtc_refl.
Qed.

Ltac calm next tac :=
  apply (rtc_l _ _ next); [split; [tac | split; [reflexivity | apply (bool_decide_unpack _); vm_compute; exact I]]|].

Lemma agg5_calm : rtc (stillStep stampZ) agg3 agg5.
Proof.
  calm (endGo 0 agg3) ltac:(apply QuitStep; reflexivity).
  calm agg4 ltac:(apply StopFlush; [reflexivity | apply (bool_decide_unpack _); vm_compute; exact I]).
  calm agg4a ltac:(apply (DeliverStep _ _ 1 true); reflexivity).
  calm agg4b ltac:(apply (DeliverStep _ _ 1 false); reflexivity).
  calm agg5 ltac:(apply StopEnd; reflexivity). apply rtc_refl.
Qed.

Lemma packets_accounted_witness :
  Stats agg5 = (1, 1) /\ flushInterval agg5 = 5 /\ received agg5 ≡ₚ map fst (sunk agg5).
Proof.
  split; [reflexivity|]. split; [reflexivity|].
  destruct (packets_accounted stampZ [WithFlushInterval 5; WithService (Some 7)] agg3 agg3_reachable
              ltac:(vm_compute; reflexivity)) as [_ H].
  apply (H 1 agg5 eq_refl); [|exact agg5_calm | reflexivity].
  intros g' pc Hg Hne. change (goroutines agg3) with ({[1 := StopWaiting; 0 := LoopWaiting]} : gmap Z GoPc) in Hg.
  rewrite lookup_insert_ne in Hg by done. apply lookup_singleton_Some in Hg as [_ <-]. reflexivity.
Defined.
