(* ===== verification/Exit.v ===== *)
(** * The consumer's end ([demux_consumer_shutdown.go], [demux_consumer_emergency.go])

    A consumer ends by [Shutdown], which any number of goroutines may call, or by a
    trip of the breaker, which the observer goroutine [watchEmergency] sees.  Both
    deliver the shutdown callback, and elect who does by a channel of capacity one.
    The breaker is the one of [CircuitBreaker], with its concurrent calls;
    [Shutdown] waits for the goroutine of [subscription.Unsubscribe], whose drain may
    fail and trip the breaker, or gives up after the drain timeout and trips it
    itself.  A step is one atomic action of one goroutine. *)
From S2P Require Import Prelude CircuitBreaker.
From stdpp Require Import base gmap list relations.
Open Scope Z_scope.

Section Exit.
Context {Callback Err : Type}.
Variable unspecified : Err.
Variable drainTimeout : Err.      (* [unsubscribeDrainTimeout] *)
Variable hasBandwidth : bool.     (* a bandwidth aggregator is configured *)

(** What is released on the way out. *)
Inductive Release := RateLimit | Broker | Bandwidth | MetricsCollector.

(** Where a goroutine stands: the observer, a call of [Shutdown], or the goroutine
    that [subscription.Unsubscribe] starts for it. *)
Inductive ExitPc :=
| Watching                                    (* the [select] of [watchEmergency] *)
| Emergency (msg : Err)                       (* [emergencyExit]: about to stop the limiter *)
| EmergencyLimited (msg : Err)                (* about to store the reason *)
| ReasonStored (msg : Err)                    (* about to load the callback *)
| ShutdownCalled                              (* about to stop the limiter *)
| ShutdownLimited                             (* about to load the callback *)
| Unsubscribing (cb : Callback)               (* about to call [subscription.Unsubscribe] *)
| AwaitUnsubscribed (cb : Callback) (u : Z)   (* its channel, or the drain timeout *)
| Expired                                     (* timed out: about to trip the breaker *)
| ExpiredTripping (i : Z)                     (* inside the call [i] of the breaker *)
| Failed                                      (* [Shutdown] returned an error *)
| StoppingBandwidth (cb : Callback)
| StoppingMetrics (cb : Callback)
| Claiming (cb : Callback) (msg : option Err) (* about to [claimNotify] *)
| Won (cb : Callback) (msg : option Err)      (* claimed: about to call the callback *)
| Signalling                                  (* about to [signalGracefulDone] *)
| Finished
| UnsubDraining                               (* stops polling, then [Drain] *)
| UnsubFailed (e : Err)                       (* the drain failed: about to trip the breaker *)
| UnsubTripping (i : Z)
| UnsubLeaving                                (* about to unsubscribe from the broker *)
| UnsubSent.                                  (* the result is in the channel *)

(** The calls a goroutine waits in that are not bounded by the consumer: the rate
    limiter's [Stop], the drain of the engine, the adapter's unsubscription, the wait
    for the aggregator's goroutine with its final flush, and the wait for the
    collector's goroutines.  The last two are inside a sink of the host. *)
Inductive Foreign := LimiterStop | EngineDrain | LeaveBroker | BandwidthSinks | MetricsSinks.

Record Consumer := mkConsumer {
  shutdownCallback : option Callback;
  emergencyReason : option Err;
  notify : bool;                              (* the slot is filled *)
  gracefulDone : bool;                        (* a token is in the channel *)
  circuitBreaker : @BreakerState Err;
  released : list Release;
  goroutines : gmap Z ExitPc;
  notified : list (Callback * option Err);    (* calls of the shutdown callback *)
  busy : Foreign -> bool                      (* a goroutine is inside such a call *)
}.

(** The consumer [Build] returns, with the builder's callback if it has one: the
    observer is goroutine 0. *)
Definition Build (cb : option Callback) (breaker : CircuitBreaker) : Consumer :=
  mkConsumer cb None false false (mkBreakerState breaker ∅ []) [] {[0 := Watching]} []
    (fun _ => false).

Implicit Types (c : Consumer) (pc : ExitPc).

Definition setGoroutine (g : Z) pc c : Consumer :=
  mkConsumer (shutdownCallback c) (emergencyReason c) (notify c) (gracefulDone c) (circuitBreaker c)
    (released c) (<[g := pc]> (goroutines c)) (notified c) (busy c).
Definition setCallback (cb : Callback) c : Consumer :=
  mkConsumer (Some cb) (emergencyReason c) (notify c) (gracefulDone c) (circuitBreaker c) (released c)
    (goroutines c) (notified c) (busy c).
Definition storeReason (msg : Err) c : Consumer :=
  mkConsumer (shutdownCallback c) (Some msg) (notify c) (gracefulDone c) (circuitBreaker c) (released c)
    (goroutines c) (notified c) (busy c).
Definition setBreaker (b : BreakerState) c : Consumer :=
  mkConsumer (shutdownCallback c) (emergencyReason c) (notify c) (gracefulDone c) b (released c)
    (goroutines c) (notified c) (busy c).
Definition setGraceful (b : bool) c : Consumer :=
  mkConsumer (shutdownCallback c) (emergencyReason c) (notify c) b (circuitBreaker c) (released c)
    (goroutines c) (notified c) (busy c).
Definition fillNotify c : Consumer :=
  mkConsumer (shutdownCallback c) (emergencyReason c) true (gracefulDone c) (circuitBreaker c) (released c)
    (goroutines c) (notified c) (busy c).
Definition release (r : Release) c : Consumer :=
  mkConsumer (shutdownCallback c) (emergencyReason c) (notify c) (gracefulDone c) (circuitBreaker c)
    (released c ++ [r]) (goroutines c) (notified c) (busy c).
Definition setBusy (b : Foreign -> bool) c : Consumer :=
  mkConsumer (shutdownCallback c) (emergencyReason c) (notify c) (gracefulDone c) (circuitBreaker c) (released c)
    (goroutines c) (notified c) b.
Definition call (cb : Callback) (reason : option Err) c : Consumer :=
  mkConsumer (shutdownCallback c) (emergencyReason c) (notify c) (gracefulDone c) (circuitBreaker c) (released c)
    (goroutines c) (notified c ++ [(cb, reason)]) (busy c).

(** [claimNotify] *)
Definition claimNotify c : bool * Consumer := if notify c then (false, c) else (true, fillNotify c).

(** [trippedReason] *)
Definition trippedReason c : option Err := emergencyReason c.

(** [Subscribe] installs a default callback if there is none. *)
Definition installDefault (cb : Callback) c : Consumer :=
  match shutdownCallback c with None => setCallback cb c | Some _ => c end.

(** The breaker after its buffered message was read. *)
Definition readTriggered (b : BreakerState) : option (Err * BreakerState) :=
  '(r, q) ← tryRecv (emergencyShutdown (breaker b));
  Some (r, mkBreakerState
         (mkCB (trip (breaker b)) (reason (breaker b)) (mainCtxCancelled (breaker b)) (tripped (breaker b)) q
            (emergencyClosed (breaker b)) (fault (breaker b)))
         (calls b) (delivered b ++ [r])).

(** The [select] of [watchEmergency], by the observer [g]; [None] while it waits.
    [preferToken]: which case it takes when both are ready.  A closed and empty
    channel yields the empty message. *)
Definition watchEmergency (g : Z) (preferToken : bool) c : option Consumer :=
  match readTriggered (circuitBreaker c) with
  | Some (msg, b) =>
      if gracefulDone c && preferToken then Some (setGoroutine g Finished (setGraceful false c))
      else Some (setGoroutine g (Emergency msg) (setBreaker b c))
  | None =>
      if gracefulDone c && (preferToken || negb (emergencyClosed (breaker (circuitBreaker c))))
      then Some (setGoroutine g Finished (setGraceful false c))
      else if emergencyClosed (breaker (circuitBreaker c)) then Some (setGoroutine g Finished c) else None
  end.

(** The election, in both: the loser is done, or goes on to the token. *)
Definition elect (g : Z) (cb : Callback) (msg : option Err) c : Consumer :=
  let '(won, c) := claimNotify c in
  setGoroutine g (if won then Won cb msg
                  else match msg with Some _ => Finished | None => Signalling end) c.

(** The call: an emergency passes its reason, [Shutdown] whatever was recorded. *)
Definition deliver (g : Z) (cb : Callback) (msg : option Err) c : Consumer :=
  match msg with
  | Some msg => setGoroutine g Finished (call cb (Some msg) c)
  | None => setGoroutine g Signalling (call cb (trippedReason c) c)
  end.

(** [emergencyExit], up to the election: the reason is stored before the callback is
    looked up. *)
Definition emergencyExit (g : Z) pc c : option Consumer :=
  match pc with
  | Emergency msg => Some (setGoroutine g (EmergencyLimited msg) (release RateLimit c))
  | EmergencyLimited msg => Some (setGoroutine g (ReasonStored msg) (storeReason msg c))
  | ReasonStored msg =>
      Some (setGoroutine g (match shutdownCallback c with Some cb => Claiming cb (Some msg) | None => Finished end) c)
  | _ => None
  end.

(** [signalGracefulDone] *)
Definition signalGracefulDone (g : Z) c : Consumer := setGoroutine g Finished (setGraceful true c).

(** What the world decides at an action: whether a timer has fired, which ready case
    a [select] takes, how the drain ended, and the number of a new goroutine or call. *)
Record Choice := mkChoice { timerFired : bool; preferToken : bool; drainError : option Err; newId : Z }.

(** A call of [TriggerEmergencyShutdown], under a number of its own. *)
Definition startTrip (i : Z) (e : Err) c : option Consumer :=
  match calls (circuitBreaker c) !! i with
  | Some _ => None
  | None => Some (setBreaker (mkBreakerState (breaker (circuitBreaker c))
                    (<[i := Entering (Some e)]> (calls (circuitBreaker c))) (delivered (circuitBreaker c))) c)
  end.

Definition tripReturned (i : Z) c : bool :=
  match calls (circuitBreaker c) !! i with Some Returned => true | _ => false end.

(** [Shutdown], and [Consumer.Unsubscribe] within it, up to the election; the calls
    that may not return are waited for in [exitAction]. *)
Definition shutdownAction (g : Z) pc (ch : Choice) c : option Consumer :=
  match pc with
  | ShutdownCalled => Some (setGoroutine g ShutdownLimited (release RateLimit c))
  | ShutdownLimited =>
      Some (setGoroutine g (match shutdownCallback c with Some cb => Unsubscribing cb | None => Signalling end) c)
  | Unsubscribing cb =>
      match goroutines c !! newId ch with
      | Some _ => None
      | None => Some (setGoroutine g (AwaitUnsubscribed cb (newId ch)) (setGoroutine (newId ch) UnsubDraining c))
      end
  | AwaitUnsubscribed cb u =>
      if timerFired ch then Some (setGoroutine g Expired c)
      else match goroutines c !! u with
      | Some UnsubSent => Some (setGoroutine g (StoppingBandwidth cb) c)
      | _ => None
      end
  | Expired => setGoroutine g (ExpiredTripping (newId ch)) <$> startTrip (newId ch) drainTimeout c
  | ExpiredTripping i => if tripReturned i c then Some (setGoroutine g Failed c) else None
  | StoppingBandwidth cb =>
      Some (setGoroutine g (StoppingMetrics cb) (if hasBandwidth then release Bandwidth c else c))
  | StoppingMetrics cb => Some (setGoroutine g (Claiming cb None) (release MetricsCollector c))
  | _ => None
  end.

(** The goroutine of [subscription.Unsubscribe]: a drain that fails trips the
    breaker; the broker is left in any case. *)
Definition unsubscribeAction (g : Z) pc (ch : Choice) c : option Consumer :=
  match pc with
  | UnsubDraining =>
      Some (setGoroutine g (match drainError ch with Some e => UnsubFailed e | None => UnsubLeaving end) c)
  | UnsubFailed e => setGoroutine g (UnsubTripping (newId ch)) <$> startTrip (newId ch) e c
  | UnsubTripping i => if tripReturned i c then Some (setGoroutine g UnsubLeaving c) else None
  | UnsubLeaving => Some (setGoroutine g UnsubSent (release Broker c))
  | _ => None
  end.

(** What goroutine [g] does at [pc] once the call it is in has returned. *)
Definition pcAction (g : Z) pc (ch : Choice) c : option Consumer :=
  match pc with
  | Watching => watchEmergency g (preferToken ch) c
  | Emergency _ | EmergencyLimited _ | ReasonStored _ => emergencyExit g pc c
  | Claiming cb msg => Some (elect g cb msg c)
  | Won cb msg => Some (deliver g cb msg c)
  | Signalling => Some (signalGracefulDone g c)
  | UnsubDraining | UnsubFailed _ | UnsubTripping _ | UnsubLeaving => unsubscribeAction g pc ch c
  | Finished | Failed | UnsubSent => None
  | _ => shutdownAction g pc ch c
  end.

(** The call a goroutine at [pc] is in. *)
Definition waitsFor pc : option Foreign :=
  match pc with
  | Emergency _ | ShutdownCalled => Some LimiterStop
  | UnsubDraining => Some EngineDrain
  | UnsubLeaving => Some LeaveBroker
  | StoppingBandwidth _ => if hasBandwidth then Some BandwidthSinks else None
  | StoppingMetrics _ => Some MetricsSinks
  | _ => None
  end.

Definition waiting pc c : bool := match waitsFor pc with Some f => busy c f | None => false end.

(** The next action of goroutine [g] at [pc]; [None] while it waits. *)
Definition exitAction (g : Z) pc (ch : Choice) c : option Consumer :=
  if waiting pc c then None else pcAction g pc ch c.

(** The consumer's own actions: those of its goroutines, and of the calls of the
    breaker. *)
Inductive ownStep c : Consumer -> Prop :=
| Act g pc ch c' : goroutines c !! g = Some pc -> exitAction g pc ch c = Some c' -> ownStep c c'
| CallActs i q cb' q' :
    calls (circuitBreaker c) !! i = Some q -> callStep unspecified (breaker (circuitBreaker c)) q = Some (cb', q') ->
    ownStep c (setBreaker (mkBreakerState cb' (<[i := q']> (calls (circuitBreaker c))) (delivered (circuitBreaker c))) c).

(** What the host, the adapter and the engine may do at any time. *)
Inductive hostStep c : Consumer -> Prop :=
| RegisterShutdownCallback cb : hostStep c (setCallback cb c)
| SubscribeDefault cb : hostStep c (installDefault cb c)
| EmergencyShutdown i r :
    calls (circuitBreaker c) !! i = None ->
    hostStep c (setBreaker (mkBreakerState (breaker (circuitBreaker c)) (<[i := Entering r]> (calls (circuitBreaker c)))
                  (delivered (circuitBreaker c))) c)
| Shutdown g : goroutines c !! g = None -> hostStep c (setGoroutine g ShutdownCalled c)
| ForeignCode b : hostStep c (setBusy b c).

Definition exitStep c c' : Prop := ownStep c c' \/ hostStep c c'.

(** [defaultShutdownCallback]: what it does to the host process.  [found]: the
    process was found; [signalled]: the interrupt was sent without error. *)
Inductive HostAction :=
| LogComplete | WarnNoCallback | WarnReason (reason : Err) | SleepDelay | LogInterrupt
| Interrupt | LogFailed | ExitProcess.

Definition defaultShutdownCallback (reason : option Err) (found signalled : bool) : list HostAction :=
  match reason with
  | None => [LogComplete]
  | Some r =>
      [WarnNoCallback; WarnReason r; SleepDelay; LogInterrupt] ++
      if found then Interrupt :: (if signalled then [] else [LogFailed; SleepDelay; ExitProcess])
      else [LogFailed; SleepDelay; ExitProcess]
  end.

(** ** What is known where a goroutine stands *)

Definition isWon pc : bool := match pc with Won _ _ => true | _ => false end.
Definition wonCount pc : nat := if isWon pc then 1 else 0.
Definition winners c : nat := mapSum wonCount (goroutines c).

Lemma wonCount_no pc : isWon pc = false -> wonCount pc = 0%nat.
Proof. unfold wonCount. by intros ->. Qed.

(** The slot is held by the goroutine that won it, until it has called the callback. *)
Definition slotInv c : Prop := (winners c + length (notified c) = if notify c then 1 else 0)%nat.

Definition allReleased c : Prop :=
  RateLimit ∈ released c /\ Broker ∈ released c /\ (hasBandwidth = true -> Bandwidth ∈ released c) /\
  MetricsCollector ∈ released c.

(** A message the observer read from the breaker. *)
Definition read c (msg : Err) : Prop := msg ∈ delivered (circuitBreaker c).

Definition pcOk c pc : Prop :=
  match pc with
  | Emergency msg => read c msg
  | EmergencyLimited msg | ReasonStored msg => RateLimit ∈ released c /\ read c msg
  | ShutdownLimited | Unsubscribing _ | AwaitUnsubscribed _ _ | Expired => RateLimit ∈ released c
  | ExpiredTripping i | UnsubTripping i => is_Some (calls (circuitBreaker c) !! i)
  | Failed => exists i, is_Some (calls (circuitBreaker c) !! i)
  | UnsubSent => Broker ∈ released c
  | StoppingBandwidth _ => RateLimit ∈ released c /\ Broker ∈ released c
  | StoppingMetrics _ =>
      RateLimit ∈ released c /\ Broker ∈ released c /\ (hasBandwidth = true -> Bandwidth ∈ released c)
  | Claiming _ msg | Won _ msg =>
      match msg with Some msg => RateLimit ∈ released c /\ read c msg | None => allReleased c end
  | _ => True
  end.

(** What the callback is told. *)
Definition toldOk c (told : option Err) : Prop :=
  match told with Some msg => RateLimit ∈ released c /\ read c msg | None => allReleased c end.

Record exitInv c : Prop := {
  ei_slot : slotInv c;
  ei_breaker : breakerInv (circuitBreaker c);
  ei_pcs : forall g pc, goroutines c !! g = Some pc -> pcOk c pc;
  ei_reason : forall r, emergencyReason c = Some r -> read c r;
  ei_told : forall cb told, (cb, told) ∈ notified c -> toldOk c told
}.

(** What was released, read or called stays so. *)
Record grows c c' : Prop := {
  gr_released : released c ⊆ released c';
  gr_read : delivered (circuitBreaker c) ⊆ delivered (circuitBreaker c');
  gr_calls : forall i, is_Some (calls (circuitBreaker c) !! i) -> is_Some (calls (circuitBreaker c') !! i)
}.

Lemma grows_same c c' :
  released c' = released c -> circuitBreaker c' = circuitBreaker c -> grows c c'.
Proof. intros E1 E2. split; rewrite ?E1, ?E2; done. Qed.

Lemma grows_release c g pc r : grows c (setGoroutine g pc (release r c)).
Proof. split; cbn; [by apply list_subseteq_app_l | done | done]. Qed.

Lemma allReleased_grows c c' : grows c c' -> allReleased c -> allReleased c'.
Proof. intros [Hr _ _] (H1 & H2 & H3 & H4). unfold allReleased. auto 10. Qed.

Lemma toldOk_grows c c' told : grows c c' -> toldOk c told -> toldOk c' told.
Proof.
  intros HG. pose proof HG as [Hr Hd _]. destruct told; cbn; unfold read; [intros []; auto|].
  by apply allReleased_grows.
Qed.

Lemma pcOk_grows c c' pc : grows c c' -> pcOk c pc -> pcOk c' pc.
Proof.
  intros HG. pose proof HG as [Hr Hd Hc].
  destruct pc as [| | | | | | | | | | | | |cb [m|]|cb [m|]| | | | | | |]; cbn; unfold read; try done;
    try (by apply allReleased_grows); try (intros; destruct_and?; split_and?; auto; fail).
  intros [i Hi]. exists i. auto.
Qed.

(** A goroutine moves on; the slot and the callback are not touched. *)
Lemma move_inv c c' g pc pc' :
  exitInv c -> goroutines c !! g = Some pc -> goroutines c' = <[g := pc']> (goroutines c) ->
  isWon pc = false -> isWon pc' = false -> notified c' = notified c -> notify c' = notify c ->
  emergencyReason c' = emergencyReason c -> grows c c' -> breakerInv (circuitBreaker c') -> pcOk c' pc' ->
  exitInv c'.
Proof.
  intros HI Hg EG H1 H2 EN ES ER HG HB Hpc. split; [| done | | |].
  - unfold slotInv, winners. rewrite EG, EN, ES.
    pose proof (mapSum_update wonCount _ g pc' pc Hg) as Hw.
    rewrite !wonCount_no in Hw by done.
    pose proof (ei_slot c HI) as HS. unfold slotInv, winners in HS. lia.
  - intros g' q. rewrite EG, lookup_insert. case_decide; [by intros [= <-]|].
    intros Hq. by apply (pcOk_grows c), (ei_pcs c HI g').
  - intros r. rewrite ER. intros Hr. apply (gr_read c c' HG). by apply (ei_reason c HI).
  - intros cb told. rewrite EN. intros Ht. by apply (toldOk_grows c), (ei_told c HI cb).
Qed.

(** ** The steps keep the invariant *)

Lemma readTriggered_step b r b' :
  readTriggered b = Some (r, b') -> breakerStep unspecified b b' /\ delivered b' = delivered b ++ [r] /\ calls b' = calls b.
Proof.
  unfold readTriggered. destruct (tryRecv (emergencyShutdown (breaker b))) as [[x q]|] eqn:E; [|done].
  intros [= -> <-]. split; [by apply HostReads | done].
Qed.

Lemma startTrip_spec i e c c' :
  startTrip i e c = Some c' ->
  exists b, c' = setBreaker b c /\ breakerStep unspecified (circuitBreaker c) b /\
    calls b = <[i := Entering (Some e)]> (calls (circuitBreaker c)) /\ delivered b = delivered (circuitBreaker c).
Proof.
  unfold startTrip. destruct (calls (circuitBreaker c) !! i) eqn:E; [done|]. intros [= <-].
  eexists. split; [reflexivity|]. split; [by apply NewCall | done].
Qed.

Lemma grows_breaker c c' i q :
  released c' = released c -> delivered (circuitBreaker c') = delivered (circuitBreaker c) ->
  calls (circuitBreaker c') = <[i := q]> (calls (circuitBreaker c)) -> grows c c'.
Proof.
  intros E1 E2 E3. split; [by rewrite E1 | by rewrite E2 |]. intros j Hj. rewrite E3, lookup_insert.
  by case_decide.
Qed.

(** The emergency path, the calls of [Shutdown], and the goroutine of [Unsubscribe]. *)
Lemma watch_inv c g b c' :
  exitInv c -> goroutines c !! g = Some Watching -> watchEmergency g b c = Some c' -> exitInv c'.
Proof.
  intros HI Hg Ha. unfold watchEmergency in Ha. destruct (readTriggered (circuitBreaker c)) as [[msg b']|] eqn:Hr.
  - apply readTriggered_step in Hr as (Hst & Ed & Ec). destruct (gracefulDone c && b); injection Ha as <-.
    + eapply (move_inv c _ g Watching); first [done | by apply grows_same | exact (ei_breaker c HI)].
    + eapply (move_inv c _ g Watching (Emergency msg)); try done; cbn.
      * split; cbn; [done | rewrite Ed; by apply list_subseteq_app_l | by rewrite Ec].
      * by eapply breakerInv_step, Hst; apply HI.
      * unfold read. cbn. rewrite Ed. apply elem_of_app. right. by apply list_elem_of_singleton.
  - destruct (gracefulDone c && _); [|destruct (emergencyClosed _); [|done]]; injection Ha as <-;
      eapply (move_inv c _ g Watching); first [done | by apply grows_same | exact (ei_breaker c HI)].
Qed.

Lemma emergency_inv c g pc c' :
  exitInv c -> goroutines c !! g = Some pc -> emergencyExit g pc c = Some c' -> exitInv c'.
Proof.
  intros HI Hg Ha. pose proof (ei_pcs c HI g pc Hg) as Hpc. unfold emergencyExit in Ha.
  destruct pc; try discriminate; injection Ha as <-; cbn in Hpc.
  - eapply (move_inv c _ g (Emergency msg) (EmergencyLimited msg));
      first [done | exact (grows_release _ _ _ _) | exact (ei_breaker c HI) | idtac]. split; [|exact Hpc].
    cbn. apply elem_of_app. right. by apply list_elem_of_singleton.
  - pose proof HI as [HS HB HP HR HT]. split; cbn; [| exact HB | | |].
    + pose proof (mapSum_update wonCount _ g (ReasonStored msg) _ Hg) as Hw. cbn in Hw.
      unfold slotInv, winners in *. cbn. lia.
    + intros g' q. rewrite lookup_insert. case_decide; [by intros [= <-]|]. apply HP.
    + intros r [= <-]. apply Hpc.
    + exact HT.
  - eapply (move_inv c _ g (ReasonStored msg)); first [done | by apply grows_same | exact (ei_breaker c HI) | idtac].
    + by destruct (shutdownCallback c).
    + by destruct (shutdownCallback c).
Qed.

(** A goroutine starts a call of the breaker. *)
Lemma trip_inv c g pc i e c1 pc' :
  exitInv c -> goroutines c !! g = Some pc -> isWon pc = false -> isWon pc' = false ->
  startTrip i e c = Some c1 -> (is_Some (calls (circuitBreaker c1) !! i) -> pcOk (setGoroutine g pc' c1) pc') ->
  exitInv (setGoroutine g pc' c1).
Proof.
  intros HI Hg H1 H2 (b & -> & Hst & Ec & Ed)%startTrip_spec Hpc.
  eapply (move_inv c _ g pc pc'); try done.
  - by eapply (grows_breaker c _ i (Entering (Some e))).
  - by eapply breakerInv_step, Hst; apply HI.
  - apply Hpc. cbn. rewrite Ec, lookup_insert_eq. by eexists.
Qed.

Lemma unsubscribe_inv c g pc ch c' :
  exitInv c -> goroutines c !! g = Some pc -> unsubscribeAction g pc ch c = Some c' -> exitInv c'.
Proof.
  intros HI Hg Ha. unfold unsubscribeAction in Ha. destruct pc; try discriminate.
  - injection Ha as <-. eapply (move_inv c _ g UnsubDraining); first [done | by apply grows_same | exact (ei_breaker c HI) | idtac];
      by destruct (drainError ch).
  - destruct (startTrip (newId ch) e c) as [c1|] eqn:Ht; [|done]. injection Ha as <-.
    by eapply (trip_inv c g (UnsubFailed e)).
  - destruct (tripReturned i c); [|done]. injection Ha as <-.
    eapply (move_inv c _ g (UnsubTripping i)); first [done | by apply grows_same | exact (ei_breaker c HI)].
  - injection Ha as <-. eapply (move_inv c _ g UnsubLeaving UnsubSent);
      first [done | exact (grows_release _ _ _ _) | exact (ei_breaker c HI) | idtac].
    cbn. apply elem_of_app. right. by apply list_elem_of_singleton.
Qed.

(** [subscription.Unsubscribe] starts its goroutine. *)
Lemma spawn_inv c n pc :
  exitInv c -> goroutines c !! n = None -> isWon pc = false -> pcOk c pc -> exitInv (setGoroutine n pc c).
Proof.
  intros [HS HB HP HR HT] Hn Hw Hpc. split; cbn; [| exact HB | | exact HR | exact HT].
  - pose proof (mapSum_fresh wonCount _ n pc Hn) as Hs. unfold slotInv, winners in *. cbn.
    rewrite (wonCount_no pc Hw) in Hs. lia.
  - intros g' q. rewrite lookup_insert. case_decide; [by intros [= <-] | apply HP].
Qed.

Lemma shutdown_inv c g pc ch c' :
  exitInv c -> goroutines c !! g = Some pc -> shutdownAction g pc ch c = Some c' -> exitInv c'.
Proof.
  intros HI Hg Ha. pose proof (ei_pcs c HI g pc Hg) as Hpc. unfold shutdownAction in Ha.
  destruct pc; try discriminate; cbn in Hpc.
  - injection Ha as <-. eapply (move_inv c _ g ShutdownCalled ShutdownLimited);
      first [done | exact (grows_release _ _ _ _) | exact (ei_breaker c HI) | idtac].
    cbn. apply elem_of_app. right. by apply list_elem_of_singleton.
  - injection Ha as <-. eapply (move_inv c _ g ShutdownLimited);
      first [done | by apply grows_same | exact (ei_breaker c HI) | idtac]; by destruct (shutdownCallback c).
  - destruct (goroutines c !! newId ch) eqn:Hn; [done|]. injection Ha as <-.
    assert (newId ch <> g) by congruence.
    eapply (move_inv (setGoroutine (newId ch) UnsubDraining c) _ g (Unsubscribing cb));
      first [done | by apply grows_same | exact (ei_breaker c HI) | idtac]; [by apply spawn_inv|].
    cbn. by rewrite lookup_insert_ne.
  - destruct (timerFired ch).
    + injection Ha as <-. eapply (move_inv c _ g (AwaitUnsubscribed cb u));
        first [done | by apply grows_same | exact (ei_breaker c HI)].
    + destruct (goroutines c !! u) as [q|] eqn:Hu; [|done]. destruct q; try done. injection Ha as <-.
      pose proof (ei_pcs c HI u _ Hu) as Hb. eapply (move_inv c _ g (AwaitUnsubscribed cb u));
        first [done | by apply grows_same | exact (ei_breaker c HI)].
  - destruct (startTrip (newId ch) drainTimeout c) as [c1|] eqn:Ht; [|done]. injection Ha as <-.
    by eapply (trip_inv c g Expired).
  - destruct (tripReturned i c); [|done]. injection Ha as <-.
    eapply (move_inv c _ g (ExpiredTripping i));
      first [done | by apply grows_same | exact (ei_breaker c HI) | by exists i].
  - injection Ha as <-. eapply (move_inv c _ g (StoppingBandwidth cb) (StoppingMetrics cb));
      try done; destruct hasBandwidth eqn:Eb; cbn;
      first [done | exact (grows_release _ _ _ _) | by apply grows_same | exact (ei_breaker c HI) |
             destruct Hpc; rewrite ?elem_of_app, ?list_elem_of_singleton; split_and!; auto; congruence].
  - injection Ha as <-. eapply (move_inv c _ g (StoppingMetrics cb) (Claiming cb None));
      first [done | exact (grows_release _ _ _ _) | exact (ei_breaker c HI) | idtac].
    destruct Hpc as (? & ? & ?). cbn. unfold allReleased. cbn.
    rewrite !elem_of_app, !list_elem_of_singleton. auto 10.
Qed.

(** The election, and the call of the callback. *)
Lemma elect_inv c g cb msg :
  exitInv c -> goroutines c !! g = Some (Claiming cb msg) -> exitInv (elect g cb msg c).
Proof.
  intros HI Hg. pose proof (ei_pcs c HI g _ Hg) as Hpc. unfold elect, claimNotify.
  destruct (notify c) eqn:En.
  - eapply (move_inv c _ g (Claiming cb msg));
      first [done | by apply grows_same | exact (ei_breaker c HI) | idtac]; by destruct msg.
  - destruct HI as [HS HB HP HR HT]. split; cbn; [| exact HB | | exact HR | exact HT].
    + pose proof (mapSum_update wonCount _ g (Won cb msg) _ Hg) as Hw.
      unfold slotInv, winners in *. cbn in *. rewrite En in HS. lia.
    + intros g' q. rewrite lookup_insert. case_decide; [by intros [= <-] | apply HP].
Qed.

Lemma called_inv c g cb msg :
  exitInv c -> goroutines c !! g = Some (Won cb msg) -> exitInv (deliver g cb msg c).
Proof.
  intros HI Hg. pose proof (ei_pcs c HI g _ Hg) as Hpc. destruct HI as [HS HB HP HR HT].
  assert (exists pc' told, isWon pc' = false /\ pcOk c pc' /\ toldOk c told /\
    deliver g cb msg c = setGoroutine g pc' (call cb told c)) as (pc' & told & Hw & Hok & Ht & ->).
  { destruct msg as [m|]; cbn in *; eexists _, _; split_and!; try reflexivity; cbn; try done.
    unfold trippedReason. destruct (emergencyReason c) as [r|] eqn:Er; cbn; [|done].
    split; [apply Hpc | by apply HR]. }
  split; cbn; [| exact HB | | exact HR |].
  - pose proof (mapSum_update wonCount _ g pc' _ Hg) as Hs. rewrite (wonCount_no pc' Hw) in Hs.
    unfold slotInv, winners in *. cbn in *. rewrite length_app. cbn. lia.
  - intros g' q. rewrite lookup_insert. case_decide; [by intros [= <-] | apply HP].
  - intros cb' t. rewrite elem_of_app, list_elem_of_singleton. intros [?|[= -> ->]]; [by eapply HT | done].
Qed.

Lemma breaker_inv c b :
  exitInv c -> breakerInv b -> delivered (circuitBreaker c) ⊆ delivered b ->
  (forall i, is_Some (calls (circuitBreaker c) !! i) -> is_Some (calls b !! i)) -> exitInv (setBreaker b c).
Proof.
  intros [HS _ HP HR HT] HB Hd Hc. assert (HG : grows c (setBreaker b c)) by by split.
  split; cbn; [exact HS | exact HB | | |].
  - intros g pc Hg. apply (pcOk_grows c); [done | by apply (HP g)].
  - intros r Hr. apply Hd. by apply HR.
  - intros cb told Ht. apply (toldOk_grows c); [done | by apply (HT cb)].
Qed.

Lemma exitAction_acts g pc ch c c' :
  exitAction g pc ch c = Some c' -> waiting pc c = false /\ pcAction g pc ch c = Some c'.
Proof. unfold exitAction. by destruct (waiting pc c). Qed.

Lemma own_inv c c' : ownStep c c' -> exitInv c -> exitInv c'.
Proof.
  intros Hs HI. destruct Hs as [g pc ch c' Hg Ha|i q cb' q' Hi Hst].
  - apply exitAction_acts in Ha as [_ Ha]. destruct pc; cbn [pcAction] in Ha; try done;
      try (by eapply watch_inv); try (by eapply emergency_inv); try (by eapply shutdown_inv);
      try (by eapply unsubscribe_inv); injection Ha as <-.
    + by apply elect_inv.
    + by apply called_inv.
    + eapply (move_inv c _ g Signalling); first [done | by apply grows_same | exact (ei_breaker c HI)].
  - apply breaker_inv; [done | | done |].
    + eapply breakerInv_step; [apply HI | by eapply CallAction].
    + intros j Hj. cbn. rewrite lookup_insert. by case_decide.
Qed.

Lemma host_inv c c' : hostStep c c' -> exitInv c -> exitInv c'.
Proof.
  intros Hs HI. destruct Hs as [cb|cb|i r Hi|g Hg|b]; [| | | | by destruct HI].
  - by destruct HI.
  - unfold installDefault. destruct (shutdownCallback c); [done | by destruct HI].
  - apply breaker_inv; [done | | done |].
    + eapply (breakerInv_step unspecified); [apply HI | by apply NewCall].
    + intros j Hj. cbn. rewrite lookup_insert. by case_decide.
  - by apply spawn_inv.
Qed.

Lemma exit_step c c' : exitStep c c' -> exitInv c -> exitInv c'.
Proof. intros [Hs|Hs]; [by apply own_inv | by apply host_inv]. Qed.

Lemma build_inv cb0 : exitInv (Build cb0 NewCircuitBreaker).
Proof.
  split; cbn; try done.
  - left. split_and!; done.
  - intros g pc. rewrite lookup_singleton. case_decide; [by intros [= <-] | done].
  - intros cb told Ht. by apply not_elem_of_nil in Ht.
Qed.

Lemma exit_reachable cb0 c : rtc exitStep (Build cb0 NewCircuitBreaker) c -> exitInv c.
Proof. apply (rtc_ind_r exitInv); [apply build_inv|]. intros c1 c2 _ Hs HI. by eapply exit_step. Qed.

(** Without a callback an emergency always ends the process: by an interrupt that was
    sent, or by exiting; a graceful end leaves it alone. *)
Lemma default_ends_process reason found signalled :
  match reason with
  | None => defaultShutdownCallback reason found signalled = [LogComplete]
  | Some _ =>
      last (defaultShutdownCallback reason found signalled) =
        Some (if found && signalled then Interrupt else ExitProcess)
  end.
Proof. by destruct reason, found, signalled. Qed.

Lemma no_winner c : (forall g cb msg, goroutines c !! g <> Some (Won cb msg)) -> winners c = 0%nat.
Proof.
  intros Hno. apply mapSum_none. intros g pc Hg. apply wonCount_no. destruct pc; try done. by destruct (Hno g cb msg).
Qed.

(** ** Replaying a run *)

Inductive Event :=
| Turn (g : Z) (ch : Choice)
| CallTurn (i : Z)
| Registers (cb : Callback)
| Subscribes (cb : Callback)
| Trips (i : Z) (r : option Err)
| ShutsDown (g : Z)
| Busies (b : Foreign -> bool).

Definition replayOne (e : Event) c : option Consumer :=
  match e with
  | Turn g ch => pc ← goroutines c !! g; exitAction g pc ch c
  | CallTurn i =>
      q ← calls (circuitBreaker c) !! i;
      '(cb', q') ← callStep unspecified (breaker (circuitBreaker c)) q;
      Some (setBreaker (mkBreakerState cb' (<[i := q']> (calls (circuitBreaker c))) (delivered (circuitBreaker c))) c)
  | Registers cb => Some (setCallback cb c)
  | Subscribes cb => Some (installDefault cb c)
  | Trips i r =>
      match calls (circuitBreaker c) !! i with
      | Some _ => None
      | None => Some (setBreaker (mkBreakerState (breaker (circuitBreaker c)) (<[i := Entering r]> (calls (circuitBreaker c)))
                        (delivered (circuitBreaker c))) c)
      end
  | ShutsDown g => match goroutines c !! g with Some _ => None | None => Some (setGoroutine g ShutdownCalled c) end
  | Busies b => Some (setBusy b c)
  end.

Fixpoint replay (l : list Event) c : option Consumer :=
  match l with [] => Some c | e :: l => c' ← replayOne e c; replay l c' end.

Lemma replayOne_step e c c' : replayOne e c = Some c' -> exitStep c c'.
Proof.
  destruct e as [g ch|i|cb|cb|i r|g|b]; cbn.
  - destruct (goroutines c !! g) as [pc|] eqn:Hg; [|done]. cbn. intros Ha. left. by eapply Act.
  - destruct (calls _ !! i) as [q|] eqn:Hi; [|done]. cbn.
    destruct (callStep _ _ q) as [[cb' q']|] eqn:Hs; [|done]. intros [= <-]. left. by eapply CallActs.
  - intros [= <-]. right. constructor.
  - intros [= <-]. right. constructor.
  - destruct (calls _ !! i) eqn:Hi; [done|]. intros [= <-]. right. by constructor.
  - destruct (goroutines c !! g) eqn:Hg; [done|]. intros [= <-]. right. by constructor.
  - intros [= <-]. right. constructor.
Qed.

Lemma replay_reachable l c c' : replay l c = Some c' -> rtc exitStep c c'.
Proof.
  revert c. induction l as [|e l IH]; intros c; cbn; [by intros [= ->]|].
  destruct (replayOne e c) as [c1|] eqn:He; [|done]. cbn. intros Hl.
  eapply rtc_l; [by eapply replayOne_step | by apply IH].
Qed.

(** ** Properties *)

(** C23: the host hears of the consumer's end at most once, however trips, calls of
    [Shutdown], failing drains and registrations race, and exactly once as soon as a
    goroutine has been through the election and none is between winning it and the
    call.  A reason it is told is the one the breaker gives, and the rate limiter was
    stopped; it is told of a graceful end only after the rate limiter, the broker,
    the bandwidth aggregator if there is one and the metrics collector were
    released. *)
Theorem notified_once cb0 c :
  rtc exitStep (Build cb0 NewCircuitBreaker) c ->
  (length (notified c) <= 1)%nat /\
  (notify c = true -> (forall g cb msg, goroutines c !! g <> Some (Won cb msg)) -> length (notified c) = 1%nat) /\
  (forall cb r, (cb, Some r) ∈ notified c ->
     Reason (breaker (circuitBreaker c)) = Some r /\ RateLimit ∈ released c) /\
  (forall cb, (cb, None) ∈ notified c -> allReleased c).
Proof.
  intros [HS HB _ _ HT]%exit_reachable. unfold slotInv in HS. split_and!.
  - destruct (notify c); lia.
  - intros Hn Hno%no_winner. rewrite Hn, Hno in HS. lia.
  - intros cb r Hr. destruct (HT cb (Some r) Hr) as [Hl Hd]. split; [by apply delivered_reason | done].
  - intros cb. apply (HT cb None).
Qed.

End Exit.

(** A callback is registered, the breaker trips while a [Shutdown] is under way,
    and the observer delivers. *)
Definition ready : Choice := mkChoice false false (None : option Z) 6.
Definition tripDuringShutdown : list (@Event Z Z) :=
  [Registers 1; ShutsDown 5; Turn 5 ready; Trips 7 (Some 99)] ++ repeat (CallTurn 7) 6 ++ repeat (Turn 0 ready) 6.
Definition exitRun : option (@Consumer Z Z) := replay 0 1 true tripDuringShutdown (Build None NewCircuitBreaker).

(** A [Shutdown] that runs through: its drain succeeds. *)
Definition graceful : list (@Event Z Z) :=
  [Registers 1; ShutsDown 5] ++ repeat (Turn 5 ready) 3 ++ repeat (Turn 6 ready) 2 ++ repeat (Turn 5 ready) 6 ++
  [Turn 0 ready].
Definition gracefulRun : option (@Consumer Z Z) := replay 0 1 true graceful (Build None NewCircuitBreaker).

Lemma notified_once_witness :
  match exitRun, gracefulRun with
  | Some c, Some d =>
      notified c = [(1, Some 99)] /\ Reason (breaker (circuitBreaker c)) = Some 99 /\
      notified d = [(1, None)] /\ allReleased true d
  | _, _ => False
  end.
Proof.
  destruct exitRun as [c|] eqn:Ec; [|vm_compute in Ec; discriminate].
  destruct gracefulRun as [d|] eqn:Ed; [|vm_compute in Ed; discriminate].
  assert (Nc : notified c = [(1, Some 99)]) by (vm_compute in Ec; injection Ec as <-; reflexivity).
  assert (Nd : notified d = [(1, None)]) by (vm_compute in Ed; injection Ed as <-; reflexivity).
  destruct (notified_once 0 1 true None c (replay_reachable _ _ _ _ _ _ Ec)) as (_ & _ & Hc & _).
  destruct (notified_once 0 1 true None d (replay_reachable _ _ _ _ _ _ Ed)) as (_ & _ & _ & Hd).
  split; [exact Nc|]. split; [apply (Hc 1); rewrite Nc; left|].
  split; [exact Nd|]. apply (Hd 1). rewrite Nd. left.
Defined.
