(* ===== verification/ExitLive.v ===== *)
(** * Every end of the consumer is delivered

    The consumer of [Exit], built with a shutdown callback: its own actions come to
    rest after a bounded number of steps, whatever the drains and the timers do, and
    once they have, a trip or a [Shutdown] has called the callback, unless the
    goroutine that would call it waits for foreign code that does not return. *)
From S2P Require Import Prelude CircuitBreaker Exit.
From stdpp Require Import base gmap list relations.
Open Scope Z_scope.

Section ExitLive.
Context {Callback Err : Type}.
Variable unspecified : Err.
Variable drainTimeout : Err.
Variable hasBandwidth : bool.
Implicit Types (c : @Consumer Callback Err) (pc : @ExitPc Callback Err).

Local Notation ownStep := (ownStep unspecified drainTimeout hasBandwidth).
Local Notation exitStep := (exitStep unspecified drainTimeout hasBandwidth).
Local Notation exitAction := (exitAction drainTimeout hasBandwidth).
Local Notation waitsFor := (waitsFor hasBandwidth).
Local Notation exitInv := (exitInv hasBandwidth).

(** ** How much is left to do *)

(** What a goroutine may still do, with the goroutine and the calls of the breaker it
    may start. *)
Definition pcWork pc : nat :=
  match pc with
  | Watching => 7 | Emergency _ => 6 | EmergencyLimited _ => 5 | ReasonStored _ => 4
  | ShutdownCalled => 22 | ShutdownLimited => 21 | Unsubscribing _ => 20 | AwaitUnsubscribed _ _ => 9
  | Expired => 8 | ExpiredTripping _ => 1 | StoppingBandwidth _ => 5 | StoppingMetrics _ => 4
  | Claiming _ _ => 3 | Won _ _ => 2 | Signalling => 1
  | UnsubDraining => 10 | UnsubFailed _ => 9 | UnsubTripping _ => 2 | UnsubLeaving => 1
  | Finished | Failed | UnsubSent => 0
  end.

Definition exitWork c : nat :=
  (mapSum pcWork (goroutines c) + mapSum callMeasure (calls (circuitBreaker c)))%nat.

Lemma work_move c c' g pc pc' :
  goroutines c !! g = Some pc -> goroutines c' = <[g := pc']> (goroutines c) ->
  calls (circuitBreaker c') = calls (circuitBreaker c) -> (pcWork pc' < pcWork pc)%nat ->
  (exitWork c' < exitWork c)%nat.
Proof.
  intros Hg EG EC Hw. unfold exitWork. rewrite EG, EC. pose proof (mapSum_update pcWork _ g pc' pc Hg). lia.
Qed.

(** A goroutine that calls the breaker hands it the six actions of the call. *)
Lemma work_trip c g pc pc' i e c1 :
  goroutines c !! g = Some pc -> startTrip i e c = Some c1 -> (pcWork pc' + 6 < pcWork pc)%nat ->
  (exitWork (setGoroutine g pc' c1) < exitWork c)%nat.
Proof.
  intros Hg Ht Hw. unfold startTrip in Ht. destruct (calls (circuitBreaker c) !! i) eqn:Hi; [done|].
  injection Ht as <-. unfold exitWork. cbn.
  pose proof (mapSum_update pcWork _ g pc' pc Hg).
  pose proof (mapSum_fresh callMeasure _ i (Entering (Some e)) Hi) as Hf. cbn in Hf. lia.
Qed.

Lemma act_lowers c g pc ch c' :
  goroutines c !! g = Some pc -> exitAction g pc ch c = Some c' -> (exitWork c' < exitWork c)%nat.
Proof.
  intros Hg [_ Ha]%exitAction_acts. destruct pc; cbn in Ha; try discriminate;
    try (injection Ha as <-; eapply (work_move c _ g); [done | reflexivity | reflexivity | cbn; lia]).
  - unfold watchEmergency in Ha. destruct (readTriggered _) as [[m b]|] eqn:Hr.
    + apply (readTriggered_step unspecified) in Hr as (_ & _ & Ec).
      destruct (_ && _); injection Ha as <-;
        (eapply (work_move c _ g Watching); [done | reflexivity | done | cbn; lia]).
    + destruct (_ && _); [|destruct (emergencyClosed _); [|done]]; injection Ha as <-;
        (eapply (work_move c _ g Watching); [done | reflexivity | done | cbn; lia]).
  - injection Ha as <-. eapply (work_move c _ g); [done | reflexivity | done |]. destruct (shutdownCallback c); cbn; lia.
  - injection Ha as <-. eapply (work_move c _ g); [done | reflexivity | done |]. destruct (shutdownCallback c); cbn; lia.
  - destruct (goroutines c !! newId ch) eqn:Hn; [done|]. injection Ha as <-. unfold exitWork. cbn.
    pose proof (mapSum_fresh pcWork _ (newId ch) UnsubDraining Hn) as H1. cbn in H1.
    assert (Hg' : <[newId ch := UnsubDraining]> (goroutines c) !! g = Some (Unsubscribing cb))
      by (rewrite lookup_insert_ne; [done | congruence]).
    pose proof (mapSum_update pcWork _ g (AwaitUnsubscribed cb (newId ch)) _ Hg') as H2. cbn in H2. lia.
  - destruct (timerFired ch); [|destruct (goroutines c !! u) as [[]|]; try done]; injection Ha as <-;
      (eapply (work_move c _ g); [done | reflexivity | done | cbn; lia]).
  - destruct (startTrip _ _ c) as [c1|] eqn:Ht; [|done]. injection Ha as <-. eapply (work_trip c g); [done | done | cbn; lia].
  - destruct (tripReturned i c); [|done]. injection Ha as <-.
    eapply (work_move c _ g); [done | reflexivity | done | cbn; lia].
  - injection Ha as <-. eapply (work_move c _ g); [done | by destruct hasBandwidth | by destruct hasBandwidth | cbn; lia].
  - unfold elect, claimNotify in Ha. destruct (notify c); injection Ha as <-;
      (eapply (work_move c _ g); [done | reflexivity | done | destruct msg; cbn; lia]).
  - destruct msg; injection Ha as <-; (eapply (work_move c _ g); [done | reflexivity | done | cbn; lia]).
  - injection Ha as <-. eapply (work_move c _ g); [done | reflexivity | done |]. destruct (drainError ch); cbn; lia.
  - destruct (startTrip _ _ c) as [c1|] eqn:Ht; [|done]. injection Ha as <-. eapply (work_trip c g); [done | done | cbn; lia].
  - destruct (tripReturned i c); [|done]. injection Ha as <-.
    eapply (work_move c _ g); [done | reflexivity | done | cbn; lia].
Qed.

Lemma own_lowers c c' : ownStep c c' -> (exitWork c' < exitWork c)%nat.
Proof.
  intros [g pc ch c1 Hg Ha|i q cb' q' Hi Hst]; [by eapply act_lowers|].
  unfold exitWork. cbn. pose proof (mapSum_update callMeasure _ i q' q Hi).
  pose proof (callStep_lowers unspecified _ _ _ _ Hst). lia.
Qed.

(** ** Who is where *)

Definition isUnsub pc : bool :=
  match pc with UnsubDraining | UnsubFailed _ | UnsubTripping _ | UnsubLeaving | UnsubSent => true | _ => false end.

(** The observer is goroutine 0, and only it. *)
Definition roleOk (g : Z) pc : Prop :=
  match pc with
  | Watching | Emergency _ | EmergencyLimited _ | ReasonStored _ | Claiming _ (Some _) | Won _ (Some _) => g = 0
  | Finished => True
  | _ => g <> 0
  end.

(** Past the election somebody holds the slot; while the observer waits, the breaker's
    message has not been read. *)
Definition livePc c pc : Prop :=
  match pc with
  | Won _ _ | Signalling | Finished => notify c = true
  | Watching => delivered (circuitBreaker c) = []
  | _ => True
  end.

Record liveInv c : Prop := {
  li_callback : is_Some (shutdownCallback c);
  li_token : gracefulDone c = true -> notify c = true;
  li_role : forall g pc, goroutines c !! g = Some pc -> roleOk g pc;
  li_pcs : forall g pc, goroutines c !! g = Some pc -> livePc c pc;
  li_observer : is_Some (goroutines c !! 0);
  li_parent : forall g pc, goroutines c !! g = Some pc -> g <> 0 ->
    exists g' pc', g' <> 0 /\ goroutines c !! g' = Some pc' /\ isUnsub pc' = false
}.

Lemma parent_move (m : gmap Z ExitPc) g pc pc' :
  m !! g = Some pc -> isUnsub pc' = isUnsub pc ->
  (exists g' q, g' <> 0 /\ m !! g' = Some q /\ isUnsub q = false) ->
  exists g' q, g' <> 0 /\ <[g := pc']> m !! g' = Some q /\ isUnsub q = false.
Proof.
  intros Hg Hu (g' & q & Hn & Hq & Hf). destruct (decide (g' = g)) as [->|Hne].
  - exists g, pc'. rewrite lookup_insert_eq. split_and!; [done | done |]. rewrite Hu. congruence.
  - exists g', q. by rewrite lookup_insert_ne by done.
Qed.

(** A goroutine moves on within its role. *)
Lemma live_move c c' g pc pc' :
  liveInv c -> goroutines c !! g = Some pc -> goroutines c' = <[g := pc']> (goroutines c) ->
  shutdownCallback c' = shutdownCallback c -> (notify c = true -> notify c' = true) ->
  (gracefulDone c' = true -> notify c' = true) -> isUnsub pc' = isUnsub pc ->
  (pc = Watching \/ delivered (circuitBreaker c') = delivered (circuitBreaker c)) ->
  roleOk g pc' -> livePc c' pc' -> liveInv c'.
Proof.
  intros [H1 H2 H3 H4 H5 H6] Hg EG ES HN HT HU HD HR HP. split.
  - by rewrite ES.
  - done.
  - intros g' q. rewrite EG, lookup_insert. case_decide; [by intros [= <-]; subst | apply H3].
  - intros g' q. rewrite EG, lookup_insert. case_decide as Hd; [by intros [= <-]|]. intros Hq.
    pose proof (H4 g' q Hq) as Hl. destruct q; cbn in *; auto.
    destruct HD as [-> | ->]; [|done]. pose proof (H3 g _ Hg). pose proof (H3 g' _ Hq). cbn in *. congruence.
  - rewrite EG, lookup_insert. by case_decide.
  - intros g' q. rewrite EG, lookup_insert. intros Hq Hne. apply (parent_move _ g pc); [done..|].
    case_decide; [subst; by eapply H6 | by eapply H6].
Qed.

(** A closed channel of the breaker holds its message until it is read. *)
Lemma closed_holds (s : @BreakerState Err) : breakerInv s -> emergencyClosed (breaker s) = true -> delivered s = [] ->
  readTriggered s <> None.
Proof.
  intros [(Hb & _)|(w & r & pc & _ & (_ & _ & HW) & _)] Hc Hd; [by rewrite Hb in Hc|].
  destruct pc; cbn in HW; destruct_and?; try congruence. unfold readTriggered, tryRecv.
  rewrite Hd in *. cbn in *. match goal with H : queued _ = [_] |- _ => by rewrite H end.
Qed.

Lemma watch_live c g b c' :
  exitInv c -> liveInv c -> goroutines c !! g = Some Watching -> watchEmergency g b c = Some c' -> liveInv c'.
Proof.
  intros HI HL Hg Ha. pose proof (li_role c HL g _ Hg) as Hr. pose proof (li_pcs c HL g _ Hg) as Hd.
  assert (Htok : gracefulDone c = true -> liveInv (setGoroutine g Finished (setGraceful false c))).
  { intros Ht. eapply (live_move c _ g Watching); auto; try done; by apply (li_token c HL). }
  unfold watchEmergency in Ha. destruct (readTriggered _) as [[m s]|] eqn:Hs.
  - destruct (gracefulDone c) eqn:Eg; cbn in Ha; [destruct b|]; injection Ha as <-; auto.
    + eapply (live_move c _ g Watching); auto; try done; by apply (li_token c HL).
    + eapply (live_move c _ g Watching); auto; try done; by apply (li_token c HL).
  - destruct (emergencyClosed _) eqn:Hc; [by apply closed_holds in Hs; [| apply HI | done | done]|].
    destruct (gracefulDone c) eqn:Eg; cbn in Ha; [|done]. destruct b; injection Ha as <-; auto.
Qed.

(** A goroutine starts: [Shutdown] is called, or it calls [subscription.Unsubscribe]. *)
Lemma live_spawn c n pc :
  liveInv c -> goroutines c !! n = None -> roleOk n pc -> livePc c pc ->
  (isUnsub pc = false \/ exists g' q, g' <> 0 /\ goroutines c !! g' = Some q /\ isUnsub q = false) ->
  liveInv (setGoroutine n pc c).
Proof.
  intros [H1 H2 H3 H4 H5 H6] Hn HR HP HU. assert (n <> 0) by (intros ->; by destruct H5 as [? H5]; rewrite Hn in H5).
  split; cbn; [done | done | | | |].
  - intros g' q. rewrite lookup_insert. case_decide; [by intros [= <-]; subst | apply H3].
  - intros g' q. rewrite lookup_insert. case_decide; [by intros [= <-] | apply H4].
  - by rewrite lookup_insert_ne.
  - assert (Hkeep : (exists g' q, g' <> 0 /\ goroutines c !! g' = Some q /\ isUnsub q = false) ->
      exists g' q, g' <> 0 /\ <[n := pc]> (goroutines c) !! g' = Some q /\ isUnsub q = false).
    { intros (g' & q & ? & Hq & ?). exists g', q. rewrite lookup_insert_ne; [done | congruence]. }
    intros g' q. rewrite lookup_insert. case_decide as Hd; intros Hq Hne; [|by eapply Hkeep, H6].
    destruct HU as [HU|HU]; [|by apply Hkeep]. exists n, pc. by rewrite lookup_insert_eq.
Qed.

(** Any other action leaves the message of the breaker unread. *)
Ltac live_step c HL :=
  eapply (live_move c); eauto; try done; try (exact (li_token c HL)); cbn.

Lemma live_trip c g pc pc' i e c1 :
  liveInv c -> goroutines c !! g = Some pc -> startTrip i e c = Some c1 -> isUnsub pc' = isUnsub pc ->
  roleOk g pc' -> livePc c pc' -> liveInv (setGoroutine g pc' c1).
Proof.
  intros HL Hg Ht HU HR HP. unfold startTrip in Ht. destruct (calls (circuitBreaker c) !! i); [done|].
  injection Ht as <-. live_step c HL.
Qed.

Lemma shutdown_live c g pc ch c' :
  liveInv c -> goroutines c !! g = Some pc -> shutdownAction drainTimeout hasBandwidth g pc ch c = Some c' -> liveInv c'.
Proof.
  intros HL Hg Ha. pose proof (li_role c HL g _ Hg) as Hr.
  destruct pc; cbn in Ha, Hr; try discriminate; try (injection Ha as <-; live_step c HL; fail).
  - injection Ha as <-. destruct (li_callback c HL) as [cb ->]. live_step c HL.
  - destruct (goroutines c !! newId ch) eqn:Hn; [done|]. injection Ha as <-.
    assert (Hs : liveInv (setGoroutine (newId ch) UnsubDraining c)).
    { apply live_spawn; try done; cbn.
      - intros E. destruct (li_observer c HL) as [q Hq]. congruence.
      - right. by exists g, (Unsubscribing cb). }
    eapply (live_move _ _ g (Unsubscribing cb) _ Hs); eauto; try done; try (exact (li_token c HL)).
    cbn. rewrite lookup_insert_ne; [done | congruence].
  - destruct (timerFired ch); [|destruct (goroutines c !! u) as [[]|]; try done]; injection Ha as <-; live_step c HL.
  - destruct (startTrip _ _ c) as [c1|] eqn:Ht; [|done]. injection Ha as <-. by eapply (live_trip c g Expired).
  - destruct (tripReturned i c); [|done]. injection Ha as <-. live_step c HL.
  - injection Ha as <-. destruct hasBandwidth; live_step c HL.
Qed.

Lemma unsubscribe_live c g pc ch c' :
  liveInv c -> goroutines c !! g = Some pc -> unsubscribeAction g pc ch c = Some c' -> liveInv c'.
Proof.
  intros HL Hg Ha. pose proof (li_role c HL g _ Hg) as Hr. destruct pc; cbn in Ha, Hr; try discriminate.
  - injection Ha as <-. destruct (drainError ch); live_step c HL.
  - destruct (startTrip _ _ c) as [c1|] eqn:Ht; [|done]. injection Ha as <-. by eapply (live_trip c g (UnsubFailed e)).
  - destruct (tripReturned i c); [|done]. injection Ha as <-. live_step c HL.
  - injection Ha as <-. live_step c HL.
Qed.

Lemma own_live c c' : exitInv c -> liveInv c -> ownStep c c' -> liveInv c'.
Proof.
  intros HI HL [g pc ch c1 Hg Ha|i q cb' q' Hi Hst]; [|by destruct HL].
  pose proof (li_role c HL g _ Hg) as Hr. pose proof (li_pcs c HL g _ Hg) as Hp.
  apply exitAction_acts in Ha as [_ Ha].
  destruct pc; cbn [pcAction] in Ha; try discriminate; try (by eapply shutdown_live);
    try (by eapply unsubscribe_live); try (by eapply watch_live);
    cbn in Ha, Hr, Hp; try (injection Ha as <-; live_step c HL; fail).
  - injection Ha as <-. destruct (li_callback c HL) as [cb ->]. live_step c HL.
  - unfold elect, claimNotify in Ha. destruct (notify c) eqn:En; injection Ha as <-; destruct msg; live_step c HL.
  - destruct msg; injection Ha as <-; live_step c HL.
Qed.

Lemma host_live c c' : liveInv c -> hostStep c c' -> liveInv c'.
Proof.
  intros HL [cb|cb|i r Hi|g Hg|b]; [| | | | by destruct HL].
  - by destruct HL.
  - unfold installDefault. destruct (shutdownCallback c); [done | by destruct HL].
  - by destruct HL.
  - apply live_spawn; try done; cbn; [|by left]. intros ->. by destruct (li_observer c HL) as [? E]; rewrite Hg in E.
Qed.

Lemma build_live cb : liveInv (Build (Some cb) NewCircuitBreaker).
Proof.
  split; cbn; try done; intros g pc; rewrite lookup_singleton; case_decide; try done;
    intros [= <-]; by subst.
Qed.

Lemma live_reachable cb c : rtc exitStep (Build (Some cb) NewCircuitBreaker) c -> exitInv c /\ liveInv c.
Proof.
  apply (rtc_ind_r (fun c => exitInv c /\ liveInv c)); [split; [apply build_inv | apply build_live]|].
  intros c1 c2 _ Hs [HI HL]. split; [by eapply exit_step|].
  destruct Hs as [Hs|Hs]; [by eapply own_live | by eapply host_live].
Qed.

(** ** At rest *)

(** No action of the consumer's own is possible. *)
Definition quiet c : Prop := forall c', ~ ownStep c c'.

Definition atRest pc : Prop :=
  match pc with Watching | Finished | Failed | UnsubSent => True | _ => False end.

Lemma quiet_calls c i q : exitInv c -> quiet c -> calls (circuitBreaker c) !! i = Some q -> q = Returned.
Proof.
  intros HI HQ Hi. destruct (decide (callMeasure q = 0%nat)) as [E|E]; [by destruct q|]. exfalso.
  destruct (call_acts unspecified _ i q (ei_breaker _ c HI) Hi) as (cb' & q' & Hs); [by intros ->|].
  by eapply HQ, CallActs.
Qed.

Lemma trip_returned c i :
  exitInv c -> quiet c -> is_Some (calls (circuitBreaker c) !! i) -> tripReturned i c = true.
Proof. intros HI HQ [q Hq]. unfold tripReturned. by rewrite Hq, (quiet_calls c i q HI HQ Hq). Qed.

Lemma fresh_trip c e : exists i c', startTrip i e c = Some c'.
Proof.
  exists (fresh (dom (calls (circuitBreaker c)))). unfold startTrip.
  rewrite (proj1 (not_elem_of_dom _ _) (is_fresh _)). by eexists.
Qed.

(** A goroutine is inside foreign code that has not returned. *)
Definition stuckIn c (g : Z) (f : Foreign) : Prop :=
  exists pc, goroutines c !! g = Some pc /\ waitsFor pc = Some f /\ busy c f = true.

Lemma waiting_stuck c g pc :
  goroutines c !! g = Some pc -> waiting hasBandwidth pc c = true -> exists f, stuckIn c g f /\ waitsFor pc = Some f.
Proof.
  intros Hg. unfold waiting. destruct (waitsFor pc) as [f|] eqn:Hf; [|done]. intros Hb. exists f. split; [by exists pc | done].
Qed.

Lemma quiet_rest c g pc :
  exitInv c -> quiet c -> goroutines c !! g = Some pc -> atRest pc \/ waiting hasBandwidth pc c = true.
Proof.
  intros HI HQ Hg. pose proof (ei_pcs _ c HI g pc Hg) as Hpc.
  destruct (waiting hasBandwidth pc c) eqn:Hw; [by right|]. left.
  assert (Hact : forall ch, pcAction drainTimeout hasBandwidth g pc ch c = None).
  { intros ch. destruct (pcAction _ _ g pc ch c) as [c'|] eqn:Ha; [|done]. exfalso. eapply (HQ c'), Act; [done|].
    unfold Exit.exitAction. by rewrite Hw. }
  clear Hw. destruct pc; cbn; try done; cbn in Hpc; try (by specialize (Hact (mkChoice true false None 0))).
  - specialize (Hact (mkChoice false false None (fresh (dom (goroutines c))))). cbn in Hact.
    by rewrite (proj1 (not_elem_of_dom _ _) (is_fresh _)) in Hact.
  - destruct (fresh_trip c drainTimeout) as (i & c1 & Ht). specialize (Hact (mkChoice false false None i)).
    cbn in Hact. by rewrite Ht in Hact.
  - specialize (Hact (mkChoice false false None 0)). cbn in Hact. by rewrite trip_returned in Hact.
  - destruct (fresh_trip c e) as (i & c1 & Ht). specialize (Hact (mkChoice false false None i)).
    cbn in Hact. by rewrite Ht in Hact.
  - specialize (Hact (mkChoice false false None 0)). cbn in Hact. by rewrite trip_returned in Hact.
Qed.

(** If the breaker was called, its message was sent, and the observer has read it; it
    has been through the election unless the rate limiter holds it. *)
Lemma quiet_tripped c i :
  exitInv c -> liveInv c -> quiet c -> is_Some (calls (circuitBreaker c) !! i) ->
  notify c = true \/ stuckIn c 0 LimiterStop.
Proof.
  intros HI HL HQ [q Hq]. destruct (li_observer c HL) as [pc Hpc].
  pose proof (li_pcs c HL 0 pc Hpc) as Hl. pose proof (li_role c HL 0 pc Hpc) as Hr.
  destruct (quiet_rest c 0 pc HI HQ Hpc) as [Hrest|(f & Hs & Hf)%(waiting_stuck c 0 pc Hpc)].
  2: { destruct pc; cbn in *; try done; try (by injection Hf as <-; right). }
  left. destruct pc; cbn in *; try done.
  exfalso. assert (Hread : readTriggered (circuitBreaker c) <> None).
  { destruct (ei_breaker _ c HI) as [(_ & _ & He)|(w & r & pw & Hw & HW & _)].
    - destruct (He i q Hq) as [r ->]. by pose proof (quiet_calls c i _ HI HQ Hq).
    - pose proof (quiet_calls c w pw HI HQ Hw) as ->. apply closed_holds; [apply HI | | done].
      destruct HW as (_ & _ & _ & _ & _ & Hc & _). done. }
  destruct (watchEmergency 0 false c) as [c'|] eqn:Ew.
  - by eapply (HQ c'), (Act _ _ _ c 0 Watching (mkChoice false false None 0)).
  - unfold watchEmergency in Ew. destruct (readTriggered (circuitBreaker c)) as [[m b]|]; [|done].
    by destruct (gracefulDone c && false).
Qed.

(** The foreign code a delivery may wait for; a drain and the adapter are given up on. *)
Definition beforeElection (f : Foreign) : Prop := f = LimiterStop \/ f = BandwidthSinks \/ f = MetricsSinks.

Lemma quiet_shutdown c g :
  exitInv c -> liveInv c -> quiet c -> g <> 0 -> is_Some (goroutines c !! g) ->
  notify c = true \/ exists g' f, stuckIn c g' f /\ beforeElection f.
Proof.
  intros HI HL HQ Hg [q Hq]. destruct (li_parent c HL g q Hq Hg) as (g' & pc & Hn & Hpc & Hu).
  pose proof (li_pcs c HL g' pc Hpc) as Hl. pose proof (li_role c HL g' pc Hpc) as Hr.
  destruct (quiet_rest c g' pc HI HQ Hpc) as [Hrest|(f & Hs & Hf)%(waiting_stuck c g' pc Hpc)].
  - destruct pc; cbn in *; try done; [|by left].
    destruct (ei_pcs _ c HI g' _ Hpc) as [i Hi].
    destruct (quiet_tripped c i HI HL HQ Hi) as [?|Hs]; [by left|]. right. exists 0, LimiterStop. split; [done | by left].
  - right. exists g', f. split; [done|]. unfold beforeElection.
    destruct pc; cbn in *; try done; try destruct hasBandwidth; simplify_eq; auto.
Qed.

(** ** Properties *)

(** C12: a consumer built with a shutdown callback tells the host of its end.  From
    any reachable state the consumer's own actions stop after at most [exitWork]
    steps, however the drains end, the timers fire, the goroutines interleave and
    foreign code stalls.  When they have stopped, every goroutine is done, or the
    observer waits for a trip, or it is inside foreign code that has not returned; if
    the breaker was called, the callback was called exactly once, unless the observer
    is held by the rate limiter's [Stop]; if [Shutdown] was called, the callback was
    called exactly once, unless a goroutine is held by the limiter's [Stop] or by the
    wait for a bandwidth or metrics sink.  A drain or an adapter that does not return
    holds nobody: [Shutdown] times out and trips the breaker. *)
Theorem ending_delivers cb c :
  rtc exitStep (Build (Some cb) NewCircuitBreaker) c ->
  (forall n c', nsteps ownStep n c c' -> (n <= exitWork c)%nat) /\
  (quiet c ->
     (forall g pc, goroutines c !! g = Some pc -> atRest pc \/ exists f, stuckIn c g f) /\
     ((exists i, is_Some (calls (circuitBreaker c) !! i)) ->
      length (notified c) = 1%nat \/ stuckIn c 0 LimiterStop) /\
     ((exists g, g <> 0 /\ is_Some (goroutines c !! g)) ->
      length (notified c) = 1%nat \/ exists g f, stuckIn c g f /\ beforeElection f)).
Proof.
  intros [HI HL]%live_reachable. split.
  - intros n c' Hn. clear HI HL. induction Hn as [|n c1 c2 c3 Hs _ IH]; [lia|]. pose proof (own_lowers _ _ Hs). lia.
  - intros HQ. assert (Hone : notify c = true -> length (notified c) = 1%nat).
    { intros Hn. pose proof (ei_slot _ c HI) as HS. unfold slotInv in HS. rewrite Hn, no_winner in HS; [lia|].
      intros g cb' msg Hg. by destruct (quiet_rest c g _ HI HQ Hg). }
    split_and!.
    + intros g pc Hg. destruct (quiet_rest c g pc HI HQ Hg) as [?|(f & Hs & _)%(waiting_stuck c g pc Hg)];
        [by left | right; by exists f].
    + intros [i Hi]. destruct (quiet_tripped c i HI HL HQ Hi); auto.
    + intros (g & Hg & Hs). destruct (quiet_shutdown c g HI HL HQ Hg Hs); auto.
Qed.

(** A state in which all has returned, the observer too, is at rest. *)
Definition over pc : bool := match pc with Finished | Failed | UnsubSent => true | _ => false end.

Lemma over_quiet c :
  map_Forall (fun _ pc => over pc = true) (goroutines c) ->
  map_Forall (fun _ q => callMeasure q = 0%nat) (calls (circuitBreaker c)) -> quiet c.
Proof.
  intros HG HC c' [g pc ch c1 Hg Ha|i q cb' q' Hi Hst].
  - pose proof (HG g pc Hg). apply exitAction_acts in Ha as [_ Ha]. by destruct pc.
  - pose proof (HC i q Hi). by destruct q.
Qed.
End ExitLive.

(** A [Shutdown] whose drain fails: the drain's goroutine trips the breaker, the
    observer delivers the reason, and the call of [Shutdown] loses the election. *)
Definition drainFails : Choice := mkChoice false false (Some 77) 9.
Definition failedDrain : list (@Event Z Z) :=
  ShutsDown 5 :: repeat (Turn 5 ready) 3 ++ repeat (Turn 6 drainFails) 2 ++ repeat (CallTurn 9) 6 ++
  repeat (Turn 6 ready) 2 ++ repeat (Turn 0 ready) 6 ++ repeat (Turn 5 ready) 5.
Definition failedDrainRun : option (@Consumer Z Z) := replay 0 1 true failedDrain (Build (Some 1) NewCircuitBreaker).

(** The same [Shutdown] once a metrics sink does not return: the observer still
    delivers the reason, and the call waits in the collector's [Stop]. *)
Definition sinkStalls : list (@Event Z Z) :=
  Busies (fun f => match f with MetricsSinks => true | _ => false end) ::
  ShutsDown 5 :: repeat (Turn 5 ready) 3 ++ repeat (Turn 6 drainFails) 2 ++ repeat (CallTurn 9) 6 ++
  repeat (Turn 6 ready) 2 ++ repeat (Turn 0 ready) 6 ++ repeat (Turn 5 ready) 2.
Definition sinkStallsRun : option (@Consumer Z Z) := replay 0 1 true sinkStalls (Build (Some 1) NewCircuitBreaker).

Lemma sinkStalls_waits :
  match sinkStallsRun with
  | Some c => notified c = [(1, Some 77)] /\ goroutines c !! 5 = Some (StoppingMetrics 1) /\ busy c MetricsSinks = true
  | None => False
  end.
Proof. vm_compute. split_and!; reflexivity. Qed.

Lemma ending_delivers_witness :
  match failedDrainRun with
  | Some c => notified c = [(1, Some 77)] /\ length (notified c) = 1%nat
  | None => False
  end.
Proof.
  destruct failedDrainRun as [c|] eqn:Ec; [|vm_compute in Ec; discriminate].
  destruct (ending_delivers 0 1 true 1 c (replay_reachable _ _ _ _ _ _ Ec)) as [_ Hq].
  vm_compute in Ec. injection Ec as <-. split; [reflexivity|].
  match type of Hq with ?Q -> _ => assert (HQ : Q) by (apply over_quiet; apply (bool_decide_unpack _); vm_compute; exact I) end.
  destruct (Hq HQ) as (_ & Ht & _).
  match type of Ht with ?E -> _ => assert (HE : E) by (exists 9; vm_compute; by eexists) end.
  destruct (Ht HE) as [Hn|(pc & _ & _ & Hb)]; [exact Hn | discriminate Hb].
Defined.
