(* ===== verification/Builder.v ===== *)
(** * The consumer builder ([demux_consumer_builder.go])

    [NewBuilder] checks the required arguments, the [With*] methods store the
    optional ones, and [Build] fills in the defaults and wires the components: their
    initial states are those of the files that model them.  [Build] writes to the
    builder it is called on, and what it wires refers to it: the envelope extractor
    reads the builder's [enrichContext] when it runs, and the shutdown callback is a
    pointer to the builder's field.  A panic is a value. *)
From S2P Require Import Prelude Types GoBytes License Config Committer.
From S2P Require Import Subscription CircuitBreaker Demux DemuxFacts DemuxTheorems Processor Collector Bandwidth Exit.
From Stdlib Require Import String.
From stdpp Require Import base gmap list.
Open Scope Z_scope.

(** ** [strings.TrimSpace(s) == ""] *)

(** The white space of Latin-1 that is one byte long. *)
Definition asciiSpace (c : Z) : bool := ((9 <=? c) && (c <=? 13)) || (c =? 32).

(** Every rune is white space, in UTF-8: U+0085, U+00A0, U+1680, U+2000 to U+200A,
    U+2028, U+2029, U+202F, U+205F and U+3000 besides the ASCII ones. *)
Fixpoint trimmedEmpty (s : bytes) : bool :=
  match s with
  | [] => true
  | 194 :: 133 :: s' | 194 :: 160 :: s' => trimmedEmpty s'
  | 225 :: 154 :: 128 :: s' | 226 :: 129 :: 159 :: s' | 227 :: 128 :: 128 :: s' => trimmedEmpty s'
  | 226 :: 128 :: c :: s' =>
      (((128 <=? c) && (c <=? 138)) || (c =? 168) || (c =? 169) || (c =? 175)) && trimmedEmpty s'
  | c :: s' => asciiSpace c && trimmedEmpty s'
  end.

Section Builder.
Context `{NX : Nexus}.
Context {ProcessMessage WriteDeadLetter ShutdownCallback Logger Sink BandwidthSink Service RateLimiter : Type}.

(** Defaults of other packages. *)
Variables (Background : Ctx) (NewDefaultLogger : Logger) (NoOpRateLimiter : RateLimiter).
(** [ed25519.Verify] *)
Variable Verify : bytes -> bytes -> bytes -> bool.

(** What the builder asks of an adapter's port. *)
Record BrokerPort := mkPort {
  portExtract : Payload -> Envelope;
  ConsumerGroup : string;
  isBandwidthPort : bool
}.

Definition Enricher := option Ctx -> Payload -> option Ctx.

(** An [ExtractEnvelope] function: the port's method, the application's, or the
    closure of [Build], which calls another and then the builder's enricher. *)
Inductive Extractor :=
| FromPort (p : BrokerPort)
| Custom (fn : Payload -> Envelope)
| Enriched (base : Extractor).

Inductive MetricsSink := noOpMetricsSink | UserSink (s : Sink).

Record ConsumerBuilder := mkBuilder {
  topicName : string;
  processMessage : ProcessMessage;
  writeDeadLetter : WriteDeadLetter;
  bShutdownCallback : option ShutdownCallback;
  logger : option Logger;
  metricsSink : option MetricsSink;
  extractEnvelope : option Extractor;
  enrichContext : option Enricher;
  demuxConfig : option DemuxConfig;
  bCtx : option Ctx;
  bandwidthMetricsSink : option BandwidthSink;
  bandwidthFlushInterval : Z;
  bService : option Service;
  overflowGuard : option Z;                   (* the capacity of the shared channel *)
  rateLimiter : option RateLimiter;
  licenseKeyFn : option GetKeyFn
}.

Inductive BuilderPanic :=
| TopicNameEmpty
| ProcessMessageNil
| DeadLetterNil
| ConfigPanic (e : ConfigError)
| NilRateLimiter.

Definition NewBuilder (topic : string) (process : option ProcessMessage) (deadLetter : option WriteDeadLetter)
    : BuilderPanic + ConsumerBuilder :=
  if trimmedEmpty (lit topic) then inl TopicNameEmpty
  else match process, deadLetter with
  | None, _ => inl ProcessMessageNil
  | _, None => inl DeadLetterNil
  | Some p, Some d =>
      inr (mkBuilder topic p d None None None None None None None None 0 None None (Some NoOpRateLimiter) None)
  end.

(** ** The fluent setters *)

Inductive BuilderOption :=
| WithMetricsSink (s : option Sink)
| WithBandwidthMetricsSink (s : option BandwidthSink)
| WithBandwidthFlushInterval (d : Z)
| WithLogger (l : option Logger)
| WithDemuxConfig (c : DemuxConfig)
| WithContext (c : option Ctx)
| WithOverflowGuard (guard : option Z)
| WithExtractEnvelope (fn : option (Payload -> Envelope))
| WithEnrichContext (fn : option Enricher)
| WithShutdownCallback (cb : option ShutdownCallback)
| WithRateLimiter (l : option RateLimiter)
| WithService (s : Service).

Definition applyWith (b : ConsumerBuilder) (o : BuilderOption) : ConsumerBuilder :=
  let '(mkBuilder topic process dead cb log sink extract enrich cfg ctx bw flush svc guard limiter keyFn) := b in
  match o with
  | WithMetricsSink s => mkBuilder topic process dead cb log (UserSink <$> s) extract enrich cfg ctx bw flush svc guard limiter keyFn
  | WithBandwidthMetricsSink s => mkBuilder topic process dead cb log sink extract enrich cfg ctx s flush svc guard limiter keyFn
  | WithBandwidthFlushInterval d => mkBuilder topic process dead cb log sink extract enrich cfg ctx bw d svc guard limiter keyFn
  | WithLogger l => mkBuilder topic process dead cb l sink extract enrich cfg ctx bw flush svc guard limiter keyFn
  | WithDemuxConfig c => mkBuilder topic process dead cb log sink extract enrich (Some c) ctx bw flush svc guard limiter keyFn
  | WithContext c => mkBuilder topic process dead cb log sink extract enrich cfg c bw flush svc guard limiter keyFn
  | WithOverflowGuard g => mkBuilder topic process dead cb log sink extract enrich cfg ctx bw flush svc g limiter keyFn
  | WithExtractEnvelope fn => mkBuilder topic process dead cb log sink (Custom <$> fn) enrich cfg ctx bw flush svc guard limiter keyFn
  | WithEnrichContext fn => mkBuilder topic process dead cb log sink extract fn cfg ctx bw flush svc guard limiter keyFn
  | WithShutdownCallback c => mkBuilder topic process dead c log sink extract enrich cfg ctx bw flush svc guard limiter keyFn
  | WithRateLimiter l => mkBuilder topic process dead cb log sink extract enrich cfg ctx bw flush svc guard l keyFn
  | WithService s => mkBuilder topic process dead cb log sink extract enrich cfg ctx bw flush (Some s) guard limiter keyFn
  end.

(** [TopicName] *)
Definition TopicName (b : ConsumerBuilder) : string := topicName b.

(** ** What [Build] wires *)

Record SinkContext := mkSinkContext { scService : option Service; scTopicName : string; scConsumerGroup : string }.

(** The consumer's shutdown callback: a pointer to the builder's field, or one
    registered later. *)
Inductive CallbackRef := BuilderField | Registered (cb : ShutdownCallback).

Inductive BuildLog := BandwidthUnsupported | LicenseLine (l : LicenseLog).

Record Wired := mkWired {
  wConfig : DemuxConfig;
  wContext : Ctx;
  wLogger : Logger;
  wProcess : ProcessMessage;
  wDeadLetter : WriteDeadLetter;
  wExtract : Extractor;
  wWarmItems : Z;                             (* the items [NewWorkItemsPool] warms *)
  wBreaker : @CircuitBreaker string;
  wSinkContext : SinkContext;
  wMetricsSink : MetricsSink;
  wCollector : Collector;
  wBandwidth : option (@Aggregator Metrics Service);
  wCommitter : Committer;
  wGuard : Chan unit;
  wOverflow : option Z;
  wDemux : Demux;
  wSubscription : Subscription;
  wExit : @Exit.Consumer CallbackRef string;
  wLimiter : RateLimiter;
  wLogs : list BuildLog
}.

(** [cap] of a channel that may be nil *)
Definition capOrZero (g : option Z) : Z := default 0 g.

(** The options passed to [NewAggregator]. *)
Definition aggregatorOptions (b : ConsumerBuilder) : list (@AggregatorOption Service) :=
  (if bandwidthFlushInterval b >? 0 then [WithFlushInterval (bandwidthFlushInterval b)] else []) ++
  (match bService b with Some s => [Bandwidth.WithService (Some s)] | None => [] end).

(** The builder after the defaults of [Build]. *)
Definition withDefaults (port : BrokerPort) (cfg : DemuxConfig) (b : ConsumerBuilder) : ConsumerBuilder :=
  let extract := default (FromPort port) (extractEnvelope b) in
  mkBuilder (topicName b) (processMessage b) (writeDeadLetter b) (bShutdownCallback b)
    (Some (default NewDefaultLogger (logger b)))
    (Some (default noOpMetricsSink (metricsSink b)))
    (Some (match enrichContext b with Some _ => Enriched extract | None => extract end))
    (enrichContext b) (Some cfg) (Some (default Background (bCtx b)))
    (bandwidthMetricsSink b) (bandwidthFlushInterval b) (bService b) (overflowGuard b) (rateLimiter b)
    (Some (default GetPublicKey (licenseKeyFn b))).

(** The components, from the completed builder. *)
Definition wire (token : bytes) (now : Time) (clock : Z) (port : BrokerPort) (cfg : DemuxConfig)
    (limiter : RateLimiter) (extract : Extractor) (sink : MetricsSink) (ctx : Ctx) (log : Logger)
    (keyFn : GetKeyFn) (b : ConsumerBuilder) : Wired :=
  let guard := makeChan (ConcurrentKeys cfg) in
  let supported := isBandwidthPort port in
  mkWired cfg ctx log (processMessage b) (writeDeadLetter b) extract
    (CalcWorkItemPoolSize cfg)
    NewCircuitBreaker
    (mkSinkContext (bService b) (topicName b) (ConsumerGroup port))
    sink
    (NewCollector (CalculateCollectBufferSize (ConcurrentKeys cfg) (PerKeyBufferLen cfg)))
    (match bandwidthMetricsSink b with
     | Some _ => if supported then Some (NewAggregator (aggregatorOptions b)) else None
     | None => None
     end)
    (NewCommitter (ConcurrentKeys cfg) (Config.CommitIngestChannelLen cfg) clock)
    guard
    (overflowGuard b)
    (NewDemux (PerKeyBufferLen cfg) (Z.to_nat (WorkerShardsCount cfg)) (chCap guard + capOrZero (overflowGuard b))
       (Z.to_nat (CalcMinimumIdleWorkers cfg)))
    (NewSubscription (topicName b))
    (Exit.Build (match bShutdownCallback b with Some _ => Some BuilderField | None => None end) NewCircuitBreaker)
    limiter
    ((match bandwidthMetricsSink b with Some _ => if supported then [] else [BandwidthUnsupported] | None => [] end)
     ++ map LicenseLine (licenseLogs (licenseStatus Verify token now keyFn))).

(** [Build]: the builder it leaves, and the consumer. *)
Definition Build (skipValidation : bool) (token : bytes) (now : Time) (clock : Z) (port : BrokerPort)
    (b : ConsumerBuilder) : BuilderPanic + (ConsumerBuilder * Wired) :=
  match SetDemuxConfigDefaults skipValidation (default zeroConfig (demuxConfig b)) with
  | inl e => inl (ConfigPanic e)
  | inr cfg =>
      match rateLimiter b with
      | None => inl NilRateLimiter
      | Some limiter =>
          let b' := withDefaults port cfg b in
          let extract := default (FromPort port) (extractEnvelope b') in
          inr (b', wire token now clock port cfg limiter extract
                     (default noOpMetricsSink (metricsSink b')) (default Background (bCtx b'))
                     (default NewDefaultLogger (logger b')) (default GetPublicKey (licenseKeyFn b')) b')
      end
  end.

(** The envelope a wired extractor returns, with the enricher the builder holds when
    it runs; calling a nil enricher panics. *)
Fixpoint runExtract (enrich : option Enricher) (e : Extractor) (payload : Payload) : Outcome Envelope :=
  match e with
  | FromPort p => Returns (portExtract p payload)
  | Custom fn => Returns (fn payload)
  | Enriched base =>
      match runExtract enrich base payload, enrich with
      | Returns env, Some f =>
          Returns (mkEnvelope (eKey env) (ePartition env) (eOffset env) (f (eCtx env) payload))
      | _, _ => Panics
      end
  end.

(** [Build] called on the same builder for each port. *)
Fixpoint buildAll (skipValidation : bool) (token : bytes) (now : Time) (clock : Z) (ports : list BrokerPort)
    (b : ConsumerBuilder) : BuilderPanic + (ConsumerBuilder * list Wired) :=
  match ports with
  | [] => inr (b, [])
  | port :: ports' =>
      match Build skipValidation token now clock port b with
      | inl e => inl e
      | inr (b', w) =>
          match buildAll skipValidation token now clock ports' b' with
          | inl e => inl e
          | inr (b'', ws) => inr (b'', w :: ws)
          end
      end
  end.

(** ** Lemmas *)

(** Borrowing from an empty pool creates workers. *)
Lemma borrowN_fresh n bufferLen (s : WorkerShard) :
  queued (workerPool s) = [] ->
  let '(ids, s') := borrowN n bufferLen s in
  ids = seqZ (nextId s) (Z.of_nat n) /\ workerPool s' = workerPool s /\
  (forall id, nextId s <= id < nextId s + Z.of_nat n -> heap s' !! id = Some (NewWorker bufferLen)) /\
  (forall id, id < nextId s -> heap s' !! id = heap s !! id).
Proof.
  revert s. induction n as [|n IH]; intros s Hs; cbn [borrowN].
  { split_and!; [by rewrite seqZ_nil by lia | done | intros; lia | done]. }
  unfold BorrowWorker, tryRecv. rewrite Hs. cbn [createWorker].
  set (s1 := mkShard _ _ _ _ _ _). specialize (IH s1 Hs). destruct (borrowN n bufferLen s1) as [ids s2].
  destruct IH as (-> & Hp & Hin & Hout). subst s1. cbn [nextId workerPool heap] in *. split_and!.
  - rewrite (seqZ_cons (nextId s)) by lia. do 2 f_equal. lia.
  - done.
  - intros id Hid. destruct (decide (id = nextId s)) as [-> | Hne].
    + rewrite Hout by lia. by rewrite lookup_insert_eq.
    + apply Hin. lia.
  - intros id Hid. rewrite Hout by lia. rewrite lookup_insert_ne by lia. done.
Qed.

(** Returning workers to a pool with room keeps them all. *)
Lemma returnWorkers_room ids (s : WorkerShard) :
  chLen (workerPool s) + Z.of_nat (length ids) <= chCap (workerPool s) ->
  let s' := foldl (fun s id => ReturnWorker id s) s ids in
  queued (workerPool s') = queued (workerPool s) ++ ids /\ heap s' = heap s.
Proof.
  revert s. induction ids as [|id ids IH]; intros s Hroom; cbn [foldl length] in *.
  { by rewrite app_nil_r. }
  assert (E : ReturnWorker id s = setPool (mkChan (queued (workerPool s) ++ [id]) (chCap (workerPool s))) s).
  { unfold ReturnWorker, trySend. by destruct (Z.ltb_spec (chLen (workerPool s)) (chCap (workerPool s))); [|lia]. }
  rewrite E. destruct (IH (setPool (mkChan (queued (workerPool s) ++ [id]) (chCap (workerPool s))) s)) as [Hq Hh].
  - unfold chLen in *. cbn [workerPool setPool queued chCap]. rewrite length_app. simpl. lia.
  - split; [|done]. rewrite Hq. cbn [workerPool setPool queued]. by rewrite <- app_assoc.
Qed.

(** A new shard whose pool has room keeps every worker it warmed, running. *)
Lemma NewWorkerShard_warm bufferLen poolSize minIdle :
  Z.of_nat minIdle <= poolSize ->
  let s := NewWorkerShard bufferLen poolSize minIdle in
  queued (workerPool s) = seqZ 0 (Z.of_nat minIdle) /\
  forall id, id ∈ queued (workerPool s) -> heap s !! id = Some (NewWorker bufferLen).
Proof.
  intros Hle. unfold NewWorkerShard. set (s0 := mkShard ∅ ∅ (makeChan poolSize) 0 false 0).
  pose proof (borrowN_fresh minIdle bufferLen s0 eq_refl) as Hb.
  destruct (borrowN minIdle bufferLen s0) as [ids s1]. destruct Hb as (-> & Hp & Hin & _).
  destruct (returnWorkers_room (seqZ (nextId s0) (Z.of_nat minIdle)) s1) as [Hq Hh].
  { rewrite Hp. unfold chLen. rewrite length_seqZ. simpl. lia. }
  rewrite Hq, Hh, Hp. cbn [s0 workerPool makeChan queued nextId app]. split; [done|].
  intros id Hid%elem_of_seqZ. apply Hin. simpl. lia.
Qed.

(** *** Extraction *)

Definition enrichTimes (n : nat) (f : Enricher) (payload : Payload) (env : Envelope) : Envelope :=
  Nat.iter n (fun env => mkEnvelope (eKey env) (ePartition env) (eOffset env) (f (eCtx env) payload)) env.

Definition onReturn {A B} (f : A -> B) (o : Outcome A) : Outcome B :=
  match o with Returns a => Returns (f a) | Panics => Panics end.

Lemma runExtract_iter n f e payload :
  runExtract (Some f) (Nat.iter n Enriched e) payload =
  onReturn (enrichTimes n f payload) (runExtract (Some f) e payload).
Proof.
  induction n as [|n IH]; simpl; [by destruct (runExtract (Some f) e payload)|].
  rewrite IH. by destruct (runExtract (Some f) e payload).
Qed.

(** *** Successive builds *)

(** How often the extractor is wrapped after [n] builds. *)
Definition wraps (b : ConsumerBuilder) (n : nat) : nat :=
  match enrichContext b with Some _ => n | None => 0 end.

(** What the application plugs in, with the defaults for what it leaves out. *)
Record Plugged := mkPlugged {
  pProcess : ProcessMessage;
  pDeadLetter : WriteDeadLetter;
  pSink : MetricsSink;
  pLogger : Logger;
  pContext : Ctx;
  pLimiter : option RateLimiter;
  pService : option Service;
  pTopic : string
}.

Definition asked (b : ConsumerBuilder) : Plugged :=
  mkPlugged (processMessage b) (writeDeadLetter b) (default noOpMetricsSink (metricsSink b))
    (default NewDefaultLogger (logger b)) (default Background (bCtx b)) (rateLimiter b) (bService b) (topicName b).

Definition received (w : Wired) : Plugged :=
  mkPlugged (wProcess w) (wDeadLetter w) (wMetricsSink w) (wLogger w) (wContext w) (Some (wLimiter w))
    (scService (wSinkContext w)) (scTopicName (wSinkContext w)).

(** The builder after [n] builds, the first of them for [first]. *)
Record builtBy (skip : bool) (first : BrokerPort) (b b' : ConsumerBuilder) (n : nat) : Prop := {
  bb_config : SetDemuxConfigDefaults skip (default zeroConfig (demuxConfig b)) =
              SetDemuxConfigDefaults skip (default zeroConfig (demuxConfig b'));
  bb_extract : default (FromPort first) (extractEnvelope b') =
               Nat.iter (wraps b n) Enriched (default (FromPort first) (extractEnvelope b));
  bb_some : n <> O -> is_Some (extractEnvelope b');
  bb_enrich : enrichContext b' = enrichContext b;
  bb_limiter : rateLimiter b' = rateLimiter b;
  bb_bandwidth : bandwidthMetricsSink b' = bandwidthMetricsSink b;
  bb_flush : bandwidthFlushInterval b' = bandwidthFlushInterval b;
  bb_asked : asked b' = asked b;
  bb_overflow : overflowGuard b' = overflowGuard b
}.

Lemma builtBy_refl skip first b : builtBy skip first b b 0.
Proof. split; try done. unfold wraps. by destruct (enrichContext b). Qed.

Lemma Build_ok skip token now clock port b b' w :
  Build skip token now clock port b = inr (b', w) ->
  SetDemuxConfigDefaults skip (default zeroConfig (demuxConfig b)) = inr (wConfig w) /\
  b' = withDefaults port (wConfig w) b /\ extractEnvelope b' = Some (wExtract w).
Proof.
  unfold Build. destruct (SetDemuxConfigDefaults _ _) as [e|cfg]; [done|].
  destruct (rateLimiter b); [|done]. intros [= <- <-]. done.
Qed.

Lemma Build_received skip token now clock port b b' w :
  Build skip token now clock port b = inr (b', w) -> received w = asked b.
Proof.
  unfold Build, asked. destruct (SetDemuxConfigDefaults _ _) as [e|cfg]; [done|].
  destruct (rateLimiter b); [|done]. intros [= _ <-]. done.
Qed.

Lemma builtBy_next skip first token now clock port b b1 b2 w n :
  builtBy skip first b b1 n -> (n = O -> port = first) ->
  Build skip token now clock port b1 = inr (b2, w) -> builtBy skip first b b2 (S n).
Proof.
  intros [Hc He Hs Hen Hl Hb Hf Ha Ho] Hp HB. destruct (Build_ok _ _ _ _ _ _ _ _ HB) as (Hcfg & -> & _).
  assert (Hext : default (FromPort port) (extractEnvelope b1) = default (FromPort first) (extractEnvelope b1)).
  { destruct n; [by rewrite Hp|]. by destruct (Hs ltac:(done)) as [? ->]. }
  split; try done; cbn [withDefaults demuxConfig extractEnvelope default].
  - rewrite Hc, Hcfg. symmetry. by eapply defaults_again.
  - rewrite Hext, He, Hen. unfold wraps. by destruct (enrichContext b).
Qed.

Lemma buildAll_at skip token now clock first ports b0 b n b' ws :
  builtBy skip first b0 b n -> (n = O -> head ports = Some first) ->
  buildAll skip token now clock ports b = inr (b', ws) ->
  enrichContext b' = enrichContext b0 /\
  forall k w, ws !! k = Some w -> exists port b1 b2,
    ports !! k = Some port /\ builtBy skip first b0 b1 (n + k) /\ builtBy skip first b0 b2 (S (n + k)) /\
    Build skip token now clock port b1 = inr (b2, w).
Proof.
  revert b n ws. induction ports as [|port ports IH]; intros b n ws Hb Hn; cbn [buildAll].
  { intros [= <- <-]. split; [apply Hb|]. done. }
  destruct (Build skip token now clock port b) as [e|[b1 w1]] eqn:EB; [done|].
  destruct (buildAll skip token now clock ports b1) as [e|[b2 ws2]] eqn:EA; [done|]. intros [= <- <-].
  assert (Hb1 : builtBy skip first b0 b1 (S n)).
  { eapply builtBy_next; [done| |done]. intros ->. by specialize (Hn eq_refl) as [= ->]. }
  destruct (IH b1 (S n) ws2 Hb1 ltac:(done) EA) as [He Hws]. split; [done|].
  intros [|k] w Hw; cbn in Hw.
  - injection Hw as <-. exists port, b, b1. rewrite Nat.add_0_r. done.
  - destruct (Hws k w Hw) as (p & c1 & c2 & Hp & H1 & H2 & HB). exists p, c1, c2.
    rewrite Nat.add_succ_r. done.
Qed.

(** Building fails for the configuration or a nil rate limiter, and for nothing
    else: not for the license, nor the bandwidth sink. *)
Lemma Build_total skip token now clock port b :
  (exists r, Build skip token now clock port b = inr r) <->
  (exists cfg, SetDemuxConfigDefaults skip (default zeroConfig (demuxConfig b)) = inr cfg) /\ rateLimiter b <> None.
Proof.
  unfold Build. destruct (SetDemuxConfigDefaults _ _) as [e|cfg].
  - split; [by intros [? ?] | by intros [[? ?] _]].
  - destruct (rateLimiter b); split; try (by intros [? ?]); eauto.
Qed.

Lemma buildAll_total skip token now clock first ports b0 b n :
  builtBy skip first b0 b n -> (n = O -> head ports = Some first) ->
  (exists cfg, SetDemuxConfigDefaults skip (default zeroConfig (demuxConfig b0)) = inr cfg) -> rateLimiter b0 <> None ->
  exists r, buildAll skip token now clock ports b = inr r.
Proof.
  intros Hb Hn Hc Hl. revert b n Hb Hn. induction ports as [|port ports IH]; intros b n Hb Hn; cbn [buildAll]; [eauto|].
  destruct (proj2 (Build_total skip token now clock port b)) as [[b1 w1] EB].
  { rewrite <- (bb_config _ _ _ _ _ Hb), (bb_limiter _ _ _ _ _ Hb). done. }
  rewrite EB. destruct (IH b1 (S n)) as [[b2 ws] ->]; [|done|eauto].
  eapply builtBy_next; [done| |done]. intros ->. by specialize (Hn eq_refl) as [= ->].
Qed.

(** ** Properties *)

(** The workers of a new engine: as many shards as configured, each with the warmed
    workers idle in its pool, and running. *)
Definition warmedUp (cfg : DemuxConfig) (d : Demux) : Prop :=
  Z.of_nat (length (workerShards d)) = WorkerShardsCount cfg /\
  Forall (fun s => chLen (workerPool s) = CalcMinimumIdleWorkers cfg /\
            forall id, id ∈ queued (workerPool s) -> heap s !! id = Some (NewWorker (PerKeyBufferLen cfg)))
    (workerShards d).

Lemma wired_warm skip token now clock port b b' w :
  Build skip token now clock port b = inr (b', w) -> 0 <= capOrZero (overflowGuard b) -> warmedUp (wConfig w) (wDemux w).
Proof.
  intros HB Ho. destruct (Build_ok _ _ _ _ _ _ _ _ HB) as (Hcfg & -> & _).
  destruct (defaults_positive _ _ _ Hcfg) as [Hk Hs].
  pose proof (CalcMinimumIdleWorkers_le _ Hk Hs) as Hmin.
  unfold Build in HB. rewrite Hcfg in HB. destruct (rateLimiter b); [|done]. injection HB as HB.
  assert (Ed : wDemux w = NewDemux (PerKeyBufferLen (wConfig w)) (Z.to_nat (WorkerShardsCount (wConfig w)))
    (ConcurrentKeys (wConfig w) + capOrZero (overflowGuard b)) (Z.to_nat (CalcMinimumIdleWorkers (wConfig w)))).
  { rewrite <- HB. done. }
  clear HB. rewrite Ed. split.
  - cbn [NewDemux workerShards]. rewrite length_replicate. lia.
  - apply Forall_replicate. destruct (NewWorkerShard_warm (PerKeyBufferLen (wConfig w))
      (ConcurrentKeys (wConfig w) + capOrZero (overflowGuard b)) (Z.to_nat (CalcMinimumIdleWorkers (wConfig w)))) as [Hq Hh]; [lia|].
    split; [|done]. unfold chLen. rewrite Hq, length_seqZ. lia.
Qed.

Lemma wired_bandwidth skip token now clock port b b' w :
  Build skip token now clock port b = inr (b', w) ->
  wBandwidth w = match bandwidthMetricsSink b with
                 | Some _ => if isBandwidthPort port then Some (NewAggregator (aggregatorOptions b)) else None
                 | None => None
                 end.
Proof.
  unfold Build. destruct (SetDemuxConfigDefaults _ _) as [e|cfg]; [done|].
  destruct (rateLimiter b); [|done]. intros [= _ <-]. done.
Qed.

Lemma aggregator_interval b :
  flushInterval (Packet := Metrics) (NewAggregator (aggregatorOptions b)) =
  if bandwidthFlushInterval b >? 0 then bandwidthFlushInterval b else defaultFlushInterval.
Proof.
  unfold aggregatorOptions, NewAggregator. destruct (bandwidthFlushInterval b >? 0) eqn:E, (bService b);
    cbn [foldl applyOption app]; rewrite ?E; done.
Qed.

(** C30: what a builder builds.  [Build] panics for an invalid configuration or a
    nil rate limiter and for nothing else.  Called on one builder for several ports,
    every consumer has the validated configuration and the functions, sink, logger,
    context, rate limiter, service and topic the application gave (or their
    defaults); its shards are warmed up, every worker idle and running; bandwidth
    telemetry is on exactly when a sink is configured and the port supports it, at
    the interval asked for or every minute.
    The consumer of the [k]-th call extracts the envelope with the application's
    extractor, or with the FIRST port's, and its context has been enriched [k]
    times: once for the first consumer. *)
Theorem builds_wire skip token now clock first ports b :
  0 <= capOrZero (overflowGuard b) ->
  ((exists r, buildAll skip token now clock (first :: ports) b = inr r) <->
   (exists cfg, SetDemuxConfigDefaults skip (default zeroConfig (demuxConfig b)) = inr cfg) /\
   rateLimiter b <> None) /\
  forall b' ws k w, buildAll skip token now clock (first :: ports) b = inr (b', ws) -> ws !! k = Some w ->
    SetDemuxConfigDefaults skip (default zeroConfig (demuxConfig b)) = inr (wConfig w) /\
    received w = asked b /\
    warmedUp (wConfig w) (wDemux w) /\
    (forall a, wBandwidth w = Some a ->
       flushInterval a = if bandwidthFlushInterval b >? 0 then bandwidthFlushInterval b else defaultFlushInterval) /\
    (forall port, (first :: ports) !! k = Some port ->
       (is_Some (wBandwidth w) <-> is_Some (bandwidthMetricsSink b) /\ isBandwidthPort port = true)) /\
    (forall payload, runExtract (enrichContext b') (wExtract w) payload =
       let base := runExtract (enrichContext b) (default (FromPort first) (extractEnvelope b)) payload in
       match enrichContext b with
       | Some f => onReturn (enrichTimes (S k) f payload) base
       | None => base
       end).
Proof.
  intros Ho. split.
  - split; [|intros [Hc Hl]; by apply (buildAll_total skip token now clock first _ b b 0 (builtBy_refl _ _ _))].
    intros [r Hr]. cbn [buildAll] in Hr. apply (proj1 (Build_total skip token now clock first b)).
    destruct (Build skip token now clock first b) as [e|x]; [done|by exists x].
  - intros b' ws k w HA Hw.
    destruct (buildAll_at skip token now clock first (first :: ports) b b 0 b' ws (builtBy_refl _ _ _) (fun _ => eq_refl) HA) as [He Hws].
    destruct (Hws k w Hw) as (port & b1 & b2 & Hport & H1 & H2 & HB). cbn [Nat.add] in *.
    destruct (Build_ok _ _ _ _ _ _ _ _ HB) as (Hcfg & _ & Hx). split_and!.
    + by rewrite (bb_config _ _ _ _ _ H1).
    + by rewrite (Build_received _ _ _ _ _ _ _ _ HB), (bb_asked _ _ _ _ _ H1).
    + eapply wired_warm; [done|]. by rewrite (bb_overflow _ _ _ _ _ H1).
    + intros a. rewrite (wired_bandwidth _ _ _ _ _ _ _ _ HB). destruct (bandwidthMetricsSink b1); [|done].
      destruct (isBandwidthPort port); [|done]. intros [= <-].
      by rewrite aggregator_interval, (bb_flush _ _ _ _ _ H1).
    + intros p Hp. rewrite Hport in Hp. injection Hp as <-.
      rewrite (wired_bandwidth _ _ _ _ _ _ _ _ HB), (bb_bandwidth _ _ _ _ _ H1).
      destruct (bandwidthMetricsSink b), (isBandwidthPort port); unfold is_Some; naive_solver.
    + intros payload. rewrite He. pose proof (bb_extract _ _ _ _ _ H2) as Hex. rewrite Hx in Hex. simpl in Hex.
      rewrite Hex. unfold wraps. destruct (enrichContext b) as [f|]; [|done]. apply (runExtract_iter (S k)).
Qed.
End Builder.

(** Two ports and one builder, whose enricher counts its calls in the context. *)
Definition countingNexus : Nexus := {|
  Payload := Z; Ctx := nat; UsedOverflow := 1; DeadLetter := 2; FrameworkReserved := 255;
  SetOrphaned := fun t => t; SetCommitBuffered := fun t => t; SetFirstAfterRebalance := fun t => t;
  SetUsedOverflow := fun t => Z.lor t 1; SetProcessPanic := fun t => t; SetProcessError := fun t => t;
  SetDeadLetter := fun t => Z.lor t 2; AddCustomTraits := fun t _ => t |}.

Definition portOf (group : string) (partition : Z) : @BrokerPort countingNexus :=
  mkPort (NX := countingNexus) (fun offset => mkEnvelope (NX := countingNexus) "order-7" partition offset (Some O))
    group true.
Definition portA : @BrokerPort countingNexus := portOf "a" 1.
Definition portB : @BrokerPort countingNexus := portOf "b" 2.

Definition countCalls : @Enricher countingNexus := fun ctx _ => S <$> ctx.

Definition testBuilder : Type := @ConsumerBuilder countingNexus unit unit Z unit Z Z Z unit.

Definition builder0 : testBuilder :=
  match NewBuilder (NX := countingNexus) tt "orders" (Some tt) (Some tt) with
  | inr b => foldl applyWith b
      [WithEnrichContext (Some countCalls); WithBandwidthMetricsSink (Some 1); WithBandwidthFlushInterval 7;
       WithDemuxConfig smallConfig; WithShutdownCallback (Some 3)]
  | inl _ => mkBuilder EmptyString tt tt None None None None None None None None 0 None None None None
  end.

Definition twoBuilds := buildAll (NX := countingNexus) O tt toyVerify false [] at1500 0 [portA; portB] builder0.

Definition consumerAt (k : nat) :=
  match twoBuilds with inr (_, ws) => ws !! k | inl _ => None end.
Definition builderAfter : testBuilder := match twoBuilds with inr (b, _) => b | inl _ => builder0 end.

(** The second consumer reads the partition of the first port, and its context was
    enriched twice. *)
Lemma builds_wire_witness :
  exists w, consumerAt 1 = Some w /\
    runExtract (enrichContext builderAfter) (wExtract w) 40 =
      Returns (mkEnvelope (NX := countingNexus) "order-7" 1 40 (Some 2%nat)).
Proof.
  destruct (consumerAt 1) as [w|] eqn:E; [|by vm_compute in E]. exists w. split; [done|].
  assert (Hb : exists ws, twoBuilds = inr (builderAfter, ws) /\ ws !! 1%nat = Some w).
  { unfold builderAfter, consumerAt in *. destruct twoBuilds as [e|[b ws]]; [done|]. by exists ws. }
  destruct Hb as (ws & Hb & Hw).
  destruct (builds_wire (NX := countingNexus) O tt toyVerify false [] at1500 0 portA [portB] builder0
              ltac:(vm_compute; discriminate)) as [_ H].
  destruct (H builderAfter ws 1%nat w Hb Hw) as (_ & _ & _ & _ & _ & Hx). rewrite Hx. reflexivity.
Defined.
