(* ===== verification/Assembly.v ===== *)
(** * From the builder to the broker

    [Build] makes the components' initial states; a consumer made of them is the
    start of an [Engine], with the limits of the validated configuration. *)
From S2P Require Import Prelude Types GoBytes License Config RingBuffer Tracker Committer TrackerFacts Prev Subscription.
From S2P Require Import World WorldInv WorldSteps Worker Demux DemuxFacts DemuxTheorems DemuxItems Processor.
From S2P Require Import Engine EngineRefines EngineOrder EngineTheorems Builder Run.
From Stdlib Require Import String.
From stdpp Require Import base gmap list relations.
Open Scope Z_scope.

Section Assembly.
Context `{NX : Nexus} `{NXok : !NexusOk NX} `{RT : GoRuntime} `{RTok : !GoRuntimeOk RT}.
Context {ProcessMessage WriteDeadLetter ShutdownCallback Logger Sink BandwidthSink Service RateLimiter : Type}.
Variables (Background : Ctx) (NewDefaultLogger : Logger).
Variable Verify : bytes -> bytes -> bytes -> bool.
Variable R : Z -> Z -> Prop.
Variable exact : Prop.

Abbreviation Wired := (@Wired NX ProcessMessage WriteDeadLetter ShutdownCallback Logger Sink Service RateLimiter).
Abbreviation ConsumerBuilder :=
  (@ConsumerBuilder NX ProcessMessage WriteDeadLetter ShutdownCallback Logger Sink BandwidthSink Service RateLimiter).

(** The consumer before its first step: the broker's positions, and the records
    already processed, are given. *)
Definition builtEngine (w : Wired) (broker : Z -> Z) (done : Z -> Z -> Prop) : Engine :=
  mkEngine (mkWorld (wCommitter w) IngestIdle (wSubscription w) NewPartitionOffsets ∅ [] [] [] ∅ broker done)
    (wDemux w) None true [] done.

Lemma built_fresh skip token now clock port (b b' : ConsumerBuilder) (w : Wired) broker done :
  Build Background NewDefaultLogger Verify skip token now clock port b = inr (b', w) ->
  (forall p r, R p r -> r < broker p -> done p r) ->
  freshEngine R (PerKeyBufferLen (wConfig w)) (Z.to_nat (WorkerShardsCount (wConfig w)))
    (ConcurrentKeys (wConfig w) + capOrZero (overflowGuard b)) (Z.to_nat (CalcMinimumIdleWorkers (wConfig w)))
    (builtEngine w broker done).
Proof.
  intros HB Hd. unfold Build in HB. destruct (SetDemuxConfigDefaults _ _) as [err|cfg]; [done|].
  destruct (rateLimiter b); [|done]. injection HB as <- <-. by split; [split | ..].
Qed.

(** C4: a built consumer, end to end.  Whatever a builder was configured with, if
    [Build] returns then every run of the consumer commits only past records that its
    application handled or another member had processed, and never has more handlers
    running than the configured number of concurrent keys and the capacity of the
    shared overflow guard together. *)
Theorem built_consumer_safe skip token now clock port (b b' : ConsumerBuilder) (w : Wired) broker done e :
  Build Background NewDefaultLogger Verify skip token now clock port b = inr (b', w) ->
  0 <= capOrZero (overflowGuard b) ->
  (forall p r, R p r -> 0 <= r) -> (forall p r, R p r -> r < broker p -> done p r) ->
  rtc (engineStep R exact (PerKeyBufferLen (wConfig w)) (ConcurrentKeys (wConfig w)) (capOrZero (overflowGuard b)))
    (builtEngine w broker done) e ->
  (forall p r, R p r -> r < wBroker (eWorld e) p -> eElsewhere e p r \/ handled e p r) /\
  busyCount (eDemux e) <= ConcurrentKeys (wConfig w) + capOrZero (overflowGuard b).
Proof.
  intros HB Hov HR Hd Hr. pose proof (built_fresh _ _ _ _ _ _ _ _ _ _ HB Hd) as Hf.
  destruct (Build_ok _ _ _ _ _ _ _ _ _ _ _ HB) as (Hcfg & _). destruct (defaults_positive _ _ _ Hcfg) as [Hk _].
  destruct (engine_run_abstracts R exact _ (ConcurrentKeys (wConfig w)) (capOrZero (overflowGuard b)) ltac:(lia) Hov _ _ _ _ _
    (conj Hf Hr)) as (HI & _ & w' & Hw & l & lost & -> & _).
  split; [|by apply (busy_bounded _ _ _ _ (en_demux _ _ _ _ HI))].
  intros p r Hp Hlt. apply HI. destruct (reachable_inv R exact HR _ _ Hw) as [HD _]. by apply HD.
Qed.

End Assembly.

(** A consumer built with the default configuration and an overflow guard of ten,
    which is then assigned a partition. *)
Definition unitBuilder : @ConsumerBuilder bitNexus unit unit unit unit unit unit unit unit :=
  applyWith (match NewBuilder tt "orders" (Some tt) (Some tt) with
             | inr b => b
             | inl _ => mkBuilder EmptyString tt tt None None None None None None None None 0 None None None None
             end) (WithOverflowGuard (Some 10)).

Definition unitPort : @BrokerPort bitNexus := mkPort (fun p => mkEnvelope "order-7" 0 p None) "group" false.

Definition unitBuild := Build (NX := bitNexus) tt tt toyVerify false [] at1500 0 unitPort unitBuilder.

Lemma built_consumer_safe_witness :
  exists b' w e, unitBuild = inr (b', w) /\ wOwned (eWorld e) = {[0]} /\
    busyCount (eDemux e) <= ConcurrentKeys (wConfig w) + 10.
Proof.
  assert (Hok : match unitBuild with inr _ => true | inl _ => false end = true) by (vm_compute; reflexivity).
  destruct unitBuild as [err|[b' w]] eqn:E; [done|].
  destruct (HandleRebalance (wSubscription w) Assign runInfo false) as [[s' calls] err] eqn:Eh.
  set (e0 := builtEngine w (fun _ => 0) (fun _ _ => False)).
  set (e := setWorld (mkWorld (wCommitter w) IngestIdle s' NewPartitionOffsets ∅ [] [] calls
    (granted (eWorld e0) Assign runInfo) (fun _ => 0) (fun _ _ => False)) e0).
  assert (Hst : engineStep runLog True (PerKeyBufferLen (wConfig w)) (ConcurrentKeys (wConfig w)) 10 e0 e).
  { apply EngineAround.
    - split_and!; [|done | done]. apply (RebalanceStart _ _ (eWorld e0) Assign runInfo false s' calls err); [done | | done].
      split; [done|]. by intros r ->%list_elem_of_singleton.
    - intros _. split; [done|]. unfold unitBuild, Build in E. destruct (SetDemuxConfigDefaults _ _); [done|].
      by injection E as _ <-. }
  exists b', w, e. split; [done|]. split; [by rewrite <- (union_empty_r_L {[0]})|].
  exact (proj2 (built_consumer_safe (NX := bitNexus) tt tt toyVerify runLog True false [] at1500 0 unitPort unitBuilder b' w
    (fun _ => 0) (fun _ _ => False) e E ltac:(vm_compute; discriminate) runLog_nonneg
    ltac:(intros p r [_ ?] ?; lia) (rtc_once _ _ Hst))).
Defined.
