(* ===== verification/Snapshot.v ===== *)
(** * Snapshots ([demux/metrics/snapshot/ring_buffer_recorder.go])

    [TakeSnapshot] reads the metrics window and labels its buckets with times.
    The other samplers are closures over components; their values are arguments. *)
From S2P Require Import Prelude RingBuffer.
From stdpp Require Import base list.
Open Scope Z_scope.
Open Scope go_scope.

Record ThroughputEntry := mkEntry {
  FromTime : Z;
  ToTime : Z;
  ProcessedCount : Z;
  DeadLetterCount : Z
}.

Record ThroughputSnapshot := mkThroughput {
  Windows : list ThroughputEntry;
  tsTotalProcessed : Z;
  TotalDeadLettered : Z;
  AvgProcessDuration : Z;
  MaxProcessDuration : Z;
  AvgEndToEndDuration : Z;
  MaxEndToEndDuration : Z;
  MinEndToEndDuration : Z
}.

Definition snapshotMillisecond : Z := 1000000.

(** The bucket boundary [now] is truncated to. *)
Definition bucketSecsOf (wd : WindowData) : Z :=
  let s := Z.quot (BucketDuration wd) second in if s <? 1 then 1 else s.

Definition currentFrom (now : Z) (wd : WindowData) : Z :=
  Z.quot (unix now) (bucketSecsOf wd) * bucketSecsOf wd * second.

Definition entryAt (now : Z) (wd : WindowData) (i : nat) : ThroughputEntry :=
  let fromTime := currentFrom now wd - Z.of_nat i * BucketDuration wd in
  let srcIdx := (length (ThroughputPerBucket wd) - 1 - i)%nat in
  mkEntry fromTime (fromTime + (BucketDuration wd - snapshotMillisecond))
    (default 0 (ThroughputPerBucket wd !! srcIdx)) (default 0 (DeadLetterPerBucket wd !! srcIdx)).

Definition buildThroughput (now : Z) (wd : WindowData) : list ThroughputEntry :=
  map (entryAt now wd) (seq 0 (length (ThroughputPerBucket wd))).

(** The throughput part of [TakeSnapshot]. *)
Definition takeThroughput (now : Z) (wd : WindowData) : ThroughputSnapshot :=
  let windows := buildThroughput now wd in
  mkThroughput windows
    (foldl (fun a e => a +64 ProcessedCount e) 0 windows)
    (foldl (fun a e => a +64 DeadLetterCount e) 0 windows)
    (if TotalCount wd >? 0 then Z.quot (TotalProcessNanos wd) (TotalCount wd) else 0)
    (MaxProcessNanos wd)
    (if TotalCount wd >? 0 then Z.quot (TotalEndToEndNanos wd) (TotalCount wd) else 0)
    (MaxEndToEndNanos wd) (MinEndToEndNanos wd).

(** ** Lemmas *)

Lemma windowAdd_duration bs wd : BucketDuration (foldl windowAdd wd bs) = BucketDuration wd.
Proof. revert wd. induction bs as [|b bs IH]; intros wd; simpl; [done|]. by rewrite IH. Qed.

Lemma windowData_duration rb : BucketDuration (windowData rb) = bucketSeconds rb * second.
Proof. unfold windowData. by rewrite windowAdd_duration. Qed.

Lemma recordAll_seconds rb l : bucketSeconds (recordAll rb l) = bucketSeconds rb.
Proof.
  revert rb. induction l as [|[t s] l IH]; intros rb; simpl; [done|]. rewrite IH. unfold record.
  by destruct (_ && _).
Qed.

(** The truncated time is the start of the bucket that holds [now]. *)
Lemma currentFrom_holds now wd k :
  0 <= now -> 1 <= k -> BucketDuration wd = k * second ->
  bucketSecsOf wd = k /\ currentFrom now wd = Z.quot (unix now) k * k * second /\
  currentFrom now wd <= now < currentFrom now wd + BucketDuration wd.
Proof.
  intros Hn Hk HB. assert (Hs : bucketSecsOf wd = k).
  { unfold bucketSecsOf. rewrite HB, Z.quot_mul by done. case_Z; lia. }
  split; [done|]. unfold currentFrom. rewrite Hs. split; [done|]. rewrite HB. unfold unix.
  assert (Hu : 0 <= now / second) by (apply Z.div_pos; [lia | done]).
  rewrite Z.quot_div_nonneg by lia.
  pose proof (Z.div_mod now second ltac:(done)) as D1. pose proof (Z.mod_pos_bound now second ltac:(done)) as M1.
  pose proof (Z.div_mod (now / second) k ltac:(lia)) as D2. pose proof (Z.mod_pos_bound (now / second) k ltac:(lia)) as M2.
  unfold second in *. nia.
Qed.

Lemma inEpoch_le e l : (length (inEpoch e l) <= length l)%nat.
Proof.
  induction l as [|[e' s] l IH]; [done|]. change ((e', s) :: l) with ([(e', s)] ++ l).
  rewrite inEpoch_app, !length_app. change (length [(e', s)]) with 1%nat.
  enough (length (inEpoch e [(e', s)]) <= 1)%nat by lia.
  unfold inEpoch. cbn. case_decide; simpl; lia.
Qed.

Lemma foldl_map_add64 {A} (f : A -> Z) a l : foldl (fun a e => a +64 f e) a l = foldl add64 a (map f l).
Proof. revert a. induction l as [|x l IH]; intros a; simpl; [done|]. apply IH. Qed.

(** Reading a list from its end. *)
Lemma map_from_end {A} (f : nat -> A) n :
  map (fun i => f (n - 1 - i)%nat) (seq 0 n) = reverse (map f (seq 0 n)).
Proof.
  apply list_eq. intros i. destruct (decide (i < n)%nat) as [Hi|Hi].
  - rewrite reverse_lookup by by rewrite length_map, length_seq.
    rewrite length_map, length_seq, !list_lookup_fmap, !lookup_seq_lt by lia. simpl. do 2 f_equal. lia.
  - rewrite !lookup_ge_None_2; [done| |]; rewrite ?length_reverse, length_map, length_seq; lia.
Qed.

Lemma sum_list_reverse (l : list nat) : sum_list (reverse l) = sum_list l.
Proof.
  induction l as [|x l IH]; [done|]. rewrite reverse_cons, sum_list_with_app.
  simpl. fold (sum_list (reverse l)). unfold sum_list in *. simpl in *. lia.
Qed.

(** What the ring reports after a run of fewer than [2^32] samples, no count
    wrapping. *)
Lemma run_counts d n t0 l :
  0 < n -> unixTime t0 -> Forall (fun p => unixTime p.1) l -> Z.of_nat (length l) < 2^32 ->
  let rb := newRingBuffer d n t0 in
  let w := windowAll (bucketSeconds rb) (mkWindow (lastEpoch rb) []) l in
  let wd := windowData (recordAll rb l) in
  let cnt (i : nat) := length (inEpoch (newest w - (n - 1 - Z.of_nat i)) (samples w)) in
  BucketDuration wd = bucketSeconds rb * second /\
  ThroughputPerBucket wd = map (fun i => Z.of_nat (cnt i)) (seq 0 (Z.to_nat n)) /\
  sum_list (map cnt (seq 0 (Z.to_nat n))) = length (inWindow w n) /\
  (length (inWindow w n) <= length l)%nat.
Proof.
  intros Hn Ht Hl Hlen rb w wd cnt.
  assert (Hs : 1 <= bucketSeconds rb) by (simpl; lia).
  destruct (recordAll_refines rb _ l Hs (newRingBuffer_refines d n t0 Hn) (epoch_range t0 _ Ht Hs) Hl)
    as (HR & Hc & Hsl). change (ringRefines (recordAll rb l) w) in HR. change (length (samples w) = length l) in Hsl.
  destruct (windowData_counts _ _ HR ltac:(lia)) as [_ HP]. rewrite Hc in HP. split_and!.
  - unfold wd. by rewrite windowData_duration, recordAll_seconds.
  - unfold wd. rewrite HP. apply map_ext. intros i. unfold wrapu32. apply Z.mod_small.
    pose proof (inEpoch_le (newest w - (n - 1 - Z.of_nat i)) (samples w)). unfold cnt. simpl bucketCount. lia.
  - pose proof (window_sum w (Z.to_nat n) (Z.to_nat n) (rr_future _ _ HR) ltac:(lia)) as Hsum.
    rewrite Nat.sub_diag, Z2Nat.id in Hsum by lia. exact Hsum.
  - rewrite <- Hsl. apply length_filter.
Qed.

(** The counts as the windows list them: from the last to the first. *)
Lemma entries_counts now wd (cnt : nat -> nat) n :
  ThroughputPerBucket wd = map (fun i => Z.of_nat (cnt i)) (seq 0 n) ->
  (forall i, (i < n)%nat -> ProcessedCount (entryAt now wd i) = Z.of_nat (cnt (n - 1 - i)%nat)) /\
  map ProcessedCount (buildThroughput now wd) = map Z.of_nat (reverse (map cnt (seq 0 n))).
Proof.
  intros Hcnt. assert (Hlen : length (ThroughputPerBucket wd) = n) by by rewrite Hcnt, length_map, length_seq.
  assert (Hpc : forall i, (i < n)%nat -> ProcessedCount (entryAt now wd i) = Z.of_nat (cnt (n - 1 - i)%nat)).
  { intros i Hi. simpl. rewrite Hlen, Hcnt, list_lookup_fmap, lookup_seq_lt by lia. done. }
  split; [done|]. unfold buildThroughput. rewrite Hlen, <- (map_from_end cnt), !map_map.
  apply map_ext_in. intros i Hi%in_seq. apply Hpc. lia.
Qed.

(** ** Properties *)

(** C35: the throughput windows of a snapshot.  After any run of samples whose
    newest epoch is the current one, the windows are most recent first and the
    first holds the present moment; each counts exactly the samples of the epoch
    that starts at its [FromTime]; and the total is the number of samples of the
    whole window. *)
Theorem snapshot_windows d n t0 l now :
  0 < n -> unixTime t0 -> unixTime now -> Forall (fun p => unixTime p.1) l -> Z.of_nat (length l) < 2^32 ->
  let rb := newRingBuffer d n t0 in
  let w := windowAll (bucketSeconds rb) (mkWindow (lastEpoch rb) []) l in
  let ts := takeThroughput now (windowData (recordAll rb l)) in
  newest w = Z.quot (unix now) (bucketSeconds rb) ->
  length (Windows ts) = Z.to_nat n /\
  (forall i e, Windows ts !! i = Some e ->
     ProcessedCount e = Z.of_nat (length (inEpoch (FromTime e / second / bucketSeconds rb) (samples w))) /\
     FromTime e + Z.of_nat i * (bucketSeconds rb * second) <= now <
       FromTime e + (Z.of_nat i + 1) * (bucketSeconds rb * second)) /\
  tsTotalProcessed ts = Z.of_nat (length (inWindow w n)).
Proof.
  intros Hn Ht Hnow Hl Hlen rb w ts Hcur. assert (Hs : 1 <= bucketSeconds rb) by (simpl; lia).
  destruct (run_counts d n t0 l Hn Ht Hl Hlen) as (HB & Hcnt & Hsum & Hle). fold rb w in HB, Hcnt, Hsum, Hle.
  set (wd := windowData (recordAll rb l)) in *.
  destruct (currentFrom_holds now wd _ ltac:(apply Hnow) Hs HB) as (_ & Hfrom & Hhold).
  destruct (entries_counts now wd _ _ Hcnt) as [Hpc Hall].
  assert (Hlen' : length (ThroughputPerBucket wd) = Z.to_nat n) by by rewrite Hcnt, length_map, length_seq.
  split_and!.
  - simpl. unfold buildThroughput. rewrite length_map, length_seq. exact Hlen'.
  - intros i e He. simpl in He. unfold buildThroughput in He. rewrite Hlen' in He.
    apply list_lookup_fmap_Some in He as (j & -> & Hj). apply lookup_seq in Hj as [-> Hi]. simpl Nat.add in *.
    assert (HF : FromTime (entryAt now wd i) = (newest w - Z.of_nat i) * bucketSeconds rb * second).
    { cbn [entryAt FromTime]. rewrite Hfrom, HB, Hcur. lia. }
    split.
    + rewrite Hpc by done. do 3 f_equal. rewrite HF, Z.div_mul by done. rewrite Z.div_mul by lia. lia.
    + rewrite HF. rewrite Hfrom, HB, <- Hcur in Hhold. lia.
  - simpl. rewrite foldl_map_add64, Hall, foldl_add64; rewrite ?sum_list_reverse, ?Hsum; lia.
Qed.

Lemma snapshot_windows_witness :
  tsTotalProcessed (takeThroughput (122 * second + 5)
    (windowData (recordAll (newRingBuffer second 15 (100 * second)) threeSamples))) = 1.
Proof.
  refine (eq_trans (proj2 (proj2 (snapshot_windows second 15 (100 * second) threeSamples (122 * second + 5)
            _ _ _ _ _ _))) _).
  - lia.
  - vm_compute. split; [discriminate | reflexivity].
  - vm_compute. split; [discriminate | reflexivity].
  - repeat constructor; vm_compute; discriminate.
  - vm_compute. reflexivity.
  - vm_compute. reflexivity.
  - vm_compute. reflexivity.
Defined.
