(* ===== verification/Recorder.v ===== *)
(** * The snapshot recorder ([TakeSnapshot], [ShardSnapshots], the samplers of [Build])

    A recorder holds closures over the components; [TakeSnapshot] calls them one after
    the other, each under the lock of its component, and assembles their values.
    The values therefore come from different moments: they are arguments here, and
    the samplers are functions of the component they read. *)
From S2P Require Import Prelude Types RingBuffer Tracker Committer CommitterFacts Snapshot.
From S2P Require Import Forward RangeOrder Worker Demux DemuxFacts DemuxTheorems DemuxDrain DemuxRun.
From stdpp Require Import base gmap list strings sorting relations.
Open Scope Z_scope.
Open Scope go_scope.

Record ConcurrencySnapshot := mkConcurrency {
  GuardActive : Z; GuardCapacity : Z;
  OverflowActive : Z; OverflowCapacity : Z;
  CommitIngestActive : Z; CommitIngestCap : Z
}.

Record ShardSnapshot := mkShardSnapshot { Shard : Z; ActiveWorkers : Z; PooledWorkers : Z }.

Record SummarySnapshot := mkSummary {
  ssTopicName : string;
  AssignedPartitionCount : Z;
  TotalProcessed : Z;
  ssLastRebalanceTime : Z
}.

Section Recorder.
Context `{NX : Nexus} `{NXok : !NexusOk NX}.

(** The sampler that [Build] passes: a nil overflow guard leaves the zeros. *)
Definition concurrencySnapshot (guard : Chan unit) (overflowGuard : option (Chan unit)) (oc : Committer)
    : ConcurrencySnapshot :=
  let '(overflowActive, overflowCapacity) :=
    match overflowGuard with Some g => (chLen g, chCap g) | None => (0, 0) end in
  let '(ingestActive, ingestCap) := CommitIngestChannelLen oc in
  mkConcurrency (chLen guard) (chCap guard) overflowActive overflowCapacity ingestActive ingestCap.

(** [ShardSnapshots]; the [sort.Slice] by shard number is the last line. *)
Definition byShard (a b : ShardSnapshot) : Prop := Shard a <= Shard b.
#[global] Instance byShard_dec : RelDecision byShard := fun a b => Z.le_dec (Shard a) (Shard b).

Definition ShardSnapshots (shards : list WorkerShard) : list ShardSnapshot :=
  merge_sort byShard
    (imap (fun i ws => mkShardSnapshot (Z.of_nat i) (activeCount ws) (chLen (workerPool ws))) shards).

Record EngineSnapshot := mkSnapshot {
  Summary : SummarySnapshot;
  Throughput : ThroughputSnapshot;
  PreCommits : Z * list PartitionSnapshot;
  Concurrency : ConcurrencySnapshot;
  Shards : list ShardSnapshot;
  Timestamp : Z
}.

(** [for _, p := range preCommits.Partitions { if p.Assigned { assignedCount++ } }] *)
Definition assignedCount (ps : list PartitionSnapshot) : Z :=
  foldl (fun n p => if psAssigned p then n + 1 else n) 0 ps.

Definition TakeSnapshot (topic : string) (now : Z) (wd : WindowData) (preCommits : Z * list PartitionSnapshot)
    (concurrency : ConcurrencySnapshot) (shards : list ShardSnapshot) : EngineSnapshot :=
  mkSnapshot
    (mkSummary topic (assignedCount preCommits.2) (wdTotalProcessed wd) preCommits.1)
    (takeThroughput now wd) preCommits concurrency shards now.

(** ** Lemmas *)

(** The partitions whose tracker is in an assigned epoch. *)
Definition assignedTrackers (oc : Committer) : gmap Z OffsetsTracker :=
  filter (fun pt => Assignment pt.2 = Assign) (PartitionMap oc).

Lemma assignedCount_length ps : assignedCount ps = Z.of_nat (length (filter (fun p => psAssigned p = true) ps)).
Proof.
  unfold assignedCount. enough (H : forall n, foldl (fun n p => if psAssigned p then n + 1 else n) n ps =
    n + Z.of_nat (length (filter (fun p => psAssigned p = true) ps))) by apply H.
  induction ps as [|p ps IH]; intros n; [simpl; lia|]. cbn [foldl]. rewrite IH, filter_cons.
  destruct (psAssigned p); case_decide; simpl; done || lia.
Qed.

(** Whatever the order of the visit, the summary counts the assigned trackers. *)
Lemma assignedCount_trackers oc order :
  range_order (PartitionMap oc) order ->
  assignedCount (PreCommitsSnapshot oc order).2 = Z.of_nat (size (assignedTrackers oc)).
Proof.
  intros [Hnd Hin]. rewrite assignedCount_length. f_equal. cbn [PreCommitsSnapshot snd].
  set (A := fun p => Assignment <$> PartitionMap oc !! p = Some Assign).
  assert (E : length (filter (fun p => psAssigned p = true)
      (omap (fun p => partitionSnapshot p <$> PartitionMap oc !! p) order)) = length (filter A order)).
  { clear Hnd Hin. induction order as [|p order IH]; [done|]. rewrite (filter_cons A).
    set (f := fun p => partitionSnapshot p <$> PartitionMap oc !! p) in *.
    change (omap f (p :: order)) with (match f p with Some y => y :: omap f order | None => omap f order end).
    assert (Hf : f p = partitionSnapshot p <$> PartitionMap oc !! p) by done.
    destruct (decide (A p)) as [Ha|Ha]; unfold A in Ha; rewrite Hf; clear Hf;
      destruct (PartitionMap oc !! p) as [t|]; cbn [fmap option_fmap option_map] in *; try done;
      rewrite filter_cons; cbn [partitionSnapshot psAssigned].
    - injection Ha as Ha. rewrite bool_decide_eq_true_2, decide_True by done. cbn [length]. by rewrite <- IH.
    - rewrite bool_decide_eq_false_2, decide_False by (done || congruence). exact IH. }
  rewrite E, <- (size_list_to_set (C := gset Z)) by (by apply NoDup_filter).
  rewrite <- (size_dom (D := gset Z)). f_equal. apply set_eq. intros p.
  rewrite elem_of_list_to_set, list_elem_of_filter, elem_of_dom. unfold A, assignedTrackers.
  rewrite Hin. split.
  - intros [Ha [t Ht]]. rewrite Ht in Ha. injection Ha as Ha. exists t. by apply map_lookup_filter_Some.
  - intros [t [Ht Ha]%map_lookup_filter_Some]. cbn in Ha. rewrite Ht. split; [by cbn; rewrite Ha | by eexists].
Qed.

Definition sampleShard (i : nat) (ws : WorkerShard) : ShardSnapshot :=
  mkShardSnapshot (Z.of_nat i) (activeCount ws) (chLen (workerPool ws)).

Lemma sampleShard_sorted n shards : StronglySorted byShard (imap (fun i => sampleShard (n + i)) shards).
Proof.
  revert n. induction shards as [|s shards IH]; intros n; [constructor|]. cbn [imap]. constructor.
  - rewrite (imap_ext _ (fun i => sampleShard (S n + i))) by (intros i x _; simpl; do 2 f_equal; lia). apply IH.
  - apply Forall_lookup. intros i x (y & _ & ->)%list_lookup_imap_Some. unfold byShard. simpl. lia.
Qed.

(** The list is in the order of the shards already. *)
Lemma ShardSnapshots_imap shards : ShardSnapshots shards = imap sampleShard shards.
Proof.
  unfold ShardSnapshots. change (imap _ shards) with (imap sampleShard shards).
  apply (StronglySorted_unique_strong byShard); [| |apply (sampleShard_sorted 0)|apply merge_sort_Permutation].
  - intros a b Ha Hb Hab Hba. rewrite merge_sort_Permutation in Ha.
    apply list_elem_of_lookup in Ha as (i & Hi), Hb as (j & Hj).
    pose proof Hi as (x & _ & Ex)%list_lookup_imap_Some. pose proof Hj as (y & _ & Ey)%list_lookup_imap_Some.
    assert (i = j) as -> by (subst; unfold byShard in *; simpl in *; lia). congruence.
  - apply StronglySorted_merge_sort; unfold byShard; [intros ???; lia | intros ??; lia].
Qed.

(** ** Active workers hold tokens *)

(** A worker that serves a key holds a token of one kind. *)
Lemma serving_holds key todo k : serving key todo k -> exists ov, holds ov todo k = true.
Proof.
  intros [_ Hpc _ _ _]. unfold holds. destruct (pc k); try done.
  - destruct (queued (Demux.workItems k) ++ todo) as [|w l]; [done|]. exists (isOverflow w). apply eqb_reflx.
  - exists (usedOverflow k). apply eqb_reflx.
  - exists (usedOverflow k). apply eqb_reflx.
Qed.

(** The workers registered under a key, each once. *)
Lemma registered_ids bufferLen s pend :
  shardInv bufferLen s pend -> NoDup (map_to_list (workers s)).*2.
Proof.
  intros HI. apply NoDup_fmap_2_strong; [|apply NoDup_map_to_list].
  intros [k1 i1] [k2 i2] H1%elem_of_map_to_list H2%elem_of_map_to_list E. simpl in E. subst.
  by rewrite (si_inj _ _ _ HI k1 k2 i2).
Qed.

Lemma registered_holders bufferLen s pend :
  shardInv bufferLen s pend -> Z.of_nat (size (workers s)) <= holders false s pend + holders true s pend.
Proof.
  intros HI. unfold holders. set (H := fun ov => filter (fun ik => holds ov (pendFor pend ik.1) ik.2 = true) (heap s)).
  fold (H false) (H true). rewrite <- (size_dom (D := gset Z) (H false)), <- (size_dom (D := gset Z) (H true)).
  assert (Hsub : list_to_set (map_to_list (workers s)).*2 ⊆ dom (H false) ∪ dom (H true)).
  { intros id. rewrite elem_of_list_to_set. intros ([key i] & -> & Hk%elem_of_map_to_list)%list_elem_of_fmap.
    destruct (si_map _ _ _ HI key i Hk) as (k & Hi & Hs). destruct (serving_holds _ _ _ Hs) as [ov Hov].
    assert (i ∈ dom (H ov)) by (apply elem_of_dom; exists k; by apply map_lookup_filter_Some). destruct ov; set_solver. }
  apply subseteq_size in Hsub. rewrite size_list_to_set, length_fmap in Hsub by (by eapply registered_ids).
  rewrite size_union_alt in Hsub. assert (Hd : dom (H true) ∖ dom (H false) ⊆ dom (H true)) by set_solver.
  apply subseteq_size in Hd. rewrite length_map_to_list in Hsub. lia.
Qed.

Lemma active_total (f : nat -> WorkerShard -> Z) (g : WorkerShard -> Z) shards :
  foldr Z.add 0 (map ActiveWorkers (imap (fun i s => mkShardSnapshot (f i s) (g s) (chLen (workerPool s))) shards)) =
  DemuxTheorems.total (fun _ s => g s) shards.
Proof.
  revert f. induction shards as [|s shards IH]; intros f; [done|]. cbn. f_equal. apply (IH (fun i => f (S i))).
Qed.

Lemma active_held bufferLen guardCap overflowCap d :
  demuxInv bufferLen guardCap overflowCap d ->
  DemuxTheorems.total (fun _ s => Z.of_nat (size (workers s))) (workerShards d) <= guardLen d + overflowLen d.
Proof.
  intros HI. pose proof (heldTokens_le _ _ _ d false HI) as H1. pose proof (heldTokens_le _ _ _ d true HI) as H2.
  simpl in *. etrans; [|apply Z.add_le_mono; [exact H1 | exact H2]]. unfold heldTokens. rewrite <- total_add.
  apply total_le. intros i s Hs. eapply registered_holders. by apply (dv_shards _ _ _ _ HI).
Qed.

Lemma total_nonneg {A} (f : nat -> A -> Z) l : (forall j y, 0 <= f j y) -> 0 <= DemuxTheorems.total f l.
Proof.
  revert f. induction l as [|y l IH]; intros f Hf; simpl; [lia|].
  pose proof (Hf O y). pose proof (IH (fun j => f (S j)) (fun j => Hf (S j))). lia.
Qed.

Lemma total_part {A} (f : nat -> A -> Z) l i x :
  (forall j y, 0 <= f j y) -> l !! i = Some x -> f i x <= DemuxTheorems.total f l.
Proof.
  revert f i. induction l as [|y l IH]; intros f i Hf Hi; [done|].
  pose proof (total_nonneg (fun j => f (S j)) l (fun j => Hf (S j))). pose proof (Hf O y).
  destruct i as [|i]; simpl in *; [injection Hi as ->; lia|].
  pose proof (IH (fun j => f (S j)) i (fun j => Hf (S j)) Hi). simpl in *. lia.
Qed.

(** The workers registered in one shard hold tokens. *)
Lemma shard_bounded bufferLen guardCap overflowCap d i s :
  demuxInv bufferLen guardCap overflowCap d -> workerShards d !! i = Some s ->
  Z.of_nat (size (workers s)) <= guardCap + overflowCap.
Proof.
  intros HI Hs. pose proof (active_held _ _ _ d HI) as Ha.
  pose proof (total_part (fun _ s => Z.of_nat (size (workers s))) (workerShards d) i s (fun _ _ => Nat2Z.is_nonneg _) Hs) as Ht.
  pose proof (dv_caps _ _ _ _ HI false). pose proof (dv_caps _ _ _ _ HI true). simpl in *. lia.
Qed.

(** ** Properties *)

End Recorder.

(** The run of [DemuxRun], with a handler in progress, and two committed partitions. *)
Definition engineSnapshot : EngineSnapshot :=
  TakeSnapshot "orders" 9 (committerWindowData twoParts) (PreCommitsSnapshot twoParts [1; 0])
    (concurrencySnapshot (mkChan [tt] 1) (Some (mkChan [] 1)) twoParts) (ShardSnapshots (workerShards dr7)).

