(* ===== verification/SnapshotJson.v ===== *)
(** * Serving a snapshot ([MarshalJSON] of the snapshot types, [NewHandler])

    What an HTTP client gets: the snapshot as a JSON document (the tree whose text
    [encoding/json] writes), times in UTC to the millisecond, durations as their
    text.  [readSnapshot] is a client that reads the document back. *)
From S2P Require Import Prelude Types GoBytes Duration DurationText Calendar ConfigJson RingBuffer Tracker Committer.
From S2P Require Import Snapshot RangeOrder Worker Demux DemuxRun Recorder.
From Stdlib Require Import String Ascii.
From stdpp Require Import base gmap list strings.
Open Scope Z_scope.

(** ** Strings in JSON *)

Definition isCont (c : Z) : bool := (128 <=? c) && (c <=? 191).

(** The width of the character that begins a text, [None] when it is not UTF-8. *)
Definition runeWidth (s : bytes) : option nat :=
  match s with
  | [] => None
  | b0 :: r =>
      if b0 <? 128 then Some 1%nat
      else match r with
      | [] => None
      | b1 :: r =>
          let second lo hi := (lo <=? b1) && (b1 <=? hi) in
          if (194 <=? b0) && (b0 <=? 223) then if isCont b1 then Some 2%nat else None
          else match r with
          | [] => None
          | b2 :: r =>
              let three ok := if ok && isCont b2 then Some 3%nat else None in
              if b0 =? 224 then three (second 160 191)
              else if b0 =? 237 then three (second 128 159)
              else if (225 <=? b0) && (b0 <=? 239) then three (isCont b1)
              else match r with
              | [] => None
              | b3 :: _ =>
                  let four ok := if ok && isCont b2 && isCont b3 then Some 4%nat else None in
                  if b0 =? 240 then four (second 144 191)
                  else if b0 =? 244 then four (second 128 143)
                  else if (241 <=? b0) && (b0 <=? 243) then four (isCont b1)
                  else None
              end
          end
      end
  end.

(** [encoding/json] writes the replacement character for a byte that begins no
    character; a text has at most as many characters as bytes. *)
Fixpoint coerceLoop (fuel : nat) (s : bytes) : bytes :=
  match fuel, s with
  | S fuel, _ :: s' =>
      match runeWidth s with
      | Some n => take n s ++ coerceLoop fuel (drop n s)
      | None => 239 :: 191 :: 189 :: coerceLoop fuel s'
      end
  | _, _ => []
  end.
Definition coerceUTF8 (s : bytes) : bytes := coerceLoop (length s) s.

(** The string whose bytes are given. *)
Definition text (s : bytes) : string :=
  string_of_list_ascii (map (fun c => ascii_of_N (Z.to_N c)) s).

(** ** Marshalling *)

Definition jInt (n : Z) : json := JNumber (FormatInt n).
Definition jText (s : bytes) : json := JString (coerceUTF8 s).
Definition jTime (t : Z) : json := JString (formatTimestamp t).
Definition jDuration (d : Z) : json := JString (durationString d).

(** The zero [time.Time], which the models write as 0, is the first of January of the
    year 1: what a consumer shows before its first rebalance. *)
Definition instant (t : Z) : Z := if t =? 0 then -62135596800000000000 else t.

(** [SummarySnapshot.MarshalJSON] *)
Definition marshalSummary (s : SummarySnapshot) : json :=
  JObject [(lit "topicName", jText (lit (ssTopicName s)));
           (lit "assignedPartitionCount", jInt (AssignedPartitionCount s));
           (lit "totalProcessed", jInt (TotalProcessed s));
           (lit "lastRebalanceTime", jTime (instant (ssLastRebalanceTime s)))].

(** [ThroughputEntry.MarshalJSON] *)
Definition marshalEntry (te : ThroughputEntry) : json :=
  JObject [(lit "fromTime", jTime (FromTime te));
           (lit "toTime", jTime (ToTime te));
           (lit "processedCount", jInt (ProcessedCount te));
           (lit "deadLetterCount", jInt (DeadLetterCount te))].

(** [buildThroughput] returns a nil slice when the window has no buckets, and a nil
    slice is [null]. *)
Definition marshalWindows (l : list ThroughputEntry) : json :=
  match l with [] => JNull | _ => JArray (map marshalEntry l) end.

(** [ThroughputSnapshot.MarshalJSON]: the fields of the embedded alias come first. *)
Definition marshalThroughput (t : ThroughputSnapshot) : json :=
  JObject [(lit "windows", marshalWindows (Windows t));
           (lit "totalProcessed", jInt (tsTotalProcessed t));
           (lit "totalDeadLettered", jInt (TotalDeadLettered t));
           (lit "avgProcessDuration", jDuration (AvgProcessDuration t));
           (lit "maxProcessDuration", jDuration (MaxProcessDuration t));
           (lit "avgEndToEndDuration", jDuration (AvgEndToEndDuration t));
           (lit "maxEndToEndDuration", jDuration (MaxEndToEndDuration t));
           (lit "minEndToEndDuration", jDuration (MinEndToEndDuration t))].

(** The types without a method are written by their tags. *)
Definition marshalPartition (p : PartitionSnapshot) : json :=
  JObject [(lit "partition", jInt (psPartition p));
           (lit "committedOffset", jInt (psCommittedOffset p));
           (lit "highestReadyOffset", jInt (HighestReadyOffset p));
           (lit "maxOffsetSeen", jInt (psMaxOffsetSeen p));
           (lit "gapBufferDepth", jInt (GapBufferDepth p));
           (lit "assigned", JBool (psAssigned p))].

Definition marshalPreCommits (pc : Z * list PartitionSnapshot) : json :=
  JObject [(lit "partitions", JArray (map marshalPartition pc.2))].

Definition marshalConcurrency (c : ConcurrencySnapshot) : json :=
  JObject [(lit "guardActive", jInt (GuardActive c));
           (lit "guardCapacity", jInt (GuardCapacity c));
           (lit "overflowActive", jInt (OverflowActive c));
           (lit "overflowCapacity", jInt (OverflowCapacity c));
           (lit "commitIngestActive", jInt (CommitIngestActive c));
           (lit "commitIngestCapacity", jInt (CommitIngestCap c))].

Definition marshalShard (s : ShardSnapshot) : json :=
  JObject [(lit "shard", jInt (Shard s));
           (lit "activeWorkers", jInt (ActiveWorkers s));
           (lit "pooledWorkers", jInt (PooledWorkers s))].

Definition marshalSnapshot (s : EngineSnapshot) : json :=
  JObject [(lit "summary", marshalSummary (Summary s));
           (lit "throughput", marshalThroughput (Throughput s));
           (lit "preCommits", marshalPreCommits (PreCommits s));
           (lit "concurrency", marshalConcurrency (Concurrency s));
           (lit "shards", JArray (map marshalShard (Shards s)))].

(** ** The HTTP handler *)

Inductive Body := BodyJSON (j : json) | BodyText (s : string).

(** [http.ResponseWriter]: [Write] may fail with an error. *)
Record ResponseWriter (W : Type) := mkResponseWriter {
  SetHeader : string -> string -> W -> W;
  WriteHeader : Z -> W -> W;
  Write : Body -> W -> W * option string
}.
Arguments mkResponseWriter {W}. Arguments SetHeader {W}. Arguments WriteHeader {W}. Arguments Write {W}.

(** [http.Error] *)
Definition httpError {W} (rw : ResponseWriter W) (msg : string) (code : Z) (w : W) : W :=
  let w := SetHeader rw "X-Content-Type-Options" "nosniff" (SetHeader rw "Content-Type" "text/plain; charset=utf-8" w) in
  (Write rw (BodyText msg) (WriteHeader rw code w)).1.

(** The handler that [NewHandler] returns.  [Encode] fails only when its one write
    does, as every value of a snapshot can be marshalled. *)
Definition NewHandler {St W : Type} (takeSnapshot : St -> EngineSnapshot) (rw : ResponseWriter W) (st : St) (w : W) : W :=
  let snap := takeSnapshot st in
  let w := SetHeader rw "Content-Type" "application/json" w in
  let '(w, err) := Write rw (BodyJSON (marshalSnapshot snap)) w in
  match err with
  | Some err => httpError rw err 500 w
  | None => w
  end.

(** The writer of [net/http]: the first status is sent with the header of that moment,
    a [Write] before it sends 200.  [rOutcomes]: how the client takes the next writes. *)
Record Response := mkResponse {
  rHeader : gmap string string;
  rSent : option (Z * gmap string string);
  rBody : list Body;
  rOutcomes : list (option string)
}.
Definition newResponse (outcomes : list (option string)) : Response := mkResponse ∅ None [] outcomes.

Definition sendStatus (code : Z) (w : Response) : Response :=
  match rSent w with Some _ => w | None => mkResponse (rHeader w) (Some (code, rHeader w)) (rBody w) (rOutcomes w) end.

Definition netHttp : ResponseWriter Response :=
  mkResponseWriter
    (fun k v w => mkResponse (<[k := v]> (rHeader w)) (rSent w) (rBody w) (rOutcomes w))
    sendStatus
    (fun b w =>
       let w := sendStatus 200 w in
       match rOutcomes w with
       | Some err :: rest => (mkResponse (rHeader w) (rSent w) (rBody w) rest, Some err)
       | _ => (mkResponse (rHeader w) (rSent w) (rBody w ++ [b]) (tail (rOutcomes w)), None)
       end).

(** A writer whose [Write] always fails and sends no status, as in the handler's test:
    the status is what [WriteHeader] was given last. *)
Definition failingResponseWriter (err : string) : ResponseWriter Z :=
  mkResponseWriter (fun _ _ status => status) (fun code _ => code) (fun _ status => (status, Some err)).

(** ** The recorder *)

(** The closures that [Build] passes, as functions of the state they read. *)
Record Recorder (St : Type) := mkRecorder {
  recTopicName : string;
  recConcurrency : St -> ConcurrencySnapshot;
  recShardInfo : St -> list ShardSnapshot;
  recPreCommits : St -> Z * list PartitionSnapshot;
  recWindowData : St -> WindowData
}.
Arguments mkRecorder {St}.
Arguments recTopicName {St}. Arguments recConcurrency {St}. Arguments recShardInfo {St}.
Arguments recPreCommits {St}. Arguments recWindowData {St}.

Definition NewRecorder {St} := @mkRecorder St.

(** A call reads the four samplers one after the other: the states may differ. *)
Record Moments (St : Type) := mkMoments { mNow : Z; mWindow : St; mPreCommits : St; mConcurrency : St; mShards : St }.
Arguments mkMoments {St}. Arguments mNow {St}. Arguments mWindow {St}. Arguments mPreCommits {St}.
Arguments mConcurrency {St}. Arguments mShards {St}.

Definition recorderSnapshot {St} (r : Recorder St) (m : Moments St) : EngineSnapshot :=
  TakeSnapshot (recTopicName r) (mNow m) (recWindowData r (mWindow m)) (recPreCommits r (mPreCommits m))
    (recConcurrency r (mConcurrency m)) (recShardInfo r (mShards m)).

(** What the samplers read in a consumer: the guards, the shards, the committer, and
    the order in which its map is visited. *)
Record Sampled := mkSampled {
  sGuard : Chan unit; sOverflow : option (Chan unit); sShards : list WorkerShard; sCommitter : Committer;
  sOrder : list Z
}.

(** The recorder of a built consumer, and its [SnapshotHandler]. *)
Definition consumerRecorder (topic : string) : Recorder Sampled :=
  NewRecorder topic (fun st => concurrencySnapshot (sGuard st) (sOverflow st) (sCommitter st))
    (fun st => ShardSnapshots (sShards st)) (fun st => PreCommitsSnapshot (sCommitter st) (sOrder st))
    (fun st => committerWindowData (sCommitter st)).

Definition SnapshotHandler {W} (topic : string) : ResponseWriter W -> Moments Sampled -> W -> W :=
  NewHandler (recorderSnapshot (consumerRecorder topic)).

(** ** A client *)

Fixpoint findMember (k : bytes) (ms : list (bytes * json)) : option json :=
  match ms with [] => None | (k', v) :: ms => if bytesEqb k k' then Some v else findMember k ms end.
Definition member (k : string) (j : json) : option json :=
  match j with JObject ms => findMember (lit k) ms | _ => None end.

Definition readInt (j : json) : option Z :=
  match j with JNumber l => match ParseInt l with inr n => Some n | inl _ => None end | _ => None end.
Definition readText (j : json) : option string := match j with JString s => Some (text s) | _ => None end.
Definition readTime (j : json) : option Z := match j with JString s => readTimestamp s | _ => None end.
Definition readDuration (j : json) : option Z :=
  match j with JString s => match ParseDuration s with inr d => Some d | inl _ => None end | _ => None end.
Definition readBool (j : json) : option bool := match j with JBool b => Some b | _ => None end.
Definition readList {A} (f : json -> option A) (j : json) : option (list A) :=
  match j with JArray l => mapM f l | JNull => Some [] | _ => None end.

Definition intAt (k : string) (j : json) : option Z := member k j ≫= readInt.
Definition timeAt (k : string) (j : json) : option Z := member k j ≫= readTime.
Definition durationAt (k : string) (j : json) : option Z := member k j ≫= readDuration.

Definition readSummary (j : json) : option SummarySnapshot :=
  topic ← member "topicName" j ≫= readText;
  n ← intAt "assignedPartitionCount" j; total ← intAt "totalProcessed" j; t ← timeAt "lastRebalanceTime" j;
  Some (mkSummary topic n total t).

Definition readEntry (j : json) : option ThroughputEntry :=
  f ← timeAt "fromTime" j; t ← timeAt "toTime" j;
  n ← intAt "processedCount" j; d ← intAt "deadLetterCount" j; Some (mkEntry f t n d).

Definition readThroughput (j : json) : option ThroughputSnapshot :=
  ws ← member "windows" j ≫= readList readEntry;
  n ← intAt "totalProcessed" j; d ← intAt "totalDeadLettered" j;
  avgP ← durationAt "avgProcessDuration" j; maxP ← durationAt "maxProcessDuration" j;
  avgE ← durationAt "avgEndToEndDuration" j; maxE ← durationAt "maxEndToEndDuration" j;
  minE ← durationAt "minEndToEndDuration" j;
  Some (mkThroughput ws n d avgP maxP avgE maxE minE).

Definition readPartition (j : json) : option PartitionSnapshot :=
  p ← intAt "partition" j; c ← intAt "committedOffset" j; h ← intAt "highestReadyOffset" j;
  m ← intAt "maxOffsetSeen" j; g ← intAt "gapBufferDepth" j; a ← member "assigned" j ≫= readBool;
  Some (mkPartitionSnapshot p c h m g a).

Definition readConcurrency (j : json) : option ConcurrencySnapshot :=
  ga ← intAt "guardActive" j; gc ← intAt "guardCapacity" j; oa ← intAt "overflowActive" j;
  oc ← intAt "overflowCapacity" j; ia ← intAt "commitIngestActive" j; ic ← intAt "commitIngestCapacity" j;
  Some (mkConcurrency ga gc oa oc ia ic).

Definition readShard (j : json) : option ShardSnapshot :=
  i ← intAt "shard" j; a ← intAt "activeWorkers" j; p ← intAt "pooledWorkers" j; Some (mkShardSnapshot i a p).

(** The rebalance time is in the summary, and the time of the snapshot is not shown. *)
Definition readSnapshot (j : json) : option EngineSnapshot :=
  sm ← member "summary" j ≫= readSummary; th ← member "throughput" j ≫= readThroughput;
  ps ← (member "preCommits" j ≫= member "partitions") ≫= readList readPartition;
  c ← member "concurrency" j ≫= readConcurrency; sh ← member "shards" j ≫= readList readShard;
  Some (mkSnapshot sm th (ssLastRebalanceTime sm, ps) c sh 0).

(** ** What a client can see of a snapshot *)

Definition shownSummary (s : SummarySnapshot) : SummarySnapshot :=
  mkSummary (text (coerceUTF8 (lit (ssTopicName s)))) (AssignedPartitionCount s) (TotalProcessed s)
    (toMillis (instant (ssLastRebalanceTime s))).
Definition shownEntry (e : ThroughputEntry) : ThroughputEntry :=
  mkEntry (toMillis (FromTime e)) (toMillis (ToTime e)) (ProcessedCount e) (DeadLetterCount e).
Definition shownThroughput (t : ThroughputSnapshot) : ThroughputSnapshot :=
  mkThroughput (map shownEntry (Windows t)) (tsTotalProcessed t) (TotalDeadLettered t) (AvgProcessDuration t)
    (MaxProcessDuration t) (AvgEndToEndDuration t) (MaxEndToEndDuration t) (MinEndToEndDuration t).
Definition shown (s : EngineSnapshot) : EngineSnapshot :=
  mkSnapshot (shownSummary (Summary s)) (shownThroughput (Throughput s))
    (toMillis (instant (ssLastRebalanceTime (Summary s))), (PreCommits s).2) (Concurrency s) (Shards s) 0.

(** Values of the fields' types, and times whose year has four digits. *)
Definition summaryOk (s : SummarySnapshot) : Prop :=
  in_int64 (AssignedPartitionCount s) /\ in_int64 (TotalProcessed s) /\ fourDigitYear (instant (ssLastRebalanceTime s)).
Definition entryOk (e : ThroughputEntry) : Prop :=
  fourDigitYear (FromTime e) /\ fourDigitYear (ToTime e) /\ in_int64 (ProcessedCount e) /\ in_int64 (DeadLetterCount e).
Definition throughputOk (t : ThroughputSnapshot) : Prop :=
  Forall entryOk (Windows t) /\ in_int64 (tsTotalProcessed t) /\ in_int64 (TotalDeadLettered t) /\
  in_int64 (AvgProcessDuration t) /\ in_int64 (MaxProcessDuration t) /\ in_int64 (AvgEndToEndDuration t) /\
  in_int64 (MaxEndToEndDuration t) /\ in_int64 (MinEndToEndDuration t).
Definition partitionOk (p : PartitionSnapshot) : Prop :=
  in_int64 (psPartition p) /\ in_int64 (psCommittedOffset p) /\ in_int64 (HighestReadyOffset p) /\
  in_int64 (psMaxOffsetSeen p) /\ in_int64 (GapBufferDepth p).
Definition concurrencyOk (c : ConcurrencySnapshot) : Prop :=
  in_int64 (GuardActive c) /\ in_int64 (GuardCapacity c) /\ in_int64 (OverflowActive c) /\
  in_int64 (OverflowCapacity c) /\ in_int64 (CommitIngestActive c) /\ in_int64 (CommitIngestCap c).
Definition shardOk (s : ShardSnapshot) : Prop :=
  in_int64 (Shard s) /\ in_int64 (ActiveWorkers s) /\ in_int64 (PooledWorkers s).
Definition snapshotOk (s : EngineSnapshot) : Prop :=
  summaryOk (Summary s) /\ throughputOk (Throughput s) /\ Forall partitionOk (PreCommits s).2 /\
  concurrencyOk (Concurrency s) /\ Forall shardOk (Shards s).

(** ** Lemmas *)

Lemma readInt_jInt n : in_int64 n -> readInt (jInt n) = Some n.
Proof. intros H. unfold readInt, jInt. by rewrite int_roundtrip. Qed.
Lemma readTime_jTime t : fourDigitYear t -> readTime (jTime t) = Some (toMillis t).
Proof. apply timestamp_roundtrip. Qed.
Lemma readDuration_jDuration d : in_int64 d -> readDuration (jDuration d) = Some d.
Proof. intros H. unfold readDuration, jDuration. by rewrite duration_roundtrip. Qed.

Create Rewrite HintDb wire.
#[local] Hint Rewrite readInt_jInt readTime_jTime readDuration_jDuration using done : wire.

Lemma findMember_cons k k' v ms :
  findMember k ((k', v) :: ms) = if bytesEqb k k' then Some v else findMember k ms.
Proof. done. Qed.

(** Finds the members of a document whose keys are literals, and reads them. *)
Ltac members :=
  unfold intAt, timeAt, durationAt, member;
  repeat (rewrite findMember_cons;
          match goal with
          | |- context [bytesEqb (lit ?a) (lit ?b)] =>
              let v := eval vm_compute in (bytesEqb (lit a) (lit b)) in
              change (bytesEqb (lit a) (lit b)) with v; cbv iota
          end);
  cbn [mbind option_bind]; autorewrite with wire; cbn [mbind option_bind].

Lemma readSummary_ok s : summaryOk s -> readSummary (marshalSummary s) = Some (shownSummary s).
Proof. intros (H1 & H2 & H3). unfold readSummary, marshalSummary. members. done. Qed.

Lemma readEntry_ok e : entryOk e -> readEntry (marshalEntry e) = Some (shownEntry e).
Proof. intros (H1 & H2 & H3 & H4). unfold readEntry, marshalEntry. members. done. Qed.

Lemma readWindows_ok l : Forall entryOk l -> readList readEntry (marshalWindows l) = Some (map shownEntry l).
Proof.
  intros H. destruct l as [|e l]; [done|]. unfold marshalWindows, readList. apply (mapM_map _ _ _ entryOk); [exact readEntry_ok | done].
Qed.

Lemma readThroughput_ok t : throughputOk t -> readThroughput (marshalThroughput t) = Some (shownThroughput t).
Proof.
  intros (Hw & H1 & H2 & H3 & H4 & H5 & H6 & H7). unfold readThroughput, marshalThroughput. members.
  rewrite readWindows_ok by done. done.
Qed.

Lemma readPartition_ok p : partitionOk p -> readPartition (marshalPartition p) = Some p.
Proof.
  intros (H1 & H2 & H3 & H4 & H5). unfold readPartition, marshalPartition. members. by destruct p.
Qed.

Lemma readConcurrency_ok c : concurrencyOk c -> readConcurrency (marshalConcurrency c) = Some c.
Proof.
  intros (H1 & H2 & H3 & H4 & H5 & H6). unfold readConcurrency, marshalConcurrency. members. by destruct c.
Qed.

Lemma readShard_ok s : shardOk s -> readShard (marshalShard s) = Some s.
Proof. intros (H1 & H2 & H3). unfold readShard, marshalShard. members. by destruct s. Qed.

Lemma readSnapshot_ok s : snapshotOk s -> readSnapshot (marshalSnapshot s) = Some (shown s).
Proof.
  intros (Hs & Ht & Hp & Hc & Hsh). unfold readSnapshot, marshalSnapshot, marshalPreCommits. members.
  rewrite readSummary_ok, readThroughput_ok by done. members. unfold readList.
  rewrite (mapM_map _ _ id partitionOk), readConcurrency_ok, (mapM_map _ _ id shardOk); try done;
    [|by apply readShard_ok | by apply readPartition_ok].
  cbn [mbind option_bind]. unfold shown. by rewrite !map_id.
Qed.

(** A text of ASCII characters is shown as it is. *)
Definition isAscii (s : string) : Prop := Forall (fun c => c < 128) (lit s).

Lemma coerce_ascii s : isAscii s -> text (coerceUTF8 (lit s)) = s.
Proof.
  unfold isAscii, coerceUTF8. intros H. assert (Hc : coerceLoop (length (lit s)) (lit s) = lit s).
  { induction H as [|c l Hc _ IH]; [done|]. cbn [length coerceLoop runeWidth].
    destruct (Z.ltb_spec c 128); [|lia]. change (c :: coerceLoop (length l) l = c :: l). by rewrite IH. }
  rewrite Hc. clear. unfold text. induction s as [|c s IH]; [done|]. cbn [lit map string_of_list_ascii].
  rewrite IH. f_equal. rewrite N2Z.id. apply ascii_N_embedding.
Qed.

(** ** Properties *)

(** C37: a snapshot survives the wire.  For every snapshot with values of its fields'
    types and times in years of four digits, the document the handler writes
    determines the snapshot: a client reads back every count, offset and duration
    exactly, every time to the millisecond, the lists in order, and an ASCII topic name
    as it is.  With the writer of [net/http] the status 200 and the JSON content type
    are sent, and the body is the document if the write succeeds; if it fails no
    document is delivered, and as the status went out with it, the 500 of the fallback
    is not sent.  With a writer that fails before it sends a status, as the one of the
    handler's test, the status is 500. *)
Theorem snapshot_served topic m outcomes err :
  let snap := recorderSnapshot (consumerRecorder topic) m in
  let r := SnapshotHandler topic netHttp m (newResponse outcomes) in
  snapshotOk snap ->
  readSnapshot (marshalSnapshot snap) = Some (shown snap) /\
  (isAscii topic -> ssTopicName (Summary (shown snap)) = topic) /\
  rSent r = Some (200, {["Content-Type" := "application/json"]}) /\
  match outcomes with
  | Some _ :: _ => forall j, BodyJSON j ∉ rBody r
  | _ => rBody r = [BodyJSON (marshalSnapshot snap)]
  end /\
  SnapshotHandler topic (failingResponseWriter err) m 0 = 500.
Proof.
  intros snap r Hok. unfold r, SnapshotHandler, NewHandler. fold snap.
  split_and!; [by apply readSnapshot_ok | apply coerce_ascii | | | done].
  - destruct outcomes as [|[e|] [|[e'|] rest]]; done.
  - destruct outcomes as [|[e|] [|[e'|] rest]]; try done; intros j; cbn;
      first [intros ?%not_elem_of_nil | intros ?%list_elem_of_singleton]; done.
Qed.

(** Checks the fields of a concrete snapshot. *)
Ltac snapshot_ok :=
  repeat match goal with
  | |- _ /\ _ => split
  | |- Forall _ _ => constructor
  | |- snapshotOk _ => unfold snapshotOk; cbn [Summary Throughput PreCommits Concurrency Shards fst snd Windows]
  | |- fourDigitYear ?t => vm_compute; split; discriminate
  | |- in_int64 _ => vm_compute; split; done
  | |- summaryOk _ => unfold summaryOk
  | |- throughputOk _ => unfold throughputOk; cbn [Windows]
  | |- entryOk _ => unfold entryOk
  | |- partitionOk _ => unfold partitionOk
  | |- concurrencyOk _ => unfold concurrencyOk
  | |- shardOk _ => unfold shardOk
  end.

(** The snapshot of [Recorder], with two committed partitions and a busy worker. *)
Definition servedAt : Moments Sampled :=
  let st := mkSampled (mkChan [tt] 1) (Some (mkChan [] 1)) (workerShards dr7) twoParts [1; 0] in
  mkMoments 1749997800123456789 st st st st.

Lemma snapshot_served_witness :
  member "summary" (marshalSnapshot (recorderSnapshot (consumerRecorder "orders") servedAt)) =
    Some (JObject [(lit "topicName", JString (lit "orders")); (lit "assignedPartitionCount", JNumber (lit "2"));
                   (lit "totalProcessed", JNumber (lit "0"));
                   (lit "lastRebalanceTime", JString (lit "1970-01-01T00:00:00.000Z"))]) /\
  (let r := SnapshotHandler "orders" netHttp servedAt (newResponse [Some "broken pipe"]) in
   rSent r = Some (200, {["Content-Type" := "application/json"]}) /\ forall j, BodyJSON j ∉ rBody r) /\
  readSnapshot (marshalSnapshot (recorderSnapshot (consumerRecorder "orders") servedAt)) =
    Some (shown (recorderSnapshot (consumerRecorder "orders") servedAt)).
Proof.
  split; [vm_compute; reflexivity|].
  assert (Hok : snapshotOk (recorderSnapshot (consumerRecorder "orders") servedAt)).
  { match goal with |- snapshotOk ?s => let v := eval vm_compute in s in replace s with v by (vm_compute; reflexivity) end.
    snapshot_ok. }
  destruct (snapshot_served "orders" servedAt [Some "broken pipe"%string] "e" Hok) as (H1 & _ & H2 & H3 & _).
  split; [split; [exact H2 | exact H3] | exact H1].
Defined.
