(* ===== verification/Throttle.v ===== *)
(** * Rate limiting ([demux/pipeline/throttle])

    The token bucket: a channel of [burst] tokens, filled at the start and
    refilled by a goroutine that forwards the ticks of a ticker.  The expression
    [c <- <-ticker.C] of its [select] is evaluated when the [select] is entered:
    the goroutine waits for a tick before it looks at the cancellation. *)
From S2P Require Import Prelude.
From stdpp Require Import base list relations.
Open Scope Z_scope.

Definition minRate : Z := 1.
Definition maxRate : Z := 5000.

Inductive ThrottleError := BadRate | BadBurst.

Definition validateRate (ratePerSec : Z) : bool :=
  negb ((ratePerSec <? minRate) || (ratePerSec >? maxRate)).

(** The refill goroutine: entering the [select], or in it with a tick to send. *)
Inductive RefillPc := AwaitingTick | Offering | RefillExited.

(** [tickReady]: the ticker's channel, of capacity one, holds a tick; [ticks] and
    [granted] count the ticks fired and the calls of [Await] that returned. *)
Record TokenBucket := mkBucket {
  tokens : Chan unit;
  tickInterval : Z;
  tickReady : bool;
  tickerStopped : bool;
  cancelled : bool;
  refill : RefillPc;
  ticks : Z;
  granted : Z
}.

(** The loop of [createAndPreFillBurstChannel]; [burst] turns fill the channel. *)
Fixpoint preFill (n : nat) (c : Chan unit) : Chan unit :=
  match n with
  | O => c
  | S n' => match trySend c () with Some c' => preFill n' c' | None => c end
  end.

Definition NewTokenBucket (ratePerSec burst : Z) : ThrottleError + TokenBucket :=
  if negb (validateRate ratePerSec) then inl BadRate
  else if burst <? 1 then inl BadBurst
  else inr (mkBucket (preFill (S (Z.to_nat burst)) (makeChan burst)) (Z.quot second ratePerSec)
              false false false AwaitingTick 0 0).

Definition NewTicker (ratePerSec : Z) : ThrottleError + TokenBucket := NewTokenBucket ratePerSec 1.

Inductive throttleStep (b : TokenBucket) : TokenBucket -> Prop :=
| Tick :
    tickerStopped b = false ->
    throttleStep b (mkBucket (tokens b) (tickInterval b) true false (cancelled b)
                      (refill b) (ticks b + 1) (granted b))
| TakeTick :
    refill b = AwaitingTick -> tickReady b = true ->
    throttleStep b (mkBucket (tokens b) (tickInterval b) false (tickerStopped b) (cancelled b)
                      Offering (ticks b) (granted b))
| SendToken c :
    refill b = Offering -> trySend (tokens b) () = Some c ->
    throttleStep b (mkBucket c (tickInterval b) (tickReady b) (tickerStopped b) (cancelled b)
                      AwaitingTick (ticks b) (granted b))
| SeeCancelled :
    refill b = Offering -> cancelled b = true ->
    throttleStep b (mkBucket (tokens b) (tickInterval b) (tickReady b) (tickerStopped b) true
                      RefillExited (ticks b) (granted b))
| Await c :
    tryRecv (tokens b) = Some (tt, c) ->
    throttleStep b (mkBucket c (tickInterval b) (tickReady b) (tickerStopped b) (cancelled b)
                      (refill b) (ticks b) (granted b + 1))
| Stop :
    throttleStep b (mkBucket (tokens b) (tickInterval b) (tickReady b) true true (refill b) (ticks b) (granted b)).

(** ** Facts *)

(** The tokens, and the ticks on their way to become one. *)
Definition onTheWay (b : TokenBucket) : Z :=
  chLen (tokens b) + Z.b2z (tickReady b) + match refill b with Offering => 1 | _ => 0 end.

Definition bucketInv (burst : Z) (b : TokenBucket) : Prop :=
  chCap (tokens b) = burst /\ chLen (tokens b) <= burst.

Lemma preFill_full n (c : Chan unit) :
  chLen c <= chCap c -> chCap c - chLen c <= Z.of_nat n ->
  chCap (preFill n c) = chCap c /\ chLen (preFill n c) = chCap c.
Proof.
  revert c. induction n as [|n IH]; intros c Hle Hn; simpl; [lia|]. unfold trySend.
  destruct (Z.ltb_spec (chLen c) (chCap c)) as [Hlt|Hge]; [|lia].
  assert (E : chLen (mkChan (queued c ++ [()]) (chCap c)) = chLen c + 1)
    by (unfold chLen; simpl; rewrite length_app; simpl; lia).
  destruct (IH (mkChan (queued c ++ [()]) (chCap c))) as [H1 H2]; [rewrite E; simpl; lia..|]. done.
Qed.

Lemma NewTokenBucket_inv rate burst b :
  NewTokenBucket rate burst = inr b ->
  1 <= rate <= 5000 /\ 1 <= burst /\ bucketInv burst b /\ chLen (tokens b) = burst.
Proof.
  unfold NewTokenBucket, validateRate, minRate, maxRate. rewrite Z.gtb_ltb.
  destruct (Z.ltb_spec rate 1); [done|]. destruct (Z.ltb_spec 5000 rate); [done|]. cbn [orb negb].
  destruct (Z.ltb_spec burst 1); [done|].
  destruct (preFill_full (S (Z.to_nat burst)) (makeChan burst)) as [F1 F2].
  - unfold chLen. simpl. lia.
  - unfold chLen. cbn [queued makeChan chCap length]. lia.
  - generalize dependent (preFill (S (Z.to_nat burst)) (makeChan burst)). intros c F1 F2 [= <-].
    unfold bucketInv. simpl in *. lia.
Qed.

Lemma throttle_step burst b b' :
  throttleStep b b' -> bucketInv burst b ->
  bucketInv burst b' /\ granted b' + onTheWay b' <= granted b + onTheWay b + (ticks b' - ticks b).
Proof.
  intros Hs [Hc Hl]. destruct Hs as [Ht|Hr Ht|c Hr Hc'|Hr Hx|c Hr|]; unfold bucketInv, onTheWay in *; simpl.
  - split; [done|]. destruct (tickReady b); simpl; lia.
  - rewrite Hr, Ht. split; [done|]. simpl. lia.
  - unfold trySend in Hc'. destruct (Z.ltb_spec (chLen (tokens b)) (chCap (tokens b))); [|done].
    injection Hc' as <-. rewrite Hr. unfold chLen in *. simpl in *. rewrite length_app. simpl. lia.
  - rewrite Hr. split; [done|]. lia.
  - unfold tryRecv in Hr. unfold chLen in *. destruct (queued (tokens b)) as [|x q] eqn:E; [done|].
    injection Hr as -> <-. simpl in *. lia.
  - split; [done|]. lia.
Qed.

Lemma throttle_run burst b b' :
  rtc throttleStep b b' -> bucketInv burst b ->
  bucketInv burst b' /\ granted b' + onTheWay b' <= granted b + onTheWay b + (ticks b' - ticks b).
Proof.
  induction 1 as [b|b b1 b' Hs _ IH]; intros HI; [split; [done|lia]|].
  destruct (throttle_step burst b b1 Hs HI) as [HI1 H1]. destruct (IH HI1) as [HI2 H2]. split; [done|lia].
Qed.

(** A goroutine waiting for the next tick when the ticker is stopped. *)
Definition strandedAt (b : TokenBucket) : Prop :=
  refill b = AwaitingTick /\ tickReady b = false /\ tickerStopped b = true.

Lemma stranded_run b b' : rtc throttleStep b b' -> strandedAt b -> strandedAt b'.
Proof.
  induction 1 as [|b b1 b' Hs _ IH]; [done|]. intros (H1 & H2 & H3). apply IH.
  destruct Hs as [Ht|Hr Ht|c Hr Hc|Hr Hx|c Hr|]; try congruence; by split_and!.
Qed.

(** ** Properties *)

(** C38: the rate limit.  The bucket starts full, and between any two moments at
    most [burst] calls of [Await] return beyond the ticks that fired in between,
    plus the two ticks that may have been on their way to the bucket. *)
Theorem rate_limited rate burst b0 b b' :
  NewTokenBucket rate burst = inr b0 -> rtc throttleStep b0 b -> rtc throttleStep b b' ->
  chLen (tokens b0) = burst /\
  granted b' - granted b <= (ticks b' - ticks b) + burst + 2.
Proof.
  intros H0 Hr Hr'. destruct (NewTokenBucket_inv rate burst b0 H0) as (_ & _ & HI0 & Hfull). split; [done|].
  destruct (throttle_run burst b0 b Hr HI0) as [HI _].
  destruct (throttle_run burst b b' Hr' HI) as [_ Hg]. destruct HI as [_ Hl]. unfold onTheWay in *.
  assert (0 <= chLen (tokens b')) by (unfold chLen; lia).
  destruct (tickReady b), (tickReady b'), (refill b), (refill b'); simpl in *; lia.
Qed.

Definition bucket2 : TokenBucket :=
  match NewTokenBucket 10 2 with inr b => b | inl _ => mkBucket (makeChan 0) 0 false false false AwaitingTick 0 0 end.
Definition bucket2' : TokenBucket := mkBucket (mkChan [tt] 2) 100000000 false false false AwaitingTick 0 1.

Lemma rate_limited_witness : tickInterval bucket2 = 100000000 /\ granted bucket2' - granted bucket2 <= (0 - 0) + 2 + 2.
Proof.
  split; [reflexivity|].
  refine (proj2 (rate_limited 10 2 bucket2 bucket2 bucket2' eq_refl (rtc_refl _ _) _)).
  apply rtc_once. apply (Await bucket2). reflexivity.
Defined.

(** A stopped rate limiter leaks its goroutine.  [Stop] cancels the context and
    stops the ticker, but the goroutine is waiting for a tick, not in the [select]:
    from then on no step of the program lets it leave. *)
Lemma stopped_limiter_leaks b b' :
  refill b = AwaitingTick -> tickReady b = false ->
  rtc throttleStep (mkBucket (tokens b) (tickInterval b) (tickReady b) true true (refill b) (ticks b) (granted b)) b' ->
  cancelled b' = true /\ refill b' = AwaitingTick.
Proof.
  intros Hr Ht Hs. split.
  - assert (Hc : forall x y, rtc throttleStep x y -> cancelled x = true -> cancelled y = true).
    { induction 1 as [|x y z Hxy _ IH]; [done|]. intros Hx. apply IH. by destruct Hxy. }
    by apply (Hc _ _ Hs).
  - destruct (stranded_run _ _ Hs) as (H & _ & _); [by split_and! | done].
Qed.
