(* ===== verification/Drain.v ===== *)
(** * The drain coordinator ([demux/drain/drain_coordinator.go])

    [Drain] waits for the workers, then for the committer, and trips the breaker
    on any error.  Its mutex makes drains follow one another.  The waits are
    arguments: [workersDone], whether [DrainWorkers] (see [DemuxDrain]) returns
    before the timer, and those of [DrainCommitter]. *)
From S2P Require Import Prelude Types Tracker Committer CommitterFacts World Run.
From stdpp Require Import base gmap list.
Open Scope Z_scope.

Section Drain.
Context `{NX : Nexus} `{RT : GoRuntime}.

Inductive CoordinatorError := WorkersTimeout | CommitterError (e : DrainError).

(** [drainWorkers]: the [select] between the end of [DrainWorkers] and the timer. *)
Definition drainWorkers (workersDone : bool) : option CoordinatorError :=
  if workersDone then None else Some WorkersTimeout.

(** [drainCommitter] *)
Definition drainCommitter (commit : Committer -> Committer * list Message * option CommitError)
    (yield wait : Committer -> Committer) (gotToken : bool) (oc : Committer)
    : Committer * list Message * option CoordinatorError :=
  let '(oc, sent, err) := DrainCommitter commit yield wait gotToken oc in (oc, sent, CommitterError <$> err).

(** The committer, the messages sent to the broker, the error, and whether the
    breaker was tripped (by the deferred function, on any error). *)
Definition Drain (workersDone : bool) (commit : Committer -> Committer * list Message * option CommitError)
    (yield wait : Committer -> Committer) (gotToken : bool) (oc : Committer)
    : Committer * list Message * option CoordinatorError * bool :=
  let '(oc, sent, err) :=
    match drainWorkers workersDone with
    | Some e => (oc, [], Some e)
    | None => drainCommitter commit yield wait gotToken oc
    end in
  (oc, sent, err, bool_decide (is_Some err)).

(** [ImmediateCommit] *)
Definition ImmediateCommit (commit : Committer -> Committer * list Message * option CommitError)
    (oc : Committer) : Committer * list Message * option CommitError := commit oc.

(** The channel the committer's drain looks at after its yield. *)
Definition channelSeen (yield : Committer -> Committer) (oc : Committer) : Z :=
  chLen (commitsIn (yield (clearDrained oc))).

(** C24: what a drain reports.  It fails, and then trips the breaker, exactly when
    the workers did not finish in time, the committer's channel did not empty in
    time, or the final commit failed before reaching the broker; a commit the
    broker rejected is not a failure of the drain.  Unless the workers timed out, a
    final commit was made and its messages are the ones reported; if they did, the
    committer is left as it was. *)
Theorem drain_reports workersDone commit yield wait gotToken oc oc' sent err tripped :
  Drain workersDone commit yield wait gotToken oc = (oc', sent, err, tripped) ->
  (tripped = true <-> err <> None) /\
  if workersDone then
    exists oc1 e, commit oc1 = (oc', sent, e) /\
      (err = None <->
         (channelSeen yield oc = 0 \/ gotToken = true) /\ (e = None \/ e = Some ErrBrokerCommitFailed))
  else oc' = oc /\ sent = [] /\ err = Some WorkersTimeout.
Proof.
  unfold Drain, drainWorkers, drainCommitter, DrainCommitter, surfaceFinalCommit, channelSeen. destruct workersDone.
  2:{ intros [= <- <- <- <-]. done. }
  destruct (Z.eqb_spec (chLen (commitsIn (yield (clearDrained oc)))) 0) as [E|E]; destruct gotToken;
    match goal with |- context [commit ?x] => destruct (commit x) as [[oc2 sent2] [e|]] eqn:Ec end;
    try destruct e; intros [= <- <- <- <-];
    (split; [done|]); eexists _, _; (split; [exact Ec|]); (split; [|by intros [[?|?] [?|?]]]); auto; done.
Qed.

End Drain.

(** The run of [Run] at its drain: the batch has been ingested, one commit is made. *)
Definition finalCommit (oc : Committer) : Committer * list Message * option CommitError :=
  CommitOffsets oc true (fun _ => false) (keys oc) (keys oc) 11.
Definition drained6 : Committer * list Message * option CoordinatorError * bool :=
  Drain true finalCommit (fun oc => oc) (fun oc => oc) false (wOc run6).

Lemma drain_reports_witness :
  map Offset drained6.1.1.2 = [1] /\ drained6.1.2 = None /\
  exists oc1 e, finalCommit oc1 = (drained6.1.1.1, drained6.1.1.2, e).
Proof.
  split; [vm_compute; reflexivity|]. split; [vm_compute; reflexivity|].
  assert (E : Drain true finalCommit (fun oc => oc) (fun oc => oc) false (wOc run6) =
              (drained6.1.1.1, drained6.1.1.2, drained6.1.2, drained6.2))
    by (unfold drained6; destruct (Drain _ _ _ _ _ _) as [[[? ?] ?] ?]; reflexivity).
  destruct (drain_reports true finalCommit (fun oc => oc) (fun oc => oc) false (wOc run6) _ _ _ _ E)
    as [_ (oc1 & e & H & _)].
  exists oc1, e. exact H.
Defined.
