(* ===== verification/DrainCalls.v ===== *)
(** * Concurrent drains ([demux/drain/drain_coordinator.go])

    A revoke and a shutdown may both call [Coordinator.Drain], on goroutines of their
    own, while the committer's goroutines go on.  A step is one atomic action: of a
    call, between [Lock], the end of the workers' drain, the clearing of the [drained]
    token, the look at the channel, the wait, the final commit, the trip and [Unlock];
    or of another goroutine on the committer.  [Drain] is one call as a function.

    [log] records, for the proofs, what each call saw and did. *)
From S2P Require Import Prelude Types Tracker Committer CommitterFacts Handover Run Drain.
From stdpp Require Import base gmap list relations.
Open Scope Z_scope.

Section DrainCalls.
Context `{NX : Nexus} `{RT : GoRuntime}.

(** Where a call of [Drain] stands.  [seen]: the committer when the length of its
    channel was read. *)
Inductive CoordinatorPc :=
| DrainCalled                                    (* about to [Lock] *)
| DrainLocked                                    (* the timer runs; the workers drain *)
| WorkersDrained                                 (* [DrainCommitter]: about to clear the token *)
| TokenCleared                                   (* [Gosched], then [len(commitsIn)] *)
| AwaitToken (seen : Committer)                  (* the token, or the grace period or the timer *)
| FinalCommit (seen : Committer) (gotToken : bool)
| DrainEnds (err : option CoordinatorError)      (* the deferred function: trips on an error *)
| DrainUnlocks (err : option CoordinatorError)
| DrainReturned (err : option CoordinatorError).

(** What a call sees and does. *)
Inductive DrainEvent :=
| WorkersEnded (inTime : bool)                   (* the workers finished, or the timer fired *)
| Cleared                                        (* an old token was taken away, if there was one *)
| Looked (len : Z)                               (* the length of the committer's channel *)
| Waited (gotToken : bool)                       (* the token came, or the time was over *)
| Commits (sent : list Message) (e : option CommitError)   (* a call of [CommitOffsets] *)
| Tripped (e : CoordinatorError).                (* a call of [TriggerEmergencyShutdown] *)

Record Coordinator := mkCoordinator {
  holder : option Z;                             (* the goroutine that holds [mu] *)
  committer : Committer;
  drains : gmap Z CoordinatorPc;
  log : list (Z * DrainEvent)                    (* by goroutine *)
}.

Definition NewDrainCoordinator (oc : Committer) : Coordinator := mkCoordinator None oc ∅ [].

Implicit Types (s : Coordinator) (pc : CoordinatorPc) (oc : Committer).

Definition setDrain (g : Z) pc s : Coordinator :=
  mkCoordinator (holder s) (committer s) (<[g := pc]> (drains s)) (log s).
Definition setHolder (h : option Z) s : Coordinator := mkCoordinator h (committer s) (drains s) (log s).
Definition setCommitter oc s : Coordinator := mkCoordinator (holder s) oc (drains s) (log s).
Definition logs (g : Z) (ev : DrainEvent) s : Coordinator :=
  mkCoordinator (holder s) (committer s) (drains s) (log s ++ [(g, ev)]).

(** What the world decides: whether the workers finish before the timer, whether a
    wait ends by its timer, and the circumstances of a call of [CommitOffsets]. *)
Record DrainChoice := mkDrainChoice {
  inTime : bool;
  expired : bool;
  guardFree : bool;
  brokerFails : list Message -> bool;
  order1 : list Z;
  order2 : list Z;
  clock : Z
}.

Definition commitNow (ch : DrainChoice) oc : Committer * list Message * option CommitError :=
  CommitOffsets oc (guardFree ch) (brokerFails ch) (order1 ch) (order2 ch) (clock ch).

(** The wait of [DrainCommitter]: a token is taken, or the time is over. *)
Definition endWait (g : Z) (seen : Committer) (ch : DrainChoice) s : option Coordinator :=
  if expired ch then Some (setDrain g (FinalCommit seen false) (logs g (Waited false) s))
  else match queued (drained (committer s)) with
  | [] => None
  | _ => Some (setDrain g (FinalCommit seen true) (logs g (Waited true) (setCommitter (clearDrained (committer s)) s)))
  end.

(** The last commit: of a channel found empty, or after a token, it is the final
    one of [surfaceFinalCommit]; otherwise the timeout's, whose error is only logged. *)
Definition lastCommit (g : Z) (seen : Committer) (gotToken : bool) (ch : DrainChoice) s : Coordinator :=
  let '(oc, sent, e) := commitNow ch (committer s) in
  let err :=
    if (chLen (commitsIn seen) =? 0) || gotToken
    then (surfaceFinalCommit (commitNow ch) (committer s)).2
    else Some DrainTimeout in
  setDrain g (DrainEnds (CommitterError <$> err)) (logs g (Commits sent e) (setCommitter oc s)).

(** The next action of the call on goroutine [g]; [None] while it waits. *)
Definition drainAction (g : Z) pc (ch : DrainChoice) s : option Coordinator :=
  match pc with
  | DrainCalled =>
      match holder s with
      | Some _ => None
      | None => Some (setDrain g DrainLocked (setHolder (Some g) s))
      end
  | DrainLocked =>
      Some (setDrain g (match drainWorkers (inTime ch) with
                        | Some e => DrainEnds (Some e)
                        | None => WorkersDrained
                        end) (logs g (WorkersEnded (inTime ch)) s))
  | WorkersDrained =>
      Some (setDrain g TokenCleared (logs g Cleared (setCommitter (clearDrained (committer s)) s)))
  | TokenCleared => Some (setDrain g (AwaitToken (committer s)) (logs g (Looked (chLen (commitsIn (committer s)))) s))
  | AwaitToken seen => endWait g seen ch s
  | FinalCommit seen gotToken => Some (lastCommit g seen gotToken ch s)
  | DrainEnds err =>
      Some (setDrain g (DrainUnlocks err) (match err with Some e => logs g (Tripped e) s | None => s end))
  | DrainUnlocks err => Some (setDrain g (DrainReturned err) (setHolder None s))
  | DrainReturned _ => None
  end.

(** A turn of the loop of [startAsyncCommits]: a commit whose error is only logged;
    [None] once the context is done. *)
Definition startAsyncCommits (ctxDone : bool) (ch : DrainChoice) oc : option (Committer * option CommitError) :=
  if ctxDone then None else let '(oc, _, err) := commitNow ch oc in Some (oc, err).

(** What the other goroutines do with the committer.  Its own mutex is left out, which
    allows more interleavings than the code has. *)
Inductive committerStep oc : Committer -> Prop :=
| Arrives w oc' : CollectAndCommit oc w = Some oc' -> committerStep oc oc'
| IngestsNext now oc' : ingestNext oc now = Some oc' -> committerStep oc oc'
| BatchEnds order now : committerStep oc (ingestEnd oc order now)
| Ticks ctxDone ch oc' err : startAsyncCommits ctxDone ch oc = Some (oc', err) -> committerStep oc oc'
| Resets pos : committerStep oc (ResetCommittedOffsets oc pos)
| Assigns p now : committerStep oc (MarkPartitionAssigned oc p now)
| Revokes p now : committerStep oc (MarkPartitionRevoked oc p now).

(** The steps of the calls, and those of the world around them. *)
Inductive callsStep s : Coordinator -> Prop :=
| CallAct g pc ch s' : drains s !! g = Some pc -> drainAction g pc ch s = Some s' -> callsStep s s'.

Inductive drainsStep s : Coordinator -> Prop :=
| DrainActs s' : callsStep s s' -> drainsStep s s'
| DrainCall g : drains s !! g = None -> drainsStep s (setDrain g DrainCalled s)
| CommitterActs oc' : committerStep (committer s) oc' -> drainsStep s (setCommitter oc' s).

(** ** The mutex *)

Definition inside pc : bool := match pc with DrainCalled | DrainReturned _ => false | _ => true end.

(** ** What a call did *)

(** The error of a drain, from what it saw and from the outcome of its commit. *)
Definition reports (workersDone : bool) (seen : Z) (gotToken : bool) (e : option CommitError) : option CoordinatorError :=
  if negb workersDone then Some WorkersTimeout
  else if (seen =? 0) || gotToken then
    match e with
    | None | Some ErrBrokerCommitFailed => None
    | Some e => Some (CommitterError (DrainCommitError e))
    end
  else Some (CommitterError DrainTimeout).

(** It is the error of [Drain]. *)
Lemma Drain_error workersDone commit yield wait gotToken oc oc' sent err tripped :
  Drain workersDone commit yield wait gotToken oc = (oc', sent, err, tripped) ->
  exists e, err = reports workersDone (channelSeen yield oc) gotToken e /\
    (workersDone = true -> exists oc1, commit oc1 = (oc', sent, e)).
Proof.
  unfold Drain, drainWorkers, drainCommitter, DrainCommitter, surfaceFinalCommit, channelSeen, reports.
  destruct workersDone; [|intros [= <- <- <- <-]; by exists None].
  destruct (chLen (commitsIn (yield (clearDrained oc))) =? 0), gotToken;
    match goal with |- context [commit ?x] => destruct (commit x) as [[oc2 sent2] [e|]] eqn:Ec end;
    try destruct e; intros [= <- <- <- <-]; eexists; (split; [|intros _; eexists; exact Ec]); done.
Qed.

(** The events of the call on goroutine [g]. *)
Definition eventsOf (g : Z) (l : list (Z * DrainEvent)) : list DrainEvent :=
  map snd (filter (fun ev => ev.1 = g) l).

(** The trace of a call that ends with [err], up to its trip: the workers timed out, and
    nothing was committed; or the token was cleared, the channel looked at, the wait
    ended, and one commit was made, whose outcome the error reports. *)
Definition endTrace (evs : list DrainEvent) (err : option CoordinatorError) : Prop :=
  (evs = [WorkersEnded false] /\ err = reports false 0 false None) \/
  exists seen gotToken sent e,
    evs = [WorkersEnded true; Cleared; Looked seen; Waited gotToken; Commits sent e] /\
    err = reports true seen gotToken e.

Definition tripOf (err : option CoordinatorError) : list DrainEvent :=
  match err with Some e => [Tripped e] | None => [] end.

Definition traceOk pc (evs : list DrainEvent) : Prop :=
  match pc with
  | DrainCalled | DrainLocked => evs = []
  | WorkersDrained => evs = [WorkersEnded true]
  | TokenCleared => evs = [WorkersEnded true; Cleared]
  | AwaitToken seen => evs = [WorkersEnded true; Cleared; Looked (chLen (commitsIn seen))]
  | FinalCommit seen gotToken =>
      evs = [WorkersEnded true; Cleared; Looked (chLen (commitsIn seen)); Waited gotToken]
  | DrainEnds err => endTrace evs err
  | DrainUnlocks err | DrainReturned err => exists evs0, endTrace evs0 err /\ evs = evs0 ++ tripOf err
  end.

(** An event as it happens: what it records of the committer is so, and the committer
    changes as it says. *)
Definition happened (ev : DrainEvent) oc oc' : Prop :=
  match ev with
  | Cleared => oc' = clearDrained oc
  | Looked len => len = chLen (commitsIn oc) /\ oc' = oc
  | Waited true => queued (drained oc) <> [] /\ oc' = clearDrained oc
  | Commits sent e => exists ch, commitNow ch oc = (oc', sent, e)
  | _ => oc' = oc
  end.

Record drainsInv s : Prop := {
  di_inside : forall g pc, drains s !! g = Some pc -> inside pc = true -> holder s = Some g;
  di_holder : forall g, holder s = Some g -> exists pc, drains s !! g = Some pc /\ inside pc = true;
  di_trace : forall g pc, drains s !! g = Some pc -> traceOk pc (eventsOf g (log s));
  di_fresh : forall g, drains s !! g = None -> eventsOf g (log s) = []
}.

Lemma eventsOf_app g l l' : eventsOf g (l ++ l') = eventsOf g l ++ eventsOf g l'.
Proof. unfold eventsOf. by rewrite filter_app, map_app. Qed.

Lemma eventsOf_same g evs : eventsOf g (map (pair g) evs) = evs.
Proof.
  unfold eventsOf. induction evs as [|ev evs IH]; [done|]. cbn [map].
  rewrite filter_cons, decide_True by done. cbn [map snd]. by rewrite IH.
Qed.

Lemma eventsOf_other g g' evs : g' <> g -> eventsOf g' (map (pair g) evs) = [].
Proof.
  intros Hne. unfold eventsOf. induction evs as [|ev evs IH]; [done|]. cbn [map].
  by rewrite filter_cons, decide_False.
Qed.

(** The call on [g] moves from [pc] to [pc'], logging [evs]. *)
Record moved (g : Z) pc' (evs : list DrainEvent) s s' : Prop := {
  mv_drains : drains s' = <[g := pc']> (drains s);
  mv_log : log s' = log s ++ map (pair g) evs
}.

Lemma moved_trace s s' g pc pc' evs :
  drainsInv s -> drains s !! g = Some pc -> moved g pc' evs s s' ->
  (traceOk pc (eventsOf g (log s)) -> traceOk pc' (eventsOf g (log s) ++ evs)) ->
  (forall g' q, drains s' !! g' = Some q -> traceOk q (eventsOf g' (log s'))) /\
  (forall g', drains s' !! g' = None -> eventsOf g' (log s') = []).
Proof.
  intros [_ _ H3 H4] Hg [ED EL] Ht. rewrite ED, EL. split.
  - intros g' q. rewrite lookup_insert, eventsOf_app. case_decide as Hd.
    + intros [= <-]. subst g'. rewrite eventsOf_same. by apply Ht, H3.
    + rewrite eventsOf_other, app_nil_r by done. apply H3.
  - intros g'. rewrite lookup_insert, eventsOf_app. case_decide as Hd; [done|].
    rewrite eventsOf_other, app_nil_r by done. apply H4.
Qed.

(** A call inside the mutex moves on inside it. *)
Lemma drain_move s s' g pc pc' evs :
  drainsInv s -> drains s !! g = Some pc -> inside pc = true -> inside pc' = true ->
  holder s' = holder s -> moved g pc' evs s s' ->
  (traceOk pc (eventsOf g (log s)) -> traceOk pc' (eventsOf g (log s) ++ evs)) -> drainsInv s'.
Proof.
  intros HI Hg Hi Hi' EH HM Ht. pose proof HI as [H1 H2 H3 H4].
  destruct (moved_trace s s' g pc pc' evs HI Hg HM Ht) as [H3' H4']. destruct HM as [ED _]. split; [| |done | done].
  - intros g' q. rewrite ED, lookup_insert, EH. case_decide; [subst; intros _ _; by eapply H1 | apply H1].
  - intros g'. rewrite EH, ED. intros Hh. rewrite (H1 g pc Hg Hi) in Hh. injection Hh as <-.
    exists pc'. by rewrite lookup_insert_eq.
Qed.

Lemma endWait_cases g seen ch s s' :
  endWait g seen ch s = Some s' ->
  exists gotToken oc', s' = setDrain g (FinalCommit seen gotToken) (logs g (Waited gotToken) (setCommitter oc' s)) /\
    happened (Waited gotToken) (committer s) oc'.
Proof.
  unfold endWait. destruct (expired ch).
  - intros [= <-]. by exists false, (committer s).
  - destruct (queued _) eqn:Eq; [done|]. intros [= <-]. exists true, (clearDrained (committer s)). split; [done|]. cbn. by rewrite Eq.
Qed.

(** The last commit is one call of [CommitOffsets], and its outcome is reported. *)
Lemma lastCommit_cases g seen gotToken ch s :
  exists oc sent e, commitNow ch (committer s) = (oc, sent, e) /\
    lastCommit g seen gotToken ch s =
      setDrain g (DrainEnds (reports true (chLen (commitsIn seen)) gotToken e)) (logs g (Commits sent e) (setCommitter oc s)).
Proof.
  unfold lastCommit, surfaceFinalCommit, reports. destruct (commitNow ch (committer s)) as [[oc sent] e] eqn:E.
  exists oc, sent, e. split; [done|]. cbn. destruct ((chLen (commitsIn seen) =? 0) || gotToken); [|done].
  by destruct e as [[]|].
Qed.

Lemma drainAction_inv s g pc ch s' :
  drainsInv s -> drains s !! g = Some pc -> drainAction g pc ch s = Some s' -> drainsInv s'.
Proof.
  intros HI Hg Ha. destruct pc as [| | | |seen|seen got|err|err|err]; cbn in Ha; try discriminate.
  - destruct (holder s) eqn:Eh; [done|]. injection Ha as <-. pose proof HI as [H1 H2 _ _].
    destruct (moved_trace s (setDrain g DrainLocked (setHolder (Some g) s)) g DrainCalled DrainLocked []) as [H3 H4]; try done.
    { split; cbn; [done | by rewrite app_nil_r]. }
    { by rewrite app_nil_r. }
    split; [| |done | done]; cbn.
    + intros g' q. rewrite lookup_insert. case_decide; [by subst|]. intros Hq Hi. pose proof (H1 g' q Hq Hi). congruence.
    + intros g' [= <-]. exists DrainLocked. by rewrite lookup_insert_eq.
  - injection Ha as <-. unfold drainWorkers. destruct (inTime ch).
    + eapply (drain_move s _ g DrainLocked WorkersDrained [WorkersEnded true]); try done. cbn. by intros ->.
    + eapply (drain_move s _ g DrainLocked (DrainEnds (Some WorkersTimeout)) [WorkersEnded false]); try done.
      cbn. intros ->. by left.
  - injection Ha as <-. eapply (drain_move s _ g WorkersDrained TokenCleared [Cleared]); try done.
    cbn. by intros ->.
  - injection Ha as <-. eapply (drain_move s _ g TokenCleared (AwaitToken (committer s)) [Looked _]); try done.
    cbn. by intros ->.
  - apply endWait_cases in Ha as (got & oc' & -> & _).
    eapply (drain_move s _ g (AwaitToken seen) (FinalCommit seen got) [Waited got]); try done. cbn. by intros ->.
  - injection Ha as <-. destruct (lastCommit_cases g seen got ch s) as (oc & sent & e & _ & ->).
    eapply (drain_move s _ g (FinalCommit seen got) (DrainEnds (reports true (chLen (commitsIn seen)) got e)) [Commits sent e]); try done.
    cbn. intros ->. right. by eexists _, _, _, _.
  - injection Ha as <-. eapply (drain_move s _ g (DrainEnds err) (DrainUnlocks err) (tripOf err)); try done.
    + by destruct err.
    + split; destruct err; cbn; by rewrite ?app_nil_r.
    + cbn. intros Ht. by eexists.
  - injection Ha as <-. pose proof HI as [H1 H2 _ _].
    destruct (moved_trace s (setDrain g (DrainReturned err) (setHolder None s)) g (DrainUnlocks err) (DrainReturned err) [])
      as [H3 H4]; try done.
    { split; cbn; [done | by rewrite app_nil_r]. }
    { by rewrite app_nil_r. }
    split; [| |done | done]; cbn; [|done].
    intros g' q. rewrite lookup_insert. case_decide; [by intros [= <-]|]. intros Hq Hi.
    pose proof (H1 g' q Hq Hi) as E1. pose proof (H1 g _ Hg eq_refl). congruence.
Qed.

Lemma drains_step s s' : drainsStep s s' -> drainsInv s -> drainsInv s'.
Proof.
  intros [s1 [g pc ch s2 Hg Ha]|g Hg|oc' _] HI; [by eapply drainAction_inv | | by destruct HI].
  pose proof HI as [H1 H2 H3 H4]. split; cbn.
  - intros g' q. rewrite lookup_insert. case_decide; [by intros [= <-] | apply H1].
  - intros g' Hh. destruct (H2 g' Hh) as (pc & Hpc & Hi). exists pc. rewrite lookup_insert_ne; [done | congruence].
  - intros g' q. rewrite lookup_insert. case_decide; [|apply H3]. intros [= <-]. subst g'. by apply H4.
  - intros g'. rewrite lookup_insert. case_decide; [done | apply H4].
Qed.

Lemma drains_reachable oc s : rtc drainsStep (NewDrainCoordinator oc) s -> drainsInv s.
Proof.
  apply (rtc_ind_r drainsInv); [|intros s1 s2 _ Hs HI; by eapply drains_step]. by split.
Qed.

(** Every step that a call makes on the committer is logged as it happened. *)
Lemma step_logged s s' :
  drainsStep s s' ->
  (log s' = log s /\ (committer s' = committer s \/ committerStep (committer s) (committer s'))) \/
  exists g ev, log s' = log s ++ [(g, ev)] /\ happened ev (committer s) (committer s').
Proof.
  intros [s1 [g pc ch s2 Hg Ha]|g Hg|oc' Hc]; [|by left; auto|by left; auto].
  destruct pc as [| | | |seen|seen got|err|err|err]; cbn in Ha; try discriminate.
  - destruct (holder s); [done|]. injection Ha as <-. left. auto.
  - injection Ha as <-. right. by exists g, (WorkersEnded (inTime ch)).
  - injection Ha as <-. right. by exists g, Cleared.
  - injection Ha as <-. right. by exists g, (Looked (chLen (commitsIn (committer s)))).
  - apply endWait_cases in Ha as (got & oc' & -> & Hh). right. by exists g, (Waited got).
  - injection Ha as <-. destruct (lastCommit_cases g seen got ch s) as (oc & sent & e & Hc & ->).
    right. exists g, (Commits sent e). split; [done|]. by exists ch.
  - injection Ha as <-. destruct err as [e|]; [right; by exists g, (Tripped e) | left; auto].
  - injection Ha as <-. left. auto.
Qed.

(** ** The token *)

Definition hasToken s : Prop := queued (drained (committer s)) <> [].

(** Only a drain takes the token. *)
Lemma committerStep_token oc oc' :
  committerStep oc oc' -> queued (drained oc) <> [] -> queued (drained oc') <> [].
Proof.
  intros [w oc1 H|now oc1 H|order now|ctxDone ch oc1 err H|pos|p now|p now] Ht.
  - unfold CollectAndCommit in H. destruct (trySend _ _); [|done]. by injection H as <-.
  - apply ingestNext_cases in H as (w & c & _ & ->). by rewrite processCommit_drained.
  - unfold ingestEnd. rewrite flushGapBuffers_drained. destruct (_ =? _); [|by rewrite flushGapBuffers_drained].
    unfold trySend. destruct (_ <? _); [|by rewrite flushGapBuffers_drained]. cbn. by destruct (queued (drained oc)).
  - unfold startAsyncCommits in H. destruct ctxDone; [done|].
    destruct (commitNow ch oc) as [[oc2 sent] e] eqn:E. injection H as <- <-. by rewrite (CommitOffsets_drained _ _ _ _ _ _ _ _ _ E).
  - by rewrite ResetCommittedOffsets_drained.
  - done.
  - done.
Qed.

Lemma token_kept s s' g seen :
  drainsInv s -> drainsStep s s' -> drains s !! g = Some (AwaitToken seen) -> hasToken s ->
  drains s' !! g = Some (AwaitToken seen) -> hasToken s'.
Proof.
  intros HI Hs Hg Ht Hg'. pose proof (di_inside s HI g _ Hg eq_refl) as Hh.
  destruct Hs as [s1 [g1 pc ch s2 Hg1 Ha]|g1 Hg1|oc' Hc]; [| done | by eapply committerStep_token].
  destruct (decide (g1 = g)) as [->|Hne].
  - rewrite Hg in Hg1. injection Hg1 as <-. apply endWait_cases in Ha as (got & oc' & -> & _).
    cbn in Hg'. by rewrite lookup_insert_eq in Hg'.
  - exfalso. destruct (inside pc) eqn:Ei; [pose proof (di_inside s HI g1 pc Hg1 Ei); congruence|].
    destruct pc; try done. cbn in Ha. by rewrite Hh in Ha.
Qed.

(** ** Termination *)

Definition drainWork pc : nat :=
  match pc with
  | DrainCalled => 8 | DrainLocked => 7 | WorkersDrained => 6 | TokenCleared => 5 | AwaitToken _ => 4
  | FinalCommit _ _ => 3 | DrainEnds _ => 2 | DrainUnlocks _ => 1 | DrainReturned _ => 0
  end.

Lemma action_moves g pc ch s s' :
  drainAction g pc ch s = Some s' ->
  exists pc', drains s' = <[g := pc']> (drains s) /\ (drainWork pc' < drainWork pc)%nat.
Proof.
  intros Ha. destruct pc as [| | | |seen|seen got|err|err|err]; cbn in Ha; try discriminate.
  - destruct (holder s); [done|]. injection Ha as <-. eexists. split; [done | cbn; lia].
  - injection Ha as <-. eexists. split; [done|]. unfold drainWorkers. destruct (inTime ch); cbn; lia.
  - injection Ha as <-. eexists. split; [done | cbn; lia].
  - injection Ha as <-. eexists. split; [done | cbn; lia].
  - apply endWait_cases in Ha as (got & oc' & -> & _). eexists. split; [done | cbn; lia].
  - injection Ha as <-. destruct (lastCommit_cases g seen got ch s) as (oc & sent & e & _ & ->).
    eexists. split; [done | cbn; lia].
  - injection Ha as <-. eexists. split; [by destruct err | cbn; lia].
  - injection Ha as <-. eexists. split; [done | cbn; lia].
Qed.

Lemma calls_lower s s' : callsStep s s' -> (mapSum drainWork (drains s') < mapSum drainWork (drains s))%nat.
Proof.
  intros [g pc ch s1 Hg Ha]. apply action_moves in Ha as (pc' & -> & Hlt).
  pose proof (mapSum_update drainWork _ g pc' pc Hg). lia.
Qed.

(** The call that holds the mutex can act, and if none does, the next can lock it. *)
Lemma calls_move s g pc :
  drainsInv s -> drains s !! g = Some pc -> (exists err, pc = DrainReturned err) \/ exists s', callsStep s s'.
Proof.
  intros HI Hg. set (ch := mkDrainChoice true true true (fun _ => false) [] [] 0).
  assert (Hin : forall h q, drains s !! h = Some q -> inside q = true -> exists s', callsStep s s').
  { intros h q Hh Hi. assert (exists s', drainAction h q ch s = Some s') as [s' Ha]
      by (destruct q; try done; by eexists).
    exists s'. by eapply CallAct. }
  destruct (inside pc) eqn:Ei; [right; by eapply Hin|]. destruct pc; try done; [|left; by eexists]. right.
  destruct (holder s) as [h|] eqn:Eh; [destruct (di_holder s HI h Eh) as (q & Hq & Hi); by eapply Hin|].
  eexists. eapply (CallAct s g DrainCalled ch); [done|]. cbn. by rewrite Eh.
Qed.

(** ** Properties *)

(** C19: drains follow one another.  However many goroutines call [Drain], and
    whatever the committer's other goroutines do: at most one call is past its [Lock];
    the [drained] token a call waits for is taken by nobody else.  What a call does is
    logged as it happens, with the committer it happens to, and it does nothing else to
    the committer.  A call that has returned has either seen its workers time out, and
    made no commit; or it has cleared the token, looked at the channel, waited, and made
    exactly one call of [CommitOffsets], and the error it returns is the one [Drain]
    gives for what it saw and for the outcome of that commit ([Drain_error]).  In either case it has
    called the breaker exactly if it failed.  And the calls all return, after at most
    eight actions each. *)
Theorem drains_serialized oc s :
  rtc drainsStep (NewDrainCoordinator oc) s ->
  (forall g1 g2 pc1 pc2, drains s !! g1 = Some pc1 -> drains s !! g2 = Some pc2 ->
     inside pc1 = true -> inside pc2 = true -> g1 = g2) /\
  (forall g seen s', drains s !! g = Some (AwaitToken seen) -> hasToken s -> drainsStep s s' ->
     drains s' !! g = Some (AwaitToken seen) -> hasToken s') /\
  (forall s', drainsStep s s' ->
     (log s' = log s /\ (committer s' = committer s \/ committerStep (committer s) (committer s'))) \/
     exists g ev, log s' = log s ++ [(g, ev)] /\ happened ev (committer s) (committer s')) /\
  (forall g err, drains s !! g = Some (DrainReturned err) ->
     (eventsOf g (log s) = WorkersEnded false :: tripOf err /\ err = reports false 0 false None) \/
     exists seen gotToken sent e,
       eventsOf g (log s) =
         [WorkersEnded true; Cleared; Looked seen; Waited gotToken; Commits sent e] ++ tripOf err /\
       err = reports true seen gotToken e) /\
  (forall n s', nsteps callsStep n s s' -> (n <= mapSum drainWork (drains s))%nat) /\
  ((forall s', ~ callsStep s s') -> forall g pc, drains s !! g = Some pc -> exists err, pc = DrainReturned err).
Proof.
  intros HI%drains_reachable. split_and!.
  - intros g1 g2 pc1 pc2 H1 H2 I1 I2. pose proof (di_inside s HI g1 pc1 H1 I1).
    pose proof (di_inside s HI g2 pc2 H2 I2). congruence.
  - intros g seen s' Hg Ht Hs. by eapply token_kept.
  - apply step_logged.
  - intros g err Hg. destruct (di_trace s HI g _ Hg) as (evs & [[-> He]|(seen & got & sent & e & -> & He)] & ->);
      [by left | right; by exists seen, got, sent, e].
  - intros n s' Hn. clear HI. induction Hn as [|n s1 s2 s3 Hs _ IH]; [lia|]. pose proof (calls_lower _ _ Hs). lia.
  - intros Hq g pc Hg. destruct (calls_move s g pc HI Hg) as [He|[s' Hs]]; [done | by destruct (Hq s')].
Qed.
End DrainCalls.

(** Two calls: the second waits for the mutex while the first drains; its workers
    do not finish in time. *)
Definition drainTurn (inTime : bool) (g : Z) (s : Coordinator) : option Coordinator :=
  pc ← drains s !! g;
  drainAction g pc (mkDrainChoice inTime true true (fun _ => false) [] [] 11) s.

Fixpoint drainTurns (inTime : bool) (gs : list Z) (s : Coordinator) : option Coordinator :=
  match gs with [] => Some s | g :: gs => s' ← drainTurn inTime g s; drainTurns inTime gs s' end.

Lemma drainTurns_steps inTime gs s s' : drainTurns inTime gs s = Some s' -> rtc drainsStep s s'.
Proof.
  revert s. induction gs as [|g gs IH]; intros s; cbn; [by intros [= ->]|].
  destruct (drainTurn inTime g s) as [s1|] eqn:Et; [|done]. cbn. intros Hs. unfold drainTurn in Et.
  destruct (drains s !! g) as [pc|] eqn:Hg; [|done]. cbn in Et.
  eapply rtc_l; [apply DrainActs; by eapply CallAct | by apply IH].
Qed.

Definition twoCalls : Coordinator :=
  setDrain 2 DrainCalled (setDrain 1 DrainCalled (NewDrainCoordinator (NewCommitter 4 8 0))).
Definition twoDrains : option Coordinator :=
  s ← drainTurns true (repeat 1 8) twoCalls; drainTurns false (repeat 2 4) s.

Lemma drains_serialized_witness :
  match twoDrains with
  | Some s =>
      drains s !! 1 = Some (DrainReturned None) /\ drains s !! 2 = Some (DrainReturned (Some WorkersTimeout)) /\
      (exists seen gotToken sent e,
        eventsOf 1 (log s) = [WorkersEnded true; Cleared; Looked seen; Waited gotToken; Commits sent e] /\
        None = reports true seen gotToken e) /\
      eventsOf 2 (log s) = [WorkersEnded false; Tripped WorkersTimeout]
  | None => False
  end.
Proof.
  assert (Hsteps : forall s, twoDrains = Some s -> rtc drainsStep (NewDrainCoordinator (NewCommitter 4 8 0)) s).
  { intros s. unfold twoDrains. destruct (drainTurns true (repeat 1 8) twoCalls) as [s1|] eqn:E1; [|discriminate].
    intros E2. eapply rtc_l; [apply (DrainCall _ 1); reflexivity|].
    eapply rtc_l; [apply (DrainCall _ 2); reflexivity|].
    etransitivity; [exact (drainTurns_steps _ _ _ _ E1) | exact (drainTurns_steps _ _ _ _ E2)]. }
  destruct twoDrains as [s|] eqn:Es; [|vm_compute in Es; discriminate].
  destruct (drains_serialized _ s (Hsteps s eq_refl)) as (_ & _ & _ & He & _).
  assert (H1 : drains s !! 1 = Some (DrainReturned None)) by (vm_compute in Es; injection Es as <-; reflexivity).
  assert (H2 : drains s !! 2 = Some (DrainReturned (Some WorkersTimeout)))
    by (vm_compute in Es; injection Es as <-; reflexivity).
  split; [exact H1|]. split; [exact H2|]. split.
  - destruct (He 1 _ H1) as [[_ Hr]|Hx]; [discriminate Hr | exact Hx].
  - destruct (He 2 _ H2) as [[Hx _]|(seen & got & sent & e & Hx & _)]; [exact Hx|].
    exfalso. vm_compute in Es. injection Es as <-. discriminate Hx.
Defined.
