(* ===== verification/Findings.v ===== *)
(** * Defects

    An assign event with no partitions and a drain that ends before the last item is
    ingested, as theorems about every state in which they strike, with a reachable one as
    witness; the dead-letter count of the snapshot window, the age of the snapshot
    window, the work item a duplicate leaves behind, and two ends the host is not, or
    wrongly, told of, on concrete runs.  They are shown on the same definitions the rest
    of the development proves correct; [World] excludes the first by [eventOk]. *)
From S2P Require Import Prelude Types RingBuffer Tracker Committer TrackerFacts Safety CommitterFacts Prev Subscription.
From S2P Require Import Forward RangeOrder World WorldInv WorldSteps Handover Worker Run.
From S2P Require Import Snapshot Drain CircuitBreaker Exit ExitLive.
From stdpp Require Import base gmap list strings relations.
Open Scope Z_scope.

(** ** A tracker with nothing pending *)

Section Defects.
Context `{NX : Nexus} `{RT : GoRuntime} `{RTok : !GoRuntimeOk RT}.
Implicit Types (t : OffsetsTracker) (oc : Committer) (w : World) (x y : WorkItem).

Definition idleTracker t : Prop := Ready t = None /\ elems (GapBuffer t) = [].

Lemma idle_slen t : elems (GapBuffer t) = [] -> slen (GapBuffer t) = 0.
Proof. unfold slen. by intros ->. Qed.

(** A flush changes nothing but a flag of a tracker whose gap buffer is empty. *)
Lemma flush_empty size size70 now t :
  elems (GapBuffer t) = [] ->
  let t' := (flushTracker size size70 now t).1 in
  Ready t' = Ready t /\ elems (GapBuffer t') = [] /\ CommittedPlusOne t' = CommittedPlusOne t.
Proof.
  intros He. unfold flushTracker. destruct (NeedsGapAdvance t); simpl; [|done].
  by rewrite (idle_slen t He).
Qed.

Lemma collect_idle oc now p t : idleTracker t -> (collectAt oc now p t).2.2 = None.
Proof.
  intros [Hr He]. unfold collectAt, collectCommit. destruct (bool_decide _); simpl.
  - rewrite Hr. unfold repairSuccessor. rewrite (idle_slen t He). simpl. by rewrite !Hr.
  - by destruct (discardOrphanedTracker t).
Qed.

(** A tick sends nothing for a partition whose tracker is idle. *)
Lemma tick_idle oc guard broker order1 order2 now oc' sent err p t :
  range_order (PartitionMap oc) order1 -> range_order (PartitionMap oc) order2 -> trackers_all homed oc ->
  PartitionMap oc !! p = Some t -> idleTracker t ->
  CommitOffsets oc guard broker order1 order2 now = (oc', sent, err) -> Forall (fun m => Partition m <> p) sent.
Proof.
  intros Ho1 Ho2 Hh Ht [Hr He] [(_ & -> & _)|(oc2 & Hc & _)]%CommitOffsets_cases; [done|].
  apply Forall_forall. intros msg Hm Hp.
  assert (Hin : msg ∈ (collectCommits (flushGapBuffers oc order1 now) order2 now).2) by by rewrite Hc.
  apply collectCommits_msg in Hin as (q & t' & Hq & Hs); [|by apply flushGapBuffers_range].
  pose proof (collectAt_partition _ _ _ _ _ (homed_flush oc order1 now Hh q t' Hq) Hs) as Hpq. subst q.
  rewrite flushGapBuffers_lookup, Hp, Ht in Hq by done. simpl in Hq. injection Hq as <-.
  destruct (flush_empty (gapBufferSize oc) (gapBufferSize70Pct oc) now t He) as (H1 & H2 & _).
  rewrite collect_idle in Hs; [done|]. split; [by rewrite H1 | done].
Qed.

(** With the guard taken, only the broker can fail a tick. *)
Lemma tick_guarded oc broker order1 order2 now oc' sent err :
  CommitOffsets oc true broker order1 order2 now = (oc', sent, err) -> err = None \/ err = Some ErrBrokerCommitFailed.
Proof.
  unfold CommitOffsets. simpl. destruct (collectCommits _ _ _) as [oc2 [|m ms]]; [intros [= <- <- <-]; by left|].
  destruct (broker _); intros [= <- <- <-]; auto.
Qed.

(** A tick sends the record that is ready, if the gap buffer is empty and the partition
    assigned. *)
Lemma tick_ready oc broker order1 order2 now oc' sent err p t y :
  range_order (PartitionMap oc) order1 -> range_order (PartitionMap oc) order2 ->
  PartitionMap oc !! p = Some t -> p ∈ assigned oc -> elems (GapBuffer t) = [] ->
  Ready t = Some y -> CommittedPlusOne t <= offsetOf y ->
  CommitOffsets oc true broker order1 order2 now = (oc', sent, err) -> wiMessage y ∈ sent.
Proof.
  intros Ho1 Ho2 Ht Ha He Hr Hle Hc.
  destruct (CommitOffsets_cases _ _ _ _ _ _ _ _ _ Hc) as [(_ & _ & ->)|(oc2 & Hcol & _)].
  { by destruct (tick_guarded _ _ _ _ _ _ _ _ Hc). }
  replace sent with (collectCommits (flushGapBuffers oc order1 now) order2 now).2 by by rewrite Hcol.
  destruct (flush_empty (gapBufferSize oc) (gapBufferSize70Pct oc) now t He) as (H1 & _ & H3).
  eapply (collectCommits_in _ _ _ p); [by apply flushGapBuffers_range | by rewrite flushGapBuffers_lookup, Ht |].
  unfold collectAt, collectCommit. rewrite flushGapBuffers_assigned, bool_decide_eq_true_2 by done. simpl.
  rewrite H1, Hr, H1, Hr, H3. by destruct (Z.ltb_spec (offsetOf y) (CommittedPlusOne t)); [lia|].
Qed.

(** ** An assign event with no partitions *)

Variable R : Z -> Z -> Prop.

(** One call of the rebalance handler. *)
Definition handlerTurn w w' : Prop :=
  exists call rest w1, wHandler w = call :: rest /\ execCall R w call w1 /\ w' = setHandler rest w1.

(** The handler has been called with an event that names no partition. *)
Definition emptyAssign (ackErr : bool) w : World :=
  let '(s, calls, _) := HandleRebalance (wSub w) Assign [] ackErr in
  mkWorld (wOc w) (wIngest w) s (wPrev w) (wFetch w) (wPolled w) (wInflight w) calls (wOwned w) (wBroker w) (wDone w).

(** The event reaches [Reset] with no argument, which forgets every partition; the
    committer and the items in flight are left alone. *)
Lemma emptyAssign_handled ackErr w w' :
  rtc handlerTurn (emptyAssign ackErr w) w' -> wHandler w' = [] ->
  wPrev w' = ∅ /\ wOc w' = wOc w /\ wInflight w' = wInflight w.
Proof.
  intros Hr He. unfold emptyAssign in Hr. simpl in Hr.
  inversion Hr as [|? w1 ? (call & rest & w1' & Hh & Hx & ->) Hr1]; subst; [done|].
  simpl in Hh. injection Hh as <- <-. inversion Hx; subst. clear Hx Hr.
  inversion Hr1 as [|? w2 ? (call & rest & w2' & Hh & Hx & ->) Hr2]; subst; [done|].
  simpl in Hh. injection Hh as <- <-. inversion Hx as [| |m pos _ Hp| | | | |]; subst. clear Hx Hr1.
  replace (map_to_list (∅ : gmap Z Z)) with (@nil (Z * Z)) in Hp by by rewrite map_to_list_empty.
  apply Permutation_nil_r in Hp as ->.
  inversion Hr2 as [|? w3 ? (call & rest & w3' & Hh & Hx & ->) Hr3]; subst; [done|].
  simpl in Hh. injection Hh as <- <-. inversion Hx; subst. clear Hx Hr2.
  inversion Hr3 as [|? w4 ? (call & rest & w4' & Hh & _) _]; subst; [done|]. done.
Qed.

(** An item stamped as the first of its epoch becomes ready at once in an idle tracker
    that is not past it. *)
Lemma first_ready t y now :
  idleTracker t -> First y = true -> CommittedPlusOne t <= offsetOf y ->
  let t' := (processItem (observeOffset (offsetOf y) t) y now).1 in
  exists y', Ready t' = Some y' /\ wiMessage y' = wiMessage y /\ elems (GapBuffer t') = [] /\
    CommittedPlusOne t' = offsetOf y.
Proof.
  intros [Hr He] Hf Hle. unfold processItem. rewrite Hf.
  assert (Ho : exists t1, observeOffset (offsetOf y) t = t1 /\ Ready t1 = None /\ elems (GapBuffer t1) = [] /\
    CommittedPlusOne t1 = CommittedPlusOne t).
  { eexists. split; [reflexivity|]. unfold observeOffset. destruct (_ <? _); [done|]. by destruct (_ >? _). }
  destruct Ho as (t1 & -> & Hr1 & He1 & Hc1). rewrite Hc1.
  rewrite (proj2 (Z.geb_le (offsetOf y) (CommittedPlusOne t))) by lia.
  unfold checkAndAdvance. simpl. rewrite Hr1, Z.eqb_refl. unfold advanceThroughGapBuffer. simpl. rewrite He1. simpl.
  by eexists.
Qed.


(** ** A drain of a pipeline that looks cold *)

Variable exact : Prop.
Hypothesis R_nonneg : forall p r, R p r -> 0 <= r.

Lemma applyCommits_other b ms p : Forall (fun m => Partition m <> p) ms -> applyCommits b ms p = b p.
Proof.
  unfold applyCommits. intros H. revert b. induction H as [|m ms Hm _ IH]; intros b; [done|]. simpl. rewrite IH.
  unfold update. by rewrite decide_False by congruence.
Qed.

(** C40: the hand-over is exact only with the ingest loop's token.  Take any run in which
    a drain sees the committer's channel empty, and at the end of its grace period, without
    a token, the ingest loop still holds an item that it has taken from the channel but
    not yet processed, and whose partition's tracker has nothing pending.  Whatever the
    other goroutines did meanwhile, and whatever the broker answers, the drain succeeds,
    though the item's record has been processed, its final commit sends nothing for the
    partition and the broker's position stays where it was: if that is at or below the
    record, the next owner processes it again. *)
Theorem cold_drain_misses_item w0 w1 w2 y t broker order1 order2 now oc oc' sent e :
  reachable R exact w0 w1 -> queued (commitsIn (wOc w1)) = [] ->
  rtc (step R exact) w1 w2 -> wIngest w2 = Received y ->
  PartitionMap (wOc w2) !! partitionOf y = Some t -> idleTracker t ->
  range_order (PartitionMap (wOc w2)) order1 -> range_order (PartitionMap (wOc w2)) order2 ->
  let commit oc := CommitOffsets oc true broker order1 order2 now in
  commit (wOc w2) = (oc', sent, e) ->
  Drain true commit (fun _ => wOc w1) (fun _ => wOc w2) false oc = (oc', sent, None, false) /\
  wDone w2 (partitionOf y) (offsetOf y) /\
  Forall (fun m => Partition m <> partitionOf y) sent /\
  applyCommits (wBroker w2) sent (partitionOf y) = wBroker w2 (partitionOf y).
Proof.
  intros [Hin Hr1] Hq Hr2 Hi Ht Hid Ho1 Ho2 commit Hc.
  assert (Hr : reachable R exact w0 w2) by (split; [done | by etrans]).
  destruct (reachable_inv R exact R_nonneg w0 w2 Hr) as [HI _].
  assert (Hs : Forall (fun m => Partition m <> partitionOf y) sent).
  { apply (tick_idle (wOc w2) true broker order1 order2 now oc' sent e (partitionOf y) t); try done.
    intros p t' Ht'. by apply (di_trackers _ _ HI p t'). }
  split_and!; [| | done | by apply applyCommits_other].
  - unfold Drain, drainWorkers, drainCommitter, DrainCommitter, surfaceFinalCommit.
    replace (chLen (commitsIn (wOc w1)) =? 0) with true by (unfold chLen; by rewrite Hq).
    unfold commit in *. rewrite Hc.
    by destruct (tick_guarded _ _ _ _ _ _ _ _ Hc) as [-> | ->].
  - pose proof (di_arrived _ _ HI) as Ha. rewrite Hi in Ha. simpl in Ha. apply Forall_cons in Ha as [Ha _].
    exact (ok_done _ _ _ Ha).
Qed.
End Defects.

(** ** Runs that show them *)

(** Partition 0 is assigned; record 0 is polled and processed; the partition is
    revoked; the ingest loop has received the item and waits for its ticker, so the
    channel is empty and the mutex free. *)
Definition cold1 : World :=
  mkWorld (wOc run3) IngestIdle (wSub run3) (<[0 := 0]> ∅) (<[0 := 1]> (wFetch run3)) [rec0] [rec0] []
    (wOwned run3) (wBroker run3) (wDone run3).
Definition cold2 : World :=
  mkWorld (sent (wOc cold1) rec0) IngestIdle (wSub cold1) (wPrev cold1) (wFetch cold1) [rec0] [] []
    (wOwned cold1) (wBroker cold1) (complete (wDone cold1) rec0).
Definition cold3 : World :=
  let '(s, calls, _) := HandleRebalance (wSub cold2) Revoke runInfo false in
  mkWorld (wOc cold2) IngestIdle s (wPrev cold2) (wFetch cold2) [rec0] [] calls (wOwned cold2) (wBroker cold2)
    (wDone cold2).
Definition cold4 : World := setIngest (Received rec0) (setOc (recv (wOc cold3)) cold3).

(** The final commit of the drain. *)
Definition coldTick : Committer * list Message * option CommitError :=
  CommitOffsets (wOc cold4) true (fun _ => false) (keys (wOc cold4)) (keys (wOc cold4)) 11.

Lemma cold_reachable : reachable runLog True run0 cold4.
Proof.
  split; [apply run0_initial|]. etrans; [apply run_assign|].
  apply (rtc_l _ _ cold1).
  { apply (PollStep _ _ run3 rec0 0 (<[0 := 0]> ∅)); try done; [|apply not_elem_of_nil].
    intros r [_ ?] ??. change (offsetOf rec0) with 0 in *. lia. }
  apply (rtc_l _ _ cold2). { by apply (CompleteStep _ _ cold1 rec0 rec0 [] (sent (wOc cold1) rec0)). }
  apply (rtc_l _ _ cold3). { by eapply (RebalanceStart _ _ cold2 Revoke runInfo false). }
  apply rtc_once. eapply (ReceiveStep _ _ cold3 rec0); reflexivity.
Qed.

Lemma cold1_reachable : reachable runLog True run0 cold1.
Proof.
  split; [apply run0_initial|]. etrans; [apply run_assign|]. apply rtc_once.
  apply (PollStep _ _ run3 rec0 0 (<[0 := 0]> ∅)); try done; [|apply not_elem_of_nil].
  intros r [_ ?] ??. change (offsetOf rec0) with 0 in *. lia.
Qed.

(** The event strikes while record 0 is with the application; then record 1 completes. *)
Definition skipped1 : World := emptyAssign false cold1.
Definition skipped2 : World := setHandler (tail (wHandler skipped1)) (setPrev (Reset (wPrev skipped1) []) skipped1).
Definition skipped3 : World := setHandler (tail (wHandler skipped2)) (setOc (wOc skipped2) skipped2).
Definition skipped4 : World := setHandler [] (setOwnership (wOwned skipped3) (∅ ∪ wFetch skipped3) skipped3).
Definition later : WorkItem := runItem 600 1 0 true.
Definition skipTick : Committer * list Message * option CommitError :=
  let oc := processCommit (wOc skipped4) later 3 in CommitOffsets oc true (fun _ => false) (keys oc) (keys oc) 4.

Lemma skipped_run : rtc (handlerTurn runLog) (emptyAssign false cold1) skipped4.
Proof.
  apply (rtc_l _ _ skipped2). { eexists _, _, _. split; [reflexivity|]. split; [apply ExecResetPrev | reflexivity]. }
  apply (rtc_l _ _ skipped3).
  { eexists _, _, (setOc (ResetCommittedOffsets (wOc skipped2) []) skipped2).
    split; [reflexivity|]. split; [by apply (ExecResetCommitted _ _ ∅ []) | reflexivity]. }
  apply rtc_once. eexists _, _, _. split; [reflexivity|].
  split; [apply (ExecAckAssign _ skipped3 [] ∅) | reflexivity]. intros p f. by rewrite lookup_empty.
Qed.


(** In a revoke of the reachable run, record 0 is committed neither then nor later. *)
Lemma cold_drain_misses_item_witness :
  head (wHandler cold4) = Some CallDrain /\ wBroker cold4 0 = 0 /\ wDone cold4 0 0 /\
  Drain true (fun oc => CommitOffsets oc true (fun _ => false) (keys (wOc cold4)) (keys (wOc cold4)) 11)
    (fun _ => wOc cold4) (fun _ => wOc cold4) false (wOc cold4) = (coldTick.1.1, coldTick.1.2, None, false) /\
  applyCommits (wBroker cold4) coldTick.1.2 0 = 0.
Proof.
  split; [reflexivity|]. split; [reflexivity|].
  destruct (PartitionMap (wOc cold4) !! 0) as [t|] eqn:Et; [|vm_compute in Et; discriminate].
  assert (Hid : idleTracker t) by (vm_compute in Et; injection Et as <-; split; reflexivity).
  destruct (cold_drain_misses_item runLog True runLog_nonneg run0 cold4 cold4 rec0 t (fun _ => false)
    (keys (wOc cold4)) (keys (wOc cold4)) 11 (wOc cold4) coldTick.1.1 coldTick.1.2 coldTick.2 cold_reachable eq_refl
    (rtc_refl _ cold4) eq_refl Et Hid (keys_range _) (keys_range _)) as (H1 & H2 & _ & H4).
  - unfold coldTick. by destruct (CommitOffsets _ _ _ _ _ _) as [[? ?] ?].
  - split; [exact H2|]. split; [exact H1 | exact H4].
Defined.

(** ** Dead letters in the snapshot window *)

(** The application fails on record 0 and its dead letter is written: the item
    that reaches the committer. *)
Definition dlFate : ItemFate :=
  processWorkItem false (runItem 700 0 (-1) true) (mkAppCall AppError AppOk 0 5 9).
Definition dlItem : WorkItem :=
  match dlFate with Committed w => w | _ => runItem 700 0 (-1) true end.

Definition dl0 : Committer :=
  MarkPartitionAssigned (ResetCommittedOffsets (NewCommitter 4 8 0) [(0, 0)]) 0 1.
Definition dl2 : Committer :=
  let oc := processCommit dl0 dlItem 10 in
  (CommitOffsets oc true (fun _ => false) (keys oc) (keys oc) 11).1.1.

(** Processing never raises a trait of the metrics, which are what
    [returnMessageAndCollectMetrics] tests. *)
Lemma processWorkItem_metrics_traits done w app w' :
  processWorkItem done w app = Committed w' -> Traits (wiMetrics w') = Traits (wiMetrics w).
Proof.
  unfold processWorkItem. destruct done; [by intros|].
  by destruct app as [[] [] start finish written]; simpl; try (by intros [= <-]); intros.
Qed.

(** A dead-lettered record is counted as processed but never as a dead letter
    in the snapshot window: the worker raises the trait on the message, and the
    committer's epilogue reads the metrics' traits. *)
Lemma dead_letter_not_counted :
  dlFate = Committed dlItem /\
  hasTrait (msgTraits (wiMessage dlItem)) DeadLetter = true /\
  map ptr (collected dl2) = [700] /\
  totalProcessed dl2 = 1 /\
  sum_list_with Z.to_nat (ThroughputPerBucket (committerWindowData dl2)) = 1%nat /\
  Forall (fun n => n = 0) (DeadLetterPerBucket (committerWindowData dl2)).
Proof. vm_compute. split_and!; try reflexivity. repeat constructor. Qed.

(** ** The age of the snapshot window *)

(** One sample at second 100, nothing afterwards. *)
Definition oneSample : WindowData :=
  windowData (recordAll (newRingBuffer second 15 (100 * second)) [(100 * second, mkSample 1 1 false)]).

(** An idle consumer keeps reporting its last traffic as current.  The ring
    moves only when a sample is recorded, and a snapshot labels its newest bucket
    with the present: an hour after the only message, the window that holds the
    present still counts it. *)
Theorem idle_window_stale :
  let now := 3700 * second in
  map (fun e => (FromTime e, ProcessedCount e)) (take 1 (Windows (takeThroughput now oneSample))) =
    [(3700 * second, 1)] /\
  tsTotalProcessed (takeThroughput now oneSample) = 1.
Proof. vm_compute. split; reflexivity. Qed.

(** ** Duplicates in the gap buffer *)

(** Two copies of offset 7, read at different times, wait behind the missing
    offset 6 and are compacted when it completes. *)
Definition twin (p read : Z) : WorkItem :=
  mkWorkItem p (mkMessage 0 0 7 EmptyString None) (mkMetrics 0 0 0 7 0 0 read 0 0 0) None 6 false 0.
Definition tw0 : Committer :=
  MarkPartitionAssigned (ResetCommittedOffsets (NewCommitter 4 8 0) [(0, 6)]) 0 1.
Definition tw1 : Committer :=
  foldl (fun oc w => processCommit oc w 3) tw0 [twin 71 1; twin 72 2; runItem 60 6 5 true].
Definition tw2 : Committer := flushGapBuffers tw1 (keys tw1) 4.
Definition tw3 : Committer := (CommitOffsets tw2 true (fun _ => false) (keys tw2) (keys tw2) 5).1.1.

(** A work item dropped as a duplicate leaves the engine without its epilogue:
    after the commit nothing is tracked any more, and of three completed items two
    were returned; the earlier-read copy is never handed to the metrics collector
    nor to the pool. *)
Lemma duplicate_not_returned :
  map ptr (collected tw3) = [60; 72] /\ totalProcessed tw3 = 2 /\
  HasPendingCommits (PartitionMap tw3) = false.
Proof. vm_compute. split_and!; reflexivity. Qed.

(** ** Ends the host hears nothing of, or the wrong thing *)

(** [Shutdown] before any callback exists sends the graceful token and the observer
    leaves; then a callback is registered and the breaker trips. *)
Definition tripAfterEarlyShutdown : list (@Event Z Z) :=
  ShutsDown 5 :: repeat (Turn 5 ready) 3 ++ [Turn 0 ready; Registers 1; Trips 7 (Some 99)] ++ repeat (CallTurn 7) 6.

(** A second [Shutdown], with a drain that succeeds. *)
Definition secondShutdown : list (@Event Z Z) :=
  ShutsDown 8 :: repeat (Turn 8 ready) 3 ++ repeat (Turn 6 ready) 2 ++ repeat (Turn 8 ready) 6.

Definition earlyShutdown : option (@Consumer Z Z) :=
  replay 0 1 true tripAfterEarlyShutdown (Exit.Build None NewCircuitBreaker).

(** After an early [Shutdown] no trip is delivered any more: the breaker is tripped,
    nothing is left to run, and the callback was not called.  A later [Shutdown]
    even reports a graceful end. *)
Lemma early_shutdown_silences :
  match earlyShutdown with
  | Some c =>
      Reason (breaker (circuitBreaker c)) = Some 99 /\ notified c = [] /\ quiet 0 1 true c /\
      notified <$> replay 0 1 true secondShutdown c = Some [(1, None)]
  | None => False
  end.
Proof.
  destruct earlyShutdown as [c|] eqn:Ec; [|vm_compute in Ec; discriminate].
  vm_compute in Ec. injection Ec as <-. split; [reflexivity|]. split; [reflexivity|]. split; [|vm_compute; reflexivity].
  apply over_quiet; apply (bool_decide_unpack _); vm_compute; exact I.
Qed.

(** A [Shutdown] whose drain fails and trips the breaker, and which reaches the
    election before the observer has stored the reason: the callback is told of a
    graceful end. *)
Definition failedDrainFirst : list (@Event Z Z) :=
  ShutsDown 5 :: repeat (Turn 5 ready) 3 ++ repeat (Turn 6 drainFails) 2 ++ repeat (CallTurn 9) 6 ++
  repeat (Turn 6 ready) 2 ++ repeat (Turn 5 ready) 5.

Lemma failed_drain_told_graceful :
  match replay 0 1 true failedDrainFirst (Exit.Build (Some 1) NewCircuitBreaker) with
  | Some c => Reason (breaker (circuitBreaker c)) = Some 77 /\ notified c = [(1, None)]
  | None => False
  end.
Proof. vm_compute. split; reflexivity. Qed.
